(* ===== verification/_CoqProject ===== *)
-Q . S2P
Prelude.v
Ints.v
Sorting.v
SphTypes.v
Stream.v
SphHash.v
SphStream.v
MdHelper.v
Sha2big.v
Blake.v
Cubehash.v
Keccak.v
ArithUint256.v
Uint256.v
BlockIndex.v
Params.v
Pow.v
Chain.v
Merkle.v
Serialize.v
Transaction.v
Script.v
Standard.v
Compressor.v
Coins.v
TxVerify.v
BlockUndo.v
Sighash.v
Interpreter.v
ScriptVerify.v
AdamSeed.v
AdamPing.v
AdamSelect.v
AdamFallback.v
StakeModifier.v
ChainSelect.v
ActivateChain.v
BlockTree.v
MpaWeight.v
Kernel.v
BlockReward.v
ConnectBlock.v
