(* ===== verification/Prelude.v ===== *)
(** * KristaTech: a verification development of its consensus core

    KristaTech is a cryptocurrency node in C and C++ under [src/src].  This library
    models the parts that decide which transactions, blocks and elected nodes are valid, as
    executable definitions that follow the source loop by loop, and proves what they
    compute.

    ** The program's parts and where they are modelled

    - Hashing.  The sphlib functions in [crypto/] that the proof of work chains
      together share their word macros, buffering loop and padding helper.
      [SphTypes] models [sph_types.h]; [Stream] the update loop common to all of
      them; [SphHash] is the interface (a class of operations and the contract that
      the digest depends only on the bytes received); [SphStream] derives the contract
      for contexts of the usual shape; [MdHelper] models [sph_md_helper.c] with its
      compile-time options as a record.  [Sha2big], [Blake], [Cubehash] and [Keccak]
      model [sph_sha2big.c], [blake.c], [cubehash.c] and [keccak.c], macros and
      unrollings included.
    - Integers.  [Ints] has the conversions of the C++ integer types, [ArithUint256]
      the limb loops of [base_uint] ([arith_uint256.h], [arith_uint256.cpp]), [Uint256]
      the compact encoding of targets ([uint256.cpp]).
    - Chain state.  [BlockIndex] models the tree of [CBlockIndex] entries as a heap of
      linked records with its skip list ([chain.h], [chain.cpp], [main.cpp]); [Chain]
      the active chain [CChain]; [Params] the upgrades of [consensus/params.h] and
      [consensus/upgrades.cpp]; [Pow] the target computation, the check of a hash and
      the chain work of [pow.cpp]; [Merkle] the trees of [consensus/merkle.cpp].
    - Transactions.  [Serialize] models the encodings of [serialize.h] over the streams
      of [streams.h], with the classes [RoundTrips] and [Canonical] as the interface
      between the types and their clients; [Transaction] the types of
      [primitives/transaction.h] and their wire format.
    - Scripts.  [Script] models the numbers, pushes and instruction reader of
      [script/script.h]; [Standard] the templates and destinations of
      [script/standard.cpp]; [Sighash] what signatures sign and the checkers, and
      [Interpreter] the stack machine and [VerifyScript], both of
      [script/interpreter.cpp]; [ScriptVerify] has the theorems on what is accepted.
    - Coins.  [Compressor] models the stored forms of amounts, scripts, coins and undo
      records ([compressor.h], [coins.h], [undo.h]); [Coins] the stack of caches over
      the database view ([coins.cpp], [txdb.cpp]).
    - Validation.  [TxVerify] models the checks of a transaction with and without its
      coins ([consensus/tx_verify.cpp], [main.cpp]); [BlockUndo] how connecting and
      disconnecting a block moves coins ([main.cpp]); [BlockReward] what a block may mint
      and to whom it goes ([masternode.cpp], [masternode-payments.cpp]); [ConnectBlock] the
      checks and sums of [ConnectBlock] and [DisconnectBlock] in [main.cpp], up to the money
      supply, and how [ConnectTip] flushes its view.
    - Fork choice ([main.cpp]).  [ChainSelect] models the order of tips, the set of
      candidates and [FindMostWorkChain]; [ActivateChain] how [ActivateBestChain]
      connects and disconnects blocks; [BlockTree] how headers and transactions arrive
      and how an operator marks a block.
    - Proof of stake.  [StakeModifier] models [legacy/stakemodifier.cpp]; [MpaWeight] the
      weight of a stake by masternode, lock or burn and the cache of burns ([kernel.cpp],
      [main.cpp]); [Kernel] the stake input, the kernel hash, the search of a staker and
      the check of a block ([kernel.cpp], [stakeinput.cpp], [timedata.cpp]).
    - ADAM, the node's cooperative consensus ([adam.cpp], [adam.h]).  [AdamSeed] models
      the rolling seed over the block index, with the seed [ConnectBlock] stores for a
      block; [AdamPing] the registry of masternode
      pings, collaterals and delegations, with the loop of [DisconnectBlock] in
      [main.cpp] that takes pings back and the snapshot on disk; [AdamSelect] the
      election of miners and coordinator from the registry and a pool of keys;
      [AdamFallback] the rotation of the coordinator's role.

    The parts interact as in the program: targets are read from the block index by
    pointer, chain work and targets use the limb integers, the seed walks the block
    index, the election reads the registry; the interpreter calls a signature checker
    through its interface, the checker serialises transactions, the checks and the
    block functions work on a view of coins through its operations; the fork choice moves
    the active chain over the block index, and the weight of a stake reads the registry,
    the coins and the burns.

    ** Conventions

    A machine integer is an integer with its wrap-around written out; an array or
    vector is a list; a [std::map] is a [gmap]; a pointer is a key of the heap.  A
    failed assertion, a null dereference, an access out of range and an exception are
    [None], so every theorem that an operation returns [Some] also says that none of
    them happens.  Code that is not modelled is an argument of the definitions that
    call it: the hash of two Merkle nodes, the block file, the hash functions of
    scripts, signature checks ([CPubKey::Verify], [CheckLowS], Schnorr and tweak
    checks), key decompression, the memory a script occupies, the hash of seed and key,
    the pool of candidate keys, the transaction index, the clock; in the fork choice, what
    [ConnectBlock] answers for a block and whether the disk fails.  Where the code distinguishes errors, they are the
    constructors of a type and the operation returns one of them.  A view of coins is
    the list of its caches over the database, top first; a script stack has its top
    first; an iterator into a script or a stream is the suffix it points to.
    [std::sort] is a class ([Sorting]) with the contract of the language, which leaves
    the order of equivalent elements open.
    Loops that are not structural take fuel: the height of a block, plus a constant,
    for every walk along parents (each step lowers the height, an invariant of the
    tree); the division counts its shift down; the interpreter's loop takes the length
    of the script, since every instruction consumes a byte; [FindMostWorkChain] the number
    of candidates, [ActivateBestChain] the square of the number of blocks, the linking of
    arrived blocks the number that wait, the search of a staker the seconds of its window.
    The theorems show the fuel is enough.

    ** What the theorems show

    - Each hash function returns the digest of its specification (FIPS 180-4, BLAKE,
      CubeHash, Keccak) for every cut of a message into updates and every number of
      trailing bits, where those of SHA-512 and Keccak derive their own constants; the
      unrolled compression functions are the specified ones; the conditional compilations
      agree; the CubeHash rounds are invertible and its initial values are the specified
      ones.
    - The limb operations are arithmetic modulo a power of two, the division throws
      exactly on zero; compact targets round-trip on canonical words, lose less than
      one part in 2^15 otherwise, and their flags are exact.
    - The skip list finds the ancestors the parents define; [SetTip] makes the active
      chain the path to its tip; [FindFork] finds the last common block; locators are
      logarithmic; upgrades are active from their height on.
    - The next target is always defined, within its limit, and in the work phase the
      Dark Gravity Wave of the last 24 blocks without overflow; chain work is the
      expected number of hashes.
    - The constant-space Merkle computation is the tree by levels, its mutation flag is
      exact, and branches verify.
    - Every reachable registry keeps one key per collateral and consistent heights and
      histories; a ping is accepted exactly when authorised; disconnecting a block,
      reverting delegations and restarting give back the earlier registry.
    - Every transaction has one wire form and every accepted wire form one transaction;
      script numbers, pushes, compressed coins and undo records read back what was
      written; the minimal encodings are unique.
    - The stack of coin caches is a stack of plain maps, whatever was cached, flushed or
      uncached before; disconnecting a block that was connected gives back the coins and
      reports no inconsistency; [CheckTransaction] accepts exactly the well-formed
      transactions, and past the last checkpoint [CheckTxInputs] lets no transaction
      but a coinstake or a zero-coin one, which pays nothing, spend more than its coins,
      and none an immature coin.
    - The block reward decays by 1.9 percent a period, to less than a unit, and never
      carries the supply over its maximum; the coins are never worth more than the money
      supply, nor the supply more than its cap, through any reorganisation, provided that no
      block has more than one coinstake.
    - The interpreter always returns, keeps its limits on stack, element size and
      operations, and its values stay bytes; the outcome of spending to a key hash and
      to a script hash is given for every input; multisig matches signatures greedily
      and completely; the accepted signatures are strict DER.
    - The streaming signature hash is the original algorithm on a modified copy, and
      commits to everything it says it signs.
    - Whatever blocks arrive, in whatever order, the node ends on the best block whose
      ancestors are all there and acceptable; nodes that know the same blocks end on the
      same tip; marking a block takes exactly its descendants out of the choice, and
      reconsidering it clears exactly the marks of its descendants and ancestors.
    - What a staker finds every node accepts; a heavier stake wins whenever a lighter one
      does; the weights are defined and bounded without overflow; the cache of burns
      survives reorganisations; the modifier of a coin settles once found.
    - Ten defects: Taproot outputs are spendable without a signature in a block, the
      Taproot signature hash does not depend on the transaction, the registration of a
      miner by a locked coin is never recognised, reconsidering a block leaves its
      ancestors out of the candidates, the stake modifier of a stake-only chain depends on
      no hash, many coinstakes in a proof-of-work block overflow its mint check, a refused
      block leaves its burns in the cache, a repeated coinbase divides nodes by what
      they have cached, a seed stored above a block that could not be read is wrong for
      good, and two delegations of a key in one block are reverted in the wrong order.
    - An election always returns the lowest-ranked keys and the coordinator its rules
      name, nodes agree on it whatever their caches hold, the seed is the fold of all
      proofs as long as the parents of connected blocks are readable, and the fallback
      rotation gives the miners their turns in the order of their ranking.

    ** Not modelled

    Of [main.cpp], [CheckBlock] and [AcceptBlock], the governance signature on spends of
    the treasury, undo files and indexes, the mempool and message processing, and the
    loading of the tree from disk; of payments, who the masternode and participants are
    ([masternode-payments.cpp]).  Of proof of stake, the snapshot of the burn cache on disk, the wallet's
    side and the block signature.  Of scripts, signing and most of the MESCAL compiler
    ([script/sign.cpp], [script/mescal.cpp]); of coins, [GetPriority], which is
    floating point.  The other sphlib hashes ([bmw.c],
    [groestl.c], [jh.c], [skein.c], [luffa.c], [shavite.c], [simd.c], [echo.c],
    [hamsi.c], [fugue.c], [shabal.c], [whirlpool.c], [haval.c]): table-driven code on
    the helpers modelled here.  SHA-256, RIPEMD-160 and the ciphers of [crypto/], which
    scripts take as parameters.  In ADAM, the extraction of pings from transactions, the
    choice of which pings a block registers, the candidate pool, puzzles, BLS keys and
    quorums.  Network, RPC, wallet and interface code, and the vendored libraries
    (secp256k1, leveldb, univalue): input and output, or not this project's own.

    This file holds what all others share: word notations, the hint databases [words]
    and [bits] with their tactics, and lemmas on lists and integers. *)

From Stdlib Require Export ZArith Lia.
From Stdlib Require Import Btauto.
From stdpp Require Export base numbers list.

Local Open Scope Z_scope.

(** ** Word notations, with the precedence the C operators have *)

Declare Scope word_scope.
Delimit Scope word_scope with word.

Notation "x << n" := (Z.shiftl x n) (at level 51, left associativity) : word_scope.
Notation "x >> n" := (Z.shiftr x n) (at level 51, left associativity) : word_scope.
Notation "x .& y" := (Z.land x y) (at level 52, left associativity) : word_scope.
Notation "x .^ y" := (Z.lxor x y) (at level 53, left associativity) : word_scope.
Notation "x .| y" := (Z.lor x y) (at level 54, left associativity) : word_scope.

(** Array read: an array of words is a list; reads are within bounds wherever
    they occur, so the default is never observed. *)
Notation "l .[ i ]" := (nth i l 0%Z) (at level 1, left associativity, format "l .[ i ]") : word_scope.

Open Scope word_scope.

(** ** Words of a given width *)

Definition word (w x : Z) : Prop := 0 ≤ x < 2 ^ w.

Abbreviation byte := (word 8).

#[export] Instance word_dec w x : Decision (word w x).
Proof. unfold word. apply _. Defined.

Create HintDb words.

Lemma word_0 w : 0 ≤ w → word w 0.
Proof. unfold word. pose proof (Z.pow_pos_nonneg 2 w). lia. Qed.

Lemma word_mod w x : 0 ≤ w → word w (x mod 2 ^ w).
Proof. intros. apply Z.mod_pos_bound. apply Z.pow_pos_nonneg; lia. Qed.

Lemma word_mod_id w x : word w x → x mod 2 ^ w = x.
Proof. apply Z.mod_small. Qed.

Lemma word_testbit_high w x i : word w x → 0 ≤ w → w ≤ i → Z.testbit x i = false.
Proof. intros Hx Hw Hi. rewrite <- (word_mod_id w x Hx). by apply Z.mod_pow2_bits_high. Qed.

(** A nonnegative number all of whose bits from [w] on are clear is a word. *)
Lemma word_of_testbit w x :
  0 ≤ w → 0 ≤ x → (∀ i, w ≤ i → Z.testbit x i = false) → word w x.
Proof.
  intros Hw Hx Hb. enough (x mod 2 ^ w = x) as <- by by apply word_mod.
  apply Z.bits_inj'. intros i Hi. destruct (Z.lt_ge_cases i w).
  - by apply Z.mod_pow2_bits_low.
  - rewrite Z.mod_pow2_bits_high by lia. by rewrite Hb.
Qed.

Lemma word_bitop (f : Z → Z → Z) (b : bool → bool → bool) w x y :
  (∀ i, Z.testbit (f x y) i = b (Z.testbit x i) (Z.testbit y i)) →
  b false false = false → 0 ≤ f x y →
  0 ≤ w → word w x → word w y → word w (f x y).
Proof.
  intros Hf Hb Hpos Hw Hx Hy. apply word_of_testbit; [done..|]. intros i Hi.
  by rewrite Hf, !(word_testbit_high w) by done.
Qed.

Lemma word_lxor w x y : 0 ≤ w → word w x → word w y → word w (x .^ y).
Proof.
  intros ? [] []. apply (word_bitop _ xorb); try done; [intros; apply Z.lxor_spec|].
  by apply Z.lxor_nonneg.
Qed.

Lemma word_lor w x y : 0 ≤ w → word w x → word w y → word w (x .| y).
Proof.
  intros ? [] []. apply (word_bitop _ orb); try done; [intros; apply Z.lor_spec|].
  by apply Z.lor_nonneg.
Qed.

Lemma word_land w x y : 0 ≤ w → word w x → word w y → word w (x .& y).
Proof.
  intros ? [] []. apply (word_bitop _ andb); try done; [intros; apply Z.land_spec|].
  apply Z.land_nonneg. by left.
Qed.

Lemma word_land_r w x y : 0 ≤ w → word w y → word w (x .& y).
Proof.
  intros ? Hy. apply word_of_testbit; [done|apply Z.land_nonneg; right; apply Hy|].
  intros. by rewrite Z.land_spec, (word_testbit_high w y), andb_false_r.
Qed.

Lemma word_shiftr w x n : 0 ≤ n → word w x → word w (x >> n).
Proof.
  intros ? [? ?]. rewrite Z.shiftr_div_pow2 by done.
  pose proof (Z.pow_pos_nonneg 2 n). split; [by apply Z.div_pos; lia|].
  apply Z.div_lt_upper_bound; nia.
Qed.

Lemma word_shiftl w x n : 0 ≤ n ≤ w → word (w - n) x → word w (x << n).
Proof.
  intros ? [? ?]. unfold word. rewrite Z.shiftl_mul_pow2 by lia.
  replace w with (w - n + n) at 1 by lia. rewrite Z.pow_add_r by lia.
  pose proof (Z.pow_pos_nonneg 2 n). nia.
Qed.

Lemma word_weaken w w' x : w ≤ w' → word w x → word w' x.
Proof. intros ? [? ?]. split; [done|]. pose proof (Z.pow_le_mono_r 2 w w'). lia. Qed.

#[export] Hint Resolve word_0 word_mod word_lxor word_lor word_land : words.
#[export] Hint Extern 2 (_ ≤ _) => lia : words.

(** Close a goal [word w e] from the closure lemmas. *)
Ltac words := auto 20 with words; unfold word in *; lia.

(** ** Bitwise equalities *)

Create Rewrite HintDb bits.
#[export] Hint Rewrite Z.lxor_spec Z.lor_spec Z.land_spec : bits.
#[export] Hint Rewrite Z.shiftl_spec Z.shiftr_spec Z.ldiff_spec Z.lnot_spec using lia : bits.

(** Close a Boolean identity in bits. *)
Ltac bits_tauto :=
  repeat match goal with |- context [Z.testbit ?a ?b] =>
    let v := fresh "v" in set (v := Z.testbit a b); clearbody v end;
  btauto.

(** Prove an equality of two bit expressions in the same variables, bit by bit. *)
Ltac bitwise := apply Z.bits_inj'; intros ? ?; autorewrite with bits; bits_tauto.

Lemma shiftl_bit x n i : Z.testbit (x << n) i = if 0 <=? i then Z.testbit x (i - n) else false.
Proof. destruct (Z.leb_spec 0 i); [by apply Z.shiftl_spec|by rewrite Z.testbit_neg_r]. Qed.

Lemma shiftr_bit x n i : Z.testbit (x >> n) i = if 0 <=? i then Z.testbit x (i + n) else false.
Proof. destruct (Z.leb_spec 0 i); [by apply Z.shiftr_spec|by rewrite Z.testbit_neg_r]. Qed.

(** Push a bit test at a concrete position down to the variables. *)
Ltac push_testbit :=
  repeat match goal with
  | |- context [Z.testbit (?x .| ?y) ?i] => rewrite (Z.lor_spec x y i)
  | |- context [Z.testbit (?x .& ?y) ?i] => rewrite (Z.land_spec x y i)
  | |- context [Z.testbit (?x .^ ?y) ?i] => rewrite (Z.lxor_spec x y i)
  | |- context [Z.testbit (?x << ?n) ?i] =>
     let j := eval vm_compute in (i - n) in
     rewrite (shiftl_bit x n i : Z.testbit (x << n) i = Z.testbit x j)
  | |- context [Z.testbit (?x >> ?n) ?i] =>
     let j := eval vm_compute in (i + n) in
     rewrite (shiftr_bit x n i : Z.testbit (x >> n) i = Z.testbit x j)
  | |- context [Z.testbit ?x (Zneg ?p)] => change (Z.testbit x (Zneg p)) with false
  | |- context [Z.testbit (Zpos ?c) ?i] =>
      let b := eval vm_compute in (Z.testbit (Zpos c) i) in change (Z.testbit (Zpos c) i) with b
  end.

(** Case analysis on a bit index below a concrete width [n]. *)
Ltac nat_cases k := first [exfalso; lia | destruct k as [|k]; [| nat_cases k]].

Ltac bit_index i n :=
  rewrite <- (Z2Nat.id i) by lia;
  let k := fresh "k" in
  assert (Z.to_nat i < n)%nat by lia; generalize dependent (Z.to_nat i); intros k ?;
  clear dependent i; nat_cases k;
  match goal with |- context [Z.of_nat ?m] =>
    let j := eval vm_compute in (Z.of_nat m) in change (Z.of_nat m) with j end.

(** [a * 2^k] and a word of width [k] occupy disjoint bits. *)
Lemma lor_shiftl_add k a b : 0 ≤ k → word k b → (a << k) .| b = a * 2 ^ k + b.
Proof.
  intros Hk Hb. rewrite <- Z.shiftl_mul_pow2 by done.
  pose proof (Z.add_nocarry_lxor (a << k) b) as H.
  assert ((a << k) .& b = 0) as Hd.
  { apply Z.bits_inj'. intros i Hi. rewrite Z.land_spec, Z.bits_0, Z.shiftl_spec by done.
    destruct (Z.lt_ge_cases i k).
    - by rewrite Z.testbit_neg_r by lia.
    - rewrite (word_testbit_high k b) by done. apply andb_false_r. }
  rewrite H by done. apply Z.lxor_lor in Hd. done.
Qed.

Lemma land_ones_mod x w : 0 ≤ w → x .& Z.ones w = x mod 2 ^ w.
Proof. apply Z.land_ones. Qed.

(** ** Little-endian value of a byte string *)

Fixpoint le_dec (l : list Z) : Z :=
  match l with
  | [] => 0
  | b :: l => b + 256 * le_dec l
  end.

Fixpoint le_enc (n : nat) (v : Z) : list Z :=
  match n with
  | O => []
  | S n => v mod 256 :: le_enc n (v / 256)
  end.

Lemma length_le_enc n v : length (le_enc n v) = n.
Proof. revert v. induction n; intros; simpl; auto. Qed.

Lemma le_enc_bytes n v : Forall byte (le_enc n v).
Proof.
  revert v. induction n; intros v; simpl; constructor; [|done].
  change 256 with (2 ^ 8). by apply word_mod.
Qed.

Lemma le_dec_word l : Forall byte l → word (8 * Z.of_nat (length l)) (le_dec l).
Proof.
  induction 1 as [|b l Hb _ IH]; simpl; [done|]. unfold word in *.
  replace (8 * Z.of_nat (S (length l))) with (8 + 8 * Z.of_nat (length l)) by lia.
  rewrite Z.pow_add_r by lia. change (2 ^ 8) with 256 in *. lia.
Qed.

Lemma le_enc_dec l : Forall byte l → le_enc (length l) (le_dec l) = l.
Proof.
  induction 1 as [|b l Hb _ IH]; simpl; [done|]. unfold word in Hb.
  change (2 ^ 8) with 256 in Hb.
  replace ((b + 256 * le_dec l) mod 256) with b.
  2:{ rewrite Z.mul_comm, Z_mod_plus_full, Z.mod_small; lia. }
  replace ((b + 256 * le_dec l) / 256) with (le_dec l).
  2:{ rewrite Z.mul_comm, Z_div_plus_full, Z.div_small; lia. }
  by rewrite IH.
Qed.

Lemma le_dec_enc n v : 0 ≤ v → le_dec (le_enc n v) = v mod 2 ^ (8 * Z.of_nat n).
Proof.
  revert v. induction n as [|n IH]; intros v Hv; simpl; [by rewrite Z.mod_1_r|].
  rewrite IH by (apply Z.div_pos; lia).
  replace (8 * Z.of_nat (S n)) with (8 + 8 * Z.of_nat n) by lia.
  rewrite Z.pow_add_r by lia. change (2 ^ 8) with 256.
  rewrite Z.rem_mul_r; [lia..|]. by apply Z.pow_pos_nonneg; lia.
Qed.

Lemma le_dec_inj l1 l2 :
  length l1 = length l2 → Forall byte l1 → Forall byte l2 →
  le_dec l1 = le_dec l2 → l1 = l2.
Proof.
  intros Hl H1 H2 E. rewrite <- (le_enc_dec l1), <- (le_enc_dec l2) by done.
  by rewrite Hl, E.
Qed.

Lemma le_enc_app a b v : le_enc (a + b) v = le_enc a v ++ le_enc b (v / 2 ^ (8 * Z.of_nat a)).
Proof.
  revert v. induction a as [|a IH]; intros v; simpl; [by rewrite Z.div_1_r|].
  f_equal. rewrite IH. do 2 f_equal.
  replace (8 * Z.of_nat (S a)) with (8 + 8 * Z.of_nat a) by lia.
  by rewrite Z.pow_add_r, Z.div_div by (lia || (apply Z.pow_nonzero; lia)).
Qed.

Lemma le_enc_mod n v : le_enc n (v mod 2 ^ (8 * Z.of_nat n)) = le_enc n v.
Proof.
  revert v. induction n as [|n IH]; intros v; simpl; [done|].
  replace (8 * Z.of_nat (S n)) with (8 + 8 * Z.of_nat n) by lia.
  rewrite Z.pow_add_r by lia. change (2 ^ 8) with 256.
  assert (0 < 2 ^ (8 * Z.of_nat n)) by (apply Z.pow_pos_nonneg; lia).
  rewrite Z.rem_mul_r by lia. f_equal.
  - by rewrite Z.mul_comm, Z_mod_plus_full, Z.mod_mod.
  - rewrite <- (IH (v / 256)). f_equal.
    rewrite Z.mul_comm, Z_div_plus_full by lia.
    by rewrite (Z.div_small (v mod 256)) by (apply Z.mod_pos_bound; lia).
Qed.

Lemma le_enc_0 n : le_enc n 0 = replicate n 0.
Proof. induction n as [|n IH]; simpl; [done|]. by rewrite <- IH. Qed.

(** ** Lists of words *)

Lemma nth_word w l i : 0 ≤ w → Forall (word w) l → word w l.[i].
Proof.
  intros Hw Hl. revert i. induction Hl as [|x l Hx _ IH]; intros [|i]; simpl; auto using word_0.
Qed.
#[export] Hint Resolve nth_word : words.

(** Two loops agree when their bodies agree on the states the loop reaches. *)
Lemma fold_left_ext_inv {A B} (P : A → Prop) (f g : A → B → A) l a :
  P a → (∀ a x, P a → f a x = g a x) → (∀ a x, P a → P (f a x)) →
  fold_left f l a = fold_left g l a.
Proof.
  intros Ha Hfg HP. revert a Ha. induction l as [|x l IH]; intros a Ha; simpl; [done|].
  rewrite <- Hfg by done. apply IH. by apply HP.
Qed.

(** Two loops over different index lists, whose bodies agree index by index. *)
Lemma fold_left_ext_rel {A X Y} (P : A → Prop) (f : A → X → A) (g : A → Y → A) xs ys a :
  Forall2 (λ x y, ∀ a, P a → f a x = g a y) xs ys →
  (∀ a y, P a → P (g a y)) → P a → fold_left f xs a = fold_left g ys a.
Proof.
  intros H HP Ha. revert a Ha. induction H as [|x y xs ys Hxy _ IH]; intros a Ha; simpl; [done|].
  rewrite Hxy by done. by apply IH, HP.
Qed.

Lemma fold_left_inv {A B} (P : A → Prop) (f : A → B → A) l a :
  P a → (∀ a x, P a → P (f a x)) → P (fold_left f l a).
Proof. intros Ha HP. revert a Ha. induction l as [|x l IH]; intros a Ha; simpl; auto. Qed.

Lemma concat_map_length {A} (f : A → list Z) k l :
  (∀ x, length (f x) = k) → length (concat (map f l)) = (k * length l)%nat.
Proof. intros Hf. induction l as [|x l IH]; simpl; [lia|]. rewrite length_app, Hf, IH. lia. Qed.

Lemma Forall_concat_map {A} (P : Z → Prop) (f : A → list Z) l :
  (∀ x, Forall P (f x)) → Forall P (concat (map f l)).
Proof. intros Hf. induction l as [|x l IH]; simpl; [done|]. by apply Forall_app. Qed.

(** The quotient of a successor: it moves when the remainder wraps to zero. *)
Lemma last_default {A} (l : list A) x d d' : List.last (x :: l) d = List.last (x :: l) d'.
Proof. revert x. induction l as [|y l IH]; intros x; [done|]. apply (IH y). Qed.

Lemma Z_succ_div k q :
  0 < q → (k + 1) / q = if (k + 1) mod q =? 0 then k / q + 1 else k / q.
Proof.
  intros Hq. pose proof (Z.div_mod (k + 1) q). pose proof (Z.mod_pos_bound (k + 1) q).
  destruct (Z.eqb_spec ((k + 1) mod q) 0).
  - rewrite <- (Z.div_unique k q ((k + 1) / q - 1) (q - 1)); lia.
  - apply (Z.div_unique k q _ ((k + 1) mod q - 1)); lia.
Qed.

Lemma rev_replicate {A} n (x : A) : rev (replicate n x) = replicate n x.
Proof. induction n as [|n IH]; [done|]. rewrite (replicate_S_end n) at 1. by rewrite rev_app_distr, IH. Qed.

(** Bytes checked by computation. *)
Definition bytesb (l : list Z) : bool := forallb (λ b, (0 <=? b) && (b <? 256)) l.

Lemma bytesb_spec l : bytesb l = true → Forall byte l.
Proof.
  intros H. apply Forall_forall. intros b Hb%list_elem_of_In.
  apply (proj1 (forallb_forall _ _) H) in Hb.
  apply andb_prop in Hb as [?%Z.leb_le ?%Z.ltb_lt]. split; simpl; lia.
Qed.

Lemma bytesb_pieces ps : forallb bytesb ps = true → Forall (Forall byte) ps.
Proof.
  intros H. apply Forall_forall. intros l Hl%list_elem_of_In.
  apply bytesb_spec. by apply (proj1 (forallb_forall _ _) H).
Qed.

Lemma fold_left_inv_Forall {A B} (P : A → Prop) (Q : B → Prop) (f : A → B → A) l a :
  Forall Q l → P a → (∀ a b, P a → Q b → P (f a b)) → P (fold_left f l a).
Proof. intros Hl Ha Hf. revert a Ha. induction Hl; intros a Ha; simpl; auto. Qed.

Lemma zip_with_words w (f : Z → Z → Z) x y :
  (∀ a b, word w a → word w b → word w (f a b)) →
  Forall (word w) x → Forall (word w) y → Forall (word w) (zip_with f x y).
Proof.
  intros Hf Hx. revert y. induction Hx; intros y Hy; [constructor|].
  destruct Hy; constructor; auto.
Qed.

(** Two folds over the same list, in step. *)
Lemma fold_left_rel {S T X} (R : S → T → Prop) (Q : X → Prop) f g l s t :
  Forall Q l → R s t → (∀ s t b, R s t → Q b → R (f s b) (g t b)) →
  R (fold_left f l s) (fold_left g l t).
Proof. intros Hl Hst Hfg. revert s t Hst. induction Hl; intros s t Hst; simpl; auto. Qed.
