(* ===== verification/Ints.v ===== *)
(** * Machine integers of the C++ code

    The conversions to the fixed-width integer types the C++ sources use: an
    unsigned value is kept as an integer in [[0, 2^w)], a signed one as an
    integer in [[-2^(w-1), 2^(w-1))].  An operation of the source at type
    [uint32_t] is the mathematical operation followed by [u32], and so on. *)

From S2P Require Import Prelude.

Local Open Scope Z_scope.

Definition u8 (x : Z) : Z := x .& 0xFF.

Definition u16 (x : Z) : Z := x .& 0xFFFF.

Definition u32 (x : Z) : Z := x .& 0xFFFFFFFF.

Definition u64 (x : Z) : Z := x .& 0xFFFFFFFFFFFFFFFF.

Definition i32 (x : Z) : Z := u32 (x + 0x80000000) - 0x80000000.

Definition i64 (x : Z) : Z := u64 (x + 0x8000000000000000) - 0x8000000000000000.

Lemma u8_mod x : u8 x = x mod 2 ^ 8.
Proof. exact (land_ones_mod x 8 ltac:(lia)). Qed.

Lemma u16_mod x : u16 x = x mod 2 ^ 16.
Proof. exact (land_ones_mod x 16 ltac:(lia)). Qed.

Lemma u32_mod x : u32 x = x mod 2 ^ 32.
Proof. exact (land_ones_mod x 32 ltac:(lia)). Qed.

Lemma u64_mod x : u64 x = x mod 2 ^ 64.
Proof. exact (land_ones_mod x 64 ltac:(lia)). Qed.

Lemma u8_word x : byte (u8 x).
Proof. rewrite u8_mod. by apply word_mod. Qed.

Lemma u16_word x : word 16 (u16 x).
Proof. rewrite u16_mod. by apply word_mod. Qed.

Lemma u32_word x : word 32 (u32 x).
Proof. rewrite u32_mod. by apply word_mod. Qed.

Lemma u64_word x : word 64 (u64 x).
Proof. rewrite u64_mod. by apply word_mod. Qed.

#[export] Hint Resolve u8_word u16_word u32_word u64_word : words.

Lemma u8_id x : byte x → u8 x = x.
Proof. intros. by rewrite u8_mod, word_mod_id. Qed.

Lemma u32_id x : word 32 x → u32 x = x.
Proof. intros. by rewrite u32_mod, word_mod_id. Qed.

Lemma u64_id x : word 64 x → u64 x = x.
Proof. intros. by rewrite u64_mod, word_mod_id. Qed.

(** A value within the signed range is left alone by the conversion. *)
Lemma i32_id x : - 2 ^ 31 ≤ x < 2 ^ 31 → i32 x = x.
Proof. intros H. unfold i32. rewrite u32_id; [lia|]. unfold word. lia. Qed.

Lemma i64_id x : - 2 ^ 63 ≤ x < 2 ^ 63 → i64 x = x.
Proof. intros H. unfold i64. rewrite u64_id; [lia|]. unfold word. lia. Qed.

Lemma i64_range x : - 2 ^ 63 ≤ i64 x < 2 ^ 63.
Proof. unfold i64. pose proof (u64_word (x + 0x8000000000000000)) as H. unfold word in H. lia. Qed.

(** Setting a bit that is clear, or adding bits above a word, is addition. *)
Lemma lor_disjoint k a b : 0 ≤ k → word k b → a mod 2 ^ k = 0 → a .| b = a + b.
Proof.
  intros Hk Hb Ha. pose proof (Z.pow_pos_nonneg 2 k).
  assert (a = (a / 2 ^ k) << k) as ->.
  { rewrite Z.shiftl_mul_pow2 by done. pose proof (Z.div_mod a (2 ^ k)). lia. }
  rewrite lor_shiftl_add by done. by rewrite Z.shiftl_mul_pow2.
Qed.

(** The low [w] bits of a left shift. *)
Lemma shiftl_mod w s x :
  0 ≤ s ≤ w → (x << s) mod 2 ^ w = x mod 2 ^ (w - s) * 2 ^ s.
Proof.
  intros H. rewrite Z.shiftl_mul_pow2 by lia.
  replace (2 ^ w) with (2 ^ (w - s) * 2 ^ s) by (rewrite <- Z.pow_add_r by lia; f_equal; lia).
  apply Zmult_mod_distr_r.
Qed.
