(* ===== verification/Sorting.v ===== *)
(** * Sorting

    [std::sort] is a class: the contract the language gives, which leaves the order
    of equivalent elements open, with an instance that shows it can be met. *)

From stdpp Require Import sorting.
From S2P Require Import Prelude.

Local Open Scope Z_scope.

(** A strict weak ordering, as [std::sort] asks for: the complement of the flipped
    comparison is a total preorder. *)
Definition weakly_orders {A} (lt : A → A → bool) : Prop :=
  (∀ x y, lt x y = true → lt y x = false) ∧
  (∀ x y z, lt y x = false → lt z y = false → lt z x = false).

Definition not_after {A} (lt : A → A → bool) (x y : A) : Prop := lt y x = false.

#[export] Instance not_after_dec {A} (lt : A → A → bool) : RelDecision (not_after lt).
Proof. intros x y. unfold not_after. apply _. Defined.

Class StdSort := {
  std_sort : ∀ {A}, (A → A → bool) → list A → list A;
  std_sort_perm : ∀ {A} lt (l : list A), std_sort lt l ≡ₚ l;
  std_sort_sorted : ∀ {A} (lt : A → A → bool) l,
    weakly_orders lt → StronglySorted (not_after lt) (std_sort lt l)
}.

Definition merge_by {A} (lt : A → A → bool) (l : list A) : list A :=
  merge_sort (not_after lt) l.

Lemma merge_by_perm {A} (lt : A → A → bool) l : merge_by lt l ≡ₚ l.
Proof. apply merge_sort_Permutation. Qed.

Lemma merge_by_sorted {A} (lt : A → A → bool) l :
  weakly_orders lt → StronglySorted (not_after lt) (merge_by lt l).
Proof.
  intros [Hasym Htrans]. apply StronglySorted_merge_sort.
  - intros x y z. apply Htrans.
  - intros x y. unfold not_after. destruct (lt y x) eqn:E; [right; by apply Hasym|by left].
Qed.

Definition merge_std_sort : StdSort := {|
  std_sort := @merge_by;
  std_sort_perm := @merge_by_perm;
  std_sort_sorted := @merge_by_sorted
|}.

(** Comparison through a numeric key. *)
Lemma weakly_orders_by {A} (f : A → Z) : weakly_orders (λ x y, f x <? f y).
Proof.
  split.
  - intros x y. rewrite Z.ltb_lt, Z.ltb_ge. lia.
  - intros x y z. rewrite !Z.ltb_ge. lia.
Qed.

(** Two sorts that meet the contract agree on elements that the comparison tells
    apart. *)
Lemma std_sort_unique (S1 S2 : StdSort) {A} (lt : A → A → bool) (l : list A) :
  weakly_orders lt → (∀ x y, x ∈ l → y ∈ l → lt x y = false → lt y x = false → x = y) →
  @std_sort S1 A lt l = @std_sort S2 A lt l.
Proof.
  intros Hw Hl. apply (StronglySorted_unique_strong (not_after lt)).
  - intros x y Hx Hy. rewrite (@std_sort_perm S1 A lt l) in Hx. rewrite (@std_sort_perm S2 A lt l) in Hy.
    intros. by apply Hl.
  - by apply std_sort_sorted.
  - by apply std_sort_sorted.
  - etrans; [|symmetry]; apply std_sort_perm.
Qed.
