(* ===== verification/SphTypes.v ===== *)
(** * [sph_types.h]: machine words, rotations, byte order *)

From S2P Require Import Prelude.
Local Open Scope Z_scope.

(** ** Truncation and rotation macros *)

Definition SPH_T32 (x : Z) : Z := x .& 0xFFFFFFFF.

Definition SPH_ROTL32 (x n : Z) : Z := SPH_T32 ((x << n) .| (x >> (32 - n))).

Definition SPH_ROTR32 (x n : Z) : Z := SPH_ROTL32 x (32 - n).

Definition SPH_T64 (x : Z) : Z := x .& 0xFFFFFFFFFFFFFFFF.

Definition SPH_ROTL64 (x n : Z) : Z := SPH_T64 ((x << n) .| (x >> (64 - n))).

Definition SPH_ROTR64 (x n : Z) : Z := SPH_ROTL64 x (64 - n).

(** ** Byte swaps (the portable definitions) *)

Definition sph_bswap32 (x : Z) : Z :=
  let x := SPH_T32 ((x << 16) .| (x >> 16)) in
  let x := ((x .& 0xFF00FF00) >> 8) .| ((x .& 0x00FF00FF) << 8) in
  x.

Definition sph_bswap64 (x : Z) : Z :=
  let x := SPH_T64 ((x << 32) .| (x >> 32)) in
  let x := ((x .& 0xFFFF0000FFFF0000) >> 16) .| ((x .& 0x0000FFFF0000FFFF) << 16) in
  let x := ((x .& 0xFF00FF00FF00FF00) >> 8) .| ((x .& 0x00FF00FF00FF00FF) << 8) in
  x.

(** ** Encoders and decoders (the branch for an architecture of unknown
    endianness: every access is bytewise) *)

(** Storing a value in an [unsigned char] keeps its low eight bits. *)
Definition uchar (x : Z) : Z := x .& 0xFF.

Definition sph_enc32be (val : Z) : list Z :=
  [uchar (val >> 24); uchar (val >> 16); uchar (val >> 8); uchar val].

Definition sph_dec32be (src : list Z) : Z :=
  (src.[0] << 24) .| (src.[1] << 16) .| (src.[2] << 8) .| src.[3].

Definition sph_enc32le (val : Z) : list Z :=
  [uchar val; uchar (val >> 8); uchar (val >> 16); uchar (val >> 24)].

Definition sph_dec32le (src : list Z) : Z :=
  src.[0] .| (src.[1] << 8) .| (src.[2] << 16) .| (src.[3] << 24).

Definition sph_enc64be (val : Z) : list Z :=
  [uchar (val >> 56); uchar (val >> 48); uchar (val >> 40); uchar (val >> 32);
   uchar (val >> 24); uchar (val >> 16); uchar (val >> 8); uchar val].

Definition sph_dec64be (src : list Z) : Z :=
  (src.[0] << 56) .| (src.[1] << 48) .| (src.[2] << 40) .| (src.[3] << 32)
  .| (src.[4] << 24) .| (src.[5] << 16) .| (src.[6] << 8) .| src.[7].

Definition sph_enc64le (val : Z) : list Z :=
  [uchar val; uchar (val >> 8); uchar (val >> 16); uchar (val >> 24);
   uchar (val >> 32); uchar (val >> 40); uchar (val >> 48); uchar (val >> 56)].

Definition sph_dec64le (src : list Z) : Z :=
  src.[0] .| (src.[1] << 8) .| (src.[2] << 16) .| (src.[3] << 24)
  .| (src.[4] << 32) .| (src.[5] << 40) .| (src.[6] << 48) .| (src.[7] << 56).

(** The same accesses on a little-endian machine ([SPH_LITTLE_ENDIAN], the
    amd64 configuration): a native load or store of the whole word, byte-swapped
    for the big-endian functions. The native access itself is the language's. *)
Definition load_le (n : nat) (src : list Z) : Z := le_dec (take n src).

Definition store_le (n : nat) (val : Z) : list Z := le_enc n val.

Definition sph_enc32be_le (val : Z) : list Z := store_le 4 (sph_bswap32 val).

Definition sph_dec32be_le (src : list Z) : Z := sph_bswap32 (load_le 4 src).

Definition sph_enc64be_le (val : Z) : list Z := store_le 8 (sph_bswap64 val).

Definition sph_dec64be_le (src : list Z) : Z := sph_bswap64 (load_le 8 src).

(** ** Truncation *)

Lemma SPH_T32_mod x : SPH_T32 x = x mod 2 ^ 32.
Proof. by apply (Z.land_ones x 32). Qed.

Lemma SPH_T64_mod x : SPH_T64 x = x mod 2 ^ 64.
Proof. by apply (Z.land_ones x 64). Qed.

Lemma uchar_mod x : uchar x = x mod 256.
Proof. by apply (Z.land_ones x 8). Qed.

Lemma SPH_T32_word x : word 32 (SPH_T32 x).
Proof. rewrite SPH_T32_mod. by apply word_mod. Qed.

Lemma SPH_T64_word x : word 64 (SPH_T64 x).
Proof. rewrite SPH_T64_mod. by apply word_mod. Qed.

Lemma SPH_T32_id x : word 32 x → SPH_T32 x = x.
Proof. rewrite SPH_T32_mod. apply word_mod_id. Qed.

Lemma SPH_T64_id x : word 64 x → SPH_T64 x = x.
Proof. rewrite SPH_T64_mod. apply word_mod_id. Qed.

#[export] Hint Resolve SPH_T32_word SPH_T64_word : words.

Lemma uchar_byte x : byte (uchar x).
Proof. rewrite uchar_mod. by apply (word_mod 8). Qed.

#[export] Hint Resolve uchar_byte : words.

(** ** Rotations *)

Lemma SPH_ROTL32_word x n : word 32 (SPH_ROTL32 x n).
Proof. apply SPH_T32_word. Qed.

Lemma SPH_ROTL64_word x n : word 64 (SPH_ROTL64 x n).
Proof. apply SPH_T64_word. Qed.

Lemma SPH_ROTR32_word x n : word 32 (SPH_ROTR32 x n).
Proof. apply SPH_T32_word. Qed.

Lemma SPH_ROTR64_word x n : word 64 (SPH_ROTR64 x n).
Proof. apply SPH_T64_word. Qed.

#[export] Hint Resolve SPH_ROTL32_word SPH_ROTL64_word SPH_ROTR32_word SPH_ROTR64_word : words.

(** Rotation moves bit [i - n] (modulo the width) to bit [i]. *)
Lemma rotl_testbit w x n i :
  0 < n < w → word w x → 0 ≤ i < w →
  Z.testbit (((x << n) .| (x >> (w - n))) mod 2 ^ w) i = Z.testbit x ((i - n) mod w).
Proof.
  intros Hn Hx Hi. rewrite Z.mod_pow2_bits_low, Z.lor_spec, Z.shiftl_spec, Z.shiftr_spec by lia.
  destruct (Z.lt_ge_cases i n).
  - rewrite Z.testbit_neg_r by lia. simpl.
    replace ((i - n) mod w) with (i - n + w); [f_equal; lia|].
    by rewrite <- (Z_mod_plus_full _ 1), Z.mod_small by lia; lia.
  - rewrite (word_testbit_high w x (i + (w - n))) by (done || lia).
    by rewrite orb_false_r, Z.mod_small by lia.
Qed.

Lemma SPH_ROTL32_testbit x n i :
  0 < n < 32 → word 32 x → 0 ≤ i < 32 →
  Z.testbit (SPH_ROTL32 x n) i = Z.testbit x ((i - n) mod 32).
Proof. unfold SPH_ROTL32. rewrite SPH_T32_mod. apply rotl_testbit. Qed.

Lemma SPH_ROTL64_testbit x n i :
  0 < n < 64 → word 64 x → 0 ≤ i < 64 →
  Z.testbit (SPH_ROTL64 x n) i = Z.testbit x ((i - n) mod 64).
Proof. unfold SPH_ROTL64. rewrite SPH_T64_mod. apply rotl_testbit. Qed.

Lemma word_bits_eq w x y :
  0 ≤ w → word w x → word w y → (∀ i, 0 ≤ i < w → Z.testbit x i = Z.testbit y i) → x = y.
Proof.
  intros Hw Hx Hy H. apply Z.bits_inj'. intros i Hi.
  destruct (Z.lt_ge_cases i w); [by apply H|].
  by rewrite (word_testbit_high w x), (word_testbit_high w y).
Qed.

Lemma SPH_ROTR32_ROTL32 x n : 0 < n < 32 → word 32 x → SPH_ROTR32 (SPH_ROTL32 x n) n = x.
Proof.
  intros. apply (word_bits_eq 32); auto with words. intros i Hi. unfold SPH_ROTR32.
  pose proof (Z.mod_pos_bound (i - (32 - n)) 32).
  rewrite !SPH_ROTL32_testbit by (lia || auto with words). f_equal.
  rewrite Zminus_mod_idemp_l. replace (i - (32 - n) - n) with (i + (-1) * 32) by lia.
  by rewrite Z_mod_plus_full, Z.mod_small.
Qed.

Lemma SPH_ROTR64_ROTL64 x n : 0 < n < 64 → word 64 x → SPH_ROTR64 (SPH_ROTL64 x n) n = x.
Proof.
  intros. apply (word_bits_eq 64); auto with words. intros i Hi. unfold SPH_ROTR64.
  pose proof (Z.mod_pos_bound (i - (64 - n)) 64).
  rewrite !SPH_ROTL64_testbit by (lia || auto with words). f_equal.
  rewrite Zminus_mod_idemp_l. replace (i - (64 - n) - n) with (i + (-1) * 64) by lia.
  by rewrite Z_mod_plus_full, Z.mod_small.
Qed.

(** ** Encoders and decoders against the value of a byte string *)

Lemma le_enc_uchar n v : le_enc (S n) v = uchar v :: le_enc n (v >> 8).
Proof. simpl. by rewrite uchar_mod, Z.shiftr_div_pow2. Qed.

Lemma sph_enc32le_spec v : sph_enc32le v = le_enc 4 v.
Proof. by rewrite !le_enc_uchar, !Z.shiftr_shiftr. Qed.

Lemma sph_enc64le_spec v : sph_enc64le v = le_enc 8 v.
Proof. by rewrite !le_enc_uchar, !Z.shiftr_shiftr. Qed.

Lemma sph_enc32be_spec v : sph_enc32be v = rev (le_enc 4 v).
Proof. by rewrite <- sph_enc32le_spec. Qed.

Lemma sph_enc64be_spec v : sph_enc64be v = rev (le_enc 8 v).
Proof. by rewrite <- sph_enc64le_spec. Qed.

Lemma lor_le_step k acc b : 0 ≤ k → word k acc → acc .| (b << k) = acc + b * 2 ^ k.
Proof. intros. rewrite Z.lor_comm, lor_shiftl_add by done. lia. Qed.

(** Split a list of known length into its elements. *)
Ltac list_elems l :=
  repeat (destruct l as [|? l]; [try discriminate|]); try discriminate;
  match goal with H : length _ = _ |- _ => clear H | _ => idtac end.

Ltac forall_elems :=
  repeat match goal with H : Forall _ (_ :: _) |- _ => apply Forall_cons in H as [? H] end.

Lemma sph_dec32le_spec l :
  length l = 4%nat → Forall byte l → sph_dec32le l = le_dec l.
Proof.
  intros Hl Hb. do 5 (destruct l as [|? l]; try discriminate). forall_elems.
  unfold sph_dec32le, word in *; simpl in *.
  rewrite (lor_le_step 8), (lor_le_step 16), (lor_le_step 24) by (unfold word; lia). lia.
Qed.

Lemma sph_dec64le_spec l :
  length l = 8%nat → Forall byte l → sph_dec64le l = le_dec l.
Proof.
  intros Hl Hb. do 9 (destruct l as [|? l]; try discriminate). forall_elems.
  unfold sph_dec64le, word in *; simpl in *.
  rewrite (lor_le_step 8), (lor_le_step 16), (lor_le_step 24), (lor_le_step 32),
    (lor_le_step 40), (lor_le_step 48), (lor_le_step 56) by (unfold word; lia). lia.
Qed.

Lemma sph_dec32be_rev l :
  length l = 4%nat → sph_dec32be l = sph_dec32le (rev l).
Proof.
  intros Hl. do 5 (destruct l as [|? l]; try discriminate).
  unfold sph_dec32be, sph_dec32le; simpl. bitwise.
Qed.

Lemma sph_dec64be_rev l :
  length l = 8%nat → sph_dec64be l = sph_dec64le (rev l).
Proof.
  intros Hl. do 9 (destruct l as [|? l]; try discriminate).
  unfold sph_dec64be, sph_dec64le; simpl. bitwise.
Qed.

Lemma sph_dec32be_spec l :
  length l = 4%nat → Forall byte l → sph_dec32be l = le_dec (rev l).
Proof.
  intros. rewrite sph_dec32be_rev, sph_dec32le_spec; rewrite ?length_rev; try done.
  by apply Forall_rev.
Qed.

Lemma sph_dec64be_spec l :
  length l = 8%nat → Forall byte l → sph_dec64be l = le_dec (rev l).
Proof.
  intros. rewrite sph_dec64be_rev, sph_dec64le_spec; rewrite ?length_rev; try done.
  by apply Forall_rev.
Qed.

(** Close an equality of bits at concrete positions of words of width [w]. *)
Ltac bit_solve w :=
  push_testbit;
  repeat match goal with |- context [Z.testbit ?x ?i] =>
    rewrite (word_testbit_high w x i) by (done || lia) end;
  repeat match goal with |- context [Z.testbit ?a ?b] => destruct (Z.testbit a b) end;
  reflexivity.

Lemma sph_bswap32_word x : word 32 (sph_bswap32 x).
Proof.
  unfold sph_bswap32. apply word_lor; [done|apply word_shiftr; [done|]|apply word_shiftl; [done|]];
    by apply word_land_r.
Qed.

Lemma sph_bswap64_word x : word 64 (sph_bswap64 x).
Proof.
  unfold sph_bswap64. apply word_lor; [done|apply word_shiftr; [done|]|apply word_shiftl; [done|]];
    by apply word_land_r.
Qed.

Lemma sph_enc32le_bytes v : Forall byte (sph_enc32le v).
Proof. rewrite sph_enc32le_spec. apply le_enc_bytes. Qed.

Lemma sph_enc64le_bytes v : Forall byte (sph_enc64le v).
Proof. rewrite sph_enc64le_spec. apply le_enc_bytes. Qed.

Lemma sph_enc32be_bytes v : Forall byte (sph_enc32be v).
Proof. rewrite sph_enc32be_spec. apply Forall_rev, le_enc_bytes. Qed.

Lemma sph_enc64be_bytes v : Forall byte (sph_enc64be v).
Proof. rewrite sph_enc64be_spec. apply Forall_rev, le_enc_bytes. Qed.

#[export] Hint Resolve sph_enc32le_bytes sph_enc64le_bytes sph_enc32be_bytes sph_enc64be_bytes : words.

Lemma sph_dec32be_take l : sph_dec32be l = sph_dec32be (take 4 l).
Proof. by do 4 (destruct l; [done|]). Qed.

Lemma sph_dec64be_take l : sph_dec64be l = sph_dec64be (take 8 l).
Proof. by do 8 (destruct l; [done|]). Qed.

Lemma sph_dec32le_take l : sph_dec32le l = sph_dec32le (take 4 l).
Proof. by do 4 (destruct l; [done|]). Qed.

Lemma sph_dec64le_take l : sph_dec64le l = sph_dec64le (take 8 l).
Proof. by do 8 (destruct l; [done|]). Qed.

Lemma sph_dec32be_word l : length l = 4%nat → Forall byte l → word 32 (sph_dec32be l).
Proof.
  intros. rewrite sph_dec32be_spec by done.
  pose proof (le_dec_word (rev l)) as Hw. rewrite length_rev, H in Hw.
  by apply Hw, Forall_rev.
Qed.

Lemma sph_dec64be_word l : length l = 8%nat → Forall byte l → word 64 (sph_dec64be l).
Proof.
  intros. rewrite sph_dec64be_spec by done.
  pose proof (le_dec_word (rev l)) as Hw. rewrite length_rev, H in Hw.
  by apply Hw, Forall_rev.
Qed.

Lemma sph_dec32le_word l : length l = 4%nat → Forall byte l → word 32 (sph_dec32le l).
Proof. intros Hl Hb. rewrite sph_dec32le_spec by done. pose proof (le_dec_word l Hb). by rewrite Hl in *. Qed.

Lemma sph_dec64le_word l : length l = 8%nat → Forall byte l → word 64 (sph_dec64le l).
Proof. intros Hl Hb. rewrite sph_dec64le_spec by done. pose proof (le_dec_word l Hb). by rewrite Hl in *. Qed.

(** The byte swap reverses the bytes of a word. *)
Lemma sph_bswap32_spec x : word 32 x → sph_bswap32 x = sph_dec32be (sph_enc32le x).
Proof.
  intros Hx. apply (word_bits_eq 32); [done|apply sph_bswap32_word|..].
  { apply sph_dec32be_word; [done|auto with words]. }
  intros i Hi. unfold sph_bswap32, sph_dec32be, sph_enc32le, SPH_T32, uchar. cbn [nth].
  bit_index i 32%nat; bit_solve 32.
Qed.

Lemma sph_bswap64_spec x : word 64 x → sph_bswap64 x = sph_dec64be (sph_enc64le x).
Proof.
  intros Hx. apply (word_bits_eq 64); [done|apply sph_bswap64_word|..].
  { apply sph_dec64be_word; [done|auto with words]. }
  intros i Hi. unfold sph_bswap64, sph_dec64be, sph_enc64le, SPH_T64, uchar. cbn [nth].
  bit_index i 64%nat; bit_solve 64.
Qed.

(** ** Round trips *)

Lemma sph_dec64be_enc64be v : word 64 v → sph_dec64be (sph_enc64be v) = v.
Proof.
  intros Hv. rewrite sph_dec64be_spec by (done || auto with words).
  rewrite sph_enc64be_spec, rev_involutive, le_dec_enc by apply Hv.
  by apply (word_mod_id 64).
Qed.

Lemma sph_dec32be_enc32be v : word 32 v → sph_dec32be (sph_enc32be v) = v.
Proof.
  intros Hv. rewrite sph_dec32be_spec by (done || auto with words).
  rewrite sph_enc32be_spec, rev_involutive, le_dec_enc by apply Hv.
  by apply (word_mod_id 32).
Qed.

Lemma sph_dec64le_enc64le v : word 64 v → sph_dec64le (sph_enc64le v) = v.
Proof.
  intros Hv. rewrite sph_dec64le_spec by (done || auto with words).
  rewrite sph_enc64le_spec, le_dec_enc by apply Hv. by apply (word_mod_id 64).
Qed.

Lemma sph_dec32le_enc32le v : word 32 v → sph_dec32le (sph_enc32le v) = v.
Proof.
  intros Hv. rewrite sph_dec32le_spec by (done || auto with words).
  rewrite sph_enc32le_spec, le_dec_enc by apply Hv. by apply (word_mod_id 32).
Qed.

Lemma sph_enc64be_dec64be l :
  length l = 8%nat → Forall byte l → sph_enc64be (sph_dec64be l) = l.
Proof.
  intros Hl Hb. rewrite sph_enc64be_spec, sph_dec64be_spec by done.
  rewrite <- Hl, <- length_rev, le_enc_dec by by apply Forall_rev. apply rev_involutive.
Qed.

Lemma sph_enc32le_dec32le l :
  length l = 4%nat → Forall byte l → sph_enc32le (sph_dec32le l) = l.
Proof.
  intros Hl Hb. rewrite sph_enc32le_spec, sph_dec32le_spec by done.
  by rewrite <- Hl, le_enc_dec.
Qed.

(** ** The little-endian machine's accesses agree with the bytewise ones *)

Lemma store_bswap n v f :
  le_enc n v = rev f → Forall byte f → length f = n → store_le n (le_dec f) = rev (le_enc n v).
Proof. intros E Hb Hl. unfold store_le. by rewrite E, rev_involutive, <- Hl, le_enc_dec. Qed.

(** On a little-endian machine the big-endian accessors do one native
    access and a byte swap; they read and write exactly what the bytewise
    accessors do, so every hash computes the same digest on both paths. *)
Theorem sph_native_accessors_agree (v32 v64 : Z) (s4 s8 : list Z)
    (Hv32 : word 32 v32) (Hv64 : word 64 v64)
    (Hs4 : length s4 = 4%nat ∧ Forall byte s4) (Hs8 : length s8 = 8%nat ∧ Forall byte s8) :
  sph_enc32be_le v32 = sph_enc32be v32 ∧ sph_dec32be_le s4 = sph_dec32be s4 ∧
  sph_enc64be_le v64 = sph_enc64be v64 ∧ sph_dec64be_le s8 = sph_dec64be s8.
Proof.
  destruct Hs4 as [L4 B4], Hs8 as [L8 B8].
  unfold sph_enc32be_le, sph_dec32be_le, sph_enc64be_le, sph_dec64be_le, load_le.
  rewrite !take_ge by lia.
  pose proof (le_dec_word s4 B4) as W4. rewrite L4 in W4.
  pose proof (le_dec_word s8 B8) as W8. rewrite L8 in W8.
  rewrite (sph_bswap32_spec v32), (sph_bswap64_spec v64), (sph_bswap32_spec (le_dec s4)),
    (sph_bswap64_spec (le_dec s8)) by done.
  rewrite !sph_enc32le_spec, !sph_enc64le_spec.
  assert (le_enc 4 (le_dec s4) = s4) as -> by (rewrite <- L4; by apply le_enc_dec).
  assert (le_enc 8 (le_dec s8) = s8) as -> by (rewrite <- L8; by apply le_enc_dec).
  rewrite (sph_dec32be_spec (le_enc 4 v32)), (sph_dec64be_spec (le_enc 8 v64))
    by (apply length_le_enc || apply le_enc_bytes).
  rewrite sph_enc32be_spec, sph_enc64be_spec.
  repeat split; apply store_bswap;
    rewrite ?rev_involutive, ?length_rev, ?length_le_enc; auto using Forall_rev, le_enc_bytes.
Qed.

Lemma sph_native_accessors_agree_witness :
  sph_enc32be_le 0x01020304 = [1; 2; 3; 4] ∧ sph_dec32be_le [5; 6; 7; 8] = 0x05060708 ∧
  sph_enc64be_le 0xFF01020304050607 = [255; 1; 2; 3; 4; 5; 6; 7] ∧
  sph_dec64be_le [255; 0; 0; 0; 0; 0; 0; 9] = 0xFF00000000000009.
Proof.
  apply (sph_native_accessors_agree 0x01020304 0xFF01020304050607
    [5; 6; 7; 8] [255; 0; 0; 0; 0; 0; 0; 9]); [done|done|..];
    (split; [reflexivity|by apply bytesb_spec]).
Defined.

(** ** The byte that ends a message

    Every [_close] function stores, after the message, a byte that holds the [n]
    extra bits of [ub] (its most significant ones), a one bit, and zeros:
    [z = 0x80 >> n; buf[ptr] = ((ub & -z) | z) & 0xFF]. *)

Definition close_byte (ub n : Z) : Z :=
  let z := 0x80 >> n in
  ((ub .& SPH_T32 (- z)) .| z) .& 0xFF.

(** What it means: the top [n] bits of [ub], then a one, then zeros. *)
Definition last_byte (ub n : Z) : Z :=
  (ub / 2 ^ (8 - n)) mod 2 ^ n * 2 ^ (8 - n) + 2 ^ (7 - n).

Lemma last_byte_byte ub n : 0 ≤ n < 8 → byte (last_byte ub n).
Proof.
  intros Hn. unfold last_byte.
  pose proof (Z.mod_pos_bound (ub / 2 ^ (8 - n)) (2 ^ n)) as Hm.
  pose proof (Z.pow_pos_nonneg 2 n). pose proof (Z.pow_pos_nonneg 2 (7 - n)).
  assert (2 ^ n * 2 ^ (8 - n) = 2 ^ 8) by (rewrite <- Z.pow_add_r by lia; f_equal; lia).
  assert (2 ^ (8 - n) = 2 * 2 ^ (7 - n)) by (rewrite <- Z.pow_succ_r by lia; f_equal; lia).
  unfold word. nia.
Qed.

Lemma close_byte_spec ub n : 0 ≤ n < 8 → close_byte ub n = last_byte ub n.
Proof.
  intros Hn. unfold last_byte.
  assert (word (8 - n) (2 ^ (7 - n))).
  { split; [apply Z.pow_nonneg; lia|apply Z.pow_lt_mono_r; lia]. }
  rewrite <- lor_shiftl_add, <- Z.shiftr_div_pow2, <- Z.land_ones by (done || lia).
  apply (word_bits_eq 8); [done|apply word_land_r; done| |].
  { apply word_lor; [done| |apply (word_weaken (8 - n)); [lia|done]].
    apply word_shiftl; [lia|]. replace (8 - (8 - n)) with n by lia.
    rewrite Z.land_ones by lia. apply word_mod. lia. }
  intros i Hi. unfold close_byte.
  assert (n = 0 ∨ n = 1 ∨ n = 2 ∨ n = 3 ∨ n = 4 ∨ n = 5 ∨ n = 6 ∨ n = 7) as Hc by lia.
  clear Hn H. destruct_or! Hc; subst n.
  all: repeat match goal with
    | |- context [SPH_T32 ?c] => let v := eval vm_compute in (SPH_T32 c) in change (SPH_T32 c) with v
    | |- context [Z.ones ?c] => let v := eval vm_compute in (Z.ones c) in change (Z.ones c) with v
    | |- context [2 ^ ?c] => let v := eval vm_compute in (2 ^ c) in change (2 ^ c) with v
    end.
  all: bit_index i 8%nat; bit_solve 8.
Qed.
