(* ===== verification/Stream.v ===== *)
(** * Buffered input: the update loop every sph hash shares

    Each hash function of [src/crypto] keeps a block buffer [buf], a fill level
    [ptr] and a chaining state, and its update function runs the same loop: copy
    what fits, and when the buffer is full run the compression step and empty
    it. This file models that loop once, over an abstract state and step, and
    proves that it computes the fold of the step over the full blocks of the
    message, whatever the sizes of the pieces the message arrives in. *)

From S2P Require Import Prelude.
Local Open Scope Z_scope.

(** ** Memory operations on a byte array *)

(** [memcpy(buf + off, src, length src)] *)
Definition memcpy (buf : list Z) (off : nat) (src : list Z) : list Z :=
  take off buf ++ src ++ drop (off + length src) buf.

(** [memset(buf + off, v, n)] *)
Definition memset (buf : list Z) (off : nat) (v : Z) (n : nat) : list Z :=
  memcpy buf off (replicate n v).

Lemma length_memcpy buf off src :
  (off + length src ≤ length buf)%nat → length (memcpy buf off src) = length buf.
Proof. intros. unfold memcpy. rewrite !length_app, length_take, length_drop. lia. Qed.

Lemma take_memcpy buf off src :
  (off ≤ length buf)%nat → take (off + length src) (memcpy buf off src) = take off buf ++ src.
Proof.
  intros. unfold memcpy. rewrite app_assoc, take_app_length'; [done|].
  rewrite length_app, length_take. lia.
Qed.

(** ** Arrays filled from the left

    [filled B p buf]: [buf] is an array of [B] bytes that starts with [p]; what
    follows is whatever the memory holds. The padding code extends [p] until it
    is the whole array. *)

Definition filled (B : nat) (p buf : list Z) : Prop :=
  length buf = B ∧ take (length p) buf = p.

Lemma filled_take B n buf : length buf = B → (n ≤ B)%nat → filled B (take n buf) buf.
Proof. intros Hl Hn. split; [done|]. rewrite length_take, Nat.min_l; [done|lia]. Qed.

Lemma filled_nil B buf : length buf = B → filled B [] buf.
Proof. by split. Qed.

Lemma filled_length B p buf : filled B p buf → (length p ≤ B)%nat.
Proof. intros [Hl Hp]. rewrite <- Hl, <- Hp, length_take. lia. Qed.

Lemma filled_memcpy B p buf off src :
  filled B p buf → off = length p → (length p + length src ≤ B)%nat →
  filled B (p ++ src) (memcpy buf off src).
Proof.
  intros [Hl Hp] -> Hs. split; [rewrite length_memcpy; lia|].
  rewrite length_app, take_memcpy by lia. by rewrite Hp.
Qed.

Lemma filled_memset B p buf off v n :
  filled B p buf → off = length p → (length p + n ≤ B)%nat →
  filled B (p ++ replicate n v) (memset buf off v n).
Proof. intros. apply filled_memcpy; [done..|]. by rewrite length_replicate. Qed.

Lemma filled_insert B p buf i v :
  filled B p buf → i = length p → (length p < B)%nat → filled B (p ++ [v]) (<[i := v]> buf).
Proof.
  intros [Hl Hp] -> Hs. split; [by rewrite length_insert|].
  rewrite length_app, Nat.add_comm. simpl.
  rewrite (take_S_r _ _ v) by (apply list_lookup_insert_eq; lia).
  by rewrite take_insert_ge, Hp.
Qed.

Lemma filled_full B p buf : filled B p buf → length p = B → buf = p.
Proof. intros [Hl Hp] H. rewrite <- Hp. symmetry. apply take_ge. lia. Qed.

Lemma filled_nth B p x buf i : filled B (p ++ [x]) buf → i = length p → buf.[i] = x.
Proof.
  intros [Hl Hp] ->. rewrite <- (take_drop (length (p ++ [x])) buf), Hp, <- app_assoc.
  by rewrite app_nth2, Nat.sub_diag by lia.
Qed.

Lemma filled_replace B p x y buf i :
  filled B (p ++ [x]) buf → i = length p → filled B (p ++ [y]) (<[i := y]> buf).
Proof.
  intros Hf ->. apply filled_insert; [|done|].
  - destruct Hf as [Hl Hp]. split; [done|].
    apply (f_equal (take (length p))) in Hp.
    by rewrite take_take, take_app_length, length_app, Nat.min_l in Hp by lia.
  - apply filled_length in Hf. rewrite length_app in Hf. simpl in Hf. lia.
Qed.

(** Bytes already written can be read back and overwritten. *)
Lemma filled_lookup B p buf i : filled B p buf → (i < length p)%nat → buf.[i] = p.[i].
Proof.
  intros [Hl Hp] Hi. rewrite <- (take_drop (length p) buf), Hp. by apply app_nth1.
Qed.

Lemma filled_update B p buf i v :
  filled B p buf → (i < length p)%nat → filled B (<[i := v]> p) (<[i := v]> buf).
Proof.
  intros [Hl Hp] Hi. split; [by rewrite length_insert|].
  by rewrite length_insert, take_insert_lt, Hp.
Qed.

Create HintDb filled.
#[export] Hint Resolve filled_memcpy filled_memset filled_insert : filled.

(** ** Blocks of a message *)

Section Blocks.
Context (B : nat).

(** The first [n] blocks of [m], of [B] bytes each. *)
Fixpoint chunks (n : nat) (m : list Z) : list (list Z) :=
  match n with
  | O => []
  | S n => take B m :: chunks n (drop B m)
  end.

Definition nfull (m : list Z) : nat := (length m / B)%nat.

Definition full_blocks (m : list Z) : list (list Z) := chunks (nfull m) m.

Definition pending (m : list Z) : list Z := drop (nfull m * B) m.

Lemma length_chunks n m : length (chunks n m) = n.
Proof. revert m. induction n; intros; simpl; auto. Qed.

Lemma chunks_seq n m : chunks n m = map (λ i, take B (drop (B * i) m)) (seq 0 n).
Proof.
  assert (∀ k, chunks n (drop (B * k) m) = map (λ i, take B (drop (B * i) m)) (seq k n)) as H.
  { induction n as [|n IH]; intros k; simpl; [done|]. f_equal.
    rewrite drop_drop, <- IH. do 2 f_equal. lia. }
  specialize (H 0%nat). by rewrite Nat.mul_0_r in H.
Qed.

Lemma chunks_app_block n b m :
  length b = B → chunks (S n) (b ++ m) = b :: chunks n m.
Proof. intros Hb. simpl. by rewrite take_app_length', drop_app_length' by done. Qed.

Context (HB : (0 < B)%nat).

Lemma length_pending m : length (pending m) = (length m mod B)%nat.
Proof.
  unfold pending, nfull. rewrite length_drop.
  pose proof (Nat.div_mod_eq (length m) B). lia.
Qed.

Lemma pending_lt m : (length (pending m) < B)%nat.
Proof. rewrite length_pending. apply Nat.mod_upper_bound. lia. Qed.

Lemma full_blocks_small m : (length m < B)%nat → full_blocks m = [].
Proof. intros. unfold full_blocks, nfull. by rewrite Nat.div_small. Qed.

Lemma pending_small m : (length m < B)%nat → pending m = m.
Proof. intros. unfold pending, nfull. by rewrite Nat.div_small. Qed.

Lemma nfull_block b m : length b = B → nfull (b ++ m) = S (nfull m).
Proof.
  intros Hb. unfold nfull. rewrite length_app, Hb.
  replace (B + length m)%nat with (1 * B + length m)%nat by lia.
  rewrite Nat.div_add_l; lia.
Qed.

Lemma full_blocks_block b m : length b = B → full_blocks (b ++ m) = b :: full_blocks m.
Proof. intros Hb. unfold full_blocks. by rewrite nfull_block, chunks_app_block. Qed.

Lemma pending_block b m : length b = B → pending (b ++ m) = pending m.
Proof.
  intros Hb. unfold pending. rewrite nfull_block by done.
  replace (S (nfull m) * B)%nat with (length b + nfull m * B)%nat by lia.
  by rewrite drop_app_add.
Qed.

Lemma full_blocks_lengths m : Forall (λ b, length b = B) (full_blocks m).
Proof.
  unfold full_blocks. assert (nfull m * B ≤ length m)%nat as H.
  { unfold nfull. pose proof (Nat.div_mod_eq (length m) B). lia. }
  revert H. generalize (nfull m). intros n. revert m.
  induction n as [|n IH]; intros m H; simpl; constructor.
  - rewrite length_take. lia.
  - apply IH. rewrite length_drop. lia.
Qed.

Lemma full_blocks_Forall (P : Z → Prop) m :
  Forall P m → Forall (λ b, length b = B ∧ Forall P b) (full_blocks m).
Proof.
  intros HP. apply Forall_and. split; [apply full_blocks_lengths|].
  unfold full_blocks. generalize (nfull m). intros n. revert m HP.
  induction n as [|n IH]; intros m HP; simpl; constructor.
  - by apply Forall_take.
  - by apply IH, Forall_drop.
Qed.

(** Induction on a message block by block. *)
Lemma block_ind (P : list Z → Prop) :
  (∀ m, (length m < B)%nat → P m) →
  (∀ b m, length b = B → P m → P (b ++ m)) →
  ∀ m, P m.
Proof.
  intros Hsmall Hblock m. remember (length m) as n eqn:Hn. revert m Hn.
  induction n as [n IH] using lt_wf_ind. intros m ->.
  destruct (le_lt_dec B (length m)); [|by apply Hsmall].
  rewrite <- (take_drop B m). apply Hblock; [rewrite length_take; lia|].
  eapply IH; [|done]. rewrite length_drop. lia.
Qed.

Lemma message_split m : m = concat (full_blocks m) ++ pending m.
Proof.
  revert m. apply (block_ind (λ m, m = concat (full_blocks m) ++ pending m)).
  - intros. by rewrite full_blocks_small, pending_small.
  - intros b m Hb IH. rewrite full_blocks_block, pending_block by done. simpl.
    by rewrite <- app_assoc, <- IH.
Qed.

(** Appending to a message only concerns its pending part. *)
Lemma full_blocks_app m d :
  full_blocks (m ++ d) = full_blocks m ++ full_blocks (pending m ++ d).
Proof.
  revert m. apply (block_ind (λ m, full_blocks (m ++ d) = full_blocks m ++ full_blocks (pending m ++ d))); intros.
  - by rewrite (full_blocks_small m), (pending_small m).
  - rewrite <- app_assoc, full_blocks_block, (full_blocks_block b m), pending_block by done. simpl. by f_equal.
Qed.

Lemma pending_app m d : pending (m ++ d) = pending (pending m ++ d).
Proof.
  revert m. apply (block_ind (λ m, pending (m ++ d) = pending (pending m ++ d))); intros.
  - by rewrite (pending_small m).
  - by rewrite <- app_assoc, pending_block, (pending_block b m).
Qed.

Lemma full_blocks_one b : length b = B → full_blocks b = [b].
Proof. intros. rewrite <- (app_nil_r b) at 1. rewrite full_blocks_block by done. by rewrite full_blocks_small. Qed.

Lemma pending_one b : length b = B → pending b = [].
Proof. intros. rewrite <- (app_nil_r b) at 1. rewrite pending_block by done. by rewrite pending_small. Qed.
End Blocks.

(** Words read at successive offsets are the decoded chunks. *)
Lemma chunk_words k n (dec spec : list Z → Z) b :
  length b = (k * n)%nat → Forall byte b →
  (∀ l, dec l = dec (take k l)) →
  (∀ l, length l = k → Forall byte l → dec l = spec l) →
  map (λ i, dec (drop (k * i) b)) (seq 0 n) = map spec (chunks k n b).
Proof.
  intros Hl Hb Htake Hspec. rewrite chunks_seq, map_map. apply map_ext_in.
  intros i Hi%list_elem_of_In%elem_of_seq. rewrite Htake. apply Hspec.
  - rewrite length_take, length_drop. nia.
  - by apply Forall_take, Forall_drop.
Qed.

Lemma chunks_Forall k n b :
  length b = (k * n)%nat → Forall byte b →
  Forall (λ c, length c = k ∧ Forall byte c) (chunks k n b).
Proof.
  intros Hl Hb. rewrite chunks_seq. apply Forall_map, Forall_forall. intros i Hi%elem_of_seq. split.
  - rewrite length_take, length_drop. nia.
  - by apply Forall_take, Forall_drop.
Qed.

(** ** The update loop *)

Section Absorb.
Context {S : Type} (B : nat) (step : S → list Z → S).

(** What the loop is for: the step folded over the full blocks. *)
Definition absorb (st : S) (m : list Z) : S := fold_left step (full_blocks B m) st.

(** The loop [while (len > 0) { ... }]: [fuel] bounds the iterations. *)
Fixpoint buf_loop (fuel : nat) (st : S) (buf : list Z) (ptr : nat) (data : list Z)
    : S * list Z * nat :=
  match fuel with
  | O => (st, buf, ptr)
  | Datatypes.S fuel =>
      if (0 <? length data)%nat then
        let clen := (B - ptr)%nat in
        let clen := if (length data <? clen)%nat then length data else clen in
        let buf := memcpy buf ptr (take clen data) in
        let ptr := (ptr + clen)%nat in
        let data := drop clen data in
        if (ptr =? B)%nat then buf_loop fuel (step st buf) buf 0 data
        else buf_loop fuel st buf ptr data
      else (st, buf, ptr)
  end.

(** The update function: the short path that only fills the buffer, then the
    loop. One iteration consumes at least one byte, so the length of the data
    is enough fuel. *)
Definition buf_update (st : S) (buf : list Z) (ptr : nat) (data : list Z)
    : S * list Z * nat :=
  if (length data <? B - ptr)%nat
  then (st, memcpy buf ptr data, (ptr + length data)%nat)
  else buf_loop (length data) st buf ptr data.

(** The invariant: the state has absorbed the full blocks of the message [m]
    received since [st0], and the buffer holds the rest. *)
Record buffered (st0 : S) (m : list Z) (c : S * list Z * nat) : Prop := {
  buffered_state : c.1.1 = absorb st0 m;
  buffered_size : length c.1.2 = B;
  buffered_ptr : c.2 = length (pending B m);
  buffered_data : take c.2 c.1.2 = pending B m }.

Context (HB : (0 < B)%nat).

Lemma absorb_app st m d :
  absorb st (m ++ d) = absorb (absorb st m) (pending B m ++ d).
Proof. unfold absorb. by rewrite full_blocks_app, fold_left_app. Qed.

Lemma absorb_small st m : (length m < B)%nat → absorb st m = st.
Proof. intros. unfold absorb. by rewrite full_blocks_small. Qed.

Lemma absorb_block st b m : length b = B → absorb st (b ++ m) = absorb (step st b) m.
Proof. intros. unfold absorb. by rewrite full_blocks_block. Qed.

Lemma absorb_one st b : length b = B → absorb st b = step st b.
Proof. intros. unfold absorb. by rewrite full_blocks_one. Qed.

Lemma buffered_init st buf : length buf = B → buffered st [] (st, buf, 0%nat).
Proof. intros. split; simpl; rewrite ?absorb_small, ?pending_small by (simpl; lia); done. Qed.

Lemma buffered_ptr_lt st0 m c : buffered st0 m c → (c.2 < B)%nat.
Proof. intros []. rewrite buffered_ptr0. by apply pending_lt. Qed.

(** Data that does not fill the buffer is appended to it. *)
Lemma buffered_fill st0 m st buf ptr d :
  buffered st0 m (st, buf, ptr) → (ptr + length d < B)%nat →
  buffered st0 (m ++ d) (st, memcpy buf ptr d, (ptr + length d)%nat).
Proof.
  intros [Hst Hsz Hp Hd] Hlt; simpl in *.
  assert (length (pending B m ++ d) < B)%nat by (rewrite length_app; lia).
  split; simpl.
  - by rewrite absorb_app, absorb_small.
  - rewrite length_memcpy; lia.
  - rewrite pending_app, pending_small, length_app by done. lia.
  - rewrite pending_app, pending_small by done. rewrite take_memcpy by lia. by rewrite Hd.
Qed.

(** Data that completes the buffer triggers one step on it. *)
Lemma buffered_full st0 m st buf ptr d :
  buffered st0 m (st, buf, ptr) → (ptr + length d = B)%nat →
  memcpy buf ptr d = pending B m ++ d ∧
  buffered st0 (m ++ d) (step st (memcpy buf ptr d), memcpy buf ptr d, 0%nat).
Proof.
  intros [Hst Hsz Hp Hd] Hlt; simpl in *.
  assert (length (pending B m ++ d) = B)%nat by (rewrite length_app; lia).
  assert (memcpy buf ptr d = pending B m ++ d) as E.
  { rewrite <- Hd, <- take_memcpy by lia. rewrite take_ge; [done|].
    rewrite length_memcpy; lia. }
  split; [done|]. split; simpl.
  - by rewrite E, absorb_app, absorb_one, Hst.
  - rewrite length_memcpy; lia.
  - by rewrite pending_app, pending_one.
  - by rewrite pending_app, pending_one.
Qed.

Lemma buffered_filled st0 m st buf ptr :
  buffered st0 m (st, buf, ptr) → filled B (pending B m) buf.
Proof. intros [? ? Hp Hd]; simpl in *. split; [done|]. by rewrite <- Hp. Qed.

Lemma buf_loop_ok fuel st0 m st buf ptr data :
  (length data ≤ fuel)%nat → buffered st0 m (st, buf, ptr) →
  buffered st0 (m ++ data) (buf_loop fuel st buf ptr data).
Proof.
  revert m st buf ptr data.
  induction fuel as [|fuel IH]; intros m st buf ptr data Hf Hb; simpl.
  { destruct data; [by rewrite app_nil_r|simpl in Hf; lia]. }
  pose proof (buffered_ptr_lt _ _ _ Hb) as Hlt; simpl in Hlt.
  destruct (Nat.ltb_spec 0 (length data)).
  2:{ destruct data; [by rewrite app_nil_r|simpl in *; lia]. }
  set (clen := if (length data <? B - ptr)%nat then length data else (B - ptr)%nat).
  assert (clen ≤ length data ∧ 0 < clen ∧ ptr + clen ≤ B)%nat as (? & ? & ?)
    by (unfold clen; destruct (Nat.ltb_spec (length data) (B - ptr)); lia).
  assert (length (take clen data) = clen) as Hl by (rewrite length_take; lia).
  rewrite <- (take_drop clen data) at 1. rewrite app_assoc.
  assert (length (drop clen data) ≤ fuel)%nat by (rewrite length_drop; lia).
  assert (ptr + clen = ptr + length (take clen data))%nat as -> by lia.
  destruct (Nat.eqb_spec (ptr + length (take clen data)) B).
  - apply IH; [done|]. by apply buffered_full.
  - apply IH; [done|]. apply buffered_fill; [done|lia].
Qed.

Lemma buf_update_ok st0 m st buf ptr data :
  buffered st0 m (st, buf, ptr) →
  buffered st0 (m ++ data) (buf_update st buf ptr data).
Proof.
  intros Hb. unfold buf_update. destruct (Nat.ltb_spec (length data) (B - ptr)).
  - apply buffered_fill; [done|lia].
  - by apply buf_loop_ok.
Qed.

(** Data that completes the block exactly: one step, an empty buffer. *)
Lemma buf_update_block p st buf ptr d :
  length buf = B → take ptr buf = p → ptr = length p → (length p < B)%nat →
  length (p ++ d) = B →
  ∃ buf', buf_update st buf ptr d = (step st (p ++ d), buf', 0%nat) ∧ length buf' = B.
Proof.
  intros Hl Ht Hp Hlt Hd.
  assert (buffered st p (st, buf, ptr)) as Hb.
  { split; simpl; rewrite ?absorb_small, ?pending_small by done; done. }
  apply (buf_update_ok _ _ _ _ _ d) in Hb. destruct (buf_update st buf ptr d) as [[st' buf'] ptr'].
  destruct Hb as [Hst Hsz Hptr _]; simpl in *. exists buf'. split; [|done].
  by rewrite Hst, Hptr, absorb_one, pending_one.
Qed.
End Absorb.

(** Absorbing with two steps that agree on blocks of the message's alphabet. *)
Lemma absorb_ext {S} B (f g : S → list Z → S) (P : Z → Prop) st m :
  (0 < B)%nat → Forall P m →
  (∀ st b, length b = B → Forall P b → f st b = g st b) →
  absorb B f st m = absorb B g st m.
Proof.
  intros HB HP Hfg. unfold absorb.
  pose proof (full_blocks_Forall B HB P m HP) as Hall. revert st.
  induction Hall as [|b l [Hl Hb] _ IH]; intros st; simpl; [done|].
  by rewrite Hfg, IH.
Qed.

(** A property of the state that every step preserves. *)
Lemma absorb_inv {S} B (f : S → list Z → S) (Q : S → Prop) (P : Z → Prop) st m :
  (0 < B)%nat → Forall P m → Q st →
  (∀ st b, length b = B → Forall P b → Q st → Q (f st b)) →
  Q (absorb B f st m).
Proof.
  intros HB HP HQ Hf. unfold absorb.
  pose proof (full_blocks_Forall B HB P m HP) as Hall. revert st HQ.
  induction Hall as [|b l [Hl Hb] _ IH]; intros st HQ; simpl; auto.
Qed.
