(* ===== verification/SphHash.v ===== *)
(** * The interface of an sph hash function

    Every hash of [src/crypto] offers the same four operations on a context:
    [_init], the update function, [_addbits_and_close] and [_close]. [SphHash]
    is that interface; [SphCorrect] is what an implementation promises to its
    callers: the digest is a function of the bytes received, however they were
    cut into calls, and closing leaves a context ready for the next message. *)

From S2P Require Import Prelude.
Local Open Scope Z_scope.

Record SphHash := {
  sph_context : Type;
  sph_init : sph_context → sph_context;
  sph_update : sph_context → list Z → sph_context;
  sph_addbits_and_close : sph_context → Z → Z → sph_context * list Z;
  sph_close : sph_context → sph_context * list Z }.

(** [digest m ub n]: the hash of the bytes [m] followed by the [n] most
    significant bits of the byte [ub]; [outlen] its length in bytes. *)
Class SphCorrect (h : SphHash) (digest : list Z → Z → Z → list Z) (outlen : nat) := {
  (** memory of the right size, whatever it holds *)
  ctx_valid : sph_context h → Prop;
  (** the context has received the bytes [m] since it was initialised *)
  ctx_rep : sph_context h → list Z → Prop;
  (** messages shorter than this many bytes are supported *)
  max_bytes : Z;
  init_rep c : ctx_valid c → ctx_rep (sph_init h c) [];
  update_rep c m d : ctx_rep c m → Forall byte d → ctx_rep (sph_update h c d) (m ++ d);
  addbits_digest c m ub n :
    ctx_rep c m → 0 ≤ n < 8 → Z.of_nat (length m) < max_bytes →
    (sph_addbits_and_close h c ub n).2 = digest m ub n;
  addbits_rep c m ub n :
    ctx_rep c m → 0 ≤ n < 8 → Z.of_nat (length m) < max_bytes →
    ctx_rep (sph_addbits_and_close h c ub n).1 [];
  close_addbits c : sph_close h c = sph_addbits_and_close h c 0 0;
  digest_length m ub n : length (digest m ub n) = outlen;
  digest_bytes m ub n : Forall byte (digest m ub n) }.

Section Client.
Context {h : SphHash} {digest : list Z → Z → Z → list Z} {outlen : nat}.
Context `{Hok : !SphCorrect h digest outlen}.

(** Feed a sequence of pieces. *)
Definition updates (c : sph_context h) (pieces : list (list Z)) : sph_context h :=
  fold_left (sph_update h) pieces c.

Lemma updates_rep c m pieces :
  ctx_rep c m → Forall (Forall byte) pieces → ctx_rep (updates c pieces) (m ++ concat pieces).
Proof.
  intros Hr Hp. revert c m Hr. induction Hp as [|d pieces Hd _ IH]; intros c m Hr; simpl.
  - by rewrite app_nil_r.
  - rewrite app_assoc. apply IH. by apply update_rep.
Qed.

(** The digest depends only on the concatenation of the pieces. *)
Lemma hash_pieces c pieces ub n :
  ctx_valid c → Forall (Forall byte) pieces → 0 ≤ n < 8 →
  Z.of_nat (length (concat pieces)) < max_bytes →
  (sph_addbits_and_close h (updates (sph_init h c) pieces) ub n).2 = digest (concat pieces) ub n.
Proof.
  intros Hv Hp Hn Hl. apply addbits_digest; [|done..].
  apply (updates_rep _ []); [by apply init_rep|done].
Qed.

(** One message hashed in one go, as every caller in the program does. *)
Definition sph_hash (c : sph_context h) (m : list Z) : list Z :=
  (sph_close h (sph_update h (sph_init h c) m)).2.

Lemma sph_hash_digest c m :
  ctx_valid c → Forall byte m → Z.of_nat (length m) < max_bytes →
  sph_hash c m = digest m 0 0.
Proof.
  intros. unfold sph_hash. rewrite close_addbits. apply addbits_digest; [|done..].
  apply (update_rep _ []); [by apply init_rep|done].
Qed.
End Client.
