(* ===== verification/SphStream.v ===== *)
(** * Hash functions with a context of the common shape

    Most contexts of [src/crypto] are a block buffer [buf], its fill level [ptr]
    and a state that only the hash knows. This file models such a context and
    its update function over [Stream], and derives the contract of [SphHash]
    from one obligation: what the close function returns. *)

From S2P Require Import Prelude SphTypes Stream SphHash.
Local Open Scope Z_scope.

Record sph_ctx (St : Type) := SphCtx { c_buf : list Z; c_ptr : nat; c_state : St }.
Arguments SphCtx {St} _ _ _.
Arguments c_buf {St} _.
Arguments c_ptr {St} _.
Arguments c_state {St} _.

Section SphStream.
Context {St : Type} (B : nat) (step : St → list Z → St).

(** The body of [_core]: the loop of [Stream] on the fields of the context. *)
Definition ctx_core (sc : sph_ctx St) (data : list Z) : sph_ctx St :=
  let '(st, buf, ptr) := buf_update B step (c_state sc) (c_buf sc) (c_ptr sc) data in
  SphCtx buf ptr st.

(** The body of [_init]: the buffer is left as it is. *)
Definition ctx_init (iv : St) (sc : sph_ctx St) : sph_ctx St := SphCtx (c_buf sc) 0 iv.

(** The context has received the bytes [m] since it was initialised with [iv]. *)
Definition stream_rep (iv : St) (sc : sph_ctx St) (m : list Z) : Prop :=
  buffered B step iv m (c_state sc, c_buf sc, c_ptr sc) ∧ Forall byte m.

Context (HB : (0 < B)%nat).

Lemma stream_init_rep iv sc : length (c_buf sc) = B → stream_rep iv (ctx_init iv sc) [].
Proof. intros. split; [|done]. by apply buffered_init. Qed.

Lemma stream_core_rep iv sc m d :
  stream_rep iv sc m → Forall byte d → stream_rep iv (ctx_core sc d) (m ++ d).
Proof.
  intros [Hr Hm] Hd. split; [|by apply Forall_app_2].
  apply (buf_update_ok _ _ HB _ _ _ _ _ d) in Hr. unfold ctx_core.
  by destruct (buf_update _ _ _ _ _ _) as [[? ?] ?].
Qed.

(** What a close function finds in the context. *)
Lemma stream_rep_fields iv sc m :
  stream_rep iv sc m →
  c_state sc = absorb B step iv m ∧ filled B (pending B m) (c_buf sc) ∧
  c_ptr sc = length (pending B m) ∧ (c_ptr sc < B)%nat ∧ Forall byte (pending B m).
Proof.
  intros [Hr Hm]. pose proof (buffered_ptr_lt _ _ HB _ _ _ Hr) as Hlt.
  pose proof (buffered_filled _ _ _ _ _ _ _ Hr) as Hf. destruct Hr as [Hs Hl Hp Hd].
  split; [done|]. split; [done|]. split; [done|]. split; [done|]. by apply Forall_drop.
Qed.

(** Completing the pending block [p] runs one step on it. *)
Lemma ctx_core_block sc p d :
  length (c_buf sc) = B → take (c_ptr sc) (c_buf sc) = p → c_ptr sc = length p →
  (length p < B)%nat → length (p ++ d) = B →
  let sc' := ctx_core sc d in
  c_state sc' = step (c_state sc) (p ++ d) ∧ c_ptr sc' = 0%nat ∧ length (c_buf sc') = B.
Proof.
  intros Hb Ht Hp Hlt Hd. unfold ctx_core.
  destruct (buf_update_block B step HB p (c_state sc) (c_buf sc) (c_ptr sc) d) as (buf' & E & Hl);
    [done..|]. by rewrite E.
Qed.

Context (iv : St) (close : sph_ctx St → Z → Z → sph_ctx St * list Z).
Context (digest : list Z → Z → Z → list Z) (outlen : nat) (maxlen : Z).

(** The public functions: close, then initialise again. *)
Definition ctx_addbits_and_close (sc : sph_ctx St) (ub n : Z) : sph_ctx St * list Z :=
  let '(sc, dst) := close sc ub n in (ctx_init iv sc, dst).

Definition stream_hash : SphHash :=
  {| sph_context := sph_ctx St; sph_init := ctx_init iv; sph_update := ctx_core;
     sph_addbits_and_close := ctx_addbits_and_close;
     sph_close sc := ctx_addbits_and_close sc 0 0 |}.

Context (Hclose : ∀ sc m ub n, stream_rep iv sc m → 0 ≤ n < 8 → Z.of_nat (length m) < maxlen →
  length (c_buf (close sc ub n).1) = B ∧ (close sc ub n).2 = digest m ub n).
Context (Hlength : ∀ m ub n, length (digest m ub n) = outlen).
Context (Hbytes : ∀ m ub n, Forall byte (digest m ub n)).

#[program] Definition stream_correct : SphCorrect stream_hash digest outlen := {|
  ctx_valid c := length (c_buf c) = B;
  ctx_rep := stream_rep iv;
  max_bytes := maxlen |}.
Next Obligation. intros. by apply stream_init_rep. Qed.
Next Obligation. intros. by apply stream_core_rep. Qed.
Next Obligation.
  intros c m ub n Hr Hn Hl. destruct (Hclose c m ub n) as [_ E]; [done..|].
  simpl. unfold ctx_addbits_and_close. by destruct (close c ub n).
Qed.
Next Obligation.
  intros c m ub n Hr Hn Hl. destruct (Hclose c m ub n) as [Hb _]; [done..|].
  simpl. unfold ctx_addbits_and_close. destruct (close c ub n). by apply stream_init_rep.
Qed.
Next Obligation. done. Qed.
Next Obligation. apply Hlength. Qed.
Next Obligation. apply Hbytes. Qed.
End SphStream.

(** Digests that are encoded words. *)
Lemma digest_words_length {A} (f : A → list Z) k n (l : list A) :
  (∀ x, length (f x) = k) → (n ≤ length l)%nat →
  length (concat (map f (take n l))) = (k * n)%nat.
Proof. intros Hf Hn. rewrite (concat_map_length _ k) by done. by rewrite length_take, Nat.min_l. Qed.

(** The padding block of a close function: the last byte, then zeros. *)
Lemma filled_pad_zero B p buf ub n :
  filled B p buf → (length p < B)%nat → 0 ≤ n < 8 →
  memset (<[length p := close_byte ub n]> buf) (length p + 1) 0 (B - (length p + 1)) =
  p ++ last_byte ub n :: replicate (B - length p - 1) 0.
Proof.
  intros Hf Hl Hn. rewrite close_byte_spec by done.
  eapply (filled_insert _ _ _ (length p) (last_byte ub n)) in Hf; [|done|done].
  eapply (filled_memset _ _ _ (length p + 1) 0 (B - (length p + 1))) in Hf;
    [|rewrite length_app; simpl; lia..].
  apply filled_full in Hf; [|rewrite !length_app, length_replicate; simpl; lia].
  rewrite Hf, <- app_assoc. simpl. do 3 f_equal. lia.
Qed.

(** Padding with a one bit and zeros up to a multiple of [B] bytes. *)
Definition pad10 (B : nat) (m : list Z) (ub n : Z) : list Z :=
  m ++ last_byte ub n :: replicate (B - 1 - length m mod B) 0.

Lemma pad10_blocks B m ub n :
  (0 < B)%nat →
  full_blocks B (pad10 B m ub n) = full_blocks B m ++
    [pending B m ++ last_byte ub n :: replicate (B - length (pending B m) - 1) 0].
Proof.
  intros HB. unfold pad10. rewrite full_blocks_app by done. f_equal.
  pose proof (pending_lt B HB m). rewrite <- length_pending by done.
  replace (B - 1 - length (pending B m))%nat with (B - length (pending B m) - 1)%nat by lia.
  apply full_blocks_one; [done|]. rewrite length_app. simpl. rewrite length_replicate. lia.
Qed.

Lemma pad10_bytes B m ub n : 0 ≤ n < 8 → Forall byte m → Forall byte (pad10 B m ub n).
Proof.
  intros Hn Hm. apply Forall_app_2; [done|]. constructor; [by apply last_byte_byte|].
  by apply Forall_replicate.
Qed.

(** Absorbing with a step that agrees with [g] on the states that satisfy [Q]. *)
Lemma absorb_fold {S} B (f g : S → list Z → S) (Q : S → Prop) st m :
  (0 < B)%nat → Forall byte m → Q st →
  (∀ st b, Q st → length b = B → Forall byte b → f st b = g st b ∧ Q (g st b)) →
  absorb B f st m = fold_left g (full_blocks B m) st ∧ Q (fold_left g (full_blocks B m) st).
Proof.
  intros HB Hm HQ Hfg. unfold absorb.
  pose proof (full_blocks_Forall B HB byte m Hm) as Hall. revert st HQ.
  induction Hall as [|b l [Hl Hb] _ IH]; intros st HQ; cbn [fold_left]; [done|].
  destruct (Hfg st b) as [-> HQ']; [done..|]. by apply IH.
Qed.

(** ** A buffer larger than the block

    Keccak's context has one buffer size for several block sizes: the loop fills
    the first [B] bytes of a buffer of [cap] bytes, and the step reads only them. *)

Section SphStreamCap.
Context {St : Type} (B cap : nat) (step : St → list Z → St).
Context (HB : (0 < B)%nat) (Hcap : (B ≤ cap)%nat).
Context (Htake : ∀ st b, step st b = step st (take B b)).

Lemma take_memcpy_low buf off src :
  (off + length src ≤ B)%nat → length buf = cap →
  take B (memcpy buf off src) = memcpy (take B buf) off src.
Proof.
  intros Ho Hl. unfold memcpy.
  assert (length (take off buf) = off) as E by (rewrite length_take; lia).
  rewrite take_app, E, (take_ge (take off buf)) by lia.
  rewrite take_app, (take_ge src) by lia.
  rewrite take_take, Nat.min_l by lia. do 2 f_equal.
  rewrite skipn_firstn_comm. f_equal. lia.
Qed.

Lemma buf_loop_cap fuel st buf ptr data :
  length buf = cap → (ptr ≤ B)%nat →
  let r := buf_loop B step fuel st buf ptr data in
  buf_loop B step fuel st (take B buf) ptr data = (r.1.1, take B r.1.2, r.2) ∧
  length r.1.2 = cap.
Proof.
  revert st buf ptr data. induction fuel as [|fuel IH]; intros st buf ptr data Hl Hp; simpl; [done|].
  destruct (Nat.ltb_spec 0 (length data)); [|done].
  set (clen := if (length data <? B - ptr)%nat then length data else (B - ptr)%nat).
  assert (clen ≤ length data ∧ ptr + clen ≤ B)%nat as (? & ?)
    by (unfold clen; destruct (Nat.ltb_spec (length data) (B - ptr)); lia).
  assert (length (take clen data) = clen) as Hc by (rewrite length_take; lia).
  rewrite <- take_memcpy_low by (done || lia).
  assert (length (memcpy buf ptr (take clen data)) = cap) by (rewrite length_memcpy; lia).
  destruct (Nat.eqb_spec (ptr + clen) B).
  - rewrite <- Htake. apply IH; (done || lia).
  - apply IH; (done || lia).
Qed.

(** The context as one with a buffer of the size of the block. *)
Definition cap_ctx (sc : sph_ctx St) : sph_ctx St := SphCtx (take B (c_buf sc)) (c_ptr sc) (c_state sc).

Lemma ctx_core_cap sc data :
  length (c_buf sc) = cap → (c_ptr sc ≤ B)%nat →
  cap_ctx (ctx_core B step sc data) = ctx_core B step (cap_ctx sc) data ∧
  length (c_buf (ctx_core B step sc data)) = cap.
Proof.
  intros Hl Hp. unfold ctx_core, cap_ctx, buf_update. simpl.
  destruct (Nat.ltb_spec (length data) (B - c_ptr sc)); simpl.
  - rewrite take_memcpy_low by (done || lia). split; [done|]. rewrite length_memcpy; lia.
  - destruct (buf_loop_cap (length data) (c_state sc) (c_buf sc) (c_ptr sc) data) as [E Hl']; [done..|].
    rewrite E. by destruct (buf_loop _ _ _ _ (c_buf sc) _ _) as [[? ?] ?].
Qed.

Definition cap_rep (iv : St) (sc : sph_ctx St) (m : list Z) : Prop :=
  length (c_buf sc) = cap ∧ stream_rep B step iv (cap_ctx sc) m.

Lemma cap_init_rep iv sc : length (c_buf sc) = cap → cap_rep iv (ctx_init iv sc) [].
Proof.
  intros Hl. split; [done|]. apply (stream_init_rep B step HB iv (cap_ctx sc)).
  simpl. rewrite length_take. lia.
Qed.

Lemma cap_core_rep iv sc m d :
  cap_rep iv sc m → Forall byte d → cap_rep iv (ctx_core B step sc d) (m ++ d).
Proof.
  intros [Hl Hr] Hd. destruct (stream_rep_fields B step HB _ _ _ Hr) as (_ & _ & _ & Hp & _).
  destruct (ctx_core_cap sc d) as [E Hl']; [done|simpl in Hp; lia|]. split; [done|].
  rewrite E. by apply stream_core_rep.
Qed.

Lemma cap_rep_fields iv sc m :
  cap_rep iv sc m → c_state sc = absorb B step iv m ∧ c_ptr sc = length (pending B m).
Proof.
  intros [_ Hr]. by destruct (stream_rep_fields B step HB _ _ _ Hr) as (? & _ & ? & _).
Qed.
End SphStreamCap.
