(* ===== verification/MdHelper.v ===== *)
(** * [md_helper.c], [sph_md_helper.c]: Merkle-Damgard data handling

    The two files are the same code, meant to be included after macros that
    choose the word size, the byte order and the length field. The macros are
    the fields of [md_config]; [RFUN] is the parameter of the section. *)

From S2P Require Import Prelude SphTypes Stream.
Local Open Scope Z_scope.

Inductive md_word := BE64 | LE64 | BE32 | LE32.

Record md_config := {
  WORD : md_word;
  PW01 : bool;
  BLEN : option nat;
  PLW1 : bool;
  PLW4 : bool;
  SVAL : bool }.

Definition is64 (w : md_word) : bool :=
  match w with BE64 | LE64 => true | BE32 | LE32 => false end.

Definition SPH_BLEN (cfg : md_config) : nat :=
  match BLEN cfg with
  | Some b => b
  | None => if is64 (WORD cfg) then 128 else 64
  end.

Definition SPH_WLEN (cfg : md_config) : nat := if is64 (WORD cfg) then 8 else 4.

Definition SPH_MAXPAD (cfg : md_config) : nat :=
  if PLW1 cfg then SPH_BLEN cfg - SPH_WLEN cfg
  else if PLW4 cfg then SPH_BLEN cfg - 4 * SPH_WLEN cfg
  else SPH_BLEN cfg - 2 * SPH_WLEN cfg.

(** The context: [buf], [val] (or the state [SVAL] designates) and [count]. *)
Record md_context := MdContext {
  md_buf : list Z;
  md_val : list Z;
  md_count : Z }.

Section MdHelper.
Context (cfg : md_config) (RFUN : list Z → list Z → list Z).

(** [current = (unsigned)sc->count & (SPH_BLEN - 1U)] *)
Definition md_current (sc : md_context) : nat :=
  Z.to_nat (SPH_T32 (md_count sc) .& (Z.of_nat (SPH_BLEN cfg) - 1)).

Fixpoint md_short_loop (fuel : nat) (sc : md_context) (current : nat) (data : list Z)
    : md_context :=
  match fuel with
  | O => sc
  | S fuel =>
      if (0 <? length data)%nat then
        let clen := (SPH_BLEN cfg - current)%nat in
        let clen := if (length data <? clen)%nat then length data else clen in
        let buf := memcpy (md_buf sc) current (take clen data) in
        let data := drop clen data in
        let current := (current + clen)%nat in
        let count := SPH_T64 (md_count sc + Z.of_nat clen) in
        if (current =? SPH_BLEN cfg)%nat
        then md_short_loop fuel (MdContext buf (RFUN buf (md_val sc)) count) 0 data
        else md_short_loop fuel (MdContext buf (md_val sc) count) current data
      else sc
  end.

(** [HASH ## _short] *)
Definition md_short (sc : md_context) (data : list Z) : md_context :=
  md_short_loop (length data) sc (md_current sc) data.

(** [while (len >= SPH_BLEN) RFUN(data, SPH_VAL)]: returns the state and the
    remaining data. *)
Fixpoint md_direct_loop (fuel : nat) (val data : list Z) : list Z * list Z :=
  match fuel with
  | O => (val, data)
  | S fuel =>
      if (SPH_BLEN cfg <=? length data)%nat
      then md_direct_loop fuel (RFUN (take (SPH_BLEN cfg) data) val) (drop (SPH_BLEN cfg) data)
      else (val, data)
  end.

(** [sph_ ## HASH], with [SPH_UPTR] defined. [misaligned] is the test
    [!SPH_UNALIGNED && ((SPH_UPTR)data & (SPH_WLEN - 1U)) != 0]. *)
Definition md_update (misaligned : bool) (sc : md_context) (data : list Z) : md_context :=
  if (length data <? 2 * SPH_BLEN cfg)%nat then md_short sc data
  else
    let current := md_current sc in
    let '(sc, data) :=
      if (0 <? current)%nat then
        let t := (SPH_BLEN cfg - current)%nat in
        (md_short sc (take t data), drop t data)
      else (sc, data) in
    if misaligned then md_short sc data
    else
      let orig_len := length data in
      let '(val, rest) := md_direct_loop (length data) (md_val sc) data in
      let buf := if (0 <? length rest)%nat then memcpy (md_buf sc) 0 rest else md_buf sc in
      MdContext buf val (SPH_T64 (md_count sc + Z.of_nat orig_len)).

(** The message length in bits, written at [buf + SPH_MAXPAD]. *)
Definition md_length_field (sc : md_context) (n : Z) (buf : list Z) : list Z :=
  let low := SPH_T64 (SPH_T64 (md_count sc << 3) + n) in
  let high := md_count sc >> 61 in
  let pad := SPH_MAXPAD cfg in
  let w := SPH_WLEN cfg in
  match WORD cfg with
  | BE64 =>
      if PLW1 cfg then memcpy buf pad (sph_enc64be low)
      else if PLW4 cfg then
        let buf := memset buf pad 0 (2 * w) in
        let buf := memcpy buf (pad + 2 * w) (sph_enc64be high) in
        memcpy buf (pad + 3 * w) (sph_enc64be low)
      else memcpy (memcpy buf pad (sph_enc64be high)) (pad + w) (sph_enc64be low)
  | LE64 =>
      if PLW1 cfg then memcpy buf pad (sph_enc64le low)
      else memcpy (memcpy buf pad (sph_enc64le low)) (pad + w) (sph_enc64le high)
  | BE32 => memcpy buf pad (sph_enc64be low)
  | LE32 => memcpy buf pad (sph_enc64le low)
  end.

Definition md_enc (x : Z) : list Z :=
  match WORD cfg with
  | BE64 => sph_enc64be x
  | LE64 => sph_enc64le x
  | BE32 => sph_enc32be x
  | LE32 => sph_enc32le x
  end.

(** [HASH ## _addbits_and_close]: the context it leaves and the digest. *)
Definition md_addbits_and_close (sc : md_context) (ub n : Z) (rnum : nat)
    : md_context * list Z :=
  let current := md_current sc in
  let b := if PW01 cfg then uchar ((0x100 .| (ub .& 0xFF)) >> (8 - n)) else close_byte ub n in
  let buf := <[current := b]> (md_buf sc) in
  let current := S current in
  let '(buf, val) :=
    if (SPH_MAXPAD cfg <? current)%nat then
      let buf := memset buf current 0 (SPH_BLEN cfg - current) in
      let val := RFUN buf (md_val sc) in
      (memset buf 0 0 (SPH_MAXPAD cfg), val)
    else (memset buf current 0 (SPH_MAXPAD cfg - current), md_val sc) in
  let buf := md_length_field sc n buf in
  let val := RFUN buf val in
  (MdContext buf val (md_count sc),
   if SVAL cfg then [] else concat (map md_enc (take rnum val))).

(** [HASH ## _close] *)
Definition md_close (sc : md_context) (rnum : nat) : md_context * list Z :=
  md_addbits_and_close sc 0 0 rnum.
End MdHelper.

(** ** What the padding should be *)

(** The configurations the code supports: blocks of a power of two of bytes
    with room for the length field, one 64-bit length for 32-bit words, and no
    four-word little-endian length (that branch repeats the test [PLW1]). *)
Record md_config_ok (cfg : md_config) : Prop := {
  ok_blen : ∃ k, 0 ≤ k ≤ 32 ∧ Z.of_nat (SPH_BLEN cfg) = 2 ^ k;
  ok_room : (4 * SPH_WLEN cfg < SPH_BLEN cfg)%nat;
  ok_words32 : is64 (WORD cfg) = false → PLW1 cfg = false ∧ PLW4 cfg = false;
  ok_le64 : WORD cfg = LE64 → PLW4 cfg = true → PLW1 cfg = true }.

Definition big_endian (w : md_word) : bool :=
  match w with BE64 | BE32 => true | LE64 | LE32 => false end.

Definition md_last_byte (cfg : md_config) (ub n : Z) : Z :=
  if PW01 cfg then 2 ^ n + ub mod 256 / 2 ^ (8 - n) else last_byte ub n.

(** The bit length in the bytes that follow [SPH_MAXPAD]. *)
Definition md_len_bytes (cfg : md_config) (bits : Z) : list Z :=
  let l := le_enc (SPH_BLEN cfg - SPH_MAXPAD cfg) bits in
  if big_endian (WORD cfg) then rev l else l.

(** The number of zero bytes: the least that makes the length field end a block. *)
Definition md_zeros (cfg : md_config) (len : nat) : nat :=
  Z.to_nat ((Z.of_nat (SPH_MAXPAD cfg) - Z.of_nat (S len)) mod Z.of_nat (SPH_BLEN cfg)).

(** The padded message, for a message [m] followed by the [n] top bits of [ub]. *)
Definition md_pad (cfg : md_config) (m : list Z) (ub n : Z) : list Z :=
  m ++ [md_last_byte cfg ub n] ++ replicate (md_zeros cfg (length m)) 0 ++
  md_len_bytes cfg (8 * Z.of_nat (length m) + n).

Lemma md_pad_bytes cfg m ub n :
  PW01 cfg = false → 0 ≤ n < 8 → Forall byte m → Forall byte (md_pad cfg m ub n).
Proof.
  intros Hp Hn Hm. unfold md_pad, md_last_byte, md_len_bytes. rewrite Hp.
  repeat apply Forall_app_2; auto.
  - apply Forall_singleton. by apply last_byte_byte.
  - apply Forall_replicate. by apply word_0.
  - destruct (big_endian _); [apply Forall_rev|]; apply le_enc_bytes.
Qed.

Section MdHelperProofs.
Context (cfg : md_config) (RFUN : list Z → list Z → list Z).
Context (Hcfg : md_config_ok cfg).

Let B := SPH_BLEN cfg.
Let step (st b : list Z) : list Z := RFUN b st.

Lemma md_maxpad_lt : (SPH_MAXPAD cfg < B)%nat ∧ (B ≤ SPH_MAXPAD cfg + 4 * SPH_WLEN cfg)%nat.
Proof.
  destruct Hcfg as [_ Hr _ _]. unfold SPH_MAXPAD, B, SPH_WLEN in *.
  destruct (PLW1 cfg), (PLW4 cfg), (is64 (WORD cfg)); lia.
Qed.

Lemma md_B_pos : (0 < B)%nat.
Proof. destruct Hcfg as [_ Hr _ _]. unfold B. lia. Qed.

(** The context holds the message [m] received since its state was [iv]. *)
Record md_rep (iv : list Z) (sc : md_context) (m : list Z) : Prop := {
  rep_buffered : buffered B step iv m (md_val sc, md_buf sc, md_current cfg sc);
  rep_count : md_count sc = Z.of_nat (length m) mod 2 ^ 64 }.

(** The fill level is recovered from the byte count, even after it wraps. *)
Lemma md_current_spec sc len :
  md_count sc = Z.of_nat len mod 2 ^ 64 → md_current cfg sc = (len mod B)%nat.
Proof.
  intros Hc. destruct Hcfg as [(k & Hk & HB) _ _ _]. unfold md_current.
  rewrite Hc, HB, SPH_T32_mod, Z.sub_1_r, <- Z.ones_equiv, Z.land_ones by lia.
  rewrite !Z.mod_mod_divide.
  - rewrite <- HB, <- Nat2Z.inj_mod. by rewrite Nat2Z.id.
  - exists (2 ^ (64 - k)). rewrite <- Z.pow_add_r by lia. f_equal. lia.
  - exists (2 ^ (32 - k)). rewrite <- Z.pow_add_r by lia. f_equal. lia.
Qed.

Lemma md_rep_intro iv sc m val buf ptr :
  buffered B step iv m (val, buf, ptr) →
  md_val sc = val → md_buf sc = buf → md_count sc = Z.of_nat (length m) mod 2 ^ 64 →
  md_rep iv sc m.
Proof.
  intros Hb <- <- Hc. split; [|done].
  rewrite (md_current_spec _ _ Hc), <- (length_pending B) by apply md_B_pos.
  destruct Hb as [? ? Hp ?]; simpl in *. by rewrite <- Hp.
Qed.

Lemma md_rep_init iv buf :
  length buf = B → md_rep iv (MdContext buf iv 0) [].
Proof. intros. eapply md_rep_intro; [by apply buffered_init; [apply md_B_pos|]|done..]. Qed.

Lemma md_count_add c a b : SPH_T64 (SPH_T64 (c + a) + b) = SPH_T64 (c + (a + b)).
Proof. rewrite !SPH_T64_mod, Zplus_mod_idemp_l. f_equal. lia. Qed.

(** The loop of [md_short] is the shared buffer loop, plus the byte count. *)
Lemma md_short_loop_spec fuel sc current data :
  (length data ≤ fuel)%nat → (current < B)%nat → md_count sc = SPH_T64 (md_count sc) →
  md_short_loop cfg RFUN fuel sc current data =
  let '(val, buf, _) := buf_loop B step fuel (md_val sc) (md_buf sc) current data in
  MdContext buf val (SPH_T64 (md_count sc + Z.of_nat (length data))).
Proof.
  revert sc current data.
  induction fuel as [|fuel IH]; intros sc current data Hf Hc Hw; simpl.
  { destruct data; [|simpl in *; lia]. rewrite Z.add_0_r, <- Hw. by destruct sc. }
  fold B. destruct (Nat.ltb_spec 0 (length data)).
  2:{ destruct data; [|simpl in *; lia]. rewrite Z.add_0_r, <- Hw. by destruct sc. }
  set (clen := if (length data <? B - current)%nat then length data else (B - current)%nat).
  assert (clen ≤ length data ∧ 0 < clen ∧ current + clen ≤ B)%nat as (? & ? & ?)
    by (unfold clen; destruct (Nat.ltb_spec (length data) (B - current)); lia).
  destruct (Nat.eqb_spec (current + clen) B);
    rewrite IH by (rewrite ?length_drop; simpl; rewrite ?(SPH_T64_id (SPH_T64 _)) by auto with words; lia);
    simpl; rewrite length_drop, md_count_add, <- Nat2Z.inj_add; (replace (clen + (length data - clen))%nat with (length data) by lia); done.
Qed.

Lemma md_rep_T64 iv sc m : md_rep iv sc m → md_count sc = SPH_T64 (md_count sc).
Proof. intros [_ Hc]. rewrite Hc, SPH_T64_mod. symmetry. by apply Z.mod_mod. Qed.

Lemma md_rep_count iv sc m d :
  md_rep iv sc m → SPH_T64 (md_count sc + Z.of_nat (length d)) = Z.of_nat (length (m ++ d)) mod 2 ^ 64.
Proof.
  intros [_ Hc]. rewrite Hc, SPH_T64_mod, Zplus_mod_idemp_l, length_app. f_equal. lia.
Qed.

Lemma md_short_rep iv sc m data :
  md_rep iv sc m → md_rep iv (md_short cfg RFUN sc data) (m ++ data).
Proof.
  intros Hr. pose proof md_B_pos as HB. unfold md_short.
  pose proof (buf_loop_ok B step HB (length data) iv m _ _ _ data ltac:(done) (rep_buffered _ _ _ Hr)) as Hb.
  pose proof (buffered_ptr_lt B step HB _ _ _ (rep_buffered _ _ _ Hr)).
  rewrite md_short_loop_spec by (eauto using md_rep_T64).
  destruct (buf_loop _ _ _ _ _ _ _) as [[val buf] ptr].
  eapply md_rep_intro; [done|done|done|]. simpl. by eapply md_rep_count.
Qed.

Lemma md_direct_loop_spec fuel val data :
  (length data ≤ fuel)%nat →
  md_direct_loop cfg RFUN fuel val data = (absorb B step val data, pending B data).
Proof.
  pose proof md_B_pos as HB. revert val data.
  induction fuel as [|fuel IH]; intros val data Hf; simpl.
  { by rewrite absorb_small, pending_small by lia. }
  fold B. destruct (Nat.leb_spec B (length data)).
  - rewrite IH by (rewrite length_drop; lia).
    assert (length (take B data) = B) by (rewrite length_take; lia).
    change (RFUN (take B data) val) with (step val (take B data)).
    rewrite <- absorb_block, <- (pending_block B HB (take B data)) by done.
    by rewrite take_drop.
  - by rewrite absorb_small, pending_small by lia.
Qed.

(** From an empty buffer, the direct path absorbs the data's full blocks
    in place and keeps the rest. *)
Lemma md_direct_rep iv sc m data val rest :
  md_rep iv sc m → pending B m = [] →
  (val, rest) = md_direct_loop cfg RFUN (length data) (md_val sc) data →
  md_rep iv (MdContext (if (0 <? length rest)%nat then memcpy (md_buf sc) 0 rest else md_buf sc)
               val (SPH_T64 (md_count sc + Z.of_nat (length data)))) (m ++ data).
Proof.
  intros Hr Hp Hd. pose proof md_B_pos as HB.
  rewrite md_direct_loop_spec in Hd by done. injection Hd as -> ->.
  destruct (rep_buffered _ _ _ Hr) as [Hst Hsz _ _]; simpl in Hst, Hsz.
  pose proof (pending_lt B HB data).
  eapply (md_rep_intro iv _ _ _ _ (length (pending B data))); [|done|done|].
  - split; simpl.
    + by rewrite absorb_app, Hp, Hst.
    + destruct (Nat.ltb_spec 0 (length (pending B data))); [|done].
      rewrite length_memcpy; [done|]. rewrite Hsz. lia.
    + by rewrite pending_app, Hp.
    + rewrite pending_app, Hp by done. simpl.
      destruct (Nat.ltb_spec 0 (length (pending B data))) as [|Hz].
      * by apply (take_memcpy (md_buf sc) 0); lia.
      * destruct (pending B data); [done|simpl in Hz; lia].
  - simpl. by eapply md_rep_count.
Qed.

Lemma md_update_rep mis iv sc m data :
  md_rep iv sc m → md_rep iv (md_update cfg RFUN mis sc data) (m ++ data).
Proof.
  intros Hr. pose proof md_B_pos as HB. unfold md_update. fold B.
  destruct (Nat.ltb_spec (length data) (2 * B)); [by apply md_short_rep|].
  assert (∃ sc' m' data', md_rep iv sc' m' ∧ m ++ data = m' ++ data' ∧ pending B m' = [] ∧
    (if (0 <? md_current cfg sc)%nat
     then (md_short cfg RFUN sc (take (B - md_current cfg sc) data), drop (B - md_current cfg sc) data)
     else (sc, data)) = (sc', data')) as (sc' & m' & data' & Hr' & Hm & Hp & ->).
  { pose proof (buffered_ptr_lt B step HB _ _ _ (rep_buffered _ _ _ Hr)) as Hlt; simpl in Hlt.
    destruct (rep_buffered _ _ _ Hr) as [_ _ Hptr _]; simpl in Hptr.
    destruct (Nat.ltb_spec 0 (md_current cfg sc)).
    - eexists _, (m ++ take (B - md_current cfg sc) data), _.
      split; [by apply md_short_rep|]. split; [by rewrite <- app_assoc, take_drop|].
      split; [|done]. rewrite pending_app, pending_one by (done || rewrite length_app, length_take; lia). done.
    - exists sc, m, data. split_and!; try done. apply nil_length_inv. lia. }
  rewrite Hm. destruct mis; [by apply md_short_rep|].
  destruct (md_direct_loop _ _ _ _ _) as [val rest] eqn:Hd.
  by eapply md_direct_rep.
Qed.

(** *** Closing *)

Lemma md_last_byte_spec ub n :
  0 ≤ n < 8 →
  (if PW01 cfg then uchar ((0x100 .| (ub .& 0xFF)) >> (8 - n)) else close_byte ub n)
  = md_last_byte cfg ub n.
Proof.
  intros Hn. unfold md_last_byte. destruct (PW01 cfg); [|by apply close_byte_spec].
  change 0xFF with (Z.ones 8). change 0x100 with (1 << 8).
  rewrite (Z.land_ones ub 8) by done. change (2 ^ 8) with 256.
  pose proof (Z.mod_pos_bound ub 256 ltac:(done)).
  rewrite lor_shiftl_add by (done || unfold word; lia).
  rewrite uchar_mod, Z.shiftr_div_pow2 by lia.
  assert (2 ^ n * 2 ^ (8 - n) = 256) as E
    by (rewrite <- Z.pow_add_r by lia; by replace (n + (8 - n)) with 8 by lia).
  assert (0 < 2 ^ (8 - n)) by (apply Z.pow_pos_nonneg; lia).
  assert (2 ^ n ≤ 128) by (apply (Z.pow_le_mono_r 2 n 7); lia).
  change (1 << 8) with 256. rewrite <- (E : _ = 1 * 2 ^ 8).
  rewrite Z.div_add_l by lia. apply Z.mod_small.
  assert (ub mod 256 < 2 ^ (8 - n) * 2 ^ n) by lia.
  revert H0 H1 H2 E. generalize (2 ^ n), (2 ^ (8 - n)). intros a b ? ? ? ?.
  pose proof (Z.div_pos (ub mod 256) b). pose proof (Z.div_lt_upper_bound (ub mod 256) b a). lia.
Qed.

Lemma md_len_high c n : 0 ≤ n < 8 → (8 * c + n) / 2 ^ 64 = c >> 61.
Proof.
  intros. rewrite Z.shiftr_div_pow2 by done. change (2 ^ 64) with (8 * 2 ^ 61).
  rewrite <- Z.div_div by lia. f_equal.
  by rewrite Z.mul_comm, Z.div_add_l, Z.div_small, Z.add_0_r by lia.
Qed.

Lemma md_len_low c n :
  le_enc 8 (SPH_T64 (SPH_T64 (c << 3) + n)) = le_enc 8 (8 * c + n).
Proof.
  rewrite !SPH_T64_mod, Zplus_mod_idemp_l, (le_enc_mod 8), Z.shiftl_mul_pow2 by done.
  f_equal. lia.
Qed.

Lemma md_len_bytes_16 c n :
  0 ≤ n < 8 →
  rev (le_enc 16 (8 * c + n)) =
  sph_enc64be (c >> 61) ++ sph_enc64be (SPH_T64 (SPH_T64 (c << 3) + n)).
Proof.
  intros H. rewrite !sph_enc64be_spec, md_len_low, (le_enc_app 8 8), rev_app_distr.
  by rewrite (md_len_high c n H : _ / 2 ^ (8 * Z.of_nat 8) = _).
Qed.

Lemma md_len_bytes_32 c n :
  0 ≤ n < 8 → 0 ≤ c < 2 ^ 64 →
  rev (le_enc 32 (8 * c + n)) = replicate 16 0 ++ rev (le_enc 16 (8 * c + n)).
Proof.
  intros. rewrite (le_enc_app 16 16), rev_app_distr. f_equal.
  rewrite Z.div_small by (simpl; lia). by rewrite le_enc_0.
Qed.

Lemma length_md_len_bytes bits :
  length (md_len_bytes cfg bits) = (B - SPH_MAXPAD cfg)%nat.
Proof. unfold md_len_bytes. destruct (big_endian _); rewrite ?length_rev; apply length_le_enc. Qed.

(** The length field is the bit length, in the byte order and the size the
    configuration calls for. *)
Lemma md_length_field_spec sc n p buf :
  filled B p buf → length p = SPH_MAXPAD cfg → 0 ≤ n < 8 → 0 ≤ md_count sc < 2 ^ 64 →
  md_length_field cfg sc n buf = p ++ md_len_bytes cfg (8 * md_count sc + n).
Proof.
  intros Hf Hp Hn Hc. pose proof md_maxpad_lt as [Hlt _].
  apply (filled_full B).
  2:{ rewrite length_app, length_md_len_bytes. lia. }
  destruct Hcfg as [_ Hroom H32 HLE]. unfold md_length_field, md_len_bytes.
  unfold B, SPH_MAXPAD, SPH_WLEN in *.
  destruct (WORD cfg) eqn:EW, (PLW1 cfg) eqn:E1, (PLW4 cfg) eqn:E4; cbn [is64 big_endian] in *;
    try (destruct (H32 eq_refl); discriminate); try (specialize (HLE eq_refl eq_refl); discriminate);
    match goal with |- context [le_enc ?k _] =>
      first [assert (k = 8)%nat as -> by lia | assert (k = 16)%nat as -> by lia
            | assert (k = 32)%nat as -> by lia] end;
    rewrite ?md_len_bytes_32, ?md_len_bytes_16, <- ?md_len_low, <- ?sph_enc64be_spec,
      <- ?sph_enc64le_spec by done.
  all: rewrite ?app_assoc.
  all: try solve [repeat (apply filled_memcpy || apply filled_memset); rewrite ?length_app; simpl; (done || lia)].
  rewrite (le_enc_app 8 8), (md_len_high _ _ Hn : _ / 2 ^ (8 * Z.of_nat 8) = _), <- md_len_low.
  rewrite <- !sph_enc64le_spec, app_assoc.
  repeat apply filled_memcpy; rewrite ?length_app; simpl; (done || lia).
Qed.

Lemma md_zeros_spec len :
  let cur := (len mod B)%nat in
  md_zeros cfg len =
  (if (SPH_MAXPAD cfg <? S cur)%nat then (B - S cur) + SPH_MAXPAD cfg else SPH_MAXPAD cfg - S cur)%nat.
Proof.
  intros cur. pose proof md_maxpad_lt as [Hlt _]. pose proof md_B_pos.
  pose proof (Nat.mod_upper_bound len B ltac:(lia)). fold cur in H0.
  pose proof (Nat.div_mod_eq len B) as Hd. fold cur in Hd.
  unfold md_zeros. fold B. rewrite Hd at 1.
  replace (Z.of_nat (SPH_MAXPAD cfg) - Z.of_nat (S (B * (len / B) + cur)))
    with (Z.of_nat (SPH_MAXPAD cfg) - Z.of_nat (S cur) + (- Z.of_nat (len / B)) * Z.of_nat B) by lia.
  rewrite Z_mod_plus_full. destruct (Nat.ltb_spec (SPH_MAXPAD cfg) (S cur)).
  - rewrite <- (Z_mod_plus_full _ 1), Z.mod_small by lia. lia.
  - rewrite Z.mod_small by lia. lia.
Qed.

(** The last block, when the length field fits after the message ... *)
Lemma md_last_block sc n q buf cur :
  filled B q buf → cur = length q → (cur ≤ SPH_MAXPAD cfg)%nat →
  0 ≤ n < 8 → 0 ≤ md_count sc < 2 ^ 64 →
  let blk := q ++ replicate (SPH_MAXPAD cfg - cur) 0 ++ md_len_bytes cfg (8 * md_count sc + n) in
  md_length_field cfg sc n (memset buf cur 0 (SPH_MAXPAD cfg - cur)) = blk ∧ length blk = B.
Proof.
  intros Hf -> Hq Hn Hc blk. pose proof md_maxpad_lt as [Hlt _].
  pose proof (filled_memset B q buf _ 0 (SPH_MAXPAD cfg - length q) Hf eq_refl ltac:(lia)) as Hf2.
  split.
  - rewrite (md_length_field_spec sc n _ _ Hf2); [by rewrite <- app_assoc| |done|done].
    rewrite length_app, length_replicate. lia.
  - unfold blk. rewrite !length_app, length_replicate, length_md_len_bytes. lia.
Qed.

(** ... and when it does not: the block the message ends in, filled with zeros. *)
Lemma md_fill_block q buf cur :
  filled B q buf → cur = length q →
  memset buf cur 0 (B - cur) = q ++ replicate (B - cur) 0 ∧
  length (q ++ replicate (B - cur) 0) = B.
Proof.
  intros Hf ->. pose proof (filled_length _ _ _ Hf).
  assert (length (q ++ replicate (B - length q) 0) = B) by (rewrite length_app, length_replicate; lia).
  split; [|done]. eapply filled_full; [|done]. apply filled_memset; [done..|lia].
Qed.

(** The padded message is the full blocks of [m], then one or two blocks. *)
Lemma md_addbits_and_close_spec iv sc m ub n rnum :
  md_rep iv sc m → 0 ≤ n < 8 → Z.of_nat (length m) < 2 ^ 64 →
  let val := absorb B step iv (md_pad cfg m ub n) in
  let r := md_addbits_and_close cfg RFUN sc ub n rnum in
  md_val r.1 = val ∧ length (md_buf r.1) = B ∧
  r.2 = if SVAL cfg then [] else concat (map (md_enc cfg) (take rnum val)).
Proof.
  intros Hr Hn Hlen val r. pose proof md_maxpad_lt as [Hlt _]. pose proof md_B_pos as HB.
  destruct Hr as [Hb Hc]. rewrite Z.mod_small in Hc by lia.
  pose proof (buffered_filled B step _ _ _ _ _ Hb) as Hf.
  destruct Hb as [Hst Hsz Hptr _]; simpl in Hst, Hsz, Hptr.
  set (p := pending B m) in *. set (cur := md_current cfg sc) in *.
  pose proof (pending_lt B HB m) as Hplt. fold p in Hplt.
  assert (cur = length m mod B)%nat as Hcur by (rewrite Hptr; by apply length_pending).
  set (lb := md_last_byte cfg ub n).
  assert (filled B (p ++ [lb]) (<[cur := lb]> (md_buf sc))) as Hf1 by (apply filled_insert; lia || done).
  assert (S cur = length (p ++ [lb])) as Hq by (rewrite length_app; simpl; lia).
  enough (∃ buf, r = (MdContext buf val (md_count sc),
            if SVAL cfg then [] else concat (map (md_enc cfg) (take rnum val))) ∧ length buf = B)
    as (? & -> & ?) by done.
  unfold r, md_addbits_and_close. fold B cur. rewrite md_last_byte_spec by done. fold lb.
  unfold val, md_pad. fold lb. rewrite md_zeros_spec, <- Hcur, <- Hc, absorb_app, <- Hst by done. fold p.
  destruct (Nat.ltb_spec (SPH_MAXPAD cfg) (S cur)) as [Hlong|Hshort].
  - destruct (md_fill_block _ _ _ Hf1 Hq) as [-> Hl1].
    destruct (md_last_block sc n [] ((p ++ [lb]) ++ replicate (B - S cur) 0) 0)
      as [E2 Hl2]; [by apply filled_nil|done|lia|done|lia|].
    rewrite Nat.sub_0_r in *. simpl app in E2, Hl2. rewrite E2. eexists. split; [|exact Hl2].
    rewrite replicate_add, <- (app_assoc _ (replicate (SPH_MAXPAD cfg) 0)),
      (app_assoc p), (app_assoc (p ++ [lb])).
    by rewrite absorb_block, absorb_one.
  - destruct (md_last_block sc n _ _ _ Hf1 Hq) as [E2 Hl2]; [lia|done|lia|].
    rewrite E2. eexists. split; [|exact Hl2]. rewrite (app_assoc p). by rewrite absorb_one.
Qed.
End MdHelperProofs.
