(* ===== verification/Sha2big.v ===== *)
(** * [sph_sha2big.c]: SHA-384 and SHA-512

    The compression function, unrolled eight steps at a time, against FIPS
    180-4, and the hash functions built on [sph_md_helper.c]. *)

From S2P Require Import Prelude SphTypes Stream SphHash MdHelper.
Local Open Scope Z_scope.

(** ** The code *)

Definition CH (X Y Z0 : Z) : Z := ((Y .^ Z0) .& X) .^ Z0.

Definition MAJ (X Y Z0 : Z) : Z := (X .& Y) .| ((X .| Y) .& Z0).

Definition BSG5_0 (x : Z) : Z := SPH_ROTR64 x 28 .^ SPH_ROTR64 x 34 .^ SPH_ROTR64 x 39.

Definition BSG5_1 (x : Z) : Z := SPH_ROTR64 x 14 .^ SPH_ROTR64 x 18 .^ SPH_ROTR64 x 41.

Definition SSG5_0 (x : Z) : Z := SPH_ROTR64 x 1 .^ SPH_ROTR64 x 8 .^ SPH_T64 (x >> 7).

Definition SSG5_1 (x : Z) : Z := SPH_ROTR64 x 19 .^ SPH_ROTR64 x 61 .^ SPH_T64 (x >> 6).

Definition K512 : list Z :=
  [0x428A2F98D728AE22; 0x7137449123EF65CD; 0xB5C0FBCFEC4D3B2F; 0xE9B5DBA58189DBBC;
   0x3956C25BF348B538; 0x59F111F1B605D019; 0x923F82A4AF194F9B; 0xAB1C5ED5DA6D8118;
   0xD807AA98A3030242; 0x12835B0145706FBE; 0x243185BE4EE4B28C; 0x550C7DC3D5FFB4E2;
   0x72BE5D74F27B896F; 0x80DEB1FE3B1696B1; 0x9BDC06A725C71235; 0xC19BF174CF692694;
   0xE49B69C19EF14AD2; 0xEFBE4786384F25E3; 0x0FC19DC68B8CD5B5; 0x240CA1CC77AC9C65;
   0x2DE92C6F592B0275; 0x4A7484AA6EA6E483; 0x5CB0A9DCBD41FBD4; 0x76F988DA831153B5;
   0x983E5152EE66DFAB; 0xA831C66D2DB43210; 0xB00327C898FB213F; 0xBF597FC7BEEF0EE4;
   0xC6E00BF33DA88FC2; 0xD5A79147930AA725; 0x06CA6351E003826F; 0x142929670A0E6E70;
   0x27B70A8546D22FFC; 0x2E1B21385C26C926; 0x4D2C6DFC5AC42AED; 0x53380D139D95B3DF;
   0x650A73548BAF63DE; 0x766A0ABB3C77B2A8; 0x81C2C92E47EDAEE6; 0x92722C851482353B;
   0xA2BFE8A14CF10364; 0xA81A664BBC423001; 0xC24B8B70D0F89791; 0xC76C51A30654BE30;
   0xD192E819D6EF5218; 0xD69906245565A910; 0xF40E35855771202A; 0x106AA07032BBD1B8;
   0x19A4C116B8D2D0C8; 0x1E376C085141AB53; 0x2748774CDF8EEB99; 0x34B0BCB5E19B48A8;
   0x391C0CB3C5C95A63; 0x4ED8AA4AE3418ACB; 0x5B9CCA4F7763E373; 0x682E6FF3D6B2B8A3;
   0x748F82EE5DEFB2FC; 0x78A5636F43172F60; 0x84C87814A1F0AB72; 0x8CC702081A6439EC;
   0x90BEFFFA23631E28; 0xA4506CEBDE82BDE9; 0xBEF9A3F7B2C67915; 0xC67178F2E372532B;
   0xCA273ECEEA26619C; 0xD186B8C721C0C207; 0xEADA7DD6CDE0EB1E; 0xF57D4F7FEE6ED178;
   0x06F067AA72176FBA; 0x0A637DC5A2C898A6; 0x113F9804BEF90DAE; 0x1B710B35131C471B;
   0x28DB77F523047D84; 0x32CAAB7B40C72493; 0x3C9EBE0A15C9BEBC; 0x431D67C49C100D4C;
   0x4CC5D4BECB3E42B6; 0x597F299CFC657E2A; 0x5FCB6FAB3AD6FAEC; 0x6C44198C4A475817].

Definition H384 : list Z :=
  [0xCBBB9D5DC1059ED8; 0x629A292A367CD507; 0x9159015A3070DD17; 0x152FECD8F70E5939;
   0x67332667FFC00B31; 0x8EB44A8768581511; 0xDB0C2E0D64F98FA7; 0x47B5481DBEFA4FA4].

Definition H512 : list Z :=
  [0x6A09E667F3BCC908; 0xBB67AE8584CAA73B; 0x3C6EF372FE94F82B; 0xA54FF53A5F1D36F1;
   0x510E527FADE682D1; 0x9B05688C2B3E6C1F; 0x1F83D9ABFB41BD6B; 0x5BE0CD19137E2179].

(** [SHA3_STEP]: the new [D] and [H]. *)
Definition SHA3_STEP (W : list Z) (A B C D E F G H : Z) (i : nat) : Z * Z :=
  let T1 := SPH_T64 (H + BSG5_1 E + CH E F G + K512.[i] + W.[i]) in
  let T2 := SPH_T64 (BSG5_0 A + MAJ A B C) in
  let D := SPH_T64 (D + T1) in
  let H := SPH_T64 (T1 + T2) in
  (D, H).

(** The message schedule, the two first loops of [SHA3_ROUND_BODY]. *)
Definition SHA3_SCHEDULE (inp : nat → Z) : list Z :=
  fold_left (λ W i,
    W ++ [SPH_T64 (SSG5_1 W.[i - 2] + W.[i - 7] + SSG5_0 W.[i - 15] + W.[i - 16])])
    (seq 16 64) (map inp (seq 0 16)).

(** One iteration of the main loop: eight steps on rotated variables. *)
Definition SHA3_STEPS8 (W : list Z) (v : Z * Z * Z * Z * Z * Z * Z * Z) (i : nat)
    : Z * Z * Z * Z * Z * Z * Z * Z :=
  let '(A, B, C, D, E, F, G, H) := v in
  let '(D, H) := SHA3_STEP W A B C D E F G H (i + 0) in
  let '(C, G) := SHA3_STEP W H A B C D E F G (i + 1) in
  let '(B, F) := SHA3_STEP W G H A B C D E F (i + 2) in
  let '(A, E) := SHA3_STEP W F G H A B C D E (i + 3) in
  let '(H, D) := SHA3_STEP W E F G H A B C D (i + 4) in
  let '(G, C) := SHA3_STEP W D E F G H A B C (i + 5) in
  let '(F, B) := SHA3_STEP W C D E F G H A B (i + 6) in
  let '(E, A) := SHA3_STEP W B C D E F G H A (i + 7) in
  (A, B, C, D, E, F, G, H).

Definition SHA3_ROUND_BODY (inp : nat → Z) (r : list Z) : list Z :=
  let W := SHA3_SCHEDULE inp in
  let '(A, B, C, D, E, F, G, H) :=
    fold_left (SHA3_STEPS8 W) [0; 8; 16; 24; 32; 40; 48; 56; 64; 72]%nat
      (r.[0], r.[1], r.[2], r.[3], r.[4], r.[5], r.[6], r.[7]) in
  [SPH_T64 (r.[0] + A); SPH_T64 (r.[1] + B); SPH_T64 (r.[2] + C); SPH_T64 (r.[3] + D);
   SPH_T64 (r.[4] + E); SPH_T64 (r.[5] + F); SPH_T64 (r.[6] + G); SPH_T64 (r.[7] + H)].

Definition sha3_round (data r : list Z) : list Z :=
  SHA3_ROUND_BODY (λ x, sph_dec64be (drop (8 * x) data)) r.

Definition sph_sha384_comp (msg val : list Z) : list Z :=
  SHA3_ROUND_BODY (λ x, msg.[x]) val.

(** [RFUN sha3_round], [HASH sha384], [BE64] *)
Definition sha384_config : md_config :=
  {| WORD := BE64; PW01 := false; BLEN := None; PLW1 := false; PLW4 := false; SVAL := false |}.

Definition sph_sha384_init (cc : md_context) : md_context := MdContext (md_buf cc) H384 0.

Definition sph_sha512_init (cc : md_context) : md_context := MdContext (md_buf cc) H512 0.

Definition sph_sha384 (cc : md_context) (data : list Z) : md_context :=
  md_update sha384_config sha3_round false cc data.

(** [#define sph_sha512 sph_sha384] *)
Definition sph_sha512 := sph_sha384.

Definition sph_sha384_addbits_and_close (cc : md_context) (ub n : Z) : md_context * list Z :=
  let '(cc, dst) := md_addbits_and_close sha384_config sha3_round cc ub n 6 in
  (sph_sha384_init cc, dst).

Definition sph_sha384_close (cc : md_context) : md_context * list Z :=
  let '(cc, dst) := md_close sha384_config sha3_round cc 6 in
  (sph_sha384_init cc, dst).

Definition sph_sha512_addbits_and_close (cc : md_context) (ub n : Z) : md_context * list Z :=
  let '(cc, dst) := md_addbits_and_close sha384_config sha3_round cc ub n 8 in
  (sph_sha512_init cc, dst).

Definition sph_sha512_close (cc : md_context) : md_context * list Z :=
  let '(cc, dst) := md_close sha384_config sha3_round cc 8 in
  (sph_sha512_init cc, dst).

(** ** FIPS 180-4 *)

Module Fips180.
(** The constants as the standard defines them: the first 64 bits of the fractional parts
    of the cube roots of the first 80 primes, and of the square roots of the first eight
    and of the next eight.  [root k n] is the whole part of the [k]-th root, bit by bit. *)
Definition root (k n : Z) : Z :=
  fold_left (λ r i, if (r + 2 ^ i) ^ k <=? n then r + 2 ^ i else r) (rev (seqZ 0 70)) 0.

Definition primes : list Z :=
  List.filter (λ p, forallb (λ d, negb (p mod d =? 0)) (seqZ 2 (p - 2))) (seqZ 2 408).

Definition fraction (k p : Z) : Z := root k (p * 2 ^ (64 * k)) mod 2 ^ 64.

Definition K : list Z := map (fraction 3) primes.
Definition IV512 : list Z := map (fraction 2) (take 8 primes).
Definition IV384 : list Z := map (fraction 2) (take 8 (drop 8 primes)).

Definition ROTR (n x : Z) : Z := ((x >> n) .| (x << (64 - n))) mod 2 ^ 64.
Definition SHR (n x : Z) : Z := x >> n.

Definition Ch (x y z : Z) : Z := (x .& y) .^ (Z.lnot x .& z).
Definition Maj (x y z : Z) : Z := (x .& y) .^ (x .& z) .^ (y .& z).
Definition Sigma0 (x : Z) : Z := ROTR 28 x .^ ROTR 34 x .^ ROTR 39 x.
Definition Sigma1 (x : Z) : Z := ROTR 14 x .^ ROTR 18 x .^ ROTR 41 x.
Definition sigma0 (x : Z) : Z := ROTR 1 x .^ ROTR 8 x .^ SHR 7 x.
Definition sigma1 (x : Z) : Z := ROTR 19 x .^ ROTR 61 x .^ SHR 6 x.

(** The schedule: [M] are the sixteen words of the block. *)
Definition schedule (M : list Z) : list Z :=
  fold_left (λ W t,
    W ++ [(sigma1 W.[t - 2] + W.[t - 7] + sigma0 W.[t - 15] + W.[t - 16]) mod 2 ^ 64])
    (seq 16 64) M.

Definition step (W : list Z) (v : Z * Z * Z * Z * Z * Z * Z * Z) (t : nat)
    : Z * Z * Z * Z * Z * Z * Z * Z :=
  let '(a, b, c, d, e, f, g, h) := v in
  let T1 := (h + Sigma1 e + Ch e f g + K.[t] + W.[t]) mod 2 ^ 64 in
  let T2 := (Sigma0 a + Maj a b c) mod 2 ^ 64 in
  ((T1 + T2) mod 2 ^ 64, a, b, c, (d + T1) mod 2 ^ 64, e, f, g).

Definition compress (H M : list Z) : list Z :=
  let '(a, b, c, d, e, f, g, h) :=
    fold_left (step (schedule M)) (seq 0 80)
      (H.[0], H.[1], H.[2], H.[3], H.[4], H.[5], H.[6], H.[7]) in
  [(H.[0] + a) mod 2 ^ 64; (H.[1] + b) mod 2 ^ 64; (H.[2] + c) mod 2 ^ 64;
   (H.[3] + d) mod 2 ^ 64; (H.[4] + e) mod 2 ^ 64; (H.[5] + f) mod 2 ^ 64;
   (H.[6] + g) mod 2 ^ 64; (H.[7] + h) mod 2 ^ 64].

(** The sixteen big-endian words of a block of 128 bytes. *)
Definition block_words (b : list Z) : list Z := map (λ c, le_dec (rev c)) (chunks 8 16 b).

Definition hash (iv : list Z) (words : nat) (m : list Z) (ub n : Z) : list Z :=
  let H := fold_left (λ H b, compress H (block_words b))
             (full_blocks 128 (md_pad sha384_config m ub n)) iv in
  concat (map (λ w, rev (le_enc 8 w)) (take words H)).

Definition sha384 := hash IV384 6.
Definition sha512 := hash IV512 8.
End Fips180.

(** The tables of the code are the constants of the standard. *)
Lemma K512_spec : K512 = Fips180.K.
Proof. vm_compute. reflexivity. Qed.

Lemma H512_spec : H512 = Fips180.IV512.
Proof. vm_compute. reflexivity. Qed.

Lemma H384_spec : H384 = Fips180.IV384.
Proof. vm_compute. reflexivity. Qed.

(** ** The optimised expressions *)

Lemma CH_spec x y z : CH x y z = Fips180.Ch x y z.
Proof. unfold CH, Fips180.Ch. bitwise. Qed.

Lemma MAJ_spec x y z : MAJ x y z = Fips180.Maj x y z.
Proof. unfold MAJ, Fips180.Maj. bitwise. Qed.

Lemma ROTR64_spec x n : 0 ≤ n ≤ 64 → SPH_ROTR64 x n = Fips180.ROTR n x.
Proof.
  intros. unfold SPH_ROTR64, SPH_ROTL64, Fips180.ROTR. rewrite SPH_T64_mod, Z.lor_comm.
  do 3 f_equal. lia.
Qed.

Lemma BSG5_0_spec x : BSG5_0 x = Fips180.Sigma0 x.
Proof. unfold BSG5_0. by rewrite !ROTR64_spec. Qed.

Lemma BSG5_1_spec x : BSG5_1 x = Fips180.Sigma1 x.
Proof. unfold BSG5_1. by rewrite !ROTR64_spec. Qed.

Lemma SSG5_0_spec x : word 64 x → SSG5_0 x = Fips180.sigma0 x.
Proof.
  intros. unfold SSG5_0. rewrite !ROTR64_spec, SPH_T64_id by (done || by apply word_shiftr). done.
Qed.

Lemma SSG5_1_spec x : word 64 x → SSG5_1 x = Fips180.sigma1 x.
Proof.
  intros. unfold SSG5_1. rewrite !ROTR64_spec, SPH_T64_id by (done || by apply word_shiftr). done.
Qed.

(** A step on the variables where they are is a FIPS step and a rotation of
    their names. *)
Lemma SHA3_STEP_spec W a b c d e f g h t :
  Fips180.step W (a, b, c, d, e, f, g, h) t =
  let '(d', h') := SHA3_STEP W a b c d e f g h t in (h', a, b, c, d', e, f, g).
Proof.
  unfold Fips180.step, SHA3_STEP.
  by rewrite !SPH_T64_mod, BSG5_0_spec, BSG5_1_spec, CH_spec, MAJ_spec, K512_spec.
Qed.

Lemma SHA3_STEPS8_spec W v i :
  SHA3_STEPS8 W v i = fold_left (Fips180.step W) (seq i 8) v.
Proof.
  destruct v as [[[[[[[A B] C] D] E] F] G] H]. unfold SHA3_STEPS8. cbn [seq fold_left].
  rewrite Nat.add_0_r, !Nat.add_succ_r, Nat.add_0_r.
  do 8 (rewrite SHA3_STEP_spec; destruct (SHA3_STEP _ _ _ _ _ _ _ _ _ _)).
  reflexivity.
Qed.

Lemma SHA3_main_loop W v :
  fold_left (SHA3_STEPS8 W) [0; 8; 16; 24; 32; 40; 48; 56; 64; 72]%nat v =
  fold_left (Fips180.step W) (seq 0 80) v.
Proof.
  assert (seq 0 80 = concat (map (λ i, seq i 8) [0; 8; 16; 24; 32; 40; 48; 56; 64; 72]%nat)) as -> by done.
  generalize [0; 8; 16; 24; 32; 40; 48; 56; 64; 72]%nat. intros l. revert v.
  induction l as [|i l IH]; intros v; cbn [fold_left map concat]; [done|].
  by rewrite SHA3_STEPS8_spec, IH, fold_left_app.
Qed.

Lemma SHA3_SCHEDULE_spec inp :
  Forall (word 64) (map inp (seq 0 16)) →
  SHA3_SCHEDULE inp = Fips180.schedule (map inp (seq 0 16)).
Proof.
  intros Hw. unfold SHA3_SCHEDULE, Fips180.schedule.
  apply (fold_left_ext_inv (Forall (word 64))); [done|..]; intros W i HW.
  - by rewrite SPH_T64_mod, SSG5_0_spec, SSG5_1_spec by auto with words.
  - apply Forall_app. split; [done|]. apply Forall_singleton, SPH_T64_word.
Qed.

Lemma SHA3_ROUND_BODY_spec inp r :
  Forall (word 64) (map inp (seq 0 16)) →
  SHA3_ROUND_BODY inp r = Fips180.compress r (map inp (seq 0 16)).
Proof.
  intros Hw. unfold SHA3_ROUND_BODY, Fips180.compress.
  rewrite SHA3_main_loop, SHA3_SCHEDULE_spec by done.
  by destruct (fold_left _ _ _) as [[[[[[[? ?] ?] ?] ?] ?] ?] ?]; rewrite !SPH_T64_mod.
Qed.

(** A big-endian array of words read at successive offsets is [block_words]. *)
Lemma block_words_spec data :
  length data = 128%nat → Forall byte data →
  map (λ x, sph_dec64be (drop (8 * x) data)) (seq 0 16) = Fips180.block_words data ∧
  Forall (word 64) (Fips180.block_words data).
Proof.
  intros Hl Hb. split.
  - apply chunk_words; [done..|apply sph_dec64be_take|]. intros. by apply sph_dec64be_spec.
  - apply Forall_map. eapply Forall_impl; [by apply (chunks_Forall 8 16)|].
    intros c [? ?]. simpl. rewrite <- sph_dec64be_spec by done. by apply sph_dec64be_word.
Qed.

Lemma sha3_round_spec data r :
  length data = 128%nat → Forall byte data →
  sha3_round data r = Fips180.compress r (Fips180.block_words data).
Proof.
  intros. destruct (block_words_spec data) as [E Hw]; [done..|].
  unfold sha3_round. rewrite SHA3_ROUND_BODY_spec; by rewrite E.
Qed.

(** The SHA-512 compression functions of the code, with their unrolled steps,
    rotated variable names and rewritten Boolean functions, are the one of FIPS
    180-4: [sha3_round] on the big-endian words of a block of bytes, and the
    exported [sph_sha384_comp] on an array of words. *)
Theorem sha3_round_fips (data r msg : list Z)
    (Hlen : length data = 128%nat) (Hbytes : Forall byte data)
    (Hmsg : length msg = 16%nat) (Hwords : Forall (word 64) msg) :
  sha3_round data r = Fips180.compress r (Fips180.block_words data) ∧
  sph_sha384_comp msg r = Fips180.compress r msg.
Proof.
  split; [by apply sha3_round_spec|]. unfold sph_sha384_comp.
  assert (map (λ x, msg.[x]) (seq 0 16) = msg) as E.
  { do 16 (destruct msg as [|? msg]; [discriminate|]). by destruct msg. }
  by rewrite SHA3_ROUND_BODY_spec; rewrite E.
Qed.

Lemma sha3_round_fips_witness :
  let data := map Z.of_nat (seq 0 128) in
  sha3_round data H512 = Fips180.compress H512 (Fips180.block_words data) ∧
  sph_sha384_comp (take 16 K512) H512 = Fips180.compress H512 (take 16 K512).
Proof.
  apply (sha3_round_fips (map Z.of_nat (seq 0 128)) H512 (take 16 K512));
    [reflexivity|by apply bytesb_spec|reflexivity|].
  repeat (apply Forall_cons; split; [done|]). by apply Forall_nil.
Defined.

(** ** The hash functions *)

Lemma sha384_config_ok : md_config_ok sha384_config.
Proof. split; [by exists 7|by apply Nat.ltb_lt|done|done]. Qed.

Lemma length_compress H M : length (Fips180.compress H M) = 8%nat.
Proof. unfold Fips180.compress. by destruct (fold_left _ _ _) as [[[[[[[? ?] ?] ?] ?] ?] ?] ?]. Qed.

(** The contexts of SHA-384 and SHA-512: the initial value and the number of
    output words are all that differs. *)
Definition sha_hash (init : md_context → md_context)
    (addbits : md_context → Z → Z → md_context * list Z)
    (close : md_context → md_context * list Z) : SphHash :=
  {| sph_context := md_context; sph_init := init; sph_update := sph_sha384;
     sph_addbits_and_close := addbits; sph_close := close |}.

Definition sha384_hash : SphHash :=
  sha_hash sph_sha384_init sph_sha384_addbits_and_close sph_sha384_close.

Definition sha512_hash : SphHash :=
  sha_hash sph_sha512_init sph_sha512_addbits_and_close sph_sha512_close.

Definition sha_rep (iv : list Z) (sc : md_context) (m : list Z) : Prop :=
  md_rep sha384_config sha3_round iv sc m ∧ Forall byte m.

Lemma sha_addbits_spec iv rnum sc m ub n :
  sha_rep iv sc m → 0 ≤ n < 8 → Z.of_nat (length m) < 2 ^ 64 →
  let r := md_addbits_and_close sha384_config sha3_round sc ub n rnum in
  length (md_buf r.1) = 128%nat ∧ r.2 = Fips180.hash iv rnum m ub n.
Proof.
  intros [Hr Hb] Hn Hl r.
  destruct (md_addbits_and_close_spec _ sha3_round sha384_config_ok iv sc m ub n rnum) as (_ & Hs & Hd); [done..|].
  split; [done|]. unfold r. rewrite Hd. unfold Fips180.hash. simpl.
  rewrite (absorb_ext _ _ (λ H b, Fips180.compress H (Fips180.block_words b)) byte).
  - unfold absorb. change (SPH_BLEN sha384_config) with 128%nat. f_equal.
    apply map_ext. intros. apply sph_enc64be_spec.
  - by apply Nat.ltb_lt.
  - by apply md_pad_bytes.
  - intros. by apply sha3_round_spec.
Qed.

Lemma sha_digest_length iv rnum m ub n :
  length iv = 8%nat → (rnum ≤ 8)%nat → length (Fips180.hash iv rnum m ub n) = (8 * rnum)%nat.
Proof.
  intros Hiv Hr. unfold Fips180.hash. rewrite (concat_map_length _ 8).
  - rewrite length_take, Nat.min_l; [done|].
    rewrite (fold_left_inv (λ H, length H = 8%nat)); [done|done|]. intros. apply length_compress.
  - intros. by rewrite length_rev, length_le_enc.
Qed.

Lemma sha_digest_bytes iv rnum m ub n : Forall byte (Fips180.hash iv rnum m ub n).
Proof. apply Forall_concat_map. intros. apply Forall_rev, le_enc_bytes. Qed.

Section ShaInstance.
Context (iv : list Z) (rnum : nat) (init : md_context → md_context).
Context (addbits : md_context → Z → Z → md_context * list Z) (close : md_context → md_context * list Z).
Context (Hinit : ∀ c, init c = MdContext (md_buf c) iv 0).
Context (Haddbits : ∀ c ub n, addbits c ub n =
  (init (md_addbits_and_close sha384_config sha3_round c ub n rnum).1,
   (md_addbits_and_close sha384_config sha3_round c ub n rnum).2)).
Context (Hclose : ∀ c, close c = addbits c 0 0).
Context (Hiv : length iv = 8%nat) (Hrnum : (rnum ≤ 8)%nat).

Lemma sha_init_rep c : length (md_buf c) = 128%nat → sha_rep iv (init c) [].
Proof. intros. rewrite Hinit. split; [|done]. by apply md_rep_init; [apply sha384_config_ok|]. Qed.

Program Instance sha_correct_gen :
  SphCorrect (sha_hash init addbits close) (Fips180.hash iv rnum) (8 * rnum) := {|
  ctx_valid c := length (md_buf c) = 128%nat;
  ctx_rep := sha_rep iv;
  max_bytes := 2 ^ 64 |}.
Next Obligation. apply sha_init_rep. Qed.
Next Obligation.
  intros c m d [Hr Hb] Hd. split; [|by apply Forall_app_2].
  by apply md_update_rep; [apply sha384_config_ok|].
Qed.
Next Obligation. intros. simpl. rewrite Haddbits. by apply sha_addbits_spec. Qed.
Next Obligation.
  intros c m ub n Hr Hn Hl. simpl. rewrite Haddbits. apply sha_init_rep.
  by apply (sha_addbits_spec iv rnum c m ub n).
Qed.
Next Obligation. apply Hclose. Qed.
Next Obligation. intros. by apply sha_digest_length. Qed.
Next Obligation. intros. apply sha_digest_bytes. Qed.
End ShaInstance.

#[export] Instance sha384_correct : SphCorrect sha384_hash Fips180.sha384 48.
Proof.
  apply (sha_correct_gen Fips180.IV384 6); try (rewrite <- H384_spec; done); try done; try lia; intros.
  unfold sph_sha384_addbits_and_close. by destruct (md_addbits_and_close _ _ _ _ _ _).
Defined.

#[export] Instance sha512_correct : SphCorrect sha512_hash Fips180.sha512 64.
Proof.
  apply (sha_correct_gen Fips180.IV512 8); try (rewrite <- H512_spec; done); try done; try lia; intros.
  unfold sph_sha512_addbits_and_close. by destruct (md_addbits_and_close _ _ _ _ _ _).
Defined.

(** C14: SHA-512 as the program calls it. Whatever the context held, however the
    message is cut into calls, and for any trailing [n] bits, the digest is the
    one FIPS 180-4 defines. *)
Theorem sph_sha512_is_fips (cc : md_context) (pieces : list (list Z)) (ub n : Z)
    (Hcc : length (md_buf cc) = 128%nat) (Hp : Forall (Forall byte) pieces)
    (Hn : 0 ≤ n < 8) (Hl : Z.of_nat (length (concat pieces)) < 2 ^ 64) :
  (sph_sha512_addbits_and_close (fold_left sph_sha512 pieces (sph_sha512_init cc)) ub n).2
  = Fips180.sha512 (concat pieces) ub n.
Proof. exact (hash_pieces (Hok := sha512_correct) cc pieces ub n Hcc Hp Hn Hl). Qed.

Lemma sph_sha512_is_fips_witness :
  (sph_sha512_addbits_and_close (fold_left sph_sha512 [[97]; [98; 99]]
    (sph_sha512_init (MdContext (replicate 128 7) [] 5))) 0xA0 3).2
  = Fips180.sha512 [97; 98; 99] 0xA0 3.
Proof.
  apply (sph_sha512_is_fips (MdContext (replicate 128 7) [] 5) [[97]; [98; 99]] 0xA0 3);
    [reflexivity|by apply bytesb_pieces|lia|reflexivity].
Defined.
