(* ===== verification/Blake.v ===== *)
(** * [blake.c]: BLAKE-224, BLAKE-256, BLAKE-384, BLAKE-512

    The compression functions against the BLAKE specification, and the
    streaming interface with its counter bookkeeping and padding. *)

From S2P Require Import Prelude SphTypes Stream SphHash.
Local Open Scope Z_scope.

(** ** Constants *)

Definition IV224 : list Z :=
  [0xC1059ED8; 0x367CD507; 0x3070DD17; 0xF70E5939;
   0xFFC00B31; 0x68581511; 0x64F98FA7; 0xBEFA4FA4].

Definition IV256 : list Z :=
  [0x6A09E667; 0xBB67AE85; 0x3C6EF372; 0xA54FF53A;
   0x510E527F; 0x9B05688C; 0x1F83D9AB; 0x5BE0CD19].

Definition IV384 : list Z :=
  [0xCBBB9D5DC1059ED8; 0x629A292A367CD507; 0x9159015A3070DD17; 0x152FECD8F70E5939;
   0x67332667FFC00B31; 0x8EB44A8768581511; 0xDB0C2E0D64F98FA7; 0x47B5481DBEFA4FA4].

Definition IV512 : list Z :=
  [0x6A09E667F3BCC908; 0xBB67AE8584CAA73B; 0x3C6EF372FE94F82B; 0xA54FF53A5F1D36F1;
   0x510E527FADE682D1; 0x9B05688C2B3E6C1F; 0x1F83D9ABFB41BD6B; 0x5BE0CD19137E2179].

(** [sigma], the table of the compact variant. *)
Definition sigma : list (list nat) :=
  [[0; 1; 2; 3; 4; 5; 6; 7; 8; 9; 10; 11; 12; 13; 14; 15];
   [14; 10; 4; 8; 9; 15; 13; 6; 1; 12; 0; 2; 11; 7; 5; 3];
   [11; 8; 12; 0; 5; 2; 15; 13; 10; 14; 3; 6; 7; 1; 9; 4];
   [7; 9; 3; 1; 13; 12; 11; 14; 2; 6; 5; 10; 4; 0; 15; 8];
   [9; 0; 5; 7; 2; 4; 10; 15; 14; 1; 11; 12; 6; 8; 3; 13];
   [2; 12; 6; 10; 0; 11; 8; 3; 4; 13; 7; 5; 15; 14; 1; 9];
   [12; 5; 1; 15; 14; 13; 4; 10; 0; 7; 6; 3; 9; 2; 8; 11];
   [13; 11; 7; 14; 12; 1; 3; 9; 5; 0; 15; 4; 8; 6; 2; 10];
   [6; 15; 14; 9; 11; 3; 0; 8; 12; 2; 13; 7; 1; 4; 10; 5];
   [10; 2; 8; 4; 7; 6; 1; 5; 15; 11; 9; 14; 3; 12; 13; 0];
   [0; 1; 2; 3; 4; 5; 6; 7; 8; 9; 10; 11; 12; 13; 14; 15];
   [14; 10; 4; 8; 9; 15; 13; 6; 1; 12; 0; 2; 11; 7; 5; 3];
   [11; 8; 12; 0; 5; 2; 15; 13; 10; 14; 3; 6; 7; 1; 9; 4];
   [7; 9; 3; 1; 13; 12; 11; 14; 2; 6; 5; 10; 4; 0; 15; 8];
   [9; 0; 5; 7; 2; 4; 10; 15; 14; 1; 11; 12; 6; 8; 3; 13];
   [2; 12; 6; 10; 0; 11; 8; 3; 4; 13; 7; 5; 15; 14; 1; 9]]%nat.

(** The macros [Z00] to [Z9F] of the unrolled variant: row [r], column [i]. *)
Definition Zmac : list (list nat) :=
  [[0; 1; 2; 3; 4; 5; 6; 7; 8; 9; 10; 11; 12; 13; 14; 15];
   [14; 10; 4; 8; 9; 15; 13; 6; 1; 12; 0; 2; 11; 7; 5; 3];
   [11; 8; 12; 0; 5; 2; 15; 13; 10; 14; 3; 6; 7; 1; 9; 4];
   [7; 9; 3; 1; 13; 12; 11; 14; 2; 6; 5; 10; 4; 0; 15; 8];
   [9; 0; 5; 7; 2; 4; 10; 15; 14; 1; 11; 12; 6; 8; 3; 13];
   [2; 12; 6; 10; 0; 11; 8; 3; 4; 13; 7; 5; 15; 14; 1; 9];
   [12; 5; 1; 15; 14; 13; 4; 10; 0; 7; 6; 3; 9; 2; 8; 11];
   [13; 11; 7; 14; 12; 1; 3; 9; 5; 0; 15; 4; 8; 6; 2; 10];
   [6; 15; 14; 9; 11; 3; 0; 8; 12; 2; 13; 7; 1; 4; 10; 5];
   [10; 2; 8; 4; 7; 6; 1; 5; 15; 11; 9; 14; 3; 12; 13; 0]]%nat.

(** [CS0] to [CSF] *)
Definition CS : list Z :=
  [0x243F6A88; 0x85A308D3; 0x13198A2E; 0x03707344;
   0xA4093822; 0x299F31D0; 0x082EFA98; 0xEC4E6C89;
   0x452821E6; 0x38D01377; 0xBE5466CF; 0x34E90C6C;
   0xC0AC29B7; 0xC97C50DD; 0x3F84D5B5; 0xB5470917].

(** [CB0] to [CBF] *)
Definition CB : list Z :=
  [0x243F6A8885A308D3; 0x13198A2E03707344; 0xA4093822299F31D0; 0x082EFA98EC4E6C89;
   0x452821E638D01377; 0xBE5466CF34E90C6C; 0xC0AC29B7C97C50DD; 0x3F84D5B5B5470917;
   0x9216D5D98979FB1B; 0xD1310BA698DFB5AC; 0x2FFD72DBD01ADFB7; 0xB8E1AFED6A267E96;
   0xBA7C9045F12C7F99; 0x24A19947B3916CF7; 0x0801F2E2858EFC16; 0x636920D871574E69].

(** ** The 32-bit compression function *)

Definition GS (m0 m1 c0 c1 a b c d : Z) : Z * Z * Z * Z :=
  let a := SPH_T32 (a + b + (m0 .^ c1)) in
  let d := SPH_ROTR32 (d .^ a) 16 in
  let c := SPH_T32 (c + d) in
  let b := SPH_ROTR32 (b .^ c) 12 in
  let a := SPH_T32 (a + b + (m1 .^ c0)) in
  let d := SPH_ROTR32 (d .^ a) 8 in
  let c := SPH_T32 (c + d) in
  let b := SPH_ROTR32 (b .^ c) 7 in
  (a, b, c, d).

(** [ROUND_S(r)]: [perm] is the row of indices ([Mx], [CSx] of the round). *)
Definition ROUND_S_with (perm : list nat) (M V : list Z) : list Z :=
  let Mx i := M.[nth i perm 0%nat] in
  let CSx i := CS.[nth i perm 0%nat] in
  match V with
  | [V0; V1; V2; V3; V4; V5; V6; V7; V8; V9; VA; VB; VC; VD; VE; VF] =>
      let '(V0, V4, V8, VC) :=
        GS (Mx 0) (Mx 1) (CSx 0) (CSx 1) V0 V4 V8 VC in
      let '(V1, V5, V9, VD) :=
        GS (Mx 2) (Mx 3) (CSx 2) (CSx 3) V1 V5 V9 VD in
      let '(V2, V6, VA, VE) :=
        GS (Mx 4) (Mx 5) (CSx 4) (CSx 5) V2 V6 VA VE in
      let '(V3, V7, VB, VF) :=
        GS (Mx 6) (Mx 7) (CSx 6) (CSx 7) V3 V7 VB VF in
      let '(V0, V5, VA, VF) :=
        GS (Mx 8) (Mx 9) (CSx 8) (CSx 9) V0 V5 VA VF in
      let '(V1, V6, VB, VC) :=
        GS (Mx 10) (Mx 11) (CSx 10) (CSx 11) V1 V6 VB VC in
      let '(V2, V7, V8, VD) :=
        GS (Mx 12) (Mx 13) (CSx 12) (CSx 13) V2 V7 V8 VD in
      let '(V3, V4, V9, VE) :=
        GS (Mx 14) (Mx 15) (CSx 14) (CSx 15) V3 V4 V9 VE in
      [V0; V1; V2; V3; V4; V5; V6; V7; V8; V9; VA; VB; VC; VD; VE; VF]
  | _ => V
  end%nat.

Definition ROUND_S (M V : list Z) (r : nat) : list Z := ROUND_S_with (nth r Zmac []) M V.

(** The compact variant's round, indexed through [sigma]. *)
Definition ROUND_S_compact (M V : list Z) (r : nat) : list Z := ROUND_S_with (nth r sigma []) M V.

(** The sixteen message words: [sph_dec32be_aligned(buf + 4 * i)]. *)
Definition block_words32 (buf : list Z) : list Z :=
  map (λ i, sph_dec32be (drop (4 * i) buf)) (seq 0 16).

(** The initial working variables. *)
Definition init_V32 (H S : list Z) (T0 T1 : Z) : list Z :=
  [H.[0]; H.[1]; H.[2]; H.[3]; H.[4]; H.[5]; H.[6]; H.[7];
   S.[0] .^ CS.[0]; S.[1] .^ CS.[1]; S.[2] .^ CS.[2]; S.[3] .^ CS.[3];
   T0 .^ CS.[4]; T0 .^ CS.[5]; T1 .^ CS.[6]; T1 .^ CS.[7]].

(** The feed-forward [H0 ^= S0 ^ V0 ^ V8; ...]. *)
Definition final_H32 (H S V : list Z) : list Z :=
  [H.[0] .^ (S.[0] .^ V.[0] .^ V.[8]); H.[1] .^ (S.[1] .^ V.[1] .^ V.[9]);
   H.[2] .^ (S.[2] .^ V.[2] .^ V.[10]); H.[3] .^ (S.[3] .^ V.[3] .^ V.[11]);
   H.[4] .^ (S.[0] .^ V.[4] .^ V.[12]); H.[5] .^ (S.[1] .^ V.[5] .^ V.[13]);
   H.[6] .^ (S.[2] .^ V.[6] .^ V.[14]); H.[7] .^ (S.[3] .^ V.[7] .^ V.[15])].

Definition COMPRESS32 (H S : list Z) (T0 T1 : Z) (buf : list Z) : list Z :=
  let V := init_V32 H S T0 T1 in
  let M := block_words32 buf in
  let V := fold_left (ROUND_S M) [0; 1; 2; 3; 4; 5; 6; 7; 8; 9; 0; 1; 2; 3]%nat V in
  final_H32 H S V.

(** The compact variant: [for (r = 0; r < 14; r ++) ROUND_S(r)]. *)
Definition COMPRESS32_compact (H S : list Z) (T0 T1 : Z) (buf : list Z) : list Z :=
  let V := init_V32 H S T0 T1 in
  let M := block_words32 buf in
  let V := fold_left (ROUND_S_compact M) (seq 0 14) V in
  final_H32 H S V.

(** ** The 64-bit compression function *)

Definition GB (m0 m1 c0 c1 a b c d : Z) : Z * Z * Z * Z :=
  let a := SPH_T64 (a + b + (m0 .^ c1)) in
  let d := SPH_ROTR64 (d .^ a) 32 in
  let c := SPH_T64 (c + d) in
  let b := SPH_ROTR64 (b .^ c) 25 in
  let a := SPH_T64 (a + b + (m1 .^ c0)) in
  let d := SPH_ROTR64 (d .^ a) 16 in
  let c := SPH_T64 (c + d) in
  let b := SPH_ROTR64 (b .^ c) 11 in
  (a, b, c, d).

(** [ROUND_B(r)]: [perm] is the row of indices ([Mx], [CBx] of the round). *)
Definition ROUND_B_with (perm : list nat) (M V : list Z) : list Z :=
  let Mx i := M.[nth i perm 0%nat] in
  let CBx i := CB.[nth i perm 0%nat] in
  match V with
  | [V0; V1; V2; V3; V4; V5; V6; V7; V8; V9; VA; VB; VC; VD; VE; VF] =>
      let '(V0, V4, V8, VC) :=
        GB (Mx 0) (Mx 1) (CBx 0) (CBx 1) V0 V4 V8 VC in
      let '(V1, V5, V9, VD) :=
        GB (Mx 2) (Mx 3) (CBx 2) (CBx 3) V1 V5 V9 VD in
      let '(V2, V6, VA, VE) :=
        GB (Mx 4) (Mx 5) (CBx 4) (CBx 5) V2 V6 VA VE in
      let '(V3, V7, VB, VF) :=
        GB (Mx 6) (Mx 7) (CBx 6) (CBx 7) V3 V7 VB VF in
      let '(V0, V5, VA, VF) :=
        GB (Mx 8) (Mx 9) (CBx 8) (CBx 9) V0 V5 VA VF in
      let '(V1, V6, VB, VC) :=
        GB (Mx 10) (Mx 11) (CBx 10) (CBx 11) V1 V6 VB VC in
      let '(V2, V7, V8, VD) :=
        GB (Mx 12) (Mx 13) (CBx 12) (CBx 13) V2 V7 V8 VD in
      let '(V3, V4, V9, VE) :=
        GB (Mx 14) (Mx 15) (CBx 14) (CBx 15) V3 V4 V9 VE in
      [V0; V1; V2; V3; V4; V5; V6; V7; V8; V9; VA; VB; VC; VD; VE; VF]
  | _ => V
  end%nat.

Definition ROUND_B (M V : list Z) (r : nat) : list Z := ROUND_B_with (nth r Zmac []) M V.

(** The compact variant's round, indexed through [sigma]. *)
Definition ROUND_B_compact (M V : list Z) (r : nat) : list Z := ROUND_B_with (nth r sigma []) M V.

(** The sixteen message words: [sph_dec64be_aligned(buf + 8 * i)]. *)
Definition block_words64 (buf : list Z) : list Z :=
  map (λ i, sph_dec64be (drop (8 * i) buf)) (seq 0 16).

(** The initial working variables. *)
Definition init_V64 (H S : list Z) (T0 T1 : Z) : list Z :=
  [H.[0]; H.[1]; H.[2]; H.[3]; H.[4]; H.[5]; H.[6]; H.[7];
   S.[0] .^ CB.[0]; S.[1] .^ CB.[1]; S.[2] .^ CB.[2]; S.[3] .^ CB.[3];
   T0 .^ CB.[4]; T0 .^ CB.[5]; T1 .^ CB.[6]; T1 .^ CB.[7]].

(** The feed-forward [H0 ^= S0 ^ V0 ^ V8; ...]. *)
Definition final_H64 (H S V : list Z) : list Z :=
  [H.[0] .^ (S.[0] .^ V.[0] .^ V.[8]); H.[1] .^ (S.[1] .^ V.[1] .^ V.[9]);
   H.[2] .^ (S.[2] .^ V.[2] .^ V.[10]); H.[3] .^ (S.[3] .^ V.[3] .^ V.[11]);
   H.[4] .^ (S.[0] .^ V.[4] .^ V.[12]); H.[5] .^ (S.[1] .^ V.[5] .^ V.[13]);
   H.[6] .^ (S.[2] .^ V.[6] .^ V.[14]); H.[7] .^ (S.[3] .^ V.[7] .^ V.[15])].

Definition COMPRESS64 (H S : list Z) (T0 T1 : Z) (buf : list Z) : list Z :=
  let V := init_V64 H S T0 T1 in
  let M := block_words64 buf in
  let V := fold_left (ROUND_B M) [0; 1; 2; 3; 4; 5; 6; 7; 8; 9; 0; 1; 2; 3; 4; 5]%nat V in
  final_H64 H S V.

(** The compact variant: [for (r = 0; r < 16; r ++) ROUND_B(r)]. *)
Definition COMPRESS64_compact (H S : list Z) (T0 T1 : Z) (buf : list Z) : list Z :=
  let V := init_V64 H S T0 T1 in
  let M := block_words64 buf in
  let V := fold_left (ROUND_B_compact M) (seq 0 16) V in
  final_H64 H S V.

(** ** Contexts *)

(** [sph_blake_small_context] and [sph_blake_big_context]: the word size and
    the buffer size are those of the functions that use them. *)
Record blake_context := BlakeContext {
  bl_buf : list Z;
  bl_ptr : nat;
  bl_H : list Z;
  bl_S : list Z;
  bl_T0 : Z;
  bl_T1 : Z }.

Definition salt_zero_small : list Z := [0; 0; 0; 0].

Definition salt_zero_big : list Z := [0; 0; 0; 0].

(** ** Streaming, 32-bit variants *)

Definition blake32_init (sc : blake_context) (iv salt : list Z) : blake_context :=
  BlakeContext (bl_buf sc) 0 iv salt 0 0.

(** What happens when the buffer is full: count its bits, compress. *)
Definition blake32_step (st : list Z * list Z * Z * Z) (buf : list Z)
    : list Z * list Z * Z * Z :=
  let '(H, Sa, T0, T1) := st in
  let T0 := SPH_T32 (T0 + 512) in
  let T1 := if T0 <? 512 then SPH_T32 (T1 + 1) else T1 in
  (COMPRESS32 H Sa T0 T1 buf, Sa, T0, T1).

Definition blake32 (sc : blake_context) (data : list Z) : blake_context :=
  let '(H, Sa, T0, T1, buf, ptr) :=
    buf_update 64 blake32_step (bl_H sc, bl_S sc, bl_T0 sc, bl_T1 sc) (bl_buf sc) (bl_ptr sc) data in
  BlakeContext buf ptr H Sa T0 T1.

(** [u0] is what the local buffer [u.buf] holds on entry. *)
Definition blake32_close (u0 : list Z) (sc : blake_context) (ub n : Z) (out_size : nat)
    : blake_context * list Z :=
  let ptr := bl_ptr sc in
  let bit_len := (Z.of_nat ptr << 3) + n in
  let u := <[ptr := close_byte ub n]> u0 in
  let tl := SPH_T32 (bl_T0 sc + bit_len) in
  let th := bl_T1 sc in
  let '(T0, T1) :=
    if (ptr =? 0)%nat && (n =? 0) then (0xFFFFFE00, 0xFFFFFFFF)
    else if bl_T0 sc =? 0 then (SPH_T32 (0xFFFFFE00 + bit_len), SPH_T32 (bl_T1 sc - 1))
    else (SPH_T32 (bl_T0 sc - (512 - bit_len)), bl_T1 sc) in
  let sc := BlakeContext (bl_buf sc) ptr (bl_H sc) (bl_S sc) T0 T1 in
  let sc :=
    if bit_len <=? 446 then
      let u := memset u (ptr + 1)%nat 0 (55 - ptr)%nat in
      let u := if (out_size =? 8)%nat then <[55%nat := u.[55] .| 1]> u else u in
      let u := memcpy u 56 (sph_enc32be th) in
      let u := memcpy u 60 (sph_enc32be tl) in
      blake32 sc (drop ptr u)
    else
      let u := memset u (ptr + 1)%nat 0 (63 - ptr)%nat in
      let sc := blake32 sc (drop ptr u) in
      let sc := BlakeContext (bl_buf sc) (bl_ptr sc) (bl_H sc) (bl_S sc) 0xFFFFFE00 0xFFFFFFFF in
      let u := memset u 0 0 56 in
      let u := if (out_size =? 8)%nat then <[55%nat := 1]> u else u in
      let u := memcpy u 56 (sph_enc32be th) in
      let u := memcpy u 60 (sph_enc32be tl) in
      blake32 sc u in
  (sc, concat (map sph_enc32be (take out_size (bl_H sc)))).

(** ** Streaming, 64-bit variants *)

Definition blake64_init (sc : blake_context) (iv salt : list Z) : blake_context :=
  BlakeContext (bl_buf sc) 0 iv salt 0 0.

(** What happens when the buffer is full: count its bits, compress. *)
Definition blake64_step (st : list Z * list Z * Z * Z) (buf : list Z)
    : list Z * list Z * Z * Z :=
  let '(H, Sa, T0, T1) := st in
  let T0 := SPH_T64 (T0 + 1024) in
  let T1 := if T0 <? 1024 then SPH_T64 (T1 + 1) else T1 in
  (COMPRESS64 H Sa T0 T1 buf, Sa, T0, T1).

Definition blake64 (sc : blake_context) (data : list Z) : blake_context :=
  let '(H, Sa, T0, T1, buf, ptr) :=
    buf_update 128 blake64_step (bl_H sc, bl_S sc, bl_T0 sc, bl_T1 sc) (bl_buf sc) (bl_ptr sc) data in
  BlakeContext buf ptr H Sa T0 T1.

(** [u0] is what the local buffer [u.buf] holds on entry. *)
Definition blake64_close (u0 : list Z) (sc : blake_context) (ub n : Z) (out_size : nat)
    : blake_context * list Z :=
  let ptr := bl_ptr sc in
  let bit_len := (Z.of_nat ptr << 3) + n in
  let u := <[ptr := close_byte ub n]> u0 in
  let tl := SPH_T64 (bl_T0 sc + bit_len) in
  let th := bl_T1 sc in
  let '(T0, T1) :=
    if (ptr =? 0)%nat && (n =? 0) then (0xFFFFFFFFFFFFFC00, 0xFFFFFFFFFFFFFFFF)
    else if bl_T0 sc =? 0 then (SPH_T64 (0xFFFFFFFFFFFFFC00 + bit_len), SPH_T64 (bl_T1 sc - 1))
    else (SPH_T64 (bl_T0 sc - (1024 - bit_len)), bl_T1 sc) in
  let sc := BlakeContext (bl_buf sc) ptr (bl_H sc) (bl_S sc) T0 T1 in
  let sc :=
    if bit_len <=? 894 then
      let u := memset u (ptr + 1)%nat 0 (111 - ptr)%nat in
      let u := if (out_size =? 8)%nat then <[111%nat := u.[111] .| 1]> u else u in
      let u := memcpy u 112 (sph_enc64be th) in
      let u := memcpy u 120 (sph_enc64be tl) in
      blake64 sc (drop ptr u)
    else
      let u := memset u (ptr + 1)%nat 0 (127 - ptr)%nat in
      let sc := blake64 sc (drop ptr u) in
      let sc := BlakeContext (bl_buf sc) (bl_ptr sc) (bl_H sc) (bl_S sc) 0xFFFFFFFFFFFFFC00 0xFFFFFFFFFFFFFFFF in
      let u := memset u 0 0 112 in
      let u := if (out_size =? 8)%nat then <[111%nat := 1]> u else u in
      let u := memcpy u 112 (sph_enc64be th) in
      let u := memcpy u 120 (sph_enc64be tl) in
      blake64 sc u in
  (sc, concat (map sph_enc64be (take out_size (bl_H sc)))).

(** ** The public functions *)

Definition sph_blake224_init (cc : blake_context) : blake_context :=
  blake32_init cc IV224 salt_zero_small.

Definition sph_blake224 (cc : blake_context) (data : list Z) : blake_context :=
  blake32 cc data.

Definition sph_blake224_addbits_and_close (u0 : list Z) (cc : blake_context) (ub n : Z)
    : blake_context * list Z :=
  let '(cc, dst) := blake32_close u0 cc ub n 7 in
  (sph_blake224_init cc, dst).

Definition sph_blake224_close (u0 : list Z) (cc : blake_context) : blake_context * list Z :=
  sph_blake224_addbits_and_close u0 cc 0 0.

Definition sph_blake256_init (cc : blake_context) : blake_context :=
  blake32_init cc IV256 salt_zero_small.

Definition sph_blake256 (cc : blake_context) (data : list Z) : blake_context :=
  blake32 cc data.

Definition sph_blake256_addbits_and_close (u0 : list Z) (cc : blake_context) (ub n : Z)
    : blake_context * list Z :=
  let '(cc, dst) := blake32_close u0 cc ub n 8 in
  (sph_blake256_init cc, dst).

Definition sph_blake256_close (u0 : list Z) (cc : blake_context) : blake_context * list Z :=
  sph_blake256_addbits_and_close u0 cc 0 0.

Definition sph_blake384_init (cc : blake_context) : blake_context :=
  blake64_init cc IV384 salt_zero_big.

Definition sph_blake384 (cc : blake_context) (data : list Z) : blake_context :=
  blake64 cc data.

Definition sph_blake384_addbits_and_close (u0 : list Z) (cc : blake_context) (ub n : Z)
    : blake_context * list Z :=
  let '(cc, dst) := blake64_close u0 cc ub n 6 in
  (sph_blake384_init cc, dst).

Definition sph_blake384_close (u0 : list Z) (cc : blake_context) : blake_context * list Z :=
  sph_blake384_addbits_and_close u0 cc 0 0.

Definition sph_blake512_init (cc : blake_context) : blake_context :=
  blake64_init cc IV512 salt_zero_big.

Definition sph_blake512 (cc : blake_context) (data : list Z) : blake_context :=
  blake64 cc data.

Definition sph_blake512_addbits_and_close (u0 : list Z) (cc : blake_context) (ub n : Z)
    : blake_context * list Z :=
  let '(cc, dst) := blake64_close u0 cc ub n 8 in
  (sph_blake512_init cc, dst).

Definition sph_blake512_close (u0 : list Z) (cc : blake_context) : blake_context * list Z :=
  sph_blake512_addbits_and_close u0 cc 0 0.

(** ** The BLAKE specification

    [params] holds what differs between the 32-bit and the 64-bit functions. *)

Module BlakeSpec.
Record params := {
  w : Z;                       (* word size in bits *)
  rounds : nat;
  rots : Z * Z * Z * Z;        (* rotation amounts of [G] *)
  csts : list Z }.

Definition small : params := {| w := 32; rounds := 14; rots := (16, 12, 8, 7); csts := CS |}.
Definition big : params := {| w := 64; rounds := 16; rots := (32, 25, 16, 11); csts := CB |}.

Section WithParams.
Context (p : params).

(** Bytes per word and per block. *)
Definition wbytes : nat := Z.to_nat (w p / 8).
Definition bbytes : nat := 16 * wbytes.

Definition add (x y : Z) : Z := (x + y) mod 2 ^ w p.
Definition rotr (x n : Z) : Z := ((x >> n) .| (x << (w p - n))) mod 2 ^ w p.

(** [G]: [x] and [y] are the message words xored with constants. *)
Definition G (x y a b c d : Z) : Z * Z * Z * Z :=
  let '(r0, r1, r2, r3) := rots p in
  let a := add (add a b) x in
  let d := rotr (d .^ a) r0 in
  let c := add c d in
  let b := rotr (b .^ c) r1 in
  let a := add (add a b) y in
  let d := rotr (d .^ a) r2 in
  let c := add c d in
  let b := rotr (b .^ c) r3 in
  (a, b, c, d).

(** The four columns and the four diagonals. *)
Definition lanes : list (nat * nat * nat * nat) :=
  [(0, 4, 8, 12); (1, 5, 9, 13); (2, 6, 10, 14); (3, 7, 11, 15);
   (0, 5, 10, 15); (1, 6, 11, 12); (2, 7, 8, 13); (3, 4, 9, 14)]%nat.

(** [G_i] of a round whose permutation is [perm]. *)
Definition Gi (perm : list nat) (M v : list Z) (i : nat) : list Z :=
  let '(a, b, c, d) := nth i lanes (0, 0, 0, 0)%nat in
  let s k := nth k perm 0%nat in
  let x := M.[s (2 * i)%nat] .^ (csts p).[s (2 * i + 1)%nat] in
  let y := M.[s (2 * i + 1)%nat] .^ (csts p).[s (2 * i)%nat] in
  let '(a', b', c', d') := G x y v.[a] v.[b] v.[c] v.[d] in
  <[d := d']> (<[c := c']> (<[b := b']> (<[a := a']> v))).

Definition round (M v : list Z) (r : nat) : list Z :=
  fold_left (Gi (nth (r mod 10) sigma []) M) (seq 0 8) v.

(** Compression of the block [M], with salt [s] and counter [t]. *)
Definition compress (h s : list Z) (t : Z) (M : list Z) : list Z :=
  let t0 := t mod 2 ^ w p in
  let t1 := t / 2 ^ w p in
  let c i := (csts p).[i] in
  let v := [h.[0]; h.[1]; h.[2]; h.[3]; h.[4]; h.[5]; h.[6]; h.[7];
            s.[0] .^ c 0%nat; s.[1] .^ c 1%nat; s.[2] .^ c 2%nat; s.[3] .^ c 3%nat;
            t0 .^ c 4%nat; t0 .^ c 5%nat; t1 .^ c 6%nat; t1 .^ c 7%nat] in
  let v := fold_left (round M) (seq 0 (rounds p)) v in
  map (λ i, h.[i] .^ s.[i mod 4] .^ v.[i] .^ v.[i + 8]) (seq 0 8).

(** The big-endian words of a block. *)
Definition words (b : list Z) : list Z := map (λ c, le_dec (rev c)) (chunks wbytes 16 b).

(** The counter of block [i] of a message of [L] bits: the message bits up to
    the end of the block, zero when the block holds no message bit. *)
Definition counter (L : Z) (i : nat) : Z :=
  if 8 * Z.of_nat bbytes * Z.of_nat i <? L
  then Z.min (8 * Z.of_nat bbytes * (Z.of_nat i + 1)) L else 0.

(** Padding, on bits: a one, the least number of zeros, the bit [fin] (one for
    the 256-bit and 512-bit digests), and the message length in two words, to
    a multiple of the block. The [n] bits of [ub] that end the message are
    encoded with them, as they do not fill a byte. *)
Definition tail (fin L ub n : Z) : list Z :=
  let z := (8 * Z.of_nat bbytes - 2 * w p - 2 - L) mod (8 * Z.of_nat bbytes) in
  let bits := (ub / 2 ^ (8 - n)) mod 2 ^ n in
  let bits := bits * 2 + 1 in
  let bits := bits * 2 ^ z * 2 + fin in
  let bits := bits * 2 ^ (2 * w p) + L in
  rev (le_enc (Z.to_nat ((n + 1 + z + 1 + 2 * w p) / 8)) bits).

(** The chain of compressions of a list of blocks from block [i] on. *)
Definition chain (s : list Z) (count : nat → Z) (bs : list (list Z)) (hi : list Z * nat)
    : list Z * nat :=
  fold_left (λ '(h, i) b, (compress h s (count i) (words b), S i)) bs hi.

Definition hash (iv s : list Z) (fin : Z) (out : nat) (m : list Z) (ub n : Z) : list Z :=
  let L := 8 * Z.of_nat (length m) + n in
  let h := (chain s (counter L) (full_blocks bbytes (m ++ tail fin L ub n)) (iv, 0%nat)).1 in
  concat (map (λ x, rev (le_enc wbytes x)) (take out h)).
End WithParams.

Definition blake224 := hash small IV224 [0; 0; 0; 0] 0 7.
Definition blake256 := hash small IV256 [0; 0; 0; 0] 1 8.
Definition blake384 := hash big IV384 [0; 0; 0; 0] 0 6.
Definition blake512 := hash big IV512 [0; 0; 0; 0] 1 8.
End BlakeSpec.

(** ** The compression functions implement the specification *)

Lemma blake_ROTR32_spec x n : 0 ≤ n ≤ 32 → SPH_ROTR32 x n = BlakeSpec.rotr BlakeSpec.small x n.
Proof.
  intros. unfold SPH_ROTR32, SPH_ROTL32, BlakeSpec.rotr. rewrite SPH_T32_mod, Z.lor_comm.
  simpl. do 3 f_equal. lia.
Qed.

Lemma blake_ROTR64_spec x n : 0 ≤ n ≤ 64 → SPH_ROTR64 x n = BlakeSpec.rotr BlakeSpec.big x n.
Proof.
  intros. unfold SPH_ROTR64, SPH_ROTL64, BlakeSpec.rotr. rewrite SPH_T64_mod, Z.lor_comm.
  simpl. do 3 f_equal. lia.
Qed.

Lemma GS_spec m0 m1 c0 c1 a b c d :
  GS m0 m1 c0 c1 a b c d = BlakeSpec.G BlakeSpec.small (m0 .^ c1) (m1 .^ c0) a b c d.
Proof.
  unfold GS, BlakeSpec.G, BlakeSpec.add. simpl.
  by rewrite !SPH_T32_mod, !blake_ROTR32_spec, !Zplus_mod_idemp_l by lia.
Qed.

Lemma GB_spec m0 m1 c0 c1 a b c d :
  GB m0 m1 c0 c1 a b c d = BlakeSpec.G BlakeSpec.big (m0 .^ c1) (m1 .^ c0) a b c d.
Proof.
  unfold GB, BlakeSpec.G, BlakeSpec.add. simpl.
  by rewrite !SPH_T64_mod, !blake_ROTR64_spec, !Zplus_mod_idemp_l by lia.
Qed.

(** A round on named variables is a round on the array of the specification:
    run the eight [G] on both sides, in order. *)
Ltac blake_round G_spec :=
  cbn [fold_left seq];
  do 8 (rewrite G_spec;
    match goal with |- context [BlakeSpec.Gi ?p ?perm ?M (?x :: ?l) ?i] =>
      let e := constr:(BlakeSpec.Gi p perm M (x :: l) i) in
      let t := eval cbn [BlakeSpec.Gi BlakeSpec.lanes BlakeSpec.csts BlakeSpec.small BlakeSpec.big
                         nth Nat.mul Nat.add] in e in
      change e with t end;
    match goal with |- context [BlakeSpec.G ?p ?x ?y ?a ?b ?c ?d] =>
      destruct (BlakeSpec.G p x y a b c d) as [[[? ?] ?] ?] end;
    cbn [insert list_insert]);
  reflexivity.

Lemma ROUND_S_with_spec perm M V :
  length V = 16%nat →
  ROUND_S_with perm M V = fold_left (BlakeSpec.Gi BlakeSpec.small perm M) (seq 0 8) V.
Proof.
  intros HV. unfold ROUND_S_with.
  do 16 (destruct V as [|? V]; [discriminate|]); destruct V; [|discriminate]; clear HV.
  blake_round GS_spec.
Qed.

Lemma ROUND_B_with_spec perm M V :
  length V = 16%nat →
  ROUND_B_with perm M V = fold_left (BlakeSpec.Gi BlakeSpec.big perm M) (seq 0 8) V.
Proof.
  intros HV. unfold ROUND_B_with.
  do 16 (destruct V as [|? V]; [discriminate|]); destruct V; [|discriminate]; clear HV.
  blake_round GB_spec.
Qed.

Lemma length_Gi p perm M v i : length (BlakeSpec.Gi p perm M v i) = length v.
Proof.
  unfold BlakeSpec.Gi. destruct (nth i BlakeSpec.lanes _) as [[[a b] c] d].
  destruct (BlakeSpec.G _ _ _ _ _ _ _) as [[[a' b'] c'] d']. by rewrite !length_insert.
Qed.

Lemma length_spec_round p M v r : length (BlakeSpec.round p M v r) = length v.
Proof.
  apply (fold_left_inv (λ u, length u = length v)); [done|]. intros u i Hu. by rewrite length_Gi.
Qed.

(** The permutation rows of both variants are those of the specification. *)
Ltac blake_rows round_spec :=
  intros HV; apply (fold_left_ext_rel (λ U, length U = 16%nat)); [|by intros; rewrite length_spec_round|done];
  repeat (apply Forall2_cons; split; [intros ? ?; by apply round_spec|]); by apply Forall2_nil.

Lemma rounds_S M V :
  length V = 16%nat →
  fold_left (ROUND_S M) [0; 1; 2; 3; 4; 5; 6; 7; 8; 9; 0; 1; 2; 3]%nat V =
  fold_left (BlakeSpec.round BlakeSpec.small M) (seq 0 14) V.
Proof. blake_rows ROUND_S_with_spec. Qed.

Lemma rounds_S_compact M V :
  length V = 16%nat →
  fold_left (ROUND_S_compact M) (seq 0 14) V =
  fold_left (BlakeSpec.round BlakeSpec.small M) (seq 0 14) V.
Proof. blake_rows ROUND_S_with_spec. Qed.

Lemma rounds_B M V :
  length V = 16%nat →
  fold_left (ROUND_B M) [0; 1; 2; 3; 4; 5; 6; 7; 8; 9; 0; 1; 2; 3; 4; 5]%nat V =
  fold_left (BlakeSpec.round BlakeSpec.big M) (seq 0 16) V.
Proof. blake_rows ROUND_B_with_spec. Qed.

Lemma rounds_B_compact M V :
  length V = 16%nat →
  fold_left (ROUND_B_compact M) (seq 0 16) V =
  fold_left (BlakeSpec.round BlakeSpec.big M) (seq 0 16) V.
Proof. blake_rows ROUND_B_with_spec. Qed.

Lemma COMPRESS32_spec H S t buf :
  COMPRESS32 H S (t mod 2 ^ 32) (t / 2 ^ 32) buf =
  BlakeSpec.compress BlakeSpec.small H S t (block_words32 buf).
Proof.
  unfold COMPRESS32, BlakeSpec.compress. rewrite rounds_S by done.
  cbn [BlakeSpec.w BlakeSpec.small BlakeSpec.rounds BlakeSpec.csts].
  change [_; _; _; _; _; _; _; _; _; _; _; _; _; _; _; _] with (init_V32 H S (t mod 2 ^ 32) (t / 2 ^ 32)).
  generalize (fold_left (BlakeSpec.round BlakeSpec.small (block_words32 buf)) (seq 0 14)
    (init_V32 H S (t mod 2 ^ 32) (t / 2 ^ 32))). intros V.
  unfold final_H32. simpl. by rewrite !Z.lxor_assoc.
Qed.

Lemma COMPRESS64_spec H S t buf :
  COMPRESS64 H S (t mod 2 ^ 64) (t / 2 ^ 64) buf =
  BlakeSpec.compress BlakeSpec.big H S t (block_words64 buf).
Proof.
  unfold COMPRESS64, BlakeSpec.compress. rewrite rounds_B by done.
  cbn [BlakeSpec.w BlakeSpec.big BlakeSpec.rounds BlakeSpec.csts].
  change [_; _; _; _; _; _; _; _; _; _; _; _; _; _; _; _] with (init_V64 H S (t mod 2 ^ 64) (t / 2 ^ 64)).
  generalize (fold_left (BlakeSpec.round BlakeSpec.big (block_words64 buf)) (seq 0 16)
    (init_V64 H S (t mod 2 ^ 64) (t / 2 ^ 64))). intros V.
  unfold final_H64. simpl. by rewrite !Z.lxor_assoc.
Qed.

(** The two conditional compilations of each compression function agree: the
    unrolled one, whose permutations are spelled out in the macros [Z00] to
    [Z9F], and the compact one, which loops over the table [sigma]. *)
Theorem blake_compact_agrees (H S : list Z) (T0 T1 : Z) (buf : list Z) :
  COMPRESS32_compact H S T0 T1 buf = COMPRESS32 H S T0 T1 buf ∧
  COMPRESS64_compact H S T0 T1 buf = COMPRESS64 H S T0 T1 buf.
Proof.
  unfold COMPRESS32, COMPRESS32_compact, COMPRESS64, COMPRESS64_compact.
  by rewrite rounds_S, rounds_S_compact, rounds_B, rounds_B_compact.
Qed.

(** ** The streaming layer, once for both word sizes

    [blake32] and [blake64] are the same code at two word sizes. The section
    proves the update function, the counter and the padding for a word size of
    [wb] bytes; [Bits] is the block size in bits, [FE] and [FF] the constants
    [2^w - Bits] and [2^w - 1] of the source. *)

Section BlakeStream.
Context (p : BlakeSpec.params) (wb : nat) (T : Z → Z) (enc : Z → list Z).
Context (comp : list Z → list Z → Z → Z → list Z → list Z) (Bits FE FF thr : Z).

Let B : nat := (16 * wb)%nat.

Definition gstep (st : list Z * list Z * Z * Z) (buf : list Z) : list Z * list Z * Z * Z :=
  let '(H, Sa, T0, T1) := st in
  let T0 := T (T0 + Bits) in
  let T1 := if T0 <? Bits then T (T1 + 1) else T1 in
  (comp H Sa T0 T1 buf, Sa, T0, T1).

Definition gcore (sc : blake_context) (data : list Z) : blake_context :=
  let '(H, Sa, T0, T1, buf, ptr) :=
    buf_update B gstep (bl_H sc, bl_S sc, bl_T0 sc, bl_T1 sc) (bl_buf sc) (bl_ptr sc) data in
  BlakeContext buf ptr H Sa T0 T1.

(** The counter the last message block is to be compressed with, less [Bits]. *)
Definition gcounter (T0 T1 : Z) (ptr : nat) (n bit_len : Z) : Z * Z :=
  if (ptr =? 0)%nat && (n =? 0) then (FE, FF)
  else if T0 =? 0 then (T (FE + bit_len), T (T1 - 1))
  else (T (T0 - (Bits - bit_len)), T1).

Definition gclose (u0 : list Z) (sc : blake_context) (ub n : Z) (out_size : nat)
    : blake_context * list Z :=
  let ptr := bl_ptr sc in
  let bit_len := (Z.of_nat ptr << 3) + n in
  let u := <[ptr := close_byte ub n]> u0 in
  let tl := T (bl_T0 sc + bit_len) in
  let th := bl_T1 sc in
  let '(T0, T1) := gcounter (bl_T0 sc) (bl_T1 sc) ptr n bit_len in
  let sc := BlakeContext (bl_buf sc) ptr (bl_H sc) (bl_S sc) T0 T1 in
  let sc :=
    if bit_len <=? thr then
      let u := memset u (ptr + 1)%nat 0 (B - 2 * wb - 1 - ptr)%nat in
      let u := if (out_size =? 8)%nat then <[(B - 2 * wb - 1)%nat := u.[B - 2 * wb - 1] .| 1]> u else u in
      let u := memcpy u (B - 2 * wb) (enc th) in
      let u := memcpy u (B - wb) (enc tl) in
      gcore sc (drop ptr u)
    else
      let u := memset u (ptr + 1)%nat 0 (B - 1 - ptr)%nat in
      let sc := gcore sc (drop ptr u) in
      let sc := BlakeContext (bl_buf sc) (bl_ptr sc) (bl_H sc) (bl_S sc) FE FF in
      let u := memset u 0 0 (B - 2 * wb) in
      let u := if (out_size =? 8)%nat then <[(B - 2 * wb - 1)%nat := 1]> u else u in
      let u := memcpy u (B - 2 * wb) (enc th) in
      let u := memcpy u (B - wb) (enc tl) in
      gcore sc u in
  (sc, concat (map enc (take out_size (bl_H sc)))).

Local Abbreviation W := (2 ^ (8 * Z.of_nat wb)) (only parsing).

Context (Hwb : (0 < wb)%nat) (Hp : BlakeSpec.wbytes p = wb) (Hw : BlakeSpec.w p = 8 * Z.of_nat wb).
Context (HBits : Bits = 8 * Z.of_nat B) (HW : ∃ q, W = q * Bits ∧ 1 < q).
Context (HFE : FE = W - Bits) (HFF : FF = W - 1) (Hthr : thr = Bits - 16 * Z.of_nat wb - 2).
Context (HT : ∀ x, T x = x mod W) (Henc : ∀ x, enc x = rev (le_enc wb x)).
Context (Hcomp : ∀ H Sa t b, length b = B → Forall byte b →
  comp H Sa (t mod W) (t / W) b = BlakeSpec.compress p H Sa t (BlakeSpec.words p b)).

Lemma gB_pos : (0 < B)%nat.
Proof using Hwb. clear -Hwb. unfold B. lia. Qed.

Lemma gBits_pos : 0 < Bits < W.
Proof. destruct HW as (q & -> & ?). subst Bits. pose proof gB_pos. nia. Qed.

Lemma bbytes_B : BlakeSpec.bbytes p = B.
Proof. unfold BlakeSpec.bbytes. by rewrite Hp. Qed.

(** The counter of the state moves from a multiple of the block size to the next. *)
Lemma gstep_counter H Sa k b :
  0 ≤ k → (k + 1) * Bits < W * W → length b = B → Forall byte b →
  gstep (H, Sa, k * Bits mod W, k * Bits / W) b =
  (BlakeSpec.compress p H Sa ((k + 1) * Bits) (BlakeSpec.words p b), Sa,
   (k + 1) * Bits mod W, (k + 1) * Bits / W).
Proof.
  intros Hk Hb Hl Hbytes. unfold gstep. destruct gBits_pos as [Hpos HlW].
  assert (T (k * Bits mod W + Bits) = (k + 1) * Bits mod W) as ->.
  { rewrite HT, Zplus_mod_idemp_l. f_equal. lia. }
  assert ((if (k + 1) * Bits mod W <? Bits then T (k * Bits / W + 1) else k * Bits / W)
    = (k + 1) * Bits / W) as ->; [|by rewrite Hcomp].
  destruct HW as (q & EW & Hq). rewrite HT, EW in *.
  rewrite !Z.div_mul_cancel_r, !Z.mul_mod_distr_r by lia.
  pose proof (Z.mod_pos_bound (k + 1) q). pose proof (Z_succ_div k q).
  destruct (Z.ltb_spec ((k + 1) mod q * Bits) Bits); destruct (Z.eqb_spec ((k + 1) mod q) 0); [|nia..|lia].
  rewrite H1 by lia. apply Z.mod_small.
  assert (0 ≤ k / q) by (apply Z.div_pos; lia).
  assert ((k + 1) / q * q ≤ k + 1) by (rewrite Z.mul_comm; apply Z.mul_div_le; lia). nia.
Qed.

(** Compressing full blocks of the message. *)
Lemma gabsorb_chain L bs H Sa i :
  Forall (λ b, length b = B ∧ Forall byte b) bs →
  Z.of_nat (i + length bs) * Bits ≤ L → L < W * W →
  fold_left gstep bs (H, Sa, Z.of_nat i * Bits mod W, Z.of_nat i * Bits / W) =
  (let h := (BlakeSpec.chain p Sa (BlakeSpec.counter p L) bs (H, i)).1 in
   let t := Z.of_nat (i + length bs) * Bits in (h, Sa, t mod W, t / W)).
Proof.
  intros Hbs. revert H i. induction Hbs as [|b bs [Hl Hb] Hbs IH]; intros H i HL HLW;
    cbn [fold_left length BlakeSpec.chain fst] in *.
  { by rewrite Nat.add_0_r. }
  pose proof gBits_pos.
  rewrite gstep_counter by (done || lia || nia).
  assert (BlakeSpec.counter p L i = (Z.of_nat i + 1) * Bits) as ->.
  { unfold BlakeSpec.counter. rewrite bbytes_B. rewrite <- HBits.
    destruct (Z.ltb_spec (Bits * Z.of_nat i) L); nia. }
  replace (Z.of_nat i + 1) with (Z.of_nat (S i)) by lia.
  rewrite IH by (done || lia). by replace (S i + length bs)%nat with (i + S (length bs))%nat by lia.
Qed.

(** The counter arithmetic of the close function: whichever branch is taken, the
    step that follows compresses with the counter of the specification. *)
Lemma gcounter_step H Sa k (ptr : nat) n b :
  0 ≤ k → 0 ≤ n < 8 → (ptr < B)%nat → length b = B → Forall byte b →
  let bit_len := 8 * Z.of_nat ptr + n in
  let L := k * Bits + bit_len in
  L < W * W →
  let '(T0, T1) := gcounter (k * Bits mod W) (k * Bits / W) ptr n bit_len in
  (gstep (H, Sa, T0, T1) b).1.1.1 =
  BlakeSpec.compress p H Sa (BlakeSpec.counter p L (Z.to_nat k)) (BlakeSpec.words p b).
Proof.
  intros Hk Hn Hptr Hl Hb bit_len L HL. destruct gBits_pos as [Hpos HlW].
  assert (0 ≤ bit_len < Bits) as Hbl by (unfold bit_len; lia).
  rewrite <- Hcomp by done. unfold BlakeSpec.counter. rewrite bbytes_B, <- HBits, Z2Nat.id by lia.
  unfold gcounter. destruct (Nat.eqb_spec ptr 0), (Z.eqb_spec n 0); simpl andb.
  { assert (bit_len = 0) by lia. replace (Bits * k <? L) with false by (symmetry; apply Z.ltb_ge; lia).
    unfold gstep. rewrite HFE, HFF, !HT, Zmod_0_l, Zdiv_0_l.
    replace (W - Bits + Bits) with (1 * W) by lia. rewrite Z.mod_mul by lia.
    replace (W - 1 + 1) with (1 * W) by lia. rewrite Z.mod_mul by lia.
    by rewrite (proj2 (Z.ltb_lt 0 Bits)). }
  all: replace (Bits * k <? L) with true by (symmetry; apply Z.ltb_lt; lia).
  all: replace (Z.min (Bits * (k + 1)) L) with (k * Bits + bit_len) by lia.
  all: destruct HW as (q & EW & Hq); rewrite EW in *.
  all: rewrite Z.mul_mod_distr_r, Z.div_mul_cancel_r by lia.
  all: pose proof (Z.mod_pos_bound k q) as Hm; pose proof (Z.div_mod k q) as Hd.
  all: assert ((k * Bits + bit_len) / (q * Bits) = k / q) as ->
    by (symmetry; apply (Z.div_unique _ _ _ (k mod q * Bits + bit_len)); [left; nia|]; rewrite Hd at 1; lia).
  all: assert ((k * Bits + bit_len) mod (q * Bits) = k mod q * Bits + bit_len) as ->
    by (symmetry; apply (Z.mod_unique _ _ (k / q)); [left; nia|]; rewrite Hd at 1; lia).
  all: assert (0 ≤ k / q < q * Bits) as Hkq by (split; [apply Z.div_pos; lia|apply Z.div_lt_upper_bound; nia]).
  all: destruct (Z.eqb_spec (k mod q * Bits) 0) as [E|E].
  all: unfold gstep; rewrite ?HFE, !HT.
  all: try (assert (k mod q = 0) as -> by nia).
  all: rewrite ?Z.mul_0_l, ?Z.add_0_l.
  all: rewrite ?(Z.mod_small (q * Bits - Bits + bit_len)) by lia.
  all: rewrite ?Zplus_mod_idemp_l, ?Z.sub_add, ?(Z.mod_small (k / q)) by lia.
  all: try (replace (q * Bits - Bits + bit_len + Bits) with (bit_len + 1 * (q * Bits)) by lia;
    rewrite Z_mod_plus_full, Z.mod_small by lia; by rewrite (proj2 (Z.ltb_lt bit_len Bits)) by lia).
  all: specialize (Hm ltac:(lia)); clear Hd Hkq HL.
  all: assert (k mod q ≠ 0) by (intros E'; apply E; by rewrite E').
  all: assert (1 * Bits ≤ k mod q * Bits ≤ (q - 1) * Bits) by (split; apply Z.mul_le_mono_nonneg_r; lia).
  all: replace (k mod q * Bits - (Bits - bit_len) + Bits) with (k mod q * Bits + bit_len) by lia.
  all: rewrite (Z.mod_small (k mod q * Bits + bit_len)) by lia.
  all: by rewrite (proj2 (Z.ltb_ge (k mod q * Bits + bit_len) Bits)) by lia.
Qed.

(** *** Padding *)

(** The byte string of the padding up to the length: the byte with the last
    message bits, zeros, and the bit [fin] at the end. *)
Definition gpad_head (fin : bool) (ub n : Z) (k : nat) : list Z :=
  let l := last_byte ub n :: replicate (k - 1) 0 in
  if fin then <[(k - 1)%nat := l.[k - 1] .| 1]> l else l.

Lemma last_byte_even ub n : 0 ≤ n ≤ 6 → last_byte ub n .| 1 = last_byte ub n + 1.
Proof.
  intros Hn. unfold last_byte.
  replace (8 - n) with (7 - n + 1) by lia. replace (7 - n) with (6 - n + 1) by lia.
  rewrite !Z.pow_add_r by lia.
  set (x := (ub / _) mod 2 ^ n).
  replace (x * (2 ^ (6 - n) * 2 ^ 1 * 2 ^ 1) + 2 ^ (6 - n) * 2 ^ 1)
    with ((x * (2 ^ (6 - n) * 2 ^ 1) + 2 ^ (6 - n)) << 1) by (rewrite Z.shiftl_mul_pow2 by lia; lia).
  rewrite lor_shiftl_add by done. rewrite Z.shiftl_mul_pow2 by lia. lia.
Qed.

Lemma gpad_head_spec (fin : bool) ub n k :
  0 ≤ n < 8 → (0 < k)%nat → (k = 1%nat → n ≤ 6) →
  rev (le_enc k (last_byte ub n * 2 ^ (8 * (Z.of_nat k - 1)) + Z.b2z fin)) = gpad_head fin ub n k.
Proof.
  intros Hn Hk H1. pose proof (last_byte_byte ub n Hn) as Hlb. unfold gpad_head.
  destruct k as [|[|k]]; [lia|..].
  - change (8 * (Z.of_nat 1 - 1)) with 0. rewrite Z.mul_1_r. simpl. f_equal.
    assert (byte (last_byte ub n .| 1)) by (apply word_lor; done).
    rewrite last_byte_even in * by lia. unfold word in *.
    destruct fin; simpl; by rewrite ?last_byte_even, ?Z.add_0_r, Z.mod_small by lia.
  - replace (S (S k)) with (S k + 1)%nat by lia.
    replace (8 * (Z.of_nat (S k + 1) - 1)) with (8 * Z.of_nat (S k)) by lia.
    rewrite le_enc_app, rev_app_distr.
    replace (last_byte ub n * 2 ^ (8 * Z.of_nat (S k)) + Z.b2z fin)
      with (Z.b2z fin + last_byte ub n * 2 ^ (8 * Z.of_nat (S k))) by lia.
    assert (0 ≤ Z.b2z fin < 2 ^ (8 * Z.of_nat (S k))).
    { assert (2 ^ 1 ≤ 2 ^ (8 * Z.of_nat (S k))) by (apply Z.pow_le_mono_r; lia). destruct fin; simpl in *; lia. }
    rewrite Z.div_add, (Z.div_small (Z.b2z fin)), Z.add_0_l by (done || lia).
    rewrite <- (le_enc_mod (S k)), Z.mod_add, Z.mod_small by (done || lia).
    assert (rev (le_enc 1 (last_byte ub n)) = [last_byte ub n]) as ->
      by (cbn [le_enc rev app]; by rewrite Z.mod_small).
    replace (S k + 1 - 1)%nat with (S k) by lia.
    assert (rev (le_enc (S k) (Z.b2z fin)) = replicate k 0 ++ [Z.b2z fin]) as ->.
    { simpl. replace (Z.b2z fin / 256) with 0 by (by destruct fin).
      rewrite le_enc_0, rev_replicate. f_equal. by destruct fin. }
    cbn [app]. rewrite replicate_S_end. destruct fin; [|done].
    change ((last_byte ub n :: replicate k 0 ++ [0]).[S k]) with ((replicate k 0 ++ [0]).[k]).
    rewrite app_nth2, length_replicate, Nat.sub_diag by (rewrite length_replicate; lia). simpl.
    rewrite insert_app_r_alt by (rewrite length_replicate; lia).
    by rewrite length_replicate, Nat.sub_diag.
Qed.

Lemma length_gpad_head fin ub n k : (0 < k)%nat → length (gpad_head fin ub n k) = k.
Proof. intros. unfold gpad_head. destruct fin; rewrite ?length_insert; simpl; rewrite length_replicate; lia. Qed.

(** Zeros of the length of the block that the padding stops in. *)
Definition gzeros (L : Z) : Z := (Bits - 16 * Z.of_nat wb - 2 - L) mod Bits.

Lemma tail_bytes (fin : bool) L ub n (k : nat) :
  0 ≤ n < 8 → 0 ≤ L < W * W → n + 2 + gzeros L = 8 * Z.of_nat k →
  BlakeSpec.tail p (Z.b2z fin) L ub n = gpad_head fin ub n k ++ enc (L / W) ++ enc L.
Proof.
  intros Hn HL Hz. unfold BlakeSpec.tail. rewrite bbytes_B, <- HBits, Hw.
  replace (2 * (8 * Z.of_nat wb)) with (16 * Z.of_nat wb) by lia. fold (gzeros L).
  pose proof (Z.mod_pos_bound (Bits - 16 * Z.of_nat wb - 2 - L) Bits) as Hz0. fold (gzeros L) in Hz0.
  specialize (Hz0 (proj1 gBits_pos)).
  set (bits := (ub / 2 ^ (8 - n)) mod 2 ^ n).
  assert ((bits * 2 + 1) * 2 ^ gzeros L * 2 + Z.b2z fin =
    last_byte ub n * 2 ^ (8 * (Z.of_nat k - 1)) + Z.b2z fin) as ->.
  { unfold last_byte. fold bits. f_equal.
    replace (gzeros L) with (8 * (Z.of_nat k - 1) + (6 - n)) by lia.
    destruct (decide (n = 7)) as [->|].
    - replace (8 * (Z.of_nat k - 1)) with (8 * (Z.of_nat k - 2) + 7 + 1) by lia.
      replace (8 * (Z.of_nat k - 2) + 7 + 1 + (6 - 7)) with (8 * (Z.of_nat k - 2) + 7) by lia.
      rewrite (Z.pow_add_r 2 _ 1) by lia. change (8 - 7) with 1. change (7 - 7) with 0. lia.
    - rewrite (Z.pow_add_r 2 _ (6 - n)) by lia.
      replace (8 - n) with (6 - n + 2) by lia. replace (7 - n) with (6 - n + 1) by lia.
      rewrite !(Z.pow_add_r 2 (6 - n)) by lia. lia. }
  replace (Z.to_nat ((n + 1 + gzeros L + 1 + 16 * Z.of_nat wb) / 8)) with (wb + wb + k)%nat
    by (replace (n + 1 + gzeros L + 1 + 16 * Z.of_nat wb) with ((Z.of_nat k + 2 * Z.of_nat wb) * 8) by lia;
        rewrite Z.div_mul by done; lia).
  rewrite !le_enc_app, !rev_app_distr, !Henc.
  assert (2 ^ (16 * Z.of_nat wb) = W * W) as E by (rewrite <- Z.pow_add_r by lia; f_equal; lia).
  replace (8 * Z.of_nat (wb + wb)) with (16 * Z.of_nat wb) by lia. rewrite E.
  pose proof gBits_pos.
  rewrite Z.div_add_l, Z.div_small, Z.add_0_r by lia.
  rewrite gpad_head_spec by lia. f_equal. rewrite Z.mul_assoc, Z.div_add_l by lia. f_equal; f_equal.
  - rewrite <- le_enc_mod, Z.add_comm, Z_mod_plus_full, le_enc_mod. done.
  - rewrite <- le_enc_mod, Z.add_comm, Z_mod_plus_full, le_enc_mod. done.
Qed.

Lemma gpad_one (fin : bool) u0 ub n (ptr : nat) th tl :
  length u0 = B → 0 ≤ n < 8 → (ptr < B - 2 * wb)%nat →
  let u := memset (<[ptr := close_byte ub n]> u0) (ptr + 1)%nat 0 (B - 2 * wb - 1 - ptr)%nat in
  let u := if fin then <[(B - 2 * wb - 1)%nat := u.[B - 2 * wb - 1] .| 1]> u else u in
  let u := memcpy u (B - 2 * wb) (enc th) in
  let u := memcpy u (B - wb) (enc tl) in
  drop ptr u = gpad_head fin ub n (B - 2 * wb - ptr) ++ enc th ++ enc tl.
Proof.
  intros Hu Hn Hptr. assert (ptr ≤ B ∧ 2 * wb ≤ B)%nat as [HpB HwB] by lia.
  rewrite close_byte_spec by done.
  assert (length (take ptr u0) = ptr) as HP by (rewrite length_take; lia).
  assert (∀ x, length (enc x) = wb) as Hle by (intros; by rewrite Henc, length_rev, length_le_enc).
  set (l := last_byte ub n :: replicate (B - 2 * wb - ptr - 1) 0).
  assert (length l = B - 2 * wb - ptr)%nat as Hll by (unfold l; simpl; rewrite length_replicate; lia).
  set (u1 := memset _ _ _ _).
  assert (filled B (take ptr u0 ++ l) u1) as H1.
  { unfold l, u1. rewrite cons_middle, app_assoc.
    replace (B - 2 * wb - ptr - 1)%nat with (B - 2 * wb - 1 - ptr)%nat by lia.
    apply filled_memset; [apply filled_insert; [by apply filled_take|lia|lia]|..];
      rewrite ?length_app; simpl; lia. }
  cbv zeta. set (u2 := if fin then _ else u1).
  assert (filled B (take ptr u0 ++ gpad_head fin ub n (B - 2 * wb - ptr)) u2) as H2.
  { unfold u2, gpad_head. fold l. destruct fin; [|done].
    replace (B - 2 * wb - 1)%nat with (length (take ptr u0) + (B - 2 * wb - ptr - 1))%nat by lia.
    rewrite <- insert_app_r, (filled_lookup _ _ _ _ H1) by (rewrite length_app; lia).
    rewrite app_nth2_plus. apply filled_update; [done|]. rewrite length_app. lia. }
  pose proof (length_gpad_head fin ub n (B - 2 * wb - ptr)) as Hlh.
  eapply filled_memcpy in H2; [eapply filled_memcpy in H2; [apply filled_full in H2|..]|..];
    [rewrite H2, <- !app_assoc, drop_app_length' by lia; reflexivity|..];
    rewrite !length_app, ?Hle; lia.
Qed.

Lemma gpad_head_two fin ub n (a b : nat) :
  (0 < a)%nat → (0 < b)%nat →
  gpad_head fin ub n (a + b) =
  (last_byte ub n :: replicate (a - 1) 0) ++
  (if fin then <[(b - 1)%nat := 1]> (replicate b 0) else replicate b 0).
Proof.
  intros Ha Hb. unfold gpad_head. replace (a + b - 1)%nat with ((a - 1) + b)%nat by lia.
  rewrite replicate_add. destruct fin; [|done]. rewrite app_comm_cons.
  replace (a - 1 + b)%nat with (length (last_byte ub n :: replicate (a - 1) 0%Z) + (b - 1))%nat
    by (simpl; rewrite length_replicate; lia).
  rewrite insert_app_r, app_nth2_plus.
  by rewrite (nth_lookup_Some _ _ _ 0) by (apply lookup_replicate; lia).
Qed.

Lemma gpad_two_first u0 ub n (ptr : nat) :
  length u0 = B → 0 ≤ n < 8 → (ptr < B)%nat →
  let u := memset (<[ptr := close_byte ub n]> u0) (ptr + 1)%nat 0 (B - 1 - ptr)%nat in
  length u = B ∧ drop ptr u = last_byte ub n :: replicate (B - ptr - 1) 0.
Proof.
  intros Hu Hn Hptr u. unfold u. rewrite close_byte_spec by done.
  assert (length (take ptr u0) = ptr) as HP by (rewrite length_take; lia).
  assert (filled B ((take ptr u0 ++ [last_byte ub n]) ++ replicate (B - 1 - ptr) 0) u) as H1.
  { unfold u. rewrite close_byte_spec by done.
    apply filled_memset; [apply filled_insert; [apply filled_take|..]|..]; rewrite ?length_app; simpl; lia. }
  unfold u in H1. rewrite close_byte_spec in H1 by done. split; [by destruct H1|].
  apply filled_full in H1; [|rewrite !length_app, length_replicate; simpl; lia].
  rewrite H1, <- app_assoc, drop_app_length' by lia. simpl. do 2 f_equal. lia.
Qed.

Lemma gpad_two_second (fin : bool) u th tl :
  length u = B →
  let u := memset u 0 0 (B - 2 * wb) in
  let u := if fin then <[(B - 2 * wb - 1)%nat := 1]> u else u in
  let u := memcpy u (B - 2 * wb) (enc th) in
  let u := memcpy u (B - wb) (enc tl) in
  u = (if fin then <[(B - 2 * wb - 1)%nat := 1]> (replicate (B - 2 * wb) 0) else replicate (B - 2 * wb) 0)
      ++ enc th ++ enc tl.
Proof.
  intros Hu. assert (0 < 2 * wb < B)%nat by (unfold B; lia).
  assert (∀ x, length (enc x) = wb) as Hle by (intros; by rewrite Henc, length_rev, length_le_enc).
  set (h := if fin then _ else replicate _ _).
  assert (length h = B - 2 * wb)%nat as Hh by (unfold h; destruct fin; rewrite ?length_insert, length_replicate; lia).
  cbv zeta. set (u2 := if fin then _ else memset _ _ _ _).
  assert (filled B h u2) as H2.
  { assert (filled B (replicate (B - 2 * wb) 0) (memset u 0 0 (B - 2 * wb))) as H1
      by (apply (filled_memset B [] u); [by apply filled_nil|simpl; lia..]).
    unfold h, u2. destruct fin; [|done]. apply filled_update; [done|rewrite length_replicate; lia]. }
  eapply filled_memcpy in H2; [eapply filled_memcpy in H2; [apply filled_full in H2|..]|..];
    [rewrite H2, <- !app_assoc; reflexivity|..]; rewrite ?length_app, ?Hle; lia.
Qed.

(** *** The hash *)

(** The context has received the bytes [m] since it was initialised with [iv]
    and the salt [s]. *)
Definition grep (iv s : list Z) (sc : blake_context) (m : list Z) : Prop :=
  buffered B gstep (iv, s, 0, 0) m
    (bl_H sc, bl_S sc, bl_T0 sc, bl_T1 sc, bl_buf sc, bl_ptr sc) ∧ Forall byte m.

Lemma gcore_rep iv s sc m d :
  grep iv s sc m → Forall byte d → grep iv s (gcore sc d) (m ++ d).
Proof using Hwb.
  intros [Hr Hm] Hd. split; [|by apply Forall_app_2].
  apply (buf_update_ok _ _ gB_pos _ _ _ _ _ d) in Hr. unfold gcore.
  by destruct (buf_update _ _ _ _ _ _) as [[[[[? ?] ?] ?] ?] ?].
Qed.

(** Completing the pending block [q] runs one step on it and empties the buffer. *)
Lemma gcore_block sc q d :
  length (bl_buf sc) = B → take (bl_ptr sc) (bl_buf sc) = q → bl_ptr sc = length q →
  (length q < B)%nat → length (q ++ d) = B →
  let sc' := gcore sc d in
  bl_H sc' = (gstep (bl_H sc, bl_S sc, bl_T0 sc, bl_T1 sc) (q ++ d)).1.1.1 ∧
  bl_S sc' = bl_S sc ∧ bl_ptr sc' = 0%nat ∧ length (bl_buf sc') = B.
Proof.
  intros Hb Ht Hp' Hq Hd. unfold gcore.
  destruct (buf_update_block B gstep gB_pos q (bl_H sc, bl_S sc, bl_T0 sc, bl_T1 sc)
    (bl_buf sc) (bl_ptr sc) d) as (buf' & E & Hb'); [done..|].
  rewrite E. done.
Qed.

(** The state after the full blocks of the message. *)
Lemma grep_state iv s sc m L :
  grep iv s sc m → 8 * Z.of_nat (length m) ≤ L < W * W →
  bl_H sc = (BlakeSpec.chain p s (BlakeSpec.counter p L) (full_blocks B m) (iv, 0%nat)).1 ∧
  bl_S sc = s ∧ bl_T0 sc = Z.of_nat (nfull B m) * Bits mod W ∧
  bl_T1 sc = Z.of_nat (nfull B m) * Bits / W.
Proof.
  intros [[Hst _ _ _] Hm] HL. simpl in Hst. unfold absorb in Hst.
  pose proof (gabsorb_chain L (full_blocks B m) iv s 0) as E. simpl Z.of_nat in E.
  rewrite Z.mul_0_l, Zmod_0_l, Zdiv_0_l in E. rewrite E in Hst; clear E.
  - unfold full_blocks in Hst. rewrite length_chunks in Hst. by injection Hst.
  - apply full_blocks_Forall; [apply gB_pos|done].
  - unfold full_blocks. rewrite length_chunks. unfold nfull.
    pose proof (Nat.div_mod_eq (length m) B). nia.
  - lia.
Qed.

Lemma gtail_bytes_bytes (fin : bool) L ub n : Forall byte (BlakeSpec.tail p (Z.b2z fin) L ub n).
Proof. apply Forall_rev, le_enc_bytes. Qed.

(** Two final blocks. *)
Lemma chain_app s count bs1 bs2 hi :
  BlakeSpec.chain p s count (bs1 ++ bs2) hi =
  BlakeSpec.chain p s count bs2 (BlakeSpec.chain p s count bs1 hi).
Proof. apply fold_left_app. Qed.

Lemma chain_index s count bs h i :
  (BlakeSpec.chain p s count bs (h, i)).2 = (i + length bs)%nat.
Proof.
  revert h i. induction bs as [|b bs IH]; intros h i; cbn [length]; [simpl; lia|].
  etransitivity; [apply (IH (BlakeSpec.compress p h s (count i) (BlakeSpec.words p b)) (S i))|lia].
Qed.

(** The number of bytes the padding takes before the length. *)
Lemma gzeros_split (ptr : nat) n k :
  0 ≤ n < 8 → (ptr < B)%nat → 0 ≤ k →
  let bit_len := 8 * Z.of_nat ptr + n in
  let r := if bit_len <=? thr then (B - 2 * wb - ptr)%nat else ((B - ptr) + (B - 2 * wb))%nat in
  n + 2 + gzeros (k * Bits + bit_len) = 8 * Z.of_nat r ∧ (0 < r)%nat.
Proof.
  intros Hn Hptr Hk bit_len r. unfold gzeros, r. rewrite Hthr. pose proof gBits_pos.
  assert (B = 16 * wb)%nat as EB by done. unfold bit_len.
  destruct (Z.leb_spec (8 * Z.of_nat ptr + n) (Bits - 16 * Z.of_nat wb - 2)).
  - rewrite <- (Z.mod_unique _ Bits (- k) (Bits - 16 * Z.of_nat wb - 2 - (8 * Z.of_nat ptr + n))); lia.
  - rewrite <- (Z.mod_unique _ Bits (- k - 1) (2 * Bits - 16 * Z.of_nat wb - 2 - (8 * Z.of_nat ptr + n))); lia.
Qed.

(** The length field: the two counter words the close function reads. *)
Lemma glength_field k bit_len :
  0 ≤ k → 0 ≤ bit_len < Bits →
  enc (k * Bits / W) ++ enc (T (k * Bits mod W + bit_len)) =
  enc ((k * Bits + bit_len) / W) ++ enc (k * Bits + bit_len).
Proof.
  intros Hk Hb. f_equal.
  - f_equal. destruct HW as (q & EW & Hq). rewrite EW, Z.div_mul_cancel_r by lia.
    pose proof (Z.mod_pos_bound k q). pose proof (Z.div_mod k q).
    apply (Z.div_unique _ _ _ (k mod q * Bits + bit_len)); [left; nia|].
    rewrite (Z.div_mod k q) at 1 by lia. lia.
  - by rewrite !Henc, HT, Zplus_mod_idemp_l, le_enc_mod.
Qed.

(** One step more completes a block that starts with the pending bytes: the
    chaining value is compressed with the counter [t] the step computes. *)
Lemma gcore_last sc q d t :
  length (bl_buf sc) = B → take (bl_ptr sc) (bl_buf sc) = q → bl_ptr sc = length q →
  (length q < B)%nat → length (q ++ d) = B →
  (gstep (bl_H sc, bl_S sc, bl_T0 sc, bl_T1 sc) (q ++ d)).1.1.1 =
    BlakeSpec.compress p (bl_H sc) (bl_S sc) t (BlakeSpec.words p (q ++ d)) →
  let sc' := gcore sc d in
  bl_H sc' = BlakeSpec.compress p (bl_H sc) (bl_S sc) t (BlakeSpec.words p (q ++ d)) ∧
  bl_S sc' = bl_S sc ∧ bl_ptr sc' = 0%nat ∧ length (bl_buf sc') = B.
Proof. intros ????? <-. by apply gcore_block. Qed.

(** The counter of a block without message bits: zero. *)
Lemma gstep_zero H Sa b :
  length b = B → Forall byte b →
  (gstep (H, Sa, FE, FF) b).1.1.1 = BlakeSpec.compress p H Sa 0 (BlakeSpec.words p b).
Proof.
  intros Hl Hb. pose proof gBits_pos. pose proof (gcounter_step H Sa 0 0 0 b) as E.
  rewrite !Z.mul_0_l, !Z.add_0_l, Zmod_0_l, Zdiv_0_l in E. etransitivity; [apply E; (done || lia || apply gB_pos || nia)|].
  f_equal. unfold BlakeSpec.counter. simpl. by rewrite Z.mul_0_r.
Qed.

(** The blocks of the padded message from the last, incomplete one on. *)
Lemma gclose_H u0 iv s sc m ub n out :
  length u0 = B → grep iv s sc m → 0 ≤ n < 8 → 8 * Z.of_nat (length m) + 8 ≤ W * W →
  let r := gclose u0 sc ub n out in
  let L := 8 * Z.of_nat (length m) + n in
  length (bl_buf r.1) = B ∧
  bl_H r.1 = (BlakeSpec.chain p s (BlakeSpec.counter p L)
    (full_blocks B (m ++ BlakeSpec.tail p (Z.b2z (out =? 8)%nat) L ub n)) (iv, 0%nat)).1.
Proof.
  intros Hu Hr Hn HL r L.
  destruct (grep_state iv s sc m L Hr ltac:(lia)) as (EH & ES & E0 & E1).
  destruct Hr as [[_ Hsz Hptr Hdata] Hm]; simpl in Hsz, Hptr, Hdata.
  pose proof (pending_lt B gB_pos m) as Hpl. rewrite <- Hptr in Hpl.
  set (k := Z.of_nat (nfull B m)) in *. set (bit_len := 8 * Z.of_nat (bl_ptr sc) + n).
  assert (L = k * Bits + bit_len) as EL.
  { unfold L, bit_len, k. rewrite Hptr, length_pending by apply gB_pos. unfold nfull.
    pose proof (Nat.div_mod_eq (length m) B). lia. }
  assert (0 ≤ bit_len < Bits) as Hbl by (unfold bit_len; lia).
  destruct (gzeros_split (bl_ptr sc) n k) as [Hz Hr0]; [done..|lia|]. fold bit_len in Hz, Hr0. rewrite <- EL in Hz.
  pose proof (tail_bytes (out =? 8)%nat L ub n _ Hn ltac:(lia) Hz) as Htail.
  rewrite EL, <- glength_field, <- EL, <- E1, <- E0 in Htail by lia.
  pose proof (gtail_bytes_bytes (out =? 8)%nat L ub n) as Htb.
  assert (Forall byte (pending B m)) as Hpb by (by apply Forall_drop).
  pose proof (gcounter_step (bl_H sc) s k (bl_ptr sc) n) as Hcnt. cbv zeta in Hcnt.
  fold bit_len in Hcnt. rewrite <- EL, <- E0, <- E1 in Hcnt.
  unfold r, gclose. rewrite full_blocks_app, chain_app by apply gB_pos.
  set (c := BlakeSpec.chain _ _ _ (full_blocks B m) _) in *.
  assert (c = (bl_H sc, Z.to_nat k)) as ->.
  { rewrite EH, (surjective_pairing c) at 1. f_equal. unfold c, k, full_blocks.
    by rewrite chain_index, length_chunks, Nat2Z.id. }
  replace ((Z.of_nat (bl_ptr sc) << 3) + n) with bit_len
    by (unfold bit_len; rewrite Z.shiftl_mul_pow2 by lia; lia).
  destruct (gcounter _ _ _ _ _) as [T0 T1] eqn:EG.
  set (tl := BlakeSpec.tail _ _ _ _ _) in *. set (sc1 := BlakeContext _ _ _ _ _ _).
  assert (∀ x, length (enc x) = wb) as Hle by (intros; by rewrite Henc, length_rev, length_le_enc).
  assert (2 * wb < B)%nat as HwB by (unfold B; lia).
  destruct (Z.leb_spec bit_len thr) as [Ht|Ht]; cbv zeta; cbn [fst snd].
  - rewrite gpad_one, <- Htail by (done || lia).
    assert (length (pending B m ++ tl) = B) as Hl
      by (rewrite length_app, <- Hptr, Htail, !length_app, length_gpad_head, !Hle; lia).
    assert (Forall byte (pending B m ++ tl)) by by apply Forall_app_2.
    destruct (gcore_last sc1 (pending B m) tl (BlakeSpec.counter p L (Z.to_nat k))) as (EH' & _ & _ & Hb');
      [done..|lia|done| |].
    { subst sc1. cbn [bl_H bl_S bl_T0 bl_T1]. rewrite ES. apply Hcnt; (done || lia). }
    split; [done|]. rewrite EH', full_blocks_one by (done || apply gB_pos).
    unfold BlakeSpec.chain. cbn [fold_left fst]. by rewrite <- ES.
  - destruct (gpad_two_first u0 ub n (bl_ptr sc)) as [Hl1 Hd1]; [done..|].
    rewrite Hd1, gpad_two_second by done. rewrite gpad_head_two in Htail by lia.
    set (t1 := last_byte ub n :: _) in *. set (t2 := if (out =? 8)%nat then _ else _) in *.
    assert (length t1 = B - bl_ptr sc)%nat as Hlt1 by (unfold t1; simpl; rewrite length_replicate; lia).
    assert (length t2 = B - 2 * wb)%nat as Hlt2
      by (unfold t2; destruct (out =? 8)%nat; rewrite ?length_insert, length_replicate; lia).
    rewrite <- app_assoc in Htail. rewrite Htail in Htb. apply Forall_app in Htb as [Hb1 Hb2].
    set (t2' := t2 ++ _) in *.
    assert (length t2' = B) as Hl2 by (unfold t2'; rewrite !length_app, !Hle; lia).
    assert (length (pending B m ++ t1) = B) as Hl by (rewrite length_app; lia).
    destruct (gcore_last sc1 (pending B m) t1 (BlakeSpec.counter p L (Z.to_nat k))) as (EH' & ES' & Ep' & Hb');
      [done..|lia|done| |].
    { subst sc1. cbn [bl_H bl_S bl_T0 bl_T1]. rewrite ES. apply Hcnt; try (done || lia). by apply Forall_app_2. }
    set (sc2 := BlakeContext (bl_buf (gcore sc1 t1)) _ _ _ _ _).
    destruct (gcore_last sc2 [] t2' 0) as (EH2 & _ & _ & Hb2'); [done| |done|apply gB_pos|done| |].
    { subst sc2. cbn [bl_ptr]. by rewrite Ep'. }
    { apply gstep_zero; done. }
    split; [done|]. rewrite EH2, Htail. subst sc2 sc1. cbn [bl_H bl_S] in *.
    rewrite app_assoc, full_blocks_block, full_blocks_one by (done || apply gB_pos).
    unfold BlakeSpec.chain. cbn [fold_left fst app]. rewrite EH', ES', ES. f_equal. unfold BlakeSpec.counter. rewrite bbytes_B, <- HBits.
    replace (Bits * Z.of_nat (S (Z.to_nat k)) <? L) with false by (symmetry; apply Z.ltb_ge; lia). done.
Qed.

Lemma gclose_spec u0 iv s sc m ub n out :
  length u0 = B → grep iv s sc m → 0 ≤ n < 8 → 8 * Z.of_nat (length m) + 8 ≤ W * W →
  let r := gclose u0 sc ub n out in
  length (bl_buf r.1) = B ∧
  r.2 = BlakeSpec.hash p iv s (Z.b2z (out =? 8)%nat) out m ub n.
Proof.
  intros Hu Hr Hn HL r. destruct (gclose_H u0 iv s sc m ub n out) as [Hb EH]; [done..|].
  split; [done|]. unfold BlakeSpec.hash. rewrite bbytes_B, <- EH. unfold r, gclose.
  destruct (gcounter _ _ _ _ _) as [T0 T1]. cbn [fst snd]. f_equal. rewrite Hp.
  apply map_ext. intros. apply Henc.
Qed.
End BlakeStream.

(** ** The two word sizes *)

Lemma block_words32_spec b :
  length b = 64%nat → Forall byte b → block_words32 b = BlakeSpec.words BlakeSpec.small b.
Proof.
  intros. apply (chunk_words 4 16); [done..|apply sph_dec32be_take|]. intros. by apply sph_dec32be_spec.
Qed.

Lemma block_words64_spec b :
  length b = 128%nat → Forall byte b → block_words64 b = BlakeSpec.words BlakeSpec.big b.
Proof.
  intros. apply (chunk_words 8 16); [done..|apply sph_dec64be_take|]. intros. by apply sph_dec64be_spec.
Qed.

Lemma blake32_close_gclose u0 sc ub n out :
  blake32_close u0 sc ub n out =
  gclose 4 SPH_T32 sph_enc32be COMPRESS32 512 0xFFFFFE00 0xFFFFFFFF 446 u0 sc ub n out.
Proof. reflexivity. Qed.

Lemma blake64_close_gclose u0 sc ub n out :
  blake64_close u0 sc ub n out =
  gclose 8 SPH_T64 sph_enc64be COMPRESS64 1024 0xFFFFFFFFFFFFFC00 0xFFFFFFFFFFFFFFFF 894 u0 sc ub n out.
Proof. reflexivity. Qed.

Definition rep32 := grep 4 SPH_T32 COMPRESS32 512.
Definition rep64 := grep 8 SPH_T64 COMPRESS64 1024.

Lemma blake32_rep iv s sc m d : rep32 iv s sc m → Forall byte d → rep32 iv s (blake32 sc d) (m ++ d).
Proof. apply gcore_rep. lia. Qed.

Lemma blake64_rep iv s sc m d : rep64 iv s sc m → Forall byte d → rep64 iv s (blake64 sc d) (m ++ d).
Proof. apply gcore_rep. lia. Qed.

Lemma blake32_close_spec u0 iv s sc m ub n out :
  length u0 = 64%nat → rep32 iv s sc m → 0 ≤ n < 8 → Z.of_nat (length m) < 2 ^ 61 →
  let r := blake32_close u0 sc ub n out in
  length (bl_buf r.1) = 64%nat ∧
  r.2 = BlakeSpec.hash BlakeSpec.small iv s (Z.b2z (out =? 8)%nat) out m ub n.
Proof.
  intros Hu Hr Hn Hm. rewrite blake32_close_gclose.
  eapply gclose_spec; try done; try lia.
  - by exists (2 ^ 23).
  - apply SPH_T32_mod.
  - apply sph_enc32be_spec.
  - intros. rewrite <- block_words32_spec by done. apply COMPRESS32_spec.
Qed.

Lemma blake64_close_spec u0 iv s sc m ub n out :
  length u0 = 128%nat → rep64 iv s sc m → 0 ≤ n < 8 → Z.of_nat (length m) < 2 ^ 64 →
  let r := blake64_close u0 sc ub n out in
  length (bl_buf r.1) = 128%nat ∧
  r.2 = BlakeSpec.hash BlakeSpec.big iv s (Z.b2z (out =? 8)%nat) out m ub n.
Proof.
  intros Hu Hr Hn Hm. rewrite blake64_close_gclose.
  eapply gclose_spec; try done; try lia.
  - by exists (2 ^ 54).
  - apply SPH_T64_mod.
  - apply sph_enc64be_spec.
  - intros. rewrite <- block_words64_spec by done. apply COMPRESS64_spec.
Qed.

Lemma blake_init_rep wb T comp Bits iv s buf :
  (0 < wb)%nat → length buf = (16 * wb)%nat →
  grep wb T comp Bits iv s (BlakeContext buf 0 iv s 0 0) [].
Proof. intros. split; [|done]. apply buffered_init; [lia|done]. Qed.

Lemma length_spec_compress p h s t M : length (BlakeSpec.compress p h s t M) = 8%nat.
Proof. done. Qed.

Lemma blake_digest_length p iv s fin out m ub n :
  length iv = 8%nat → (out ≤ 8)%nat →
  length (BlakeSpec.hash p iv s fin out m ub n) = (BlakeSpec.wbytes p * out)%nat.
Proof.
  intros Hiv Ho. unfold BlakeSpec.hash. rewrite (concat_map_length _ (BlakeSpec.wbytes p)).
  - rewrite length_take, Nat.min_l; [done|].
    assert (length (BlakeSpec.chain p s (BlakeSpec.counter p (8 * Z.of_nat (length m) + n))
      (full_blocks (BlakeSpec.bbytes p) (m ++ BlakeSpec.tail p fin (8 * Z.of_nat (length m) + n) ub n))
      (iv, 0%nat)).1 = 8%nat) as ->; [|done].
    apply (fold_left_inv (λ hi : list Z * nat, length hi.1 = 8%nat)); [done|]. by intros [h i] b.
  - intros. by rewrite length_rev, length_le_enc.
Qed.

Lemma blake_digest_bytes p iv s fin out m ub n : Forall byte (BlakeSpec.hash p iv s fin out m ub n).
Proof. apply Forall_concat_map. intros. apply Forall_rev, le_enc_bytes. Qed.

(** ** The public functions keep the contract of the interface *)

Section BlakeInstance.
Context (p : BlakeSpec.params) (bytes : nat) (rep : list Z → list Z → blake_context → list Z → Prop).
Context (core : blake_context → list Z → blake_context).
Context (close : list Z → blake_context → Z → Z → nat → blake_context * list Z) (maxlen : Z).
Context (Hcore : ∀ iv s sc m d, rep iv s sc m → Forall byte d → rep iv s (core sc d) (m ++ d)).
Context (Hclose : ∀ u0 iv s sc m ub n out, length u0 = bytes → rep iv s sc m →
  0 ≤ n < 8 → Z.of_nat (length m) < maxlen →
  let r := close u0 sc ub n out in
  length (bl_buf r.1) = bytes ∧ r.2 = BlakeSpec.hash p iv s (Z.b2z (out =? 8)%nat) out m ub n).
Context (Hinit : ∀ iv s buf, length buf = bytes → rep iv s (BlakeContext buf 0 iv s 0 0) []).
Context (u0 iv : list Z) (out : nat) (Hu0 : length u0 = bytes) (Hiv : length iv = 8%nat) (Hout : (out ≤ 8)%nat).

Definition blake_init (sc : blake_context) : blake_context :=
  BlakeContext (bl_buf sc) 0 iv [0; 0; 0; 0] 0 0.

Definition blake_addbits (sc : blake_context) (ub n : Z) : blake_context * list Z :=
  let '(sc, dst) := close u0 sc ub n out in (blake_init sc, dst).

Definition blake_hash : SphHash :=
  {| sph_context := blake_context; sph_init := blake_init; sph_update := core;
     sph_addbits_and_close := blake_addbits; sph_close sc := blake_addbits sc 0 0 |}.

Program Instance blake_correct_gen :
  SphCorrect blake_hash (BlakeSpec.hash p iv [0; 0; 0; 0] (Z.b2z (out =? 8)%nat) out)
    (BlakeSpec.wbytes p * out) := {|
  ctx_valid c := length (bl_buf c) = bytes;
  ctx_rep := rep iv [0; 0; 0; 0];
  max_bytes := maxlen |}.
Next Obligation. intros. by apply Hinit. Qed.
Next Obligation. intros. by apply Hcore. Qed.
Next Obligation.
  intros c m ub n Hr Hn Hl. simpl. unfold blake_addbits.
  destruct (Hclose u0 iv [0; 0; 0; 0] c m ub n out) as [_ E]; [done..|].
  by destruct (close u0 c ub n out).
Qed.
Next Obligation.
  intros c m ub n Hr Hn Hl. simpl. unfold blake_addbits.
  destruct (Hclose u0 iv [0; 0; 0; 0] c m ub n out) as [Hb _]; [done..|].
  destruct (close u0 c ub n out). by apply Hinit.
Qed.
Next Obligation. done. Qed.
Next Obligation. intros. by apply blake_digest_length. Qed.
Next Obligation. intros. apply blake_digest_bytes. Qed.
End BlakeInstance.

Definition blake224_hash (u0 : list Z) : SphHash :=
  {| sph_init := sph_blake224_init; sph_update := sph_blake224;
     sph_addbits_and_close := sph_blake224_addbits_and_close u0; sph_close := sph_blake224_close u0 |}.

Definition blake256_hash (u0 : list Z) : SphHash :=
  {| sph_init := sph_blake256_init; sph_update := sph_blake256;
     sph_addbits_and_close := sph_blake256_addbits_and_close u0; sph_close := sph_blake256_close u0 |}.

Definition blake384_hash (u0 : list Z) : SphHash :=
  {| sph_init := sph_blake384_init; sph_update := sph_blake384;
     sph_addbits_and_close := sph_blake384_addbits_and_close u0; sph_close := sph_blake384_close u0 |}.

Definition blake512_hash (u0 : list Z) : SphHash :=
  {| sph_init := sph_blake512_init; sph_update := sph_blake512;
     sph_addbits_and_close := sph_blake512_addbits_and_close u0; sph_close := sph_blake512_close u0 |}.

Ltac blake_instance rep core_rep close_spec :=
  intros; apply (blake_correct_gen _ _ rep _ _ _ core_rep close_spec); try done; try lia;
  intros; apply blake_init_rep; (done || lia).

#[export] Instance blake224_correct u0 :
  length u0 = 64%nat → SphCorrect (blake224_hash u0) BlakeSpec.blake224 28.
Proof. blake_instance rep32 blake32_rep blake32_close_spec. Defined.

#[export] Instance blake256_correct u0 :
  length u0 = 64%nat → SphCorrect (blake256_hash u0) BlakeSpec.blake256 32.
Proof. blake_instance rep32 blake32_rep blake32_close_spec. Defined.

#[export] Instance blake384_correct u0 :
  length u0 = 128%nat → SphCorrect (blake384_hash u0) BlakeSpec.blake384 48.
Proof. blake_instance rep64 blake64_rep blake64_close_spec. Defined.

#[export] Instance blake512_correct u0 :
  length u0 = 128%nat → SphCorrect (blake512_hash u0) BlakeSpec.blake512 64.
Proof. blake_instance rep64 blake64_rep blake64_close_spec. Defined.

(** BLAKE-512 as the program calls it: for every content of the context and of
    the local buffer before the call, every cut of the message into calls and
    every number [n] of trailing bits, the digest is the one of the BLAKE
    specification, counters and padding included. *)
Theorem sph_blake512_is_blake (u0 : list Z) (cc : blake_context) (pieces : list (list Z)) (ub n : Z)
    (Hu0 : length u0 = 128%nat) (Hcc : length (bl_buf cc) = 128%nat)
    (Hp : Forall (Forall byte) pieces) (Hn : 0 ≤ n < 8)
    (Hl : Z.of_nat (length (concat pieces)) < 2 ^ 64) :
  (sph_blake512_addbits_and_close u0 (fold_left sph_blake512 pieces (sph_blake512_init cc)) ub n).2
  = BlakeSpec.blake512 (concat pieces) ub n.
Proof. exact (hash_pieces (Hok := blake512_correct u0 Hu0) cc pieces ub n Hcc Hp Hn Hl). Qed.

Lemma sph_blake512_is_blake_witness :
  (sph_blake512_addbits_and_close (replicate 128 9) (fold_left sph_blake512 [[97]; [98; 99]]
    (sph_blake512_init (BlakeContext (replicate 128 7) 3 [] [] 1 1))) 0xA0 3).2
  = BlakeSpec.blake512 [97; 98; 99] 0xA0 3.
Proof.
  apply (sph_blake512_is_blake (replicate 128 9) (BlakeContext (replicate 128 7) 3 [] [] 1 1) [[97]; [98; 99]] 0xA0 3);
    [reflexivity|reflexivity|by apply bytesb_pieces|lia|reflexivity].
Defined.

(** The same for the 32-bit BLAKE-256, for messages of fewer than 2^61 bytes,
    the longest its 64-bit counter can count. *)
Theorem sph_blake256_is_blake (u0 : list Z) (cc : blake_context) (pieces : list (list Z)) (ub n : Z)
    (Hu0 : length u0 = 64%nat) (Hcc : length (bl_buf cc) = 64%nat)
    (Hp : Forall (Forall byte) pieces) (Hn : 0 ≤ n < 8)
    (Hl : Z.of_nat (length (concat pieces)) < 2 ^ 61) :
  (sph_blake256_addbits_and_close u0 (fold_left sph_blake256 pieces (sph_blake256_init cc)) ub n).2
  = BlakeSpec.blake256 (concat pieces) ub n.
Proof. exact (hash_pieces (Hok := blake256_correct u0 Hu0) cc pieces ub n Hcc Hp Hn Hl). Qed.

Lemma sph_blake256_is_blake_witness :
  (sph_blake256_addbits_and_close (replicate 64 9) (fold_left sph_blake256 [[97]; [98; 99]]
    (sph_blake256_init (BlakeContext (replicate 64 7) 3 [] [] 1 1))) 0xA0 3).2
  = BlakeSpec.blake256 [97; 98; 99] 0xA0 3.
Proof.
  apply (sph_blake256_is_blake (replicate 64 9) (BlakeContext (replicate 64 7) 3 [] [] 1 1) [[97]; [98; 99]] 0xA0 3);
    [reflexivity|reflexivity|by apply bytesb_pieces|lia|reflexivity].
Defined.
