(* ===== verification/Cubehash.v ===== *)
(** * [cubehash.c]: CubeHash16/32-224, -256, -384, -512

    The unrolled rounds, in which the word swaps of the specification are only
    renamings of variables, against the ten steps of the CubeHash round; the
    precomputed initial states against their definition; the streaming
    functions against the hash. *)

From S2P Require Import Prelude SphTypes Stream SphHash SphStream.
Local Open Scope Z_scope.

(** ** Initial states *)

Definition IV224 : list Z :=
  [0xB0FC8217; 0x1BEE1A90; 0x829E1A22; 0x6362C342; 0x24D91C30; 0x03A7AA24;
   0xA63721C8; 0x85B0E2EF; 0xF35D13F3; 0x41DA807D; 0x21A70CA6; 0x1F4E9774;
   0xB3E1C932; 0xEB0A79A8; 0xCDDAAA66; 0xE2F6ECAA; 0x0A713362; 0xAA3080E0;
   0xD8F23A32; 0xCEF15E28; 0xDB086314; 0x7F709DF7; 0xACD228A4; 0x704D6ECE;
   0xAA3EC95F; 0xE387C214; 0x3A6445FF; 0x9CAB81C3; 0xC73D4B98; 0xD277AEBE;
   0xFD20151C; 0x00CB573E].

Definition IV256 : list Z :=
  [0xEA2BD4B4; 0xCCD6F29F; 0x63117E71; 0x35481EAE; 0x22512D5B; 0xE5D94E63;
   0x7E624131; 0xF4CC12BE; 0xC2D0B696; 0x42AF2070; 0xD0720C35; 0x3361DA8C;
   0x28CCECA4; 0x8EF8AD83; 0x4680AC00; 0x40E5FBAB; 0xD89041C3; 0x6107FBD5;
   0x6C859D41; 0xF0B26679; 0x09392549; 0x5FA25603; 0x65C892FD; 0x93CB6285;
   0x2AF2B5AE; 0x9E4B4E60; 0x774ABFDD; 0x85254725; 0x15815AEB; 0x4AB6AAD6;
   0x9CDAF8AF; 0xD6032C0A].

Definition IV384 : list Z :=
  [0xE623087E; 0x04C00C87; 0x5EF46453; 0x69524B13; 0x1A05C7A9; 0x3528DF88;
   0x6BDD01B5; 0x5057B792; 0x6AA7A922; 0x649C7EEE; 0xF426309F; 0xCB629052;
   0xFC8E20ED; 0xB3482BAB; 0xF89E5E7E; 0xD83D4DE4; 0x44BFC10D; 0x5FC1E63D;
   0x2104E6CB; 0x17958F7F; 0xDBEAEF70; 0xB4B97E1E; 0x32C195F6; 0x6184A8E4;
   0x796C2543; 0x23DE176D; 0xD33BBAEC; 0x0C12E5D2; 0x4EB95A7B; 0x2D18BA01;
   0x04EE475F; 0x1FC5F22E].

Definition IV512 : list Z :=
  [0x2AEA2A61; 0x50F494D4; 0x2D538B8B; 0x4167D83E; 0x3FEE2313; 0xC701CF8C;
   0xCC39968E; 0x50AC5695; 0x4D42C787; 0xA647A8B3; 0x97CF0BEF; 0x825B4537;
   0xEEF864D2; 0xF22090C4; 0xD0E5CD33; 0xA23911AE; 0xFCD398D9; 0x148FE485;
   0x1B017BEF; 0xB6444532; 0x6A536159; 0x2FF5781C; 0x91FA7934; 0x0DBADEA9;
   0xD65C8A2B; 0xA5A70E75; 0xB1C62456; 0xBC796576; 0x1921C8F7; 0xE7989AF1;
   0x7795D246; 0xD43E3B44].

(** ** The round functions

    The variables [x0] to [xv] are the words 0 to 31 of the state. *)

Definition ROUND_EVEN (V : list Z) : list Z :=
  match V with
  | [x0; x1; x2; x3; x4; x5; x6; x7; x8; x9; xa; xb; xc; xd; xe; xf;
     xg; xh; xi; xj; xk; xl; xm; xn; xo; xp; xq; xr; xs; xt; xu; xv] =>
      let xg := SPH_T32 (x0 + xg) in let x0 := SPH_ROTL32 x0 7 in
      let xh := SPH_T32 (x1 + xh) in let x1 := SPH_ROTL32 x1 7 in
      let xi := SPH_T32 (x2 + xi) in let x2 := SPH_ROTL32 x2 7 in
      let xj := SPH_T32 (x3 + xj) in let x3 := SPH_ROTL32 x3 7 in
      let xk := SPH_T32 (x4 + xk) in let x4 := SPH_ROTL32 x4 7 in
      let xl := SPH_T32 (x5 + xl) in let x5 := SPH_ROTL32 x5 7 in
      let xm := SPH_T32 (x6 + xm) in let x6 := SPH_ROTL32 x6 7 in
      let xn := SPH_T32 (x7 + xn) in let x7 := SPH_ROTL32 x7 7 in
      let xo := SPH_T32 (x8 + xo) in let x8 := SPH_ROTL32 x8 7 in
      let xp := SPH_T32 (x9 + xp) in let x9 := SPH_ROTL32 x9 7 in
      let xq := SPH_T32 (xa + xq) in let xa := SPH_ROTL32 xa 7 in
      let xr := SPH_T32 (xb + xr) in let xb := SPH_ROTL32 xb 7 in
      let xs := SPH_T32 (xc + xs) in let xc := SPH_ROTL32 xc 7 in
      let xt := SPH_T32 (xd + xt) in let xd := SPH_ROTL32 xd 7 in
      let xu := SPH_T32 (xe + xu) in let xe := SPH_ROTL32 xe 7 in
      let xv := SPH_T32 (xf + xv) in let xf := SPH_ROTL32 xf 7 in
      let x8 := x8 .^ xg in let x9 := x9 .^ xh in
      let xa := xa .^ xi in let xb := xb .^ xj in
      let xc := xc .^ xk in let xd := xd .^ xl in
      let xe := xe .^ xm in let xf := xf .^ xn in
      let x0 := x0 .^ xo in let x1 := x1 .^ xp in
      let x2 := x2 .^ xq in let x3 := x3 .^ xr in
      let x4 := x4 .^ xs in let x5 := x5 .^ xt in
      let x6 := x6 .^ xu in let x7 := x7 .^ xv in
      let xi := SPH_T32 (x8 + xi) in let x8 := SPH_ROTL32 x8 11 in
      let xj := SPH_T32 (x9 + xj) in let x9 := SPH_ROTL32 x9 11 in
      let xg := SPH_T32 (xa + xg) in let xa := SPH_ROTL32 xa 11 in
      let xh := SPH_T32 (xb + xh) in let xb := SPH_ROTL32 xb 11 in
      let xm := SPH_T32 (xc + xm) in let xc := SPH_ROTL32 xc 11 in
      let xn := SPH_T32 (xd + xn) in let xd := SPH_ROTL32 xd 11 in
      let xk := SPH_T32 (xe + xk) in let xe := SPH_ROTL32 xe 11 in
      let xl := SPH_T32 (xf + xl) in let xf := SPH_ROTL32 xf 11 in
      let xq := SPH_T32 (x0 + xq) in let x0 := SPH_ROTL32 x0 11 in
      let xr := SPH_T32 (x1 + xr) in let x1 := SPH_ROTL32 x1 11 in
      let xo := SPH_T32 (x2 + xo) in let x2 := SPH_ROTL32 x2 11 in
      let xp := SPH_T32 (x3 + xp) in let x3 := SPH_ROTL32 x3 11 in
      let xu := SPH_T32 (x4 + xu) in let x4 := SPH_ROTL32 x4 11 in
      let xv := SPH_T32 (x5 + xv) in let x5 := SPH_ROTL32 x5 11 in
      let xs := SPH_T32 (x6 + xs) in let x6 := SPH_ROTL32 x6 11 in
      let xt := SPH_T32 (x7 + xt) in let x7 := SPH_ROTL32 x7 11 in
      let xc := xc .^ xi in let xd := xd .^ xj in
      let xe := xe .^ xg in let xf := xf .^ xh in
      let x8 := x8 .^ xm in let x9 := x9 .^ xn in
      let xa := xa .^ xk in let xb := xb .^ xl in
      let x4 := x4 .^ xq in let x5 := x5 .^ xr in
      let x6 := x6 .^ xo in let x7 := x7 .^ xp in
      let x0 := x0 .^ xu in let x1 := x1 .^ xv in
      let x2 := x2 .^ xs in let x3 := x3 .^ xt in
      [x0; x1; x2; x3; x4; x5; x6; x7; x8; x9; xa; xb; xc; xd; xe; xf;
       xg; xh; xi; xj; xk; xl; xm; xn; xo; xp; xq; xr; xs; xt; xu; xv]
  | _ => V
  end.

Definition ROUND_ODD (V : list Z) : list Z :=
  match V with
  | [x0; x1; x2; x3; x4; x5; x6; x7; x8; x9; xa; xb; xc; xd; xe; xf;
     xg; xh; xi; xj; xk; xl; xm; xn; xo; xp; xq; xr; xs; xt; xu; xv] =>
      let xj := SPH_T32 (xc + xj) in let xc := SPH_ROTL32 xc 7 in
      let xi := SPH_T32 (xd + xi) in let xd := SPH_ROTL32 xd 7 in
      let xh := SPH_T32 (xe + xh) in let xe := SPH_ROTL32 xe 7 in
      let xg := SPH_T32 (xf + xg) in let xf := SPH_ROTL32 xf 7 in
      let xn := SPH_T32 (x8 + xn) in let x8 := SPH_ROTL32 x8 7 in
      let xm := SPH_T32 (x9 + xm) in let x9 := SPH_ROTL32 x9 7 in
      let xl := SPH_T32 (xa + xl) in let xa := SPH_ROTL32 xa 7 in
      let xk := SPH_T32 (xb + xk) in let xb := SPH_ROTL32 xb 7 in
      let xr := SPH_T32 (x4 + xr) in let x4 := SPH_ROTL32 x4 7 in
      let xq := SPH_T32 (x5 + xq) in let x5 := SPH_ROTL32 x5 7 in
      let xp := SPH_T32 (x6 + xp) in let x6 := SPH_ROTL32 x6 7 in
      let xo := SPH_T32 (x7 + xo) in let x7 := SPH_ROTL32 x7 7 in
      let xv := SPH_T32 (x0 + xv) in let x0 := SPH_ROTL32 x0 7 in
      let xu := SPH_T32 (x1 + xu) in let x1 := SPH_ROTL32 x1 7 in
      let xt := SPH_T32 (x2 + xt) in let x2 := SPH_ROTL32 x2 7 in
      let xs := SPH_T32 (x3 + xs) in let x3 := SPH_ROTL32 x3 7 in
      let x4 := x4 .^ xj in let x5 := x5 .^ xi in
      let x6 := x6 .^ xh in let x7 := x7 .^ xg in
      let x0 := x0 .^ xn in let x1 := x1 .^ xm in
      let x2 := x2 .^ xl in let x3 := x3 .^ xk in
      let xc := xc .^ xr in let xd := xd .^ xq in
      let xe := xe .^ xp in let xf := xf .^ xo in
      let x8 := x8 .^ xv in let x9 := x9 .^ xu in
      let xa := xa .^ xt in let xb := xb .^ xs in
      let xh := SPH_T32 (x4 + xh) in let x4 := SPH_ROTL32 x4 11 in
      let xg := SPH_T32 (x5 + xg) in let x5 := SPH_ROTL32 x5 11 in
      let xj := SPH_T32 (x6 + xj) in let x6 := SPH_ROTL32 x6 11 in
      let xi := SPH_T32 (x7 + xi) in let x7 := SPH_ROTL32 x7 11 in
      let xl := SPH_T32 (x0 + xl) in let x0 := SPH_ROTL32 x0 11 in
      let xk := SPH_T32 (x1 + xk) in let x1 := SPH_ROTL32 x1 11 in
      let xn := SPH_T32 (x2 + xn) in let x2 := SPH_ROTL32 x2 11 in
      let xm := SPH_T32 (x3 + xm) in let x3 := SPH_ROTL32 x3 11 in
      let xp := SPH_T32 (xc + xp) in let xc := SPH_ROTL32 xc 11 in
      let xo := SPH_T32 (xd + xo) in let xd := SPH_ROTL32 xd 11 in
      let xr := SPH_T32 (xe + xr) in let xe := SPH_ROTL32 xe 11 in
      let xq := SPH_T32 (xf + xq) in let xf := SPH_ROTL32 xf 11 in
      let xt := SPH_T32 (x8 + xt) in let x8 := SPH_ROTL32 x8 11 in
      let xs := SPH_T32 (x9 + xs) in let x9 := SPH_ROTL32 x9 11 in
      let xv := SPH_T32 (xa + xv) in let xa := SPH_ROTL32 xa 11 in
      let xu := SPH_T32 (xb + xu) in let xb := SPH_ROTL32 xb 11 in
      let x0 := x0 .^ xh in let x1 := x1 .^ xg in
      let x2 := x2 .^ xj in let x3 := x3 .^ xi in
      let x4 := x4 .^ xl in let x5 := x5 .^ xk in
      let x6 := x6 .^ xn in let x7 := x7 .^ xm in
      let x8 := x8 .^ xp in let x9 := x9 .^ xo in
      let xa := xa .^ xr in let xb := xb .^ xq in
      let xc := xc .^ xt in let xd := xd .^ xs in
      let xe := xe .^ xv in let xf := xf .^ xu in
      [x0; x1; x2; x3; x4; x5; x6; x7; x8; x9; xa; xb; xc; xd; xe; xf;
       xg; xh; xi; xj; xk; xl; xm; xn; xo; xp; xq; xr; xs; xt; xu; xv]
  | _ => V
  end.

(** [INPUT_BLOCK] *)
Definition INPUT_BLOCK (V buf : list Z) : list Z :=
  match V with
  | x0 :: x1 :: x2 :: x3 :: x4 :: x5 :: x6 :: x7 :: V' =>
      let x0 := x0 .^ sph_dec32le (drop 0 buf) in
      let x1 := x1 .^ sph_dec32le (drop 4 buf) in
      let x2 := x2 .^ sph_dec32le (drop 8 buf) in
      let x3 := x3 .^ sph_dec32le (drop 12 buf) in
      let x4 := x4 .^ sph_dec32le (drop 16 buf) in
      let x5 := x5 .^ sph_dec32le (drop 20 buf) in
      let x6 := x6 .^ sph_dec32le (drop 24 buf) in
      let x7 := x7 .^ sph_dec32le (drop 28 buf) in
      x0 :: x1 :: x2 :: x3 :: x4 :: x5 :: x6 :: x7 :: V'
  | _ => V
  end.

(** [SIXTEEN_ROUNDS], fully unrolled, as compiled. *)
Definition SIXTEEN_ROUNDS (V : list Z) : list Z :=
  let V := ROUND_EVEN V in let V := ROUND_ODD V in
  let V := ROUND_EVEN V in let V := ROUND_ODD V in
  let V := ROUND_EVEN V in let V := ROUND_ODD V in
  let V := ROUND_EVEN V in let V := ROUND_ODD V in
  let V := ROUND_EVEN V in let V := ROUND_ODD V in
  let V := ROUND_EVEN V in let V := ROUND_ODD V in
  let V := ROUND_EVEN V in let V := ROUND_ODD V in
  let V := ROUND_EVEN V in let V := ROUND_ODD V in V.

(** [SIXTEEN_ROUNDS] when [SPH_CUBEHASH_UNROLL] is 2, 4 and 8. *)
Definition SIXTEEN_ROUNDS_2 (V : list Z) : list Z :=
  Nat.iter 8 (λ V, let V := ROUND_EVEN V in let V := ROUND_ODD V in V) V.

Definition SIXTEEN_ROUNDS_4 (V : list Z) : list Z :=
  Nat.iter 4 (λ V, let V := ROUND_EVEN V in let V := ROUND_ODD V in
                   let V := ROUND_EVEN V in let V := ROUND_ODD V in V) V.

Definition SIXTEEN_ROUNDS_8 (V : list Z) : list Z :=
  Nat.iter 2 (λ V, let V := ROUND_EVEN V in let V := ROUND_ODD V in
                   let V := ROUND_EVEN V in let V := ROUND_ODD V in
                   let V := ROUND_EVEN V in let V := ROUND_ODD V in
                   let V := ROUND_EVEN V in let V := ROUND_ODD V in V) V.

(** ** The streaming functions *)

(** [sph_cubehash_context]: the state is the array [state]. *)
Definition sph_cubehash_context : Type := sph_ctx (list Z).

Definition cubehash_init (sc : sph_cubehash_context) (iv : list Z) : sph_cubehash_context :=
  SphCtx (c_buf sc) 0 iv.

(** What [cubehash_core] does when the buffer is full. *)
Definition cubehash_step (V buf : list Z) : list Z := SIXTEEN_ROUNDS (INPUT_BLOCK V buf).

Definition cubehash_core (sc : sph_cubehash_context) (data : list Z) : sph_cubehash_context :=
  ctx_core 32 cubehash_step sc data.

(** The eleven times sixteen rounds of the close function. *)
Definition cubehash_final (V : list Z) : list Z :=
  fold_left (λ V i, let V := SIXTEEN_ROUNDS V in
                    if (i =? 0)%nat then <[31%nat := V.[31] .^ 1]> V else V) (seq 0 11) V.

Definition cubehash_close (sc : sph_cubehash_context) (ub n : Z) (out_size_w32 : nat)
    : sph_cubehash_context * list Z :=
  let buf := c_buf sc in
  let ptr := c_ptr sc in
  let buf := <[ptr := close_byte ub n]> buf in
  let ptr := (ptr + 1)%nat in
  let buf := memset buf ptr 0 (32 - ptr) in
  let V := INPUT_BLOCK (c_state sc) buf in
  let V := cubehash_final V in
  (SphCtx buf (c_ptr sc) V, concat (map sph_enc32le (take out_size_w32 V))).

Definition sph_cubehash224_init (cc : sph_cubehash_context) : sph_cubehash_context :=
  cubehash_init cc IV224.

Definition sph_cubehash224 (cc : sph_cubehash_context) (data : list Z) : sph_cubehash_context :=
  cubehash_core cc data.

Definition sph_cubehash224_addbits_and_close (cc : sph_cubehash_context) (ub n : Z)
    : sph_cubehash_context * list Z :=
  let '(cc, dst) := cubehash_close cc ub n 7 in
  (sph_cubehash224_init cc, dst).

Definition sph_cubehash224_close (cc : sph_cubehash_context) : sph_cubehash_context * list Z :=
  sph_cubehash224_addbits_and_close cc 0 0.

Definition sph_cubehash256_init (cc : sph_cubehash_context) : sph_cubehash_context :=
  cubehash_init cc IV256.

Definition sph_cubehash256 (cc : sph_cubehash_context) (data : list Z) : sph_cubehash_context :=
  cubehash_core cc data.

Definition sph_cubehash256_addbits_and_close (cc : sph_cubehash_context) (ub n : Z)
    : sph_cubehash_context * list Z :=
  let '(cc, dst) := cubehash_close cc ub n 8 in
  (sph_cubehash256_init cc, dst).

Definition sph_cubehash256_close (cc : sph_cubehash_context) : sph_cubehash_context * list Z :=
  sph_cubehash256_addbits_and_close cc 0 0.

Definition sph_cubehash384_init (cc : sph_cubehash_context) : sph_cubehash_context :=
  cubehash_init cc IV384.

Definition sph_cubehash384 (cc : sph_cubehash_context) (data : list Z) : sph_cubehash_context :=
  cubehash_core cc data.

Definition sph_cubehash384_addbits_and_close (cc : sph_cubehash_context) (ub n : Z)
    : sph_cubehash_context * list Z :=
  let '(cc, dst) := cubehash_close cc ub n 12 in
  (sph_cubehash384_init cc, dst).

Definition sph_cubehash384_close (cc : sph_cubehash_context) : sph_cubehash_context * list Z :=
  sph_cubehash384_addbits_and_close cc 0 0.

Definition sph_cubehash512_init (cc : sph_cubehash_context) : sph_cubehash_context :=
  cubehash_init cc IV512.

Definition sph_cubehash512 (cc : sph_cubehash_context) (data : list Z) : sph_cubehash_context :=
  cubehash_core cc data.

Definition sph_cubehash512_addbits_and_close (cc : sph_cubehash_context) (ub n : Z)
    : sph_cubehash_context * list Z :=
  let '(cc, dst) := cubehash_close cc ub n 16 in
  (sph_cubehash512_init cc, dst).

Definition sph_cubehash512_close (cc : sph_cubehash_context) : sph_cubehash_context * list Z :=
  sph_cubehash512_addbits_and_close cc 0 0.

(** ** The CubeHash specification

    The state as two halves of sixteen words, [x[0jklm]] and [x[1jklm]]. *)

Module CubeSpec.

Definition add (x y : list Z) : list Z := zip_with (λ a b, (a + b) mod 2 ^ 32) x y.
Definition rot (k : Z) (x : list Z) : list Z := map (λ a, ((a << k) .| (a >> (32 - k))) mod 2 ^ 32) x.
Definition xor (x y : list Z) : list Z := zip_with Z.lxor x y.

(** Swap the words whose indices differ in the bits of [d]. *)
Definition swap (d : nat) (x : list Z) : list Z := map (λ i, x.[Nat.lxor i d]) (seq 0 16).

(** The ten steps of the round. *)
Definition round (x : list Z) : list Z :=
  let lo := take 16 x in
  let hi := drop 16 x in
  let hi := add lo hi in
  let lo := rot 7 lo in
  let lo := swap 8 lo in
  let lo := xor lo hi in
  let hi := swap 2 hi in
  let hi := add lo hi in
  let lo := rot 11 lo in
  let lo := swap 4 lo in
  let lo := xor lo hi in
  let hi := swap 1 hi in
  lo ++ hi.

(** The inverse of each step, in reverse order. *)
Definition sub (x y : list Z) : list Z := zip_with (λ a b, (b - a) mod 2 ^ 32) x y.

Definition round_inv (x : list Z) : list Z :=
  let lo := take 16 x in
  let hi := drop 16 x in
  let hi := swap 1 hi in
  let lo := xor lo hi in
  let lo := swap 4 lo in
  let lo := rot (32 - 11) lo in
  let hi := sub lo hi in
  let hi := swap 2 hi in
  let lo := xor lo hi in
  let lo := swap 8 lo in
  let lo := rot (32 - 7) lo in
  let hi := sub lo hi in
  lo ++ hi.

Definition rounds (k : nat) (x : list Z) : list Z := Nat.iter k round x.

(** Sixteen rounds per block of 32 bytes; ten times sixteen to set up the state
    from the digest length, and to finish. *)
Definition initial (h : Z) : list Z := rounds 160 ([h / 8; 32; 16] ++ replicate 29 0).

Definition input (x b : list Z) : list Z := xor (take 8 x) (map le_dec (chunks 4 8 b)) ++ drop 8 x.

Definition block (x b : list Z) : list Z := rounds 16 (input x b).

Definition finish (x : list Z) : list Z := rounds 160 (<[31%nat := x.[31] .^ 1]> x).

Definition hash (h : Z) (m : list Z) (ub n : Z) : list Z :=
  let x := finish (fold_left block (full_blocks 32 (pad10 32 m ub n)) (initial h)) in
  concat (map (le_enc 4) (take (Z.to_nat (h / 32)) x)).

End CubeSpec.

(** ** The rounds *)

Lemma add_code x y : CubeSpec.add x y = zip_with (λ a b, SPH_T32 (a + b)) x y.
Proof. apply zip_with_ext; [|done..]. intros. by rewrite SPH_T32_mod. Qed.

Lemma rot_code k x : CubeSpec.rot k x = map (λ a, SPH_ROTL32 a k) x.
Proof. apply map_ext. intros. symmetry. apply SPH_T32_mod. Qed.

(** Two rounds of the code are two rounds of the specification: after an odd
    round the variables are back in place. *)
Lemma ROUND_EVEN_ODD V :
  length V = 32%nat → ROUND_ODD (ROUND_EVEN V) = CubeSpec.round (CubeSpec.round V).
Proof.
  intros HV. do 32 (destruct V as [|? V]; [discriminate|]). destruct V; [|discriminate].
  unfold CubeSpec.round. rewrite !add_code, !rot_code.
  cbv -[SPH_T32 SPH_ROTL32 Z.lxor Z.add]. reflexivity.
Qed.

Lemma length_round x : length x = 32%nat → length (CubeSpec.round x) = 32%nat.
Proof.
  intros Hx. do 32 (destruct x as [|? x]; [discriminate|]). destruct x; [reflexivity|discriminate].
Qed.

Lemma length_rounds k x : length x = 32%nat → length (CubeSpec.rounds k x) = 32%nat.
Proof. intros Hx. induction k as [|k IH]; [done|]. by apply length_round. Qed.

Lemma rounds_add j k x : CubeSpec.rounds (j + k) x = CubeSpec.rounds j (CubeSpec.rounds k x).
Proof. unfold CubeSpec.rounds. induction j as [|j IH]; [done|]. simpl. by rewrite IH. Qed.

#[local] Strategy 100 [ROUND_EVEN ROUND_ODD CubeSpec.round].

(** Pairs of rounds, over abstract round functions. *)
Lemma iter_pairs {A} (P : A → Prop) (even odd round : A → A) k V :
  (∀ V, P V → P (round V)) → (∀ V, P V → odd (even V) = round (round V)) → P V →
  Nat.iter k (λ V, odd (even V)) V = Nat.iter (2 * k) round V.
Proof.
  intros HP H HV. replace (2 * k)%nat with (k + k)%nat by lia.
  assert (∀ j, P (Nat.iter j round V)) as HPj by (intros j; induction j; simpl; auto).
  induction k as [|k IH]; [done|]. rewrite Nat.add_succ_r. simpl. rewrite IH. by apply H.
Qed.

Lemma SIXTEEN_ROUNDS_iter V : SIXTEEN_ROUNDS V = Nat.iter 8 (λ V, ROUND_ODD (ROUND_EVEN V)) V.
Proof. unfold SIXTEEN_ROUNDS. generalize ROUND_ODD ROUND_EVEN. reflexivity. Qed.

Lemma SIXTEEN_ROUNDS_spec V : length V = 32%nat → SIXTEEN_ROUNDS V = CubeSpec.rounds 16 V.
Proof.
  intros HV. rewrite SIXTEEN_ROUNDS_iter.
  exact (iter_pairs _ _ _ _ 8 V length_round ROUND_EVEN_ODD HV).
Qed.

Lemma SIXTEEN_ROUNDS_unrolls V :
  SIXTEEN_ROUNDS_2 V = SIXTEEN_ROUNDS V ∧ SIXTEEN_ROUNDS_4 V = SIXTEEN_ROUNDS V ∧
  SIXTEEN_ROUNDS_8 V = SIXTEEN_ROUNDS V.
Proof.
  unfold SIXTEEN_ROUNDS_2, SIXTEEN_ROUNDS_4, SIXTEEN_ROUNDS_8, SIXTEEN_ROUNDS.
  generalize ROUND_ODD ROUND_EVEN. repeat split.
Qed.

Lemma INPUT_BLOCK_spec V buf :
  length V = 32%nat → length buf = 32%nat → Forall byte buf →
  INPUT_BLOCK V buf = CubeSpec.input V buf.
Proof.
  intros HV Hl Hb. unfold CubeSpec.input.
  rewrite <- (chunk_words 4 8 sph_dec32le); [|done..|apply sph_dec32le_take|intros; by apply sph_dec32le_spec].
  do 8 (destruct V as [|? V]; [discriminate|]). done.
Qed.

Lemma length_input x b : length x = 32%nat → length b = 32%nat → length (CubeSpec.input x b) = 32%nat.
Proof.
  intros Hx Hb. unfold CubeSpec.input, CubeSpec.xor.
  by rewrite length_app, length_zip_with, length_take, length_map, length_chunks, length_drop, Hx.
Qed.

Lemma cubehash_step_spec V b :
  length V = 32%nat → length b = 32%nat → Forall byte b → cubehash_step V b = CubeSpec.block V b.
Proof.
  intros. unfold cubehash_step. rewrite INPUT_BLOCK_spec by done. apply SIXTEEN_ROUNDS_spec. by apply length_input.
Qed.

Lemma length_block V b : length V = 32%nat → length b = 32%nat → length (CubeSpec.block V b) = 32%nat.
Proof. intros. by apply length_rounds, length_input. Qed.

Lemma cubehash_final_iter (f : list Z → list Z) V :
  fold_left (λ V i, let V := f V in if (i =? 0)%nat then <[31%nat := V.[31] .^ 1]> V else V) (seq 0 11) V
  = Nat.iter 10 f (let V := f V in <[31%nat := V.[31] .^ 1]> V).
Proof. reflexivity. Qed.

Lemma SIXTEEN_ROUNDS_many k W :
  length W = 32%nat → Nat.iter k SIXTEEN_ROUNDS W = CubeSpec.rounds (16 * k) W.
Proof.
  intros HW. induction k as [|k IH]; [done|].
  rewrite Nat.mul_succ_r, Nat.add_comm, rounds_add, <- IH.
  apply SIXTEEN_ROUNDS_spec. rewrite IH. by apply length_rounds.
Qed.

(** The initial states, computed with the rounds of the code. *)
Lemma IV_initial :
  IV224 = CubeSpec.initial 224 ∧ IV256 = CubeSpec.initial 256 ∧
  IV384 = CubeSpec.initial 384 ∧ IV512 = CubeSpec.initial 512.
Proof.
  unfold CubeSpec.initial. change 160%nat with (16 * 10)%nat.
  rewrite <- !SIXTEEN_ROUNDS_many by reflexivity.
  repeat split; vm_compute; reflexivity.
Qed.

Lemma cubehash_final_spec V :
  length V = 32%nat → cubehash_final V = CubeSpec.finish (CubeSpec.rounds 16 V).
Proof.
  intros HV. unfold cubehash_final. rewrite cubehash_final_iter. cbv zeta.
  rewrite SIXTEEN_ROUNDS_spec by done. apply SIXTEEN_ROUNDS_many.
  by rewrite length_insert, length_rounds.
Qed.

(** ** The round is a permutation of the states *)

Lemma swap_swap d x :
  length x = 16%nat → (d < 16)%nat → CubeSpec.swap d (CubeSpec.swap d x) = x.
Proof.
  intros Hx Hd. do 16 (destruct x as [|? x]; [discriminate|]). destruct x; [|discriminate].
  do 16 (destruct d as [|d]; [reflexivity|]). lia.
Qed.

Lemma xor_xor x y : length x = length y → CubeSpec.xor (CubeSpec.xor x y) y = x.
Proof.
  unfold CubeSpec.xor. revert y. induction x as [|a x IH]; intros [|b y] H; try done. simpl.
  rewrite IH by (simpl in *; lia). by rewrite Z.lxor_assoc, Z.lxor_nilpotent, Z.lxor_0_r.
Qed.

Lemma sub_add x y :
  length x = length y → Forall (word 32) y → CubeSpec.sub x (CubeSpec.add x y) = y.
Proof.
  unfold CubeSpec.sub, CubeSpec.add. intros H Hy. revert x H.
  induction Hy as [|b y Hb Hy IH]; intros [|a x] H; try done. simpl. rewrite IH by (simpl in *; lia).
  rewrite Zminus_mod_idemp_l, Z.add_simpl_l. by rewrite Z.mod_small.
Qed.

Lemma rot_rot k x : 0 < k < 32 → Forall (word 32) x → CubeSpec.rot (32 - k) (CubeSpec.rot k x) = x.
Proof.
  intros Hk Hx. rewrite !rot_code, map_map. rewrite <- (map_id x) at 2.
  apply map_ext_in. intros a Ha%list_elem_of_In. apply SPH_ROTR32_ROTL32; [done|].
  by apply (proj1 (Forall_forall _ _) Hx).
Qed.

Lemma add_words x y : Forall (word 32) x → Forall (word 32) y → Forall (word 32) (CubeSpec.add x y).
Proof. apply zip_with_words. intros. by apply (word_mod 32). Qed.

Lemma xor_words x y : Forall (word 32) x → Forall (word 32) y → Forall (word 32) (CubeSpec.xor x y).
Proof. apply zip_with_words. intros. by apply word_lxor. Qed.

Lemma rot_words k x : Forall (word 32) (CubeSpec.rot k x).
Proof. apply Forall_map, Forall_true. intros. by apply (word_mod 32). Qed.

Lemma swap_words d x : Forall (word 32) x → Forall (word 32) (CubeSpec.swap d x).
Proof. intros. apply Forall_map, Forall_true. intros. by apply nth_word. Qed.

Create HintDb cube.
#[local] Hint Resolve add_words xor_words rot_words swap_words Forall_take Forall_drop : cube.

(** Lengths of the two halves. *)
Ltac halves :=
  unfold CubeSpec.add, CubeSpec.sub, CubeSpec.xor, CubeSpec.rot, CubeSpec.swap;
  rewrite ?length_zip_with, ?length_map, ?length_seq, ?length_take, ?length_drop; lia.

Lemma round_words x : Forall (word 32) x → Forall (word 32) (CubeSpec.round x).
Proof. intros. unfold CubeSpec.round. apply Forall_app_2; auto 12 with cube. Qed.

Lemma round_inv_round x :
  length x = 32%nat → Forall (word 32) x → CubeSpec.round_inv (CubeSpec.round x) = x.
Proof.
  intros Hl Hw. unfold CubeSpec.round.
  transitivity (take 16 x ++ drop 16 x); [|apply take_drop].
  assert (length (take 16 x) = 16%nat ∧ length (drop 16 x) = 16%nat) as [L0 L1]
    by (rewrite length_take, length_drop; lia).
  assert (Forall (word 32) (take 16 x) ∧ Forall (word 32) (drop 16 x)) as [W0 W1] by auto with cube.
  revert L0 L1 W0 W1. generalize (take 16 x) (drop 16 x). clear. intros lo hi L0 L1 W0 W1.
  cbv zeta. set (h1 := CubeSpec.add lo hi).
  set (l1 := CubeSpec.xor (CubeSpec.swap 8 (CubeSpec.rot 7 lo)) h1).
  set (h2 := CubeSpec.add l1 (CubeSpec.swap 2 h1)).
  set (l2 := CubeSpec.xor (CubeSpec.swap 4 (CubeSpec.rot 11 l1)) h2).
  assert (length h1 = 16%nat) by (unfold h1; halves).
  assert (length l1 = 16%nat) by (unfold l1; halves).
  assert (length h2 = 16%nat) by (unfold h2; halves).
  assert (length l2 = 16%nat) by (unfold l2; halves).
  unfold CubeSpec.round_inv. rewrite take_app_length', drop_app_length' by lia.
  rewrite (swap_swap 1) by (done || lia).
  unfold l2. rewrite xor_xor by halves. rewrite swap_swap by (halves || lia).
  assert (Forall (word 32) l1) by (unfold l1, h1; auto with cube).
  rewrite rot_rot by (done || lia). unfold h2. rewrite sub_add by (halves || (unfold h1; auto with cube)).
  rewrite (swap_swap 2) by (done || lia).
  unfold l1. rewrite xor_xor by halves. rewrite swap_swap by (halves || lia).
  rewrite rot_rot by (done || lia). unfold h1. by rewrite sub_add by (done || halves).
Qed.

Lemma rounds_words k x : Forall (word 32) x → Forall (word 32) (CubeSpec.rounds k x).
Proof. intros Hx. induction k as [|k IH]; [done|]. by apply round_words. Qed.

Lemma rounds_inv k x :
  length x = 32%nat → Forall (word 32) x → Nat.iter k CubeSpec.round_inv (CubeSpec.rounds k x) = x.
Proof.
  intros Hl Hx. induction k as [|k IH]; [done|].
  rewrite Nat.iter_succ_r. unfold CubeSpec.rounds in *. simpl. rewrite round_inv_round; [done|..].
  - by apply length_rounds.
  - by apply rounds_words.
Qed.

(** The sixteen rounds the code runs between blocks lose nothing: undoing the
    steps of the CubeHash round in reverse order sixteen times gives the state
    back, so no two states collide before the next block is read. *)
Theorem cubehash_rounds_invertible (V : list Z)
    (HV : length V = 32%nat) (Hw : Forall (word 32) V) :
  Nat.iter 16 CubeSpec.round_inv (SIXTEEN_ROUNDS V) = V.
Proof. rewrite SIXTEEN_ROUNDS_spec by done. by apply rounds_inv. Qed.

Lemma cubehash_rounds_invertible_witness :
  Nat.iter 16 CubeSpec.round_inv (SIXTEEN_ROUNDS IV512) = IV512.
Proof.
  apply (cubehash_rounds_invertible IV512); [reflexivity|].
  repeat (apply Forall_cons; split; [done|]). by apply Forall_nil.
Defined.

(** The initial states in the source are the ones CubeHash16/32 defines: 160
    rounds on the digest length, the block size and the number of rounds. *)
Theorem cubehash_IVs :
  IV224 = CubeSpec.initial 224 ∧ IV256 = CubeSpec.initial 256 ∧
  IV384 = CubeSpec.initial 384 ∧ IV512 = CubeSpec.initial 512.
Proof. exact IV_initial. Qed.

(** ** The hash *)

Lemma length_initial h : length (CubeSpec.initial h) = 32%nat.
Proof. unfold CubeSpec.initial. by apply length_rounds. Qed.

Lemma cubehash_last V b :
  length V = 32%nat → length b = 32%nat → Forall byte b →
  cubehash_final (INPUT_BLOCK V b) = CubeSpec.finish (CubeSpec.block V b).
Proof.
  intros. rewrite INPUT_BLOCK_spec by done. apply cubehash_final_spec. by apply length_input.
Qed.

#[local] Opaque CubeSpec.rounds CubeSpec.initial CubeSpec.block SIXTEEN_ROUNDS cubehash_step cubehash_final.

Lemma cubehash_absorb m iv :
  length iv = 32%nat → Forall byte m →
  absorb 32 cubehash_step iv m = fold_left CubeSpec.block (full_blocks 32 m) iv ∧
  length (fold_left CubeSpec.block (full_blocks 32 m) iv) = 32%nat.
Proof.
  intros Hiv Hm. apply (absorb_fold 32 _ _ (λ V, length V = 32%nat)); [lia|done|done|].
  intros V b HV Hl Hb. split; [by apply cubehash_step_spec|by apply length_block].
Qed.

Lemma cubehash_close_spec h sc m ub n w :
  stream_rep 32 cubehash_step (CubeSpec.initial h) sc m → 0 ≤ n < 8 → w = Z.to_nat (h / 32) →
  length (c_buf (cubehash_close sc ub n w).1) = 32%nat ∧
  (cubehash_close sc ub n w).2 = CubeSpec.hash h m ub n.
Proof.
  intros Hr Hn ->. pose proof (proj2 Hr) as Hm.
  destruct (stream_rep_fields 32 cubehash_step ltac:(lia) _ _ _ Hr) as (Es & Hf & Ep & Hlt & Hpb).
  unfold cubehash_close, CubeSpec.hash. rewrite Ep in *.
  rewrite (filled_pad_zero 32 (pending 32 m)) by done.
  rewrite pad10_blocks, fold_left_app by lia. cbn [fold_left fst snd c_buf].
  set (b := pending 32 m ++ _).
  assert (length b = 32%nat) as Hlb by (unfold b; rewrite length_app; simpl; rewrite length_replicate; lia).
  assert (Forall byte b).
  { apply Forall_app_2; [done|]. constructor; [by apply last_byte_byte|by apply Forall_replicate]. }
  destruct (cubehash_absorb m (CubeSpec.initial h)) as [Ea Hla]; [apply length_initial|done|].
  split; [done|]. rewrite Es, Ea, cubehash_last by assumption.
  by rewrite (map_ext _ _ sph_enc32le_spec).
Qed.

(** The four hashes over the interface. *)

Definition cubehash224_hash : SphHash :=
  {| sph_init := sph_cubehash224_init; sph_update := sph_cubehash224;
     sph_addbits_and_close := sph_cubehash224_addbits_and_close; sph_close := sph_cubehash224_close |}.

Definition cubehash256_hash : SphHash :=
  {| sph_init := sph_cubehash256_init; sph_update := sph_cubehash256;
     sph_addbits_and_close := sph_cubehash256_addbits_and_close; sph_close := sph_cubehash256_close |}.

Definition cubehash384_hash : SphHash :=
  {| sph_init := sph_cubehash384_init; sph_update := sph_cubehash384;
     sph_addbits_and_close := sph_cubehash384_addbits_and_close; sph_close := sph_cubehash384_close |}.

Definition cubehash512_hash : SphHash :=
  {| sph_init := sph_cubehash512_init; sph_update := sph_cubehash512;
     sph_addbits_and_close := sph_cubehash512_addbits_and_close; sph_close := sph_cubehash512_close |}.

Lemma length_finish x : length x = 32%nat → length (CubeSpec.finish x) = 32%nat.
Proof. intros. apply length_rounds. by rewrite length_insert. Qed.

Lemma length_hash_state h m ub n :
  length (CubeSpec.finish (fold_left CubeSpec.block (full_blocks 32 (pad10 32 m ub n)) (CubeSpec.initial h))) = 32%nat.
Proof.
  apply length_finish.
  apply (fold_left_inv_Forall (λ x, length x = 32%nat) (λ b, length b = 32%nat)).
  - apply full_blocks_lengths. lia.
  - apply length_initial.
  - apply length_block.
Qed.

Lemma cubehash_correct iv h w :
  iv = CubeSpec.initial h → w = Z.to_nat (h / 32) → (w ≤ 32)%nat →
  SphCorrect (stream_hash 32 cubehash_step iv (λ sc ub n, cubehash_close sc ub n w)) (CubeSpec.hash h) (4 * w).
Proof.
  intros Hiv Hw Hle. refine (stream_correct 32 cubehash_step _ _ _ _ _ (2 ^ 64) _ _ _).
  - lia.
  - intros. rewrite Hiv in *. by apply cubehash_close_spec.
  - intros. unfold CubeSpec.hash. rewrite Hw. apply digest_words_length; [intros; apply length_le_enc|].
    rewrite length_hash_state. lia.
  - intros. apply Forall_concat_map. intros. apply le_enc_bytes.
Defined.

#[export] Instance cubehash224_correct : SphCorrect cubehash224_hash (CubeSpec.hash 224) 28.
Proof. apply (cubehash_correct _ 224 7 (proj1 IV_initial)); [reflexivity|lia]. Defined.

#[export] Instance cubehash256_correct : SphCorrect cubehash256_hash (CubeSpec.hash 256) 32.
Proof. apply (cubehash_correct _ 256 8 (proj1 (proj2 IV_initial))); [reflexivity|lia]. Defined.

#[export] Instance cubehash384_correct : SphCorrect cubehash384_hash (CubeSpec.hash 384) 48.
Proof. apply (cubehash_correct _ 384 12 (proj1 (proj2 (proj2 IV_initial)))); [reflexivity|lia]. Defined.

#[export] Instance cubehash512_correct : SphCorrect cubehash512_hash (CubeSpec.hash 512) 64.
Proof. apply (cubehash_correct _ 512 16 (proj2 (proj2 (proj2 IV_initial)))); [reflexivity|lia]. Defined.

(** CubeHash-512 as the program calls it: for every content of the context
    before the call, every cut of the message into calls and every number [n] of
    trailing bits, the digest is the one of the CubeHash16/32-512 specification. *)
Theorem sph_cubehash512_is_cubehash (cc : sph_cubehash_context) (pieces : list (list Z)) (ub n : Z)
    (Hcc : length (c_buf cc) = 32%nat) (Hp : Forall (Forall byte) pieces) (Hn : 0 ≤ n < 8)
    (Hl : Z.of_nat (length (concat pieces)) < 2 ^ 64) :
  (sph_cubehash512_addbits_and_close (fold_left sph_cubehash512 pieces (sph_cubehash512_init cc)) ub n).2
  = CubeSpec.hash 512 (concat pieces) ub n.
Proof. exact (hash_pieces (Hok := cubehash512_correct) cc pieces ub n Hcc Hp Hn Hl). Qed.

Lemma sph_cubehash512_is_cubehash_witness :
  (sph_cubehash512_addbits_and_close (fold_left sph_cubehash512 [[97]; [98; 99]]
    (sph_cubehash512_init (SphCtx (replicate 32 7) 3 []))) 0xA0 3).2
  = CubeSpec.hash 512 [97; 98; 99] 0xA0 3.
Proof.
  apply (sph_cubehash512_is_cubehash (SphCtx (replicate 32 7) 3 []) [[97]; [98; 99]] 0xA0 3);
    [reflexivity|by apply bytesb_pieces|lia|reflexivity].
Defined.
