(* ===== verification/Keccak.v ===== *)
(** * [keccak.c]: Keccak-224, -256, -384, -512 (64-bit implementation)

    The unrolled permutation works in place: the pi step is never executed, each
    round reads its lanes through one of the index lists [P0] to [P23], and six
    lanes are kept complemented to save negations in chi. The file proves that
    what remains is Keccak-f[1600], whatever the number of unrolled rounds. *)

From S2P Require Import Prelude SphTypes Stream SphHash SphStream.
Local Open Scope Z_scope.

(** ** The round macros *)

Definition RC : list Z :=
  [0x0000000000000001; 0x0000000000008082; 0x800000000000808A; 0x8000000080008000;
   0x000000000000808B; 0x0000000080000001; 0x8000000080008081; 0x8000000000008009;
   0x000000000000008A; 0x0000000000000088; 0x0000000080008009; 0x000000008000000A;
   0x000000008000808B; 0x800000000000008B; 0x8000000000008089; 0x8000000000008003;
   0x8000000000008002; 0x8000000000000080; 0x000000000000800A; 0x800000008000000A;
   0x8000000080008081; 0x8000000000008080; 0x0000000080000001; 0x8000000080008008].

(** [NOT64] *)
Definition NOT64 (s : Z) : Z := SPH_T64 (Z.lnot s).

Definition TH_ELT (c0 c1 c2 c3 c4 d0 d1 d2 d3 d4 : Z) : Z :=
  let tt0 := d0 .^ d1 in let tt1 := d2 .^ d3 in
  let tt0 := tt0 .^ d4 in let tt0 := tt0 .^ tt1 in
  let tt0 := SPH_ROTL64 tt0 1 in let tt2 := c0 .^ c1 in
  let tt3 := c2 .^ c3 in let tt0 := tt0 .^ c4 in
  let tt2 := tt2 .^ tt3 in let t := tt0 .^ tt2 in
  t.

Definition THETA (b : list Z) : list Z :=
  match b with
  | [b00; b01; b02; b03; b04;
     b10; b11; b12; b13; b14;
     b20; b21; b22; b23; b24;
     b30; b31; b32; b33; b34;
     b40; b41; b42; b43; b44] =>
      let t0 := TH_ELT b40 b41 b42 b43 b44 b10 b11 b12 b13 b14 in let t1 := TH_ELT b00 b01 b02 b03 b04 b20 b21 b22 b23 b24 in
      let t2 := TH_ELT b10 b11 b12 b13 b14 b30 b31 b32 b33 b34 in let t3 := TH_ELT b20 b21 b22 b23 b24 b40 b41 b42 b43 b44 in
      let t4 := TH_ELT b30 b31 b32 b33 b34 b00 b01 b02 b03 b04 in let b00 := b00 .^ t0 in
      let b01 := b01 .^ t0 in let b02 := b02 .^ t0 in
      let b03 := b03 .^ t0 in let b04 := b04 .^ t0 in
      let b10 := b10 .^ t1 in let b11 := b11 .^ t1 in
      let b12 := b12 .^ t1 in let b13 := b13 .^ t1 in
      let b14 := b14 .^ t1 in let b20 := b20 .^ t2 in
      let b21 := b21 .^ t2 in let b22 := b22 .^ t2 in
      let b23 := b23 .^ t2 in let b24 := b24 .^ t2 in
      let b30 := b30 .^ t3 in let b31 := b31 .^ t3 in
      let b32 := b32 .^ t3 in let b33 := b33 .^ t3 in
      let b34 := b34 .^ t3 in let b40 := b40 .^ t4 in
      let b41 := b41 .^ t4 in let b42 := b42 .^ t4 in
      let b43 := b43 .^ t4 in let b44 := b44 .^ t4 in
      [b00; b01; b02; b03; b04;
       b10; b11; b12; b13; b14;
       b20; b21; b22; b23; b24;
       b30; b31; b32; b33; b34;
       b40; b41; b42; b43; b44]
  | _ => b
  end.

Definition RHO (b : list Z) : list Z :=
  match b with
  | [b00; b01; b02; b03; b04;
     b10; b11; b12; b13; b14;
     b20; b21; b22; b23; b24;
     b30; b31; b32; b33; b34;
     b40; b41; b42; b43; b44] =>
      let b01 := SPH_ROTL64 b01 36 in let b02 := SPH_ROTL64 b02 3 in
      let b03 := SPH_ROTL64 b03 41 in let b04 := SPH_ROTL64 b04 18 in
      let b10 := SPH_ROTL64 b10 1 in let b11 := SPH_ROTL64 b11 44 in
      let b12 := SPH_ROTL64 b12 10 in let b13 := SPH_ROTL64 b13 45 in
      let b14 := SPH_ROTL64 b14 2 in let b20 := SPH_ROTL64 b20 62 in
      let b21 := SPH_ROTL64 b21 6 in let b22 := SPH_ROTL64 b22 43 in
      let b23 := SPH_ROTL64 b23 15 in let b24 := SPH_ROTL64 b24 61 in
      let b30 := SPH_ROTL64 b30 28 in let b31 := SPH_ROTL64 b31 55 in
      let b32 := SPH_ROTL64 b32 25 in let b33 := SPH_ROTL64 b33 21 in
      let b34 := SPH_ROTL64 b34 56 in let b40 := SPH_ROTL64 b40 27 in
      let b41 := SPH_ROTL64 b41 20 in let b42 := SPH_ROTL64 b42 39 in
      let b43 := SPH_ROTL64 b43 8 in let b44 := SPH_ROTL64 b44 14 in
      [b00; b01; b02; b03; b04;
       b10; b11; b12; b13; b14;
       b20; b21; b22; b23; b24;
       b30; b31; b32; b33; b34;
       b40; b41; b42; b43; b44]
  | _ => b
  end.

Definition KHI_XO (a b c : Z) : Z :=
  let kt := b .| c in
  a .^ kt.

Definition KHI_XA (a b c : Z) : Z :=
  let kt := b .& c in
  a .^ kt.

Definition KHI (b : list Z) : list Z :=
  match b with
  | [b00; b01; b02; b03; b04;
     b10; b11; b12; b13; b14;
     b20; b21; b22; b23; b24;
     b30; b31; b32; b33; b34;
     b40; b41; b42; b43; b44] =>
      let bnn := NOT64 b20 in let c0 := KHI_XO b00 b10 b20 in let c1 := KHI_XO b10 bnn b30 in
      let c2 := KHI_XA b20 b30 b40 in let c3 := KHI_XO b30 b40 b00 in let c4 := KHI_XA b40 b00 b10 in
      let b00 := c0 in let b10 := c1 in let b20 := c2 in
      let b30 := c3 in let b40 := c4 in let bnn := NOT64 b41 in
      let c0 := KHI_XO b01 b11 b21 in let c1 := KHI_XA b11 b21 b31 in let c2 := KHI_XO b21 b31 bnn in
      let c3 := KHI_XO b31 b41 b01 in let c4 := KHI_XA b41 b01 b11 in let b01 := c0 in
      let b11 := c1 in let b21 := c2 in let b31 := c3 in
      let b41 := c4 in let bnn := NOT64 b32 in let c0 := KHI_XO b02 b12 b22 in
      let c1 := KHI_XA b12 b22 b32 in let c2 := KHI_XA b22 bnn b42 in let c3 := KHI_XO bnn b42 b02 in
      let c4 := KHI_XA b42 b02 b12 in let b02 := c0 in let b12 := c1 in
      let b22 := c2 in let b32 := c3 in let b42 := c4 in
      let bnn := NOT64 b33 in let c0 := KHI_XA b03 b13 b23 in let c1 := KHI_XO b13 b23 b33 in
      let c2 := KHI_XO b23 bnn b43 in let c3 := KHI_XA bnn b43 b03 in let c4 := KHI_XO b43 b03 b13 in
      let b03 := c0 in let b13 := c1 in let b23 := c2 in
      let b33 := c3 in let b43 := c4 in let bnn := NOT64 b14 in
      let c0 := KHI_XA b04 bnn b24 in let c1 := KHI_XO bnn b24 b34 in let c2 := KHI_XA b24 b34 b44 in
      let c3 := KHI_XO b34 b44 b04 in let c4 := KHI_XA b44 b04 b14 in let b04 := c0 in
      let b14 := c1 in let b24 := c2 in let b34 := c3 in
      let b44 := c4 in
      [b00; b01; b02; b03; b04;
       b10; b11; b12; b13; b14;
       b20; b21; b22; b23; b24;
       b30; b31; b32; b33; b34;
       b40; b41; b42; b43; b44]
  | _ => b
  end.

(** [IOTA(r)]: [a00] is the first word of the state. *)
Definition IOTA (A : list Z) (r : Z) : list Z :=
  match A with a00 :: A' => let a00 := a00 .^ r in a00 :: A' | [] => [] end.

(** [P0] to [P23]: where the macros' arguments [b00], [b01], ... [b44] are in the
    array [wide], in which [axy] is word [x + 5 * y]. *)
Definition P : list (list nat) :=
  [[0; 5; 10; 15; 20; 1; 6; 11; 16; 21; 2; 7; 12; 17; 22; 3; 8; 13; 18; 23; 4; 9; 14; 19; 24];
   [0; 3; 1; 4; 2; 6; 9; 7; 5; 8; 12; 10; 13; 11; 14; 18; 16; 19; 17; 15; 24; 22; 20; 23; 21];
   [0; 18; 6; 24; 12; 9; 22; 10; 3; 16; 13; 1; 19; 7; 20; 17; 5; 23; 11; 4; 21; 14; 2; 15; 8];
   [0; 17; 9; 21; 13; 22; 14; 1; 18; 5; 19; 6; 23; 10; 2; 11; 3; 15; 7; 24; 8; 20; 12; 4; 16];
   [0; 11; 22; 8; 19; 14; 20; 6; 17; 3; 23; 9; 15; 1; 12; 7; 18; 4; 10; 21; 16; 2; 13; 24; 5];
   [0; 7; 14; 16; 23; 20; 2; 9; 11; 18; 15; 22; 4; 6; 13; 10; 17; 24; 1; 8; 5; 12; 19; 21; 3];
   [0; 10; 20; 5; 15; 2; 12; 22; 7; 17; 4; 14; 24; 9; 19; 1; 11; 21; 6; 16; 3; 13; 23; 8; 18];
   [0; 1; 2; 3; 4; 12; 13; 14; 10; 11; 24; 20; 21; 22; 23; 6; 7; 8; 9; 5; 18; 19; 15; 16; 17];
   [0; 6; 12; 18; 24; 13; 19; 20; 1; 7; 21; 2; 8; 14; 15; 9; 10; 16; 22; 3; 17; 23; 4; 5; 11];
   [0; 9; 13; 17; 21; 19; 23; 2; 6; 10; 8; 12; 16; 20; 4; 22; 1; 5; 14; 18; 11; 15; 24; 3; 7];
   [0; 22; 19; 11; 8; 23; 15; 12; 9; 1; 16; 13; 5; 2; 24; 14; 6; 3; 20; 17; 7; 4; 21; 18; 10];
   [0; 14; 23; 7; 16; 15; 4; 13; 22; 6; 5; 19; 3; 12; 21; 20; 9; 18; 2; 11; 10; 24; 8; 17; 1];
   [0; 20; 15; 10; 5; 4; 24; 19; 14; 9; 3; 23; 18; 13; 8; 2; 22; 17; 12; 7; 1; 21; 16; 11; 6];
   [0; 2; 4; 1; 3; 24; 21; 23; 20; 22; 18; 15; 17; 19; 16; 12; 14; 11; 13; 10; 6; 8; 5; 7; 9];
   [0; 12; 24; 6; 18; 21; 8; 15; 2; 14; 17; 4; 11; 23; 5; 13; 20; 7; 19; 1; 9; 16; 3; 10; 22];
   [0; 13; 21; 9; 17; 8; 16; 4; 12; 20; 11; 24; 7; 15; 3; 19; 2; 10; 23; 6; 22; 5; 18; 1; 14];
   [0; 19; 8; 22; 11; 16; 5; 24; 13; 2; 7; 21; 10; 4; 18; 23; 12; 1; 15; 9; 14; 3; 17; 6; 20];
   [0; 23; 16; 14; 7; 5; 3; 21; 19; 12; 10; 8; 1; 24; 17; 15; 13; 6; 4; 22; 20; 18; 11; 9; 2];
   [0; 15; 5; 20; 10; 3; 18; 8; 23; 13; 1; 16; 6; 21; 11; 4; 19; 9; 24; 14; 2; 17; 7; 22; 12];
   [0; 4; 3; 2; 1; 18; 17; 16; 15; 19; 6; 5; 9; 8; 7; 24; 23; 22; 21; 20; 12; 11; 10; 14; 13];
   [0; 24; 18; 12; 6; 17; 11; 5; 4; 23; 9; 3; 22; 16; 10; 21; 15; 14; 8; 2; 13; 7; 1; 20; 19];
   [0; 21; 17; 13; 9; 11; 7; 3; 24; 15; 22; 18; 14; 5; 1; 8; 4; 20; 16; 12; 19; 10; 6; 2; 23];
   [0; 8; 11; 19; 22; 7; 10; 18; 21; 4; 14; 17; 20; 3; 6; 16; 24; 2; 5; 13; 23; 1; 9; 12; 15];
   [0; 16; 7; 23; 14; 10; 1; 17; 8; 24; 20; 11; 2; 18; 9; 5; 21; 12; 3; 19; 15; 6; 22; 13; 4]]%nat.

(** A macro applied to the variables of [Pr]: read them, compute, write them. *)
Definition gather (p : list nat) (A : list Z) : list Z := map (λ i, A.[i]) p.

Definition scatter (p : list nat) (v A : list Z) : list Z :=
  fold_left (λ A iv, <[iv.1 := iv.2]> A) (combine p v) A.

Definition on (p : list nat) (f : list Z → list Z) (A : list Z) : list Z :=
  scatter p (f (gather p A)) A.

Definition KF_ELT (r s : nat) (A : list Z) (k : Z) : list Z :=
  let A := on (nth r P []) THETA A in
  let A := on (nth r P []) RHO A in
  let A := on (nth s P []) KHI A in
  IOTA A k.

Definition P1_TO_P0 (A : list Z) : list Z :=
  match A with
  | [a00; a10; a20; a30; a40;
     a01; a11; a21; a31; a41;
     a02; a12; a22; a32; a42;
     a03; a13; a23; a33; a43;
     a04; a14; a24; a34; a44] =>
      let t := a01 in let a01 := a30 in let a30 := a33 in let a33 := a23 in
      let a23 := a12 in let a12 := a21 in let a21 := a02 in let a02 := a10 in
      let a10 := a11 in let a11 := a41 in let a41 := a24 in let a24 := a42 in
      let a42 := a04 in let a04 := a20 in let a20 := a22 in let a22 := a32 in
      let a32 := a43 in let a43 := a34 in let a34 := a03 in let a03 := a40 in
      let a40 := a44 in let a44 := a14 in let a14 := a31 in let a31 := a13 in
      let a13 := t in
      [a00; a10; a20; a30; a40;
       a01; a11; a21; a31; a41;
       a02; a12; a22; a32; a42;
       a03; a13; a23; a33; a43;
       a04; a14; a24; a34; a44]
  | _ => A
  end.

Definition P2_TO_P0 (A : list Z) : list Z :=
  match A with
  | [a00; a10; a20; a30; a40;
     a01; a11; a21; a31; a41;
     a02; a12; a22; a32; a42;
     a03; a13; a23; a33; a43;
     a04; a14; a24; a34; a44] =>
      let t := a01 in let a01 := a33 in let a33 := a12 in let a12 := a02 in
      let a02 := a11 in let a11 := a24 in let a24 := a04 in let a04 := a22 in
      let a22 := a43 in let a43 := a03 in let a03 := a44 in let a44 := a31 in
      let a31 := t in let t := a10 in let a10 := a41 in let a41 := a42 in
      let a42 := a20 in let a20 := a32 in let a32 := a34 in let a34 := a40 in
      let a40 := a14 in let a14 := a13 in let a13 := a30 in let a30 := a23 in
      let a23 := a21 in let a21 := t in
      [a00; a10; a20; a30; a40;
       a01; a11; a21; a31; a41;
       a02; a12; a22; a32; a42;
       a03; a13; a23; a33; a43;
       a04; a14; a24; a34; a44]
  | _ => A
  end.

Definition P4_TO_P0 (A : list Z) : list Z :=
  match A with
  | [a00; a10; a20; a30; a40;
     a01; a11; a21; a31; a41;
     a02; a12; a22; a32; a42;
     a03; a13; a23; a33; a43;
     a04; a14; a24; a34; a44] =>
      let t := a01 in let a01 := a12 in let a12 := a11 in let a11 := a04 in
      let a04 := a43 in let a43 := a44 in let a44 := t in let t := a02 in
      let a02 := a24 in let a24 := a22 in let a22 := a03 in let a03 := a31 in
      let a31 := a33 in let a33 := t in let t := a10 in let a10 := a42 in
      let a42 := a32 in let a32 := a40 in let a40 := a13 in let a13 := a23 in
      let a23 := t in let t := a14 in let a14 := a30 in let a30 := a21 in
      let a21 := a41 in let a41 := a20 in let a20 := a34 in let a34 := t in
      [a00; a10; a20; a30; a40;
       a01; a11; a21; a31; a41;
       a02; a12; a22; a32; a42;
       a03; a13; a23; a33; a43;
       a04; a14; a24; a34; a44]
  | _ => A
  end.

Definition P6_TO_P0 (A : list Z) : list Z :=
  match A with
  | [a00; a10; a20; a30; a40;
     a01; a11; a21; a31; a41;
     a02; a12; a22; a32; a42;
     a03; a13; a23; a33; a43;
     a04; a14; a24; a34; a44] =>
      let t := a01 in let a01 := a02 in let a02 := a04 in let a04 := a03 in
      let a03 := t in let t := a10 in let a10 := a20 in let a20 := a40 in
      let a40 := a30 in let a30 := t in let t := a11 in let a11 := a22 in
      let a22 := a44 in let a44 := a33 in let a33 := t in let t := a12 in
      let a12 := a24 in let a24 := a43 in let a43 := a31 in let a31 := t in
      let t := a13 in let a13 := a21 in let a21 := a42 in let a42 := a34 in
      let a34 := t in let t := a14 in let a14 := a23 in let a23 := a41 in
      let a41 := a32 in let a32 := t in
      [a00; a10; a20; a30; a40;
       a01; a11; a21; a31; a41;
       a02; a12; a22; a32; a42;
       a03; a13; a23; a33; a43;
       a04; a14; a24; a34; a44]
  | _ => A
  end.

Definition P8_TO_P0 (A : list Z) : list Z :=
  match A with
  | [a00; a10; a20; a30; a40;
     a01; a11; a21; a31; a41;
     a02; a12; a22; a32; a42;
     a03; a13; a23; a33; a43;
     a04; a14; a24; a34; a44] =>
      let t := a01 in let a01 := a11 in let a11 := a43 in let a43 := t in
      let t := a02 in let a02 := a22 in let a22 := a31 in let a31 := t in
      let t := a03 in let a03 := a33 in let a33 := a24 in let a24 := t in
      let t := a04 in let a04 := a44 in let a44 := a12 in let a12 := t in
      let t := a10 in let a10 := a32 in let a32 := a13 in let a13 := t in
      let t := a14 in let a14 := a21 in let a21 := a20 in let a20 := t in
      let t := a23 in let a23 := a42 in let a42 := a40 in let a40 := t in
      let t := a30 in let a30 := a41 in let a41 := a34 in let a34 := t in
      [a00; a10; a20; a30; a40;
       a01; a11; a21; a31; a41;
       a02; a12; a22; a32; a42;
       a03; a13; a23; a33; a43;
       a04; a14; a24; a34; a44]
  | _ => A
  end.

Definition P12_TO_P0 (A : list Z) : list Z :=
  match A with
  | [a00; a10; a20; a30; a40;
     a01; a11; a21; a31; a41;
     a02; a12; a22; a32; a42;
     a03; a13; a23; a33; a43;
     a04; a14; a24; a34; a44] =>
      let t := a01 in let a01 := a04 in let a04 := t in let t := a02 in
      let a02 := a03 in let a03 := t in let t := a10 in let a10 := a40 in
      let a40 := t in let t := a11 in let a11 := a44 in let a44 := t in
      let t := a12 in let a12 := a43 in let a43 := t in let t := a13 in
      let a13 := a42 in let a42 := t in let t := a14 in let a14 := a41 in
      let a41 := t in let t := a20 in let a20 := a30 in let a30 := t in
      let t := a21 in let a21 := a34 in let a34 := t in let t := a22 in
      let a22 := a33 in let a33 := t in let t := a23 in let a23 := a32 in
      let a32 := t in let t := a24 in let a24 := a31 in let a31 := t in
      [a00; a10; a20; a30; a40;
       a01; a11; a21; a31; a41;
       a02; a12; a22; a32; a42;
       a03; a13; a23; a33; a43;
       a04; a14; a24; a34; a44]
  | _ => A
  end.

(** [KECCAK_F_1600] for each value of [SPH_KECCAK_UNROLL]; 8 is the one compiled. *)
Definition KECCAK_F_1600_1 (A : list Z) : list Z :=
  fold_left (λ A j,
    let A := KF_ELT 0 1 A RC.[j + 0] in
    P1_TO_P0 A) [0; 1; 2; 3; 4; 5; 6; 7; 8; 9; 10; 11; 12; 13; 14; 15; 16; 17; 18; 19; 20; 21; 22; 23]%nat A.

Definition KECCAK_F_1600_2 (A : list Z) : list Z :=
  fold_left (λ A j,
    let A := KF_ELT 0 1 A RC.[j + 0] in
    let A := KF_ELT 1 2 A RC.[j + 1] in
    P2_TO_P0 A) [0; 2; 4; 6; 8; 10; 12; 14; 16; 18; 20; 22]%nat A.

Definition KECCAK_F_1600_4 (A : list Z) : list Z :=
  fold_left (λ A j,
    let A := KF_ELT 0 1 A RC.[j + 0] in
    let A := KF_ELT 1 2 A RC.[j + 1] in
    let A := KF_ELT 2 3 A RC.[j + 2] in
    let A := KF_ELT 3 4 A RC.[j + 3] in
    P4_TO_P0 A) [0; 4; 8; 12; 16; 20]%nat A.

Definition KECCAK_F_1600_6 (A : list Z) : list Z :=
  fold_left (λ A j,
    let A := KF_ELT 0 1 A RC.[j + 0] in
    let A := KF_ELT 1 2 A RC.[j + 1] in
    let A := KF_ELT 2 3 A RC.[j + 2] in
    let A := KF_ELT 3 4 A RC.[j + 3] in
    let A := KF_ELT 4 5 A RC.[j + 4] in
    let A := KF_ELT 5 6 A RC.[j + 5] in
    P6_TO_P0 A) [0; 6; 12; 18]%nat A.

Definition KECCAK_F_1600 (A : list Z) : list Z :=
  fold_left (λ A j,
    let A := KF_ELT 0 1 A RC.[j + 0] in
    let A := KF_ELT 1 2 A RC.[j + 1] in
    let A := KF_ELT 2 3 A RC.[j + 2] in
    let A := KF_ELT 3 4 A RC.[j + 3] in
    let A := KF_ELT 4 5 A RC.[j + 4] in
    let A := KF_ELT 5 6 A RC.[j + 5] in
    let A := KF_ELT 6 7 A RC.[j + 6] in
    let A := KF_ELT 7 8 A RC.[j + 7] in
    P8_TO_P0 A) [0; 8; 16]%nat A.

Definition KECCAK_F_1600_12 (A : list Z) : list Z :=
  fold_left (λ A j,
    let A := KF_ELT 0 1 A RC.[j + 0] in
    let A := KF_ELT 1 2 A RC.[j + 1] in
    let A := KF_ELT 2 3 A RC.[j + 2] in
    let A := KF_ELT 3 4 A RC.[j + 3] in
    let A := KF_ELT 4 5 A RC.[j + 4] in
    let A := KF_ELT 5 6 A RC.[j + 5] in
    let A := KF_ELT 6 7 A RC.[j + 6] in
    let A := KF_ELT 7 8 A RC.[j + 7] in
    let A := KF_ELT 8 9 A RC.[j + 8] in
    let A := KF_ELT 9 10 A RC.[j + 9] in
    let A := KF_ELT 10 11 A RC.[j + 10] in
    let A := KF_ELT 11 12 A RC.[j + 11] in
    P12_TO_P0 A) [0; 12]%nat A.

Definition KECCAK_F_1600_0 (A : list Z) : list Z :=
  let A := KF_ELT 0 1 A RC.[0] in
  let A := KF_ELT 1 2 A RC.[1] in
  let A := KF_ELT 2 3 A RC.[2] in
  let A := KF_ELT 3 4 A RC.[3] in
  let A := KF_ELT 4 5 A RC.[4] in
  let A := KF_ELT 5 6 A RC.[5] in
  let A := KF_ELT 6 7 A RC.[6] in
  let A := KF_ELT 7 8 A RC.[7] in
  let A := KF_ELT 8 9 A RC.[8] in
  let A := KF_ELT 9 10 A RC.[9] in
  let A := KF_ELT 10 11 A RC.[10] in
  let A := KF_ELT 11 12 A RC.[11] in
  let A := KF_ELT 12 13 A RC.[12] in
  let A := KF_ELT 13 14 A RC.[13] in
  let A := KF_ELT 14 15 A RC.[14] in
  let A := KF_ELT 15 16 A RC.[15] in
  let A := KF_ELT 16 17 A RC.[16] in
  let A := KF_ELT 17 18 A RC.[17] in
  let A := KF_ELT 18 19 A RC.[18] in
  let A := KF_ELT 19 20 A RC.[19] in
  let A := KF_ELT 20 21 A RC.[20] in
  let A := KF_ELT 21 22 A RC.[21] in
  let A := KF_ELT 22 23 A RC.[22] in
  let A := KF_ELT 23 0 A RC.[23] in
  A.

(** ** The streaming functions *)

(** [sph_keccak_context]: the state is the array [u.wide] and the field [lim]. *)
Definition sph_keccak_context : Type := sph_ctx (list Z * Z).

(** [INPUT_BUF(size)] *)
Definition INPUT_BUF (size : nat) (wide buf : list Z) : list Z :=
  fold_left (λ wide j, <[j := wide.[j] .^ sph_dec64le (drop (8 * j) buf)]> wide) (seq 0 (size / 8)) wide.

(** The state [keccak_init] writes: zeros, except the complemented lanes. *)
Definition keccak_init_wide : list Z :=
  let wide := replicate 25 0 in
  let wide := <[1%nat := 0xFFFFFFFFFFFFFFFF]> wide in
  let wide := <[2%nat := 0xFFFFFFFFFFFFFFFF]> wide in
  let wide := <[8%nat := 0xFFFFFFFFFFFFFFFF]> wide in
  let wide := <[12%nat := 0xFFFFFFFFFFFFFFFF]> wide in
  let wide := <[17%nat := 0xFFFFFFFFFFFFFFFF]> wide in
  <[20%nat := 0xFFFFFFFFFFFFFFFF]> wide.

Definition keccak_init (kc : sph_keccak_context) (out_size : Z) : sph_keccak_context :=
  SphCtx (c_buf kc) 0 (keccak_init_wide, 200 - (out_size >> 2)).

(** What [keccak_core] does when [lim] bytes are in the buffer. *)
Definition keccak_step (lim : nat) (st : list Z * Z) (buf : list Z) : list Z * Z :=
  (KECCAK_F_1600 (INPUT_BUF lim st.1 buf), st.2).

Definition keccak_core (kc : sph_keccak_context) (data : list Z) (lim : nat) : sph_keccak_context :=
  ctx_core lim (keccak_step lim) kc data.

(** The end of the lane complement: [kc->u.wide[i] = ~kc->u.wide[i]]. *)
Definition keccak_uncomplement (wide : list Z) : list Z :=
  fold_left (λ wide i, <[i := NOT64 wide.[i]]> wide) [1; 2; 8; 12; 17; 20]%nat wide.

(** The padding [keccak_close] writes in the local buffer [u.tmp], whose content
    on entry is [u0], and its length. *)
Definition keccak_tail (lim : nat) (u0 : list Z) (ptr : nat) (ub n : Z) : list Z :=
  let eb := (0x100 .| (ub .& 0xFF)) >> (8 - n) in
  if (ptr =? lim - 1)%nat then
    if n =? 7 then
      let tmp := <[0%nat := uchar eb]> u0 in
      let tmp := memset tmp 1 0 (lim - 1) in
      let tmp := <[lim := 0x80]> tmp in
      take (1 + lim) tmp
    else
      let tmp := <[0%nat := uchar (eb .| 0x80)]> u0 in
      take 1 tmp
  else
    let j := (lim - ptr)%nat in
    let tmp := <[0%nat := uchar eb]> u0 in
    let tmp := memset tmp 1 0 (j - 2) in
    let tmp := <[(j - 1)%nat := 0x80]> tmp in
    take j tmp.

(** [DEFCLOSE(d, lim)] *)
Definition keccak_close (d lim : nat) (u0 : list Z) (kc : sph_keccak_context) (ub n : Z)
    : sph_keccak_context * list Z :=
  let kc := keccak_core kc (keccak_tail lim u0 (c_ptr kc) ub n) lim in
  let wide := keccak_uncomplement (c_state kc).1 in
  let tmp := concat (map sph_enc64le (take ((d + 7) / 8) wide)) in
  (keccak_init (SphCtx (c_buf kc) (c_ptr kc) (wide, (c_state kc).2)) (Z.of_nat d << 3), take d tmp).

Definition sph_keccak224_init (cc : sph_keccak_context) : sph_keccak_context :=
  keccak_init cc 224.

Definition sph_keccak224 (cc : sph_keccak_context) (data : list Z) : sph_keccak_context :=
  keccak_core cc data 144.

Definition sph_keccak224_addbits_and_close (u0 : list Z) (cc : sph_keccak_context) (ub n : Z)
    : sph_keccak_context * list Z :=
  keccak_close 28 144 u0 cc ub n.

Definition sph_keccak224_close (u0 : list Z) (cc : sph_keccak_context) : sph_keccak_context * list Z :=
  sph_keccak224_addbits_and_close u0 cc 0 0.

Definition sph_keccak256_init (cc : sph_keccak_context) : sph_keccak_context :=
  keccak_init cc 256.

Definition sph_keccak256 (cc : sph_keccak_context) (data : list Z) : sph_keccak_context :=
  keccak_core cc data 136.

Definition sph_keccak256_addbits_and_close (u0 : list Z) (cc : sph_keccak_context) (ub n : Z)
    : sph_keccak_context * list Z :=
  keccak_close 32 136 u0 cc ub n.

Definition sph_keccak256_close (u0 : list Z) (cc : sph_keccak_context) : sph_keccak_context * list Z :=
  sph_keccak256_addbits_and_close u0 cc 0 0.

Definition sph_keccak384_init (cc : sph_keccak_context) : sph_keccak_context :=
  keccak_init cc 384.

Definition sph_keccak384 (cc : sph_keccak_context) (data : list Z) : sph_keccak_context :=
  keccak_core cc data 104.

Definition sph_keccak384_addbits_and_close (u0 : list Z) (cc : sph_keccak_context) (ub n : Z)
    : sph_keccak_context * list Z :=
  keccak_close 48 104 u0 cc ub n.

Definition sph_keccak384_close (u0 : list Z) (cc : sph_keccak_context) : sph_keccak_context * list Z :=
  sph_keccak384_addbits_and_close u0 cc 0 0.

Definition sph_keccak512_init (cc : sph_keccak_context) : sph_keccak_context :=
  keccak_init cc 512.

Definition sph_keccak512 (cc : sph_keccak_context) (data : list Z) : sph_keccak_context :=
  keccak_core cc data 72.

Definition sph_keccak512_addbits_and_close (u0 : list Z) (cc : sph_keccak_context) (ub n : Z)
    : sph_keccak_context * list Z :=
  keccak_close 64 72 u0 cc ub n.

Definition sph_keccak512_close (u0 : list Z) (cc : sph_keccak_context) : sph_keccak_context * list Z :=
  sph_keccak512_addbits_and_close u0 cc 0 0.

(** ** The Keccak specification

    The state is an array of 25 lanes, lane [A[x, y]] at index [x + 5 * y]. *)

Module KeccakSpec.

Definition rot (x n : Z) : Z := ((x << n) .| (x >> (64 - n))) mod 2 ^ 64.
Definition compl (x : Z) : Z := 2 ^ 64 - 1 - x.

Definition lane (A : list Z) (x y : nat) : Z := A.[(x mod 5 + 5 * (y mod 5))%nat].

Definition make (f : nat → nat → Z) : list Z :=
  map (λ i, f (i mod 5)%nat (i / 5)%nat) (seq 0 25).

Definition theta (A : list Z) : list Z :=
  let C x := lane A x 0 .^ lane A x 1 .^ lane A x 2 .^ lane A x 3 .^ lane A x 4 in
  let D x := C (x + 4)%nat .^ rot (C (x + 1)%nat) 1 in
  make (λ x y, lane A x y .^ D x).

(** The rotation offsets: lane [(1, 0)], then 23 moves along
    [(x, y) -> (y, 2x + 3y)], the [t]-th lane rotated by [(t+1)(t+2)/2]. *)
Definition offsets : list Z :=
  (fold_left (λ '(r, (x, y)) t,
      (<[(x + 5 * y)%nat := ((Z.of_nat t + 1) * (Z.of_nat t + 2) / 2) mod 64]> r,
       (y, (2 * x + 3 * y) mod 5)%nat))
    (seq 0 24) (replicate 25 0, (1, 0)%nat)).1.

Definition rho (A : list Z) : list Z := make (λ x y, rot (lane A x y) (lane offsets x y)).

(** [B[y, 2x + 3y] = A[x, y]], that is [B[x, y] = A[x + 3y, x]]. *)
Definition pi (A : list Z) : list Z := make (λ x y, lane A (x + 3 * y) x).

Definition chi (A : list Z) : list Z :=
  make (λ x y, lane A x y .^ (compl (lane A (x + 1) y) .& lane A (x + 2) y)).

Definition iota (A : list Z) (k : Z) : list Z := <[0%nat := A.[0] .^ k]> A.

Definition round (A : list Z) (k : Z) : list Z := iota (chi (pi (rho (theta A)))) k.

(** The round constants, from the shift register of the specification: bit [t]
    of the register's output sequence, and bit [2^j - 1] of constant [i] is
    output [7 i + j]. *)
Definition lfsr (s : Z) : Z := if Z.testbit (2 * s) 8 then (2 * s) .^ 0x171 else 2 * s.
Definition rc (t : nat) : bool := Z.testbit (Nat.iter t lfsr 1) 0.
Definition RC (i : nat) : Z :=
  fold_left (λ c j, if rc (7 * i + j) then Z.setbit c (2 ^ Z.of_nat j - 1) else c) (seq 0 7) 0.

Definition f (A : list Z) : list Z := fold_left (λ A i, round A (RC i)) (seq 0 24) A.

(** The sponge with a rate of [r] bytes. *)
Definition input (A b : list Z) : list Z :=
  zip_with Z.lxor A (map le_dec (chunks 8 (length b / 8) b) ++ replicate (25 - length b / 8) 0).

Definition block (A b : list Z) : list Z := f (input A b).

(** Padding, on bits with the first bit of a byte its least significant: the [n]
    bits that end the message, a one, zeros, and a one, to a multiple of [8 r]. *)
Definition tail (r : nat) (len : nat) (ub n : Z) : list Z :=
  let z := (8 * Z.of_nat r - 2 - n - 8 * Z.of_nat (len mod r)) mod (8 * Z.of_nat r) in
  le_enc (Z.to_nat ((n + 2 + z) / 8)) ((ub / 2 ^ (8 - n)) mod 2 ^ n + 2 ^ n + 2 ^ (n + 1 + z)).

Definition hash (r d : nat) (m : list Z) (ub n : Z) : list Z :=
  let A := fold_left block (full_blocks r (m ++ tail r (length m) ub n)) (replicate 25 0) in
  take d (concat (map (le_enc 8) A)).

End KeccakSpec.

(** ** In-place application through an index list *)

Lemma gather_perm p s A : gather (map (λ j, nth j p 0%nat) s) A = map (λ j, A.[nth j p 0%nat]) s.
Proof. unfold gather. by rewrite map_map. Qed.

Lemma nth_gather p A j : (j < length p)%nat → (gather p A).[j] = A.[nth j p 0%nat].
Proof.
  intros Hj. unfold gather. rewrite (nth_indep _ 0 (A.[0%nat])) by (by rewrite length_map).
  apply (map_nth (λ i, A.[i])).
Qed.

Lemma length_gather p A : length (gather p A) = length p.
Proof. apply length_map. Qed.

Lemma length_scatter p v A : length (scatter p v A) = length A.
Proof.
  unfold scatter. apply (fold_left_inv (λ B, length B = length A)); [done|].
  intros B x HB. by rewrite length_insert.
Qed.

Lemma scatter_other p v A i : i ∉ p → (scatter p v A).[i] = A.[i].
Proof.
  revert v A. induction p as [|j p IH]; intros v A Hi; [done|]. destruct v as [|x v]; [done|].
  apply not_elem_of_cons in Hi as [Hij Hi]. unfold scatter in *. simpl. rewrite IH by done.
  rewrite !nth_lookup. by rewrite list_lookup_insert_ne.
Qed.

Lemma gather_scatter p v A :
  NoDup p → length v = length p → Forall (λ i, (i < length A)%nat) p →
  gather p (scatter p v A) = v.
Proof.
  intros Hp. revert v A. induction Hp as [|j p Hj Hp IH]; intros v A Hl Hlt;
    [by destruct v|]. destruct v as [|x v]; [done|]. simpl.
  apply Forall_cons in Hlt as [Hjl Hlt]. f_equal.
  - change (scatter (j :: p) (x :: v) A) with (scatter p v (<[j := x]> A)).
    rewrite scatter_other by done. rewrite nth_lookup.
    by rewrite list_lookup_insert_eq.
  - apply IH; [simpl in Hl; lia|]. eapply Forall_impl; [done|]. intros. by rewrite length_insert.
Qed.

Lemma gather_on p f A :
  NoDup p → length (f (gather p A)) = length p → Forall (λ i, (i < length A)%nat) p →
  gather p (on p f A) = f (gather p A).
Proof. intros. by apply gather_scatter. Qed.

(** The index lists: permutations of the 25 lanes, each the previous one followed
    by the same permutation [piB], and lane 0 is always first. *)
Definition piB : list nat :=
  [0; 15; 5; 20; 10; 6; 21; 11; 1; 16; 12; 2; 17; 7; 22; 18; 8; 23; 13; 3; 24; 14; 4; 19; 9]%nat.

Definition index_ok (r s : nat) : bool :=
  let p := nth r P [] in let q := nth s P [] in
  bool_decide (NoDup p) && bool_decide (NoDup q) && forallb (λ i, (i <? 25)%nat) (p ++ q) &&
  bool_decide (length p = 25%nat) && bool_decide (q = map (λ j, nth j p 0%nat) piB) &&
  bool_decide (head q = Some 0%nat).

Lemma index_all : forallb (λ r, index_ok r ((r + 1) mod 24)) (seq 0 24) = true.
Proof. vm_compute. reflexivity. Qed.

(** A round seen through the index lists: the same function at every position. *)
Definition view_round (v : list Z) (k : Z) : list Z := IOTA (KHI (gather piB (RHO (THETA v)))) k.

Lemma length_THETA v : length v = 25%nat → length (THETA v) = 25%nat.
Proof. intros. do 25 (destruct v as [|? v]; [discriminate|]). destruct v; [reflexivity|discriminate]. Qed.

Lemma length_RHO v : length v = 25%nat → length (RHO v) = 25%nat.
Proof. intros. do 25 (destruct v as [|? v]; [discriminate|]). destruct v; [reflexivity|discriminate]. Qed.

Lemma length_KHI v : length v = 25%nat → length (KHI v) = 25%nat.
Proof. intros. do 25 (destruct v as [|? v]; [discriminate|]). destruct v; [reflexivity|discriminate]. Qed.

Lemma length_on p f A : length (on p f A) = length A.
Proof. apply length_scatter. Qed.

Lemma length_IOTA A k : length (IOTA A k) = length A.
Proof. by destruct A. Qed.

Lemma length_KF_ELT r s A k : length (KF_ELT r s A k) = length A.
Proof. unfold KF_ELT. by rewrite length_IOTA, !length_on. Qed.

Lemma gather_IOTA q A k :
  NoDup q → head q = Some 0%nat → A ≠ [] → gather q (IOTA A k) = IOTA (gather q A) k.
Proof.
  intros Hq Hh HA. destruct q as [|j q]; [done|]. injection Hh as ->. destruct A as [|a A]; [done|].
  simpl. f_equal. apply NoDup_cons in Hq as [H0 _]. unfold gather. apply map_ext_in.
  intros i Hi%list_elem_of_In. destruct i; [done|reflexivity].
Qed.

Lemma KF_view r A k :
  (r < 24)%nat → length A = 25%nat →
  gather (nth ((r + 1) mod 24) P []) (KF_ELT r ((r + 1) mod 24) A k) =
  view_round (gather (nth r P []) A) k.
Proof.
  intros Hr HA. pose proof (proj1 (forallb_forall _ _) index_all r) as Hok.
  specialize (Hok ltac:(apply list_elem_of_In, elem_of_seq; lia)). unfold index_ok in Hok.
  set (q := nth ((r + 1) mod 24) P []) in *. unfold KF_ELT. fold q. set (p := nth r P []) in *.
  rewrite !andb_true_iff in Hok. destruct Hok as [[[[[Hp Hq] Hlt] Hl] Hpi] Hh].
  apply bool_decide_eq_true in Hp, Hq, Hl, Hpi, Hh.
  assert (∀ (B : list Z) i, length B = 25%nat → i ∈ p ++ q → (i < length B)%nat) as Hall.
  { intros B i HB Hi%list_elem_of_In. apply (proj1 (forallb_forall _ _) Hlt), Nat.ltb_lt in Hi. lia. }
  assert (length q = 25%nat) as Hlq by (rewrite Hpi; by rewrite length_map).
  cbv zeta. set (A1 := on p THETA A). set (A2 := on p RHO A1).
  assert (length A1 = 25%nat ∧ length A2 = 25%nat) as [HA1 HA2] by (unfold A2, A1; by rewrite !length_on).
  rewrite gather_IOTA; [|done|done|intros E; apply (f_equal length) in E; rewrite length_on in E; simpl in E; lia].
  rewrite gather_on; [|done|rewrite length_KHI; rewrite ?length_gather; done|].
  2:{ apply Forall_forall. intros i Hi. apply Hall; [done|]. apply elem_of_app. by right. }
  assert (∀ B : list Z, length B = 25%nat → Forall (λ i, (i < length B)%nat) p) as Hpl.
  { intros B HB. apply Forall_forall. intros i Hi. apply Hall; [done|]. apply elem_of_app. by left. }
  unfold view_round.
  rewrite <- (gather_on p THETA A) by (rewrite ?length_THETA; rewrite ?length_gather; auto). fold A1.
  rewrite <- (gather_on p RHO A1) by (rewrite ?length_RHO; rewrite ?length_gather; auto). fold A2.
  do 2 f_equal. rewrite Hpi, gather_perm. unfold gather at 1. apply map_ext_in.
  intros j Hj%list_elem_of_In. symmetry. apply nth_gather. rewrite Hl.
  apply Nat.ltb_lt. revert j Hj. apply (Forall_forall (λ j, (j <? 25)%nat = true) piB).
  repeat (apply Forall_cons; split; [done|]). by apply Forall_nil.
Qed.

(** ** The lane complement

    The code's state is the specification's with six lanes complemented. The
    linear steps carry the mask along; chi is rewritten to absorb it. *)

Definition F64 : Z := 0xFFFFFFFFFFFFFFFF.

Definition xl : list Z → list Z → list Z := zip_with Z.lxor.

Lemma F64_bit i : 0 ≤ i < 64 → Z.testbit F64 i = true.
Proof. intros. change F64 with (Z.ones 64). by apply Z.ones_spec_low. Qed.

Lemma F64_word : word 64 F64.
Proof. done. Qed.

Lemma NOT64_word x : word 64 (NOT64 x).
Proof. apply SPH_T64_word. Qed.

#[local] Hint Resolve NOT64_word F64_word : words.

Lemma NOT64_bit x i : 0 ≤ i < 64 → Z.testbit (NOT64 x) i = negb (Z.testbit x i).
Proof.
  intros. unfold NOT64. rewrite SPH_T64_mod, Z.mod_pow2_bits_low, Z.lnot_spec by lia. done.
Qed.

Lemma compl_NOT64 x : word 64 x → KeccakSpec.compl x = NOT64 x.
Proof.
  intros Hx. unfold KeccakSpec.compl, NOT64. rewrite SPH_T64_mod.
  unfold word in Hx. rewrite Z.lnot_eq_pred_opp. symmetry.
  rewrite <- (Z_mod_plus_full _ 1), Z.mod_small; lia.
Qed.

Lemma NOT64_F64 x : word 64 x → NOT64 x = F64 .^ x.
Proof.
  intros. apply (word_bits_eq 64); auto with words. intros i Hi.
  rewrite Z.lxor_spec, F64_bit, NOT64_bit by done. done.
Qed.

Lemma ROTL64_xor x y n :
  0 < n < 64 → word 64 x → word 64 y →
  SPH_ROTL64 (x .^ y) n = SPH_ROTL64 x n .^ SPH_ROTL64 y n.
Proof.
  intros. apply (word_bits_eq 64); auto with words. intros i Hi.
  by rewrite Z.lxor_spec, !SPH_ROTL64_testbit, Z.lxor_spec by (assumption || auto with words).
Qed.

(** The mask in the order of the macros' arguments, after theta, and after pi. *)
Definition mask0 : list Z := gather (nth 0 P []) keccak_init_wide.
Definition mask1 : list Z := THETA mask0.
Definition mask2 : list Z := gather piB mask1.

Ltac split25 v := do 25 (destruct v as [|? v]; [discriminate|]); destruct v; [|discriminate].

Ltac split_words H :=
  repeat match type of H with Forall _ (_ :: _) =>
    let Hh := fresh "Hw" in apply Forall_cons in H as [Hh H] end; clear H.

Ltac lanes := repeat (apply (f_equal2 cons); [|]); [..|reflexivity].

Lemma TH_ELT_xor c0 c1 c2 c3 c4 d0 d1 d2 d3 d4 c0' c1' c2' c3' c4' d0' d1' d2' d3' d4' :
  word 64 d0 → word 64 d1 → word 64 d2 → word 64 d3 → word 64 d4 →
  word 64 d0' → word 64 d1' → word 64 d2' → word 64 d3' → word 64 d4' →
  TH_ELT (c0 .^ c0') (c1 .^ c1') (c2 .^ c2') (c3 .^ c3') (c4 .^ c4')
    (d0 .^ d0') (d1 .^ d1') (d2 .^ d2') (d3 .^ d3') (d4 .^ d4') =
  TH_ELT c0 c1 c2 c3 c4 d0 d1 d2 d3 d4 .^ TH_ELT c0' c1' c2' c3' c4' d0' d1' d2' d3' d4'.
Proof.
  intros. unfold TH_ELT. cbv zeta. rewrite !ROTL64_xor by (lia || auto 10 with words). bitwise.
Qed.

Lemma xor4 a b c d : a .^ b .^ (c .^ d) = a .^ c .^ (b .^ d).
Proof. bitwise. Qed.

Lemma THETA_xor u v :
  length u = 25%nat → length v = 25%nat → Forall (word 64) u → Forall (word 64) v →
  THETA (xl u v) = xl (THETA u) (THETA v).
Proof.
  intros Hu Hv Wu Wv. split25 u. split25 v. split_words Wu. split_words Wv.
  cbn [xl zip_with THETA]. cbv zeta. rewrite !TH_ELT_xor by assumption.
  unfold xl. cbn [zip_with]. lanes; apply xor4.
Qed.

Lemma RHO_xor u v :
  length u = 25%nat → length v = 25%nat → Forall (word 64) u → Forall (word 64) v →
  RHO (xl u v) = xl (RHO u) (RHO v).
Proof.
  intros Hu Hv Wu Wv. split25 u. split25 v. split_words Wu. split_words Wv.
  unfold xl. cbn [zip_with RHO]. cbv zeta. lanes; try reflexivity; apply ROTL64_xor; (lia || assumption).
Qed.

Lemma nth_xl u v i : length u = length v → (xl u v).[i] = u.[i] .^ v.[i].
Proof.
  unfold xl. revert v i. induction u as [|a u IH]; intros [|b v] i H; try done.
  - by destruct i.
  - destruct i; [done|]. simpl. apply IH. simpl in H. lia.
Qed.

Lemma gather_xl p u v : length u = length v → gather p (xl u v) = xl (gather p u) (gather p v).
Proof.
  intros H. unfold gather. induction p as [|i p IH]; [done|]. simpl. by rewrite IH, nth_xl.
Qed.

Lemma gather_words p A : Forall (word 64) A → Forall (word 64) (gather p A).
Proof. intros. apply Forall_map, Forall_true. intros. by apply nth_word. Qed.

Lemma rot_ROTL64 x n : KeccakSpec.rot x n = SPH_ROTL64 x n.
Proof. unfold KeccakSpec.rot, SPH_ROTL64. by rewrite SPH_T64_mod. Qed.

Lemma TH_ELT_spec c0 c1 c2 c3 c4 d0 d1 d2 d3 d4 :
  TH_ELT c0 c1 c2 c3 c4 d0 d1 d2 d3 d4 =
  c0 .^ c1 .^ c2 .^ c3 .^ c4 .^ SPH_ROTL64 (d0 .^ d1 .^ d2 .^ d3 .^ d4) 1.
Proof.
  unfold TH_ELT. cbv zeta.
  replace (d0 .^ d1 .^ d4 .^ (d2 .^ d3)) with (d0 .^ d1 .^ d2 .^ d3 .^ d4) by bitwise. bitwise.
Qed.

Abbreviation view A := (gather (nth 0 P []) A).

Lemma theta_view A : length A = 25%nat → THETA (view A) = view (KeccakSpec.theta A).
Proof.
  intros HA. split25 A. cbn -[TH_ELT Z.lxor KeccakSpec.rot].
  rewrite !TH_ELT_spec, !rot_ROTL64. reflexivity.
Qed.

Lemma rot_0 x : word 64 x → KeccakSpec.rot x 0 = x.
Proof.
  intros Hx. unfold KeccakSpec.rot. change (64 - 0) with 64.
  assert (x >> 64 = 0) as -> by (rewrite Z.shiftr_div_pow2 by lia; by apply Z.div_small).
  rewrite Z.lor_0_r, Z.shiftl_0_r. by apply Z.mod_small.
Qed.

Lemma rho_view A :
  length A = 25%nat → Forall (word 64) A → RHO (view A) = view (KeccakSpec.rho A).
Proof.
  intros HA WA. split25 A. split_words WA.
  unfold KeccakSpec.rho.
  assert (KeccakSpec.offsets = [0; 1; 62; 28; 27; 36; 44; 6; 55; 20; 3; 10; 43; 25; 39; 41; 45; 15;
    21; 8; 18; 2; 61; 56; 14]) as -> by (vm_compute; reflexivity).
  cbn -[KeccakSpec.rot SPH_ROTL64]. rewrite rot_0, !rot_ROTL64 by assumption. reflexivity.
Qed.

Lemma pi_view A : length A = 25%nat → gather piB (view A) = view (KeccakSpec.pi A).
Proof. intros HA. split25 A. reflexivity. Qed.

Lemma iota_view A k :
  length A = 25%nat → IOTA (xl mask0 (view A)) k = xl mask0 (view (KeccakSpec.iota A k)).
Proof. intros HA. split25 A. cbn. lanes; try reflexivity. Qed.

(** One lane of chi: an equality of words, bit by bit. *)
Ltac chi_lane :=
  rewrite ?compl_NOT64 by assumption;
  apply (word_bits_eq 64); [done|auto 10 with words|auto 10 with words|];
  let i := fresh "i" in let Hi := fresh "Hi" in intros i Hi;
  repeat first [rewrite Z.lxor_spec | rewrite Z.land_spec | rewrite Z.lor_spec
               | rewrite (NOT64_bit _ i Hi) | rewrite (F64_bit i Hi) | rewrite Z.bits_0];
  bits_tauto.

Lemma chi_view A :
  length A = 25%nat → Forall (word 64) A →
  KHI (xl mask2 (view A)) = xl mask0 (view (KeccakSpec.chi A)).
Proof.
  intros HA WA. split25 A. split_words WA.
  assert (mask2 = [F64; F64; F64; 0; F64; 0; 0; 0; F64; 0; F64; F64; F64; 0; 0; F64; 0; 0; F64; F64; 0; 0; 0; F64; 0]) as E2
    by (vm_compute; reflexivity).
  rewrite E2. clear E2.
  assert (mask0 = [0; 0; 0; 0; F64; F64; 0; 0; 0; 0; F64; 0; F64; F64; 0; 0; F64; 0; 0; 0; 0; 0; 0; 0; 0]) as E0
    by (vm_compute; reflexivity).
  rewrite E0. clear E0.
  cbn -[Z.lxor Z.land Z.lor KeccakSpec.compl NOT64 F64]. unfold KHI_XO, KHI_XA. cbv zeta.
  lanes. all: chi_lane.
Qed.

Lemma make_words g : (∀ x y, word 64 (g x y)) → Forall (word 64) (KeccakSpec.make g).
Proof. intros H. apply Forall_map, Forall_true. intros. apply H. Qed.

Lemma length_make g : length (KeccakSpec.make g) = 25%nat.
Proof. done. Qed.

Lemma lane_word A x y : Forall (word 64) A → word 64 (KeccakSpec.lane A x y).
Proof. intros. by apply nth_word. Qed.

Lemma rot_word x n : word 64 (KeccakSpec.rot x n).
Proof. by apply (word_mod 64). Qed.

#[local] Hint Resolve lane_word rot_word : words.

Lemma theta_words A : Forall (word 64) A → Forall (word 64) (KeccakSpec.theta A).
Proof. intros. apply make_words. intros. auto 10 with words. Qed.

Lemma rho_words A : Forall (word 64) (KeccakSpec.rho A).
Proof. apply make_words. intros. auto with words. Qed.

Lemma pi_words A : Forall (word 64) A → Forall (word 64) (KeccakSpec.pi A).
Proof. intros. apply make_words. intros. auto with words. Qed.

Lemma chi_words A : Forall (word 64) A → Forall (word 64) (KeccakSpec.chi A).
Proof.
  intros. apply make_words. intros. rewrite compl_NOT64 by auto with words. auto 10 with words.
Qed.

Lemma keccak_length_round A k : length (KeccakSpec.round A k) = 25%nat.
Proof. unfold KeccakSpec.round, KeccakSpec.iota. by rewrite length_insert. Qed.

Lemma keccak_round_words A k : Forall (word 64) A → word 64 k → Forall (word 64) (KeccakSpec.round A k).
Proof.
  intros HA Hk. unfold KeccakSpec.round, KeccakSpec.iota.
  pose proof (chi_words _ (pi_words _ (rho_words (KeccakSpec.theta A)))) as Hc.
  apply Forall_insert; [done|]. apply word_lxor; [done|by apply nth_word|done].
Qed.

(** A round of the code on complemented lanes is a round of the specification. *)
Lemma view_round_spec A k :
  length A = 25%nat → Forall (word 64) A →
  view_round (xl mask0 (view A)) k = xl mask0 (view (KeccakSpec.round A k)).
Proof.
  intros HA WA. unfold view_round, KeccakSpec.round.
  assert (Forall (word 64) mask0 ∧ Forall (word 64) mask1) as [W0 W1]
    by (split; repeat (apply Forall_cons; split; [done|]); by apply Forall_nil).
  rewrite THETA_xor by (done || by apply gather_words). fold mask1. rewrite theta_view by done.
  pose proof (theta_words A WA).
  rewrite RHO_xor by (done || by apply gather_words).
  assert (RHO mask1 = mask1) as -> by (vm_compute; reflexivity).
  rewrite rho_view, gather_xl by done. fold mask2. rewrite pi_view by done.
  rewrite chi_view by (done || apply pi_words, rho_words). by apply iota_view.
Qed.

(** The code's array [B], read through [Pr], holds the state [A]. *)
Record holds (r : nat) (B A : list Z) : Prop := {
  holds_view : gather (nth r P []) B = xl mask0 (view A);
  holds_length : length B = 25%nat;
  holds_lanes : length A = 25%nat;
  holds_words : Forall (word 64) A }.

Lemma KF_holds r B A k :
  (r < 24)%nat → word 64 k → holds r B A →
  holds ((r + 1) mod 24) (KF_ELT r ((r + 1) mod 24) B k) (KeccakSpec.round A k).
Proof.
  intros Hr Hk [HV HB HA WA]. split.
  - by rewrite KF_view, HV, view_round_spec.
  - by rewrite length_KF_ELT.
  - apply keccak_length_round.
  - by apply keccak_round_words.
Qed.

Lemma RC_spec i : (i < 24)%nat → RC.[i] = KeccakSpec.RC i ∧ word 64 RC.[i].
Proof.
  intros Hi. assert (forallb (λ i, (RC.[i] =? KeccakSpec.RC i) && (0 <=? RC.[i]) && (RC.[i] <? 2 ^ 64)) (seq 0 24) = true)
    as H by (vm_compute; reflexivity).
  pose proof (proj1 (forallb_forall _ _) H i (proj2 (in_seq 24 0 i) ltac:(lia))) as Hi'.
  rewrite !andb_true_iff, Z.eqb_eq, Z.leb_le, Z.ltb_lt in Hi'. unfold word. tauto.
Qed.

#[local] Strategy 100 [KF_ELT KeccakSpec.round KeccakSpec.RC].

(** [u] unrolled rounds from constant [j] on. *)
Definition KF_group (u j : nat) (B : list Z) : list Z :=
  fold_left (λ B r, KF_ELT r (r + 1) B RC.[j + r]) (seq 0 u) B.

Lemma KF_group_holds u j B A :
  (u < 24)%nat → (j + u ≤ 24)%nat → holds 0 B A →
  holds u (KF_group u j B) (fold_left (λ A i, KeccakSpec.round A (KeccakSpec.RC i)) (seq j u) A).
Proof.
  intros Hu Hj HB. unfold KF_group. induction u as [|u IH]; [done|].
  rewrite !seq_S, !fold_left_app. cbn [fold_left]. rewrite !Nat.add_0_l.
  destruct (RC_spec (j + u)) as [E Hw]; [lia|]. rewrite <- E.
  pose proof (KF_holds u _ _ RC.[j + u] ltac:(lia) Hw (IH ltac:(lia) ltac:(lia))) as H.
  rewrite Nat.mod_small in H by lia. by rewrite Nat.add_1_r in *.
Qed.

(** Moving the lanes back to their places after an unrolled group. *)
Definition moves_back (u : nat) (f : list Z → list Z) : Prop :=
  ∀ B, length B = 25%nat → view (f B) = gather (nth u P []) B ∧ length (f B) = 25%nat.

Lemma TO_P0_moves :
  moves_back 1 P1_TO_P0 ∧ moves_back 2 P2_TO_P0 ∧ moves_back 4 P4_TO_P0 ∧
  moves_back 6 P6_TO_P0 ∧ moves_back 8 P8_TO_P0 ∧ moves_back 12 P12_TO_P0.
Proof.
  repeat split; rename B into v; rename H into Hv; split25 v; reflexivity.
Qed.

Lemma group_holds u f j B A :
  moves_back u f → (u < 24)%nat → (j + u ≤ 24)%nat → holds 0 B A →
  holds 0 (f (KF_group u j B)) (fold_left (λ A i, KeccakSpec.round A (KeccakSpec.RC i)) (seq j u) A).
Proof.
  intros Hf Hu Hj HB. destruct (KF_group_holds u j B A) as [HV HL HA WA]; [done..|].
  destruct (Hf _ HL) as [E El]. split; [|done..]. by rewrite E.
Qed.

(** The whole permutation, for an unroll count [u] that divides 24. *)
Lemma groups_holds u f q i B A :
  moves_back u f → (u < 24)%nat → (i + q * u ≤ 24)%nat → holds 0 B A →
  holds 0 (fold_left (λ B j, f (KF_group u j B)) (map (λ k, i + k * u)%nat (seq 0 q)) B)
    (fold_left (λ A i, KeccakSpec.round A (KeccakSpec.RC i)) (seq i (q * u)) A).
Proof.
  intros Hf Hu. revert i B A. induction q as [|q IH]; intros i B A Hi HB; [done|].
  cbn [Nat.mul]. rewrite seq_app, fold_left_app.
  rewrite <- cons_seq. cbn [map fold_left]. rewrite Nat.add_0_r.
  assert (map (λ k, i + k * u)%nat (seq 1 q) = map (λ k, (i + u) + k * u)%nat (seq 0 q)) as ->.
  { rewrite <- seq_shift, map_map. apply map_ext. intros. lia. }
  apply IH; [simpl in Hi; lia|]. apply group_holds; (done || (simpl in Hi; lia)).
Qed.

(** Every unroll count runs the same groups. *)
Lemma unrolls_groups B :
  KECCAK_F_1600_1 B = fold_left (λ B j, P1_TO_P0 (KF_group 1 j B)) (map (λ k, 0 + k * 1)%nat (seq 0 24)) B ∧
  KECCAK_F_1600_2 B = fold_left (λ B j, P2_TO_P0 (KF_group 2 j B)) (map (λ k, 0 + k * 2)%nat (seq 0 12)) B ∧
  KECCAK_F_1600_4 B = fold_left (λ B j, P4_TO_P0 (KF_group 4 j B)) (map (λ k, 0 + k * 4)%nat (seq 0 6)) B ∧
  KECCAK_F_1600_6 B = fold_left (λ B j, P6_TO_P0 (KF_group 6 j B)) (map (λ k, 0 + k * 6)%nat (seq 0 4)) B ∧
  KECCAK_F_1600 B = fold_left (λ B j, P8_TO_P0 (KF_group 8 j B)) (map (λ k, 0 + k * 8)%nat (seq 0 3)) B ∧
  KECCAK_F_1600_12 B = fold_left (λ B j, P12_TO_P0 (KF_group 12 j B)) (map (λ k, 0 + k * 12)%nat (seq 0 2)) B ∧
  KECCAK_F_1600_0 B = KF_ELT 23 0 (KF_group 23 0 B) RC.[23].
Proof. repeat split. Qed.

Lemma holds_inj B1 B2 A : holds 0 B1 A → holds 0 B2 A → B1 = B2.
Proof.
  intros [H1 L1 _ _] [H2 L2 _ _]. rewrite <- H2 in H1. clear H2.
  rename B1 into u. rename B2 into v. split25 u. split25 v.
  cbn in H1. congruence.
Qed.

Lemma holds_mask A :
  length A = 25%nat → Forall (word 64) A → holds 0 (xl keccak_init_wide A) A.
Proof.
  intros HA WA. split; [|unfold xl; by rewrite length_zip_with, HA|done..].
  by rewrite gather_xl.
Qed.

Lemma unrolls_hold B A :
  holds 0 B A →
  Forall (λ B', holds 0 B' (KeccakSpec.f A))
    [KECCAK_F_1600 B; KECCAK_F_1600_1 B; KECCAK_F_1600_2 B; KECCAK_F_1600_4 B; KECCAK_F_1600_6 B;
     KECCAK_F_1600_12 B; KECCAK_F_1600_0 B].
Proof.
  intros HB. destruct (unrolls_groups B) as (E1 & E2 & E4 & E6 & E8 & E12 & E0).
  destruct TO_P0_moves as (M1 & M2 & M4 & M6 & M8 & M12).
  repeat (apply Forall_cons; split); [..|by apply Forall_nil].
  - rewrite E8. exact (groups_holds 8 _ 3 0 _ _ M8 ltac:(lia) ltac:(lia) HB).
  - rewrite E1. exact (groups_holds 1 _ 24 0 _ _ M1 ltac:(lia) ltac:(lia) HB).
  - rewrite E2. exact (groups_holds 2 _ 12 0 _ _ M2 ltac:(lia) ltac:(lia) HB).
  - rewrite E4. exact (groups_holds 4 _ 6 0 _ _ M4 ltac:(lia) ltac:(lia) HB).
  - rewrite E6. exact (groups_holds 6 _ 4 0 _ _ M6 ltac:(lia) ltac:(lia) HB).
  - rewrite E12. exact (groups_holds 12 _ 2 0 _ _ M12 ltac:(lia) ltac:(lia) HB).
  - rewrite E0. destruct (RC_spec 23 ltac:(lia)) as [E Hw].
    pose proof (KF_holds 23 _ _ RC.[23] ltac:(lia) Hw (KF_group_holds 23 0 B A ltac:(lia) ltac:(lia) HB)) as H.
    rewrite E in H at 2. unfold KeccakSpec.f. assert (seq 0 24 = seq 0 23 ++ [23%nat]) as -> by done.
    rewrite fold_left_app. exact H.
Qed.

Lemma KECCAK_F_spec A :
  length A = 25%nat → Forall (word 64) A →
  KECCAK_F_1600 (xl keccak_init_wide A) = xl keccak_init_wide (KeccakSpec.f A) ∧
  length (KeccakSpec.f A) = 25%nat ∧ Forall (word 64) (KeccakSpec.f A).
Proof.
  intros HA WA. pose proof (unrolls_hold _ _ (holds_mask A HA WA)) as H.
  apply Forall_cons in H as [H _]. pose proof H as [_ _ HA' WA'].
  split; [|done]. eapply holds_inj; [exact H|]. by apply holds_mask.
Qed.

(** The permutation of the code is Keccak-f[1600]. The array keeps six lanes
    complemented; after the rounds, with pi replaced by the index lists and chi
    rewritten for complemented lanes, it holds the result of the 24 rounds of the
    specification with the same six lanes complemented, for every number of
    unrolled rounds the source can be compiled with. *)
Theorem keccak_f_1600 (A : list Z) (HA : length A = 25%nat) (WA : Forall (word 64) A) :
  Forall (λ B, B = xl keccak_init_wide (KeccakSpec.f A))
    [KECCAK_F_1600 (xl keccak_init_wide A); KECCAK_F_1600_1 (xl keccak_init_wide A);
     KECCAK_F_1600_2 (xl keccak_init_wide A); KECCAK_F_1600_4 (xl keccak_init_wide A);
     KECCAK_F_1600_6 (xl keccak_init_wide A); KECCAK_F_1600_12 (xl keccak_init_wide A);
     KECCAK_F_1600_0 (xl keccak_init_wide A)].
Proof.
  destruct (KECCAK_F_spec A HA WA) as (_ & HA' & WA').
  eapply Forall_impl; [apply (unrolls_hold _ A), (holds_mask A HA WA)|].
  intros B HB. eapply holds_inj; [exact HB|]. by apply holds_mask.
Qed.

Lemma keccak_f_1600_witness :
  KECCAK_F_1600 (xl keccak_init_wide (replicate 25 1)) = xl keccak_init_wide (KeccakSpec.f (replicate 25 1)).
Proof.
  apply (Forall_inv (keccak_f_1600 (replicate 25 1) eq_refl
    (Forall_replicate (word 64) 25 1 ltac:(done)))).
Defined.

(** ** The sponge *)

#[local] Opaque KECCAK_F_1600 KeccakSpec.f.

(** The block sizes of the four functions. *)
Definition keccak_lim (lim : nat) : Prop := lim ∈ [144; 136; 104; 72]%nat.

Ltac lim_cases H :=
  repeat (apply elem_of_cons in H as [->|H]); [..|by apply not_elem_of_nil in H].

Lemma INPUT_BUF_words lim wide b :
  keccak_lim lim → length wide = 25%nat →
  INPUT_BUF lim wide b =
  xl wide (map (λ i, sph_dec64le (drop (8 * i) b)) (seq 0 (lim / 8)) ++ replicate (25 - lim / 8) 0).
Proof.
  intros Hlim Hw. split25 wide.
  lim_cases Hlim; unfold INPUT_BUF, xl; cbn -[sph_dec64le drop Z.lxor];
    rewrite !Z.lxor_0_r; reflexivity.
Qed.

Lemma INPUT_BUF_spec lim wide b :
  keccak_lim lim → length wide = 25%nat → length b = lim → Forall byte b →
  INPUT_BUF lim wide b = KeccakSpec.input wide b.
Proof.
  intros Hlim Hw Hl Hb. rewrite INPUT_BUF_words by done. unfold KeccakSpec.input. rewrite Hl.
  rewrite <- (chunk_words 8 (lim / 8) sph_dec64le); [done| |done|apply sph_dec64le_take|].
  - rewrite Hl. by lim_cases Hlim.
  - intros. by apply sph_dec64le_spec.
Qed.

Lemma INPUT_BUF_take lim wide b :
  keccak_lim lim → INPUT_BUF lim wide b = INPUT_BUF lim wide (take lim b).
Proof.
  intros Hlim. unfold INPUT_BUF.
  assert (∀ j, j ∈ seq 0 (lim / 8) → sph_dec64le (drop (8 * j) b) = sph_dec64le (drop (8 * j) (take lim b))) as H.
  { intros j Hj%elem_of_seq. rewrite (sph_dec64le_take (drop _ b)), (sph_dec64le_take (drop _ (take _ _))).
    rewrite skipn_firstn_comm, take_take. do 2 f_equal. lim_cases Hlim; simpl in Hj; lia. }
  revert H wide. generalize (seq 0 (lim / 8)). intros l. induction l as [|j l IH]; intros H wide; [done|].
  cbn [fold_left]. rewrite <- (H j) by (apply elem_of_cons; by left).
  apply IH. intros. apply H. apply elem_of_cons. by right.
Qed.

Lemma input_words A b :
  length A = 25%nat → Forall (word 64) A → keccak_lim (length b) → Forall byte b →
  length (KeccakSpec.input A b) = 25%nat ∧ Forall (word 64) (KeccakSpec.input A b).
Proof.
  intros HA WA Hlim Hb. unfold KeccakSpec.input.
  set (v := map le_dec _ ++ _).
  assert (length v = 25%nat) as Hv.
  { unfold v. rewrite length_app, length_map, length_chunks, length_replicate.
    remember (length b) as lim. clear -Hlim. by lim_cases Hlim. }
  split; [by rewrite length_zip_with, HA, Hv|].
  assert (Forall (word 64) v) as Wv.
  { apply Forall_app_2; [|by apply Forall_replicate]. apply Forall_map.
    eapply Forall_impl; [apply chunks_Forall; [|done]|].
    - remember (length b) as lim. clear -Hlim. by lim_cases Hlim.
    - intros c [Hl Hc]. simpl. pose proof (le_dec_word c Hc) as Hd. by rewrite Hl in Hd. }
  apply zip_with_words; [|done..]. intros. by apply word_lxor.
Qed.

Lemma xl_assoc a b c : xl (xl a b) c = xl a (xl b c).
Proof.
  unfold xl. revert b c. induction a as [|x a IH]; intros [|y b] [|z c]; try done.
  simpl. by rewrite IH, Z.lxor_assoc.
Qed.

(** A block, on complemented lanes. *)
Lemma keccak_step_spec lim A k b :
  keccak_lim lim → length A = 25%nat → Forall (word 64) A → length b = lim → Forall byte b →
  keccak_step lim (xl keccak_init_wide A, k) b = (xl keccak_init_wide (KeccakSpec.block A b), k) ∧
  length (KeccakSpec.block A b) = 25%nat ∧ Forall (word 64) (KeccakSpec.block A b).
Proof.
  intros Hlim HA WA Hl Hb. unfold keccak_step, KeccakSpec.block. cbn [fst snd].
  destruct (input_words A b) as [HI WI]; [done|done|by rewrite Hl|done|].
  destruct (KECCAK_F_spec _ HI WI) as (E & HF & WF). split; [|done]. f_equal.
  rewrite INPUT_BUF_spec by (done || (unfold xl; by rewrite length_zip_with, HA)).
  rewrite <- E. f_equal. unfold KeccakSpec.input. apply xl_assoc.
Qed.

(** The code's state [st] holds the sponge's state [A]. *)
Definition sponge_rel (k : Z) (st : list Z * Z) (A : list Z) : Prop :=
  st = (xl keccak_init_wide A, k) ∧ length A = 25%nat ∧ Forall (word 64) A.

Lemma sponge_rel_init k : sponge_rel k (keccak_init_wide, k) (replicate 25 0).
Proof. split; [f_equal; vm_compute; reflexivity|]. split; [done|]. by apply Forall_replicate. Qed.

Lemma keccak_absorb lim k m :
  keccak_lim lim → Forall byte m →
  sponge_rel k (absorb lim (keccak_step lim) (keccak_init_wide, k) m)
    (fold_left KeccakSpec.block (full_blocks lim m) (replicate 25 0)).
Proof.
  intros Hlim Hm. assert (0 < lim)%nat as Hpos by (lim_cases Hlim; lia).
  apply (fold_left_rel (sponge_rel k) (λ b, length b = lim ∧ Forall byte b)).
  - by apply full_blocks_Forall.
  - apply sponge_rel_init.
  - intros st A b (-> & HA & WA) [Hl Hb]. by apply keccak_step_spec.
Qed.

(** ** Padding *)

Lemma keccak_eb ub n :
  0 ≤ n < 8 →
  let eb := (0x100 .| (ub .& 0xFF)) >> (8 - n) in
  eb = (ub / 2 ^ (8 - n)) mod 2 ^ n + 2 ^ n ∧ uchar eb = eb ∧ 0 < eb < 2 ^ (n + 1).
Proof.
  intros Hn eb.
  assert (eb = (ub / 2 ^ (8 - n)) mod 2 ^ n + 2 ^ n) as E.
  { unfold eb. change (ub .& 255) with (uchar ub). rewrite uchar_mod.
    change 256 with (1 << 8) at 1. rewrite lor_shiftl_add by (done || (apply (word_mod 8); lia)).
    rewrite Z.shiftr_div_pow2 by lia.
    assert (2 ^ 8 = 2 ^ n * 2 ^ (8 - n)) as E8 by (rewrite <- Z.pow_add_r by lia; f_equal; lia).
    pose proof (Z.pow_pos_nonneg 2 (8 - n)). pose proof (Z.pow_pos_nonneg 2 n).
    rewrite E8 at 1. rewrite Z.mul_1_l, Z.div_add_l by lia. rewrite Z.add_comm. f_equal.
    change 256 with (2 ^ 8). rewrite E8, (Z.mul_comm (2 ^ n)), Z.rem_mul_r by lia.
    rewrite Z.mul_comm, Z.div_add by lia. rewrite Z.div_small by (apply Z.mod_pos_bound; lia). lia. }
  pose proof (Z.mod_pos_bound (ub / 2 ^ (8 - n)) (2 ^ n)). pose proof (Z.pow_pos_nonneg 2 n).
  assert (2 ^ (n + 1) = 2 * 2 ^ n) as E1 by (rewrite Z.pow_add_r; lia).
  assert (2 ^ (n + 1) ≤ 2 ^ 8) by (apply Z.pow_le_mono_r; lia).
  split; [done|]. split; [|lia]. rewrite uchar_mod. apply Z.mod_small. lia.
Qed.

(** The padding bytes: [eb] and the final one bit at the end of [k] bytes. *)
Lemma keccak_pad_bytes eb k :
  0 ≤ eb < 256 → (1 < k)%nat →
  le_enc k (eb + 2 ^ (8 * Z.of_nat k - 1)) = eb :: replicate (k - 2) 0 ++ [0x80].
Proof.
  intros Heb Hk. replace k with (1 + (k - 2) + 1)%nat at 1 by lia.
  rewrite !le_enc_app. cbn [le_enc].
  replace (8 * Z.of_nat k - 1) with (8 + (8 * Z.of_nat (k - 2) + 7)) by lia.
  rewrite (Z.pow_add_r 2 8) by lia. change (2 ^ 8) with 256.
  rewrite (Z.mul_comm 256), Z_mod_plus_full, Z.mod_small by lia. simpl. f_equal.
  change (2 ^ (8 * Z.of_nat 1)) with 256. rewrite Z.div_add, Z.div_small, Z.add_0_l by lia.
  rewrite Z.pow_add_r by lia. f_equal.
  - rewrite <- le_enc_mod, Z.mul_comm, Z.mod_mul by (apply Z.pow_nonzero; lia). apply le_enc_0.
  - rewrite (Z.mul_comm (2 ^ (8 * _))).
    replace (eb + 2 ^ 7 * 2 ^ (8 * Z.of_nat (k - 2)) * 256) with (eb + 2 ^ 7 * 2 ^ (8 * Z.of_nat (1 + (k - 2)))).
    + rewrite Z.div_add, Z.div_small; [done| |apply Z.pow_nonzero; lia].
      split; [lia|]. apply Z.lt_le_trans with (2 ^ 8); [lia|]. apply Z.pow_le_mono_r; lia.
    + replace (8 * Z.of_nat (1 + (k - 2))) with (8 * Z.of_nat (k - 2) + 8) by lia.
      rewrite (Z.pow_add_r 2 _ 8) by lia. lia.
Qed.

Lemma keccak_tail_spec lim u0 (m : list Z) ub n :
  keccak_lim lim → length u0 = (lim + 1)%nat → 0 ≤ n < 8 →
  keccak_tail lim u0 (length m mod lim) ub n = KeccakSpec.tail lim (length m) ub n.
Proof.
  intros Hlim Hu Hn. destruct (keccak_eb ub n Hn) as (E & Euc & Hr).
  assert (1 < lim)%nat as Hpos by (lim_cases Hlim; lia).
  pose proof (Nat.mod_upper_bound (length m) lim ltac:(lia)) as Hp.
  unfold keccak_tail, KeccakSpec.tail. set (ptr := (length m mod lim)%nat) in *.
  set (eb := (0x100 .| (ub .& 0xFF)) >> (8 - n)) in *. cbv zeta in E, Euc, Hr. rewrite <- E.
  assert (2 ^ (n + 1) ≤ 2 ^ 8) by (apply Z.pow_le_mono_r; lia).
  destruct (Nat.eqb_spec ptr (lim - 1)) as [Ep|Ep].
  - destruct (Z.eqb_spec n 7) as [E7|E7].
    + rewrite <- (Z.mod_unique _ _ (-1) (8 * Z.of_nat lim - 1)) by lia.
      replace (n + 1 + (8 * Z.of_nat lim - 1)) with (8 * Z.of_nat (lim + 1) - 1) by lia.
      replace ((n + 2 + (8 * Z.of_nat lim - 1)) / 8) with (Z.of_nat (lim + 1))
        by (apply (Z.div_unique _ _ _ 0); lia).
      rewrite Nat2Z.id, keccak_pad_bytes, Euc by lia.
      destruct u0 as [|u u0]; [simpl in Hu; lia|]. simpl.
      assert (filled (lim + 1) (eb :: replicate (lim - 1) 0) (memset (eb :: u0) 1 0 (lim - 1))) as Hf.
      { apply (filled_memset _ [eb]); [|done|simpl; lia]. split; [done|reflexivity]. }
      apply (filled_insert _ _ _ lim 0x80) in Hf;
        [|simpl; rewrite length_replicate; lia|simpl; rewrite length_replicate; lia].
      apply filled_full in Hf; [|rewrite length_app; simpl; rewrite length_replicate; lia].
      rewrite Hf, take_ge by (rewrite length_app; simpl; rewrite length_replicate; lia).
      replace (lim + 1 - 2)%nat with (lim - 1)%nat by lia. reflexivity.
    + rewrite <- (Z.mod_unique _ _ 0 (6 - n)) by lia.
      replace (n + 1 + (6 - n)) with 7 by lia. replace (n + 2 + (6 - n)) with (1 * 8) by lia.
      rewrite Z.div_mul by lia. destruct u0 as [|u u0]; [simpl in Hu; lia|]. simpl.
      assert (2 ^ (n + 1) ≤ 2 ^ 7) by (apply Z.pow_le_mono_r; lia).
      assert (eb .| 128 = eb + 128) as ->.
      { rewrite Z.lor_comm. change 128 with (1 << 7) at 1. rewrite lor_shiftl_add by (unfold word; lia). lia. }
      rewrite uchar_mod. reflexivity.
  - set (k := (lim - ptr)%nat).
    rewrite <- (Z.mod_unique _ _ 0 (8 * Z.of_nat k - 2 - n)) by lia.
    replace (n + 1 + (8 * Z.of_nat k - 2 - n)) with (8 * Z.of_nat k - 1) by lia.
    replace ((n + 2 + (8 * Z.of_nat k - 2 - n)) / 8) with (Z.of_nat k) by (apply (Z.div_unique _ _ _ 0); lia).
    rewrite Nat2Z.id, keccak_pad_bytes, Euc by lia.
    destruct u0 as [|u u0]; [simpl in Hu; lia|]. simpl insert.
    assert (filled (lim + 1) (eb :: replicate (k - 2) 0) (memset (eb :: u0) 1 0 (k - 2))) as Hf.
    { apply (filled_memset _ [eb]); [|done|simpl; lia]. split; [done|reflexivity]. }
    apply (filled_insert _ _ _ (k - 1) 0x80) in Hf;
      [|simpl; rewrite length_replicate; lia|simpl; rewrite length_replicate; lia].
    destruct Hf as [_ Hf]. rewrite length_app in Hf. simpl in Hf. rewrite length_replicate in Hf.
    replace (S (k - 2 + 1)) with k in Hf by lia. rewrite Hf. reflexivity.
Qed.

Lemma keccak_tail_bytes lim len ub n : Forall byte (KeccakSpec.tail lim len ub n).
Proof. apply le_enc_bytes. Qed.

Lemma keccak_uncomplement_spec A :
  length A = 25%nat → Forall (word 64) A → keccak_uncomplement (xl keccak_init_wide A) = A.
Proof.
  intros HA WA. split25 A. split_words WA. cbn -[Z.lxor NOT64].
  assert (∀ x, word 64 x → NOT64 (18446744073709551615 .^ x) = x) as E.
  { intros x Hx. change 18446744073709551615 with F64.
    rewrite NOT64_F64 by auto with words. by rewrite <- Z.lxor_assoc, Z.lxor_nilpotent. }
  rewrite !E by assumption. reflexivity.
Qed.

(** The output bytes: all the lanes, or as many as [d] bytes need. *)
Lemma take_lanes d (A : list Z) :
  take d (concat (map (le_enc 8) (take ((d + 7) / 8) A))) = take d (concat (map (le_enc 8) A)).
Proof.
  rewrite <- (take_drop ((d + 7) / 8) A) at 2. rewrite map_app, concat_app, take_app.
  rewrite (concat_map_length _ 8) by (intros; apply length_le_enc).
  destruct (Nat.le_gt_cases ((d + 7) / 8) (length A)) as [Hle|Hgt].
  - rewrite length_take, Nat.min_l by done.
    pose proof (Nat.div_mod_eq (d + 7) 8). pose proof (Nat.mod_upper_bound (d + 7) 8).
    replace (d - 8 * ((d + 7) / 8))%nat with 0%nat by lia. by rewrite app_nil_r.
  - rewrite (drop_ge A) by lia. simpl. by rewrite take_nil, app_nil_r.
Qed.

(** ** The public functions keep the contract of the interface *)

Definition keccak_rep (d lim : nat) (kc : sph_keccak_context) (m : list Z) : Prop :=
  cap_rep lim 144 (keccak_step lim) (keccak_init_wide, 200 - ((Z.of_nat d << 3) >> 2)) kc m.

Lemma keccak_lim_bounds lim : keccak_lim lim → (0 < lim ≤ 144)%nat.
Proof. intros Hlim. lim_cases Hlim; lia. Qed.

Lemma keccak_init_rep d lim kc :
  keccak_lim lim → length (c_buf kc) = 144%nat →
  keccak_rep d lim (keccak_init kc (Z.of_nat d << 3)) [].
Proof.
  intros Hlim Hl. pose proof (keccak_lim_bounds lim Hlim).
  apply (cap_init_rep lim 144 (keccak_step lim) ltac:(lia) ltac:(lia)
    (keccak_init_wide, 200 - ((Z.of_nat d << 3) >> 2)) kc Hl).
Qed.

Lemma keccak_core_rep d lim kc m data :
  keccak_lim lim → keccak_rep d lim kc m → Forall byte data →
  keccak_rep d lim (keccak_core kc data lim) (m ++ data).
Proof.
  intros Hlim Hr Hb. pose proof (keccak_lim_bounds lim Hlim).
  apply cap_core_rep; [lia|lia| |done|done]. intros. unfold keccak_step. by rewrite INPUT_BUF_take.
Qed.

Lemma keccak_close_spec d lim u0 kc m ub n :
  keccak_lim lim → length u0 = (lim + 1)%nat → keccak_rep d lim kc m → 0 ≤ n < 8 →
  (keccak_close d lim u0 kc ub n).2 = KeccakSpec.hash lim d m ub n ∧
  keccak_rep d lim (keccak_close d lim u0 kc ub n).1 [].
Proof.
  intros Hlim Hu0 Hr Hn. pose proof (keccak_lim_bounds lim Hlim) as Hb. pose proof (proj2 (proj2 Hr)) as Hm.
  destruct (cap_rep_fields lim 144 (keccak_step lim) ltac:(lia) _ _ _ Hr) as [_ Ep].
  rewrite length_pending in Ep by lia. unfold keccak_close. rewrite Ep, keccak_tail_spec by done.
  pose proof (keccak_core_rep d lim kc m _ Hlim Hr (keccak_tail_bytes lim (length m) ub n)) as Hr'.
  set (kc' := keccak_core kc _ lim) in *. cbv zeta. cbn [fst snd].
  destruct (cap_rep_fields lim 144 (keccak_step lim) ltac:(lia) _ _ _ Hr') as [Es _].
  split; [|apply keccak_init_rep; [done|by destruct Hr']].
  destruct (keccak_absorb lim (200 - ((Z.of_nat d << 3) >> 2)) (m ++ KeccakSpec.tail lim (length m) ub n))
    as (Ea & HA & WA); [done|apply Forall_app_2; [done|apply keccak_tail_bytes]|].
  rewrite Es, Ea. cbn [fst]. rewrite keccak_uncomplement_spec by done.
  rewrite (map_ext _ _ sph_enc64le_spec), take_lanes. done.
Qed.

Lemma length_keccak_f A : length A = 25%nat → length (KeccakSpec.f A) = 25%nat.
Proof.
  Local Transparent KeccakSpec.f.
  intros HA. unfold KeccakSpec.f.
  assert (seq 0 24 = seq 0 23 ++ [23%nat]) as -> by done. rewrite fold_left_app. apply keccak_length_round.
  Local Opaque KeccakSpec.f.
Qed.

Lemma keccak_digest_length lim d m ub n :
  keccak_lim lim → (d ≤ 200)%nat → length (KeccakSpec.hash lim d m ub n) = d.
Proof.
  intros Hlim Hd. pose proof (keccak_lim_bounds lim Hlim). unfold KeccakSpec.hash.
  rewrite length_take, (concat_map_length _ 8) by (intros; apply length_le_enc).
  rewrite (fold_left_inv_Forall (λ A, length A = 25%nat) (λ b, length b = lim)); [lia| |done|].
  - apply full_blocks_lengths. lia.
  - intros A b HA Hl. apply length_keccak_f. unfold KeccakSpec.input.
    rewrite length_zip_with, length_app, length_map, length_chunks, length_replicate, HA, Hl.
    by lim_cases Hlim.
Qed.

Section KeccakInstance.
Context (d lim : nat) (u0 : list Z) (Hlim : keccak_lim lim) (Hd : (d ≤ 200)%nat).
Context (Hu0 : length u0 = (lim + 1)%nat).

Definition keccak_hash : SphHash :=
  {| sph_context := sph_keccak_context; sph_init kc := keccak_init kc (Z.of_nat d << 3);
     sph_update kc data := keccak_core kc data lim;
     sph_addbits_and_close := keccak_close d lim u0;
     sph_close kc := keccak_close d lim u0 kc 0 0 |}.

#[program] Definition keccak_correct : SphCorrect keccak_hash (KeccakSpec.hash lim d) d := {|
  ctx_valid c := length (c_buf c) = 144%nat;
  ctx_rep := keccak_rep d lim;
  max_bytes := 2 ^ 64 |}.
Next Obligation. intros. by apply keccak_init_rep. Qed.
Next Obligation. intros. by apply keccak_core_rep. Qed.
Next Obligation. intros. by apply keccak_close_spec. Qed.
Next Obligation. intros c m ub n Hr Hn _. by apply (keccak_close_spec d lim u0 c m). Qed.
Next Obligation. done. Qed.
Next Obligation. intros. by apply keccak_digest_length. Qed.
Next Obligation. intros. apply Forall_take, Forall_concat_map. intros. apply le_enc_bytes. Qed.
End KeccakInstance.

Definition keccak224_hash (u0 : list Z) : SphHash :=
  {| sph_init := sph_keccak224_init; sph_update := sph_keccak224;
     sph_addbits_and_close := sph_keccak224_addbits_and_close u0; sph_close := sph_keccak224_close u0 |}.

#[export] Instance keccak224_correct u0 :
  length u0 = 145%nat → SphCorrect (keccak224_hash u0) (KeccakSpec.hash 144 28) 28.
Proof.
  intros Hu. apply (keccak_correct 28 144 u0); [|lia|done].
  apply (bool_decide_unpack (144%nat ∈ [144; 136; 104; 72]%nat)). exact I.
Defined.

Definition keccak256_hash (u0 : list Z) : SphHash :=
  {| sph_init := sph_keccak256_init; sph_update := sph_keccak256;
     sph_addbits_and_close := sph_keccak256_addbits_and_close u0; sph_close := sph_keccak256_close u0 |}.

#[export] Instance keccak256_correct u0 :
  length u0 = 137%nat → SphCorrect (keccak256_hash u0) (KeccakSpec.hash 136 32) 32.
Proof.
  intros Hu. apply (keccak_correct 32 136 u0); [|lia|done].
  apply (bool_decide_unpack (136%nat ∈ [144; 136; 104; 72]%nat)). exact I.
Defined.

Definition keccak384_hash (u0 : list Z) : SphHash :=
  {| sph_init := sph_keccak384_init; sph_update := sph_keccak384;
     sph_addbits_and_close := sph_keccak384_addbits_and_close u0; sph_close := sph_keccak384_close u0 |}.

#[export] Instance keccak384_correct u0 :
  length u0 = 105%nat → SphCorrect (keccak384_hash u0) (KeccakSpec.hash 104 48) 48.
Proof.
  intros Hu. apply (keccak_correct 48 104 u0); [|lia|done].
  apply (bool_decide_unpack (104%nat ∈ [144; 136; 104; 72]%nat)). exact I.
Defined.

Definition keccak512_hash (u0 : list Z) : SphHash :=
  {| sph_init := sph_keccak512_init; sph_update := sph_keccak512;
     sph_addbits_and_close := sph_keccak512_addbits_and_close u0; sph_close := sph_keccak512_close u0 |}.

#[export] Instance keccak512_correct u0 :
  length u0 = 73%nat → SphCorrect (keccak512_hash u0) (KeccakSpec.hash 72 64) 64.
Proof.
  intros Hu. apply (keccak_correct 64 72 u0); [|lia|done].
  apply (bool_decide_unpack (72%nat ∈ [144; 136; 104; 72]%nat)). exact I.
Defined.

(** C40: Keccak-512 as the program calls it: for every content of the context and of
    the local buffer, every cut of the message into calls and every number [n] of
    trailing bits, the digest is the sponge's of the Keccak specification with a
    rate of 72 bytes. *)
Theorem sph_keccak512_is_keccak (u0 : list Z) (cc : sph_keccak_context) (pieces : list (list Z)) (ub n : Z)
    (Hu0 : length u0 = 73%nat) (Hcc : length (c_buf cc) = 144%nat)
    (Hp : Forall (Forall byte) pieces) (Hn : 0 ≤ n < 8)
    (Hl : Z.of_nat (length (concat pieces)) < 2 ^ 64) :
  (sph_keccak512_addbits_and_close u0 (fold_left sph_keccak512 pieces (sph_keccak512_init cc)) ub n).2
  = KeccakSpec.hash 72 64 (concat pieces) ub n.
Proof. exact (hash_pieces (Hok := keccak512_correct u0 Hu0) cc pieces ub n Hcc Hp Hn Hl). Qed.

Lemma sph_keccak512_is_keccak_witness :
  (sph_keccak512_addbits_and_close (replicate 73 9) (fold_left sph_keccak512 [[97]; [98; 99]]
    (sph_keccak512_init (SphCtx (replicate 144 7) 3 ([], 0)))) 0xA0 3).2
  = KeccakSpec.hash 72 64 [97; 98; 99] 0xA0 3.
Proof.
  apply (sph_keccak512_is_keccak (replicate 73 9) (SphCtx (replicate 144 7) 3 ([], 0)) [[97]; [98; 99]] 0xA0 3);
    [reflexivity|reflexivity|by apply bytesb_pieces|lia|reflexivity].
Defined.
