(* ===== verification/ArithUint256.v ===== *)
(** * Big integers of fixed width: [base_uint<BITS>]

    [arith_uint256.h], [arith_uint256.cpp] and [uint256.cpp]: unsigned integers
    of [WIDTH] limbs of 32 bits, little end first, with the arithmetic, the shifts,
    the division and the comparison.  The operations are the loops of the source over the limb array
    [pn]; the theorems say what they compute of the number [uval pn]. *)

From S2P Require Import Prelude Ints.

Local Open Scope Z_scope.

(** The limb array [pn]. *)
Abbreviation base_uint := (list Z).

Section base_uint.
Context (WIDTH : nat).

(** A constructor or an assignment from a 64-bit integer sets the two low limbs
    and clears the rest. *)

Definition base_uint_zero : base_uint := replicate WIDTH 0.

Definition base_uint_u64 (b : Z) : base_uint :=
  u32 b :: u32 (b >> 32) :: replicate (WIDTH - 2) 0.

(** [base_uint(const std::vector<unsigned char>&)]: throws on a wrong size. *)
Definition base_uint_vch (vch : list Z) : option base_uint :=
  if decide (length vch = (4 * WIDTH)%nat)
  then Some (map (λ i, le_dec (take 4 (drop (4 * i) vch))) (seq 0 WIDTH))
  else None.

Definition IsNull (pn : base_uint) : bool := forallb (λ i, pn.[i] =? 0) (seq 0 WIDTH).

Definition op_not (pn : base_uint) : base_uint :=
  map (λ i, u32 (Z.lnot pn.[i])) (seq 0 WIDTH).

Definition xor_assign (pn b : base_uint) : base_uint :=
  fold_left (λ pn i, <[i := pn.[i] .^ b.[i]]> pn) (seq 0 WIDTH) pn.

Definition and_assign (pn b : base_uint) : base_uint :=
  fold_left (λ pn i, <[i := pn.[i] .& b.[i]]> pn) (seq 0 WIDTH) pn.

Definition or_assign (pn b : base_uint) : base_uint :=
  fold_left (λ pn i, <[i := pn.[i] .| b.[i]]> pn) (seq 0 WIDTH) pn.

Definition xor_assign_u64 (pn : base_uint) (b : Z) : base_uint :=
  let pn := <[0%nat := pn.[0] .^ u32 b]> pn in
  <[1%nat := pn.[1] .^ u32 (b >> 32)]> pn.

Definition or_assign_u64 (pn : base_uint) (b : Z) : base_uint :=
  let pn := <[0%nat := pn.[0] .| u32 b]> pn in
  <[1%nat := pn.[1] .| u32 (b >> 32)]> pn.

(** [operator<<=]: the two updates of an iteration, each within the array only. *)
Definition shl_step (a : base_uint) (k : nat) (s : Z) (pn : base_uint) (i : nat) : base_uint :=
  let pn := if (i + k + 1 <? WIDTH)%nat && negb (s =? 0)
            then <[(i + k + 1)%nat := pn.[i + k + 1] .| (a.[i] >> (32 - s))]> pn else pn in
  if (i + k <? WIDTH)%nat
  then <[(i + k)%nat := pn.[i + k] .| u32 (a.[i] << s)]> pn else pn.

Definition shl_assign (a : base_uint) (shift : Z) : base_uint :=
  let k := Z.to_nat (shift / 32) in
  let s := shift mod 32 in
  fold_left (shl_step a k s) (seq 0 WIDTH) base_uint_zero.

Definition shr_step (a : base_uint) (k : nat) (s : Z) (pn : base_uint) (i : nat) : base_uint :=
  let pn := if (k + 1 <=? i)%nat && negb (s =? 0)
            then <[(i - k - 1)%nat := pn.[i - k - 1] .| u32 (a.[i] << (32 - s))]> pn else pn in
  if (k <=? i)%nat
  then <[(i - k)%nat := pn.[i - k] .| (a.[i] >> s)]> pn else pn.

Definition shr_assign (a : base_uint) (shift : Z) : base_uint :=
  let k := Z.to_nat (shift / 32) in
  let s := shift mod 32 in
  fold_left (shr_step a k s) (seq 0 WIDTH) base_uint_zero.

(** One limb of a carry chain: [n] is the 64-bit sum the source forms. *)
Definition carry_step (n : Z) (i : nat) (pn : base_uint) : base_uint * Z :=
  (<[i := n .& 0xffffffff]> pn, n >> 32).

Definition add_step (b : base_uint) (st : base_uint * Z) (i : nat) : base_uint * Z :=
  let '(pn, carry) := st in carry_step (u64 (carry + pn.[i] + b.[i])) i pn.

Definition add_assign (pn b : base_uint) : base_uint :=
  fst (fold_left (add_step b) (seq 0 WIDTH) (pn, 0)).

Definition mul_u32_step (b32 : Z) (st : base_uint * Z) (i : nat) : base_uint * Z :=
  let '(pn, carry) := st in carry_step (u64 (carry + b32 * pn.[i])) i pn.

Definition mul_assign_u32 (pn : base_uint) (b32 : Z) : base_uint :=
  fst (fold_left (mul_u32_step b32) (seq 0 WIDTH) (pn, 0)).

(** The inner loop of [operator*=(const base_uint&)], for row [j]. *)
Definition mul_step (aj : Z) (b : base_uint) (j : nat) (st : base_uint * Z) (i : nat) :
    base_uint * Z :=
  let '(pn, carry) := st in
  carry_step (u64 (carry + pn.[i + j] + aj * b.[i])) (i + j) pn.

Definition mul_row (aj : Z) (b : base_uint) (pn : base_uint) (j : nat) : base_uint :=
  fst (fold_left (mul_step aj b j) (seq 0 (WIDTH - j)) (pn, 0)).

Definition mul_assign (a b : base_uint) : base_uint :=
  fold_left (λ pn j, mul_row a.[j] b pn j) (seq 0 WIDTH) (base_uint_u64 0).

(** [++pn[i]] carries into the next limb while the result wrapped to 0. *)
Fixpoint incr_from (fuel i : nat) (pn : base_uint) : base_uint :=
  match fuel with
  | O => pn
  | S fuel =>
      let pn := <[i := u32 (pn.[i] + 1)]> pn in
      if (pn.[i] =? 0) && (i <? WIDTH - 1)%nat then incr_from fuel (S i) pn else pn
  end.

Definition op_incr (pn : base_uint) : base_uint := incr_from WIDTH 0 pn.

Fixpoint decr_from (fuel i : nat) (pn : base_uint) : base_uint :=
  match fuel with
  | O => pn
  | S fuel =>
      let pn := <[i := u32 (pn.[i] - 1)]> pn in
      if (pn.[i] =? 0xffffffff) && (i <? WIDTH - 1)%nat then decr_from fuel (S i) pn else pn
  end.

Definition op_decr (pn : base_uint) : base_uint := decr_from WIDTH 0 pn.

Definition op_neg (pn : base_uint) : base_uint :=
  op_incr (map (λ i, u32 (Z.lnot pn.[i])) (seq 0 WIDTH)).

Definition sub_assign (pn b : base_uint) : base_uint := add_assign pn (op_neg b).

Definition add_assign_u64 (pn : base_uint) (b64 : Z) : base_uint :=
  add_assign pn (base_uint_u64 b64).

Definition sub_assign_u64 (pn : base_uint) (b64 : Z) : base_uint :=
  add_assign pn (op_neg (base_uint_u64 b64)).

(** [CompareTo]: the highest limb that differs decides. *)
Fixpoint CompareTo_from (n : nat) (pn b : base_uint) : Z :=
  match n with
  | O => 0
  | S i =>
      if pn.[i] <? b.[i] then -1
      else if b.[i] <? pn.[i] then 1
      else CompareTo_from i pn b
  end.

Definition CompareTo (pn b : base_uint) : Z := CompareTo_from WIDTH pn b.

Definition op_eq (pn b : base_uint) : bool := forallb (λ i, pn.[i] =? b.[i]) (seq 0 WIDTH).
Definition op_gt (pn b : base_uint) : bool := 0 <? CompareTo pn b.
Definition op_lt (pn b : base_uint) : bool := CompareTo pn b <? 0.
Definition op_ge (pn b : base_uint) : bool := 0 <=? CompareTo pn b.
Definition op_le (pn b : base_uint) : bool := CompareTo pn b <=? 0.

Definition EqualTo (pn : base_uint) (b : Z) : bool :=
  if existsb (λ i, negb (pn.[i] =? 0)) (rev (seq 2 (WIDTH - 2))) then false
  else if negb (pn.[1] =? b >> 32) then false
  else if negb (pn.[0] =? b .& 0xffffffff) then false
  else true.

(** [bits]: the inner loop looks for the highest set bit of a nonzero limb. *)
Fixpoint limb_bits (x : Z) (bits : nat) : Z :=
  match bits with
  | O => 1
  | S b => if negb (x .& u32 (1 << Z.of_nat bits) =? 0) then Z.of_nat bits + 1 else limb_bits x b
  end.

Fixpoint bits_from (n : nat) (pn : base_uint) : Z :=
  match n with
  | O => 0
  | S pos => if negb (pn.[pos] =? 0) then 32 * Z.of_nat pos + limb_bits pn.[pos] 31 else bits_from pos pn
  end.

Definition bits (pn : base_uint) : Z := bits_from WIDTH pn.

(** The loop of [operator/=], entered with [n - 1] in [shift]. *)
Fixpoint div_loop (n : nat) (num div pn : base_uint) : base_uint * base_uint :=
  match n with
  | O => (pn, num)
  | S shift =>
      let '(num, pn) :=
        if op_ge num div
        then (sub_assign num div,
              <[(shift / 32)%nat :=
                 pn.[shift / 32] .| u32 (1 << (Z.of_nat shift .& 31))]> pn)
        else (num, pn) in
      div_loop shift num (shr_assign div 1) pn
  end.

(** [operator/=]: [None] is the [uint_error] thrown on a zero divisor. *)
Definition div_assign (num div : base_uint) : option base_uint :=
  let num_bits := bits num in
  let div_bits := bits div in
  if div_bits =? 0 then None
  else if num_bits <? div_bits then Some (base_uint_u64 0)
  else
    let shift := num_bits - div_bits in
    Some (fst (div_loop (Z.to_nat (shift + 1)) num (shl_assign div shift) (base_uint_u64 0))).

Definition GetLow64 (pn : base_uint) : Z := pn.[0] .| (pn.[1] << 32).

Definition Get64 (pn : base_uint) (n : nat) : Z := pn.[2 * n] .| (pn.[2 * n + 1] << 32).

End base_uint.

(** ** The number a limb array stands for *)

Fixpoint uval (l : list Z) : Z :=
  match l with
  | [] => 0
  | x :: l => x + 2 ^ 32 * uval l
  end.

(** The weight of limb [i], and the modulus of [W] limbs. *)
Definition bw (i : nat) : Z := 2 ^ (32 * Z.of_nat i).

(** The type invariant: [W] limbs of 32 bits. *)
Definition uwf (W : nat) (l : list Z) : Prop := length l = W ∧ Forall (word 32) l.

#[export] Instance uwf_dec W l : Decision (uwf W l).
Proof. unfold uwf. apply _. Defined.

(** Bounds on an index of a well-formed array. *)
Ltac ulen := repeat match goal with H : uwf _ _ |- _ => destruct H as [? _] end; lia.

Lemma bw_pos i : 0 < bw i.
Proof. apply Z.pow_pos_nonneg; lia. Qed.

Lemma bw_0 : bw 0 = 1.
Proof. done. Qed.

Lemma bw_S i : bw (S i) = 2 ^ 32 * bw i.
Proof. unfold bw. rewrite <- Z.pow_add_r by lia. f_equal. lia. Qed.

Lemma bw_add i j : bw (i + j) = bw i * bw j.
Proof. unfold bw. rewrite <- Z.pow_add_r by lia. f_equal. lia. Qed.

Lemma uval_range l : Forall (word 32) l → 0 ≤ uval l < bw (length l).
Proof.
  induction 1 as [|x l Hx _ IH]; simpl length; simpl uval; [done|].
  rewrite bw_S. unfold word in Hx. nia.
Qed.

Lemma uval_wf W l : uwf W l → 0 ≤ uval l < bw W.
Proof. intros [<- H]. by apply uval_range. Qed.

Lemma uval_app l1 l2 : uval (l1 ++ l2) = uval l1 + bw (length l1) * uval l2.
Proof.
  induction l1 as [|x l1 IH]; simpl; [rewrite bw_0; lia|]. rewrite IH, bw_S. nia.
Qed.

Lemma uval_replicate_0 n : uval (replicate n 0) = 0.
Proof. induction n; simpl; lia. Qed.

Lemma uval_take_S l i :
  (i < length l)%nat → uval (take (S i) l) = uval (take i l) + l.[i] * bw i.
Proof.
  intros Hi. destruct (lookup_lt_is_Some_2 l i Hi) as [x Hx].
  rewrite (take_S_r l i x Hx), uval_app, length_take_le by lia.
  rewrite (nth_lookup_Some l i 0 x Hx). simpl. lia.
Qed.

Lemma uval_take_bound l i : Forall (word 32) l → 0 ≤ uval (take i l) < bw i.
Proof.
  intros H. pose proof (uval_range (take i l) (Forall_take _ _ _ H)) as [? Hlt].
  split; [done|]. eapply Z.lt_le_trans; [apply Hlt|].
  apply Z.pow_le_mono_r; [lia|]. rewrite length_take. lia.
Qed.

(** Writing limb [i] moves the value by the difference, weighted. *)
Lemma uval_insert l i v :
  (i < length l)%nat → uval (<[i := v]> l) = uval l + (v - l.[i]) * bw i.
Proof.
  revert i. induction l as [|x l IH]; simpl; [lia|]. intros [|i] Hi; simpl.
  - rewrite bw_0. lia.
  - rewrite IH, bw_S by lia. nia.
Qed.

Lemma nth_insert_eq (l : list Z) i v : (i < length l)%nat → (<[i := v]> l).[i] = v.
Proof. intros. apply nth_lookup_Some. by apply list_lookup_insert_eq. Qed.

Lemma nth_insert_ne (l : list Z) i j v : i ≠ j → (<[i := v]> l).[j] = l.[j].
Proof. intros H. by rewrite !nth_lookup, list_lookup_insert_ne. Qed.

Lemma uwf_insert W l i v : uwf W l → word 32 v → uwf W (<[i := v]> l).
Proof.
  intros [Hl Hw] Hv. split; [by rewrite length_insert|]. by apply Forall_insert.
Qed.

Lemma uwf_nth W l i : uwf W l → word 32 l.[i].
Proof. intros [_ H]. by apply nth_word. Qed.
#[export] Hint Resolve uwf_insert uwf_nth : words.

Lemma uval_inj W l1 l2 : uwf W l1 → uwf W l2 → uval l1 = uval l2 → l1 = l2.
Proof.
  intros [H1 W1]. revert W l2 H1. induction W1 as [|x l1 Hx Hl1 IH]; intros W l2 H1 [H2 W2] E.
  - destruct l2; [done|simpl in *; lia].
  - destruct W2 as [|y l2 Hy Hl2]; [simpl in *; lia|]. simpl in *. unfold word in Hx, Hy.
    assert (x = y ∧ uval l1 = uval l2) as [-> E'].
    { split; [|nia]. pose proof (f_equal (λ z, z mod 2 ^ 32) E) as M. simpl in M.
      rewrite !(Z.mul_comm (2 ^ 32)), !Z_mod_plus_full, !Z.mod_small in M; lia. }
    f_equal. apply (IH (length l1)); [done|split; [lia|done]|done].
Qed.

(** A well-formed array is determined modulo [bw W] by its value. *)
Lemma uval_mod W l v : uwf W l → (bw W | uval l - v) → uval l = v mod bw W.
Proof.
  intros Hl [q Hq]. pose proof (uval_wf W l Hl). pose proof (bw_pos W).
  apply (Z.mod_unique_pos _ _ (- q)); lia.
Qed.

Lemma uval_cons_nth l : uval l = l.[0] + 2 ^ 32 * uval (tail l).
Proof. destruct l; simpl; lia. Qed.

Lemma uwf_zero W : uwf W (base_uint_zero W).
Proof. split; [apply length_replicate|]. apply Forall_replicate. by apply word_0. Qed.

Lemma uval_zero W : uval (base_uint_zero W) = 0.
Proof. apply uval_replicate_0. Qed.

Lemma uwf_u64 W b : (2 ≤ W)%nat → uwf W (base_uint_u64 W b).
Proof.
  intros. split; [simpl; rewrite length_replicate; lia|].
  repeat constructor; try apply u32_word. apply Forall_replicate. by apply word_0.
Qed.

Lemma uval_u64 W b : word 64 b → uval (base_uint_u64 W b) = b.
Proof.
  intros [H0 H1]. unfold base_uint_u64. cbn [uval]. rewrite uval_replicate_0, !u32_mod.
  rewrite Z.shiftr_div_pow2 by lia.
  rewrite (Z.mod_small (b / 2 ^ 32)).
  2:{ split; [by apply Z.div_pos|]. apply Z.div_lt_upper_bound; [lia|].
      change (2 ^ 32 * 2 ^ 32) with (2 ^ 64). lia. }
  pose proof (Z.div_mod b (2 ^ 32)). lia.
Qed.

(** ** Addition, subtraction and multiplication are arithmetic modulo [bw W] *)

(** The carry chain: a limb takes [carry + pn[i] + g i] with [g] an addend that
    leaves the 64-bit sum exact. *)
Section carry.
Context (W off : nat) (g : nat → Z) (f : base_uint * Z → nat → base_uint * Z).
Context (pn0 : base_uint).
Context (Hg : ∀ i, 0 ≤ pn0.[i + off] + g i ≤ (2 ^ 32 - 1) * 2 ^ 32).
Context (Hf : ∀ pn carry i, uwf W pn → word 32 carry → (i + off < W)%nat →
  pn.[i + off] = pn0.[i + off] →
  f (pn, carry) i = carry_step (carry + pn.[i + off] + g i) (i + off) pn).

Lemma carry_chain n :
  uwf W pn0 → (n + off ≤ W)%nat →
  let r := fold_left f (seq 0 n) (pn0, 0) in
  uwf W r.1 ∧ word 32 r.2 ∧
  (∀ i, (n + off ≤ i)%nat → r.1.[i] = pn0.[i]) ∧
  uval r.1 + r.2 * bw (n + off) = uval pn0 + bw off * uval (map g (seq 0 n)).
Proof using Hg Hf.
  intros Hpn. induction n as [|n IH]; intros Hn.
  - simpl. repeat split; try apply Hpn; try done. lia.
  - rewrite seq_S, fold_left_app. cbn [fold_left]. rewrite Nat.add_0_l.
    destruct IH as (Hw & Hc & Hr & E); [lia|].
    destruct (fold_left f (seq 0 n) (pn0, 0)) as [pn c]. cbn [fst snd] in *.
    rewrite Hf by (try done; lia || apply Hr; lia). unfold carry_step. cbn [fst snd].
    set (s := c + pn.[n + off] + g n).
    assert (word 64 s) as Hs.
    { pose proof (Hg n). unfold word in *.
      subst s. rewrite Hr by lia. change (2 ^ 64) with (2 ^ 32 * 2 ^ 32). nia. }
    change 0xffffffff with (Z.ones 32). rewrite Z.land_ones, Z.shiftr_div_pow2 by lia.
    pose proof (Z.div_mod s (2 ^ 32) ltac:(lia)) as Hdm.
    split; [|split; [|split]].
    + apply uwf_insert; [done|by apply word_mod].
    + unfold word in *. change (2 ^ 64) with (2 ^ 32 * 2 ^ 32) in Hs.
      split; [apply Z.div_pos; lia|]. apply Z.div_lt_upper_bound; lia.
    + intros i Hi. rewrite nth_insert_ne by lia. apply Hr. lia.
    + rewrite uval_insert by ulen.
      rewrite map_app, uval_app, length_map, length_seq. cbn [map uval Nat.add].
      change (S n + off)%nat with (S (n + off)). rewrite bw_S, !bw_add.
      rewrite bw_add in E. subst s. nia.
Qed.
End carry.

Lemma map_nth_seq (b : list Z) n : length b = n → map (λ i, b.[i]) (seq 0 n) = b.
Proof.
  intros <-. apply nth_ext with 0 0; [by rewrite length_map, length_seq|].
  intros i Hi. rewrite length_map, length_seq in Hi.
  rewrite (nth_indep _ 0 (b.[0])) by by rewrite length_map, length_seq.
  rewrite (map_nth (λ i, b.[i]) _ 0%nat), seq_nth by done. done.
Qed.

Lemma uval_map_mul k (h : nat → Z) l : uval (map (λ i, k * h i) l) = k * uval (map h l).
Proof. induction l as [|x l IH]; simpl; lia. Qed.

(** A carry out of the top limb is lost modulo its weight. *)
Lemma carry_divide u c m v : u + c * m = v → (m | u - v).
Proof. intros <-. exists (- c). lia. Qed.

Lemma add_assign_spec W a b :
  uwf W a → uwf W b →
  uwf W (add_assign W a b) ∧ uval (add_assign W a b) = (uval a + uval b) mod bw W.
Proof.
  intros Ha Hb. unfold add_assign.
  edestruct (carry_chain W 0 (λ i, b.[i]) (add_step b) a) as (Hw & Hc & _ & E);
    [| |exact Ha|by rewrite Nat.add_0_r|split; [exact Hw|]].
  - intros i. pose proof (uwf_nth W a (i + 0) Ha). pose proof (uwf_nth W b i Hb).
    unfold word in *. lia.
  - intros pn c i Hpn Hc _ _. unfold add_step. rewrite Nat.add_0_r, u64_id; [done|].
    pose proof (uwf_nth W pn i Hpn). pose proof (uwf_nth W b i Hb). unfold word in *. lia.
  - apply uval_mod; [exact Hw|]. rewrite (map_nth_seq b) in E by apply Hb.
    rewrite bw_0, Nat.add_0_r, Z.mul_1_l in E. exact (carry_divide _ _ _ _ E).
Qed.

Lemma mul_assign_u32_spec W a b :
  uwf W a → word 32 b →
  uwf W (mul_assign_u32 W a b) ∧ uval (mul_assign_u32 W a b) = (uval a * b) mod bw W.
Proof.
  intros Ha Hb. unfold mul_assign_u32.
  edestruct (carry_chain W 0 (λ i, (b - 1) * a.[i]) (mul_u32_step b) a) as (Hw & Hc & _ & E);
    [| |exact Ha|by rewrite Nat.add_0_r|split; [exact Hw|]].
  - intros i. rewrite Nat.add_0_r. pose proof (uwf_nth W a i Ha). unfold word in *. nia.
  - intros pn c i Hpn Hc _ Hr. unfold mul_u32_step. rewrite Nat.add_0_r in *. rewrite u64_id.
    + f_equal. rewrite Hr. lia.
    + pose proof (uwf_nth W pn i Hpn). unfold word in *. change (2 ^ 64) with (2 ^ 32 * 2 ^ 32). nia.
  - apply uval_mod; [exact Hw|]. rewrite uval_map_mul, (map_nth_seq a) in E by apply Ha.
    rewrite bw_0, Nat.add_0_r in E. replace (uval a * b) with (uval a + 1 * ((b - 1) * uval a)) by lia.
    exact (carry_divide _ _ _ _ E).
Qed.

Lemma mul_row_spec W aj b pn j :
  uwf W pn → uwf W b → word 32 aj → (j < W)%nat →
  uwf W (mul_row W aj b pn j) ∧
  (bw W | uval (mul_row W aj b pn j) - (uval pn + aj * bw j * uval b)).
Proof.
  intros Hpn Hb Ha Hj. unfold mul_row.
  edestruct (carry_chain W j (λ i, aj * b.[i]) (mul_step aj b j) pn)
    as (Hw & Hc & _ & E); [| |exact Hpn| |split; [exact Hw|]].
  - intros i. pose proof (uwf_nth W pn (i + j) Hpn). pose proof (uwf_nth W b i Hb).
    unfold word in *. nia.
  - intros p c i Hp Hc _ _. unfold mul_step. rewrite u64_id; [done|].
    pose proof (uwf_nth W p (i + j) Hp). pose proof (uwf_nth W b i Hb). unfold word in *.
    change (2 ^ 64) with (2 ^ 32 * 2 ^ 32). nia.
  - lia.
  - replace (W - j + j)%nat with W in E by lia.
    rewrite uval_map_mul in E.
    assert (∃ q, uval b = uval (map (λ i, b.[i]) (seq 0 (W - j))) + q * bw (W - j)) as [q Hq].
    { exists (uval (drop (W - j) b)). rewrite <- (map_nth_seq b W) at 1 by apply Hb.
      replace W with ((W - j) + j)%nat at 1 by lia.
      rewrite seq_app, map_app, uval_app, length_map, length_seq.
      replace (map (λ i, b.[i]) (seq (0 + (W - j)) j)) with (drop (W - j) b); [lia|].
      rewrite <- (map_nth_seq b W) at 1 by apply Hb.
      replace W with ((W - j) + j)%nat at 2 by lia.
      rewrite seq_app, map_app, drop_app_length'; [done|]. by rewrite length_map, length_seq. }
    rewrite Hq. assert (bw W = bw j * bw (W - j)) as HW by (rewrite <- bw_add; f_equal; lia).
    rewrite HW in E |- *.
    match type of E with ?u + ?c * _ = _ => exists (- c - aj * q); generalize dependent u;
      generalize c; clear; intros c0 u0 E0 end.
    nia.
Qed.

Lemma mul_assign_spec W a b :
  (2 ≤ W)%nat → uwf W a → uwf W b →
  uwf W (mul_assign W a b) ∧ uval (mul_assign W a b) = (uval a * uval b) mod bw W.
Proof.
  intros HW Ha Hb.
  assert (∀ n, (n ≤ W)%nat →
    let r := fold_left (λ pn j, mul_row W a.[j] b pn j) (seq 0 n) (base_uint_u64 W 0) in
    uwf W r ∧ (bw W | uval r - uval (take n a) * uval b)) as H.
  { induction n as [|n IH]; intros Hn.
    - simpl fold_left. split; [by apply uwf_u64|]. rewrite uval_u64 by done. by exists 0.
    - rewrite seq_S, fold_left_app. cbn [fold_left]. rewrite Nat.add_0_l.
      destruct IH as [Hw Hd]; [lia|]. cbn zeta.
      destruct (mul_row_spec W a.[n] b _ n Hw Hb (uwf_nth _ _ _ Ha)) as [Hw' Hd']; [lia|].
      split; [exact Hw'|]. rewrite uval_take_S by ulen.
      destruct Hd as [q Hq], Hd' as [q' Hq']. exists (q + q'). nia. }
  destruct (H W) as [Hw Hd]; [lia|]. rewrite take_ge in Hd by ulen.
  split; [exact Hw|]. by apply uval_mod.
Qed.

Lemma incr_from_spec W n i pn :
  uwf W pn → (i + n = W)%nat → (0 < n)%nat →
  uwf W (incr_from W n i pn) ∧ uval (incr_from W n i pn) = (uval pn + bw i) mod bw W.
Proof.
  revert i pn. induction n as [|n IH]; intros i pn Hpn Hi Hn; [lia|]. cbn [incr_from].
  pose proof (uwf_nth W pn i Hpn) as Hx. rewrite nth_insert_eq by ulen.
  set (pn' := <[i := u32 (pn.[i] + 1)]> pn).
  assert (uwf W pn') as Hpn' by (apply uwf_insert; auto with words).
  assert (uval pn' = uval pn + (u32 (pn.[i] + 1) - pn.[i]) * bw i) as E.
  { apply uval_insert. destruct Hpn as [-> _]. lia. }
  clearbody pn'.
  rewrite u32_mod in E. unfold word in Hx. pose proof (bw_S i) as HS.
  destruct (Z.eqb_spec (u32 (pn.[i] + 1)) 0) as [Z0|NZ]; rewrite u32_mod in *.
  - assert (pn.[i] = 2 ^ 32 - 1) as Ex.
    { destruct (Z.eq_dec (pn.[i]) (2 ^ 32 - 1)); [done|]. rewrite Z.mod_small in Z0; lia. }
    rewrite Z0, Ex in E. destruct (Nat.ltb_spec i (W - 1)); cbn [andb].
    + edestruct (IH (S i) pn') as [Hw ->]; [done|lia|lia|]. split; [done|].
      f_equal. nia.
    + split; [done|]. replace (S i) with W in HS by lia. apply uval_mod; [done|]. exists (-1). nia.
  - rewrite andb_false_l. split; [done|]. apply uval_mod; [done|]. exists 0.
    rewrite Z.mod_small in E; [nia|]. split; [lia|].
    destruct (Z.eq_dec (pn.[i] + 1) (2 ^ 32)) as [Q|]; [|lia]. by rewrite Q in NZ.
Qed.

Lemma decr_from_spec W n i pn :
  uwf W pn → (i + n = W)%nat → (0 < n)%nat →
  uwf W (decr_from W n i pn) ∧ uval (decr_from W n i pn) = (uval pn - bw i) mod bw W.
Proof.
  revert i pn. induction n as [|n IH]; intros i pn Hpn Hi Hn; [lia|]. cbn [decr_from].
  pose proof (uwf_nth W pn i Hpn) as Hx. rewrite nth_insert_eq by ulen.
  set (pn' := <[i := u32 (pn.[i] - 1)]> pn).
  assert (uwf W pn') as Hpn' by (apply uwf_insert; auto with words).
  assert (uval pn' = uval pn + (u32 (pn.[i] - 1) - pn.[i]) * bw i) as E.
  { apply uval_insert. destruct Hpn as [-> _]. lia. }
  clearbody pn'.
  unfold word in Hx. pose proof (bw_S i) as HS.
  assert (u32 (pn.[i] - 1) = if pn.[i] =? 0 then 0xffffffff else pn.[i] - 1) as Hv.
  { rewrite u32_mod. destruct (Z.eqb_spec (pn.[i]) 0) as [->|]; [done|]. apply Z.mod_small. lia. }
  rewrite Hv in *. destruct (Z.eqb_spec (pn.[i]) 0) as [Z0|NZ].
  - change (0xffffffff =? 0xffffffff) with true. rewrite Z0 in E.
    destruct (Nat.ltb_spec i (W - 1)); cbn [andb].
    + edestruct (IH (S i) pn') as [Hw ->]; [done|lia|lia|]. split; [done|]. f_equal. nia.
    + split; [done|]. replace (S i) with W in HS by lia. apply uval_mod; [done|]. exists 1. nia.
  - replace (pn.[i] - 1 =? 0xffffffff) with false by (symmetry; apply Z.eqb_neq; lia).
    cbn [andb]. split; [done|]. apply uval_mod; [done|]. exists 0. nia.
Qed.

Lemma op_incr_spec W pn :
  (0 < W)%nat → uwf W pn →
  uwf W (op_incr W pn) ∧ uval (op_incr W pn) = (uval pn + 1) mod bw W.
Proof. intros. by apply (incr_from_spec W W 0 pn). Qed.

Lemma op_decr_spec W pn :
  (0 < W)%nat → uwf W pn →
  uwf W (op_decr W pn) ∧ uval (op_decr W pn) = (uval pn - 1) mod bw W.
Proof. intros. by apply (decr_from_spec W W 0 pn). Qed.

Lemma u32_lnot x : word 32 x → u32 (Z.lnot x) = 2 ^ 32 - 1 - x.
Proof.
  intros H. rewrite u32_mod. unfold Z.lnot, word in *.
  symmetry. apply (Z.mod_unique_pos _ _ (-1)); lia.
Qed.

Lemma op_not_spec W pn :
  uwf W pn → uwf W (op_not W pn) ∧ uval (op_not W pn) = bw W - 1 - uval pn.
Proof.
  intros [Hl Hw]. unfold op_not. split.
  - split; [by rewrite length_map, length_seq|]. apply Forall_forall.
    intros x [i [-> _]]%list_elem_of_fmap. apply u32_word.
  - rewrite <- (map_map (λ i, pn.[i]) (λ x, u32 (Z.lnot x))), (map_nth_seq pn) by done.
    rewrite <- Hl. clear Hl. induction Hw as [|x l Hx _ IH]; simpl length; [done|].
    cbn [map uval]. rewrite IH, u32_lnot, bw_S by done. lia.
Qed.

Lemma op_neg_spec W pn :
  (0 < W)%nat → uwf W pn →
  uwf W (op_neg W pn) ∧ uval (op_neg W pn) = (- uval pn) mod bw W.
Proof.
  intros HW Hpn. destruct (op_not_spec W pn Hpn) as [Hn En].
  destruct (op_incr_spec W _ HW Hn) as [Hi Ei]. split; [done|].
  change (op_neg W pn) with (op_incr W (op_not W pn)). rewrite Ei, En.
  replace (bw W - 1 - uval pn + 1) with (- uval pn + 1 * bw W) by lia. apply Z_mod_plus_full.
Qed.

Lemma sub_assign_spec W a b :
  (0 < W)%nat → uwf W a → uwf W b →
  uwf W (sub_assign W a b) ∧ uval (sub_assign W a b) = (uval a - uval b) mod bw W.
Proof.
  intros HW Ha Hb. destruct (op_neg_spec W b HW Hb) as [Hn En].
  destruct (add_assign_spec W a _ Ha Hn) as [Hs Es]. split; [done|].
  unfold sub_assign. rewrite Es, En, Zplus_mod_idemp_r. f_equal; lia.
Qed.

(** ** Shifts *)

Lemma shl_split s x :
  0 ≤ s < 32 → word 32 x →
  x * 2 ^ s = (x >> (32 - s)) * 2 ^ 32 + u32 (x << s) ∧ u32 (x << s) mod 2 ^ s = 0.
Proof.
  intros Hs Hx. rewrite u32_mod, shiftl_mod, Z.shiftr_div_pow2 by lia.
  pose proof (Z.div_mod x (2 ^ (32 - s)) ltac:(apply Z.pow_nonzero; lia)) as Hdm.
  split.
  - replace (2 ^ 32) with (2 ^ (32 - s) * 2 ^ s) by (rewrite <- Z.pow_add_r by lia; f_equal; lia).
    nia.
  - apply Z.mod_mul. apply Z.pow_nonzero; lia.
Qed.

Lemma shr_word x n m : 0 ≤ n → 0 ≤ m → word (n + m) x → word m (x >> n).
Proof.
  intros Hn Hm [H0 H1]. rewrite Z.shiftr_div_pow2 by done. rewrite Z.pow_add_r in H1 by lia.
  split; [apply Z.div_pos; [done|]; by apply Z.pow_pos_nonneg|].
  apply Z.div_lt_upper_bound; [by apply Z.pow_pos_nonneg|done].
Qed.

Lemma shl_step_spec W a k s pn m :
  0 ≤ s < 32 → uwf W a → uwf W pn → (m < W)%nat →
  word s pn.[m + k] → (∀ i, (m + k < i)%nat → pn.[i] = 0) →
  let pn' := shl_step W a k s pn m in
  uwf W pn' ∧ word s pn'.[S m + k] ∧ (∀ i, (S m + k < i)%nat → pn'.[i] = 0) ∧
  (bw W | uval pn' - (uval pn + a.[m] * 2 ^ s * bw (m + k))).
Proof.
  intros Hs Ha Hpn Hm Hlo Hz. unfold shl_step. cbn zeta.
  pose proof (uwf_nth W a m Ha) as Hx.
  destruct (shl_split s a.[m] Hs Hx) as [Hsp Hmod].
  set (hi := a.[m] >> (32 - s)) in *. set (lo := u32 (a.[m] << s)) in *.
  assert (word s hi) as Hhi.
  { apply shr_word; [lia..|]. by replace (32 - s + s) with 32 by lia. }
  set (p1 := if (m + k + 1 <? W)%nat && negb (s =? 0) then _ else pn).
  assert (uwf W p1 ∧ p1.[m + k] = pn.[m + k] ∧ word s p1.[S m + k] ∧
    (∀ i, (S m + k < i)%nat → p1.[i] = 0) ∧ (bw W | uval p1 - (uval pn + hi * bw (S m + k))))
    as (Hw1 & H1 & H2 & H3 & H4).
  { subst p1. assert (word s 0) by (apply word_0; lia).
    destruct (Nat.ltb_spec (m + k + 1) W) as [Hlt|Hge]; cbn [andb].
    - destruct (Z.eqb_spec s 0) as [->|Hs0]; cbn [negb].
      + assert (hi = 0) as -> by (unfold word in Hhi; lia).
        split; [done|]. split; [done|]. split; [rewrite Hz by lia; done|].
        split; [intros; apply Hz; lia|]. exists 0. lia.
      + rewrite Hz, Z.lor_0_l by lia. replace (S m + k)%nat with (m + k + 1)%nat by lia.
        split; [apply uwf_insert; [done|]; eapply word_weaken; [|done]; lia|].
        split; [apply nth_insert_ne; lia|].
        split; [by rewrite nth_insert_eq by ulen|].
        split; [intros; rewrite nth_insert_ne by lia; apply Hz; lia|].
        rewrite uval_insert, Hz by ulen. exists 0. lia.
    - split; [done|]. split; [done|]. split; [rewrite Hz by lia; done|].
      split; [intros; apply Hz; lia|]. exists (- hi * bw (S m + k - W)).
      replace (bw (S m + k)) with (bw (S m + k - W) * bw W) by (rewrite <- bw_add; f_equal; lia).
      lia. }
  clearbody p1. rewrite bw_S in H4 || (change (S m + k)%nat with (S (m + k)) in H4; rewrite bw_S in H4).
  destruct (Nat.ltb_spec (m + k) W) as [Hlt|Hge].
  - assert (p1.[m + k] .| lo = pn.[m + k] + lo) as Elor.
    { rewrite H1, Z.lor_comm, (lor_disjoint s) by (lia || done). lia. }
    assert (word 32 lo) as Hlo32 by apply u32_word.
    split; [apply uwf_insert; [done|]; apply word_lor; [lia| |done]; by eapply uwf_nth|].
    split; [by rewrite nth_insert_ne by lia|].
    split; [intros; rewrite nth_insert_ne by lia; by apply H3|].
    rewrite uval_insert by ulen. rewrite Elor, H1, Hsp.
    destruct H4 as [q Hq]. exists q. lia.
  - split; [done|]. split; [done|]. split; [done|].
    destruct H4 as [q Hq]. rewrite Hsp.
    replace (bw (m + k)) with (bw (m + k - W) * bw W) in * by (rewrite <- bw_add; f_equal; lia).
    exists (q - lo * bw (m + k - W)). lia.
Qed.

Lemma bw_shift k s : 0 ≤ s → 2 ^ s * bw k = 2 ^ (32 * Z.of_nat k + s).
Proof. intros. unfold bw. rewrite <- Z.pow_add_r by lia. f_equal. lia. Qed.

Lemma shl_assign_spec W a shift :
  0 ≤ shift → uwf W a →
  uwf W (shl_assign W a shift) ∧
  uval (shl_assign W a shift) = (uval a * 2 ^ shift) mod bw W.
Proof.
  intros Hsh Ha. unfold shl_assign.
  set (k := Z.to_nat (shift / 32)). set (s := shift mod 32).
  assert (0 ≤ s < 32) as Hs by (apply Z.mod_pos_bound; lia).
  assert (shift = 32 * Z.of_nat k + s) as Esh.
  { pose proof (Z.div_mod shift 32). subst k s. rewrite Z2Nat.id by (apply Z.div_pos; lia). lia. }
  assert (∀ n, (n ≤ W)%nat →
    let r := fold_left (shl_step W a k s) (seq 0 n) (base_uint_zero W) in
    uwf W r ∧ word s r.[n + k] ∧ (∀ i, (n + k < i)%nat → r.[i] = 0) ∧
    (bw W | uval r - uval (take n a) * 2 ^ shift)) as H.
  { assert (∀ i, (base_uint_zero W).[i] = 0) as Hz.
    { intros i. rewrite nth_lookup. by destruct (_ !! i) eqn:E; [apply lookup_replicate in E as [-> _]|]. }
    induction n as [|n IH]; intros Hn.
    - simpl fold_left. split; [apply uwf_zero|]. rewrite Hz, uval_zero.
      split; [apply word_0; lia|]. split; [done|]. by exists 0.
    - rewrite seq_S, fold_left_app. cbn [fold_left]. rewrite Nat.add_0_l. cbn zeta.
      destruct IH as (Hw & H1 & H2 & [q Hq]); [lia|].
      destruct (shl_step_spec W a k s _ n Hs Ha Hw ltac:(lia) H1 H2) as (Hw' & H1' & H2' & [q' Hq']).
      split; [exact Hw'|]. split; [exact H1'|]. split; [exact H2'|].
      exists (q + q'). rewrite uval_take_S by ulen.
      rewrite bw_add, (Z.mul_comm (bw n)) in Hq'.
      assert (a.[n] * 2 ^ s * (bw k * bw n) = a.[n] * bw n * 2 ^ shift) as Ew.
      { rewrite Esh, <- bw_shift by lia. lia. }
      lia. }
  destruct (H W) as (Hw & _ & _ & Hd); [lia|].
  rewrite take_ge in Hd by ulen.
  split; [done|]. by apply uval_mod.
Qed.

Lemma shr_split s x :
  0 < s < 32 → word 32 x →
  x * 2 ^ (32 - s) = (x >> s) * 2 ^ 32 + u32 (x << (32 - s)) ∧
  u32 (x << (32 - s)) mod 2 ^ (32 - s) = 0.
Proof.
  intros Hs Hx. destruct (shl_split (32 - s) x) as [H1 H2]; [lia|done|].
  by replace (32 - (32 - s)) with s in H1 by lia.
Qed.

(** Dividing by [2^s * bw k]: a limb below position [k] contributes nothing
    beyond the remainder, one at [k] its quotient, one above all of itself. *)
Lemma shr_step_spec W a k s pn m :
  0 ≤ s < 32 → uwf W a → uwf W pn → (m < W)%nat →
  (∀ i, (m ≤ i + k)%nat → pn.[i] = 0) →
  ((k < m)%nat → word (32 - s) pn.[m - k - 1]) →
  uval pn = uval (take m a) / (2 ^ s * bw k) →
  let pn' := shr_step a k s pn m in
  uwf W pn' ∧ (∀ i, (S m ≤ i + k)%nat → pn'.[i] = 0) ∧
  ((k < S m)%nat → word (32 - s) pn'.[S m - k - 1]) ∧
  uval pn' = uval (take (S m) a) / (2 ^ s * bw k).
Proof.
  intros Hs Ha Hpn Hm Hz Hhi Hv. unfold shr_step. cbn zeta.
  pose proof (uwf_nth W a m Ha) as Hx. rewrite uval_take_S by ulen.
  pose proof (uval_take_bound a m (proj2 Ha)) as Hb.
  assert (0 < 2 ^ s) as Hs0 by (apply Z.pow_pos_nonneg; lia). pose proof (bw_pos k) as Hk0.
  assert (word (32 - s) (a.[m] >> s)) as Hq.
  { apply shr_word; [lia..|]. by replace (s + (32 - s)) with 32 by lia. }
  destruct (Nat.leb_spec k m) as [Hkm|Hkm].
  2:{ destruct (Nat.leb_spec (k + 1) m); [lia|]. cbn [andb].
      split; [done|]. split; [intros; apply Hz; lia|]. split; [lia|].
      replace (bw k) with (2 ^ 32 * bw m * bw (k - S m)) in * by
        (rewrite <- bw_S, <- bw_add; f_equal; lia).
      pose proof (bw_pos (k - S m)). pose proof (bw_pos m). unfold word in Hx.
      assert (2 ^ 32 * bw m ≤ 2 ^ s * (2 ^ 32 * bw m * bw (k - S m))) by nia.
      rewrite Hv, !Z.div_small by nia. done. }
  destruct (Nat.leb_spec (k + 1) m) as [Hk1|Hk1]; cbn [andb].
  - set (p1 := if negb (s =? 0) then _ else pn).
    assert (∃ lo, uwf W p1 ∧ (∀ i, (m ≤ i + k)%nat → p1.[i] = 0) ∧
      uval p1 = uval pn + lo * bw (m - k - 1) ∧
      a.[m] * 2 ^ 32 = 2 ^ s * ((a.[m] >> s) * 2 ^ 32 + lo)) as (lo & Hw1 & Hz1 & Hv1 & Hlo).
    { subst p1. destruct (Z.eqb_spec s 0) as [->|Hs1]; cbn [negb].
      - exists 0. rewrite Z.shiftr_0_r. repeat (split; [done || lia|]). lia.
      - destruct (shr_split s a.[m]) as [E1 E2]; [lia|done|].
        exists (u32 (a.[m] << (32 - s))).
        assert (pn.[m - k - 1] .| u32 (a.[m] << (32 - s)) =
          pn.[m - k - 1] + u32 (a.[m] << (32 - s))) as Elor.
        { rewrite Z.lor_comm, (lor_disjoint (32 - s)); [lia|lia|apply Hhi; lia|done]. }
        split; [apply uwf_insert; [done|]; apply word_lor; [lia|by eapply uwf_nth|apply u32_word]|].
        split; [intros; rewrite nth_insert_ne by lia; by apply Hz|].
        split; [rewrite uval_insert, Elor by ulen; lia|].
        rewrite <- E1. replace 32 with (s + (32 - s)) at 1 by lia. rewrite Z.pow_add_r by lia. lia. }
    clearbody p1. rewrite Hz1, Z.lor_0_l by lia.
    split; [apply uwf_insert; [done|]; eapply word_weaken; [|done]; lia|].
    split; [intros; rewrite nth_insert_ne by lia; apply Hz1; lia|].
    split; [intros _; replace (S m - k - 1)%nat with (m - k)%nat by lia; by rewrite nth_insert_eq by ulen|].
    rewrite uval_insert, Hz1, Hv1, Hv by (ulen || lia).
    replace (bw (m - k)) with (2 ^ 32 * bw (m - k - 1)) by (rewrite <- bw_S; f_equal; lia).
    replace (a.[m] * bw m) with (((a.[m] >> s) * 2 ^ 32 + lo) * bw (m - k - 1) * (2 ^ s * bw k)).
    2:{ assert (bw m = 2 ^ 32 * (bw k * bw (m - k - 1))) as ->
          by (rewrite <- bw_add, <- bw_S; f_equal; lia). nia. }
    rewrite Z.div_add by nia. lia.
  - assert (m = k) as -> by lia. rewrite Nat.sub_diag, Hz, Z.lor_0_l by lia.
    split; [apply uwf_insert; [done|]; eapply word_weaken; [|done]; lia|].
    split; [intros; rewrite nth_insert_ne by lia; apply Hz; lia|].
    split; [intros _; replace (S k - k - 1)%nat with 0%nat by lia; by rewrite nth_insert_eq by ulen|].
    rewrite uval_insert, Hz, Hv, bw_0 by (ulen || lia).
    rewrite (Z.div_small (uval (take k a))) by nia.
    rewrite (Z.mul_comm (2 ^ s)), <- Z.div_div by lia.
    rewrite Z.div_add, (Z.div_small (uval _)), Z.shiftr_div_pow2, !Z.add_0_l by lia. lia.
Qed.

Lemma shr_assign_spec W a shift :
  0 ≤ shift → uwf W a →
  uwf W (shr_assign W a shift) ∧ uval (shr_assign W a shift) = uval a / 2 ^ shift.
Proof.
  intros Hsh Ha. unfold shr_assign.
  set (k := Z.to_nat (shift / 32)). set (s := shift mod 32).
  assert (0 ≤ s < 32) as Hs by (apply Z.mod_pos_bound; lia).
  assert (2 ^ shift = 2 ^ s * bw k) as ->.
  { rewrite bw_shift by lia. f_equal. pose proof (Z.div_mod shift 32). subst k s.
    rewrite Z2Nat.id by (apply Z.div_pos; lia). lia. }
  assert (∀ n, (n ≤ W)%nat →
    let r := fold_left (shr_step a k s) (seq 0 n) (base_uint_zero W) in
    uwf W r ∧ (∀ i, (n ≤ i + k)%nat → r.[i] = 0) ∧
    ((k < n)%nat → word (32 - s) r.[n - k - 1]) ∧
    uval r = uval (take n a) / (2 ^ s * bw k)) as H.
  { assert (∀ i, (base_uint_zero W).[i] = 0) as Hz.
    { intros i. rewrite nth_lookup. by destruct (_ !! i) eqn:E; [apply lookup_replicate in E as [-> _]|]. }
    induction n as [|n IH]; intros Hn.
    - simpl fold_left. split; [apply uwf_zero|]. rewrite uval_zero.
      split; [done|]. split; [lia|]. simpl uval. by rewrite Z.div_0_l by (pose proof (bw_pos k); pose proof (Z.pow_pos_nonneg 2 s); nia).
    - rewrite seq_S, fold_left_app. cbn [fold_left]. rewrite Nat.add_0_l. cbn zeta.
      destruct IH as (Hw & H1 & H2 & H3); [lia|]. by apply (shr_step_spec W); try lia. }
  destruct (H W) as (Hw & _ & _ & Hd); [lia|].
  rewrite take_ge in Hd by ulen. done.
Qed.

(** ** Comparison and bit length *)

Lemma CompareTo_from_spec n a b :
  Forall (word 32) a → Forall (word 32) b → (n ≤ length a)%nat → (n ≤ length b)%nat →
  CompareTo_from n a b =
    match uval (take n a) ?= uval (take n b) with Lt => -1 | Eq => 0 | Gt => 1 end.
Proof.
  intros Ha Hb. induction n as [|n IH]; intros Hla Hlb; [done|].
  cbn [CompareTo_from]. rewrite !uval_take_S, IH by lia.
  pose proof (uval_take_bound a n Ha). pose proof (uval_take_bound b n Hb). pose proof (bw_pos n).
  destruct (Z.ltb_spec a.[n] b.[n]); [destruct (Z.compare_spec (uval (take n a) + a.[n] * bw n) (uval (take n b) + b.[n] * bw n)); nia|].
  destruct (Z.ltb_spec b.[n] a.[n]); [destruct (Z.compare_spec (uval (take n a) + a.[n] * bw n) (uval (take n b) + b.[n] * bw n)); nia|].
  assert (a.[n] = b.[n]) as -> by lia.
  by rewrite !(Z.add_comm _ (b.[n] * bw n)), Zcompare_plus_compat.
Qed.

Lemma CompareTo_spec W a b :
  uwf W a → uwf W b →
  CompareTo W a b = match uval a ?= uval b with Lt => -1 | Eq => 0 | Gt => 1 end.
Proof.
  intros Ha Hb. unfold CompareTo. rewrite CompareTo_from_spec by (apply Ha || apply Hb || ulen).
  by rewrite !take_ge by ulen.
Qed.

Lemma op_ge_spec W a b : uwf W a → uwf W b → op_ge W a b = (uval b <=? uval a).
Proof.
  intros Ha Hb. unfold op_ge. rewrite (CompareTo_spec W) by done.
  destruct (Z.compare_spec (uval a) (uval b)); destruct (Z.leb_spec (uval b) (uval a)); (done || lia).
Qed.

Lemma op_le_spec W a b : uwf W a → uwf W b → op_le W a b = (uval a <=? uval b).
Proof.
  intros Ha Hb. unfold op_le. rewrite (CompareTo_spec W) by done.
  destruct (Z.compare_spec (uval a) (uval b)); destruct (Z.leb_spec (uval a) (uval b)); (done || lia).
Qed.

Lemma op_gt_spec W a b : uwf W a → uwf W b → op_gt W a b = (uval b <? uval a).
Proof.
  intros Ha Hb. unfold op_gt. rewrite (CompareTo_spec W) by done.
  destruct (Z.compare_spec (uval a) (uval b)); destruct (Z.ltb_spec (uval b) (uval a)); (done || lia).
Qed.

Lemma op_lt_spec W a b : uwf W a → uwf W b → op_lt W a b = (uval a <? uval b).
Proof.
  intros Ha Hb. unfold op_lt. rewrite (CompareTo_spec W) by done.
  destruct (Z.compare_spec (uval a) (uval b)); destruct (Z.ltb_spec (uval a) (uval b)); (done || lia).
Qed.

Lemma forallb_nth (P : Z → Z → bool) (a b : list Z) n :
  forallb (λ i, P a.[i] b.[i]) (seq 0 n) = true ↔ ∀ i, (i < n)%nat → P a.[i] b.[i] = true.
Proof.
  rewrite forallb_forall. split.
  - intros H i Hi. apply H. apply in_seq. lia.
  - intros H i [_ Hi]%in_seq. by apply H.
Qed.

Lemma op_eq_spec W a b : uwf W a → uwf W b → op_eq W a b = (uval a =? uval b).
Proof.
  intros Ha Hb. apply eq_true_iff_eq. rewrite Z.eqb_eq.
  unfold op_eq. rewrite (forallb_nth Z.eqb). split.
  - intros H. f_equal. apply nth_ext with 0 0; [ulen|]. intros i Hi.
    apply Z.eqb_eq, H. ulen.
  - intros H%(uval_inj W) i _; [|done..]. subst. apply Z.eqb_refl.
Qed.

Lemma IsNull_spec W a : uwf W a → IsNull W a = (uval a =? 0).
Proof.
  intros Ha. rewrite <- (uval_zero W), <- (op_eq_spec W) by (done || apply uwf_zero).
  unfold IsNull, op_eq. apply eq_true_iff_eq.
  rewrite (forallb_nth (λ x _, x =? 0) a a), (forallb_nth Z.eqb).
  assert (∀ i, (base_uint_zero W).[i] = 0) as Hz.
  { intros i. rewrite nth_lookup. by destruct (_ !! i) eqn:E; [apply lookup_replicate in E as [-> _]|]. }
  by setoid_rewrite Hz.
Qed.

Lemma limb_bits_spec x n :
  0 < x < 2 ^ (Z.of_nat n + 1) → (n < 32)%nat → limb_bits x n = Z.log2 x + 1.
Proof.
  induction n as [|n IH]; intros Hx Hn.
  - cbn [limb_bits]. assert (x = 1) as -> by (change (2 ^ (Z.of_nat 0 + 1)) with 2 in Hx; lia). done.
  - cbn [limb_bits].
    assert (u32 (1 << Z.of_nat (S n)) = 2 ^ Z.of_nat (S n)) as ->.
    { rewrite Z.shiftl_1_l. apply u32_id. split; [apply Z.pow_nonneg; lia|].
      apply Z.pow_lt_mono_r; lia. }
    destruct (Z.testbit x (Z.of_nat (S n))) eqn:Hb.
    + assert (x .& 2 ^ Z.of_nat (S n) ≠ 0) as Hnz.
      { intros H0. apply (f_equal (λ z, Z.testbit z (Z.of_nat (S n)))) in H0.
        rewrite Z.land_spec, Hb, Z.pow2_bits_true, Z.bits_0 in H0 by lia. done. }
      apply Z.eqb_neq in Hnz. rewrite Hnz. cbn [negb]. f_equal. symmetry.
      apply Z.log2_unique; [lia|]. split; [|replace (Z.succ (Z.of_nat (S n))) with (Z.of_nat (S n) + 1) by lia; lia].
      destruct (Z.lt_ge_cases x (2 ^ Z.of_nat (S n))) as [Hlt|]; [|done].
      rewrite (word_testbit_high (Z.of_nat (S n))) in Hb; [done|unfold word; lia|lia|lia].
    + assert (x .& 2 ^ Z.of_nat (S n) = 0) as Hnz.
      { apply Z.bits_inj'. intros i Hi. rewrite Z.land_spec, Z.bits_0.
        destruct (Z.eq_dec i (Z.of_nat (S n))) as [->|Hne]; [by rewrite Hb|].
        rewrite Z.pow2_bits_false by lia. apply andb_false_r. }
      rewrite Hnz. cbn [negb Z.eqb]. apply IH; [|lia].
      split; [lia|]. replace (Z.of_nat n + 1) with (Z.of_nat (S n)) by lia.
      destruct (Z.lt_ge_cases x (2 ^ Z.of_nat (S n))) as [|Hge]; [done|].
      assert (Z.log2 x = Z.of_nat (S n)) as Hlog.
      { apply Z.log2_unique; [lia|]. replace (Z.succ (Z.of_nat (S n))) with (Z.of_nat (S n) + 1) by lia. lia. }
      pose proof (Z.bit_log2 x) as Hbl. rewrite Hlog, Hb in Hbl. by specialize (Hbl ltac:(lia)).
Qed.

(** The number of significant bits. *)
Definition bitlen (v : Z) : Z := if v =? 0 then 0 else Z.log2 v + 1.

Lemma bits_from_spec n a :
  Forall (word 32) a → (n ≤ length a)%nat → bits_from n a = bitlen (uval (take n a)).
Proof.
  intros Ha. induction n as [|n IH]; intros Hn; [done|]. cbn [bits_from].
  rewrite uval_take_S by lia. pose proof (uval_take_bound a n Ha) as Hb. pose proof (bw_pos n).
  pose proof (nth_word 32 a n ltac:(lia) Ha) as Hx. unfold word in Hx.
  destruct (Z.eqb_spec a.[n] 0) as [->|Hnz]; cbn [negb].
  - rewrite IH by lia. f_equal. lia.
  - unfold bitlen. destruct (Z.eqb_spec (uval (take n a) + a.[n] * bw n) 0); [nia|].
    rewrite limb_bits_spec by (change (2 ^ (Z.of_nat 31 + 1)) with (2 ^ 32); lia).
    rewrite (Z.log2_unique (uval (take n a) + a.[n] * bw n) (32 * Z.of_nat n + Z.log2 a.[n])); [lia|pose proof (Z.log2_nonneg a.[n]); lia|].
    pose proof (Z.log2_spec a.[n] ltac:(lia)) as [L1 L2].
    assert (∀ e, 0 ≤ e → 2 ^ (32 * Z.of_nat n + e) = bw n * 2 ^ e) as P.
    { intros. unfold bw. by rewrite <- Z.pow_add_r by lia. }
    pose proof (Z.log2_nonneg a.[n]).
    rewrite <- Z.add_succ_r, !P by lia. nia.
Qed.

Lemma bits_spec W a : uwf W a → bits W a = bitlen (uval a).
Proof.
  intros Ha. unfold bits. rewrite bits_from_spec, take_ge by (apply Ha || ulen). done.
Qed.

Lemma bitlen_0 v : bitlen v = 0 → v = 0.
Proof. unfold bitlen. destruct (Z.eqb_spec v 0); [done|]. pose proof (Z.log2_nonneg v). lia. Qed.

Lemma bitlen_spec v : 0 < v → 2 ^ (bitlen v - 1) ≤ v < 2 ^ bitlen v.
Proof.
  intros Hv. unfold bitlen. destruct (Z.eqb_spec v 0); [lia|].
  replace (Z.log2 v + 1 - 1) with (Z.log2 v) by lia. by apply Z.log2_spec.
Qed.

Lemma bitlen_nonneg v : 0 ≤ bitlen v.
Proof. unfold bitlen. destruct (v =? 0); [lia|]. pose proof (Z.log2_nonneg v). lia. Qed.

Lemma bitlen_pos v : 0 < v → 0 < bitlen v.
Proof. unfold bitlen. destruct (Z.eqb_spec v 0); [lia|]. pose proof (Z.log2_nonneg v). lia. Qed.

Lemma bitlen_bound v n : 0 ≤ n → 0 ≤ v < 2 ^ n → bitlen v ≤ n.
Proof.
  intros Hn Hv. destruct (Z.eq_dec v 0) as [->|]; [done|].
  pose proof (bitlen_spec v ltac:(lia)). destruct (Z.le_gt_cases (bitlen v) n) as [|Hgt]; [done|].
  pose proof (Z.pow_le_mono_r 2 n (bitlen v - 1) ltac:(lia) ltac:(lia)). lia.
Qed.

(** Shifting the smaller number left by the difference of the bit lengths aligns
    it with the larger one. *)
Lemma bitlen_align a b :
  0 < a → 0 < b → bitlen b ≤ bitlen a →
  b * 2 ^ (bitlen a - bitlen b) < 2 ^ bitlen a ∧ a < b * 2 ^ (bitlen a - bitlen b + 1).
Proof.
  intros Ha Hb Hle. set (s := bitlen a - bitlen b).
  destruct (bitlen_spec a Ha) as [_ A2]. destruct (bitlen_spec b Hb) as [B1 B2].
  pose proof (bitlen_pos b Hb). assert (0 < 2 ^ s) by (apply Z.pow_pos_nonneg; lia).
  replace (2 ^ bitlen a) with (2 ^ (bitlen b - 1) * 2 * 2 ^ s) in *.
  2:{ rewrite (Z.mul_comm _ 2), <- (Z.pow_succ_r 2 (bitlen b - 1)), <- Z.pow_add_r by lia. f_equal. lia. }
  replace (2 ^ bitlen b) with (2 * 2 ^ (bitlen b - 1)) in B2 by (rewrite <- Z.pow_succ_r by lia; f_equal; lia).
  rewrite Z.pow_add_r by lia. nia.
Qed.

(** ** Division *)

Lemma uval_testbit l i r :
  Forall (word 32) l → 0 ≤ r < 32 →
  Z.testbit (uval l) (32 * Z.of_nat i + r) = Z.testbit l.[i] r.
Proof.
  intros Hl Hr. revert i. induction Hl as [|x l Hx _ IH]; intros i; [by rewrite nth_lookup, Z.bits_0; simpl; rewrite Z.bits_0|].
  cbn [uval]. rewrite Z.add_comm, (Z.mul_comm (2 ^ 32)), <- lor_shiftl_add by (done || lia).
  rewrite Z.lor_spec. destruct i as [|i]; cbn [nth].
  - replace (32 * Z.of_nat 0 + r) with r by lia. by rewrite Z.shiftl_spec_low by lia.
  - rewrite (word_testbit_high 32 x), orb_false_r, Z.shiftl_spec by (done || lia).
    rewrite <- IH. f_equal. lia.
Qed.

Lemma lor_bit x r : 0 ≤ r → Z.testbit x r = false → x .| 2 ^ r = x + 2 ^ r.
Proof.
  intros Hr Hb. assert (x .& 2 ^ r = 0) as H0.
  { apply Z.bits_inj'. intros i Hi. rewrite Z.land_spec, Z.bits_0.
    destruct (Z.eq_dec i r) as [->|Hne]; [by rewrite Hb|].
    rewrite Z.pow2_bits_false by lia. apply andb_false_r. }
  rewrite Z.add_nocarry_lxor by done. symmetry. by apply Z.lxor_lor.
Qed.

(** Setting bit [n] of a multiple of [2^(n+1)] adds [2^n]. *)
Lemma set_bit_spec W pn n :
  uwf W pn → (n < 32 * W)%nat → (2 ^ Z.of_nat (S n) | uval pn) →
  let pn' := <[(n / 32)%nat := pn.[n / 32] .| u32 (1 << (Z.of_nat n .& 31))]> pn in
  uwf W pn' ∧ uval pn' = uval pn + 2 ^ Z.of_nat n.
Proof.
  intros Hpn Hn [q Hq]. cbn zeta.
  pose proof (Nat.div_mod_eq n 32) as Hdm. pose proof (Nat.mod_upper_bound n 32 ltac:(lia)) as Hm.
  assert (Z.of_nat n .& 31 = Z.of_nat (n mod 32)) as ->.
  { change 31 with (Z.ones 5). rewrite Z.land_ones by lia. by rewrite Nat2Z.inj_mod. }
  set (r := (n mod 32)%nat) in *. set (i := (n / 32)%nat) in *.
  assert (u32 (1 << Z.of_nat r) = 2 ^ Z.of_nat r) as ->.
  { rewrite Z.shiftl_1_l. apply u32_id. split; [apply Z.pow_nonneg; lia|]. apply Z.pow_lt_mono_r; lia. }
  split.
  - apply uwf_insert; [done|]. apply word_lor; [lia|by eapply uwf_nth|].
    split; [apply Z.pow_nonneg; lia|]. apply Z.pow_lt_mono_r; lia.
  - rewrite uval_insert by ulen. rewrite lor_bit; [|lia|].
    + transitivity (uval pn + 2 ^ Z.of_nat r * bw i); [lia|]. rewrite bw_shift by lia.
      do 2 f_equal. lia.
    + rewrite <- uval_testbit, Hq by (apply Hpn || lia). apply Z.mul_pow2_bits_low. lia.
Qed.

Lemma div_loop_spec W d n num div pn :
  (0 < W)%nat → 0 < d → uwf W num → uwf W div → uwf W pn →
  (n ≠ 0%nat → uval div = d * 2 ^ (Z.of_nat n - 1)) →
  uval num < d * 2 ^ Z.of_nat n → (2 ^ Z.of_nat n | uval pn) →
  let r := div_loop W n num div pn in
  uwf W r.1 ∧ uwf W r.2 ∧ uval r.2 < d ∧
  uval r.1 * d + uval r.2 = uval pn * d + uval num.
Proof.
  intros HW Hd. revert num div pn.
  induction n as [|n IH]; intros num div pn Hnum Hdiv Hpn Ed Hlt Hdvd.
  - cbn. repeat (split; [done || lia|]). lia.
  - cbn [div_loop]. cbn zeta.
    specialize (Ed ltac:(lia)). replace (Z.of_nat (S n) - 1) with (Z.of_nat n) in Ed by lia.
    assert (2 ^ Z.of_nat (S n) = 2 * 2 ^ Z.of_nat n) as E2 by (rewrite <- Z.pow_succ_r by lia; f_equal; lia).
    assert (0 < 2 ^ Z.of_nat n) as Hp by (apply Z.pow_pos_nonneg; lia).
    assert (n < 32 * W)%nat as Hn.
    { pose proof (uval_wf W div Hdiv) as [_ Hb]. apply Nat2Z.inj_lt.
      rewrite Nat2Z.inj_mul. apply (Z.pow_lt_mono_r_iff 2); [lia..|]. unfold bw in Hb.
      rewrite Ed in Hb. change (Z.of_nat 32) with 32. nia. }
    destruct (shr_assign_spec W div 1 ltac:(lia) Hdiv) as [Hdiv' Ediv'].
    assert (n ≠ 0%nat → uval (shr_assign W div 1) = d * 2 ^ (Z.of_nat n - 1)) as Ed'.
    { intros Hn0. rewrite Ediv', Ed. replace (Z.of_nat n) with (Z.of_nat n - 1 + 1) at 1 by lia.
      rewrite Z.pow_add_r, Z.mul_assoc, Z.div_mul by lia. done. }
    rewrite (op_ge_spec W) by done.
    destruct (Z.leb_spec (uval div) (uval num)) as [Hge|Hlt'].
    + destruct (sub_assign_spec W num div HW Hnum Hdiv) as [Hs Es].
      rewrite Z.mod_small in Es by (pose proof (uval_wf W num Hnum); pose proof (uval_wf W div Hdiv); lia).
      destruct (set_bit_spec W pn n Hpn Hn Hdvd) as [Hb Eb].
      edestruct (IH (sub_assign W num div) (shr_assign W div 1)) as (R1 & R2 & R3 & R4);
        [exact Hs|exact Hdiv'|exact Hb|exact Ed'|rewrite Es, Ed; rewrite E2 in Hlt; nia| |].
      * rewrite Eb. destruct Hdvd as [q Hq]. exists (2 * q + 1). rewrite Hq, E2. lia.
      * split; [exact R1|]. split; [exact R2|]. split; [exact R3|].
        rewrite R4, Eb, Es, Ed. lia.
    + edestruct (IH num (shr_assign W div 1) pn) as (R1 & R2 & R3 & R4);
        [exact Hnum|exact Hdiv'|exact Hpn|exact Ed'|by rewrite <- Ed| |].
      * destruct Hdvd as [q Hq]. exists (2 * q). rewrite Hq, E2. lia.
      * done.
Qed.

(** [operator/=] is the quotient; it throws exactly on a zero divisor. *)
Lemma div_assign_spec W a b :
  (2 ≤ W)%nat → uwf W a → uwf W b →
  if uval b =? 0 then div_assign W a b = None
  else ∃ q, div_assign W a b = Some q ∧ uwf W q ∧ uval q = uval a / uval b.
Proof.
  intros HW Ha Hb. unfold div_assign. rewrite !bits_spec by done.
  pose proof (bitlen_nonneg (uval b)) as Hnb.
  pose proof (uval_wf W a Ha). pose proof (uval_wf W b Hb).
  destruct (Z.eqb_spec (uval b) 0) as [E0|Hb0]; [by rewrite E0|].
  destruct (Z.eqb_spec (bitlen (uval b)) 0) as [E0%bitlen_0|?]; [lia|].
  assert (0 < bitlen (uval b)) by lia.
  pose proof (bitlen_spec (uval b) ltac:(lia)) as [B1 B2].
  destruct (Z.ltb_spec (bitlen (uval a)) (bitlen (uval b))) as [Hlt|Hge].
  - exists (base_uint_u64 W 0). split; [done|]. split; [by apply uwf_u64|].
    rewrite uval_u64 by done. rewrite Z.div_small; [done|]. split; [lia|].
    destruct (Z.eq_dec (uval a) 0) as [->|]; [lia|].
    pose proof (bitlen_spec (uval a) ltac:(lia)) as [_ A2].
    eapply Z.lt_le_trans; [apply A2|]. eapply Z.le_trans; [|apply B1]. apply Z.pow_le_mono_r; lia.
  - assert (0 < uval a) as Ha0.
    { destruct (Z.eq_dec (uval a) 0) as [E0|]; [|lia]. rewrite E0 in Hge.
      change (bitlen 0) with 0 in Hge. lia. }
    set (shift := bitlen (uval a) - bitlen (uval b)).
    destruct (bitlen_align (uval a) (uval b) ltac:(lia) ltac:(lia) Hge) as [Hlo Hhi].
    fold shift in Hlo, Hhi.
    destruct (shl_assign_spec W b shift ltac:(lia) Hb) as [Hd Ed].
    assert (0 < 2 ^ shift) by (apply Z.pow_pos_nonneg; lia).
    assert (2 ^ bitlen (uval a) ≤ bw W) as Hbl by (apply Z.pow_le_mono_r, bitlen_bound; unfold bw in *; lia).
    rewrite Z.mod_small in Ed by nia.
    edestruct (div_loop_spec W (uval b) (Z.to_nat (shift + 1)) a (shl_assign W b shift) (base_uint_u64 W 0))
      as (R1 & R2 & R3 & R4); [lia|lia|done|done|by apply uwf_u64| | | |].
    + intros _. rewrite Ed. do 2 f_equal. lia.
    + by replace (Z.of_nat (Z.to_nat (shift + 1))) with (shift + 1) by lia.
    + rewrite uval_u64 by done. by exists 0.
    + eexists. split; [done|]. split; [exact R1|]. rewrite uval_u64 in R4 by done.
      pose proof (uval_wf _ _ R2) as [Hr _]. apply (Z.div_unique_pos _ _ _ _ (conj Hr R3)). lia.
Qed.

(** ** The theorems on [base_uint] *)

(** [base_uint<BITS>] is the ring of integers modulo [2^BITS]: the carry
    loops of [+=], [-=], both [*=], unary [-] and [~], [++] and [--] keep every
    limb within 32 bits, never overflow the 64-bit accumulator, and compute
    sum, difference, product, negation and complement modulo [2^(32 * WIDTH)]. *)
Theorem base_uint_arithmetic (W : nat) (a b : base_uint) (b32 : Z)
    (HW : (2 ≤ W)%nat) (Ha : uwf W a) (Hb : uwf W b) (Hb32 : word 32 b32) :
  (uwf W (add_assign W a b) ∧ uval (add_assign W a b) = (uval a + uval b) mod bw W) ∧
  (uwf W (sub_assign W a b) ∧ uval (sub_assign W a b) = (uval a - uval b) mod bw W) ∧
  (uwf W (mul_assign W a b) ∧ uval (mul_assign W a b) = (uval a * uval b) mod bw W) ∧
  (uwf W (mul_assign_u32 W a b32) ∧ uval (mul_assign_u32 W a b32) = (uval a * b32) mod bw W) ∧
  (uwf W (op_neg W a) ∧ uval (op_neg W a) = (- uval a) mod bw W) ∧
  (uwf W (op_not W a) ∧ uval (op_not W a) = bw W - 1 - uval a) ∧
  (uwf W (op_incr W a) ∧ uval (op_incr W a) = (uval a + 1) mod bw W) ∧
  (uwf W (op_decr W a) ∧ uval (op_decr W a) = (uval a - 1) mod bw W).
Proof.
  split; [by apply add_assign_spec|]. split; [apply sub_assign_spec; (done || lia)|].
  split; [by apply mul_assign_spec|]. split; [by apply mul_assign_u32_spec|].
  split; [apply op_neg_spec; (done || lia)|]. split; [by apply op_not_spec|].
  split; [apply op_incr_spec|apply op_decr_spec]; (done || lia).
Qed.

Lemma base_uint_arithmetic_witness :
  uval (mul_assign 8 (base_uint_u64 8 0xffffffffffffffff) (base_uint_u64 8 0xfffffffffffffff1)) =
  (0xffffffffffffffff * 0xfffffffffffffff1) mod bw 8.
Proof.
  exact (proj2 (proj1 (proj2 (proj2 (base_uint_arithmetic 8
    (base_uint_u64 8 0xffffffffffffffff) (base_uint_u64 8 0xfffffffffffffff1) 7
    ltac:(lia) (uwf_u64 8 _ ltac:(lia)) (uwf_u64 8 _ ltac:(lia)) ltac:(split; lia)))))).
Defined.

(** Shift-and-subtract division: [operator/=] throws exactly on a zero
    divisor and otherwise terminates with the quotient of the two numbers. *)
Theorem base_uint_division (W : nat) (a b : base_uint)
    (HW : (2 ≤ W)%nat) (Ha : uwf W a) (Hb : uwf W b) :
  (div_assign W a b = None ↔ uval b = 0) ∧
  ∀ q, div_assign W a b = Some q →
    uwf W q ∧ uval q = uval a / uval b ∧ uval q * uval b ≤ uval a < (uval q + 1) * uval b.
Proof.
  pose proof (div_assign_spec W a b HW Ha Hb) as H. pose proof (uval_wf W b Hb).
  destruct (Z.eqb_spec (uval b) 0) as [E0|Hb0].
  - rewrite H. by split.
  - destruct H as (q & -> & Hq & Eq). split; [by split|]. intros ? [= <-]. rewrite Eq.
    split; [done|]. split; [done|]. pose proof (Z.div_mod (uval a) (uval b) Hb0).
    pose proof (Z.mod_pos_bound (uval a) (uval b)). nia.
Qed.

Lemma base_uint_division_witness :
  div_assign 8 (base_uint_u64 8 1000) (base_uint_u64 8 0) = None ∧
  ∀ q, div_assign 8 (base_uint_u64 8 1000) (base_uint_u64 8 7) = Some q → uval q = 142.
Proof.
  split.
  - apply (base_uint_division 8 (base_uint_u64 8 1000) (base_uint_u64 8 0));
      [lia|apply uwf_u64; lia|apply uwf_u64; lia|reflexivity].
  - intros q Hq. apply (base_uint_division 8 (base_uint_u64 8 1000) (base_uint_u64 8 7)) in Hq;
      [|lia|apply uwf_u64; lia|apply uwf_u64; lia].
    destruct Hq as (_ & -> & _). reflexivity.
Defined.

(** The shift loops move bits across limbs as multiplication by [2^n]
    modulo [2^BITS] and division by [2^n] do, for any shift distance; the
    comparison operators order the numbers, equality is equality of numbers,
    and [bits] is the position of the highest bit set plus one. *)
Theorem base_uint_shifts_and_order (W : nat) (a b : base_uint) (n : Z)
    (Ha : uwf W a) (Hb : uwf W b) (Hn : 0 ≤ n) :
  (uwf W (shl_assign W a n) ∧ uval (shl_assign W a n) = (uval a * 2 ^ n) mod bw W) ∧
  (uwf W (shr_assign W a n) ∧ uval (shr_assign W a n) = uval a / 2 ^ n) ∧
  (op_lt W a b = true ↔ uval a < uval b) ∧ (op_gt W a b = true ↔ uval b < uval a) ∧
  (op_le W a b = true ↔ uval a ≤ uval b) ∧ (op_ge W a b = true ↔ uval b ≤ uval a) ∧
  (op_eq W a b = true ↔ a = b) ∧ (op_eq W a b = true ↔ uval a = uval b) ∧
  (uval a = 0 → bits W a = 0) ∧
  (0 < uval a → 2 ^ (bits W a - 1) ≤ uval a < 2 ^ bits W a).
Proof.
  split; [by apply shl_assign_spec|]. split; [by apply shr_assign_spec|].
  rewrite op_lt_spec, op_gt_spec, op_le_spec, op_ge_spec, op_eq_spec by done.
  rewrite !Z.ltb_lt, !Z.leb_le, !Z.eqb_eq, bits_spec by done.
  repeat (split; [lia|]).
  split; [split; [by apply (uval_inj W)|by intros ->]|]. split; [done|].
  split; [by intros ->|]. apply bitlen_spec.
Qed.

Lemma base_uint_shifts_and_order_witness :
  uval (shr_assign 8 (shl_assign 8 (base_uint_u64 8 0x8001) 100) 37) = 0x8001 * 2 ^ 63 ∧
  op_lt 8 (base_uint_u64 8 5) (base_uint_u64 8 6) = true.
Proof.
  set (a := base_uint_u64 8 0x8001).
  assert (uwf 8 a) as Ha by (apply uwf_u64; lia).
  split.
  - destruct (proj1 (base_uint_shifts_and_order 8 a a 100 Ha Ha ltac:(lia))) as [Hw E].
    destruct (proj1 (proj2 (base_uint_shifts_and_order 8 _ a 37 Hw Ha ltac:(lia)))) as [_ ->].
    rewrite E. reflexivity.
  - destruct (base_uint_shifts_and_order 8 (base_uint_u64 8 5) (base_uint_u64 8 6) 0)
      as (_ & _ & [_ H] & _); [apply uwf_u64; lia|apply uwf_u64; lia|lia|].
    apply H. reflexivity.
Defined.
