(* ===== verification/Uint256.v ===== *)
(** * 256-bit targets: the compact encoding

    [uint256.cpp]: [SetCompact] and [GetCompact], and the same code in
    [arith_uint256.cpp].  The compact form of a target is a 32-bit float to base 256: eight bits of
    exponent, a sign bit, and 23 bits of mantissa. *)

From S2P Require Import Prelude Ints ArithUint256.

Local Open Scope Z_scope.

Abbreviation uint256 := (list Z).
Abbreviation W256 := 8%nat.

(** The value, [*pfNegative] and [*pfOverflow]. *)
Definition SetCompact (nCompact : Z) : uint256 * bool * bool :=
  let nSize := nCompact >> 24 in
  let nWord := nCompact .& 0x007fffff in
  let '(nWord, this) :=
    if nSize <=? 3 then
      let nWord := nWord >> (8 * (3 - nSize)) in (nWord, base_uint_u64 W256 nWord)
    else
      (nWord, shl_assign W256 (base_uint_u64 W256 nWord) (8 * (nSize - 3))) in
  let fNegative := negb (nWord =? 0) && negb (nCompact .& 0x00800000 =? 0) in
  let fOverflow := negb (nWord =? 0) &&
    ((34 <? nSize) || ((0xff <? nWord) && (33 <? nSize)) || ((0xffff <? nWord) && (32 <? nSize))) in
  (this, fNegative, fOverflow).

(** [None] is a failed assertion. *)
Definition GetCompact (this : uint256) (fNegative : bool) : option Z :=
  let nSize := (bits W256 this + 7) / 8 in
  let nCompact :=
    if nSize <=? 3 then u32 (u64 (GetLow64 this << (8 * (3 - nSize))))
    else u32 (GetLow64 (shr_assign W256 this (8 * (nSize - 3)))) in
  let '(nCompact, nSize) :=
    if negb (nCompact .& 0x00800000 =? 0) then (nCompact >> 8, nSize + 1)
    else (nCompact, nSize) in
  if negb (nCompact .& u32 (Z.lnot 0x007fffff) =? 0) then None
  else if negb (nSize <? 256) then None
  else
    let nCompact := nCompact .| (nSize << 24) in
    Some (nCompact .| if fNegative && negb (nCompact .& 0x007fffff =? 0) then 0x00800000 else 0).

Example compact_examples :
  GetCompact (base_uint_u64 W256 0x1234560000) false = Some 0x05123456 ∧
  GetCompact (base_uint_u64 W256 0xc0de000000) false = Some 0x0600c0de ∧
  GetCompact (base_uint_u64 W256 0x80) false = Some 0x02008000 ∧
  GetCompact (op_not W256 (base_uint_zero W256)) false = Some 0x2100ffff.
Proof. vm_compute. done. Qed.

(** ** The float the encoding denotes *)

(** The number of bytes, and the exponent: one more when the sign position of
    the mantissa would be taken. *)
Definition nbytes (v : Z) : Z := (bitlen v + 7) / 8.

Definition compact_exp (v : Z) : Z :=
  if 2 ^ (8 * nbytes v) <=? 2 * v then nbytes v + 1 else nbytes v.

Definition compact_mant (v : Z) : Z :=
  if compact_exp v <=? 3 then v * 256 ^ (3 - compact_exp v) else v / 256 ^ (compact_exp v - 3).

(** The value of mantissa [m] and exponent [e]. *)
Definition compact_value (m e : Z) : Z :=
  if e <=? 3 then m / 256 ^ (3 - e) else m * 256 ^ (e - 3).

Lemma pow_256 n : 0 ≤ n → 256 ^ n = 2 ^ (8 * n).
Proof. intros. change 256 with (2 ^ 8). by rewrite <- Z.pow_mul_r by lia. Qed.

Lemma nbytes_range v : 0 < v → 1 ≤ nbytes v ∧ 2 ^ (8 * nbytes v - 8) ≤ v < 2 ^ (8 * nbytes v).
Proof.
  intros Hv. unfold nbytes. pose proof (bitlen_spec v Hv) as [H1 H2]. pose proof (bitlen_pos v Hv).
  pose proof (Z.div_mod (bitlen v + 7) 8 ltac:(lia)). pose proof (Z.mod_pos_bound (bitlen v + 7) 8 ltac:(lia)).
  split; [lia|]. split.
  - etransitivity; [|apply H1]. apply Z.pow_le_mono_r; lia.
  - eapply Z.lt_le_trans; [apply H2|]. apply Z.pow_le_mono_r; lia.
Qed.

Lemma nbytes_0 : nbytes 0 = 0.
Proof. done. Qed.

Lemma nbytes_bound v : 0 ≤ v < bw W256 → 0 ≤ nbytes v ≤ 32.
Proof.
  intros Hv. unfold nbytes. pose proof (bitlen_nonneg v).
  pose proof (bitlen_bound v 256 ltac:(lia) Hv). split.
  - apply Z.div_pos; lia.
  - apply Z.lt_succ_r, Z.div_lt_upper_bound; lia.
Qed.

(** The mantissa before the sign position is considered: 24 bits. *)
Definition mant24 (v : Z) : Z :=
  if nbytes v <=? 3 then v * 2 ^ (8 * (3 - nbytes v)) else v / 2 ^ (8 * (nbytes v - 3)).

Lemma mant24_range v : 0 ≤ v → 0 ≤ mant24 v < 2 ^ 24.
Proof.
  intros Hv. unfold mant24. destruct (Z.eq_dec v 0) as [->|]; [done|].
  destruct (nbytes_range v ltac:(lia)) as (N1 & N2 & N3).
  destruct (Z.leb_spec (nbytes v) 3).
  - assert (0 < 2 ^ (8 * (3 - nbytes v))) by (apply Z.pow_pos_nonneg; lia).
    replace (2 ^ 24) with (2 ^ (8 * nbytes v) * 2 ^ (8 * (3 - nbytes v))); [nia|].
    rewrite <- Z.pow_add_r by lia. f_equal. lia.
  - assert (0 < 2 ^ (8 * (nbytes v - 3))) by (apply Z.pow_pos_nonneg; lia).
    split; [by apply Z.div_pos|]. apply Z.div_lt_upper_bound; [done|].
    rewrite <- Z.pow_add_r by lia. by replace (8 * (nbytes v - 3) + 24) with (8 * nbytes v) by lia.
Qed.

Lemma mant24_high v :
  0 ≤ v → (2 ^ 23 ≤ mant24 v ↔ 2 ^ (8 * nbytes v) ≤ 2 * v).
Proof.
  intros Hv. unfold mant24. destruct (Z.eq_dec v 0) as [->|]; [change (2 ^ 23 ≤ 0 ↔ 1 ≤ 0); lia|].
  destruct (nbytes_range v ltac:(lia)) as (N1 & N2 & N3).
  replace (2 ^ (8 * nbytes v)) with (2 * 2 ^ (8 * nbytes v - 1)) by
    (rewrite <- Z.pow_succ_r by lia; f_equal; lia).
  rewrite <- (Z.mul_le_mono_pos_l _ _ 2) by lia.
  destruct (Z.leb_spec (nbytes v) 3).
  - replace (2 ^ 23) with (2 ^ (8 * nbytes v - 1) * 2 ^ (8 * (3 - nbytes v))).
    2:{ rewrite <- Z.pow_add_r by lia. f_equal. lia. }
    assert (0 < 2 ^ (8 * (3 - nbytes v))) by (apply Z.pow_pos_nonneg; lia). nia.
  - assert (0 < 2 ^ (8 * (nbytes v - 3))) by (apply Z.pow_pos_nonneg; lia).
    replace (2 ^ (8 * nbytes v - 1)) with (2 ^ (8 * (nbytes v - 3)) * 2 ^ 23).
    2:{ rewrite <- Z.pow_add_r by lia. f_equal. lia. }
    split; intros H'.
    + etransitivity; [|apply (Z.mul_div_le v (2 ^ (8 * (nbytes v - 3)))); done]. nia.
    + by apply Z.div_le_lower_bound.
Qed.

Lemma compact_mant_24 v :
  0 ≤ v →
  compact_mant v = if 2 ^ (8 * nbytes v) <=? 2 * v then mant24 v / 256 else mant24 v.
Proof.
  intros Hv. unfold compact_mant, compact_exp, mant24.
  destruct (Z.eq_dec v 0) as [->|]; [done|].
  destruct (nbytes_range v ltac:(lia)) as (N1 & _).
  destruct (2 ^ (8 * nbytes v) <=? 2 * v).
  - destruct (Z.leb_spec (nbytes v) 3), (Z.leb_spec (nbytes v + 1) 3); try lia.
    + replace (8 * (3 - nbytes v)) with (8 * (3 - (nbytes v + 1)) + 8) by lia.
      rewrite Z.pow_add_r, Z.mul_assoc, <- pow_256 by lia. change (2 ^ 8) with 256.
      by rewrite Z.div_mul by lia.
    + by replace (nbytes v) with 3 by lia; rewrite Z.mul_1_r.
    + replace (nbytes v + 1 - 3) with (nbytes v - 3 + 1) by lia.
      rewrite Z.pow_add_r, <- Z.div_div, pow_256 by lia. done.
  - destruct (Z.leb_spec (nbytes v) 3); by rewrite pow_256 by lia.
Qed.

Lemma compact_mant_range v : 0 ≤ v → 0 ≤ compact_mant v < 2 ^ 23.
Proof.
  intros Hv. rewrite compact_mant_24 by done. pose proof (mant24_range v Hv) as [M1 M2].
  pose proof (mant24_high v Hv) as MH.
  destruct (Z.leb_spec (2 ^ (8 * nbytes v)) (2 * v)).
  - split; [apply Z.div_pos; lia|]. apply Z.div_lt_upper_bound; lia.
  - split; [done|]. lia.
Qed.

Lemma compact_exp_range v : 0 ≤ v < bw W256 → 0 ≤ compact_exp v ≤ 33.
Proof.
  intros Hv. pose proof (nbytes_bound v Hv). unfold compact_exp.
  destruct (_ <=? _); lia.
Qed.

Lemma compact_mant_0 v : 0 ≤ v → compact_mant v = 0 → v = 0.
Proof.
  intros Hv. unfold compact_mant, compact_exp. destruct (Z.eq_dec v 0) as [|]; [done|].
  destruct (nbytes_range v ltac:(lia)) as (N1 & N2 & N3).
  intros H. exfalso. destruct (Z.leb_spec (2 ^ (8 * nbytes v)) (2 * v)) as [Hh|Hh].
  - destruct (Z.leb_spec (nbytes v + 1) 3).
    + assert (0 < 256 ^ (3 - (nbytes v + 1))) by (apply Z.pow_pos_nonneg; lia). nia.
    + rewrite pow_256 in H by lia. apply Z.div_small_iff in H; [|apply Z.pow_nonzero; lia].
      pose proof (Z.pow_le_mono_r 2 (8 * (nbytes v + 1 - 3)) (8 * nbytes v - 8) ltac:(lia) ltac:(lia)). lia.
  - destruct (Z.leb_spec (nbytes v) 3).
    + assert (0 < 256 ^ (3 - nbytes v)) by (apply Z.pow_pos_nonneg; lia). nia.
    + rewrite pow_256 in H by lia. apply Z.div_small_iff in H; [|apply Z.pow_nonzero; lia].
      pose proof (Z.pow_le_mono_r 2 (8 * (nbytes v - 3)) (8 * nbytes v - 8) ltac:(lia) ltac:(lia)). lia.
Qed.

(** Encoding truncates: the value read back is the target with the bytes below
    the mantissa cleared. *)
Lemma compact_value_mant v :
  0 ≤ v →
  compact_value (compact_mant v) (compact_exp v) =
    if compact_exp v <=? 3 then v else v - v mod 256 ^ (compact_exp v - 3).
Proof.
  intros Hv. unfold compact_value, compact_mant. destruct (Z.leb_spec (compact_exp v) 3).
  - apply Z.div_mul. apply Z.pow_nonzero; lia.
  - assert (256 ^ (compact_exp v - 3) ≠ 0) by (apply Z.pow_nonzero; lia).
    pose proof (Z.div_mod v (256 ^ (compact_exp v - 3))). lia.
Qed.

(** ** [SetCompact] and [GetCompact] compute it *)

Lemma land_bit x k : 0 ≤ k → (x .& 2 ^ k =? 0) = negb (Z.testbit x k).
Proof.
  intros Hk. destruct (Z.testbit x k) eqn:Hb; cbn [negb].
  - apply Z.eqb_neq. intros H0. apply (f_equal (λ z, Z.testbit z k)) in H0.
    rewrite Z.land_spec, Hb, Z.pow2_bits_true, Z.bits_0 in H0 by lia. done.
  - apply Z.eqb_eq, Z.bits_inj'. intros i Hi. rewrite Z.land_spec, Z.bits_0.
    destruct (Z.eq_dec i k) as [->|Hne]; [by rewrite Hb|].
    rewrite Z.pow2_bits_false by lia. apply andb_false_r.
Qed.

Lemma GetLow64_spec W a : (2 ≤ W)%nat → uwf W a → GetLow64 a = uval a mod 2 ^ 64.
Proof.
  intros HW Ha. unfold GetLow64. pose proof (uwf_nth W a 0 Ha) as H0. pose proof (uwf_nth W a 1 Ha) as H1.
  destruct Ha as [Hl _]. destruct a as [|x [|y a]]; simpl in Hl; try lia. cbn [nth uval] in *.
  rewrite Z.lor_comm, lor_shiftl_add by (done || lia).
  unfold word in *. apply (Z.mod_unique_pos _ _ (uval a)); nia.
Qed.

Definition compact_exponent (c : Z) : Z := c / 2 ^ 24.
Definition compact_mantissa (c : Z) : Z := c mod 2 ^ 23.

(** The number a compact word denotes, sign aside. *)
Definition compact_abs (c : Z) : Z := compact_value (compact_mantissa c) (compact_exponent c).

Lemma compact_overflow m e :
  0 ≤ m < 2 ^ 23 → 0 ≤ e →
  let w := if e <=? 3 then m / 2 ^ (8 * (3 - e)) else m in
  (negb (w =? 0) = negb (compact_value m e =? 0)) ∧
  negb (w =? 0) && ((34 <? e) || ((0xff <? w) && (33 <? e)) || ((0xffff <? w) && (32 <? e))) =
  (2 ^ 256 <=? compact_value m e).
Proof.
  intros Hm He. cbn zeta. unfold compact_value. destruct (Z.leb_spec e 3) as [H3|H3].
  - rewrite <- pow_256 by lia. split; [done|].
    assert (m / 256 ^ (3 - e) ≤ m) by (apply Z.div_le_upper_bound; [apply Z.pow_pos_nonneg; lia|];
      assert (0 < 256 ^ (3 - e)) by (apply Z.pow_pos_nonneg; lia); nia).
    destruct (Z.ltb_spec 34 e), (Z.ltb_spec 33 e), (Z.ltb_spec 32 e); lia.
  - rewrite pow_256 by lia.
    assert (0 < 2 ^ (8 * (e - 3))) as Hp by (apply Z.pow_pos_nonneg; lia). split.
    { f_equal. apply eq_true_iff_eq. rewrite !Z.eqb_eq. nia. }
    assert (∀ k, e = k → 2 ^ 256 ≤ m * 2 ^ (8 * (e - 3)) ↔ 2 ^ 256 ≤ m * 2 ^ (8 * (k - 3))) as Hk by by intros ? ->.
    destruct (Z.ltb_spec 34 e) as [H34|H34]; cbn [orb].
    { rewrite andb_true_r. apply eq_true_iff_eq. rewrite negb_true_iff, Z.eqb_neq, Z.leb_le.
      pose proof (Z.pow_le_mono_r 2 256 (8 * (e - 3)) ltac:(lia) ltac:(lia)). nia. }
    destruct (Z.eq_dec e 34) as [->|N1]; [|destruct (Z.eq_dec e 33) as [->|N2]].
    + change (8 * (34 - 3)) with 248. change (2 ^ 256) with (2 ^ 8 * 2 ^ 248).
      change (33 <? 34) with true. change (32 <? 34) with true. rewrite !andb_true_r.
      apply eq_true_iff_eq. rewrite andb_true_iff, orb_true_iff, negb_true_iff, Z.eqb_neq, !Z.ltb_lt, Z.leb_le. lia.
    + change (8 * (33 - 3)) with 240. change (2 ^ 256) with (2 ^ 16 * 2 ^ 240).
      change (33 <? 33) with false. change (32 <? 33) with true. rewrite andb_true_r, andb_false_r, orb_false_l.
      apply eq_true_iff_eq. rewrite andb_true_iff, negb_true_iff, Z.eqb_neq, Z.ltb_lt, Z.leb_le. lia.
    + destruct (Z.ltb_spec 33 e), (Z.ltb_spec 32 e); try lia. rewrite !andb_false_r.
      symmetry. apply Z.leb_gt.
      pose proof (Z.pow_le_mono_r 2 (8 * (e - 3)) 232 ltac:(lia) ltac:(lia)).
      change (2 ^ 256) with (2 ^ 24 * 2 ^ 232). nia.
Qed.

Lemma SetCompact_spec c :
  word 32 c →
  let '(a, fNegative, fOverflow) := SetCompact c in
  uwf W256 a ∧ uval a = compact_abs c mod 2 ^ 256 ∧
  fNegative = negb (compact_abs c =? 0) && Z.testbit c 23 ∧
  fOverflow = (2 ^ 256 <=? compact_abs c).
Proof.
  intros Hc. unfold SetCompact, compact_abs.
  change 0x007fffff with (Z.ones 23). change 0x00800000 with (2 ^ 23).
  rewrite Z.land_ones, land_bit, negb_involutive, (Z.shiftr_div_pow2 c) by lia.
  fold (compact_mantissa c) (compact_exponent c).
  set (m := compact_mantissa c). set (e := compact_exponent c).
  assert (0 ≤ m < 2 ^ 23) as Hm by (apply Z.mod_pos_bound; lia).
  assert (0 ≤ e) as He by (apply Z.div_pos; [apply Hc|lia]).
  pose proof (compact_overflow m e Hm He) as H. cbn zeta in H.
  destruct (Z.leb_spec e 3) as [H3|H3]; destruct H as [H1 H2].
  - rewrite Z.shiftr_div_pow2 by lia.
    assert (0 ≤ m / 2 ^ (8 * (3 - e)) < 2 ^ 23) as Hw.
    { assert (0 < 2 ^ (8 * (3 - e))) by (apply Z.pow_pos_nonneg; lia).
      split; [by apply Z.div_pos; lia|]. apply Z.div_lt_upper_bound; [done|]. nia. }
    rewrite H2, H1. split; [apply uwf_u64; lia|]. split; [|done].
    rewrite uval_u64 by (unfold word; lia). unfold compact_value.
    destruct (Z.leb_spec e 3); [|lia]. rewrite pow_256, Z.mod_small by lia. done.
  - rewrite H2, H1.
    destruct (shl_assign_spec W256 (base_uint_u64 W256 m) (8 * (e - 3))) as [Hw E]; [lia|apply uwf_u64; lia|].
    split; [done|]. split; [|done]. rewrite E, uval_u64 by (unfold word; lia).
    unfold compact_value. destruct (Z.leb_spec e 3); [lia|]. by rewrite pow_256 by lia.
Qed.

Lemma nCompact24 a :
  uwf W256 a →
  (if nbytes (uval a) <=? 3 then u32 (u64 (GetLow64 a << (8 * (3 - nbytes (uval a)))))
   else u32 (GetLow64 (shr_assign W256 a (8 * (nbytes (uval a) - 3))))) = mant24 (uval a).
Proof.
  intros Ha. pose proof (uval_wf _ _ Ha) as Hv.
  pose proof (mant24_range (uval a) ltac:(lia)) as Hm. revert Hm. unfold mant24.
  pose proof (nbytes_bound _ Hv) as Hn.
  destruct (Z.leb_spec (nbytes (uval a)) 3) as [H3|H3]; intros Hm.
  - rewrite (GetLow64_spec W256), Z.shiftl_mul_pow2 by (done || lia).
    assert (uval a < 2 ^ 24) as Hs.
    { assert (1 ≤ 2 ^ (8 * (3 - nbytes (uval a)))) by (apply Z.lt_pred_le, Z.pow_pos_nonneg; lia). nia. }
    rewrite (Z.mod_small (uval a)) by lia.
    rewrite u64_id, u32_id by (unfold word; lia). done.
  - destruct (shr_assign_spec W256 a (8 * (nbytes (uval a) - 3))) as [Hw E]; [lia|done|].
    rewrite (GetLow64_spec W256), E by (done || lia).
    rewrite Z.mod_small by lia. apply u32_id. unfold word; lia.
Qed.

(** The sign position of the 24-bit mantissa decides the exponent. *)
Lemma mant24_sign v :
  0 ≤ v → Z.testbit (mant24 v) 23 = (2 ^ (8 * nbytes v) <=? 2 * v).
Proof.
  intros Hv. pose proof (mant24_range v Hv) as Hm.
  apply eq_true_iff_eq. rewrite Z.leb_le, <- mant24_high by done.
  rewrite Z.testbit_true by lia. split; intros H.
  - destruct (Z.lt_ge_cases (mant24 v) (2 ^ 23)) as [Hlt|]; [|done].
    rewrite Z.div_small in H by lia. done.
  - by rewrite <- (Z.div_unique_pos (mant24 v) (2 ^ 23) 1 (mant24 v - 2 ^ 23)) by lia.
Qed.

(** Packing a 23-bit mantissa, an exponent and a sign into a word. *)
Lemma compact_pack M e (s : bool) :
  word 23 M → 0 ≤ e < 256 →
  M .& u32 (Z.lnot 0x007fffff) = 0 ∧ (M .| (e << 24)) .& 0x007fffff = M ∧
  (M .| (e << 24)) .| (if s then 0x00800000 else 0) = M + e * 2 ^ 24 + if s then 2 ^ 23 else 0.
Proof.
  intros HM He. split; [|].
  { change (u32 (Z.lnot 0x007fffff)) with (511 << 23). apply Z.bits_inj'. intros i Hi.
    rewrite Z.land_spec, Z.bits_0.
    destruct (Z.lt_ge_cases i 23); [rewrite Z.shiftl_spec_low by done; apply andb_false_r|].
    by rewrite (word_testbit_high 23 M) by (done || lia). }
  unfold word in HM. rewrite (Z.lor_comm M), (lor_shiftl_add 24) by (unfold word; lia). split.
  - change 0x007fffff with (Z.ones 23). rewrite Z.land_ones by lia.
    symmetry. apply (Z.mod_unique_pos _ _ (2 * e)); lia.
  - destruct s; [|rewrite Z.lor_0_r; lia]. change 0x00800000 with (2 ^ 23).
    rewrite lor_bit; [lia|lia|]. rewrite <- (Z.mod_pow2_bits_low _ 24) by lia.
    rewrite <- (Z.mod_unique_pos (e * 2 ^ 24 + M) (2 ^ 24) e M) by lia.
    by apply (word_testbit_high 23).
Qed.

Lemma GetCompact_spec a fNegative :
  uwf W256 a →
  GetCompact a fNegative =
    Some (compact_mant (uval a) + compact_exp (uval a) * 2 ^ 24 +
          if fNegative && negb (uval a =? 0) then 2 ^ 23 else 0).
Proof.
  intros Ha. unfold GetCompact. rewrite bits_spec by done.
  fold (nbytes (uval a)). rewrite nCompact24 by done.
  pose proof (uval_wf _ _ Ha) as Hv. assert (0 ≤ uval a) as Hv0 by lia.
  change (mant24 (uval a) .& 0x00800000) with (mant24 (uval a) .& 2 ^ 23).
  rewrite land_bit, negb_involutive, mant24_sign by lia.
  pose proof (compact_mant_24 _ Hv0) as Em. pose proof (compact_mant_range _ Hv0) as Hmr.
  pose proof (compact_exp_range _ Hv) as Her.
  set (M := compact_mant (uval a)) in *.
  rewrite Z.shiftr_div_pow2 by lia. change (2 ^ 8) with 256.
  assert ((if 2 ^ (8 * nbytes (uval a)) <=? 2 * uval a
           then (mant24 (uval a) / 256, nbytes (uval a) + 1)
           else (mant24 (uval a), nbytes (uval a))) = (M, compact_exp (uval a))) as ->.
  { unfold compact_exp. destruct (_ <=? _); by rewrite Em. }
  set (e := compact_exp (uval a)) in *.
  destruct (compact_pack M e (fNegative && negb (uval a =? 0))) as (-> & E2 & E3); [done|lia|].
  cbn [negb Z.eqb]. destruct (Z.ltb_spec e 256); [|lia]. cbn [negb]. rewrite E2.
  replace (M =? 0) with (uval a =? 0); [by rewrite E3|].
  apply eq_true_iff_eq. rewrite !Z.eqb_eq. subst M. split; [by intros ->|by apply compact_mant_0].
Qed.

(** ** The theorems on compact targets *)

Lemma compact_word v (s : bool) :
  0 ≤ v < bw W256 →
  let c := compact_mant v + compact_exp v * 2 ^ 24 + if s then 2 ^ 23 else 0 in
  word 32 c ∧ compact_mantissa c = compact_mant v ∧ compact_exponent c = compact_exp v ∧
  Z.testbit c 23 = s.
Proof.
  intros Hv. cbn zeta. pose proof (compact_mant_range v ltac:(lia)). pose proof (compact_exp_range v Hv).
  unfold word, compact_mantissa, compact_exponent. split; [destruct s; lia|].
  split; [|split].
  - symmetry. apply (Z.mod_unique_pos _ _ (2 * compact_exp v + if s then 1 else 0)); destruct s; lia.
  - symmetry. apply (Z.div_unique_pos _ _ _ (compact_mant v + if s then 2 ^ 23 else 0)); destruct s; lia.
  - rewrite Z.testbit_odd, Z.shiftr_div_pow2 by lia.
    rewrite <- (Z.div_unique_pos _ (2 ^ 23) (2 * compact_exp v + if s then 1 else 0) (compact_mant v))
      by (destruct s; lia).
    rewrite Z.odd_add, Z.odd_mul. by destruct s.
Qed.

Lemma compact_value_nonneg m e : 0 ≤ m → 0 ≤ compact_value m e.
Proof.
  intros Hm. unfold compact_value. destruct (Z.leb_spec e 3).
  - apply Z.div_pos; [done|]. apply Z.pow_pos_nonneg; lia.
  - apply Z.mul_nonneg_nonneg; [done|]. apply Z.pow_nonneg. lia.
Qed.

(** The bytes dropped below the mantissa are less than [2^-15] of the target. *)
Lemma compact_precision v :
  0 ≤ v → let r := compact_value (compact_mant v) (compact_exp v) in
  r ≤ v ∧ (v - r) * 2 ^ 15 ≤ v.
Proof.
  intros Hv. cbn zeta. rewrite compact_value_mant by done.
  destruct (Z.leb_spec (compact_exp v) 3) as [|H3]; [lia|].
  assert (0 < 256 ^ (compact_exp v - 3)) as Hp by (apply Z.pow_pos_nonneg; lia).
  pose proof (Z.mod_pos_bound v _ Hp). split; [lia|].
  enough (256 ^ (compact_exp v - 3) * 2 ^ 15 ≤ v) by nia.
  destruct (Z.eq_dec v 0) as [->|]; [done|].
  destruct (nbytes_range v ltac:(lia)) as (N1 & N2 & _).
  rewrite pow_256, <- Z.pow_add_r by lia. revert H3. unfold compact_exp.
  destruct (Z.leb_spec (2 ^ (8 * nbytes v)) (2 * v)) as [Hh|]; intros H3.
  - replace (2 ^ (8 * nbytes v)) with (2 * 2 ^ (8 * nbytes v - 1)) in Hh by
      (rewrite <- Z.pow_succ_r by lia; f_equal; lia).
    replace (8 * (nbytes v + 1 - 3) + 15) with (8 * nbytes v - 1) by lia. lia.
  - etransitivity; [|exact N2]. apply Z.pow_le_mono_r; lia.
Qed.

(** Encoding a 256-bit target never fails an assertion, and decoding the
    word gives the target back up to the mantissa's precision: no overflow is
    signalled, the sign is the one given (zero has none), and the value is the
    target rounded down by less than one part in [2^15]. *)
Theorem compact_roundtrip (a : uint256) (fNegative : bool) (Ha : uwf W256 a) :
  ∃ c b, GetCompact a fNegative = Some c ∧ word 32 c ∧
    SetCompact c = (b, fNegative && negb (uval a =? 0), false) ∧ uwf W256 b ∧
    uval b ≤ uval a ∧ (uval a - uval b) * 2 ^ 15 ≤ uval a.
Proof.
  pose proof (uval_wf _ _ Ha) as Hv. rewrite GetCompact_spec by done.
  set (s := fNegative && negb (uval a =? 0)).
  destruct (compact_word (uval a) s Hv) as (Hc & Em & Ee & Es).
  set (c := _ + _) in *. pose proof (SetCompact_spec c Hc) as H.
  destruct (SetCompact c) as [[b n] o] eqn:ES. destruct H as (Hb & Vb & Nb & Ob).
  unfold compact_abs in *. rewrite Em, Ee in *.
  destruct (compact_precision (uval a) ltac:(lia)) as [P1 P2].
  set (r := compact_value _ _) in *.
  assert (0 ≤ r) as Hr0.
  { apply compact_value_nonneg, compact_mant_range. lia. }
  change (bw W256) with (2 ^ 256) in Hv. rewrite Z.mod_small in Vb by lia.
  assert (n = s) as ->.
  { rewrite Nb, Es. subst s. destruct (Z.eqb_spec r 0) as [E0|]; [|by rewrite andb_true_l].
    assert (uval a = 0) as -> by lia. by rewrite !andb_false_r. }
  assert (o = false) as -> by (rewrite Ob; apply Z.leb_gt; lia).
  exists c, b. by rewrite ES, Vb.
Qed.

Lemma compact_roundtrip_witness :
  ∃ c b, GetCompact (base_uint_u64 W256 0x123456789abc) true = Some c ∧
    SetCompact c = (b, true, false) ∧ uval b ≤ 0x123456789abc.
Proof.
  destruct (compact_roundtrip (base_uint_u64 W256 0x123456789abc) true) as (c & b & H1 & _ & H2 & _ & H3 & _);
    [apply uwf_u64; lia|].
  exists c, b. split; [exact H1|]. split; [exact H2|exact H3].
Defined.

(** The flags of [SetCompact] are exact: overflow is signalled exactly when
    the number the word denotes does not fit 256 bits, and without overflow the
    result is that number; the sign is reported exactly for a nonzero number
    whose sign bit is set. *)
Theorem SetCompact_exact (c : Z) (Hc : word 32 c) :
  let '(a, fNegative, fOverflow) := SetCompact c in
  uwf W256 a ∧
  (fOverflow = true ↔ 2 ^ 256 ≤ compact_abs c) ∧
  (fOverflow = false → uval a = compact_abs c) ∧
  (fNegative = true ↔ compact_abs c ≠ 0 ∧ Z.testbit c 23 = true).
Proof.
  pose proof (SetCompact_spec c Hc) as H. destruct (SetCompact c) as [[a n] o].
  destruct H as (Ha & Va & -> & ->). split; [done|]. rewrite Z.leb_le. split; [done|]. split.
  - intros Hlt%Z.leb_gt. rewrite Va. apply Z.mod_small. split; [|done].
    apply compact_value_nonneg, Z.mod_pos_bound. lia.
  - by rewrite andb_true_iff, negb_true_iff, Z.eqb_neq.
Qed.

Lemma SetCompact_exact_witness :
  uval (SetCompact 0x1d00ffff).1.1 = 0xffff * 256 ^ 26 ∧ (SetCompact 0x22000100).2 = true.
Proof.
  split.
  - pose proof (SetCompact_exact 0x1d00ffff ltac:(split; lia)) as H.
    destruct (SetCompact 0x1d00ffff) as [[a n] o] eqn:E.
    assert (o = false) as Ho by (vm_compute in E; congruence).
    destruct H as (_ & _ & H & _). cbn [fst]. rewrite (H Ho). reflexivity.
  - pose proof (SetCompact_exact 0x22000100 ltac:(split; lia)) as H.
    destruct (SetCompact 0x22000100) as [[a n] o]. apply H. vm_compute. discriminate.
Defined.

(** A canonical word: the mantissa's leading byte is used. *)
Lemma compact_canonical_exp m e :
  3 ≤ e → 2 ^ 15 ≤ m < 2 ^ 23 → let v := compact_value m e in
  compact_exp v = e ∧ compact_mant v = m.
Proof.
  intros He Hm. cbn zeta. set (v := compact_value m e).
  assert (v = m * 2 ^ (8 * (e - 3))) as Ev.
  { subst v. unfold compact_value. destruct (Z.leb_spec e 3); [|by rewrite pow_256 by lia].
    assert (e = 3) as -> by lia. by rewrite Z.div_1_r, Z.mul_1_r. }
  assert (0 < 2 ^ (8 * (e - 3))) as Hp by (apply Z.pow_pos_nonneg; lia).
  assert (0 < v) as Hv by nia.
  destruct (nbytes_range v Hv) as (N1 & N2 & N3).
  assert (2 ^ (8 * e - 9) ≤ v < 2 ^ (8 * e - 1)) as [V1 V2].
  { replace (8 * e - 9) with (15 + 8 * (e - 3)) by lia.
    replace (8 * e - 1) with (23 + 8 * (e - 3)) by lia. rewrite !Z.pow_add_r by lia. nia. }
  assert (8 * nbytes v - 8 < 8 * e - 1) by (apply (Z.pow_lt_mono_r_iff 2); lia).
  assert (8 * e - 9 < 8 * nbytes v) by (apply (Z.pow_lt_mono_r_iff 2); lia).
  assert (2 ^ (8 * e - 8) = 2 * 2 ^ (8 * e - 9)) by (rewrite <- Z.pow_succ_r by lia; f_equal; lia).
  assert (2 ^ (8 * e) = 2 * 2 ^ (8 * e - 1)) by (rewrite <- Z.pow_succ_r by lia; f_equal; lia).
  assert (compact_exp v = e) as Ee.
  { unfold compact_exp. assert (nbytes v = e ∨ nbytes v = e - 1) as [->| ->] by lia.
    - destruct (Z.leb_spec (2 ^ (8 * e)) (2 * v)); lia.
    - replace (8 * (e - 1)) with (8 * e - 8) by lia.
      destruct (Z.leb_spec (2 ^ (8 * e - 8)) (2 * v)); lia. }
  split; [done|]. unfold compact_mant. rewrite Ee, Ev.
  destruct (Z.leb_spec e 3); [assert (e = 3) as -> by lia; cbn; lia|].
  rewrite pow_256 by lia. apply Z.div_mul. lia.
Qed.

(** A canonical compact word, one whose mantissa uses its leading byte and
    that does not overflow, is what [GetCompact] makes of the target it denotes,
    sign included: the two functions are inverse on difficulty targets. *)
Theorem compact_canonical (c : Z) (Hc : word 32 c) (He : 3 ≤ compact_exponent c)
    (Hm : 2 ^ 15 ≤ compact_mantissa c) (Ho : compact_abs c < 2 ^ 256) :
  let '(a, fNegative, fOverflow) := SetCompact c in
  fOverflow = false ∧ GetCompact a fNegative = Some c.
Proof.
  pose proof (SetCompact_spec c Hc) as H. destruct (SetCompact c) as [[a n] o].
  destruct H as (Ha & Va & -> & ->).
  assert (compact_mantissa c < 2 ^ 23) as Hm2 by (apply Z.mod_pos_bound; lia).
  pose proof (compact_value_nonneg (compact_mantissa c) (compact_exponent c) ltac:(lia)) as H0.
  destruct (compact_canonical_exp (compact_mantissa c) (compact_exponent c) He ltac:(lia)) as [Ee Em].
  fold (compact_abs c) in *. rewrite Z.mod_small in Va by lia.
  split; [by apply Z.leb_gt|]. rewrite GetCompact_spec, Va, Ee, Em by done. f_equal.
  destruct (Z.eqb_spec (compact_abs c) 0) as [E0|_]; [rewrite E0 in Em; change (compact_mant 0) with 0 in Em; lia|].
  rewrite andb_true_l, andb_true_r. unfold compact_mantissa, compact_exponent.
  pose proof (Z.div_mod c (2 ^ 23) ltac:(lia)) as D.
  replace (c / 2 ^ 24) with (c / 2 ^ 23 / 2) by (by rewrite Z.div_div by lia).
  pose proof (Z.div_mod (c / 2 ^ 23) 2 ltac:(lia)) as D2.
  assert ((c / 2 ^ 23) mod 2 = if Z.testbit c 23 then 1 else 0) as Eb
    by (rewrite <- Z.testbit_spec' by lia; by destruct (Z.testbit c 23)).
  destruct (Z.testbit c 23); lia.
Qed.

Lemma compact_canonical_witness :
  let '(a, fNegative, fOverflow) := SetCompact 0x1e0ffff0 in
  fOverflow = false ∧ GetCompact a fNegative = Some 0x1e0ffff0.
Proof.
  apply (compact_canonical 0x1e0ffff0).
  - split; lia.
  - vm_compute. discriminate.
  - vm_compute. discriminate.
  - vm_compute. reflexivity.
Defined.
