(* ===== verification/BlockIndex.v ===== *)
(** * The block index: a tree of entries linked by pointers

    [CBlockIndex] of [chain.h], the entries' validity and flag operations of
    [chain.cpp] and the skip list of [main.cpp] ([GetSkipHeight],
    [CBlockIndex::GetAncestor], [CBlockIndex::BuildSkip]).  The entries live in a
    heap of pointers, because they refer to each other by [pprev] and [pskip];
    [tree_wf] is the invariant that makes every walk along those pointers reach
    the ancestor it should. *)

From stdpp Require Import gmap fin_maps.
From S2P Require Import Prelude Ints.

Local Open Scope Z_scope.

Abbreviation ptr := positive.

(** ** Entries *)

(** The fields of [CBlockIndex] that the operations below read or write;
    [phashBlock] is the hash it points to. *)
Record CBlockIndex := MkIndex {
  phashBlock : list Z;
  pprev : option ptr;
  pskip : option ptr;
  nHeight : Z;
  nFile : Z;
  nDataPos : Z;
  nUndoPos : Z;
  nChainWork : list Z;
  nTx : Z;
  nChainTx : Z;
  nStatus : Z;
  vStakeModifier : list Z;
  nFlags : Z;
  nVersion : Z;
  hashMerkleRoot : list Z;
  nTime : Z;
  nBits : Z;
  nNonce : Z;
  nSequenceId : Z
}.

Abbreviation heap := (gmap ptr CBlockIndex).

Definition GetBlockTime (b : CBlockIndex) : Z := nTime b.

(** Statuses and flags. *)
Definition BLOCK_VALID_TREE : Z := 2.
Definition BLOCK_VALID_TRANSACTIONS : Z := 3.
Definition BLOCK_VALID_MASK : Z := 1 .| 2 .| 3 .| 4 .| 5.
Definition BLOCK_HAVE_DATA : Z := 8.
Definition BLOCK_HAVE_UNDO : Z := 16.
Definition BLOCK_FAILED_VALID : Z := 32.
Definition BLOCK_FAILED_CHILD : Z := 64.
Definition BLOCK_FAILED_MASK : Z := BLOCK_FAILED_VALID .| BLOCK_FAILED_CHILD.

Definition BLOCK_PROOF_OF_STAKE : Z := 1.
Definition BLOCK_STAKE_ENTROPY : Z := 2.
Definition BLOCK_STAKE_MODIFIER : Z := 4.

Definition set_nStatus (v : Z) (b : CBlockIndex) : CBlockIndex :=
  let 'MkIndex h p k nh f d u w t c _ sm fl ve m ti bi no sq := b in
  MkIndex h p k nh f d u w t c v sm fl ve m ti bi no sq.

Definition set_nFlags (v : Z) (b : CBlockIndex) : CBlockIndex :=
  let 'MkIndex h p k nh f d u w t c s sm _ ve m ti bi no sq := b in
  MkIndex h p k nh f d u w t c s sm v ve m ti bi no sq.

Definition set_vStakeModifier (v : list Z) (b : CBlockIndex) : CBlockIndex :=
  let 'MkIndex h p k nh f d u w t c s _ fl ve m ti bi no sq := b in
  MkIndex h p k nh f d u w t c s v fl ve m ti bi no sq.

Definition set_nChainWork (v : list Z) (b : CBlockIndex) : CBlockIndex :=
  let 'MkIndex h p k nh f d u _ t c s sm fl ve m ti bi no sq := b in
  MkIndex h p k nh f d u v t c s sm fl ve m ti bi no sq.

Definition set_pskip (v : option ptr) (b : CBlockIndex) : CBlockIndex :=
  let 'MkIndex h p _ nh f d u w t c s sm fl ve m ti bi no sq := b in
  MkIndex h p v nh f d u w t c s sm fl ve m ti bi no sq.

Definition IsProofOfStake (b : CBlockIndex) : bool := negb (nFlags b .& BLOCK_PROOF_OF_STAKE =? 0).

Definition IsProofOfWork (b : CBlockIndex) : bool := negb (IsProofOfStake b).

Definition SetProofOfStake (b : CBlockIndex) : CBlockIndex :=
  set_nFlags (nFlags b .| BLOCK_PROOF_OF_STAKE) b.

Definition GeneratedStakeModifier (b : CBlockIndex) : bool :=
  negb (nFlags b .& BLOCK_STAKE_MODIFIER =? 0).

Definition SetStakeEntropyBit (nEntropyBit : Z) (b : CBlockIndex) : CBlockIndex * bool :=
  if 1 <? nEntropyBit then (b, false)
  else (set_nFlags (nFlags b .| if negb (nEntropyBit =? 0) then BLOCK_STAKE_ENTROPY else 0) b, true).

Definition SetStakeModifier (nStakeModifier : Z) (fGeneratedStakeModifier : bool) (b : CBlockIndex) :
    CBlockIndex :=
  let b := set_vStakeModifier (le_enc 8 nStakeModifier) b in
  if fGeneratedStakeModifier then set_nFlags (nFlags b .| BLOCK_STAKE_MODIFIER) b else b.

(** The copy reads [vStakeModifier.size()] bytes into a 64-bit integer. *)
Definition GetStakeModifierV1 (b : CBlockIndex) : Z :=
  match vStakeModifier b with
  | [] => 0
  | v => le_dec v
  end.

(** [IsValid] and [RaiseValidity]; [None] is the failed assertion that only
    validity bits are asked for. *)
Definition validity_ok (nUpTo : Z) : bool := nUpTo .& Z.lnot BLOCK_VALID_MASK =? 0.

Definition IsValid (nUpTo : Z) (b : CBlockIndex) : option bool :=
  if negb (validity_ok nUpTo) then None
  else if negb (nStatus b .& BLOCK_FAILED_MASK =? 0) then Some false
  else Some (nUpTo <=? nStatus b .& BLOCK_VALID_MASK).

Definition RaiseValidity (nUpTo : Z) (b : CBlockIndex) : option (CBlockIndex * bool) :=
  if negb (validity_ok nUpTo) then None
  else if negb (nStatus b .& BLOCK_FAILED_MASK =? 0) then Some (b, false)
  else if nStatus b .& BLOCK_VALID_MASK <? nUpTo then
    Some (set_nStatus ((nStatus b .& u32 (Z.lnot BLOCK_VALID_MASK)) .| nUpTo) b, true)
  else Some (b, false).

(** ** The skip list *)

Definition InvertLowestOne (n : Z) : Z := n .& (n - 1).

Definition GetSkipHeight (height : Z) : Z :=
  if height <? 2 then 0
  else if negb (height .& 1 =? 0) then InvertLowestOne (InvertLowestOne (height - 1)) + 1
  else InvertLowestOne height.

(** The loop of [GetAncestor]; dereferencing a null pointer is [None]. *)
Fixpoint GetAncestor_loop (h : heap) (fuel : nat) (pindexWalk : option ptr) (heightWalk height : Z) :
    option ptr :=
  match fuel with
  | O => None
  | S fuel =>
      if height <? heightWalk then
        let heightSkip := GetSkipHeight heightWalk in
        let heightSkipPrev := GetSkipHeight (heightWalk - 1) in
        match pindexWalk ≫= λ p, h !! p with
        | None => None
        | Some b =>
            if (heightSkip =? height) ||
               ((height <? heightSkip) &&
                negb ((heightSkipPrev <? heightSkip - 2) && (height <=? heightSkipPrev)))
            then GetAncestor_loop h fuel (pskip b) heightSkip height
            else GetAncestor_loop h fuel (pprev b) (heightWalk - 1) height
        end
      else pindexWalk
  end.

(** Every iteration lowers [heightWalk], so [nHeight + 1] iterations are enough. *)
Definition GetAncestor (h : heap) (p : ptr) (height : Z) : option ptr :=
  match h !! p with
  | None => None
  | Some b =>
      if (nHeight b <? height) || (height <? 0) then None
      else GetAncestor_loop h (S (Z.to_nat (nHeight b))) (Some p) (nHeight b) height
  end.

Definition BuildSkip (h : heap) (b : CBlockIndex) : CBlockIndex :=
  match pprev b with
  | None => b
  | Some q => set_pskip (GetAncestor h q (GetSkipHeight (nHeight b))) b
  end.

(** [GetMedianTimePast]: the times of up to eleven blocks, sorted. *)
Definition nMedianTimeSpan : nat := 11.

Fixpoint past_times (h : heap) (n : nat) (p : option ptr) : list Z :=
  match n with
  | O => []
  | S n => match p ≫= λ p, h !! p with
           | None => []
           | Some b => GetBlockTime b :: past_times h n (pprev b)
           end
  end.

Fixpoint insert_sorted (x : Z) (l : list Z) : list Z :=
  match l with
  | [] => [x]
  | y :: l' => if x <=? y then x :: l else y :: insert_sorted x l'
  end.

Definition std_sort (l : list Z) : list Z := foldr insert_sorted [] l.

Definition GetMedianTimePast (h : heap) (p : ptr) : Z :=
  let times := std_sort (past_times h nMedianTimeSpan (Some p)) in
  times.[length times / 2].

(** ** Walking to the parent *)

(** The entry [n] parents up. *)
Fixpoint walk (h : heap) (n : nat) (p : ptr) : option ptr :=
  match n with
  | O => Some p
  | S n => match h !! p ≫= pprev with
           | Some q => walk h n q
           | None => None
           end
  end.

(** The ancestor of [p] at a height, by parents alone. *)
Definition ancestor (h : heap) (p : ptr) (height : Z) : option ptr :=
  match h !! p with
  | None => None
  | Some b => if (height <? 0) || (nHeight b <? height) then None
              else walk h (Z.to_nat (nHeight b - height)) p
  end.

(** The invariant of an entry: a root has height 0 and no skip pointer; any
    other entry is one above its parent, and its skip pointer is its ancestor at
    the skip height. *)
Definition entry_wf (h : heap) (b : CBlockIndex) : Prop :=
  match pprev b with
  | None => nHeight b = 0 ∧ pskip b = None
  | Some q => ∃ c, h !! q = Some c ∧ nHeight b = nHeight c + 1 ∧
      pskip b = ancestor h q (GetSkipHeight (nHeight b))
  end.

Definition tree_wf (h : heap) : Prop :=
  ∀ p b, h !! p = Some b → 0 ≤ nHeight b ∧ entry_wf h b.

(** ** Walks *)

Lemma walk_add h m n p : walk h (m + n) p = walk h m p ≫= walk h n.
Proof.
  revert p. induction m as [|m IH]; intros p; [done|]. simpl.
  destruct (h !! p ≫= pprev) as [q|]; [|done]. apply IH.
Qed.

(** A walk of no more steps than the height stays in the heap and loses one
    unit of height per step. *)
Lemma walk_height h n p b :
  tree_wf h → h !! p = Some b → Z.of_nat n ≤ nHeight b →
  ∃ q c, walk h n p = Some q ∧ h !! q = Some c ∧ nHeight c = nHeight b - Z.of_nat n.
Proof.
  intros Hwf. revert p b. induction n as [|n IH]; intros p b Hp Hn.
  - exists p, b. simpl. split; [done|]. split; [done|]. lia.
  - destruct (Hwf p b Hp) as [_ He]. unfold entry_wf in He. simpl. rewrite Hp. simpl.
    destruct (pprev b) as [q|]; [|lia]. destruct He as (c & Hq & Hh & _).
    destruct (IH q c Hq) as (q' & c' & Hw & Hq' & Hh'); [lia|].
    exists q', c'. split; [done|]. split; [done|]. lia.
Qed.

Lemma ancestor_self h p b : tree_wf h → h !! p = Some b → ancestor h p (nHeight b) = Some p.
Proof.
  intros Hwf Hp. destruct (Hwf p b Hp) as [H0 _]. unfold ancestor. rewrite Hp.
  destruct (Z.ltb_spec (nHeight b) 0); [lia|]. destruct (Z.ltb_spec (nHeight b) (nHeight b)); [lia|].
  cbn [orb]. by rewrite Z.sub_diag.
Qed.

Lemma ancestor_walk h p b height :
  h !! p = Some b → 0 ≤ height ≤ nHeight b →
  ancestor h p height = walk h (Z.to_nat (nHeight b - height)) p.
Proof.
  intros Hp Hr. unfold ancestor. rewrite Hp.
  destruct (Z.ltb_spec height 0); [lia|]. by destruct (Z.ltb_spec (nHeight b) height); [lia|].
Qed.

(** The ancestor at a height in range exists and has that height. *)
Lemma ancestor_exists h p b height :
  tree_wf h → h !! p = Some b → 0 ≤ height ≤ nHeight b →
  ∃ q c, ancestor h p height = Some q ∧ h !! q = Some c ∧ nHeight c = height.
Proof.
  intros Hwf Hp Hr. rewrite (ancestor_walk h p b) by done.
  destruct (walk_height h (Z.to_nat (nHeight b - height)) p b) as (q & c & Hw & Hq & Hh); [done..|lia|].
  exists q, c. split; [done|]. split; [done|]. lia.
Qed.

Lemma ancestor_parent h p b q height :
  tree_wf h → h !! p = Some b → pprev b = Some q → height < nHeight b →
  ancestor h p height = ancestor h q height.
Proof.
  intros Hwf Hp Hq Hlt. destruct (Hwf p b Hp) as [_ He]. unfold entry_wf in He. rewrite Hq in He.
  destruct He as (c & Hc & Hh & _). unfold ancestor. rewrite Hp, Hc.
  destruct (Z.ltb_spec height 0); cbn [orb]; [done|].
  destruct (Z.ltb_spec (nHeight b) height); [lia|]. destruct (Z.ltb_spec (nHeight c) height); [lia|].
  replace (Z.to_nat (nHeight b - height)) with (S (Z.to_nat (nHeight c - height))) by lia.
  simpl. rewrite Hp. simpl. by rewrite Hq.
Qed.

(** An ancestor of an ancestor is an ancestor. *)
Lemma ancestor_trans h p b q k height :
  tree_wf h → h !! p = Some b → ancestor h p k = Some q → height ≤ k →
  ancestor h q height = ancestor h p height.
Proof.
  intros Hwf Hp Hq Hle. revert Hq. unfold ancestor at 1. rewrite Hp.
  destruct (Z.ltb_spec k 0); cbn [orb]; [done|]. destruct (Z.ltb_spec (nHeight b) k); [done|]. intros Hq.
  destruct (walk_height h (Z.to_nat (nHeight b - k)) p b) as (q' & c & Hw & Hc & Hh); [done..|lia|].
  rewrite Hq in Hw. injection Hw as <-.
  destruct (Z.ltb_spec height 0) as [Hneg|Hpos].
  { unfold ancestor. rewrite Hp, Hc. destruct (Z.ltb_spec height 0); [done|lia]. }
  rewrite (ancestor_walk h q c), (ancestor_walk h p b) by (done || lia).
  replace (Z.to_nat (nHeight b - height)) with (Z.to_nat (nHeight b - k) + Z.to_nat (nHeight c - height))%nat by lia.
  rewrite walk_add, Hq. done.
Qed.

(** ** The skip list finds the same ancestors *)

Lemma land_le_r a b : 0 ≤ b → 0 ≤ a .& b ≤ b.
Proof.
  intros Hb. apply Z.ldiff_le; [done|]. apply Z.bits_inj'. intros i Hi.
  rewrite Z.ldiff_spec, Z.land_spec, Z.bits_0. by destruct (Z.testbit a i), (Z.testbit b i).
Qed.

Lemma InvertLowestOne_range n : 0 < n → 0 ≤ InvertLowestOne n < n.
Proof. intros Hn. unfold InvertLowestOne. pose proof (land_le_r n (n - 1) ltac:(lia)). lia. Qed.

(** A skip goes strictly down and not below the root. *)
Lemma GetSkipHeight_range height : 0 < height → 0 ≤ GetSkipHeight height < height.
Proof.
  intros Hh. unfold GetSkipHeight. destruct (Z.ltb_spec height 2); [lia|].
  destruct (negb (height .& 1 =? 0)) eqn:Hodd.
  - destruct (Z.eq_dec height 2) as [->|]; [done|].
    pose proof (InvertLowestOne_range (height - 1) ltac:(lia)) as H1.
    destruct (Z.eq_dec (InvertLowestOne (height - 1)) 0) as [->|].
    { change (InvertLowestOne 0) with 0. lia. }
    pose proof (InvertLowestOne_range (InvertLowestOne (height - 1)) ltac:(lia)). lia.
  - apply InvertLowestOne_range. lia.
Qed.

(** Under the invariant the loop finds the ancestor, within [heightWalk]
    iterations. *)
Lemma GetAncestor_loop_spec h fuel p b height :
  tree_wf h → h !! p = Some b → 0 ≤ height ≤ nHeight b → nHeight b < Z.of_nat fuel →
  GetAncestor_loop h fuel (Some p) (nHeight b) height = ancestor h p height.
Proof.
  intros Hwf. revert p b. induction fuel as [|fuel IH]; intros p b Hp Hr Hf; [lia|].
  cbn [GetAncestor_loop]. destruct (Z.ltb_spec height (nHeight b)) as [Hlt|Hge].
  2:{ assert (height = nHeight b) as -> by lia. by rewrite (ancestor_self h p b). }
  cbn [mbind option_bind]. rewrite Hp.
  destruct (Hwf p b Hp) as [_ He]. unfold entry_wf in He.
  destruct (pprev b) as [q|] eqn:Hq; [|lia]. destruct He as (c & Hc & Hh & Hskip).
  rewrite (ancestor_parent h p b q height) by (done || lia).
  pose proof (GetSkipHeight_range (nHeight b) ltac:(lia)) as Hs.
  destruct (_ || _) eqn:Hcond.
  - assert (height ≤ GetSkipHeight (nHeight b)) as Hle.
    { apply orb_true_iff in Hcond as [?%Z.eqb_eq|[?%Z.ltb_lt _]%andb_true_iff]; lia. }
    destruct (ancestor_exists h q c (GetSkipHeight (nHeight b))) as (s & d & Ha & Hd & Hhd); [done|done|lia|].
    rewrite Hskip, Ha, <- Hhd, IH by (done || lia).
    by apply (ancestor_trans h q c s (GetSkipHeight (nHeight b))).
  - replace (nHeight b - 1) with (nHeight c) by lia. apply IH; (done || lia).
Qed.

Lemma GetAncestor_spec h p height :
  tree_wf h → GetAncestor h p height = ancestor h p height.
Proof.
  intros Hwf. unfold GetAncestor. destruct (h !! p) as [b|] eqn:Hp; [|unfold ancestor; by rewrite Hp].
  destruct (Hwf p b Hp) as [H0 _].
  destruct (Z.ltb_spec (nHeight b) height), (Z.ltb_spec height 0); cbn [orb].
  1-3: unfold ancestor; rewrite Hp; destruct (Z.ltb_spec height 0), (Z.ltb_spec (nHeight b) height); (done || lia).
  apply GetAncestor_loop_spec; (done || lia).
Qed.

(** ** Changes to the heap that keep the tree *)

(** What the walks read of an entry. *)
Definition links (b : CBlockIndex) : option ptr * option ptr * Z := (pprev b, pskip b, nHeight b).

(** Two heaps with the same links have the same ancestors. *)
Definition same_links (h h' : heap) : Prop := ∀ p, links <$> h !! p = links <$> h' !! p.

#[export] Instance same_links_equiv : Equivalence same_links.
Proof.
  split; [by intros h p|by intros h h' H p|].
  intros h1 h2 h3 H1 H2 p. etransitivity; [apply H1|apply H2].
Qed.

Lemma same_links_pprev h h' p : same_links h h' → h !! p ≫= pprev = h' !! p ≫= pprev.
Proof.
  intros H. specialize (H p). unfold links in H. destruct (h !! p), (h' !! p); simpl in *; congruence.
Qed.

#[export] Instance walk_proper : Proper (same_links ==> eq ==> eq ==> eq) walk.
Proof.
  intros h h' H n ? <- p ? <-. revert p. induction n as [|n IH]; intros p; [done|].
  simpl. rewrite (same_links_pprev h h' p H). destruct (h' !! p ≫= pprev); [apply IH|done].
Qed.

#[export] Instance ancestor_proper : Proper (same_links ==> eq ==> eq ==> eq) ancestor.
Proof.
  intros h h' H p ? <- k ? <-. unfold ancestor. pose proof (H p) as Hp.
  destruct (h !! p) as [b|], (h' !! p) as [c|]; simpl in Hp; try done.
  assert (nHeight b = nHeight c) as -> by (unfold links in Hp; congruence).
  by rewrite H.
Qed.

Lemma tree_wf_same_links h h' : same_links h h' → tree_wf h → tree_wf h'.
Proof.
  intros H Hwf p b' Hp. pose proof (H p) as Hl. rewrite Hp in Hl.
  destruct (h !! p) as [b|] eqn:Hb; [|done]. simpl in Hl. unfold links in Hl. injection Hl as E1 E2 E3.
  destruct (Hwf p b Hb) as [H0 He]. split; [lia|]. revert He. unfold entry_wf. rewrite <- E1, <- E2, <- E3.
  destruct (pprev b) as [q|]; [|done]. intros (c & Hc & Hh & Hs).
  pose proof (H q) as Hq. rewrite Hc in Hq. destruct (h' !! q) as [c'|] eqn:Hc'; [|done].
  simpl in Hq. unfold links in Hq. injection Hq as F1 F2 F3. exists c'. split; [done|]. split; [lia|]. by rewrite <- H.
Qed.

(** Overwriting an entry without touching its links. *)
Lemma same_links_update h p b b' :
  h !! p = Some b → links b' = links b → same_links h (<[p := b']> h).
Proof.
  intros Hp Hl q. destruct (decide (p = q)) as [<-|Hne].
  - rewrite lookup_insert_eq, Hp. simpl. by rewrite Hl.
  - by rewrite lookup_insert_ne.
Qed.

(** Walks inside a heap are not changed by adding entries. *)
Lemma walk_extend h p b n q r :
  h !! p = None → walk h n q = Some r → walk (<[p := b]> h) n q = Some r.
Proof.
  intros Hp. revert q. induction n as [|n IH]; intros q Hw; [done|]. simpl in *.
  destruct (decide (p = q)) as [<-|Hne]; [by rewrite Hp in Hw|].
  rewrite lookup_insert_ne by done. destruct (h !! q ≫= pprev) as [r'|]; [by apply IH|done].
Qed.

Lemma ancestor_extend h p b q k :
  tree_wf h → h !! p = None → is_Some (h !! q) →
  ancestor (<[p := b]> h) q k = ancestor h q k.
Proof.
  intros Hwf Hp [c Hc]. assert (p ≠ q) by congruence.
  unfold ancestor. rewrite lookup_insert_ne, Hc by done.
  destruct (Z.ltb_spec k 0), (Z.ltb_spec (nHeight c) k); cbn [orb]; try done.
  destruct (walk_height h (Z.to_nat (nHeight c - k)) q c) as (r & d & Hw & _); [done..|lia|].
  rewrite Hw. by apply walk_extend.
Qed.

(** Adding an entry built on an existing parent, or a root. *)
Lemma tree_wf_extend h p b :
  tree_wf h → h !! p = None → 0 ≤ nHeight b → entry_wf h b → tree_wf (<[p := b]> h).
Proof.
  intros Hwf Hp Hb He.
  assert (∀ c, entry_wf h c → entry_wf (<[p := b]> h) c) as Hmono.
  { intros c. unfold entry_wf. destruct (pprev c) as [q|]; [|done]. intros (d & Hd & Hh & Hs).
    exists d. rewrite lookup_insert_ne by congruence. split; [done|]. split; [done|].
    by rewrite ancestor_extend. }
  intros q c. destruct (decide (p = q)) as [<-|Hne].
  - rewrite lookup_insert_eq. intros [= <-]. by auto.
  - rewrite lookup_insert_ne by done. intros Hq. destruct (Hwf q c Hq). auto.
Qed.

(** The entry that [BuildSkip] completes is well formed. *)
Lemma BuildSkip_wf h b q c :
  tree_wf h → pprev b = Some q → h !! q = Some c → nHeight b = nHeight c + 1 →
  entry_wf h (BuildSkip h b).
Proof.
  intros Hwf Hq Hc Hh. unfold entry_wf, BuildSkip. rewrite Hq, GetAncestor_spec by done.
  destruct b. simpl in *. rewrite Hq. by exists c.
Qed.

(** ** The theorems on the block index *)

(** C21: in a well-formed block index the skip-list search terminates within
    [nHeight + 1] steps, never dereferences a null pointer, and returns exactly
    the ancestor that walking the parent pointers one by one reaches; it returns
    null exactly for heights above the block or below the root. *)
Theorem GetAncestor_is_parent_walk (h : heap) (p : ptr) (b : CBlockIndex) (height : Z)
    (Hwf : tree_wf h) (Hp : h !! p = Some b) :
  (0 ≤ height ≤ nHeight b →
     ∃ q c, GetAncestor h p height = Some q ∧ h !! q = Some c ∧ nHeight c = height ∧
       walk h (Z.to_nat (nHeight b - height)) p = Some q) ∧
  (height < 0 ∨ nHeight b < height → GetAncestor h p height = None).
Proof.
  rewrite GetAncestor_spec by done. split.
  - intros Hr. destruct (ancestor_exists h p b height Hwf Hp Hr) as (q & c & Ha & Hq & Hh).
    exists q, c. rewrite <- (ancestor_walk h p b) by done. by rewrite Ha.
  - intros Hr. unfold ancestor. rewrite Hp.
    destruct (Z.ltb_spec height 0), (Z.ltb_spec (nHeight b) height); (done || lia).
Qed.

(** ** A chain built entry by entry, for concrete instances *)

Section chain_heap.
Context (time nbits : nat → Z).

Definition chain_entry (i : nat) : CBlockIndex :=
  MkIndex [Z.of_nat i] (match i with O => None | S j => Some (Pos.of_succ_nat j) end) None
    (Z.of_nat i) 0 0 0 [] 1 0 0 [] 0 3 [] (time i) (nbits i) 0 0.

Fixpoint chain_heap (n : nat) : heap :=
  match n with
  | O => {[Pos.of_succ_nat 0 := chain_entry 0]}
  | S m => let h := chain_heap m in <[Pos.of_succ_nat n := BuildSkip h (chain_entry n)]> h
  end.

Lemma chain_heap_lookup n i :
  chain_heap n !! Pos.of_succ_nat i =
    if decide (i ≤ n)%nat then Some (BuildSkip (chain_heap (pred i)) (chain_entry i)) else None.
Proof.
  induction n as [|n IH]; cbn [chain_heap].
  - destruct i as [|i]; [done|].
    rewrite lookup_singleton_ne by (intros ?%SuccNat2Pos.inj; lia). by rewrite decide_False by lia.
  - destruct (decide (i = S n)) as [->|Hne].
    + rewrite lookup_insert_eq. by rewrite decide_True by lia.
    + rewrite lookup_insert_ne by (intros ?%SuccNat2Pos.inj; lia). rewrite IH. repeat case_decide; (done || lia).
Qed.

Lemma chain_heap_wf n : tree_wf (chain_heap n).
Proof.
  induction n as [|n IH].
  - intros p b Hp. simpl in Hp. apply lookup_singleton_Some in Hp as [<- <-]. done.
  - cbn [chain_heap]. pose proof (chain_heap_lookup n n) as Hn. rewrite decide_True in Hn by lia.
    apply tree_wf_extend; [done|by rewrite (chain_heap_lookup n (S n)), decide_False by lia|simpl; lia|].
    eapply (BuildSkip_wf _ _ (Pos.of_succ_nat n)); [exact IH|done|exact Hn|].
    replace (nHeight (BuildSkip (chain_heap (pred n)) (chain_entry n))) with (Z.of_nat n) by by destruct n.
    simpl. lia.
Qed.
End chain_heap.

Lemma GetAncestor_is_parent_walk_witness :
  ∃ q, GetAncestor (chain_heap (λ _, 0) (λ _, 0) 20) (Pos.of_succ_nat 20) 3 = Some q ∧
       walk (chain_heap (λ _, 0) (λ _, 0) 20) 17 (Pos.of_succ_nat 20) = Some q.
Proof.
  assert (H := chain_heap_lookup (λ _, 0) (λ _, 0) 20 20).
  destruct (proj1 (GetAncestor_is_parent_walk (chain_heap (λ _, 0) (λ _, 0) 20) (Pos.of_succ_nat 20)
    _ 3 (chain_heap_wf _ _ 20) H) ltac:(simpl; lia)) as (q & _ & Ha & _ & _ & Hw).
  exists q. split; [exact Ha|exact Hw].
Defined.
