(* ===== verification/Params.v ===== *)
(** * Consensus parameters and network upgrades

    [consensus/params.h] and [consensus/upgrades.cpp]: the parameters the target
    computation reads, and when a network upgrade is active. *)

From S2P Require Import Prelude Ints.

Local Open Scope Z_scope.

Inductive UpgradeIndex :=
  BASE_NETWORK | UPGRADE_POS | UPGRADE_BIP65 | UPGRADE_TIME_PROTOCOL_V2
| UPGRADE_P2PKH_BLOCK_SIGNATURES | UPGRADE_STAKE_MIN_DEPTH_V2 | UPGRADE_MASTERNODE_RANK_V2
| UPGRADE_ADAM | UPGRADE_ADAM_V2 | UPGRADE_POMBL | UPGRADE_MODELD | UPGRADE_TESTDUMMY.

(** The enumerators in order; their position is their value. *)
Definition upgrades : list UpgradeIndex :=
  [BASE_NETWORK; UPGRADE_POS; UPGRADE_BIP65; UPGRADE_TIME_PROTOCOL_V2;
   UPGRADE_P2PKH_BLOCK_SIGNATURES; UPGRADE_STAKE_MIN_DEPTH_V2; UPGRADE_MASTERNODE_RANK_V2;
   UPGRADE_ADAM; UPGRADE_ADAM_V2; UPGRADE_POMBL; UPGRADE_MODELD; UPGRADE_TESTDUMMY].

Inductive UpgradeState := UPGRADE_DISABLED | UPGRADE_PENDING | UPGRADE_ACTIVE.

#[export] Instance UpgradeIndex_eq_dec : EqDecision UpgradeIndex.
Proof. solve_decision. Defined.

#[export] Instance UpgradeState_eq_dec : EqDecision UpgradeState.
Proof. solve_decision. Defined.

Record Params := MkParams {
  powLimit : list Z;
  posLimitV1 : list Z;
  posLimitV2 : list Z;
  nTargetTimespan : Z;
  nTargetTimespanV2 : Z;
  nTargetSpacing : Z;
  nFutureTimeDriftPoW : Z;
  nFutureTimeDriftPoS : Z;
  nTimeSlotLength : Z;
  nMaxMoneyOut : Z;
  nStakeMinAge : Z;
  nCoinbaseMaturity : Z;
  nActivationHeight : UpgradeIndex → Z
}.

Definition NO_ACTIVATION_HEIGHT : Z := -1.

(** [None] is the failed assertion on a negative height. *)
Definition NetworkUpgradeState (nHeight : Z) (params : Params) (idx : UpgradeIndex) :
    option UpgradeState :=
  if nHeight <? 0 then None
  else
    let nActivationHeight := nActivationHeight params idx in
    if nActivationHeight =? NO_ACTIVATION_HEIGHT then Some UPGRADE_DISABLED
    else if nActivationHeight <=? nHeight then Some UPGRADE_ACTIVE
    else Some UPGRADE_PENDING.

Definition NetworkUpgradeActive (params : Params) (nHeight : Z) (idx : UpgradeIndex) : option bool :=
  st ← NetworkUpgradeState nHeight params idx;
  Some (bool_decide (st = UPGRADE_ACTIVE)).

(** The loop from the last upgrade down to the first after [BASE_NETWORK]. *)
Fixpoint CurrentEpoch_loop (params : Params) (nHeight : Z) (ids : list UpgradeIndex) :
    option UpgradeIndex :=
  match ids with
  | [] => Some BASE_NETWORK
  | idx :: ids =>
      active ← NetworkUpgradeActive params nHeight idx;
      if (active : bool) then Some idx else CurrentEpoch_loop params nHeight ids
  end.

Definition CurrentEpoch (params : Params) (nHeight : Z) : option UpgradeIndex :=
  CurrentEpoch_loop params nHeight (rev (tail upgrades)).

Definition IsActivationHeight (nHeight : Z) (params : Params) (idx : UpgradeIndex) : bool :=
  if bool_decide (idx = BASE_NETWORK) then false
  else (0 <=? nHeight) && (nHeight =? nActivationHeight params idx).

Definition IsActivationHeightForAnyUpgrade (nHeight : Z) (params : Params) : bool :=
  if nHeight <? 0 then false
  else existsb (λ idx, nHeight =? nActivationHeight params idx) (tail upgrades).

Fixpoint NextEpoch_loop (params : Params) (nHeight : Z) (ids : list UpgradeIndex) :
    option UpgradeIndex :=
  match ids with
  | [] => None
  | idx :: ids =>
      if decide (NetworkUpgradeState nHeight params idx = Some UPGRADE_PENDING) then Some idx
      else NextEpoch_loop params nHeight ids
  end.

Definition NextEpoch (nHeight : Z) (params : Params) : option UpgradeIndex :=
  if nHeight <? 0 then None else NextEpoch_loop params nHeight (tail upgrades).

Definition NextActivationHeight (nHeight : Z) (params : Params) : option Z :=
  idx ← NextEpoch nHeight params;
  Some (nActivationHeight params idx).

(** The helpers of [Consensus::Params]. *)
Definition TargetTimespan (params : Params) (fV2 : bool) : Z :=
  if fV2 then nTargetTimespanV2 params else nTargetTimespan params.

Definition ProofOfStakeLimit (params : Params) (fV2 : bool) : list Z :=
  if fV2 then posLimitV2 params else posLimitV1 params.

Definition MoneyRange (params : Params) (nValue : Z) : bool :=
  (0 <=? nValue) && (nValue <=? nMaxMoneyOut params).

Definition IsTimeProtocolV2 (params : Params) (nHeight : Z) : option bool :=
  NetworkUpgradeActive params nHeight UPGRADE_TIME_PROTOCOL_V2.

Definition FutureBlockTimeDrift (params : Params) (nHeight : Z) : option Z :=
  v2 ← IsTimeProtocolV2 params nHeight;
  if (v2 : bool) then Some (nTimeSlotLength params - 1)
  else
    pos ← NetworkUpgradeActive params nHeight UPGRADE_POS;
    Some (if (pos : bool) then nFutureTimeDriftPoS params else nFutureTimeDriftPoW params).

Definition IsValidBlockTimeStamp (params : Params) (nTime nHeight : Z) : option bool :=
  v2 ← IsTimeProtocolV2 params nHeight;
  Some (if (v2 : bool) then Z.rem nTime (nTimeSlotLength params) =? 0 else true).

(** ** Lemmas *)

Lemma NetworkUpgradeActive_spec params nHeight idx :
  0 ≤ nHeight →
  NetworkUpgradeActive params nHeight idx =
    Some (negb (nActivationHeight params idx =? -1) && (nActivationHeight params idx <=? nHeight)).
Proof.
  intros H. unfold NetworkUpgradeActive, NetworkUpgradeState, NO_ACTIVATION_HEIGHT.
  destruct (Z.ltb_spec nHeight 0); [lia|].
  destruct (_ =? -1); [done|]. by destruct (_ <=? _).
Qed.

Lemma NetworkUpgradeActive_total params nHeight idx :
  0 ≤ nHeight → is_Some (NetworkUpgradeActive params nHeight idx).
Proof. intros. by rewrite NetworkUpgradeActive_spec. Qed.

Lemma NetworkUpgradeState_pending params nHeight idx :
  0 ≤ nHeight →
  NetworkUpgradeState nHeight params idx = Some UPGRADE_PENDING ↔
  nActivationHeight params idx ≠ -1 ∧ nHeight < nActivationHeight params idx.
Proof.
  intros H. unfold NetworkUpgradeState, NO_ACTIVATION_HEIGHT.
  destruct (Z.ltb_spec nHeight 0); [lia|].
  destruct (Z.eqb_spec (nActivationHeight params idx) (-1)), (Z.leb_spec (nActivationHeight params idx) nHeight); (intuition (congruence || lia)).
Qed.

Lemma CurrentEpoch_loop_spec params nHeight ids :
  0 ≤ nHeight → ∃ e, CurrentEpoch_loop params nHeight ids = Some e ∧
    ((∃ l1 l2, ids = l1 ++ e :: l2 ∧ NetworkUpgradeActive params nHeight e = Some true ∧
        Forall (λ i, NetworkUpgradeActive params nHeight i = Some false) l1) ∨
     (e = BASE_NETWORK ∧ Forall (λ i, NetworkUpgradeActive params nHeight i = Some false) ids)).
Proof.
  intros H. induction ids as [|i ids IH]; simpl; [exists BASE_NETWORK; auto|].
  destruct (NetworkUpgradeActive_total params nHeight i H) as [[] Hi]; rewrite Hi; simpl.
  - exists i. split; [done|]. left. exists [], ids. auto.
  - destruct IH as (e & -> & [(l1 & l2 & -> & He & Hl)|[-> Hl]]); exists e || exists BASE_NETWORK; (split; [done|]).
    + left. exists (i :: l1), l2. auto.
    + right. auto.
Qed.

Lemma NextEpoch_loop_spec params nHeight ids :
  match NextEpoch_loop params nHeight ids with
  | Some e => ∃ l1 l2, ids = l1 ++ e :: l2 ∧ NetworkUpgradeState nHeight params e = Some UPGRADE_PENDING ∧
      Forall (λ i, NetworkUpgradeState nHeight params i ≠ Some UPGRADE_PENDING) l1
  | None => Forall (λ i, NetworkUpgradeState nHeight params i ≠ Some UPGRADE_PENDING) ids
  end.
Proof.
  induction ids as [|i ids IH]; simpl; [constructor|]. case_decide as Hd.
  - exists [], ids. auto.
  - destruct (NextEpoch_loop params nHeight ids) as [e|].
    + destruct IH as (l1 & l2 & -> & He & Hl). exists (i :: l1), l2. auto.
    + by constructor.
Qed.

(** Upgrades at a height: an upgrade is active exactly from its activation
    height on (never when disabled), stays active on every later block,
    [CurrentEpoch] is the last active one in the order of the enumeration, and
    [NextEpoch] the first still pending, none when none is. *)
Theorem upgrade_epochs (params : Params) (nHeight : Z) (H : 0 ≤ nHeight) :
  (∀ idx later, nHeight ≤ later → NetworkUpgradeActive params nHeight idx = Some true →
     NetworkUpgradeActive params later idx = Some true) ∧
  (∃ e l1 l2, CurrentEpoch params nHeight = Some e ∧ upgrades = l1 ++ e :: l2 ∧
     (e = BASE_NETWORK ∨ NetworkUpgradeActive params nHeight e = Some true) ∧
     Forall (λ i, NetworkUpgradeActive params nHeight i = Some false) l2) ∧
  (∀ e, NextEpoch nHeight params = Some e → ∃ l1 l2, tail upgrades = l1 ++ e :: l2 ∧
     nHeight < nActivationHeight params e ∧
     Forall (λ i, nActivationHeight params i = -1 ∨ nActivationHeight params i ≤ nHeight) l1) ∧
  (NextEpoch nHeight params = None →
     Forall (λ i, nActivationHeight params i = -1 ∨ nActivationHeight params i ≤ nHeight) (tail upgrades)).
Proof.
  assert (∀ l, Forall (λ i, NetworkUpgradeState nHeight params i ≠ Some UPGRADE_PENDING) l →
    Forall (λ i, nActivationHeight params i = -1 ∨ nActivationHeight params i ≤ nHeight) l) as Hp.
  { intros l Hl. eapply Forall_impl; [exact Hl|]. intros i Hi. simpl in Hi. rewrite NetworkUpgradeState_pending in Hi by done. lia. }
  split; [|split; [|split]].
  - intros idx later Hl. rewrite !NetworkUpgradeActive_spec by lia. intros [= Ha].
    f_equal. lia.
  - destruct (CurrentEpoch_loop_spec params nHeight (rev (tail upgrades)) H) as (e & He & [(l1 & l2 & Hs & Ha & Hf)|[-> Hf]]).
    + exists e, (BASE_NETWORK :: rev l2), (rev l1). split; [done|]. split.
      { change upgrades with (BASE_NETWORK :: tail upgrades). rewrite <- (rev_involutive (tail upgrades)), Hs.
        rewrite rev_app_distr. simpl. by rewrite <- app_assoc. }
      split; [by right|]. by apply Forall_rev.
    + exists BASE_NETWORK, [], (tail upgrades). split; [done|]. split; [done|]. split; [by left|].
      apply Forall_rev in Hf. by rewrite rev_involutive in Hf.
  - intros e. unfold NextEpoch. destruct (Z.ltb_spec nHeight 0); [done|]. intros He.
    pose proof (NextEpoch_loop_spec params nHeight (tail upgrades)) as Hs. rewrite He in Hs.
    destruct Hs as (l1 & l2 & Hu & Hpe & Hl). exists l1, l2. split; [done|].
    apply NetworkUpgradeState_pending in Hpe; [|done]. split; [lia|auto].
  - unfold NextEpoch. destruct (Z.ltb_spec nHeight 0); [lia|]. intros He.
    pose proof (NextEpoch_loop_spec params nHeight (tail upgrades)) as Hs. rewrite He in Hs. auto.
Qed.

Lemma upgrade_epochs_witness :
  let p := MkParams [] [] [] 0 0 0 0 0 0 0 0 0
    (λ i, match i with BASE_NETWORK => 0 | UPGRADE_TESTDUMMY => -1 | UPGRADE_MODELD => 2200 | _ => 200 end) in
  (∀ later, 1000 ≤ later → NetworkUpgradeActive p later UPGRADE_ADAM = Some true) ∧
  NextEpoch 1000 p = Some UPGRADE_MODELD ∧ CurrentEpoch p 1000 = Some UPGRADE_POMBL.
Proof.
  split.
  - intros later Hl. apply (upgrade_epochs _ 1000 ltac:(lia)); [exact Hl|reflexivity].
  - split; reflexivity.
Defined.
