(* ===== verification/Pow.v ===== *)
(** * Proof of work: targets, their adjustment, and chain work

    [pow.cpp]: [GetNextWorkRequired] (Dark Gravity Wave over the last 24 blocks,
    and the per-block retarget of the stake phase), [CheckProofOfWork] and
    [GetBlockProof].  Blocks are read from the block index by their pointers. *)

From stdpp Require Import gmap fin_maps.
From S2P Require Import Prelude Ints ArithUint256 Uint256 BlockIndex Params.

Local Open Scope Z_scope.

(** What the code asks of the running node: the options and the selected network. *)
Record Env := MkEnv {
  minpowdifficulty : bool;
  IsRegTestNet : bool;
  GetConsensus : Params
}.

Abbreviation set_compact c := (SetCompact c).1.1.

(** ** Dark Gravity Wave: the loop over the last blocks *)

Record DgwState := MkDgw {
  nActualTimespan : Z;
  LastBlockTime : Z;
  CountBlocks : Z;
  PastDifficultyAverage : uint256;
  PastDifficultyAveragePrev : uint256
}.

Definition PastBlocksMin : Z := 24.
Definition PastBlocksMax : nat := 24.

(** One iteration, on the block [b] that [BlockReading] points to. *)
Definition dgw_step (b : CBlockIndex) (st : DgwState) : option DgwState :=
  let CountBlocks := CountBlocks st + 1 in
  avgs ← (if CountBlocks <=? PastBlocksMin then
      avg ← (if CountBlocks =? 1 then Some (set_compact (nBits b))
             else div_assign W256
                    (add_assign W256 (mul_assign_u32 W256 (PastDifficultyAveragePrev st) (u32 CountBlocks))
                       (set_compact (nBits b)))
                    (base_uint_u64 W256 (u64 (CountBlocks + 1))));
      Some (avg, avg)
    else Some (PastDifficultyAverage st, PastDifficultyAveragePrev st));
  let nActualTimespan :=
    if 0 <? LastBlockTime st then nActualTimespan st + (LastBlockTime st - GetBlockTime b)
    else nActualTimespan st in
  Some (MkDgw nActualTimespan (GetBlockTime b) CountBlocks (fst avgs) (snd avgs)).

(** The loop: [n] iterations are left before [i] passes [PastBlocksMax]. *)
Fixpoint dgw_loop (h : heap) (n : nat) (BlockReading : option ptr) (st : DgwState) : option DgwState :=
  match n with
  | O => Some st
  | S n =>
      match BlockReading ≫= λ p, h !! p with
      | None => Some st
      | Some b =>
          if 0 <? nHeight b then
            st ← dgw_step b st;
            match pprev b with
            | None => Some st
            | Some q => dgw_loop h n (Some q) st
            end
          else Some st
      end
  end.

Definition dgw_init : DgwState := MkDgw 0 0 0 (base_uint_zero W256) (base_uint_zero W256).

(** The end of [GetNextWorkRequired]: clamp the time span and retarget. *)
Definition dgw_finish (consensus : Params) (st : DgwState) : option Z :=
  let nTargetTimespan := CountBlocks st * nTargetSpacing consensus in
  let span := nActualTimespan st in
  let span := if span <? Z.quot nTargetTimespan 3 then Z.quot nTargetTimespan 3 else span in
  let span := if nTargetTimespan * 3 <? span then nTargetTimespan * 3 else span in
  let bnNew := mul_assign_u32 W256 (PastDifficultyAverage st) (u32 span) in
  bnNew ← div_assign W256 bnNew (base_uint_u64 W256 (u64 nTargetTimespan));
  let bnNew := if op_gt W256 bnNew (powLimit consensus) then powLimit consensus else bnNew in
  GetCompact bnNew false.

(** ** The stake phase: exponential moving toward the target spacing *)

Definition pos_retarget (h : heap) (consensus : Params) (fRegTest : bool) (b : CBlockIndex) : option Z :=
  v2 ← IsTimeProtocolV2 consensus (nHeight b + 1);
  let fTimeV2 := negb fRegTest && v2 in
  let bnTargetLimit := ProofOfStakeLimit consensus fTimeV2 in
  let nTargetTimespan := TargetTimespan consensus fTimeV2 in
  nActualSpacing ← (if negb (nHeight b =? 0) then
      prev ← (pprev b ≫= λ q, h !! q);
      Some (GetBlockTime b - GetBlockTime prev)
    else Some 0);
  let nActualSpacing := if nActualSpacing <? 0 then 1 else nActualSpacing in
  let nActualSpacing := if fTimeV2 && (nTargetSpacing consensus * 10 <? nActualSpacing)
                        then nTargetSpacing consensus * 10 else nActualSpacing in
  let bnNew := set_compact (nBits b) in
  bnNew ← (if fTimeV2 then
      was ← IsTimeProtocolV2 consensus (nHeight b);
      Some (if negb was then shl_assign W256 bnNew 4 else bnNew)
    else Some bnNew);
  let nInterval := Z.quot nTargetTimespan (nTargetSpacing consensus) in
  let bnNew := mul_assign_u32 W256 bnNew
    (u32 ((nInterval - 1) * nTargetSpacing consensus + nActualSpacing + nActualSpacing)) in
  bnNew ← div_assign W256 bnNew
    (base_uint_u64 W256 (u64 ((nInterval + 1) * nTargetSpacing consensus)));
  let bnNew := if op_le W256 bnNew (base_uint_u64 W256 0) || op_gt W256 bnNew bnTargetLimit
               then bnTargetLimit else bnNew in
  GetCompact bnNew false.

(** [None] is a null dereference, a failed assertion or an exception; [pblock] is
    the version of the header, if there is one. *)
Definition GetNextWorkRequired (h : heap) (env : Env) (pindexLast : option ptr) (pblock : option Z) :
    option Z :=
  let consensus := GetConsensus env in
  if minpowdifficulty env then GetCompact (powLimit consensus) false
  else
    let last := pindexLast ≫= λ p, h !! p in
    if IsRegTestNet env then b ← last; Some (nBits b)
    else
      match last with
      | None => GetCompact (powLimit consensus) false
      | Some b =>
          if (nHeight b =? 0) || (nHeight b <? PastBlocksMin) then GetCompact (powLimit consensus) false
          else
            let fIsAdam := match pblock with Some nVersion => 11 <=? nVersion | None => false end in
            fPos ← NetworkUpgradeActive consensus (nHeight b + 1) UPGRADE_POS;
            if fPos && negb fIsAdam then pos_retarget h consensus (IsRegTestNet env) b
            else
              st ← dgw_loop h PastBlocksMax pindexLast dgw_init;
              dgw_finish consensus st
      end.

Definition CheckProofOfWork (env : Env) (hash : uint256) (nBits : Z) : bool :=
  if IsRegTestNet env then true
  else
    let '(bnTarget, fNegative, fOverflow) := SetCompact nBits in
    if fNegative || IsNull W256 bnTarget || fOverflow ||
       op_gt W256 bnTarget (powLimit (GetConsensus env))
    then false
    else if op_gt W256 hash bnTarget then false
    else true.

(** The division cannot throw: the divisor is the target plus one. *)
Definition GetBlockProof (block : CBlockIndex) : option uint256 :=
  let '(bnTarget, fNegative, fOverflow) := SetCompact (nBits block) in
  if fNegative || fOverflow || IsNull W256 bnTarget then Some (base_uint_zero W256)
  else
    q ← div_assign W256 (op_not W256 bnTarget)
          (add_assign W256 bnTarget (base_uint_u64 W256 1));
    Some (add_assign W256 q (base_uint_u64 W256 1)).

(** ** Block proof *)

Lemma set_compact_wf c : word 32 c → uwf W256 (set_compact c).
Proof. intros H%SetCompact_spec. destruct (SetCompact c) as [[a n] o]. apply H. Qed.

Lemma bw_256 : bw W256 = 2 ^ 256.
Proof. done. Qed.

(** A compact word never denotes [2^256 - 1]: its mantissa has 23 bits. *)
Lemma compact_abs_max c : word 32 c → compact_abs c < 2 ^ 256 → compact_abs c + 1 < 2 ^ 256.
Proof.
  intros Hc Hlt. destruct (Z.eq_dec (compact_abs c) (2 ^ 256 - 1)) as [E|]; [|lia]. exfalso.
  assert (0 ≤ compact_mantissa c < 2 ^ 23) as Hm by (apply Z.mod_pos_bound; lia).
  revert E. unfold compact_abs, compact_value. destruct (Z.leb_spec (compact_exponent c) 3).
  - assert (compact_mantissa c / 256 ^ (3 - compact_exponent c) ≤ compact_mantissa c); [|lia].
    apply Z.div_le_upper_bound; [apply Z.pow_pos_nonneg; lia|].
    assert (0 < 256 ^ (3 - compact_exponent c)) by (apply Z.pow_pos_nonneg; lia). nia.
  - replace (compact_exponent c - 3) with (Z.succ (compact_exponent c - 4)) by lia.
    rewrite Z.pow_succ_r by lia. intros E. apply (f_equal (λ z, z mod 2)) in E.
    replace (compact_mantissa c * (256 * 256 ^ (compact_exponent c - 4)))
      with (compact_mantissa c * 128 * 256 ^ (compact_exponent c - 4) * 2) in E by lia.
    rewrite Z.mod_mul in E by lia. vm_compute in E. done.
Qed.

Lemma u64_one : uval (base_uint_u64 W256 1) = 1.
Proof. done. Qed.

(** The expected number of hashes of a target: what [GetBlockProof] returns. *)
Definition block_proof (c : Z) : Z :=
  let T := compact_abs c in
  if negb (T =? 0) && negb (Z.testbit c 23) && (T <? 2 ^ 256) then 2 ^ 256 / (T + 1) else 0.

Lemma GetBlockProof_spec block :
  word 32 (nBits block) →
  ∃ w, GetBlockProof block = Some w ∧ uwf W256 w ∧ uval w = block_proof (nBits block).
Proof.
  intros Hc. unfold GetBlockProof, block_proof. pose proof (SetCompact_spec _ Hc) as H.
  destruct (SetCompact (nBits block)) as [[t n] o]. destruct H as (Ht & Vt & -> & ->).
  rewrite (IsNull_spec W256) by done. set (T := compact_abs (nBits block)) in *.
  assert (0 ≤ T) as HT0 by (apply compact_value_nonneg, Z.mod_pos_bound; lia).
  destruct (Z.leb_spec (2 ^ 256) T) as [Hov|Hok].
  { rewrite orb_true_r. cbn [orb]. exists (base_uint_zero W256). split; [done|].
    split; [apply uwf_zero|]. rewrite uval_zero. destruct (Z.ltb_spec T (2 ^ 256)); [lia|].
    by rewrite andb_false_r. }
  rewrite Vt, orb_false_r. pose proof (compact_abs_max _ Hc Hok) as Hmax. fold T in Hmax.
  rewrite Z.mod_small by lia.
  destruct (Z.ltb_spec T (2 ^ 256)); [|lia]. rewrite andb_true_r.
  destruct (Z.eqb_spec T 0) as [E0|HT]; cbn [negb andb orb].
  { exists (base_uint_zero W256). split; [done|]. split; [apply uwf_zero|apply uval_zero]. }
  destruct (Z.testbit (nBits block) 23); cbn [negb andb orb].
  { exists (base_uint_zero W256). split; [done|]. split; [apply uwf_zero|apply uval_zero]. }
  rewrite Z.mod_small in Vt by lia.
  destruct (op_not_spec W256 t Ht) as [Hn Vn].
  destruct (add_assign_spec W256 t (base_uint_u64 W256 1) Ht (uwf_u64 W256 1 ltac:(lia))) as [Ha Va].
  rewrite u64_one, Vt, bw_256, Z.mod_small in Va by lia. rewrite Vt, bw_256 in Vn.
  pose proof (div_assign_spec W256 _ _ ltac:(lia) Hn Ha) as Hd. rewrite Va, Vn in Hd.
  destruct (Z.eqb_spec (T + 1) 0); [lia|]. destruct Hd as (q & -> & Hq & Vq).
  destruct (add_assign_spec W256 q (base_uint_u64 W256 1) Hq (uwf_u64 W256 1 ltac:(lia))) as [Hr Vr].
  exists (add_assign W256 q (base_uint_u64 W256 1)). split; [done|]. split; [done|].
  rewrite Vr, Vq, u64_one, bw_256.
  replace (2 ^ 256 - 1 - T) with (2 ^ 256 + (-1) * (T + 1)) by lia.
  rewrite Z.div_add by lia. replace (2 ^ 256 / (T + 1) + -1 + 1) with (2 ^ 256 / (T + 1)) by lia.
  apply Z.mod_small. split; [apply Z.div_pos; lia|]. apply Z.div_lt_upper_bound; nia.
Qed.

(** The work credited to a block is the expected number of hash trials,
    [floor (2^256 / (target + 1))], computed without ever representing
    [2^256]; the division never throws, and an encoding that is negative, zero
    or overflowing counts as no work. *)
Theorem GetBlockProof_expected_work (block : CBlockIndex) (Hc : word 32 (nBits block)) :
  ∃ w, GetBlockProof block = Some w ∧ uwf W256 w ∧
    let T := compact_abs (nBits block) in
    uval w = if decide (T ≠ 0 ∧ Z.testbit (nBits block) 23 = false ∧ T < 2 ^ 256)
             then 2 ^ 256 / (T + 1) else 0.
Proof.
  destruct (GetBlockProof_spec block Hc) as (w & -> & Hw & Vw). exists w. split; [done|]. split; [done|].
  cbn zeta. rewrite Vw. unfold block_proof. set (T := compact_abs (nBits block)).
  destruct (Z.eqb_spec T 0), (Z.testbit (nBits block) 23), (Z.ltb_spec T (2 ^ 256)); cbn [negb andb];
    case_decide; (done || lia || naive_solver).
Qed.

Lemma GetBlockProof_expected_work_witness :
  ∃ w, GetBlockProof (chain_entry (λ _, 0) (λ _, 0x1e0ffff0) 5) = Some w ∧
    uval w = 2 ^ 256 / (compact_abs 0x1e0ffff0 + 1).
Proof.
  destruct (GetBlockProof_expected_work (chain_entry (λ _, 0) (λ _, 0x1e0ffff0) 5)) as (w & Hw & _ & E).
  - split; simpl; lia.
  - exists w. split; [exact Hw|]. rewrite E. simpl nBits. rewrite decide_True; [reflexivity|].
    split; [vm_compute; discriminate|]. split; vm_compute; reflexivity.
Defined.

(** ** Checking a proof of work *)

(** Outside the regression-test network a block's hash passes exactly when
    its claimed target is positive, not negative, does not overflow, is not above
    the proof-of-work limit, and the hash read as a number does not exceed it. *)
Theorem CheckProofOfWork_iff (env : Env) (hash : uint256) (nBits : Z)
    (Hnet : IsRegTestNet env = false) (Hh : uwf W256 hash) (Hc : word 32 nBits)
    (Hl : uwf W256 (powLimit (GetConsensus env))) :
  CheckProofOfWork env hash nBits = true ↔
    Z.testbit nBits 23 = false ∧ 0 < compact_abs nBits ∧
    compact_abs nBits ≤ uval (powLimit (GetConsensus env)) ∧ uval hash ≤ compact_abs nBits.
Proof.
  unfold CheckProofOfWork. rewrite Hnet. pose proof (SetCompact_spec nBits Hc) as H.
  destruct (SetCompact nBits) as [[t n] o]. destruct H as (Ht & Vt & -> & ->).
  rewrite (IsNull_spec W256), !(op_gt_spec W256) by done.
  assert (0 ≤ compact_abs nBits) as H0 by (apply compact_value_nonneg, Z.mod_pos_bound; lia).
  pose proof (uval_wf _ _ Hl) as Hlim. rewrite bw_256 in Hlim.
  destruct (Z.leb_spec (2 ^ 256) (compact_abs nBits)) as [Hov|Hok].
  { rewrite orb_true_r. cbn [orb]. split; [done|lia]. }
  rewrite Vt, Z.mod_small, orb_false_r by lia.
  destruct (Z.eqb_spec (compact_abs nBits) 0), (Z.testbit nBits 23); cbn [negb andb orb];
    try (split; [done|]; intros (?&?&?&?); (done || lia)).
  destruct (Z.ltb_spec (uval (powLimit (GetConsensus env))) (compact_abs nBits)); [split; [done|lia]|].
  destruct (Z.ltb_spec (compact_abs nBits) (uval hash)); split; (done || lia).
Qed.

Lemma CheckProofOfWork_iff_witness :
  let env := MkEnv false false (MkParams (shr_assign W256 (op_not W256 (base_uint_zero W256)) 20)
    [] [] 0 0 30 0 0 0 0 0 0 (λ _, 0)) in
  CheckProofOfWork env (base_uint_u64 W256 12345) 0x1e0ffff0 = true.
Proof.
  intros env. apply (CheckProofOfWork_iff env).
  - reflexivity.
  - apply uwf_u64. lia.
  - split; lia.
  - apply shr_assign_spec; [lia|]. apply op_not_spec, uwf_zero.
  - split; [reflexivity|]. split; [vm_compute; reflexivity|]. split; vm_compute; discriminate.
Defined.

(** ** The next target *)

(** What the code relies on of the network's parameters; the three networks of
    [chainparams.cpp] satisfy it. *)
Record params_ok (p : Params) : Prop := {
  ok_pow : uwf W256 (powLimit p);
  ok_pos1 : uwf W256 (posLimitV1 p);
  ok_pos2 : uwf W256 (posLimitV2 p);
  ok_spacing : 0 < nTargetSpacing p < 2 ^ 16;
  ok_span1 : 0 ≤ nTargetTimespan p < 2 ^ 16;
  ok_span2 : 0 ≤ nTargetTimespanV2 p < 2 ^ 16
}.

(** The compact words and times of the entries fit their types. *)
Definition headers_ok (h : heap) : Prop :=
  map_Forall (λ _ b, word 32 (nBits b) ∧ word 32 (nTime b)) h.

#[export] Instance headers_ok_dec h : Decision (headers_ok h).
Proof. unfold headers_ok. apply _. Defined.

(** A compact word that encodes a target of at most [limit]. *)
Definition target_within (c limit : Z) : Prop :=
  word 32 c ∧ ∃ t, SetCompact c = (t, false, false) ∧ uwf W256 t ∧ uval t ≤ limit.

(** Encoding a value gives a word within any bound on the value. *)
Lemma GetCompact_within a limit :
  uwf W256 a → uval a ≤ limit →
  ∃ c, GetCompact a false = Some c ∧ target_within c limit ∧
    c = compact_mant (uval a) + compact_exp (uval a) * 2 ^ 24.
Proof.
  intros Ha Hle. rewrite GetCompact_spec by done. cbn [andb]. rewrite Z.add_0_r.
  pose proof (uval_wf _ _ Ha) as Hv. destruct (compact_word (uval a) false Hv) as (Hc & Em & Ee & Es).
  cbn zeta in *. rewrite Z.add_0_r in *. set (c := compact_mant _ + _) in *.
  exists c. split; [done|]. split; [|done]. split; [done|].
  pose proof (SetCompact_spec c Hc) as H. destruct (SetCompact c) as [[t n] o].
  destruct H as (Ht & Vt & -> & ->). rewrite Es, andb_false_r.
  unfold compact_abs in *. rewrite Em, Ee in *.
  destruct (compact_precision (uval a) ltac:(lia)) as [P _]. rewrite bw_256 in Hv.
  pose proof (compact_value_nonneg (compact_mant (uval a)) (compact_exp (uval a))
    (proj1 (compact_mant_range _ (proj1 Hv)))) as P0.
  rewrite Z.mod_small in Vt by lia. destruct (Z.leb_spec (2 ^ 256) (compact_value (compact_mant (uval a)) (compact_exp (uval a)))); [lia|].
  exists t. split; [done|]. split; [done|]. lia.
Qed.

Lemma div_u64_total a d :
  uwf W256 a → word 64 d → d ≠ 0 →
  ∃ q, div_assign W256 a (base_uint_u64 W256 d) = Some q ∧ uwf W256 q ∧ uval q = uval a / d.
Proof.
  intros Ha Hd Hd0. pose proof (div_assign_spec W256 a (base_uint_u64 W256 d) ltac:(lia) Ha (uwf_u64 W256 d ltac:(lia))) as H.
  rewrite uval_u64 in H by done. destruct (Z.eqb_spec d 0); done.
Qed.

#[local] Opaque SetCompact GetCompact div_assign mul_assign_u32 add_assign base_uint_u64 shl_assign op_gt op_le.

Definition dgw_wf (st : DgwState) : Prop :=
  uwf W256 (PastDifficultyAverage st) ∧ uwf W256 (PastDifficultyAveragePrev st) ∧ 0 ≤ CountBlocks st.

Lemma dgw_step_total b st :
  word 32 (nBits b) → dgw_wf st → CountBlocks st < 2 ^ 32 →
  ∃ st', dgw_step b st = Some st' ∧ dgw_wf st' ∧ CountBlocks st' = CountBlocks st + 1.
Proof.
  intros Hb (Ha & Hp & Hn) Hlt. unfold dgw_step. pose proof (set_compact_wf _ Hb) as Ht.
  destruct (Z.leb_spec (CountBlocks st + 1) PastBlocksMin) as [Hle|].
  2:{ eexists. split; [reflexivity|]. unfold dgw_wf. cbn. split; [|reflexivity]. auto with lia. }
  destruct (Z.eqb_spec (CountBlocks st + 1) 1).
  { eexists. split; [reflexivity|]. unfold dgw_wf. cbn. split; [|reflexivity]. auto with lia. }
  destruct (mul_assign_u32_spec W256 (PastDifficultyAveragePrev st) (u32 (CountBlocks st + 1)) Hp (u32_word _)) as [Hm _].
  destruct (add_assign_spec W256 _ _ Hm Ht) as [Hs _].
  destruct (div_u64_total _ (u64 (CountBlocks st + 1 + 1)) Hs (u64_word _)) as (q & -> & Hq & _).
  { rewrite u64_id; [lia|]. unfold word. lia. }
  eexists. split; [reflexivity|]. unfold dgw_wf. cbn. split; [|reflexivity]. auto with lia.
Qed.

Lemma dgw_loop_total h n p st :
  headers_ok h → dgw_wf st → CountBlocks st + Z.of_nat n < 2 ^ 32 →
  ∃ st', dgw_loop h n p st = Some st' ∧ dgw_wf st' ∧
    CountBlocks st ≤ CountBlocks st' ≤ CountBlocks st + Z.of_nat n.
Proof.
  intros Hh. revert p st. induction n as [|n IH]; intros p st Hst Hc.
  { exists st. split; [done|]. split; [done|]. lia. }
  cbn [dgw_loop]. destruct (p ≫= λ p, h !! p) as [b|] eqn:Hp.
  2:{ exists st. split; [done|]. split; [done|]. lia. }
  destruct (0 <? nHeight b); [|exists st; split; [done|]; split; [done|]; lia].
  assert (word 32 (nBits b)) as Hb.
  { destruct p as [p|]; [|done]. apply (Hh p b Hp). }
  destruct (dgw_step_total b st Hb Hst ltac:(lia)) as (st1 & -> & H1 & E1).
  cbn [mbind option_bind]. destruct (pprev b) as [q|].
  - destruct (IH (Some q) st1 H1 ltac:(lia)) as (st2 & -> & H2 & E2). exists st2. split; [done|].
    split; [done|]. lia.
  - exists st1. split; [done|]. split; [done|]. lia.
Qed.

Lemma dgw_init_wf : dgw_wf dgw_init.
Proof. split; [apply uwf_zero|]. split; [apply uwf_zero|]. done. Qed.

(** A loop entered on a block above the root counts it. *)
Lemma dgw_loop_counts h n p b st :
  headers_ok h → h !! p = Some b → 0 < nHeight b → Z.of_nat n < 2 ^ 31 →
  dgw_loop h (S n) (Some p) dgw_init = Some st → 0 < CountBlocks st.
Proof.
  intros Hh Hb H0 Hlt. cbn [dgw_loop mbind option_bind]. rewrite Hb.
  destruct (Z.ltb_spec 0 (nHeight b)); [|lia].
  destruct (dgw_step_total b dgw_init (proj1 (Hh p b Hb)) dgw_init_wf ltac:(done)) as (st1 & -> & Hw & N1).
  change (CountBlocks dgw_init) with 0 in N1. cbn [mbind option_bind].
  destruct (pprev b) as [r|]; [|intros [= <-]; lia].
  destruct (dgw_loop_total h n (Some r) st1 Hh Hw) as (st2 & -> & _ & N2); [lia|]. intros [= <-]. lia.
Qed.

Lemma dgw_finish_total p st :
  params_ok p → dgw_wf st → 0 < CountBlocks st ≤ 24 →
  ∃ c, dgw_finish p st = Some c ∧ target_within c (uval (powLimit p)).
Proof.
  intros Hok (Ha & _) Hn. pose proof (ok_spacing p Hok). unfold dgw_finish.
  match goal with |- context [mul_assign_u32 W256 ?x ?y] =>
    destruct (mul_assign_u32_spec W256 x y Ha (u32_word _)) as [Hm _] end.
  edestruct (div_u64_total _ (u64 (CountBlocks st * nTargetSpacing p)) Hm (u64_word _)) as (q & -> & Hq & _).
  { rewrite u64_id by (unfold word; nia). nia. }
  cbn [mbind option_bind]. rewrite (op_gt_spec W256) by (done || apply Hok).
  destruct (Z.ltb_spec (uval (powLimit p)) (uval q)).
  - destruct (GetCompact_within (powLimit p) (uval (powLimit p))) as (c & -> & Hc & _); [apply Hok|lia|eauto].
  - destruct (GetCompact_within q (uval (powLimit p))) as (c & -> & Hc & _); [done|lia|eauto].
Qed.

Lemma ProofOfStakeLimit_wf p v2 : params_ok p → uwf W256 (ProofOfStakeLimit p v2).
Proof. intros []. by destruct v2. Qed.

Lemma IsTimeProtocolV2_total p n : 0 ≤ n → ∃ v2, IsTimeProtocolV2 p n = Some v2.
Proof. intros Hn. by apply NetworkUpgradeActive_total. Qed.

Lemma pos_retarget_total h p fReg b :
  params_ok p → tree_wf h → entry_wf h b → 0 ≤ nHeight b → word 32 (nBits b) →
  ∃ c v2, pos_retarget h p fReg b = Some c ∧ target_within c (uval (ProofOfStakeLimit p v2)).
Proof.
  intros Hok Hwf He H0 Hb. unfold pos_retarget.
  destruct (IsTimeProtocolV2_total p (nHeight b + 1) ltac:(lia)) as [v2 ->]. cbn [mbind option_bind].
  set (fV2 := negb fReg && v2). pose proof (ProofOfStakeLimit_wf p fV2 Hok) as Hlim.
  assert (∃ s, (if negb (nHeight b =? 0) then
      prev ← (pprev b ≫= λ q, h !! q); Some (GetBlockTime b - GetBlockTime prev) else Some 0) = Some s) as [s ->].
  { destruct (Z.eqb_spec (nHeight b) 0); cbn [negb]; [eauto|]. revert He. unfold entry_wf.
    destruct (pprev b) as [q|]; [|lia]. intros (c & Hc & _). cbn [mbind option_bind]. rewrite Hc. eauto. }
  cbn [mbind option_bind]. pose proof (set_compact_wf _ Hb) as Ht.
  assert (∃ t, uwf W256 t ∧ (if fV2 then was ← IsTimeProtocolV2 p (nHeight b);
      Some (if negb was then shl_assign W256 (set_compact (nBits b)) 4 else set_compact (nBits b))
      else Some (set_compact (nBits b))) = Some t) as (t & Htw & ->).
  { destruct fV2; [|eauto]. destruct (IsTimeProtocolV2_total p (nHeight b) H0) as [[] ->]; cbn [mbind option_bind negb]; [eauto|].
    eexists. split; [|done]. apply shl_assign_spec; [lia|done]. }
  cbn [mbind option_bind].
  match goal with |- context [mul_assign_u32 W256 ?x ?y] =>
    destruct (mul_assign_u32_spec W256 x y Htw (u32_word _)) as [Hm _] end.
  edestruct (div_u64_total _ (u64 ((Z.quot (TargetTimespan p fV2) (nTargetSpacing p) + 1) * nTargetSpacing p)) Hm (u64_word _)) as (q & -> & Hq & _).
  { pose proof (ok_spacing p Hok). assert (0 ≤ TargetTimespan p fV2 < 2 ^ 16) as Hs by (destruct Hok, fV2; done).
    assert (0 ≤ Z.quot (TargetTimespan p fV2) (nTargetSpacing p) ≤ TargetTimespan p fV2) as Hq.
    { rewrite Z.quot_div_nonneg by lia. split; [apply Z.div_pos; lia|]. apply Z.div_le_upper_bound; nia. }
    rewrite u64_id by (unfold word; nia). nia. }
  cbn [mbind option_bind]. rewrite (op_gt_spec W256) by done.
  destruct (_ || _) eqn:Hcl.
  - destruct (GetCompact_within (ProofOfStakeLimit p fV2) (uval (ProofOfStakeLimit p fV2))) as (c & -> & Hc & _); [done|lia|eauto].
  - apply orb_false_iff in Hcl as [_ Hle%Z.ltb_ge].
    destruct (GetCompact_within q (uval (ProofOfStakeLimit p fV2))) as (c & -> & Hc & _); [done|lia|eauto].
Qed.

(** Outside the regression-test network the next required target is always
    defined (no null dereference, no division by zero, no failed assertion) and
    its compact word decodes, without sign or overflow, to a target no easier
    than the limit of the phase it was computed in: the proof-of-work limit, or
    one of the two proof-of-stake limits. *)
Theorem GetNextWorkRequired_within_limits (h : heap) (env : Env) (pindexLast : option ptr)
    (pblock : option Z) (Hok : params_ok (GetConsensus env)) (Hwf : tree_wf h) (Hh : headers_ok h)
    (Hnet : IsRegTestNet env = false) :
  ∃ c limit, GetNextWorkRequired h env pindexLast pblock = Some c ∧
    (limit = powLimit (GetConsensus env) ∨ limit = posLimitV1 (GetConsensus env) ∨
     limit = posLimitV2 (GetConsensus env)) ∧
    target_within c (uval limit).
Proof.
  unfold GetNextWorkRequired. rewrite Hnet. set (p := GetConsensus env) in *.
  destruct (GetCompact_within (powLimit p) (uval (powLimit p)) (ok_pow p Hok) ltac:(lia)) as (c0 & E0 & H0 & _).
  destruct (minpowdifficulty env); [exists c0, (powLimit p); auto|].
  destruct (pindexLast ≫= λ p, h !! p) as [b|] eqn:Hb; [|exists c0, (powLimit p); auto].
  destruct pindexLast as [q|]; [|done]. cbn [mbind option_bind] in Hb.
  destruct (_ || _) eqn:Hlow; [exists c0, (powLimit p); auto|].
  apply orb_false_iff in Hlow as [?%Z.eqb_neq ?%Z.ltb_ge]. unfold PastBlocksMin in *.
  destruct (NetworkUpgradeActive_total p (nHeight b + 1) UPGRADE_POS ltac:(lia)) as [fPos ->].
  cbn [mbind option_bind]. destruct (Hh q b Hb) as [Hbits _]. destruct (Hwf q b Hb) as [Hpos He].
  destruct (fPos && _).
  - destruct (pos_retarget_total h p false b) as (c & v2 & -> & Hc); [done..|].
    exists c, (ProofOfStakeLimit p v2). split; [done|]. split; [destruct v2; auto|done].
  - destruct (dgw_loop_total h PastBlocksMax (Some q) dgw_init Hh dgw_init_wf ltac:(done)) as (st & Est & Hst & Hn).
    rewrite Est. cbn [mbind option_bind].
    destruct (dgw_finish_total p st Hok Hst) as (c & -> & Hc); [|exists c, (powLimit p); auto].
    split; [|exact (proj2 Hn)]. eapply (dgw_loop_counts h 23); [exact Hh|exact Hb|lia|done|exact Est].
Qed.

(** The parameters of the main network ([chainparams.cpp]). *)
Definition main_params : Params :=
  MkParams (shr_assign W256 (op_not W256 (base_uint_zero W256)) 20)
    (shr_assign W256 (op_not W256 (base_uint_zero W256)) 24)
    (shr_assign W256 (op_not W256 (base_uint_zero W256)) 20)
    (40 * 60) (30 * 60) 30 7200 180 15 (210000000 * 100000000) (60 * 60) 100
    (λ idx, match idx with
            | BASE_NETWORK => 0
            | UPGRADE_TESTDUMMY => -1
            | UPGRADE_STAKE_MIN_DEPTH_V2 => 5001
            | UPGRADE_ADAM_V2 => 705
            | UPGRADE_POMBL => 2000
            | UPGRADE_MODELD => 2200
            | _ => 200
            end).

Lemma main_params_ok : params_ok main_params.
Proof.
  split; try (simpl; lia); (apply shr_assign_spec; [lia|apply op_not_spec, uwf_zero]).
Qed.

Lemma GetNextWorkRequired_within_limits_witness :
  let h := chain_heap (λ i, 1000 + 30 * Z.of_nat i) (λ _, 0x1e0ffff0) 30 in
  ∃ c limit, GetNextWorkRequired h (MkEnv false false main_params) (Some (Pos.of_succ_nat 30)) None = Some c ∧
    target_within c (uval limit).
Proof.
  intros h. destruct (GetNextWorkRequired_within_limits h (MkEnv false false main_params)
    (Some (Pos.of_succ_nat 30)) None main_params_ok (chain_heap_wf _ _ 30)) as (c & limit & Hc & _ & Hl).
  - apply (bool_decide_unpack _). vm_compute. exact I.
  - reflexivity.
  - exists c, limit. split; [exact Hc|exact Hl].
Defined.

(** ** What Dark Gravity Wave computes *)

(** The block and its [n - 1] nearest ancestors. *)
Fixpoint parents (h : heap) (n : nat) (p : option ptr) : list CBlockIndex :=
  match n with
  | O => []
  | S n => match p ≫= λ p, h !! p with
           | None => []
           | Some b => b :: parents h n (pprev b)
           end
  end.

(** The running weighted average: the [k]-th target enters with weight
    [1 / (k + 1)], rounding down each time. *)
Fixpoint dgw_average_from (k avg : Z) (ts : list Z) : Z :=
  match ts with
  | [] => avg
  | t :: ts => dgw_average_from (k + 1) ((avg * (k + 1) + t) / (k + 2)) ts
  end.

Definition dgw_average (ts : list Z) : Z :=
  match ts with
  | [] => 0
  | t :: ts => dgw_average_from 1 t ts
  end.

(** The average stays between the smallest and the largest target. *)
Lemma dgw_average_from_range lo hi k avg ts :
  0 ≤ k → lo ≤ avg ≤ hi → Forall (λ t, lo ≤ t ≤ hi) ts → lo ≤ dgw_average_from k avg ts ≤ hi.
Proof.
  intros Hk Ha Hts. revert k avg Hk Ha. induction Hts as [|t ts Ht _ IH]; intros k avg Hk Ha; [done|].
  cbn [dgw_average_from]. apply IH; [lia|]. split.
  - apply Z.div_le_lower_bound; nia.
  - apply Z.div_le_upper_bound; nia.
Qed.

Lemma set_compact_exact c : word 32 c → compact_abs c < 2 ^ 256 → uval (set_compact c) = compact_abs c.
Proof.
  intros Hc Hlt. pose proof (SetCompact_spec c Hc) as H. destruct (SetCompact c) as [[a n] o].
  destruct H as (_ & V & _). simpl. rewrite V. apply Z.mod_small. split; [|done].
  apply compact_value_nonneg, Z.mod_pos_bound. lia.
Qed.

(** A header the average accepts without overflow: a target up to [L], and a
    positive time. *)
Definition header_fit (L : Z) (b : CBlockIndex) : Prop :=
  word 32 (nBits b) ∧ compact_abs (nBits b) ≤ L ∧ 0 < nTime b.

#[export] Instance header_fit_dec L b : Decision (header_fit L b).
Proof. unfold header_fit. apply _. Defined.

Definition block_target (b : CBlockIndex) : Z := compact_abs (nBits b).

Lemma block_target_nonneg b : 0 ≤ block_target b.
Proof. apply compact_value_nonneg, Z.mod_pos_bound. lia. Qed.

(** A state that has read [k] blocks, the first at time [t0]. *)
Definition dgw_rel (t0 k avg : Z) (st : DgwState) : Prop :=
  dgw_wf st ∧ CountBlocks st = k ∧ uval (PastDifficultyAverage st) = avg ∧
  uval (PastDifficultyAveragePrev st) = avg ∧ 0 < LastBlockTime st ∧
  nActualTimespan st = t0 - LastBlockTime st.

Lemma dgw_step_first b L :
  header_fit L b → L * 72 < 2 ^ 256 →
  ∃ st, dgw_step b dgw_init = Some st ∧ LastBlockTime st = nTime b ∧
    dgw_rel (nTime b) 1 (block_target b) st.
Proof.
  intros (Hb & Ht & H0) HL. eexists. split; [reflexivity|]. split; [reflexivity|].
  pose proof (set_compact_wf _ Hb). pose proof (block_target_nonneg b).
  assert (uval (set_compact (nBits b)) = compact_abs (nBits b)) as E by (apply set_compact_exact; [done|unfold block_target in *; lia]).
  unfold dgw_rel, dgw_wf. cbn. unfold GetBlockTime. repeat split; try (done || lia || apply H).
Qed.

Lemma dgw_step_next b L t0 k avg st :
  header_fit L b → L * 72 < 2 ^ 256 → 0 ≤ avg ≤ L → 1 ≤ k < 24 → dgw_rel t0 k avg st →
  ∃ st', dgw_step b st = Some st' ∧ LastBlockTime st' = nTime b ∧
    dgw_rel t0 (k + 1) ((avg * (k + 1) + block_target b) / (k + 2)) st'.
Proof.
  intros (Hb & Ht & H0) HL Havg Hk ((Ha & Hp & _) & Hn & Ea & Ep & Hl & Hs). unfold dgw_step.
  rewrite Hn. destruct (Z.leb_spec (k + 1) PastBlocksMin) as [_|Hgt]; [|unfold PastBlocksMin in Hgt; lia].
  destruct (Z.eqb_spec (k + 1) 1); [lia|].
  pose proof (set_compact_wf _ Hb) as Hc. pose proof (block_target_nonneg b).
  assert (uval (set_compact (nBits b)) = block_target b) as E by (apply set_compact_exact; [done|unfold block_target in *; lia]).
  fold (block_target b) in Ht.
  rewrite (u32_id (k + 1)), (u64_id (k + 1 + 1)) by (unfold word; lia).
  destruct (mul_assign_u32_spec W256 (PastDifficultyAveragePrev st) (k + 1) Hp ltac:(unfold word; lia)) as [Hm Vm].
  rewrite Ep, bw_256, Z.mod_small in Vm by nia.
  destruct (add_assign_spec W256 _ _ Hm Hc) as [Hsum Vs]. rewrite Vm, E, bw_256, Z.mod_small in Vs by nia.
  destruct (div_u64_total _ (k + 1 + 1) Hsum ltac:(unfold word; lia) ltac:(lia)) as (q & Eq & Hq & Vq).
  rewrite Eq. rewrite Vs in Vq.
  eexists. split; [reflexivity|]. split; [reflexivity|].
  unfold dgw_rel, dgw_wf. cbn. rewrite Vq. unfold GetBlockTime.
  replace (k + 1 + 1) with (k + 2) by lia.
  destruct (Z.ltb_spec 0 (LastBlockTime st)); [|lia]. rewrite Hs. split_and!; try (done || lia).
Qed.

Lemma dgw_loop_spec h L n p t0 k avg st :
  let bl := parents h n p in
  length bl = n → Forall (λ b, 0 < nHeight b ∧ header_fit L b) bl → L * 72 < 2 ^ 256 →
  0 ≤ avg ≤ L → 1 ≤ k → k + Z.of_nat n ≤ 24 → dgw_rel t0 k avg st →
  ∃ st', dgw_loop h n p st = Some st' ∧
    dgw_rel t0 (k + Z.of_nat n) (dgw_average_from k avg (map block_target bl)) st' ∧
    LastBlockTime st' = List.last (map nTime bl) (LastBlockTime st).
Proof.
  cbn zeta. revert p k avg st. induction n as [|n IH]; intros p k avg st Hlen Hbl HL Ha Hk Hn Hst.
  { exists st. split; [done|]. split; [|done]. by rewrite Z.add_0_r. }
  cbn [parents dgw_loop] in *. destruct (p ≫= λ p, h !! p) as [b|]; [|done].
  apply Forall_cons in Hbl as [[Hb0 Hfit] Hbl]. injection Hlen as Hlen.
  destruct (Z.ltb_spec 0 (nHeight b)); [|lia].
  destruct (dgw_step_next b L t0 k avg st) as (st1 & -> & El & H1); [done..|lia|done|].
  cbn [mbind option_bind map dgw_average_from].
  assert (0 ≤ (avg * (k + 1) + block_target b) / (k + 2) ≤ L) as Ha'.
  { pose proof (block_target_nonneg b). destruct Hfit as (_ & Hle & _). fold (block_target b) in Hle.
    split; [apply Z.div_pos; nia|]. apply Z.div_le_upper_bound; nia. }
  destruct (IH (pprev b) (k + 1) _ st1 Hlen Hbl HL Ha' ltac:(lia) ltac:(lia) H1) as (st2 & E2 & H2 & L2).
  exists st2. split; [|split].
  - destruct (pprev b) as [q|]; [exact E2|]. destruct n as [|n]; [|done]. exact E2.
  - by replace (k + Z.of_nat (S n)) with (k + 1 + Z.of_nat n) by lia.
  - rewrite L2, El. destruct (map nTime (parents h n (pprev b))) as [|x l] eqn:E; [done|].
    apply (last_default l x).
Qed.

Lemma parents_length h n p b :
  tree_wf h → h !! p = Some b → Z.of_nat n ≤ nHeight b + 1 → length (parents h n (Some p)) = n.
Proof.
  intros Hwf. revert p b. induction n as [|n IH]; intros p b Hb Hn; [done|].
  cbn [parents mbind option_bind]. rewrite Hb. cbn [length]. f_equal.
  destruct (Hwf p b Hb) as [_ He]. unfold entry_wf in He. destruct (pprev b) as [q|].
  - destruct He as (c & Hc & Hh & _). apply (IH q c); [done|lia].
  - destruct n; [done|lia].
Qed.

Lemma parents_height h n p b :
  tree_wf h → h !! p = Some b → Z.of_nat n ≤ nHeight b →
  Forall (λ c, 0 < nHeight c) (parents h n (Some p)).
Proof.
  intros Hwf. revert p b. induction n as [|n IH]; intros p b Hb Hn; [constructor|].
  cbn [parents mbind option_bind]. rewrite Hb. constructor; [lia|].
  destruct (Hwf p b Hb) as [_ He]. unfold entry_wf in He. destruct (pprev b) as [q|]; [|by destruct n].
  destruct He as (c & Hc & Hh & _). apply (IH q c); [done|lia].
Qed.

Definition clamp (lo hi x : Z) : Z := Z.min hi (Z.max lo x).

(** The compact word of a number. *)
Definition compact_of (v : Z) : Z := compact_mant v + compact_exp v * 2 ^ 24.

(** The end of the computation, from the 24 blocks read. *)
Lemma dgw_finish_spec p t0 avg st :
  params_ok p → uval (powLimit p) * (72 * nTargetSpacing p) < 2 ^ 256 →
  0 ≤ avg ≤ uval (powLimit p) → dgw_rel t0 24 avg st →
  let T := 24 * nTargetSpacing p in
  dgw_finish p st = Some (compact_of (Z.min (uval (powLimit p))
    (avg * clamp (T / 3) (T * 3) (t0 - LastBlockTime st) / T))).
Proof.
  intros Hok HL Havg ((Ha & _) & Hn & Ea & _ & _ & Hs). cbn zeta. unfold dgw_finish.
  pose proof (ok_spacing p Hok) as Hsp. rewrite Hn, Hs. set (T := 24 * nTargetSpacing p).
  set (span0 := t0 - LastBlockTime st). rewrite Z.quot_div_nonneg by lia.
  set (s1 := if span0 <? T / 3 then T / 3 else span0).
  set (s2 := if T * 3 <? s1 then T * 3 else s1).
  assert (s2 = clamp (T / 3) (T * 3) span0) as ->.
  { subst s1 s2. unfold clamp. destruct (Z.ltb_spec span0 (T / 3)).
    - rewrite Z.max_l by lia. destruct (Z.ltb_spec (T * 3) (T / 3)); lia.
    - rewrite Z.max_r by lia. destruct (Z.ltb_spec (T * 3) span0); lia. }
  assert (0 ≤ T / 3 ≤ T) as HT3.
  { split; [apply Z.div_pos; lia|]. apply Z.div_le_upper_bound; lia. }
  assert (0 ≤ clamp (T / 3) (T * 3) span0 ≤ 72 * nTargetSpacing p) as Hcl by (unfold clamp; lia).
  set (span := clamp (T / 3) (T * 3) span0) in *. rewrite (u32_id span) by (unfold word; lia).
  destruct (mul_assign_u32_spec W256 (PastDifficultyAverage st) span Ha ltac:(unfold word; lia)) as [Hm Vm].
  rewrite Ea, bw_256, Z.mod_small in Vm by nia. rewrite (u64_id T) by (unfold word; lia).
  destruct (div_u64_total _ T Hm ltac:(unfold word; lia) ltac:(lia)) as (q & -> & Hq & Vq).
  cbn [mbind option_bind]. rewrite (op_gt_spec W256) by (done || apply Hok). rewrite Vm in Vq.
  unfold compact_of. destruct (Z.ltb_spec (uval (powLimit p)) (uval q)).
  - destruct (GetCompact_within (powLimit p) (uval (powLimit p)) (ok_pow p Hok) ltac:(lia)) as (c & -> & _ & ->).
    by rewrite Z.min_l by lia.
  - destruct (GetCompact_within q (uval q) Hq ltac:(lia)) as (c & -> & _ & ->).
    by rewrite Z.min_r, <- Vq by lia.
Qed.

(** The loop from its start, over the block [p] points to and [n] ancestors. *)
Lemma dgw_run h L n p b :
  let bl := parents h (S n) (Some p) in
  h !! p = Some b → length bl = S n → Forall (λ b, 0 < nHeight b ∧ header_fit L b) bl →
  L * 72 < 2 ^ 256 → (n < 24)%nat →
  ∃ st, dgw_loop h (S n) (Some p) dgw_init = Some st ∧
    dgw_rel (nTime b) (Z.of_nat (S n)) (dgw_average (map block_target bl)) st ∧
    LastBlockTime st = List.last (map nTime bl) 0.
Proof.
  intros bl Hb Hlen Hbl HL Hn. subst bl. cbn [parents dgw_loop mbind option_bind] in *. rewrite Hb in *.
  apply Forall_cons in Hbl as [[Hpos Hfit] Hbl]. cbn [length] in Hlen. apply Nat.succ_inj in Hlen.
  destruct (Z.ltb_spec 0 (nHeight b)); [|lia].
  destruct (dgw_step_first b L Hfit HL) as (st1 & -> & El & H1). cbn [mbind option_bind].
  pose proof (block_target_nonneg b) as Hb0. pose proof (proj1 (proj2 Hfit)) as HbL. fold (block_target b) in HbL.
  destruct (dgw_loop_spec h L n (pprev b) (nTime b) 1 (block_target b) st1) as (st2 & E2 & H2 & L2);
    [done|done|done|lia|lia|lia|done|].
  exists st2. split; [|split].
  - destruct (pprev b) as [q|]; [done|]. destruct n; [exact E2|done].
  - cbn [map dgw_average]. by replace (Z.of_nat (S n)) with (1 + Z.of_nat n) by lia.
  - rewrite L2, El. cbn [map]. destruct (map nTime (parents h n (pprev b))) as [|x l]; [done|].
    apply (last_default l x).
Qed.

(** In the work phase the target comes from the loop. *)
Lemma GetNextWorkRequired_work_phase h env p b pblock :
  minpowdifficulty env = false → IsRegTestNet env = false → h !! p = Some b → 24 ≤ nHeight b →
  NetworkUpgradeActive (GetConsensus env) (nHeight b + 1) UPGRADE_POS = Some false ∨
    (∃ v, pblock = Some v ∧ 11 ≤ v) →
  GetNextWorkRequired h env (Some p) pblock =
    dgw_loop h 24 (Some p) dgw_init ≫= dgw_finish (GetConsensus env).
Proof.
  intros Hmin Hnet Hb Hh Hphase. unfold GetNextWorkRequired. rewrite Hmin, Hnet.
  cbn [mbind option_bind]. rewrite Hb. destruct (Z.eqb_spec (nHeight b) 0); [lia|].
  destruct (Z.ltb_spec (nHeight b) PastBlocksMin) as [Hlt|]; [unfold PastBlocksMin in Hlt; lia|]. cbn [orb].
  destruct Hphase as [->|(v & -> & Hv)]; [done|].
  destruct (NetworkUpgradeActive_total (GetConsensus env) (nHeight b + 1) UPGRADE_POS ltac:(lia)) as [f ->].
  cbn [mbind option_bind]. destruct (Z.leb_spec 11 v); [|lia]. by rewrite andb_false_r.
Qed.

(** C12: Dark Gravity Wave.  On a chain of more than 24 blocks whose last 24
    targets respect the limit, in the work phase (or for an ADAM block, version
    11 on), the next target is the running average of those targets, scaled by
    the time they took against the planned time, that ratio clamped to
    [[1/3, 3]], and capped by the limit; the average lies between the smallest
    and the largest of the targets, and no intermediate product overflows. *)
Theorem dark_gravity_wave (h : heap) (env : Env) (p : ptr) (b : CBlockIndex) (pblock : option Z)
    (lo hi : Z) (Hok : params_ok (GetConsensus env)) (Hwf : tree_wf h)
    (Hmin : minpowdifficulty env = false) (Hnet : IsRegTestNet env = false)
    (Hb : h !! p = Some b) (Hheight : 24 ≤ nHeight b)
    (Hphase : NetworkUpgradeActive (GetConsensus env) (nHeight b + 1) UPGRADE_POS = Some false ∨
              ∃ v, pblock = Some v ∧ 11 ≤ v)
    (HL : uval (powLimit (GetConsensus env)) * (72 * nTargetSpacing (GetConsensus env)) < 2 ^ 256)
    (Hbl : Forall (header_fit (uval (powLimit (GetConsensus env)))) (parents h 24 (Some p)))
    (Hrange : Forall (λ b, lo ≤ block_target b ≤ hi) (parents h 24 (Some p))) :
  let bl := parents h 24 (Some p) in
  let avg := dgw_average (map block_target bl) in
  let T := 24 * nTargetSpacing (GetConsensus env) in
  let span := nTime b - List.last (map nTime bl) 0 in
  length bl = 24%nat ∧ lo ≤ avg ≤ hi ∧
  GetNextWorkRequired h env (Some p) pblock =
    Some (compact_of (Z.min (uval (powLimit (GetConsensus env)))
      (avg * clamp (T / 3) (T * 3) span / T))).
Proof.
  cbn zeta. rewrite (GetNextWorkRequired_work_phase h env p b) by done.
  set (P := GetConsensus env) in *. pose proof (ok_spacing P Hok) as Hsp.
  pose proof (parents_length h 24 p b Hwf Hb ltac:(lia)) as Hlen.
  pose proof (parents_height h 24 p b Hwf Hb ltac:(lia)) as Hpos.
  assert (0 ≤ uval (powLimit P)) as HL0 by apply (uval_wf W256), Hok.
  destruct (dgw_run h (uval (powLimit P)) 23 p b Hb Hlen) as (st & -> & Hrel & <-);
    [by apply Forall_and|nia|lia|].
  split; [done|].
  assert (∀ lo hi, Forall (λ b, lo ≤ block_target b ≤ hi) (parents h 24 (Some p)) →
    lo ≤ dgw_average (map block_target (parents h 24 (Some p))) ≤ hi) as Havg.
  { intros l u. destruct (parents h 24 (Some p)) as [|c cs]; [done|]. intros [Hc Hcs]%Forall_cons.
    apply dgw_average_from_range; [lia|done|]. by apply Forall_map. }
  split; [by apply Havg|]. apply dgw_finish_spec; [done|done| |done].
  apply Havg. eapply Forall_impl; [exact Hbl|]. intros c (_ & Hle & _).
  split; [apply block_target_nonneg|exact Hle].
Qed.

Lemma dark_gravity_wave_witness :
  let h := chain_heap (λ i, 1000 + 45 * Z.of_nat i) (λ _, 0x1d0ffff0) 30 in
  GetNextWorkRequired h (MkEnv false false main_params) (Some (Pos.of_succ_nat 30)) None =
    Some (compact_of (0x0ffff0 * 256 ^ 26 * 1035 / 720)).
Proof.
  intros h.
  destruct (dark_gravity_wave h (MkEnv false false main_params) (Pos.of_succ_nat 30) _ None
    (0x0ffff0 * 256 ^ 26) (0x0ffff0 * 256 ^ 26) main_params_ok (chain_heap_wf _ _ 30) eq_refl eq_refl
    (chain_heap_lookup _ _ 30 30)) as (_ & _ & ->).
  - vm_compute. discriminate.
  - left. reflexivity.
  - vm_compute. reflexivity.
  - apply (bool_decide_unpack _). vm_compute. exact I.
  - apply (bool_decide_unpack _). vm_compute. exact I.
  - vm_compute. reflexivity.
Defined.
