(* ===== verification/Chain.v ===== *)
(** * The active chain: [CChain]

    [chain.h] and [chain.cpp]: the vector [vChain] of pointers into the block
    index, indexed by height.  The abstract value of a chain is the path from the
    root to its tip; [SetTip] rewrites only the part of the vector that differs,
    [FindFork] finds the last common block, [GetLocator] samples a branch. *)

From stdpp Require Import gmap fin_maps.
From S2P Require Import Prelude Ints BlockIndex.

Local Open Scope Z_scope.

Record CChain := MkChain {
  vChain : list (option ptr);
  atomicTip : option ptr
}.

(** ** Operations *)

Definition Genesis (c : CChain) : option ptr :=
  match vChain c with
  | [] => None
  | p :: _ => p
  end.

Definition Tip (c : CChain) : option ptr :=
  match vChain c with
  | [] => None
  | _ => default None (vChain c !! (length (vChain c) - 1)%nat)
  end.

(** [operator[]]: null out of range. *)
Definition at_height (c : CChain) (nHeight : Z) : option ptr :=
  if (nHeight <? 0) || (Z.of_nat (length (vChain c)) <=? nHeight) then None
  else default None (vChain c !! Z.to_nat nHeight).

Definition Contains (h : heap) (c : CChain) (p : ptr) : bool :=
  match h !! p with
  | None => false
  | Some b => bool_decide (at_height c (nHeight b) = Some p)
  end.

Definition Next (h : heap) (c : CChain) (p : ptr) : option ptr :=
  match h !! p with
  | None => None
  | Some b => if Contains h c p then at_height c (nHeight b + 1) else None
  end.

Definition Height (c : CChain) : Z := Z.of_nat (length (vChain c)) - 1.

(** The loop of [SetTip]; [None] is an access outside the heap or the vector. *)
Fixpoint SetTip_loop (h : heap) (fuel : nat) (v : list (option ptr)) (pindex : option ptr) :
    option (list (option ptr)) :=
  match fuel with
  | O => None
  | S fuel =>
      match pindex with
      | None => Some v
      | Some p =>
          b ← h !! p;
          slot ← v !! Z.to_nat (nHeight b);
          if decide (slot = Some p) then Some v
          else SetTip_loop h fuel (<[Z.to_nat (nHeight b) := Some p]> v) (pprev b)
      end
  end.

Definition SetTip (h : heap) (c : CChain) (pindex : option ptr) : option CChain :=
  match pindex with
  | None => Some (MkChain [] None)
  | Some p =>
      b ← h !! p;
      let n := Z.to_nat (nHeight b + 1) in
      v ← SetTip_loop h (S n) (resize n None (vChain c)) pindex;
      Some (MkChain v pindex)
  end.

Fixpoint FindFork_loop (h : heap) (c : CChain) (fuel : nat) (pindex : option ptr) : option (option ptr) :=
  match fuel with
  | O => None
  | S fuel =>
      match pindex with
      | None => Some None
      | Some p =>
          b ← h !! p;
          if Contains h c p then Some (Some p) else FindFork_loop h c fuel (pprev b)
      end
  end.

Definition FindFork (h : heap) (c : CChain) (pindex : option ptr) : option (option ptr) :=
  match pindex with
  | None => Some None
  | Some p =>
      b ← h !! p;
      let start := if Height c <? nHeight b then GetAncestor h p (Height c) else Some p in
      FindFork_loop h c (S (S (Z.to_nat (nHeight b)))) start
  end.

Fixpoint GetLocator_loop (h : heap) (c : CChain) (fuel : nat) (nStep : Z) (vHave : list (list Z))
    (pindex : option ptr) : option (list (list Z)) :=
  match fuel with
  | O => None
  | S fuel =>
      match pindex with
      | None => Some vHave
      | Some p =>
          b ← h !! p;
          let vHave := vHave ++ [phashBlock b] in
          if nHeight b =? 0 then Some vHave
          else
            let height := Z.max (nHeight b - nStep) 0 in
            let next := if Contains h c p then at_height c height else GetAncestor h p height in
            let nStep := if (10 <? length vHave)%nat then nStep * 2 else nStep in
            GetLocator_loop h c fuel nStep vHave next
      end
  end.

Definition GetLocator (h : heap) (c : CChain) (pindex : option ptr) : option (list (list Z)) :=
  let start := match pindex with None => Tip c | Some p => Some p end in
  match start with
  | None => Some []
  | Some p =>
      b ← h !! p;
      GetLocator_loop h c (S (Z.to_nat (nHeight b))) 1 [] start
  end.

(** ** The abstract chain *)

(** The blocks from the root to [p], by height. *)
Definition path (h : heap) (p : ptr) : list (option ptr) :=
  match h !! p with
  | None => []
  | Some b => map (λ i, ancestor h p (Z.of_nat i)) (seq 0 (Z.to_nat (nHeight b + 1)))
  end.

(** The invariant of [CChain]: it is the path to its tip. *)
Definition chain_ok (h : heap) (c : CChain) : Prop :=
  match atomicTip c with
  | None => vChain c = []
  | Some p => is_Some (h !! p) ∧ vChain c = path h p
  end.

Lemma path_length h p b : h !! p = Some b → length (path h p) = Z.to_nat (nHeight b + 1).
Proof. intros Hp. unfold path. by rewrite Hp, length_map, length_seq. Qed.

Lemma path_lookup h p b i :
  h !! p = Some b → 0 ≤ i ≤ nHeight b → path h p !! Z.to_nat i = Some (ancestor h p i).
Proof.
  intros Hp Hi. unfold path. rewrite Hp.
  change (map ?f ?l !! ?i) with ((f <$> l) !! i).
  rewrite list_lookup_fmap, lookup_seq_lt by lia. simpl. by rewrite Z2Nat.id by lia.
Qed.

Lemma path_lookup_ge h p b i :
  h !! p = Some b → nHeight b < i → 0 ≤ nHeight b → path h p !! Z.to_nat i = None.
Proof. intros Hp Hi H0. apply lookup_ge_None. rewrite (path_length h p b) by done. lia. Qed.

Lemma at_height_path h p b c i :
  h !! p = Some b → 0 ≤ nHeight b → vChain c = path h p →
  at_height c i = ancestor h p i.
Proof.
  intros Hp H0 Hv. unfold at_height. rewrite Hv, (path_length h p b) by done.
  unfold ancestor at 1. rewrite Hp.
  destruct (Z.ltb_spec i 0); cbn [orb]; [done|].
  destruct (Z.leb_spec (Z.of_nat (Z.to_nat (nHeight b + 1))) i), (Z.ltb_spec (nHeight b) i); try lia; [done|].
  rewrite (path_lookup h p b) by (done || lia). by rewrite (ancestor_walk h p b) by (done || lia).
Qed.

(** In a well-formed chain, [operator[]] is the ancestor of the tip. *)
Lemma at_height_ok h c i :
  tree_wf h → chain_ok h c →
  at_height c i = match atomicTip c with None => None | Some t => ancestor h t i end.
Proof.
  intros Hwf Hc. unfold chain_ok in Hc. destruct (atomicTip c) as [t|].
  - destruct Hc as [[b Hb] Hv]. apply (at_height_path h t b); [done|by apply (Hwf t b)|done].
  - unfold at_height. rewrite Hc, lookup_nil. by destruct (_ || _).
Qed.

(** Membership is being an ancestor of the tip. *)
Lemma Contains_ok h c p b :
  tree_wf h → chain_ok h c → h !! p = Some b →
  Contains h c p = true ↔ ∃ t, atomicTip c = Some t ∧ ancestor h t (nHeight b) = Some p.
Proof.
  intros Hwf Hc Hp. unfold Contains. rewrite Hp, bool_decide_eq_true, (at_height_ok h) by done.
  destruct (atomicTip c) as [t|]; [|split; [done|by intros (t & ? & _)]].
  split; [by exists t|]. by intros (t' & [= ->] & ?).
Qed.

(** ** Setting the tip *)

Lemma path_unique h t b v :
  h !! t = Some b → length v = Z.to_nat (nHeight b + 1) →
  (∀ i, 0 ≤ i ≤ nHeight b → v !! Z.to_nat i = Some (ancestor h t i)) → v = path h t.
Proof.
  intros Ht Hlen Hv. apply list_eq_same_length with (length v); [by rewrite (path_length h t b)|done|].
  intros i x y Hi. rewrite <- (Nat2Z.id i), Hv, (path_lookup h t b) by (done || lia). congruence.
Qed.

(** While the loop runs, the slots above the current block hold the path to the
    new tip [t], the others what the vector held before. *)
Lemma SetTip_loop_spec h c t b fuel v p d :
  tree_wf h → chain_ok h c → h !! t = Some b → h !! p = Some d →
  ancestor h t (nHeight d) = Some p → nHeight d ≤ nHeight b → nHeight d + 1 < Z.of_nat fuel →
  length v = Z.to_nat (nHeight b + 1) →
  (∀ i, nHeight d < i ≤ nHeight b → v !! Z.to_nat i = Some (ancestor h t i)) →
  (∀ i, 0 ≤ i ≤ nHeight d → v !! Z.to_nat i = Some (at_height c i)) →
  SetTip_loop h fuel v (Some p) = Some (path h t).
Proof.
  intros Hwf Hc Ht. revert p d v. induction fuel as [|fuel IH]; intros p d v Hp Ha Hle Hf Hlen Hhi Hlo;
    [destruct (Hwf p d Hp); lia|].
  destruct (Hwf p d Hp) as [H0 He]. cbn [SetTip_loop mbind option_bind]. rewrite Hp. cbn [mbind option_bind].
  rewrite Hlo by lia. cbn [mbind option_bind]. case_decide as Hd.
  - f_equal. apply (path_unique h t b); [done..|]. intros i Hi.
    destruct (Z.le_gt_cases i (nHeight d)) as [Hid|Hid]; [|apply Hhi; lia].
    rewrite Hlo by lia. f_equal. rewrite (at_height_ok h c) in * by done.
    destruct (atomicTip c) as [t'|] eqn:Et; [|done].
    unfold chain_ok in Hc. rewrite Et in Hc. destruct Hc as [[b' Hb'] _].
    rewrite <- (ancestor_trans h t' b' p (nHeight d)) by (done || lia).
    by apply (ancestor_trans h t b p (nHeight d)).
  - unfold entry_wf in He. destruct (pprev d) as [q|] eqn:Hq.
    + destruct He as (e & He & Hh & _). apply (IH q e); [done| |lia|lia|by rewrite length_insert| |].
      * rewrite <- (ancestor_trans h t b p (nHeight d)) by (done || lia).
        rewrite (ancestor_parent h p d q) by (done || lia). by apply ancestor_self.
      * intros i Hi. destruct (Z.eq_dec i (nHeight d)) as [->|Hne].
        { rewrite list_lookup_insert_eq by lia. by rewrite Ha. }
        rewrite list_lookup_insert_ne by lia. apply Hhi. lia.
      * intros i Hi. rewrite list_lookup_insert_ne by lia. apply Hlo. lia.
    + destruct He as [Hz _]. destruct fuel as [|fuel]; [lia|]. cbn [SetTip_loop]. f_equal.
      apply (path_unique h t b); [done|by rewrite length_insert|]. intros i Hi.
      destruct (Z.eq_dec i (nHeight d)) as [->|Hne].
      { rewrite list_lookup_insert_eq by lia. by rewrite Ha. }
      rewrite list_lookup_insert_ne by lia. apply Hhi. lia.
Qed.

Lemma SetTip_spec (h : heap) (c : CChain) (t : ptr) (b : CBlockIndex)
    (Hwf : tree_wf h) (Hc : chain_ok h c) (Ht : h !! t = Some b) :
  ∃ c', SetTip h c (Some t) = Some c' ∧ chain_ok h c' ∧ vChain c' = path h t ∧
    Tip c' = Some t ∧ Height c' = nHeight b ∧ SetTip h c None = Some (MkChain [] None).
Proof.
  destruct (Hwf t b Ht) as [H0 _]. unfold SetTip. rewrite Ht. cbn [mbind option_bind].
  rewrite (SetTip_loop_spec h c t b) with (d := b); [| |done|done|done|by apply ancestor_self|lia|lia|by rewrite length_resize|lia|].
  - cbn [mbind option_bind]. eexists. split; [done|]. split; [split; [by exists b|done]|].
    split; [done|]. unfold Tip, Height. cbn [vChain]. rewrite (path_length h t b) by done.
    split; [|split; [lia|done]].
    destruct (path h t) eqn:E; [apply (f_equal length) in E; rewrite (path_length h t b) in E by done; simpl in E; lia|].
    rewrite <- E. replace (Z.to_nat (nHeight b + 1) - 1)%nat with (Z.to_nat (nHeight b)) by lia.
    rewrite (path_lookup h t b) by (done || lia). by rewrite (ancestor_self h t b).
  - done.
  - intros i Hi. unfold at_height. destruct (Z.ltb_spec i 0); [lia|]. cbn [orb].
    destruct (Z.leb_spec (Z.of_nat (length (vChain c))) i) as [Hge|Hlt].
    + by rewrite lookup_resize_new by lia.
    + rewrite lookup_resize by lia. destruct (lookup_lt_is_Some_2 (vChain c) (Z.to_nat i)) as [x ->]; [lia|done].
Qed.

(** [SetTip] always succeeds on a block of the index, makes the chain the
    path from the root to that block whatever the previous tip was (its early
    exit keeps the shared prefix, which is already right), and so preserves the
    invariant of the active chain; a null tip empties it. *)
Theorem SetTip_makes_path (h : heap) (c : CChain) (t : ptr) (b : CBlockIndex)
    (Hwf : tree_wf h) (Hc : chain_ok h c) (Ht : h !! t = Some b) :
  ∃ c', SetTip h c (Some t) = Some c' ∧ chain_ok h c' ∧ vChain c' = path h t ∧
    Tip c' = Some t ∧ Height c' = nHeight b ∧ SetTip h c None = Some (MkChain [] None).
Proof. by apply SetTip_spec. Qed.

Lemma SetTip_makes_path_witness :
  let h := chain_heap (λ _, 0) (λ _, 0) 10 in
  ∃ c', SetTip h (MkChain (path h (Pos.of_succ_nat 4)) (Some (Pos.of_succ_nat 4))) (Some (Pos.of_succ_nat 10)) = Some c' ∧
    Tip c' = Some (Pos.of_succ_nat 10) ∧ Height c' = 10.
Proof.
  intros h. set (c := MkChain _ _).
  assert (chain_ok h c) as Hc.
  { split; [|reflexivity]. eexists. apply (chain_heap_lookup _ _ 10 4). }
  destruct (SetTip_makes_path h c (Pos.of_succ_nat 10) _ (chain_heap_wf _ _ 10) Hc (chain_heap_lookup _ _ 10 10))
    as (c' & H1 & _ & _ & H2 & H3 & _).
  exists c'. split; [exact H1|]. split; [exact H2|]. rewrite H3. reflexivity.
Defined.

(** ** The last common block *)

(** [q] lies on the branch of [p] and in the chain, at height [i]. *)
Definition common (h : heap) (c : CChain) (p : ptr) (i : Z) (q : ptr) : Prop :=
  ancestor h p i = Some q ∧ at_height c i = Some q.

Definition is_fork (h : heap) (c : CChain) (p : ptr) (r : option ptr) : Prop :=
  match r with
  | None => ∀ i q, ¬ common h c p i q
  | Some f => ∃ b, h !! f = Some b ∧ common h c p (nHeight b) f ∧
                   ∀ i q, nHeight b < i → ¬ common h c p i q
  end.

Lemma FindFork_loop_spec h c p b fuel q d :
  tree_wf h → h !! p = Some b → h !! q = Some d →
  ancestor h p (nHeight d) = Some q → nHeight d + 1 < Z.of_nat fuel →
  (∀ i q, nHeight d < i → ¬ common h c p i q) →
  ∃ r, FindFork_loop h c fuel (Some q) = Some r ∧ is_fork h c p r.
Proof.
  intros Hwf Hp. revert q d. induction fuel as [|fuel IH]; intros q d Hq Ha Hf Hno;
    [destruct (Hwf q d Hq); lia|].
  destruct (Hwf q d Hq) as [H0 He]. cbn [FindFork_loop]. rewrite Hq. cbn [mbind option_bind].
  unfold Contains. rewrite Hq. case_bool_decide as Hc.
  { exists (Some q). split; [done|]. exists d. split; [done|]. split; [by split|done]. }
  unfold entry_wf in He. destruct (pprev d) as [q'|] eqn:Hq'.
  - destruct He as (e & He & Hh & _). apply (IH q' e); [done| |lia|].
    + rewrite <- (ancestor_trans h p b q (nHeight d)) by (done || lia).
      rewrite (ancestor_parent h q d q') by (done || lia). by apply ancestor_self.
    + intros i x Hi [Hx1 Hx2]. destruct (Z.eq_dec i (nHeight d)) as [->|]; [congruence|].
      apply (Hno i x); [lia|by split].
  - destruct He as [Hz _]. destruct fuel as [|fuel]; [lia|]. exists None. split; [done|].
    intros i x [Hx1 Hx2]. destruct (Z.lt_trichotomy i (nHeight d)) as [Hlt|[->|Hgt]].
    + unfold ancestor in Hx1. rewrite Hp in Hx1. by destruct (Z.ltb_spec i 0); [|lia].
    + congruence.
    + by apply (Hno i x).
Qed.

(** [FindFork] always terminates with the last block that the branch of
    [pindex] shares with the active chain, or null when they share none: the
    result is on both, and no higher block is. *)
Theorem FindFork_last_common (h : heap) (c : CChain) (p : ptr) (b : CBlockIndex)
    (Hwf : tree_wf h) (Hc : chain_ok h c) (Hp : h !! p = Some b) :
  ∃ r, FindFork h c (Some p) = Some r ∧ is_fork h c p r.
Proof.
  destruct (Hwf p b Hp) as [H0 _]. unfold FindFork. rewrite Hp. cbn [mbind option_bind].
  assert (∀ i q, Height c < i → ¬ common h c p i q) as Htop.
  { intros i q Hi [_ Hq]. unfold at_height, Height in *.
    destruct (Z.leb_spec (Z.of_nat (length (vChain c))) i); [|lia]. by rewrite orb_true_r in Hq. }
  destruct (Z.ltb_spec (Height c) (nHeight b)) as [Hlt|Hge].
  - rewrite GetAncestor_spec by done. destruct (Z.lt_ge_cases (Height c) 0) as [Hneg|Hpos].
    + exists None. unfold ancestor. rewrite Hp. destruct (Z.ltb_spec (Height c) 0); [|lia].
      split; [done|]. intros i q Hcm. destruct (Z.lt_ge_cases (Height c) i) as [Hi|Hi]; [by apply (Htop i q)|].
      destruct Hcm as [Ha _]. unfold ancestor in Ha. rewrite Hp in Ha. by destruct (Z.ltb_spec i 0); [|lia].
    + destruct (ancestor_exists h p b (Height c) Hwf Hp) as (q & d & Ha & Hq & Hh); [lia|].
      rewrite Ha. apply (FindFork_loop_spec h c p b _ q d); [done..|by rewrite Hh|lia|by rewrite Hh].
  - apply (FindFork_loop_spec h c p b _ p b); [done..|by apply ancestor_self|lia|].
    intros i q Hi [Ha _]. unfold ancestor in Ha. rewrite Hp in Ha.
    destruct (Z.ltb_spec (nHeight b) i); [|lia]. by rewrite orb_true_r in Ha.
Qed.

Lemma FindFork_last_common_witness :
  let h := chain_heap (λ _, 0) (λ _, 0) 10 in
  let c := MkChain (path h (Pos.of_succ_nat 4)) (Some (Pos.of_succ_nat 4)) in
  ∃ r, FindFork h c (Some (Pos.of_succ_nat 10)) = Some r ∧ is_fork h c (Pos.of_succ_nat 10) r.
Proof.
  intros h c. assert (chain_ok h c) as Hc.
  { split; [|reflexivity]. eexists. apply (chain_heap_lookup _ _ 10 4). }
  exact (FindFork_last_common h c (Pos.of_succ_nat 10) _ (chain_heap_wf _ _ 10) Hc (chain_heap_lookup _ _ 10 10)).
Defined.

(** ** Locators *)

(** Entries of a locator, as blocks: each an ancestor of the one before, lower
    than it, the last one at the root. *)
Fixpoint locator_from (h : heap) (p : ptr) (bs : list CBlockIndex) : Prop :=
  match bs with
  | [] => False
  | b :: rest => h !! p = Some b ∧
      match rest with
      | [] => nHeight b = 0
      | b' :: _ => ∃ q, 0 ≤ nHeight b' < nHeight b ∧ ancestor h p (nHeight b') = Some q ∧ locator_from h q rest
      end
  end.

(** Both ways of stepping down give the ancestor. *)
Lemma locator_step h c p b height :
  tree_wf h → chain_ok h c → h !! p = Some b → height ≤ nHeight b →
  (if Contains h c p then at_height c height else GetAncestor h p height) = ancestor h p height.
Proof.
  intros Hwf Hc Hp Hle. destruct (Contains h c p) eqn:Hcp; [|by apply GetAncestor_spec].
  apply (Contains_ok h c p b) in Hcp as (t & Et & Ha); [|done..]. rewrite (at_height_ok h c), Et by done.
  unfold chain_ok in Hc. rewrite Et in Hc. destruct Hc as [[bt Hbt] _].
  symmetry. by apply (ancestor_trans h t bt p (nHeight b)).
Qed.

(** Besides the shape, the count: with [a] single steps to go and [k] doublings
    after them covering the height, at most [a + k + 1] entries follow. *)
Lemma GetLocator_loop_spec h c fuel nStep vHave p b :
  tree_wf h → chain_ok h c → h !! p = Some b → 1 ≤ nStep → nHeight b < Z.of_nat fuel →
  ∃ bs, GetLocator_loop h c fuel nStep vHave (Some p) = Some (vHave ++ map phashBlock bs) ∧
    locator_from h p bs ∧
    ∀ k, nHeight b ≤ Z.of_nat (10 - length vHave) * nStep + nStep * (2 ^ Z.of_nat k - 1) →
      (length bs ≤ 10 - length vHave + k + 1)%nat.
Proof.
  intros Hwf Hc. revert nStep vHave p b. induction fuel as [|fuel IH]; intros nStep vHave p b Hp Hs Hf;
    [destruct (Hwf p b Hp); lia|].
  destruct (Hwf p b Hp) as [H0 _]. cbn [GetLocator_loop]. rewrite Hp. cbn [mbind option_bind].
  destruct (Z.eqb_spec (nHeight b) 0) as [Hz|Hz].
  { exists [b]. split; [done|]. split; [by split|]. intros k _. simpl. lia. }
  set (height := Z.max (nHeight b - nStep) 0).
  rewrite (locator_step h c p b height) by (done || lia).
  destruct (ancestor_exists h p b height Hwf Hp) as (q & d & Ha & Hq & Hh); [lia|]. rewrite Ha.
  set (nStep' := if (10 <? length (vHave ++ [phashBlock b]))%nat then nStep * 2 else nStep).
  destruct (IH nStep' (vHave ++ [phashBlock b]) q d Hq) as (bs & E & Hbs & Hlen);
    [subst nStep'; destruct (_ <? _)%nat; lia|lia|].
  exists (b :: bs). rewrite E, <- app_assoc. split; [done|]. split.
  { destruct bs as [|b' bs]; [done|]. split; [done|].
    assert (b' = d) as -> by (destruct Hbs; congruence).
    exists q. split; [lia|]. split; [by rewrite Hh|done]. }
  intros k Hk. subst nStep'. rewrite !length_app in Hlen. cbn [length] in Hlen |- *.
  destruct (Nat.ltb_spec 10 (length vHave + 1)) as [Hm|Hm].
  - replace (10 - length vHave)%nat with 0%nat in * by lia. destruct k as [|k].
    { change (2 ^ Z.of_nat 0) with 1 in Hk. lia. }
    assert (length bs ≤ 10 - (length vHave + 1) + k + 1)%nat; [|lia]. apply Hlen.
    replace (2 ^ Z.of_nat (S k)) with (2 * 2 ^ Z.of_nat k) in Hk by
      (rewrite <- Z.pow_succ_r by lia; f_equal; lia).
    pose proof (Z.pow_pos_nonneg 2 (Z.of_nat k)). nia.
  - assert (length bs ≤ 10 - (length vHave + 1) + k + 1)%nat; [|lia]. apply Hlen.
    pose proof (Z.pow_pos_nonneg 2 (Z.of_nat k)). nia.
Qed.

(** A locator always terminates, starts at the given block, goes strictly
    down along its ancestors whether it steps through the active chain or the
    skip list, ends with the root, and is logarithmic in the height: up to height
    [2^k + 9] it has at most [k + 11] entries. *)
Theorem GetLocator_samples_branch (h : heap) (c : CChain) (p : ptr) (b : CBlockIndex)
    (Hwf : tree_wf h) (Hc : chain_ok h c) (Hp : h !! p = Some b) :
  ∃ bs, GetLocator h c (Some p) = Some (map phashBlock bs) ∧ locator_from h p bs ∧
    ∀ k, nHeight b ≤ 2 ^ Z.of_nat k + 9 → (length bs ≤ k + 11)%nat.
Proof.
  destruct (Hwf p b Hp) as [H0 _]. unfold GetLocator. rewrite Hp. cbn [mbind option_bind].
  destruct (GetLocator_loop_spec h c (S (Z.to_nat (nHeight b))) 1 [] p b) as (bs & E & Hbs & Hlen); [done..|lia|lia|].
  exists bs. split; [exact E|]. split; [exact Hbs|]. intros k Hk.
  specialize (Hlen k). cbn [length Nat.sub] in Hlen. lia.
Qed.

Lemma GetLocator_samples_branch_witness :
  let h := chain_heap (λ _, 0) (λ _, 0) 30 in
  let c := MkChain (path h (Pos.of_succ_nat 4)) (Some (Pos.of_succ_nat 4)) in
  ∃ bs, GetLocator h c (Some (Pos.of_succ_nat 25)) = Some (map phashBlock bs) ∧ (length bs ≤ 15)%nat.
Proof.
  intros h c. assert (chain_ok h c) as Hc.
  { split; [|reflexivity]. eexists. apply (chain_heap_lookup _ _ 30 4). }
  destruct (GetLocator_samples_branch h c (Pos.of_succ_nat 25) _ (chain_heap_wf _ _ 30) Hc
    (chain_heap_lookup _ _ 30 25)) as (bs & E & _ & Hlen).
  exists bs. split; [exact E|]. apply (Hlen 4%nat). vm_compute. discriminate.
Defined.
