(* ===== verification/Merkle.v ===== *)
(** * Merkle trees of a block

    [consensus/merkle.cpp]: the constant-space computation of the root, of the
    mutation flag and of the branch of a leaf, and the recomputation of the root
    from a branch.  The reference is the tree by levels, where a level of odd
    width repeats its last node.  The compression of two nodes (double SHA-256 of
    their 64 bytes) is the argument [Hash2]: the theorems hold for any. *)

From S2P Require Import Prelude Ints.

Local Open Scope Z_scope.

Section merkle.
Context {A : Type} {eqA : EqDecision A} (Hash2 : A → A → A) (null : A).

(** ** The computation *)

(** [count & (((uint32_t)1) << level)], as a truth value. *)
Definition bit (count : Z) (level : nat) : bool := negb (count .& u32 (1 << Z.of_nat level) =? 0).

Abbreviation at_ l i := (nth i l null).

(** What the two phases change besides [count] and [level]. *)
Record Mst := MkM {
  inner : list A;
  matchlevel : Z;
  branch : list A;
  mutated : bool
}.

(** The part of an iteration that records the branch, if one is asked for:
    returns [matchh] and the branch. *)
Definition push_branch (fBranch : bool) (level : nat) (h : A) (matchh : bool) (st : Mst) : bool * list A :=
  if fBranch then
    if matchh then (true, branch st ++ [at_ (inner st) level])
    else if matchlevel st =? Z.of_nat level then (true, branch st ++ [h])
    else (false, branch st)
  else (matchh, branch st).

(** The loop over the low zero bits of [count], for one leaf; [None] is a shift
    past the width of the integer. *)
Fixpoint leaf_loop (fBranch : bool) (fuel : nat) (count : Z) (level : nat) (h : A) (matchh : bool)
    (st : Mst) : option Mst :=
  match fuel with
  | O => None
  | S fuel =>
      if negb (bit count level) then
        let '(matchh, br) := push_branch fBranch level h matchh st in
        let mut := mutated st || bool_decide (at_ (inner st) level = h) in
        leaf_loop fBranch fuel count (S level) (Hash2 (at_ (inner st) level) h) matchh
          (MkM (inner st) (matchlevel st) br mut)
      else
        Some (MkM (<[level := h]> (inner st)) (if matchh then Z.of_nat level else matchlevel st)
                (branch st) (mutated st))
  end.

(** The first loop, on the leaves from [count] on. *)
Fixpoint leaves_loop (fBranch : bool) (branchpos : Z) (leaves : list A) (count : Z) (st : Mst) :
    option (Z * Mst) :=
  match leaves with
  | [] => Some (count, st)
  | leaf :: leaves =>
      let matchh := count =? branchpos in
      let count := u32 (count + 1) in
      st ← leaf_loop fBranch 32 count 0 leaf matchh st;
      leaves_loop fBranch branchpos leaves count st
  end.

(** Skip the levels at which nothing is left. *)
Fixpoint low_level (fuel : nat) (count : Z) (level : nat) : option nat :=
  match fuel with
  | O => None
  | S fuel => if negb (bit count level) then low_level fuel count (S level) else Some level
  end.

(** The inner loop of the sweep: combine with the subtrees on the left. *)
Fixpoint up_loop (fBranch : bool) (fuel : nat) (count : Z) (level : nat) (h : A) (matchh : bool) (st : Mst) :
    option (nat * A * bool * Mst) :=
  match fuel with
  | O => None
  | S fuel =>
      if negb (bit count level) then
        let '(matchh, br) := push_branch fBranch level h matchh st in
        up_loop fBranch fuel count (S level) (Hash2 (at_ (inner st) level) h) matchh
          (MkM (inner st) (matchlevel st) br (mutated st))
      else Some (level, h, matchh, st)
  end.

(** The outer loop of the sweep: combine a last odd node with itself. *)
Fixpoint sweep_loop (fBranch : bool) (fuel : nat) (count : Z) (level : nat) (h : A) (matchh : bool)
    (st : Mst) : option (A * Mst) :=
  match fuel with
  | O => None
  | S fuel =>
      if negb (count =? u32 (1 << Z.of_nat level)) then
        let br := if fBranch && matchh then branch st ++ [h] else branch st in
        let count := u32 (count + u32 (1 << Z.of_nat level)) in
        r ← up_loop fBranch 32 count (S level) (Hash2 h h) matchh
              (MkM (inner st) (matchlevel st) br (mutated st));
        let '(level, h, matchh, st) := r in
        sweep_loop fBranch fuel count level h matchh st
      else Some (h, st)
  end.

(** The root, the mutation flag and the branch. *)
Definition MerkleComputation (leaves : list A) (fBranch : bool) (branchpos : Z) :
    option (A * bool * list A) :=
  match leaves with
  | [] => Some (null, false, [])
  | _ =>
      r ← leaves_loop fBranch branchpos leaves 0 (MkM (replicate 32 null) (-1) [] false);
      let '(count, st) := r in
      level ← low_level 32 count 0;
      r ← sweep_loop fBranch 33 count level (at_ (inner st) level) (matchlevel st =? Z.of_nat level) st;
      let '(h, st) := r in
      Some (h, mutated st, branch st)
  end.

Definition ComputeMerkleRoot (leaves : list A) : option (A * bool) :=
  r ← MerkleComputation leaves false (u32 (-1));
  let '(root, mut, _) := r in Some (root, mut).

Definition ComputeMerkleBranch (leaves : list A) (position : Z) : option (list A) :=
  r ← MerkleComputation leaves true position;
  let '(_, _, br) := r in Some br.

Definition ComputeMerkleRootFromBranch (leaf : A) (vMerkleBranch : list A) (nIndex : Z) : A :=
  fst (fold_left (λ '(hash, nIndex) it,
      (if negb (nIndex .& 1 =? 0) then Hash2 it hash else Hash2 hash it, nIndex >> 1))
    vMerkleBranch (leaf, nIndex)).

(** ** The reference: the tree by levels *)

Section tree.
Context (leaves : list A).

Definition nleaves : Z := Z.of_nat (length leaves).

(** The number of nodes at a level. *)
Definition width (k : nat) : Z := (nleaves + 2 ^ Z.of_nat k - 1) / 2 ^ Z.of_nat k.

(** Node [j] of level [k]; the last node of an odd level is combined with itself. *)
Fixpoint node (k : nat) (j : Z) : A :=
  match k with
  | O => at_ leaves (Z.to_nat j)
  | S k => Hash2 (node k (2 * j)) (node k (Z.min (2 * j + 1) (width k - 1)))
  end.

(** [k] is the height of the tree when its level has one node and no lower one has. *)
Definition is_height (k : nat) : Prop := width k = 1 ∧ ∀ i, (i < k)%nat → width i ≠ 1.

(** The sibling of the ancestor of [pos] at level [k]. *)
Definition sibling (pos : Z) (k : nat) : A :=
  let j := pos / 2 ^ Z.of_nat k in
  node k (if Z.odd j then j - 1 else Z.min (j + 1) (width k - 1)).

Definition siblings (pos : Z) (k : nat) : list A := map (sibling pos) (seq 0 k).

(** Two adjacent full subtrees that are equal. *)
Definition repeated (c : Z) : Prop :=
  ∃ k j, 0 ≤ j ∧ (2 * j + 2) * 2 ^ Z.of_nat k ≤ c ∧ node k (2 * j) = node k (2 * j + 1).
End tree.
End merkle.

(** ** Arithmetic of counts and levels *)

Abbreviation p2 k := (2 ^ Z.of_nat k).

Lemma p2_pos k : 0 < p2 k.
Proof. apply Z.pow_pos_nonneg; lia. Qed.

Lemma p2_S k : p2 (S k) = 2 * p2 k.
Proof. rewrite Nat2Z.inj_succ, Z.pow_succ_r by lia. done. Qed.

Lemma p2_lt j k : (j < k)%nat → 2 * p2 j ≤ p2 k.
Proof. intros H. rewrite <- p2_S. apply Z.pow_le_mono_r; lia. Qed.

Lemma u32_p2 k : (k < 32)%nat → u32 (1 << Z.of_nat k) = p2 k.
Proof.
  intros H. rewrite Z.shiftl_1_l. apply u32_id. split; [apply Z.lt_le_incl, p2_pos|].
  apply Z.pow_lt_mono_r; lia.
Qed.

Lemma testbit_div c k : 0 ≤ c → Z.testbit c (Z.of_nat k) = Z.odd (c / p2 k).
Proof. intros. by rewrite Z.testbit_odd, Z.shiftr_div_pow2 by lia. Qed.

Lemma bit_odd c k : (k < 32)%nat → 0 ≤ c → bit c k = Z.odd (c / p2 k).
Proof.
  intros Hk Hc. unfold bit. rewrite u32_p2, <- testbit_div by done.
  destruct (Z.testbit c (Z.of_nat k)) eqn:Hb.
  - apply negb_true_iff, Z.eqb_neq. intros H0. apply (f_equal (λ z, Z.testbit z (Z.of_nat k))) in H0.
    rewrite Z.land_spec, Hb, Z.pow2_bits_true, Z.bits_0 in H0 by lia. done.
  - apply negb_false_iff, Z.eqb_eq, Z.bits_inj'. intros i Hi. rewrite Z.land_spec, Z.bits_0.
    destruct (Z.eq_dec i (Z.of_nat k)) as [->|Hne]; [by rewrite Hb|].
    rewrite Z.pow2_bits_false by lia. apply andb_false_r.
Qed.

Lemma div_p2_S c k : c / p2 (S k) = c / p2 k / 2.
Proof. rewrite p2_S, Z.mul_comm, Z.div_div by (pose proof (p2_pos k); lia). done. Qed.

Lemma odd_half m : m = 2 * (m / 2) + if Z.odd m then 1 else 0.
Proof. rewrite <- Zmod_odd. apply Z.div_mod. lia. Qed.

(** A multiple of [2^k], and what precedes it. *)
Lemma mul_p2_div m k : m * p2 k / p2 k = m.
Proof. apply Z.div_mul. pose proof (p2_pos k). lia. Qed.

Lemma pred_p2_div m k : (m * p2 k - 1) / p2 k = m - 1.
Proof. pose proof (p2_pos k). symmetry. apply (Z.div_unique_pos _ _ _ (p2 k - 1)); lia. Qed.

(** Above the lowest set bit, a count and its predecessor agree. *)
Lemma pred_div_high m level k :
  0 < m → Z.odd m = true → (level < k)%nat → (m * p2 level - 1) / p2 k = m * p2 level / p2 k.
Proof.
  intros Hm Hodd Hk. pose proof (p2_pos level) as Hl. pose proof (p2_pos k) as Hp.
  set (q := m * p2 level / p2 k). pose proof (Z.div_mod (m * p2 level) (p2 k) ltac:(lia)) as D. fold q in D.
  pose proof (Z.mod_pos_bound (m * p2 level) (p2 k) Hp) as B. clearbody q.
  symmetry. apply (Z.div_unique_pos _ _ _ ((m * p2 level) mod p2 k - 1)); [|lia].
  split; [|lia]. enough ((m * p2 level) mod p2 k ≠ 0) by lia. intros E.
  assert (p2 k = 2 * p2 (k - level - 1) * p2 level) as Ek.
  { replace k with (S (k - level - 1) + level)%nat at 1 by lia.
    rewrite Nat2Z.inj_add, Z.pow_add_r, p2_S by lia. done. }
  rewrite E, Ek in D. assert (m = 2 * p2 (k - level - 1) * q) as -> by nia.
  rewrite !Z.odd_mul in Hodd. done.
Qed.

(** A set bit below a level of which the count is a multiple is impossible. *)
Lemma low_bits_clear m level k : (k < level)%nat → Z.odd (m * p2 level / p2 k) = false.
Proof.
  intros Hk. assert (p2 level = 2 * p2 (level - k - 1) * p2 k) as ->.
  { replace level with (S (level - k - 1) + k)%nat at 1 by lia.
    rewrite Nat2Z.inj_add, Z.pow_add_r, p2_S by lia. done. }
  rewrite !Z.mul_assoc, mul_p2_div, !Z.odd_mul. by rewrite andb_false_r.
Qed.

Section merkle_proofs.
Context {A : Type} {eqA : EqDecision A} (Hash2 : A → A → A) (null : A) (leaves : list A).

Abbreviation n := (nleaves leaves).
Abbreviation W := (width leaves).
Abbreviation N := (node Hash2 null leaves).
Abbreviation sib := (sibling Hash2 null leaves).
Abbreviation sibs := (siblings Hash2 null leaves).
Abbreviation rep := (repeated Hash2 null leaves).
Abbreviation get l i := (nth i l null).

(** ** Widths *)

Lemma width_unique k w : (w - 1) * p2 k < n ≤ w * p2 k → W k = w.
Proof using.
  intros H. unfold width. pose proof (p2_pos k). symmetry.
  apply (Z.div_unique_pos _ _ _ (n + p2 k - 1 - w * p2 k)); lia.
Qed.

Lemma width_spec k : (W k - 1) * p2 k < n ≤ W k * p2 k.
Proof using.
  unfold width. pose proof (p2_pos k).
  pose proof (Z.div_mod (n + p2 k - 1) (p2 k) ltac:(lia)).
  pose proof (Z.mod_pos_bound (n + p2 k - 1) (p2 k) ltac:(lia)). nia.
Qed.

Lemma width_S k : W (S k) = (W k + 1) / 2.
Proof using.
  apply width_unique. pose proof (width_spec k). pose proof (p2_pos k). rewrite p2_S.
  pose proof (Z.div_mod (W k + 1) 2 ltac:(lia)). pose proof (Z.mod_pos_bound (W k + 1) 2 ltac:(lia)). nia.
Qed.

(** Twice a left neighbour: both children are there. *)
Lemma node_pair k j : 0 ≤ j → (2 * j + 2) * p2 k ≤ W k * p2 k →
  N (S k) j = Hash2 (N k (2 * j)) (N k (2 * j + 1)).
Proof using.
  intros Hj H. cbn [node]. pose proof (p2_pos k). rewrite Z.min_l by nia. done.
Qed.

Lemma width_full k c : 0 ≤ c → c * p2 k ≤ n → c ≤ W k.
Proof using. intros Hc H. pose proof (width_spec k). pose proof (p2_pos k). nia. Qed.

Lemma siblings_S pos k : sibs pos (S k) = sibs pos k ++ [sib pos k].
Proof using. unfold siblings. by rewrite seq_S, map_app. Qed.

(** ** Invariants of the first loop, after [c] leaves *)

Definition inner_ok (c : Z) (st : Mst) : Prop :=
  length (inner st) = 32%nat ∧
  ∀ k, (k < 32)%nat → Z.odd (c / p2 k) = true → get (inner st) k = N k (c / p2 k - 1).

(** The branch gathered so far is that of the subtree that [matchlevel] names. *)
Definition branch_ok (pos c : Z) (st : Mst) : Prop :=
  (matchlevel st = -1 ∧ c ≤ pos ∧ branch st = []) ∨
  (∃ L : nat, matchlevel st = Z.of_nat L ∧ Z.odd (c / p2 L) = true ∧
     pos / p2 L = c / p2 L - 1 ∧ branch st = sibs pos L).

Definition state_ok (fBranch : bool) (pos c : Z) (st : Mst) : Prop :=
  inner_ok c st ∧ (mutated st = true ↔ rep c) ∧ (fBranch = true → branch_ok pos c st).

(** The same in the middle of a leaf's loop: [h] is the last full node of [level]
    once [C] leaves are in. *)
Definition mid_branch (pos C : Z) (level : nat) (matchh : bool) (st : Mst) : Prop :=
  (matchh = true ∧ pos / p2 level = C / p2 level - 1 ∧ branch st = sibs pos level) ∨
  (matchh = false ∧ matchlevel st = -1 ∧ C ≤ pos ∧ branch st = []) ∨
  (matchh = false ∧ ∃ L : nat, (level ≤ L)%nat ∧ matchlevel st = Z.of_nat L ∧
     Z.odd ((C - 1) / p2 L) = true ∧ pos / p2 L = (C - 1) / p2 L - 1 ∧ branch st = sibs pos L).

Definition new_pairs (C : Z) (level : nat) : Prop :=
  ∃ k, (k < level)%nat ∧ N k (C / p2 k - 2) = N k (C / p2 k - 1).

Definition mid_ok (fBranch : bool) (pos C : Z) (level : nat) (matchh : bool) (st : Mst) : Prop :=
  inner_ok (C - 1) st ∧ (mutated st = true ↔ rep (C - 1) ∨ new_pairs C level) ∧
  (fBranch = true → mid_branch pos C level matchh st).

(** One combination: [m] full nodes at [level], [m] even. *)
Lemma mid_step fBranch pos m level matchh st :
  (level < 32)%nat → 0 < m → Z.odd m = false → m * p2 level ≤ n →
  let C := m * p2 level in
  let h := N level (m - 1) in
  let '(matchh', br) := push_branch null fBranch level h matchh st in
  mid_ok fBranch pos C level matchh st →
  get (inner st) level = N level (m - 2) ∧
  mid_ok fBranch pos C (S level) matchh'
    (MkM (inner st) (matchlevel st) br (mutated st || bool_decide (get (inner st) level = h))).
Proof using.
  intros Hlv Hm Hev HC. cbn zeta. pose proof (odd_half m) as Hhalf. rewrite Hev in Hhalf.
  pose proof (p2_pos level) as Hp.
  assert ((m * p2 level - 1) / p2 level = m - 1) as Epred by apply pred_p2_div.
  assert (Z.odd (m - 1) = true) as Hodd1 by (rewrite Z.odd_sub, Hev; done).
  assert (inner_ok (m * p2 level - 1) st → get (inner st) level = N level (m - 2)) as Hin.
  { intros [_ H]. rewrite H; rewrite ?Epred; [f_equal; lia|done|done]. }
  assert (m * p2 level / p2 (S level) = m / 2) as EdS by (rewrite div_p2_S, mul_p2_div; done).
  destruct (push_branch null fBranch level (N level (m - 1)) matchh st) as [matchh' br] eqn:Epb.
  intros (Hi & Hmut & Hbr). rewrite (Hin Hi). split; [done|]. split; [exact Hi|]. split.
  - cbn [mutated]. rewrite orb_true_iff, bool_decide_eq_true, Hmut. unfold new_pairs. split.
    + intros [[?|(k & Hk & E)]|E]; [by left|right; exists k; split; [lia|done]|].
      right. exists level. rewrite mul_p2_div. split; [lia|done].
    + intros [?|(k & Hk & E)]; [by left; left|]. destruct (decide (k = level)) as [->|].
      * right. by rewrite mul_p2_div in E.
      * left. right. exists k. split; [lia|done].
  - intros ->. specialize (Hbr eq_refl). unfold push_branch in Epb. rewrite (Hin Hi) in Epb.
    unfold mid_branch in *. cbn [matchlevel branch] in *.
    assert (∀ j, pos / p2 level = j → (j = m - 1 ∨ j = m - 2) → pos / p2 (S level) = m / 2 - 1) as Hup.
    { intros j Ej Hj. rewrite div_p2_S, Ej. destruct Hj as [->| ->].
      - symmetry. apply (Z.div_unique_pos _ _ _ 1); lia.
      - symmetry. apply (Z.div_unique_pos _ _ _ 0); lia. }
    destruct Hbr as [(-> & Ep & Eb)|[(-> & El & Hpos & Eb)|(-> & L & HL & El & Ho & Ep & Eb)]].
    + injection Epb as <- <-. left. rewrite mul_p2_div in Ep. split; [done|].
      split; [rewrite EdS; by apply (Hup (m - 1)); auto|].
      rewrite siblings_S, Eb. f_equal. unfold sibling. rewrite Ep, Hodd1. f_equal. f_equal. lia.
    + rewrite El in Epb. destruct (Z.eqb_spec (-1) (Z.of_nat level)); [lia|]. injection Epb as <- <-.
      right. left. auto.
    + rewrite El in Epb. destruct (Z.eqb_spec (Z.of_nat L) (Z.of_nat level)) as [E|Hne].
      * injection Epb as <- <-. apply Nat2Z.inj in E as ->. left. split; [done|].
        rewrite Epred in Ep. replace (m - 1 - 1) with (m - 2) in Ep by lia.
        split; [rewrite EdS; apply (Hup (m - 2)); auto|]. rewrite siblings_S, Eb. f_equal.
        unfold sibling. rewrite Ep. replace (Z.odd (m - 2)) with false by (rewrite Z.odd_sub, Hev; done).
        pose proof (width_full level m ltac:(lia) HC). rewrite Z.min_l by lia. f_equal. f_equal. lia.
      * injection Epb as <- <-. right. right. split; [done|]. exists L. split; [lia|done].
Qed.

Lemma repeated_step m level :
  0 < m → Z.odd m = true →
  let C := m * p2 level in rep C ↔ rep (C - 1) ∨ new_pairs C level.
Proof using.
  intros Hm Hodd. cbn zeta. pose proof (p2_pos level) as Hp. split.
  - intros (k & j & Hj & Hle & E). pose proof (p2_pos k).
    destruct (Z.eq_dec ((2 * j + 2) * p2 k) (m * p2 level)) as [Heq|Hne].
    2:{ left. exists k, j. split; [done|]. split; [lia|done]. }
    right. exists k. rewrite <- Heq, mul_p2_div. split.
    + destruct (Nat.lt_ge_cases k level) as [|Hge]; [done|]. exfalso.
      assert (p2 k = p2 (k - level) * p2 level) as Ek.
      { rewrite <- Z.pow_add_r by lia. f_equal. lia. }
      rewrite Ek in Heq. assert (m = 2 * (j + 1) * p2 (k - level)) as -> by nia.
      rewrite !Z.odd_mul in Hodd. done.
    + replace (2 * j + 2 - 2) with (2 * j) by lia. by replace (2 * j + 2 - 1) with (2 * j + 1) by lia.
  - intros [(k & j & Hj & Hle & E)|(k & Hk & E)].
    + exists k, j. split; [done|]. split; [lia|done].
    + assert (p2 level = 2 * p2 (level - k - 1) * p2 k) as El.
      { replace level with (S (level - k - 1) + k)%nat at 1 by lia.
        rewrite Nat2Z.inj_add, Z.pow_add_r, p2_S by lia. done. }
      pose proof (p2_pos (level - k - 1)). pose proof (p2_pos k).
      rewrite El, !Z.mul_assoc, mul_p2_div in E.
      exists k, (m * p2 (level - k - 1) - 1). split; [nia|]. split; [rewrite El; nia|].
      replace (2 * (m * p2 (level - k - 1) - 1)) with (m * 2 * p2 (level - k - 1) - 2) by lia.
      rewrite E. f_equal. lia.
Qed.

(** The end of a leaf's loop: [m] full nodes at [level], [m] odd. *)
Lemma mid_end fBranch pos m level matchh st :
  (level < 32)%nat → 0 < m → Z.odd m = true →
  let C := m * p2 level in
  mid_ok fBranch pos C level matchh st →
  state_ok fBranch pos C (MkM (<[level := N level (m - 1)]> (inner st))
    (if matchh then Z.of_nat level else matchlevel st) (branch st) (mutated st)).
Proof using.
  intros Hlv Hm Hodd. cbn zeta. intros ([Hlen Hi] & Hmut & Hbr). split; [|split].
  - split; cbn [inner]; [by rewrite length_insert|]. intros k Hk Hk1.
    destruct (Nat.lt_trichotomy k level) as [Hlt|[->|Hgt]].
    + by rewrite low_bits_clear in Hk1.
    + rewrite mul_p2_div. apply nth_lookup_Some, list_lookup_insert_eq. lia.
    + rewrite <- (pred_div_high m level k) in Hk1 |- * by done.
      rewrite <- Hi by done. rewrite !nth_lookup, list_lookup_insert_ne by lia. done.
  - cbn [mutated]. rewrite Hmut. symmetry. by apply repeated_step.
  - intros ->. specialize (Hbr eq_refl). unfold branch_ok. cbn [matchlevel branch].
    destruct Hbr as [(-> & Ep & Eb)|[(-> & El & Hpos & Eb)|(-> & L & HL & El & Ho & Ep & Eb)]].
    + right. exists level. split; [done|]. rewrite mul_p2_div in *. auto.
    + left. auto.
    + right. exists L. destruct (decide (L = level)) as [->|Hne].
      { rewrite pred_p2_div, Z.odd_sub, Hodd in Ho. done. }
      rewrite (pred_div_high m level L) in * by (done || lia). auto.
Qed.

Lemma leaf_loop_spec fBranch pos fuel m level matchh st :
  (fuel + level = 32)%nat → 0 < m → m * p2 level ≤ n → n ≤ 2 ^ 31 →
  mid_ok fBranch pos (m * p2 level) level matchh st →
  ∃ st', leaf_loop Hash2 null fBranch fuel (m * p2 level) level (N level (m - 1)) matchh st = Some st' ∧
    state_ok fBranch pos (m * p2 level) st'.
Proof using.
  revert m level matchh st. induction fuel as [|fuel IH]; intros m level matchh st Hf Hm HC Hn Hmid.
  { assert (level = 32%nat) as -> by lia. change (p2 32) with (2 ^ 32) in HC. lia. }
  cbn [leaf_loop]. pose proof (p2_pos level). rewrite bit_odd, mul_p2_div by lia.
  destruct (Z.odd m) eqn:Hodd; cbn [negb].
  - eexists. split; [done|]. by apply mid_end; [lia| | |].
  - pose proof (mid_step fBranch pos m level matchh st ltac:(lia) Hm Hodd HC) as Hstep. cbn zeta in Hstep.
    destruct (push_branch null fBranch level (N level (m - 1)) matchh st) as [matchh' br].
    destruct (Hstep Hmid) as [Ein Hmid']. pose proof (odd_half m) as Hh. rewrite Hodd in Hh.
    assert (m * p2 level = m / 2 * p2 (S level)) as EC by (rewrite p2_S; lia).
    assert (Hash2 (N level (m - 2)) (N level (m - 1)) = N (S level) (m / 2 - 1)) as Eh.
    { pose proof (width_full level m ltac:(lia) HC). rewrite node_pair by nia. f_equal; f_equal; lia. }
    rewrite Ein, Eh in *. rewrite EC in *. apply IH; [lia|lia|done|done|exact Hmid'].
Qed.

(** ** The first loop *)

Lemma mid_start fBranch pos c st :
  0 ≤ c → state_ok fBranch pos c st →
  mid_ok fBranch pos (c + 1) 0 (c =? pos) st.
Proof using.
  intros Hc (Hi & Hmut & Hbr). replace (c + 1) with (c + 1) by lia.
  split; [by replace (c + 1 - 1) with c by lia|]. split.
  - replace (c + 1 - 1) with c by lia. rewrite Hmut. split; [by left|]. intros [?|(k & Hk & _)]; [done|lia].
  - intros ->. specialize (Hbr eq_refl). unfold mid_branch. replace (c + 1 - 1) with c by lia.
    change (p2 0) with 1. rewrite !Z.div_1_r.
    destruct (Z.eqb_spec c pos) as [->|Hne].
    + left. split; [done|]. split; [lia|]. destruct Hbr as [(_ & _ & Eb)|(L & _ & Ho & Ep & _)]; [done|].
      exfalso. lia.
    + right. destruct Hbr as [(El & Hle & Eb)|(L & El & Ho & Ep & Eb)]; [left; split; [done|]; split; [done|]; split; [lia|done]|].
      right. split; [done|]. exists L. split; [lia|]. auto.
Qed.

Lemma leaves_loop_spec fBranch pos ls c st :
  0 ≤ c → ls = drop (Z.to_nat c) leaves → n ≤ 2 ^ 31 → state_ok fBranch pos c st →
  c ≤ n →
  ∃ st', leaves_loop Hash2 null fBranch pos ls c st = Some (n, st') ∧ state_ok fBranch pos n st'.
Proof using.
  intros Hc0 Hls Hn Hst Hcn. revert c st Hc0 Hls Hst Hcn.
  induction ls as [|leaf ls IH]; intros c st Hc0 Hls Hst Hcn; cbn [leaves_loop].
  - apply (f_equal length) in Hls. rewrite length_drop in Hls. simpl in Hls. unfold nleaves in *.
    assert (c = Z.of_nat (length leaves)) as -> by lia. eauto.
  - assert (leaves !! Z.to_nat c = Some leaf) as Hleaf.
    { rewrite <- (Nat.add_0_r (Z.to_nat c)), <- lookup_drop, <- Hls. done. }
    pose proof (lookup_lt_Some _ _ _ Hleaf) as Hlt. unfold nleaves in *.
    rewrite u32_id by (unfold word; lia).
    pose proof (mid_start fBranch pos c st Hc0 Hst) as Hmid.
    pose proof (leaf_loop_spec fBranch pos 32 (c + 1) 0 (c =? pos) st eq_refl ltac:(lia)) as Hl.
    change (p2 0) with 1 in Hl. rewrite !Z.mul_1_r in Hl.
    replace (N 0 (c + 1 - 1)) with leaf in Hl.
    2:{ cbn [node]. replace (c + 1 - 1) with c by lia. symmetry. by apply nth_lookup_Some. }
    destruct Hl as (st1 & -> & Hst1); [unfold nleaves; lia|done|done|]. cbn [mbind option_bind].
    apply IH; [lia| |done|lia].
    rewrite Z2Nat.inj_add by lia. rewrite <- drop_drop, <- Hls. done.
Qed.

(** ** The sweep *)

Lemma low_level_spec fuel m level :
  (fuel + level = 32)%nat → 0 < m → m * p2 level ≤ 2 ^ 31 →
  ∃ m' level', low_level fuel (m * p2 level) level = Some level' ∧ (level' < 32)%nat ∧
    m * p2 level = m' * p2 level' ∧ 0 < m' ∧ Z.odd m' = true.
Proof using.
  revert m level. induction fuel as [|fuel IH]; intros m level Hf Hm HC.
  { assert (level = 32%nat) as -> by lia. change (p2 32) with (2 ^ 32) in HC. lia. }
  cbn [low_level]. pose proof (p2_pos level). rewrite bit_odd, mul_p2_div by lia.
  destruct (Z.odd m) eqn:Hodd; cbn [negb].
  - exists m, level. split; [done|]. split; [lia|done].
  - pose proof (odd_half m) as Hh. rewrite Hodd in Hh.
    assert (m * p2 level = m / 2 * p2 (S level)) as EC by (rewrite p2_S; lia).
    rewrite EC in *. apply IH; [lia|lia|done].
Qed.

(** The branch during the sweep: [h] is the last node of [level]. *)
Definition sweep_branch (pos : Z) (level : nat) (matchh : bool) (st : Mst) : Prop :=
  (matchh = true ∧ pos / p2 level = W level - 1 ∧ branch st = sibs pos level) ∨
  (matchh = false ∧ ∃ L : nat, (level ≤ L)%nat ∧ matchlevel st = Z.of_nat L ∧
     Z.odd (n / p2 L) = true ∧ pos / p2 L = n / p2 L - 1 ∧ branch st = sibs pos L).

(** The state of the sweep: nothing but the branch changes. *)
Definition sweep_ok (fBranch : bool) (pos : Z) (level : nat) (matchh : bool) (mut : bool) (st : Mst) : Prop :=
  inner_ok n st ∧ mutated st = mut ∧ (fBranch = true → sweep_branch pos level matchh st).

(** At a level the leaves do not fill, the last full node precedes the last one. *)
Lemma partial_level level : n < W level * p2 level → n / p2 level = W level - 1.
Proof using.
  intros H. pose proof (width_spec level) as Hw. symmetry.
  apply (Z.div_unique_pos _ _ _ (n - (W level - 1) * p2 level)); lia.
Qed.

(** The sibling of a left node is the one to its right, itself at the edge. *)
Lemma sibling_even pos k j :
  pos / p2 k = j → Z.odd j = false → sib pos k = N k (Z.min (j + 1) (W k - 1)).
Proof using. intros Ej Ho. unfold sibling. by rewrite Ej, Ho. Qed.

Lemma sibling_odd pos k j : pos / p2 k = j → Z.odd j = true → sib pos k = N k (j - 1).
Proof using. intros Ej Ho. unfold sibling. by rewrite Ej, Ho. Qed.

(** Combining with a full subtree on the left, at a level of even width. *)
Lemma up_step fBranch pos level matchh mut st :
  (level < 32)%nat → Z.odd (W level) = false → n < W level * p2 level →
  let h := N level (W level - 1) in
  let '(matchh', br) := push_branch null fBranch level h matchh st in
  sweep_ok fBranch pos level matchh mut st →
  Hash2 (get (inner st) level) h = N (S level) (W (S level) - 1) ∧
  sweep_ok fBranch pos (S level) matchh' mut (MkM (inner st) (matchlevel st) br (mutated st)).
Proof using.
  intros Hlv Hev Hpart. cbn zeta. pose proof (partial_level level Hpart) as Efull.
  pose proof (odd_half (W level)) as Hh. rewrite Hev in Hh. rewrite width_S.
  set (w := W level) in *. assert ((w + 1) / 2 = w / 2) as Ehalf by (symmetry; apply (Z.div_unique_pos _ _ _ 1); lia).
  rewrite Ehalf. assert (Z.odd (w - 1) = true) as Ho1 by (rewrite Z.odd_sub, Hev; done).
  assert (0 < w) as Hw by (pose proof (width_spec level); pose proof (p2_pos level); unfold nleaves in *; nia).
  destruct (push_branch null fBranch level (N level (w - 1)) matchh st) as [matchh' br] eqn:Epb.
  intros ([Hlen Hi] & Hmut & Hbr).
  assert (get (inner st) level = N level (w - 2)) as Ein.
  { rewrite Hi; rewrite ?Efull; [f_equal; lia|lia|done]. }
  split.
  { rewrite Ein, node_pair by (fold w; pose proof (p2_pos level); nia). f_equal; f_equal; lia. }
  split; [done|]. split; [done|]. intros ->. specialize (Hbr eq_refl).
  unfold push_branch in Epb. rewrite Ein in Epb. unfold sweep_branch in *. cbn [matchlevel branch].
  rewrite width_S. fold w in Hbr |- *. rewrite Ehalf.
  destruct Hbr as [(-> & Ep & Eb)|(-> & L & HL & El & Ho & Ep & Eb)].
  - injection Epb as <- <-. left. split; [done|]. rewrite div_p2_S, Ep. split.
    { symmetry. apply (Z.div_unique_pos _ _ _ 1); lia. }
    rewrite siblings_S, Eb, (sibling_odd pos level (w - 1)) by done. do 3 f_equal. lia.
  - rewrite El in Epb. destruct (Z.eqb_spec (Z.of_nat L) (Z.of_nat level)) as [E|Hne].
    + injection Epb as <- <-. apply Nat2Z.inj in E as ->. left. split; [done|]. rewrite Efull in Ep.
      rewrite div_p2_S, Ep. split; [symmetry; apply (Z.div_unique_pos _ _ _ 0); lia|].
      rewrite siblings_S, Eb, (sibling_even pos level (w - 1 - 1)) by (done || (rewrite Z.odd_sub, Ho1; done)).
      fold w. rewrite Z.min_l by lia. do 3 f_equal. lia.
    + injection Epb as <- <-. right. split; [done|]. exists L. split; [lia|]. auto.
Qed.

Lemma up_loop_spec fBranch pos fuel level matchh mut st :
  (fuel + level ≥ 32)%nat → (level ≤ 32)%nat → n ≤ 2 ^ 31 → n < W level * p2 level → W level * p2 level ≤ 2 ^ 31 →
  0 < W level →
  sweep_ok fBranch pos level matchh mut st →
  ∃ level' matchh' st',
    up_loop Hash2 null fBranch fuel (W level * p2 level) level (N level (W level - 1)) matchh st =
      Some (level', N level' (W level' - 1), matchh', st') ∧
    (level ≤ level' < 32)%nat ∧ W level * p2 level = W level' * p2 level' ∧ Z.odd (W level') = true ∧
    (level' = level ∨ 1 < W (level' - 1)) ∧
    sweep_ok fBranch pos level' matchh' mut st'.
Proof using.
  revert level matchh st. induction fuel as [|fuel IH]; intros level matchh st Hf Hlv Hn Hpart Hmax Hw Hok.
  { assert (level = 32%nat) as -> by lia. change (p2 32) with (2 ^ 32) in *. lia. }
  assert (level < 32)%nat as Hlv'.
  { destruct (decide (level = 32%nat)) as [->|]; [|lia]. change (p2 32) with (2 ^ 32) in *. lia. }
  cbn [up_loop]. pose proof (p2_pos level). rewrite bit_odd, mul_p2_div by nia.
  destruct (Z.odd (W level)) eqn:Hodd; cbn [negb].
  - exists level, matchh, st. split; [done|]. split; [lia|]. auto.
  - pose proof (up_step fBranch pos level matchh mut st Hlv' Hodd Hpart) as Hstep. cbn zeta in Hstep.
    destruct (push_branch null fBranch level (N level (W level - 1)) matchh st) as [matchh' br].
    destruct (Hstep Hok) as [Eh Hok']. rewrite Eh.
    pose proof (odd_half (W level)) as Hh. rewrite Hodd in Hh.
    assert (W (S level) = W level / 2) as ES.
    { rewrite width_S. symmetry. apply (Z.div_unique_pos _ _ _ 1); lia. }
    assert (W level * p2 level = W (S level) * p2 (S level)) as EC by (rewrite ES, p2_S; lia).
    destruct (IH (S level) matchh' _ ltac:(lia) ltac:(lia) Hn ltac:(rewrite <- EC; lia) ltac:(rewrite <- EC; lia) ltac:(lia) Hok')
      as (l' & mh & st' & E & Hl & Ew & Ho & Hgt & Hok2).
    exists l', mh, st'. rewrite EC. split; [exact E|]. split; [lia|]. split; [done|]. split; [done|]. split; [|done].
    right. destruct Hgt as [->|Hgt]; [|done]. replace (S level - 1)%nat with level by lia. lia.
Qed.

Lemma width_antitone i j : (i ≤ j)%nat → 0 < n → 1 ≤ W j ≤ W i.
Proof using.
  intros Hij Hn. assert (∀ k, 1 ≤ W k) as H1.
  { intros k. pose proof (width_spec k). pose proof (p2_pos k). nia. }
  split; [done|]. induction Hij as [|j Hij IH]; [done|]. rewrite width_S. specialize (H1 j).
  apply Z.div_le_upper_bound; lia.
Qed.

Lemma is_height_intro level :
  0 < n → W level = 1 → (level = 0%nat ∨ 1 < W (level - 1)) → is_height leaves level.
Proof using.
  intros Hn E Hlow. split; [done|]. intros i Hi. destruct Hlow as [->|Hlow]; [lia|].
  pose proof (width_antitone i (level - 1) ltac:(lia) Hn). lia.
Qed.

(** Combining the last node of an odd level with itself. *)
Lemma dup_step fBranch pos level matchh mut st :
  Z.odd (W level) = true →
  (fBranch = true → matchh = false → matchlevel st ≠ Z.of_nat level) →
  sweep_ok fBranch pos level matchh mut st →
  Hash2 (N level (W level - 1)) (N level (W level - 1)) = N (S level) (W (S level) - 1) ∧
  sweep_ok fBranch pos (S level) matchh mut
    (MkM (inner st) (matchlevel st)
       (if fBranch && matchh then branch st ++ [N level (W level - 1)] else branch st) (mutated st)).
Proof using.
  intros Hodd Hsep (Hi & Hmut & Hbr). pose proof (odd_half (W level)) as Hh. rewrite Hodd in Hh.
  assert (W (S level) - 1 = W level / 2) as ES.
  { rewrite width_S. enough ((W level + 1) / 2 = W level / 2 + 1) by lia.
    symmetry. apply (Z.div_unique_pos _ _ _ 0); lia. }
  split.
  { cbn [node]. rewrite ES. f_equal; f_equal; lia. }
  split; [done|]. split; [done|]. intros ->. specialize (Hbr eq_refl). specialize (Hsep eq_refl).
  unfold sweep_branch in *. cbn [matchlevel branch andb]. rewrite ES.
  destruct Hbr as [(-> & Ep & Eb)|(-> & L & HL & El & Ho & Ep & Eb)].
  - left. split; [done|]. rewrite div_p2_S, Ep. split.
    { symmetry. apply (Z.div_unique_pos _ _ _ 0); lia. }
    rewrite siblings_S, Eb, (sibling_even pos level (W level - 1)) by (done || (rewrite Z.odd_sub, Hodd; done)).
    rewrite Z.min_r by lia. done.
  - right. split; [done|]. exists L. specialize (Hsep eq_refl). rewrite El in Hsep. split; [lia|]. auto.
Qed.

Lemma round_up_bound level :
  n ≤ 2 ^ 31 → 1 < W level → Z.odd (W level) = true → W (S level) * p2 (S level) ≤ 2 ^ 31 ∧ (S level < 32)%nat.
Proof using.
  intros Hn Hw Hodd. pose proof (width_spec level) as Hs. pose proof (p2_pos level).
  assert (3 ≤ W level) by (destruct (Z.eq_dec (W level) 2) as [E|]; [rewrite E in Hodd; done|lia]).
  assert (S level < 31)%nat as Hl.
  { destruct (Nat.lt_ge_cases (S level) 31) as [|Hge]; [done|].
    pose proof (Z.pow_le_mono_r 2 31 (Z.of_nat (S level)) ltac:(lia) ltac:(lia)) as Hp.
    rewrite p2_S in Hp. nia. }
  split; [|lia]. pose proof (width_spec (S level)) as Hs'. pose proof (p2_pos (S level)).
  assert (2 ^ 31 = p2 (31 - S level) * p2 (S level)) as E31.
  { rewrite <- Z.pow_add_r by lia. f_equal. lia. }
  rewrite E31 in *. apply Z.mul_le_mono_nonneg_r; [lia|].
  enough (W (S level) - 1 < p2 (31 - S level)) by lia.
  apply (Z.mul_lt_mono_pos_r (p2 (S level))); lia.
Qed.

Lemma sweep_loop_spec fBranch pos fuel level matchh mut st :
  (fuel + level ≥ 33)%nat → (level < 32)%nat → 0 < n ≤ 2 ^ 31 → 0 ≤ pos →
  Z.odd (W level) = true → (level = 0%nat ∨ 1 < W (level - 1)) →
  (fBranch = true → matchh = false → matchlevel st ≠ Z.of_nat level) →
  sweep_ok fBranch pos level matchh mut st →
  ∃ d st', sweep_loop Hash2 null fBranch fuel (W level * p2 level) level (N level (W level - 1)) matchh st =
      Some (N d 0, st') ∧ is_height leaves d ∧ mutated st' = mut ∧
    (fBranch = true → pos / p2 d = 0 ∧ branch st' = sibs pos d).
Proof using.
  revert level matchh st. induction fuel as [|fuel IH]; intros level matchh st Hf Hlv Hn Hpos Hodd Hlow Hsep Hok; [lia|].
  cbn [sweep_loop]. rewrite u32_p2 by lia. pose proof (p2_pos level) as Hp.
  pose proof (width_antitone level level ltac:(lia) ltac:(lia)) as Hw1.
  destruct (Z.eqb_spec (W level * p2 level) (p2 level)) as [E|Hne]; cbn [negb].
  - assert (W level = 1) as E1 by nia. exists level, st. rewrite E1. split; [done|].
    destruct Hok as (_ & Hmut & Hbr). split; [apply is_height_intro; (done || lia)|]. split; [done|].
    intros Hb. specialize (Hbr Hb) as [(_ & Ep & Eb)|(-> & L & HL & El & Ho & Ep & Eb)]; [split; [rewrite Ep, E1; done|done]|].
    exfalso. assert (n / p2 L ≠ 0) as Hnz by (intros E0; by rewrite E0 in Ho).
    pose proof (width_spec level) as Hs. rewrite E1 in Hs. specialize (Hsep Hb).
    destruct (decide (L = level)) as [->|HLne].
    + by apply Hsep.
    + pose proof (p2_lt level L ltac:(lia)). rewrite Z.div_small in Hnz by lia. done.
  - assert (1 < W level) as Hw by nia.
    destruct (round_up_bound level (proj2 Hn) Hw Hodd) as [Hmax HS].
    destruct (dup_step fBranch pos level matchh mut st Hodd Hsep Hok) as [Eh Hok']. rewrite Eh.
    pose proof (odd_half (W level)) as Hh. rewrite Hodd in Hh.
    assert (W level * p2 level + p2 level = W (S level) * p2 (S level)) as EC.
    { rewrite width_S, p2_S. enough ((W level + 1) / 2 = W level / 2 + 1) as -> by nia.
      symmetry. apply (Z.div_unique_pos _ _ _ 0); lia. }
    rewrite EC, u32_id by (unfold word; pose proof (p2_pos (S level)); pose proof (width_antitone (S level) (S level)); nia).
    pose proof (width_spec level) as Hs.
    assert (0 < W (S level)) as HwS by (pose proof (width_antitone (S level) (S level) ltac:(lia) ltac:(lia)); lia).
    destruct (up_loop_spec fBranch pos 32 (S level) matchh mut _ ltac:(lia) ltac:(lia) (proj2 Hn) ltac:(rewrite <- EC; lia)
      Hmax HwS Hok') as (l' & mh & st' & -> & Hl & Ew & Ho & Hgt & Hok2).
    cbn [mbind option_bind]. rewrite Ew. apply IH; [lia|lia|done|done|done| | |done].
    + right. destruct Hgt as [->|Hgt]; [|done]. by replace (S level - 1)%nat with level by lia.
    + intros Hb Hmh Eml. destruct Hok2 as (_ & _ & Hbr). specialize (Hbr Hb) as [(E & _)|(_ & L & HL & El & HoL & _)]; [congruence|].
      rewrite El in Eml. apply Nat2Z.inj in Eml as ->.
      rewrite partial_level, Z.odd_sub, Ho in HoL by (rewrite <- Ew, <- EC; lia). done.
Qed.

(** ** The whole computation *)

Lemma first_state fBranch pos :
  0 ≤ pos → state_ok fBranch pos 0 (MkM (replicate 32 null) (-1) [] false).
Proof using.
  intros Hpos. split; [|split].
  - split; [done|]. intros k _ Ho. by rewrite Z.div_0_l in Ho by (pose proof (p2_pos k); lia).
  - split; [done|]. intros (k & j & Hj & Hle & _). pose proof (p2_pos k). nia.
  - intros _. left. done.
Qed.

Lemma MerkleComputation_spec fBranch pos :
  0 < n ≤ 2 ^ 31 → 0 ≤ pos → (fBranch = true → pos < n) →
  ∃ d mut br, MerkleComputation Hash2 null leaves fBranch pos = Some (N d 0, mut, br) ∧
    is_height leaves d ∧ (mut = true ↔ rep n) ∧
    (fBranch = true → pos / p2 d = 0 ∧ br = sibs pos d).
Proof using.
  intros Hn Hpos Hlt. unfold MerkleComputation.
  destruct (leaves_loop_spec fBranch pos leaves 0 _ ltac:(lia) eq_refl (proj2 Hn) (first_state fBranch pos Hpos) ltac:(lia))
    as (st & E & (Hi & Hmut & Hbr)).
  assert (leaves ≠ []) as Hne by (intros E0; unfold nleaves in Hn; rewrite E0 in Hn; simpl in Hn; lia).
  destruct leaves as [|l0 ls] eqn:El; [done|]. rewrite <- El in *. clear El l0 ls Hne.
  rewrite E. cbn [mbind option_bind].
  destruct (low_level_spec 32 n 0 eq_refl (proj1 Hn)) as (m & level & E1 & Hlv & Em & Hm & Hodd).
  { change (p2 0) with 1. lia. }
  change (p2 0) with 1 in E1, Em. rewrite Z.mul_1_r in E1, Em. rewrite E1. cbn [mbind option_bind].
  pose proof (p2_pos level) as Hp.
  assert (W level = m) as EW by (apply width_unique; lia).
  assert (get (inner st) level = N level (W level - 1)) as Ein.
  { destruct Hi as [_ Hi]. rewrite Hi; rewrite ?Em, ?mul_p2_div; [by rewrite EW|done|done]. }
  rewrite Ein. replace (sweep_loop Hash2 null fBranch 33 n) with (sweep_loop Hash2 null fBranch 33 (W level * p2 level)) by (f_equal; lia).
  edestruct (sweep_loop_spec fBranch pos 33 level (matchlevel st =? Z.of_nat level) (mutated st) st)
    as (d & st' & E2 & Hd & Hm' & Hb'); [lia|done|done|done|by rewrite EW| | | |].
  - destruct level as [|level]; [by left|]. right. replace (S level - 1)%nat with level by lia.
    enough (W level = 2 * m) by lia. apply width_unique. rewrite Em, p2_S. pose proof (p2_pos level). nia.
  - intros _ Hmh. by apply Z.eqb_neq in Hmh.
  - split; [done|]. split; [done|]. intros ->. specialize (Hbr eq_refl). specialize (Hlt eq_refl).
    destruct Hbr as [(_ & Hle & _)|(L & El & Ho & Ep & Eb)]; [lia|]. unfold sweep_branch. rewrite El.
    destruct (Z.eqb_spec (Z.of_nat L) (Z.of_nat level)) as [EL|HL].
    + left. apply Nat2Z.inj in EL as ->. split; [done|]. split; [|done].
      by rewrite Ep, Em, mul_p2_div, EW.
    + right. split; [done|]. exists L. split; [|done]. destruct (Nat.lt_ge_cases L level) as [HLl|]; [|lia].
      rewrite Em, low_bits_clear in Ho by done. done.
  - rewrite E2. cbn [mbind option_bind]. exists d, (mutated st'), (branch st'). rewrite Hm'. auto.
Qed.

(** Recomputing the root from the siblings. *)
Lemma from_branch_spec pos d :
  0 ≤ pos < n →
  fold_left (λ '(hash, nIndex) it,
      (if negb (nIndex .& 1 =? 0) then Hash2 it hash else Hash2 hash it, nIndex >> 1))
    (sibs pos d) (get leaves (Z.to_nat pos), pos) = (N d (pos / p2 d), pos / p2 d).
Proof using.
  intros Hpos. induction d as [|d IH].
  - simpl. by rewrite Z.div_1_r.
  - rewrite siblings_S, fold_left_app, IH. cbn [fold_left]. set (j := pos / p2 d).
    rewrite div_p2_S. fold j. rewrite Z.shiftr_div_pow2 by lia. change (2 ^ 1) with 2. f_equal.
    change (j .& 1) with (j .& Z.ones 1). rewrite Z.land_ones by lia. change (2 ^ 1) with 2.
    rewrite Zmod_odd. unfold sibling. fold j. pose proof (odd_half j) as Hh. cbn [node].
    assert (j ≤ W d - 1) as Hjw.
    { pose proof (width_spec d). pose proof (p2_pos d).
      enough (j < W d) by lia. apply Z.div_lt_upper_bound; [done|]. lia. }
    destruct (Z.odd j); cbn.
    + rewrite Z.min_l by lia. f_equal; f_equal; lia.
    + f_equal; f_equal; lia.
Qed.
End merkle_proofs.

(** ** The theorems *)

Section merkle_theorems.
Context {A : Type} {eqA : EqDecision A} (Hash2 : A → A → A) (null : A).

(** The constant-space loop computes the Merkle root of the tree by levels
    (a level of odd width repeats its last node) for every nonempty list of at
    most [2^31] leaves, and reports a mutation exactly when two adjacent full
    subtrees are equal, which is how a list with duplicated transactions can
    share the root of a shorter one. *)
Theorem ComputeMerkleRoot_is_tree (leaves : list A)
    (Hn : 0 < nleaves leaves ≤ 2 ^ 31) :
  ∃ d mutated, ComputeMerkleRoot Hash2 null leaves = Some (node Hash2 null leaves d 0, mutated) ∧
    is_height leaves d ∧ (mutated = true ↔ repeated Hash2 null leaves (nleaves leaves)).
Proof.
  destruct (MerkleComputation_spec Hash2 null leaves false (u32 (-1)) Hn) as (d & mut & br & E & Hd & Hm & _); [done|done|].
  exists d, mut. unfold ComputeMerkleRoot. by rewrite E.
Qed.

(** C15: the branch computed for a leaf proves it: recomputing the root from the
    leaf, its branch and its position gives the root of the tree. *)
Theorem merkle_branch_verifies (leaves : list A) (position : Z)
    (Hn : nleaves leaves ≤ 2 ^ 31) (Hpos : 0 ≤ position < nleaves leaves) :
  ∃ br root mutated, ComputeMerkleBranch Hash2 null leaves position = Some br ∧
    ComputeMerkleRoot Hash2 null leaves = Some (root, mutated) ∧
    ComputeMerkleRootFromBranch Hash2 (nth (Z.to_nat position) leaves null) br position = root.
Proof.
  destruct (MerkleComputation_spec Hash2 null leaves true position) as (d & mut & br & E & Hd & _ & Hb); [lia|lia|lia|].
  destruct (MerkleComputation_spec Hash2 null leaves false (u32 (-1))) as (d' & mut' & br' & E' & Hd' & _); [lia|done|done|].
  destruct (Hb eq_refl) as [Ez ->].
  assert (d' = d) as ->.
  { destruct Hd as [W1 L1], Hd' as [W2 L2]. destruct (Nat.lt_trichotomy d d') as [H|[H|H]]; [|done|].
    - by destruct (L2 d H).
    - by destruct (L1 d' H). }
  exists (siblings Hash2 null leaves position d), (node Hash2 null leaves d 0), mut'.
  unfold ComputeMerkleBranch, ComputeMerkleRoot. rewrite E, E'. split; [done|]. split; [done|].
  unfold ComputeMerkleRootFromBranch. rewrite from_branch_spec by done. by rewrite Ez.
Qed.
End merkle_theorems.

Lemma ComputeMerkleRoot_is_tree_witness :
  ∃ d mutated, ComputeMerkleRoot (λ a b, a * 31 + b * 7 + 1) 0 [3; 1; 4; 1; 5; 9; 2] =
    Some (node (λ a b, a * 31 + b * 7 + 1) 0 [3; 1; 4; 1; 5; 9; 2] d 0, mutated).
Proof.
  destruct (ComputeMerkleRoot_is_tree (λ a b, a * 31 + b * 7 + 1) 0 [3; 1; 4; 1; 5; 9; 2]) as (d & m & E & _);
    [vm_compute; split; congruence|].
  exists d, m. exact E.
Defined.

Lemma merkle_branch_verifies_witness :
  ∃ br root mutated, ComputeMerkleBranch (λ a b, a * 31 + b * 7 + 1) 0 [3; 1; 4; 1; 5; 9; 2] 4 = Some br ∧
    ComputeMerkleRoot (λ a b, a * 31 + b * 7 + 1) 0 [3; 1; 4; 1; 5; 9; 2] = Some (root, mutated) ∧
    ComputeMerkleRootFromBranch (λ a b, a * 31 + b * 7 + 1) 5 br 4 = root.
Proof.
  apply (merkle_branch_verifies (λ a b, a * 31 + b * 7 + 1) 0 [3; 1; 4; 1; 5; 9; 2] 4).
  - vm_compute. congruence.
  - vm_compute. split; congruence.
Defined.
