(* ===== verification/Serialize.v ===== *)
(** * Serialisation of integers, vectors and records

    The encodings of [src/src/serialize.h] over the in-memory stream of
    [src/src/streams.h]: fixed-width little-endian integers, the compact sizes
    with their canonicity checks, the variable-length integers with the buffer
    their writer fills backwards, byte vectors and vectors of objects with the
    block-wise loops that read them.

    A stream is modelled twice: [CBaseDataStream] keeps the buffer and the read
    position of the class and [ds_read], [ds_ignore] are its methods; the
    readers work on the list of unread bytes, and [ds_read_refines] relates the
    two.  A reader returns the object and the unread rest, or the exception.

    A type that has [ADD_SERIALIZE_METHODS] is a [Codec], the pair of the two
    actions of [READWRITE].  Two classes say what a client may rely on:
    [RoundTrips] (reading what was written gives the object back and leaves the
    rest of the stream alone) and [Canonical] (the reader accepts nothing but
    what the writer produces). *)

From S2P Require Import Prelude Ints.

Local Open Scope Z_scope.

(** ** Streams *)

Inductive ser_error :=
  | end_of_data | ignore_negative | non_canonical_size | size_too_large.

Inductive Res (A : Type) := Ok (a : A) (rest : list Z) | Throw (e : ser_error).
Arguments Ok {A} _ _.
Arguments Throw {A} _.

(** The buffer of the class; the unread bytes start at [nReadPos]. *)
Record CBaseDataStream := DataStream { vch : list Z; nReadPos : Z }.

Definition unread (s : CBaseDataStream) : list Z := drop (Z.to_nat (nReadPos s)) (vch s).

Definition vch_size (s : CBaseDataStream) : Z := Z.of_nat (length (vch s)).

(** [read]: the position advances at the width of [unsigned int]; a read that
    empties the stream resets it. *)
Definition ds_read (nSize : Z) (s : CBaseDataStream) :
    ser_error + (list Z * CBaseDataStream) :=
  if nSize =? 0 then inr ([], s)
  else
    let nReadPosNext := u32 (nReadPos s + nSize) in
    let pch := take (Z.to_nat nSize) (unread s) in
    if vch_size s <=? nReadPosNext then
      if vch_size s <? nReadPosNext then inl end_of_data
      else inr (pch, DataStream [] 0)
    else inr (pch, DataStream (vch s) nReadPosNext).

Definition ds_ignore (nSize : Z) (s : CBaseDataStream) : ser_error + CBaseDataStream :=
  if nSize <? 0 then inl ignore_negative
  else
    let nReadPosNext := u32 (nReadPos s + nSize) in
    if vch_size s <=? nReadPosNext then
      if vch_size s <? nReadPosNext then inl end_of_data else inr (DataStream [] 0)
    else inr (DataStream (vch s) nReadPosNext).

Definition ds_write (pch : list Z) (s : CBaseDataStream) : CBaseDataStream :=
  DataStream (vch s ++ pch) (nReadPos s).

(** ** Readers on the unread bytes *)

Abbreviation Reader A := (list Z → Res A) (only parsing).

Definition rret {A} (a : A) : Reader A := λ s, Ok a s.

Definition rthrow {A} (e : ser_error) : Reader A := λ _, Throw e.

Definition rbind {A B} (m : Reader A) (f : A → Reader B) : Reader B :=
  λ s, match m s with Ok a s' => f a s' | Throw e => Throw e end.

Notation "x <<- m ;; k" := (rbind m (λ x, k))
  (at level 100, m at next level, k at level 200, right associativity).

Definition sread (nSize : Z) : Reader (list Z) :=
  λ s, if nSize <=? Z.of_nat (length s)
       then Ok (take (Z.to_nat nSize) s) (drop (Z.to_nat nSize) s)
       else Throw end_of_data.

(** [unsigned] and [signed] primitive objects. *)
Definition ser_writedata8 (obj : Z) : list Z := le_enc 1 obj.
Definition ser_writedata16 (obj : Z) : list Z := le_enc 2 obj.
Definition ser_writedata32 (obj : Z) : list Z := le_enc 4 obj.
Definition ser_writedata64 (obj : Z) : list Z := le_enc 8 obj.

Definition ser_readdata8 : Reader Z := b <<- sread 1;; rret (le_dec b).
Definition ser_readdata16 : Reader Z := b <<- sread 2;; rret (le_dec b).
Definition ser_readdata32 : Reader Z := b <<- sread 4;; rret (le_dec b).
Definition ser_readdata64 : Reader Z := b <<- sread 8;; rret (le_dec b).

(** ** Compact sizes *)

Definition MAX_SIZE : Z := 0x02000000.

Definition GetSizeOfCompactSize (nSize : Z) : Z :=
  if nSize <? 253 then 1
  else if nSize <=? 0xFFFF then 1 + 2
  else if nSize <=? 0xFFFFFFFF then 1 + 4
  else 1 + 8.

Definition WriteCompactSize (nSize : Z) : list Z :=
  if nSize <? 253 then ser_writedata8 nSize
  else if nSize <=? 0xFFFF then ser_writedata8 253 ++ ser_writedata16 nSize
  else if nSize <=? 0xFFFFFFFF then ser_writedata8 254 ++ ser_writedata32 nSize
  else ser_writedata8 255 ++ ser_writedata64 nSize.

(** The canonicity check of one of the three long forms. *)
Definition at_least (least : Z) (n : Z) : Reader Z :=
  if n <? least then rthrow non_canonical_size else rret n.

Definition ReadCompactSize : Reader Z :=
  chSize <<- ser_readdata8;;
  nSizeRet <<-
    (if chSize <? 253 then rret chSize
     else if chSize =? 253 then n <<- ser_readdata16;; at_least 253 n
     else if chSize =? 254 then n <<- ser_readdata32;; at_least 0x10000 n
     else n <<- ser_readdata64;; at_least 0x100000000 n);;
  if MAX_SIZE <? nSizeRet then rthrow size_too_large else rret nSizeRet.

(** ** Variable-length integers

    [w] is the width of the unsigned type [I]. *)

Definition varint_buffer (w : Z) : nat := Z.to_nat ((w + 6) / 7).

(** The loop that fills [tmp]; the digits come out last first, and running past
    the end of the array is [None]. *)
Fixpoint varint_fill (room : nat) (len : Z) (n : Z) (tmp : list Z) : option (list Z) :=
  match room with
  | O => None
  | S room =>
      let tmp := (n .& 0x7F) .| (if len =? 0 then 0 else 0x80) :: tmp in
      if n <=? 0x7F then Some tmp else varint_fill room (len + 1) ((n >> 7) - 1) tmp
  end.

Definition WriteVarInt (w : Z) (n : Z) : option (list Z) :=
  varint_fill (varint_buffer w) 0 n [].

Fixpoint GetSizeOfVarInt_loop (fuel : nat) (nRet : Z) (n : Z) : Z :=
  match fuel with
  | O => nRet
  | S fuel =>
      if n <=? 0x7F then nRet + 1 else GetSizeOfVarInt_loop fuel (nRet + 1) ((n >> 7) - 1)
  end.

Definition GetSizeOfVarInt (w : Z) (n : Z) : Z := GetSizeOfVarInt_loop (varint_buffer w) 0 n.

(** The loop of [ReadVarInt] consumes a byte per turn: it ends with the bytes.
    [n] wraps at the width of [I]. *)
Fixpoint ReadVarInt_loop (w : Z) (n : Z) (s : list Z) : Res Z :=
  match s with
  | [] => Throw end_of_data
  | chData :: s =>
      let n := ((n << 7) mod 2 ^ w) .| (chData .& 0x7F) in
      if negb (chData .& 0x80 =? 0) then ReadVarInt_loop w ((n + 1) mod 2 ^ w) s
      else Ok n s
  end.

Definition ReadVarInt (w : Z) : Reader Z := ReadVarInt_loop w 0.

(** ** Codecs *)

Record Codec (A : Type) := MkCodec { Serialize : A → list Z; Unserialize : Reader A }.
Arguments MkCodec {A} _ _.
Arguments Serialize {A} _ _.
Arguments Unserialize {A} _ _.

Class RoundTrips {A} (c : Codec A) (dom : A → Prop) : Prop := {
  rt_bytes x : dom x → Forall byte (Serialize c x);
  rt_read x rest : dom x → Unserialize c (Serialize c x ++ rest) = Ok x rest }.

Class Canonical {A} (c : Codec A) (dom : A → Prop) : Prop := {
  canon_rt :: RoundTrips c dom;
  canon_read bs x rest :
    Forall byte bs → Unserialize c bs = Ok x rest → dom x ∧ bs = Serialize c x ++ rest }.

Definition codec_u32 : Codec Z := MkCodec ser_writedata32 ser_readdata32.

Definition codec_i32 : Codec Z :=
  MkCodec ser_writedata32 (n <<- ser_readdata32;; rret (i32 n)).

Definition codec_i64 : Codec Z :=
  MkCodec ser_writedata64 (n <<- ser_readdata64;; rret (i64 n)).

(** [base_blob<256>]: 32 bytes as they are. *)
Definition codec_uint256 : Codec Z :=
  MkCodec (le_enc 32) (b <<- sread 32;; rret (le_dec b)).

Definition codec_size : Codec Z := MkCodec WriteCompactSize ReadCompactSize.

(** Byte vectors: the size, then the bytes, read in blocks of five million so
    that a bogus size does not allocate. *)
Definition Serialize_bytes (v : list Z) : list Z :=
  WriteCompactSize (Z.of_nat (length v)) ++ v.

Fixpoint read_blocks (fuel : nat) (nSize i : Z) (v : list Z) : Reader (list Z) :=
  if negb (i <? nSize) then rret v
  else match fuel with
  | O => rret v
  | S fuel =>
      let blk := Z.min (nSize - i) (1 + 4999999) in
      b <<- sread blk;; read_blocks fuel nSize (i + blk) (v ++ b)
  end.

Definition Unserialize_bytes : Reader (list Z) :=
  nSize <<- ReadCompactSize;; read_blocks (Z.to_nat nSize) nSize 0 [].

Definition codec_bytes : Codec (list Z) := MkCodec Serialize_bytes Unserialize_bytes.

(** Vectors of objects: the inner loop reads up to [nMid] objects, the outer one
    moves [nMid] by [5000000 / sizeof(T)]. *)
Definition Serialize_vec {A} (c : Codec A) (v : list A) : list Z :=
  WriteCompactSize (Z.of_nat (length v)) ++ concat (map (Serialize c) v).

Fixpoint read_n {A} (c : Codec A) (n : nat) (v : list A) : Reader (list A) :=
  match n with
  | O => rret v
  | S n => x <<- Unserialize c;; read_n c n (v ++ [x])
  end.

Fixpoint read_mids {A} (c : Codec A) (chunk : Z) (fuel : nat) (nSize nMid : Z) (v : list A) :
    Reader (list A) :=
  if negb (nMid <? nSize) then rret v
  else match fuel with
  | O => rret v
  | S fuel =>
      let nMid' := Z.min (nMid + chunk) nSize in
      v <<- read_n c (Z.to_nat (nMid' - nMid)) v;; read_mids c chunk fuel nSize nMid' v
  end.

Definition Unserialize_vec {A} (c : Codec A) (sizeof : Z) : Reader (list A) :=
  nSize <<- ReadCompactSize;; read_mids c (5000000 / sizeof) (Z.to_nat nSize) nSize 0 [].

Definition codec_vec {A} (c : Codec A) (sizeof : Z) : Codec (list A) :=
  MkCodec (Serialize_vec c) (Unserialize_vec c sizeof).

(** Objects in sequence, as [READWRITE] after [READWRITE] and as [std::pair]. *)
Definition codec_pair {A B} (ca : Codec A) (cb : Codec B) : Codec (A * B) :=
  MkCodec (λ p, Serialize ca p.1 ++ Serialize cb p.2)
    (a <<- Unserialize ca;; b <<- Unserialize cb;; rret (a, b)).

(** A structure from the tuple of the members its [SerializationOp] lists. *)
Definition codec_struct {A B} (make : A → B) (members : B → A) (c : Codec A) : Codec B :=
  MkCodec (λ x, Serialize c (members x)) (a <<- Unserialize c;; rret (make a)).

(** ** The stream methods on the unread bytes *)

(** The read position stays within the buffer, and positions fit [unsigned int]. *)
Definition stream_ok (nSize : Z) (s : CBaseDataStream) : Prop :=
  0 ≤ nReadPos s ≤ vch_size s ∧ 0 ≤ nSize ∧ nReadPos s + nSize < 2 ^ 32.

Lemma u32_pos nSize s : stream_ok nSize s → u32 (nReadPos s + nSize) = nReadPos s + nSize.
Proof. intros (? & ? & ?). apply u32_id. unfold word. lia. Qed.

Lemma length_unread s :
  0 ≤ nReadPos s ≤ vch_size s → Z.of_nat (length (unread s)) = vch_size s - nReadPos s.
Proof. unfold unread, vch_size. rewrite length_drop. lia. Qed.

(** A successful move of the position leaves the rest of the unread bytes. *)
Lemma unread_next nSize s :
  stream_ok nSize s → unread (DataStream (vch s) (nReadPos s + nSize)) =
  drop (Z.to_nat nSize) (unread s).
Proof. intros (? & ? & ?). unfold unread. simpl. rewrite drop_drop. f_equal. lia. Qed.

Lemma unread_end nSize s :
  stream_ok nSize s → vch_size s = nReadPos s + nSize → drop (Z.to_nat nSize) (unread s) = [].
Proof.
  intros (? & ? & ?) E. apply drop_ge. pose proof (length_unread s ltac:(done)). lia.
Qed.

Lemma ds_read_unread nSize s :
  stream_ok nSize s →
  match ds_read nSize s with
  | inl e => sread nSize (unread s) = Throw e
  | inr (pch, s') =>
      sread nSize (unread s) = Ok pch (unread s') ∧ 0 ≤ nReadPos s' ≤ vch_size s'
  end.
Proof.
  intros Hok. pose proof Hok as (Hp & Hn & Hw). unfold ds_read.
  destruct (Z.eqb_spec nSize 0) as [->|Hz].
  { split; [|done]. unfold sread. simpl. rewrite (proj2 (Z.leb_le _ _)) by lia. done. }
  rewrite (u32_pos _ _ Hok). unfold sread. rewrite (length_unread s) by done.
  destruct (Z.leb_spec (vch_size s) (nReadPos s + nSize)) as [H1|H1];
    [destruct (Z.ltb_spec (vch_size s) (nReadPos s + nSize)) as [H2|H2]|].
  - by rewrite (proj2 (Z.leb_gt _ _)) by lia.
  - rewrite (proj2 (Z.leb_le _ _)) by lia.
    rewrite (unread_end nSize s) by (done || lia). split; [done|]. unfold vch_size. simpl. lia.
  - rewrite (proj2 (Z.leb_le _ _)) by lia. rewrite (unread_next nSize s) by done.
    split; [done|]. unfold vch_size in *. simpl. lia.
Qed.

Lemma ds_write_unread pch s :
  0 ≤ nReadPos s ≤ vch_size s → unread (ds_write pch s) = unread s ++ pch.
Proof. intros Hp. unfold unread, ds_write, vch_size in *. simpl. rewrite drop_app_le; [done|]. lia. Qed.

(** ** Fixed-width objects *)

Lemma sread_app b rest : sread (Z.of_nat (length b)) (b ++ rest) = Ok b rest.
Proof.
  unfold sread. rewrite (proj2 (Z.leb_le _ _)) by (rewrite length_app; lia).
  by rewrite Nat2Z.id, take_app_length, drop_app_length.
Qed.

Lemma sread_inv n s b rest :
  0 ≤ n → sread n s = Ok b rest → s = b ++ rest ∧ Z.of_nat (length b) = n.
Proof.
  intros Hn. unfold sread. destruct (Z.leb_spec n (Z.of_nat (length s))); [|done].
  intros [= <- <-]. rewrite take_drop, length_take. split; [done|]. lia.
Qed.

(** Reading [k] bytes as a little-endian number. *)
Definition read_le (k : nat) : Reader Z := b <<- sread (Z.of_nat k);; rret (le_dec b).

Lemma read_le_app k v rest :
  word (8 * Z.of_nat k) v → read_le k (le_enc k v ++ rest) = Ok v rest.
Proof.
  intros Hv. unfold read_le, rbind.
  pose proof (sread_app (le_enc k v) rest) as E. rewrite length_le_enc in E. rewrite E.
  unfold rret. by rewrite le_dec_enc, word_mod_id by (done || apply Hv).
Qed.

Lemma read_le_inv k s v rest :
  Forall byte s → read_le k s = Ok v rest →
  word (8 * Z.of_nat k) v ∧ s = le_enc k v ++ rest.
Proof.
  intros Hs. unfold read_le, rbind. destruct (sread (Z.of_nat k) s) as [b r|] eqn:E; [|done].
  intros [= <- <-]. apply sread_inv in E as [-> Hl]; [|lia].
  apply Forall_app in Hs as [Hb _]. assert (length b = k) as <- by lia.
  split; [by apply le_dec_word|]. by rewrite le_enc_dec.
Qed.

#[export] Instance codec_le_canonical k :
  Canonical (MkCodec (le_enc k) (read_le k)) (word (8 * Z.of_nat k)).
Proof.
  split; [split|]; simpl; intros.
  - apply le_enc_bytes.
  - by apply read_le_app.
  - by apply read_le_inv.
Qed.

#[export] Instance codec_u32_canonical : Canonical codec_u32 (word 32) := codec_le_canonical 4.

#[export] Instance codec_uint256_canonical : Canonical codec_uint256 (word 256) :=
  codec_le_canonical 32.

(** Signed objects: the bytes of the two's complement. *)
Definition signed (w x : Z) : Prop := - 2 ^ (w - 1) ≤ x < 2 ^ (w - 1).

(** Reading [w = 8k] bits as a signed number through [conv], the conversion. *)
Lemma codec_signed_canonical (k : nat) (conv : Z → Z) :
  (0 < k)%nat →
  (∀ x, conv x = (x + 2 ^ (8 * Z.of_nat k - 1)) mod 2 ^ (8 * Z.of_nat k) - 2 ^ (8 * Z.of_nat k - 1)) →
  Canonical (MkCodec (le_enc k) (n <<- read_le k;; rret (conv n))) (signed (8 * Z.of_nat k)).
Proof.
  intros Hk Hc. set (w := 8 * Z.of_nat k) in *.
  assert (2 ^ w = 2 * 2 ^ (w - 1)) as Hpow.
  { rewrite <- (Z.pow_1_r 2) at 2. rewrite <- Z.pow_add_r by lia. f_equal. lia. }
  assert (0 < 2 ^ (w - 1)) as Hpos by (apply Z.pow_pos_nonneg; lia).
  split; [split|]; simpl.
  - intros. apply le_enc_bytes.
  - intros x rest Hx. rewrite <- (le_enc_mod k x). fold w. unfold rbind.
    rewrite read_le_app by (apply word_mod; lia). unfold rret. f_equal. rewrite Hc.
    rewrite Zplus_mod_idemp_l, Z.mod_small; unfold signed in Hx; lia.
  - intros bs x rest Hbs. unfold rbind. destruct (read_le k bs) as [n r|] eqn:E; [|done].
    intros [= <- <-]. apply read_le_inv in E as [Hn ->]; [|done]. rewrite Hc.
    pose proof (Z.mod_pos_bound (n + 2 ^ (w - 1)) (2 ^ w) ltac:(lia)).
    split; [unfold signed; lia|]. f_equal.
    rewrite <- (le_enc_mod k n), <- (le_enc_mod k (_ - _)). fold w. f_equal.
    rewrite Zminus_mod_idemp_l. f_equal. lia.
Qed.

#[export] Instance codec_i32_canonical : Canonical codec_i32 (signed 32).
Proof. apply (codec_signed_canonical 4); [lia|]. intros. unfold i32. by rewrite u32_mod. Qed.

#[export] Instance codec_i64_canonical : Canonical codec_i64 (signed 64).
Proof. apply (codec_signed_canonical 8); [lia|]. intros. unfold i64. by rewrite u64_mod. Qed.

(** ** Compact sizes: canonical, and exactly the sizes up to [MAX_SIZE] *)

Definition size_ok (n : Z) : Prop := 0 ≤ n ≤ MAX_SIZE.

Lemma read8_app v rest : byte v → ser_readdata8 (ser_writedata8 v ++ rest) = Ok v rest.
Proof. apply (read_le_app 1). Qed.

Lemma ReadCompactSize_head b :
  byte b → ∀ rest, ReadCompactSize (ser_writedata8 b ++ rest) =
  (nSizeRet <<-
    (if b <? 253 then rret b
     else if b =? 253 then rbind (read_le 2) (at_least 253)
     else if b =? 254 then rbind (read_le 4) (at_least 0x10000)
     else rbind (read_le 8) (at_least 0x100000000));;
   if MAX_SIZE <? nSizeRet then rthrow size_too_large else rret nSizeRet) rest.
Proof. intros Hb rest. unfold ReadCompactSize at 1. unfold rbind at 1. by rewrite read8_app. Qed.

Lemma at_least_ok least n rest : least ≤ n → at_least least n rest = Ok n rest.
Proof. intros H. unfold at_least. by rewrite (proj2 (Z.ltb_ge _ _)) by lia. Qed.

Lemma at_least_inv least n s x rest :
  at_least least n s = Ok x rest → x = n ∧ rest = s ∧ least ≤ n.
Proof. unfold at_least. destruct (Z.ltb_spec n least); [done|]. intros [= -> ->]. auto with lia. Qed.

Lemma WriteCompactSize_bytes n : Forall byte (WriteCompactSize n).
Proof.
  unfold WriteCompactSize. repeat case_match; rewrite ?Forall_app;
    repeat split; apply le_enc_bytes.
Qed.

Lemma compact_write_read n rest :
  size_ok n → ReadCompactSize (WriteCompactSize n ++ rest) = Ok n rest.
Proof.
  unfold size_ok, MAX_SIZE. intros Hn. unfold WriteCompactSize.
  destruct (Z.ltb_spec n 253) as [H1|H1]; [|destruct (Z.leb_spec n 0xFFFF) as [H2|H2];
    [|rewrite (proj2 (Z.leb_le n 0xFFFFFFFF)) by lia]].
  - rewrite ReadCompactSize_head by (split; simpl; lia).
    rewrite (proj2 (Z.ltb_lt _ _)) by lia. unfold rbind, rret at 1, MAX_SIZE.
    by rewrite (proj2 (Z.ltb_ge _ _)) by lia.
  - rewrite <- app_assoc, ReadCompactSize_head by (split; simpl; lia).
    cbn [Z.ltb Z.eqb Z.compare Pos.compare Pos.compare_cont Pos.eqb]. unfold rbind.
    rewrite (read_le_app 2) by (unfold word; simpl; lia).
    rewrite at_least_ok by done. unfold MAX_SIZE. by rewrite (proj2 (Z.ltb_ge _ _)) by lia.
  - rewrite <- app_assoc, ReadCompactSize_head by (split; simpl; lia).
    cbn [Z.ltb Z.eqb Z.compare Pos.compare Pos.compare_cont Pos.eqb]. unfold rbind.
    rewrite (read_le_app 4) by (unfold word; simpl; lia).
    rewrite at_least_ok by lia. unfold MAX_SIZE. by rewrite (proj2 (Z.ltb_ge _ _)) by lia.
Qed.

(** One long form: [k] bytes hold a number of at least [least]. *)
Lemma long_form_inv k least s x rest :
  Forall byte s → rbind (read_le k) (at_least least) s = Ok x rest →
  s = le_enc k x ++ rest ∧ least ≤ x ∧ word (8 * Z.of_nat k) x.
Proof.
  intros Hs. unfold rbind. destruct (read_le k s) as [n r|] eqn:E; [|done].
  intros (-> & -> & ?)%at_least_inv. apply read_le_inv in E as [? ->]; auto.
Qed.

Lemma compact_read_inv s n rest :
  Forall byte s → ReadCompactSize s = Ok n rest →
  size_ok n ∧ s = WriteCompactSize n ++ rest.
Proof.
  intros Hs H.
  assert (∃ b s', byte b ∧ s = ser_writedata8 b ++ s') as (b & s' & Hb & ->).
  { unfold ReadCompactSize, rbind in H. destruct (ser_readdata8 s) as [b r|] eqn:E; [|done].
    apply (read_le_inv 1) in E as [? ->]; [|done]. eauto. }
  rewrite ReadCompactSize_head in H by done. apply Forall_app in Hs as [_ Hs].
  unfold rbind at 1 in H.
  match type of H with match ?e with _ => _ end = _ => destruct e as [m r|] eqn:E end; [|done].
  destruct (Z.ltb_spec MAX_SIZE m) as [|Hmax]; [done|]. injection H as -> ->.
  unfold size_ok, MAX_SIZE, word in *. unfold WriteCompactSize.
  destruct (Z.ltb_spec b 253) as [H1|H1].
  { injection E as -> ->. simpl in Hb. rewrite (proj2 (Z.ltb_lt _ _)) by lia. split; [lia|done]. }
  destruct (Z.eqb_spec b 253) as [->|]; [|destruct (Z.eqb_spec b 254) as [->|]].
  - apply (long_form_inv 2) in E as (-> & ? & ?); [|done]. unfold word in *. simpl in *.
    rewrite (proj2 (Z.ltb_ge _ _)), (proj2 (Z.leb_le _ _)) by lia. split; [lia|done].
  - apply (long_form_inv 4) in E as (-> & ? & ?); [|done]. unfold word in *. simpl in *.
    rewrite (proj2 (Z.ltb_ge _ _)), (proj2 (Z.leb_gt n 0xFFFF)), (proj2 (Z.leb_le _ _)) by lia.
    split; [lia|done].
  - apply (long_form_inv 8) in E as (-> & ? & ?); [|done]. lia.
Qed.

#[export] Instance codec_size_canonical : Canonical codec_size size_ok.
Proof.
  split; [split|]; simpl; intros.
  - apply WriteCompactSize_bytes.
  - by apply compact_write_read.
  - by apply compact_read_inv.
Qed.

Lemma length_WriteCompactSize n :
  Z.of_nat (length (WriteCompactSize n)) = GetSizeOfCompactSize n.
Proof. unfold WriteCompactSize, GetSizeOfCompactSize. by repeat case_match. Qed.

(** ** Variable-length integers *)

(** The digits of [n], first byte first, before the bytes [tail]. *)
Lemma varint_step n : 0x7F < n → 0 ≤ (n >> 7) - 1 ∧ ((n >> 7) - 1) * 128 + 128 ≤ n.
Proof. intros H. rewrite Z.shiftr_div_pow2 by lia. change (2 ^ 7) with 128.
  pose proof (Z.div_mod n 128). pose proof (Z.mod_pos_bound n 128). lia. Qed.

Lemma varint_room_step room n :
  0x7F < n → n < 128 ^ Z.of_nat (S room) → (n >> 7) - 1 < 128 ^ Z.of_nat room.
Proof.
  intros H Hn. rewrite Nat2Z.inj_succ, Z.pow_succ_r in Hn by lia.
  rewrite Z.shiftr_div_pow2 by lia. change (2 ^ 7) with 128.
  pose proof (Z.div_mod n 128). pose proof (Z.mod_pos_bound n 128). lia.
Qed.

Lemma varint_fill_some room len n tmp :
  0 ≤ n < 128 ^ Z.of_nat (S room) → is_Some (varint_fill (S room) len n tmp).
Proof.
  revert len n tmp. induction room as [|room IH]; intros len n tmp Hn; cbn [varint_fill];
    (destruct (Z.leb_spec n 0x7F); [eauto|]); [simpl in *; lia|].
  apply IH. pose proof (varint_step n ltac:(lia)). split; [lia|].
  apply varint_room_step; [done|lia].
Qed.

Lemma varint_buffer_enough w : 0 < w → 2 ^ w ≤ 128 ^ Z.of_nat (varint_buffer w).
Proof.
  intros Hw. unfold varint_buffer. assert (0 ≤ (w + 6) / 7) by (apply Z.div_pos; lia).
  rewrite Z2Nat.id by done. change 128 with (2 ^ 7). rewrite <- Z.pow_mul_r by lia.
  apply Z.pow_le_mono_r; [lia|].
  pose proof (Z.div_mod (w + 6) 7). pose proof (Z.mod_pos_bound (w + 6) 7). lia.
Qed.

(** The low seven bits and the continuation bit of a byte written. *)
Lemma digit_bits n (c : bool) :
  let b := (n .& 0x7F) .| (if c then 0 else 0x80) in
  byte b ∧ b .& 0x7F = n .& 0x7F ∧ (b .& 0x80 =? 0) = c.
Proof.
  simpl. assert (word 7 (n .& 0x7F)) as Hd by (apply word_land_r; [lia|split; simpl; lia]).
  assert (∀ i, 7 ≤ i → Z.testbit (n .& 0x7F) i = false) as Hh by (by intros; apply (word_testbit_high 7)).
  assert (∀ y, (n .& 0x7F .| y) .& 0x7F = n .& (0x7F) .| (y .& 0x7F)) as Hlow.
  { intros. rewrite Z.land_lor_distr_l, <- Z.land_assoc. done. }
  assert (∀ y, (n .& 0x7F .| y) .& 0x80 = y .& 0x80) as Hhigh.
  { intros. rewrite Z.land_lor_distr_l, <- Z.land_assoc. change (0x7F .& 0x80) with 0.
    by rewrite Z.land_0_r, Z.lor_0_l. }
  destruct c; rewrite ?Hlow, ?Hhigh; simpl; rewrite ?Z.lor_0_r; (split; [|done]).
  - by apply (word_weaken 7).
  - apply word_lor; [lia|by apply (word_weaken 7)|split; simpl; lia].
Qed.

Lemma varint_acc w m n :
  0 < w → 0 ≤ m → m * 128 + n mod 128 < 2 ^ w →
  ((m << 7) mod 2 ^ w) .| (n .& 0x7F) = m * 128 + n mod 128.
Proof.
  intros Hw Hm H. change (n .& 0x7F) with (n .& Z.ones 7). rewrite Z.land_ones by lia.
  change (2 ^ 7) with 128. pose proof (Z.mod_pos_bound n 128 ltac:(lia)).
  rewrite Z.mod_small by (rewrite Z.shiftl_mul_pow2 by lia; change (2 ^ 7) with 128; lia).
  rewrite lor_shiftl_add; [change (2 ^ 7) with 128; lia|lia|split; simpl; lia].
Qed.

(** The bytes written for [n] before the digits [tail]: the reader, started at
    zero, arrives at [tail] with [n], or with [n + 1] when digits follow. *)
Lemma varint_fill_read w room n len tail out :
  0 < w → 0 ≤ n < 2 ^ w → 0 ≤ len → varint_fill room len n tail = Some out →
  ∀ rest, ReadVarInt_loop w 0 (out ++ rest) =
    if len =? 0 then Ok n (tail ++ rest)
    else ReadVarInt_loop w ((n + 1) mod 2 ^ w) (tail ++ rest).
Proof.
  intros Hw. revert n len tail. induction room as [|room IH]; intros n len tail Hn Hlen; [done|].
  cbn [varint_fill]. destruct (digit_bits n (len =? 0)) as (_ & Hlow & Hcont).
  set (b := (n .& 0x7F) .| _) in *. clearbody b.
  assert (∀ m rest, 0 ≤ m → m * 128 + n mod 128 = n → ReadVarInt_loop w m (b :: tail ++ rest) =
    if len =? 0 then Ok n (tail ++ rest)
    else ReadVarInt_loop w ((n + 1) mod 2 ^ w) (tail ++ rest)) as Hstep.
  { intros m rest Hm E. cbn [ReadVarInt_loop]. rewrite Hlow, varint_acc, E, Hcont by lia.
    by destruct (len =? 0). }
  destruct (Z.leb_spec n 0x7F) as [Hsmall|Hbig].
  - intros [= <-] rest. apply Hstep; [done|]. rewrite Z.mod_small; lia.
  - intros E rest. pose proof (varint_step n Hbig) as [Hge Hle].
    apply (IH _ (len + 1)) with (rest := rest) in E; [|lia..]. rewrite E.
    rewrite (proj2 (Z.eqb_neq _ _)) by lia.
    rewrite Z.mod_small by lia. rewrite Z.sub_add. apply Hstep; [lia|].
    rewrite Z.shiftr_div_pow2 by lia. change (2 ^ 7) with 128.
  pose proof (Z.div_mod n 128). pose proof (Z.mod_pos_bound n 128). lia.
Qed.

Lemma varint_fill_bytes room len n tail out :
  varint_fill room len n tail = Some out → Forall byte tail → Forall byte out.
Proof.
  revert len n tail. induction room as [|room IH]; intros len n tail; [done|].
  cbn [varint_fill]. destruct (digit_bits n (len =? 0)) as (Hb & _ & _).
  set (b := (n .& 0x7F) .| _) in *. clearbody b.
  destruct (n <=? 0x7F); intros E Ht; [injection E as <-|apply (IH _ _ _ E)]; by constructor.
Qed.

Lemma varint_fill_length room len n tail out :
  varint_fill room len n tail = Some out → ∀ r,
  GetSizeOfVarInt_loop room r n = r + (Z.of_nat (length out) - Z.of_nat (length tail)).
Proof.
  revert len n tail. induction room as [|room IH]; intros len n tail; [done|].
  cbn [varint_fill GetSizeOfVarInt_loop]. destruct (n <=? 0x7F).
  - intros [= <-] r. simpl. lia.
  - intros E r. rewrite (IH _ _ _ E). simpl. lia.
Qed.

Lemma varint_fill_room room len n tail out :
  varint_fill room len n tail = Some out → (length out ≤ room + length tail)%nat.
Proof.
  revert len n tail. induction room as [|room IH]; intros len n tail; [done|].
  cbn [varint_fill]. destruct (n <=? 0x7F).
  - intros [= <-]. simpl. lia.
  - intros E%IH. simpl in E. lia.
Qed.

Lemma WriteVarInt_some w n : 0 < w → word w n → is_Some (WriteVarInt w n).
Proof.
  intros Hw [? ?]. unfold WriteVarInt. pose proof (varint_buffer_enough w Hw).
  destruct (varint_buffer w) as [|room] eqn:E; [|apply varint_fill_some; lia].
  pose proof (Z.pow_gt_1 2 w). simpl in *. lia.
Qed.

(** Reading back, for clients that write with a default. *)
Lemma varint_back w n rest :
  0 < w → word w n → ReadVarInt w (default [] (WriteVarInt w n) ++ rest) = Ok n rest.
Proof.
  intros Hw Hn. destruct (WriteVarInt_some w n Hw Hn) as [out E]. rewrite E. simpl.
  unfold ReadVarInt. by rewrite (varint_fill_read _ _ _ _ _ _ Hw Hn (Z.le_refl 0) E rest).
Qed.

(** For every unsigned type of at least one bit, [WriteVarInt] stays within
    its [(8 * sizeof(n) + 6) / 7]-byte buffer for every value of the type, the
    bytes it writes are read back by [ReadVarInt] as the same value with the
    rest of the stream untouched, and their number is what [GetSizeOfVarInt]
    announces. *)
Theorem varint_roundtrip w n rest :
  0 < w → word w n →
  ∃ out, WriteVarInt w n = Some out ∧ Forall byte out ∧
    ReadVarInt w (out ++ rest) = Ok n rest ∧
    Z.of_nat (length out) = GetSizeOfVarInt w n ∧ (length out ≤ varint_buffer w)%nat.
Proof.
  intros Hw Hn. destruct (WriteVarInt_some w n) as [out E]; [done..|].
  exists out. split; [done|]. unfold WriteVarInt in E. repeat split.
  - by apply varint_fill_bytes in E.
  - pose proof (varint_back w n rest Hw Hn) as Hb. unfold WriteVarInt in Hb. by rewrite E in Hb.
  - unfold GetSizeOfVarInt. rewrite (varint_fill_length _ _ _ _ _ E). simpl. lia.
  - apply varint_fill_room in E. simpl in E. lia.
Qed.

Lemma varint_roundtrip_witness :
  ∃ out, WriteVarInt 64 (2 ^ 64 - 1) = Some out ∧ Forall byte out ∧
    ReadVarInt 64 (out ++ [7]) = Ok (2 ^ 64 - 1) [7] ∧
    Z.of_nat (length out) = GetSizeOfVarInt 64 (2 ^ 64 - 1) ∧ (length out ≤ varint_buffer 64)%nat.
Proof. apply (varint_roundtrip 64 (2 ^ 64 - 1) [7]); [lia|unfold word; lia]. Defined.

(** The reader does not check for overflow: a 32-bit value also has encodings
    whose leading digits are shifted out. *)
Example varint_read_wraps :
  ∃ out, WriteVarInt 32 270549120 = Some out ∧ out ≠ [0x80; 0x80; 0x80; 0x80; 0x80; 0x00] ∧
    ReadVarInt 32 out = ReadVarInt 32 [0x80; 0x80; 0x80; 0x80; 0x80; 0x00].
Proof. eexists. by vm_compute. Qed.

(** Encodings of the table in the comment above [GetSizeOfVarInt]; the table
    gives [[0x80 0xFF 0x7F]] and [[0x82 0xFD 0x7F]] for the last two. *)
Example varint_table :
  map (WriteVarInt 64) [0; 127; 128; 255; 256; 16383; 16384; 2 ^ 32; 16511; 65535] =
  map Some [[0x00]; [0x7F]; [0x80; 0x00]; [0x80; 0x7F]; [0x81; 0x00]; [0xFE; 0x7F];
            [0xFF; 0x00]; [0x8E; 0xFE; 0xFE; 0xFF; 0x00]; [0xFF; 0x7F]; [0x82; 0xFE; 0x7F]].
Proof. by vm_compute. Qed.

(** ** Vectors *)

Lemma sread_add a b s :
  0 ≤ a → 0 ≤ b →
  sread (a + b) s = (b1 <<- sread a;; b2 <<- sread b;; rret (b1 ++ b2)) s.
Proof.
  intros Ha Hb. unfold rbind, sread, rret.
  destruct (Z.leb_spec a (Z.of_nat (length s))) as [H1|H1];
    [|by rewrite (proj2 (Z.leb_gt _ _)) by lia].
  rewrite length_drop. destruct (Z.leb_spec b (Z.of_nat (length s - Z.to_nat a))) as [H2|H2].
  - rewrite (proj2 (Z.leb_le _ _)) by lia.
    rewrite Z2Nat.inj_add, drop_drop by done. f_equal.
    rewrite <- (take_drop (Z.to_nat a) (take (Z.to_nat a + Z.to_nat b) s)).
    rewrite take_take, Nat.min_l by lia. f_equal. by rewrite skipn_firstn_comm, Nat.add_comm, Nat.add_sub.
  - by rewrite (proj2 (Z.leb_gt _ _)) by lia.
Qed.

Lemma read_blocks_sread fuel nSize i v s :
  0 ≤ i ≤ nSize → (Z.to_nat (nSize - i) ≤ fuel)%nat →
  read_blocks fuel nSize i v s = (b <<- sread (nSize - i);; rret (v ++ b)) s.
Proof.
  revert i v s. induction fuel as [|fuel IH]; intros i v s Hi Hf; cbn [read_blocks];
    destruct (Z.ltb_spec i nSize) as [H|H]; simpl; try lia.
  1, 3: replace (nSize - i) with 0 by lia; unfold rbind, sread, rret; simpl;
    rewrite (proj2 (Z.leb_le _ _)), app_nil_r by lia; done.
  set (blk := Z.min _ _). replace (nSize - i) with (blk + (nSize - (i + blk))) by lia.
  unfold rbind at 1 2. rewrite sread_add by lia. unfold rbind at 1.
  destruct (sread blk s) as [b r|]; [|done]. rewrite IH by lia. unfold rbind, rret.
  destruct (sread _ r); [|done]. by rewrite app_assoc.
Qed.

Definition vec_ok {A} (dom : A → Prop) (v : list A) : Prop :=
  Z.of_nat (length v) ≤ MAX_SIZE ∧ Forall dom v.

#[export] Instance codec_bytes_canonical : Canonical codec_bytes (vec_ok byte).
Proof.
  split; [split|]; simpl; unfold Serialize_bytes, Unserialize_bytes.
  - intros v [_ Hv]. apply Forall_app. split; [apply WriteCompactSize_bytes|done].
  - intros v rest [Hl Hv]. rewrite <- app_assoc. unfold rbind.
    rewrite compact_write_read by (unfold size_ok; lia).
    rewrite read_blocks_sread by lia. unfold rbind. by rewrite Z.sub_0_r, sread_app.
  - intros bs v rest Hbs. unfold rbind. destruct (ReadCompactSize bs) as [n s|] eqn:E; [|done].
    apply compact_read_inv in E as [Hn ->]; [|done]. apply Forall_app in Hbs as [_ Hs].
    unfold size_ok in Hn. rewrite read_blocks_sread by lia. unfold rbind, rret.
    destruct (sread _ s) as [b r|] eqn:E; [|done]. intros [= <- <-].
    apply sread_inv in E as [-> Hb]; [|lia]. apply Forall_app in Hs as [Hs _].
    split; [split; [lia|done]|]. rewrite <- app_assoc. do 2 f_equal. lia.
Qed.

Section Vec.
  Context {A : Type} (c : Codec A) (dom : A → Prop).

Lemma read_n_add a b v s :
  read_n c (a + b) v s = (v <<- read_n c a v;; read_n c b v) s.
Proof using Type.
  revert v s. induction a as [|a IH]; intros v s; [done|]. simpl. unfold rbind in *.
  destruct (Unserialize c s); [apply IH|done].
Qed.

(** The two nested loops read the announced number of objects. *)
Lemma read_mids_read_n chunk fuel nSize nMid v s :
  0 < chunk → 0 ≤ nMid ≤ nSize → (Z.to_nat (nSize - nMid) ≤ fuel)%nat →
  read_mids c chunk fuel nSize nMid v s = read_n c (Z.to_nat (nSize - nMid)) v s.
Proof using Type.
  intros Hc. revert nMid v s. induction fuel as [|fuel IH]; intros nMid v s Hi Hf; cbn [read_mids];
    destruct (Z.ltb_spec nMid nSize) as [H|H]; simpl; try lia.
  1, 3: by replace (nSize - nMid) with 0 by lia.
  set (nMid' := Z.min _ _).
  replace (Z.to_nat (nSize - nMid)) with (Z.to_nat (nMid' - nMid) + Z.to_nat (nSize - nMid'))%nat by lia.
  rewrite read_n_add. unfold rbind. destruct (read_n c _ v s); [|done]. apply IH; lia.
Qed.

Lemma read_n_app `{!RoundTrips c dom} l v rest :
  Forall dom l → read_n c (length l) v (concat (map (Serialize c) l) ++ rest) = Ok (v ++ l) rest.
Proof using Type.
  intros Hl. revert v. induction Hl as [|x l Hx _ IH]; intros v; simpl; [by rewrite app_nil_r|].
  rewrite <- app_assoc. unfold rbind. rewrite rt_read by done. rewrite IH.
  by rewrite <- app_assoc.
Qed.

Lemma read_n_inv `{!Canonical c dom} n v s v' rest :
  Forall byte s → read_n c n v s = Ok v' rest →
  ∃ l, v' = v ++ l ∧ length l = n ∧ Forall dom l ∧ s = concat (map (Serialize c) l) ++ rest.
Proof using Type.
  revert v s. induction n as [|n IH]; intros v s Hs; simpl.
  { intros [= <- <-]. exists []. by rewrite app_nil_r. }
  unfold rbind. destruct (Unserialize c s) as [x s'|] eqn:E; [|done].
  apply canon_read in E as [Hx ->]; [|done]. apply Forall_app in Hs as [_ Hs].
  intros (l & -> & <- & Hl & ->)%IH; [|done]. exists (x :: l).
  rewrite <- !app_assoc. simpl. rewrite <- app_assoc. auto.
Qed.

Context (sizeof : Z) (Hsize : 0 < sizeof ≤ 5000000).

Lemma Unserialize_vec_read_n s :
  Unserialize_vec c sizeof s =
  match ReadCompactSize s with
  | Ok n s => if 0 <=? n then read_n c (Z.to_nat n) [] s else Ok [] s
  | Throw e => Throw e
  end.
Proof using Hsize.
  unfold Unserialize_vec, rbind. destruct (ReadCompactSize s) as [n r|]; [|done].
  assert (0 < 5000000 / sizeof) by (apply Z.div_str_pos; lia).
  destruct (Z.leb_spec 0 n).
  - rewrite read_mids_read_n by lia. by rewrite Z.sub_0_r.
  - rewrite Z2Nat.nonpos by lia. simpl. by rewrite (proj2 (Z.ltb_ge _ _)) by lia.
Qed.

Lemma codec_vec_canonical `{!Canonical c dom} : Canonical (codec_vec c sizeof) (vec_ok dom).
Proof using Hsize.
  split; [split|]; simpl; unfold Serialize_vec.
  - intros v [_ Hv]. apply Forall_app. split; [apply WriteCompactSize_bytes|].
    induction Hv; simpl; [done|]. apply Forall_app. split; [by eapply rt_bytes|done].
  - intros v rest [Hl Hv]. rewrite Unserialize_vec_read_n, <- app_assoc.
    rewrite compact_write_read by (unfold size_ok; lia).
    rewrite (proj2 (Z.leb_le _ _)), Nat2Z.id by lia. by rewrite read_n_app.
  - intros bs v rest Hbs. rewrite Unserialize_vec_read_n.
    destruct (ReadCompactSize bs) as [n s|] eqn:E; [|done].
    apply compact_read_inv in E as [[Hn ?] ->]; [|done]. apply Forall_app in Hbs as [_ Hs].
    rewrite (proj2 (Z.leb_le _ _)) by lia.
    intros (l & -> & Hlen & Hl & ->)%read_n_inv; [|done]. rewrite app_nil_l.
    split; [split; [lia|done]|]. rewrite <- app_assoc. do 2 f_equal. lia.
Qed.
End Vec.

(** ** Sequences and structures *)

Lemma codec_pair_canonical {A B} (ca : Codec A) (cb : Codec B) da db
    `{!Canonical ca da} `{!Canonical cb db} :
  Canonical (codec_pair ca cb) (λ p, da p.1 ∧ db p.2).
Proof.
  split; [split|]; unfold codec_pair; cbn [Serialize Unserialize].
  - intros x [? ?]. apply Forall_app. split; by eapply rt_bytes.
  - intros [a b] rest [? ?]. simpl in *. rewrite <- app_assoc. unfold rbind.
    by rewrite !rt_read.
  - intros bs x rest Hbs. unfold rbind. destruct (Unserialize ca bs) as [a s|] eqn:Ea; [|done].
    apply canon_read in Ea as [? ->]; [|done]. apply Forall_app in Hbs as [_ Hs].
    destruct (Unserialize cb s) as [b r|] eqn:Eb; [|done].
    apply canon_read in Eb as [? ->]; [|done]. intros [= <- <-].
    by rewrite <- app_assoc.
Qed.

(** The members not serialised get the value of [make]: [x = make (members x)]. *)
Lemma codec_struct_canonical {A B} (make : A → B) (members : B → A) (c : Codec A) da
    `{!Canonical c da} :
  (∀ a, members (make a) = a) →
  Canonical (codec_struct make members c) (λ x, da (members x) ∧ make (members x) = x).
Proof.
  intros Hm. split; [split|]; unfold codec_struct; cbn [Serialize Unserialize].
  - intros x [? _]. by eapply rt_bytes.
  - intros x rest [? E]. unfold rbind. rewrite rt_read by done. unfold rret. by rewrite E.
  - intros bs x rest Hbs. unfold rbind. destruct (Unserialize c bs) as [a s|] eqn:Ea; [|done].
    apply canon_read in Ea as [? ->]; [|done]. intros [= <- <-]. by rewrite Hm.
Qed.

(** A codec that serves a domain serves any equivalent description of it. *)
Lemma canonical_iff {A} (c : Codec A) (d d' : A → Prop) `{!Canonical c d} :
  (∀ x, d x ↔ d' x) → Canonical c d'.
Proof.
  intros E. split; [split|].
  - intros x ?%E. by eapply rt_bytes.
  - intros x rest ?%E. by apply rt_read.
  - intros bs x rest Hbs H. apply canon_read in H as [? ->]; [|done]. by rewrite <- E.
Qed.
