(* ===== verification/Transaction.v ===== *)
(** * Transactions

    [src/src/primitives/transaction.h] and [.cpp]: outpoints, inputs, outputs
    and transactions with their wire format, the tests for coinbase and
    coinstake, and the sum of the outputs with its two exceptions; the coins of
    [src/src/coins.h], which are outputs with the height and the kind of the
    transaction that made them.

    A script is its bytes.  The members that are not serialised ([prevPubKey],
    [nRounds]) are kept, and the round trip says what they must be. *)

From stdpp Require Import countable.
From S2P Require Import Prelude Ints Serialize.

Local Open Scope Z_scope.

Abbreviation CScript := (list Z) (only parsing).

(** ** Data *)

(** [hash] is the transaction id as the number its limbs spell. *)
Record COutPoint := MkOutPoint { hash : Z; n : Z }.

#[export] Instance COutPoint_eq_dec : EqDecision COutPoint.
Proof. solve_decision. Defined.

#[export] Instance COutPoint_countable : Countable COutPoint.
Proof.
  refine (inj_countable' (λ o, (hash o, n o)) (λ p, MkOutPoint p.1 p.2) _). by intros [].
Defined.

Definition IsNull (o : COutPoint) : bool := (hash o =? 0) && (n o =? 0xFFFFFFFF).

Record CTxIn := MkTxIn {
  prevout : COutPoint; scriptSig : CScript; nSequence : Z; prevPubKey : CScript }.

Definition SEQUENCE_FINAL : Z := 0xffffffff.

Definition IsFinal (i : CTxIn) : bool := nSequence i =? SEQUENCE_FINAL.

Record CTxOut := MkTxOut { nValue : Z; scriptPubKey : CScript; nRounds : Z }.

#[export] Instance CTxOut_eq_dec : EqDecision CTxOut.
Proof. solve_decision. Defined.

(** The constructor from a value and a script. *)
Definition NewTxOut (nValueIn : Z) (scriptPubKeyIn : CScript) : CTxOut :=
  MkTxOut nValueIn scriptPubKeyIn (-10).

(** What [SetNull], and with it the empty constructor, leaves. *)
Definition NullTxOut : CTxOut := MkTxOut (-1) [] (-10).

Definition TxOut_IsNull (o : CTxOut) : bool := nValue o =? -1.

Definition IsEmpty (o : CTxOut) : bool :=
  (nValue o =? 0) && bool_decide (scriptPubKey o = []).

(** [txhash] is the cached hash, set by [UpdateHash]. *)
Record CTransaction := MkTransaction {
  nVersion : Z; vin : list CTxIn; vout : list CTxOut; nLockTime : Z; txhash : Z }.

Definition tx_IsNull (tx : CTransaction) : bool :=
  match vin tx, vout tx with [], [] => true | _, _ => false end.

Definition IsCoinBase (tx : CTransaction) : bool :=
  match vin tx with [i] => IsNull (prevout i) | _ => false end.

Definition IsCoinStake (tx : CTransaction) : bool :=
  match vin tx with
  | [] => false
  | i :: _ =>
      if IsNull (prevout i) then false
      else match vout tx with o :: _ :: _ => IsEmpty o | _ => false end
  end.

(** ** The sum of the outputs *)

Inductive amount_error := less_than_zero | wraps_boundary.

#[export] Instance amount_error_eq_dec : EqDecision amount_error.
Proof. solve_decision. Defined.

Fixpoint GetValueOut_loop (nValueOut : Z) (outs : list CTxOut) : amount_error + Z :=
  match outs with
  | [] => inr nValueOut
  | o :: outs =>
      if nValue o <? 0 then inl less_than_zero
      else if i64 (nValueOut + nValue o) <? nValueOut then inl wraps_boundary
      else GetValueOut_loop (i64 (nValueOut + nValue o)) outs
  end.

Definition GetValueOut (tx : CTransaction) : amount_error + Z := GetValueOut_loop 0 (vout tx).

(** ** Coins *)

Record Coin := MkCoin { fCoinBase : bool; fCoinStake : bool; out : CTxOut; coin_nHeight : Z }.

#[export] Instance Coin_eq_dec : EqDecision Coin.
Proof. solve_decision. Defined.

(** The constructor: the height is converted to [uint32_t]. *)
Definition NewCoin (outIn : CTxOut) (nHeightIn : Z) (fCoinBaseIn fCoinStakeIn : bool) : Coin :=
  MkCoin fCoinBaseIn fCoinStakeIn outIn (u32 nHeightIn).

(** The empty constructor, and what [Clear] leaves. *)
Definition coinEmpty : Coin := MkCoin false false NullTxOut 0.

Definition IsSpent (c : Coin) : bool := TxOut_IsNull (out c).

(** ** Wire format *)

Definition codec_COutPoint : Codec COutPoint :=
  codec_struct (λ '(h, k), MkOutPoint h k) (λ o, (hash o, n o))
    (codec_pair codec_uint256 codec_u32).

Definition codec_CTxIn : Codec CTxIn :=
  codec_struct (λ '(o, (s, q)), MkTxIn o s q []) (λ i, (prevout i, (scriptSig i, nSequence i)))
    (codec_pair codec_COutPoint (codec_pair codec_bytes codec_u32)).

Definition codec_CTxOut : Codec CTxOut :=
  codec_struct (λ '(v, s), NewTxOut v s) (λ o, (nValue o, scriptPubKey o))
    (codec_pair codec_i64 codec_bytes).

(** The sizes of the two structures on the target, which set the block size of
    the vector loops. *)
Class Target := {
  sizeof_CTxIn : Z; sizeof_CTxOut : Z;
  sizeof_CTxIn_ok : 0 < sizeof_CTxIn ≤ 5000000;
  sizeof_CTxOut_ok : 0 < sizeof_CTxOut ≤ 5000000 }.

Section Wire.
  (** [SerializeHash]: the hash of a serialisation, as the number of its limbs. *)
  Context `{Target} (SerializeHash : list Z → Z).

(** The members in the order of [SerializationOp]. *)
Abbreviation tx_members := (Z * (list CTxIn * (list CTxOut * Z)))%type (only parsing).

Definition codec_members : Codec tx_members :=
  codec_pair codec_i32
    (codec_pair (codec_vec codec_CTxIn sizeof_CTxIn)
       (codec_pair (codec_vec codec_CTxOut sizeof_CTxOut) codec_u32)).

(** Reading the members ends with [UpdateHash]. *)
Definition UpdateHash (m : tx_members) : CTransaction :=
  let '(v, (i, (o, l))) := m in MkTransaction v i o l (SerializeHash (Serialize codec_members m)).

Definition codec_CTransaction : Codec CTransaction :=
  codec_struct UpdateHash (λ tx, (nVersion tx, (vin tx, (vout tx, nLockTime tx)))) codec_members.
End Wire.

(** ** The sum of the outputs is exact, or an exception *)

Definition sum_out (outs : list CTxOut) : Z := foldr (λ o s, nValue o + s) 0 outs.

Lemma sum_out_nonneg outs : Forall (λ o, 0 ≤ nValue o) outs → 0 ≤ sum_out outs.
Proof. induction 1; simpl; lia. Qed.

Lemma i64_wrap a b :
  0 ≤ a < 2 ^ 63 → 0 ≤ b < 2 ^ 63 →
  i64 (a + b) = if a + b <? 2 ^ 63 then a + b else a + b - 2 ^ 64.
Proof.
  intros. destruct (Z.ltb_spec (a + b) (2 ^ 63)); [apply i64_id; lia|].
  unfold i64. rewrite u64_mod, <- (Z.mod_unique _ (2 ^ 64) 1 (a + b - 2 ^ 63)); lia.
Qed.

Lemma GetValueOut_loop_spec acc outs v :
  0 ≤ acc < 2 ^ 63 → Forall (λ o, signed 64 (nValue o)) outs →
  GetValueOut_loop acc outs = inr v ↔
  Forall (λ o, 0 ≤ nValue o) outs ∧ v = acc + sum_out outs ∧ v < 2 ^ 63.
Proof.
  intros Hacc Hs. revert acc Hacc. induction Hs as [|o outs Ho Hs IH]; intros acc Hacc; simpl.
  { split; [intros [= <-]; repeat split; [done|lia..]|intros (_ & -> & _); f_equal; lia]. }
  unfold signed in Ho. rewrite Forall_cons.
  destruct (Z.ltb_spec (nValue o) 0) as [Hn|Hn]; [split; [done|intros ([? _] & _); lia]|].
  rewrite i64_wrap by lia. destruct (Z.ltb_spec (acc + nValue o) (2 ^ 63)) as [Hw|Hw].
  - rewrite (proj2 (Z.ltb_ge _ _)) by lia. rewrite IH by lia. rewrite Z.add_assoc. tauto.
  - rewrite (proj2 (Z.ltb_lt _ _)) by lia. split; [done|].
    intros ([_ Hp%sum_out_nonneg] & -> & ?). lia.
Qed.

(** [GetValueOut] returns a total exactly when no output is negative and the
    mathematical sum of the outputs fits [int64_t], and the total is that sum;
    otherwise it throws, and the wrap-around test catches every overflow. *)
Theorem GetValueOut_exact tx v :
  Forall (λ o, signed 64 (nValue o)) (vout tx) →
  GetValueOut tx = inr v ↔
  Forall (λ o, 0 ≤ nValue o) (vout tx) ∧ v = sum_out (vout tx) ∧ v < 2 ^ 63.
Proof. intros H. unfold GetValueOut. by rewrite GetValueOut_loop_spec. Qed.

(** ** The wire format is a bijection *)

Definition outpoint_ok (o : COutPoint) : Prop := word 256 (hash o) ∧ word 32 (n o).

Definition txin_ok (i : CTxIn) : Prop :=
  outpoint_ok (prevout i) ∧ vec_ok byte (scriptSig i) ∧ word 32 (nSequence i) ∧ prevPubKey i = [].

Definition txout_ok (o : CTxOut) : Prop :=
  signed 64 (nValue o) ∧ vec_ok byte (scriptPubKey o) ∧ nRounds o = -10.

#[export] Instance codec_COutPoint_canonical : Canonical codec_COutPoint outpoint_ok.
Proof.
  eapply canonical_iff.
  - apply codec_struct_canonical; [apply codec_pair_canonical; apply _|by intros []].
  - intros [h k]. unfold outpoint_ok. simpl. tauto.
Qed.

#[export] Instance codec_CTxIn_canonical : Canonical codec_CTxIn txin_ok.
Proof.
  eapply canonical_iff.
  - apply codec_struct_canonical; [|by intros (? & ? & ?)].
    apply codec_pair_canonical; [apply _|apply codec_pair_canonical; apply _].
  - intros [o s q p]. unfold txin_ok. simpl. split; [intros [(? & ? & ?) [= <-]]|]; naive_solver.
Qed.

#[export] Instance codec_CTxOut_canonical : Canonical codec_CTxOut txout_ok.
Proof.
  eapply canonical_iff.
  - apply codec_struct_canonical; [apply codec_pair_canonical; apply _|by intros []].
  - intros [v s r]. unfold txout_ok, NewTxOut. simpl. split; [intros [(? & ?) [= <-]]|]; naive_solver.
Qed.

(** A transaction whose members are in range and whose cached hash is up to date. *)
Definition tx_ok `{Target} (SerializeHash : list Z → Z) (tx : CTransaction) : Prop :=
  signed 32 (nVersion tx) ∧ vec_ok txin_ok (vin tx) ∧ vec_ok txout_ok (vout tx) ∧
  word 32 (nLockTime tx) ∧
  txhash tx = SerializeHash (Serialize (codec_CTransaction SerializeHash) tx).

Lemma codec_CTransaction_canonical `{Target} SerializeHash :
  Canonical (codec_CTransaction SerializeHash) (tx_ok SerializeHash).
Proof.
  eapply canonical_iff.
  - apply codec_struct_canonical; [|by intros (? & ? & ? & ?)].
    apply codec_pair_canonical; [apply _|].
    apply codec_pair_canonical; [apply codec_vec_canonical; [apply sizeof_CTxIn_ok|apply _]|].
    apply codec_pair_canonical; [apply codec_vec_canonical; [apply sizeof_CTxOut_ok|apply _]|apply _].
  - intros [v i o l h]. unfold tx_ok, codec_CTransaction, codec_struct. cbn.
    split; [intros [(? & ? & ? & ?) [= <-]]|intros (? & ? & ? & ? & ->)]; auto 6.
Qed.

(** C34: the wire format of a transaction is a bijection between the transactions
    in range and the byte strings the reader accepts: reading what was written
    gives the transaction and its hash back and leaves the rest of the stream,
    and conversely whatever the reader accepts is in range and is byte for byte
    what writing the result produces.  Two different serialisations never
    decode to the same transaction. *)
Theorem transaction_wire_bijection `{Target} SerializeHash tx bs rest :
  let c := codec_CTransaction SerializeHash in
  (tx_ok SerializeHash tx → Unserialize c (Serialize c tx ++ rest) = Ok tx rest) ∧
  (Forall byte bs → Unserialize c bs = Ok tx rest →
   tx_ok SerializeHash tx ∧ bs = Serialize c tx ++ rest).
Proof.
  pose proof (codec_CTransaction_canonical SerializeHash).
  split; [intros; by apply rt_read|intros; by eapply canon_read].
Qed.

(** ** Witnesses *)

Definition lp64 : Target.
Proof. refine {| sizeof_CTxIn := 104; sizeof_CTxOut := 48 |}; lia. Defined.

(** A transaction with one input and one output to a key hash. *)
Definition demo_members : Z * (list CTxIn * (list CTxOut * Z)) :=
  (1, ([MkTxIn (MkOutPoint (2 ^ 255 + 5) 1) [0x51] SEQUENCE_FINAL []],
       ([NewTxOut 5000 ([0x76; 0xa9; 20] ++ replicate 20 7 ++ [0x88; 0xac])], 17))).

Definition demo_hash (bs : list Z) : Z := fold_left (λ h b, (h * 31 + b) mod 2 ^ 256) bs 0.

Definition demo_tx : CTransaction := @UpdateHash lp64 demo_hash demo_members.

Lemma demo_in_ok : txin_ok (MkTxIn (MkOutPoint (2 ^ 255 + 5) 1) [0x51] SEQUENCE_FINAL []).
Proof. split_and!; try done. split; [done|by apply bytesb_spec]. Qed.

Lemma demo_out_ok : txout_ok (NewTxOut 5000 ([0x76; 0xa9; 20] ++ replicate 20 7 ++ [0x88; 0xac])).
Proof. split_and!; try done. split; [done|by apply bytesb_spec]. Qed.

Lemma demo_tx_ok : @tx_ok lp64 demo_hash demo_tx.
Proof.
  split; [done|]. split; [split; [done|constructor; [apply demo_in_ok|constructor]]|].
  split; [split; [done|constructor; [apply demo_out_ok|constructor]]|]. split; [done|].
  vm_compute. reflexivity.
Qed.

Lemma transaction_wire_bijection_witness :
  Unserialize (@codec_CTransaction lp64 demo_hash)
    (Serialize (@codec_CTransaction lp64 demo_hash) demo_tx ++ [1; 2]) = Ok demo_tx [1; 2].
Proof.
  apply (@transaction_wire_bijection lp64 demo_hash demo_tx [] [1; 2]), demo_tx_ok.
Defined.

Lemma GetValueOut_exact_witness : GetValueOut demo_tx = inr 5000.
Proof.
  apply GetValueOut_exact; [|by repeat constructor].
  constructor; [|constructor]. unfold signed. simpl. lia.
Defined.
