(* ===== verification/Script.v ===== *)
(** * Scripts

    [src/src/script/script.h] and [script.cpp]: the opcodes, the numbers of
    the stack machine ([CScriptNum]) with their minimal encoding, the operators
    that append to a script, the instruction reader [GetOp2] and the scans built
    on it: signature-operation counts, push-only scripts, [FindAndDelete], the
    recognisers of pay-to-script-hash and of unspendable scripts.

    A script is its bytes, an iterator is the suffix it points to. *)

From S2P Require Import Prelude Ints Serialize Transaction.

Local Open Scope Z_scope.

(** ** Limits and opcodes *)

Definition MAX_SCRIPT_ELEMENT_SIZE : Z := 520.
Definition MAX_OPS_PER_SCRIPT : Z := 201.
Definition MAX_PUBKEYS_PER_MULTISIG : Z := 20.
Definition MAX_SCRIPT_SIZE : Z := 10000.
Definition LOCKTIME_THRESHOLD : Z := 500000000.

Definition OP_0 : Z := 0x00.
Definition OP_FALSE : Z := OP_0.
Definition OP_PUSHDATA1 : Z := 0x4c.
Definition OP_PUSHDATA2 : Z := 0x4d.
Definition OP_PUSHDATA4 : Z := 0x4e.
Definition OP_1NEGATE : Z := 0x4f.
Definition OP_RESERVED : Z := 0x50.
Definition OP_1 : Z := 0x51.
Definition OP_TRUE : Z := OP_1.
Definition OP_2 : Z := 0x52.
Definition OP_3 : Z := 0x53.
Definition OP_4 : Z := 0x54.
Definition OP_5 : Z := 0x55.
Definition OP_6 : Z := 0x56.
Definition OP_7 : Z := 0x57.
Definition OP_8 : Z := 0x58.
Definition OP_9 : Z := 0x59.
Definition OP_10 : Z := 0x5a.
Definition OP_11 : Z := 0x5b.
Definition OP_12 : Z := 0x5c.
Definition OP_13 : Z := 0x5d.
Definition OP_14 : Z := 0x5e.
Definition OP_15 : Z := 0x5f.
Definition OP_16 : Z := 0x60.
Definition OP_NOP : Z := 0x61.
Definition OP_VER : Z := 0x62.
Definition OP_IF : Z := 0x63.
Definition OP_NOTIF : Z := 0x64.
Definition OP_VERIF : Z := 0x65.
Definition OP_VERNOTIF : Z := 0x66.
Definition OP_ELSE : Z := 0x67.
Definition OP_ENDIF : Z := 0x68.
Definition OP_VERIFY : Z := 0x69.
Definition OP_RETURN : Z := 0x6a.
Definition OP_TOALTSTACK : Z := 0x6b.
Definition OP_FROMALTSTACK : Z := 0x6c.
Definition OP_2DROP : Z := 0x6d.
Definition OP_2DUP : Z := 0x6e.
Definition OP_3DUP : Z := 0x6f.
Definition OP_2OVER : Z := 0x70.
Definition OP_2ROT : Z := 0x71.
Definition OP_2SWAP : Z := 0x72.
Definition OP_IFDUP : Z := 0x73.
Definition OP_DEPTH : Z := 0x74.
Definition OP_DROP : Z := 0x75.
Definition OP_DUP : Z := 0x76.
Definition OP_NIP : Z := 0x77.
Definition OP_OVER : Z := 0x78.
Definition OP_PICK : Z := 0x79.
Definition OP_ROLL : Z := 0x7a.
Definition OP_ROT : Z := 0x7b.
Definition OP_SWAP : Z := 0x7c.
Definition OP_TUCK : Z := 0x7d.
Definition OP_CAT : Z := 0x7e.
Definition OP_SUBSTR : Z := 0x7f.
Definition OP_LEFT : Z := 0x80.
Definition OP_RIGHT : Z := 0x81.
Definition OP_SIZE : Z := 0x82.
Definition OP_INVERT : Z := 0x83.
Definition OP_AND : Z := 0x84.
Definition OP_OR : Z := 0x85.
Definition OP_XOR : Z := 0x86.
Definition OP_EQUAL : Z := 0x87.
Definition OP_EQUALVERIFY : Z := 0x88.
Definition OP_RESERVED1 : Z := 0x89.
Definition OP_RESERVED2 : Z := 0x8a.
Definition OP_1ADD : Z := 0x8b.
Definition OP_1SUB : Z := 0x8c.
Definition OP_2MUL : Z := 0x8d.
Definition OP_2DIV : Z := 0x8e.
Definition OP_NEGATE : Z := 0x8f.
Definition OP_ABS : Z := 0x90.
Definition OP_NOT : Z := 0x91.
Definition OP_0NOTEQUAL : Z := 0x92.
Definition OP_ADD : Z := 0x93.
Definition OP_SUB : Z := 0x94.
Definition OP_MUL : Z := 0x95.
Definition OP_DIV : Z := 0x96.
Definition OP_MOD : Z := 0x97.
Definition OP_LSHIFT : Z := 0x98.
Definition OP_RSHIFT : Z := 0x99.
Definition OP_BOOLAND : Z := 0x9a.
Definition OP_BOOLOR : Z := 0x9b.
Definition OP_NUMEQUAL : Z := 0x9c.
Definition OP_NUMEQUALVERIFY : Z := 0x9d.
Definition OP_NUMNOTEQUAL : Z := 0x9e.
Definition OP_LESSTHAN : Z := 0x9f.
Definition OP_GREATERTHAN : Z := 0xa0.
Definition OP_LESSTHANOREQUAL : Z := 0xa1.
Definition OP_GREATERTHANOREQUAL : Z := 0xa2.
Definition OP_MIN : Z := 0xa3.
Definition OP_MAX : Z := 0xa4.
Definition OP_WITHIN : Z := 0xa5.
Definition OP_RIPEMD160 : Z := 0xa6.
Definition OP_SHA1 : Z := 0xa7.
Definition OP_SHA256 : Z := 0xa8.
Definition OP_HASH160 : Z := 0xa9.
Definition OP_HASH256 : Z := 0xaa.
Definition OP_CODESEPARATOR : Z := 0xab.
Definition OP_CHECKSIG : Z := 0xac.
Definition OP_CHECKSIGVERIFY : Z := 0xad.
Definition OP_CHECKMULTISIG : Z := 0xae.
Definition OP_CHECKMULTISIGVERIFY : Z := 0xaf.
Definition OP_NOP1 : Z := 0xb0.
Definition OP_CHECKLOCKTIMEVERIFY : Z := 0xb1.
Definition OP_NOP2 : Z := OP_CHECKLOCKTIMEVERIFY.
Definition OP_CHECKSEQUENCEVERIFY : Z := 0xb2.
Definition OP_NOP3 : Z := OP_CHECKSEQUENCEVERIFY.
Definition OP_NOP4 : Z := 0xb3.
Definition OP_NOP5 : Z := 0xb4.
Definition OP_NOP6 : Z := 0xb5.
Definition OP_NOP7 : Z := 0xb6.
Definition OP_NOP8 : Z := 0xb7.
Definition OP_NOP9 : Z := 0xb8.
Definition OP_NOP10 : Z := 0xb9.
Definition OP_CHECKSIGADD : Z := 0xba.
Definition OP_MLOAD : Z := 0xc4.
Definition OP_MSTORE : Z := 0xc5.
Definition OP_SLOAD : Z := 0xc7.
Definition OP_SSTORE : Z := 0xc8.
Definition OP_PUBLISH : Z := 0xc9.
Definition OP_RUN : Z := 0xca.
Definition OP_UPDATE_STATUS : Z := 0xcb.
Definition OP_INVALIDOPCODE : Z := 0xff.

Definition size (l : list Z) : Z := Z.of_nat (length l).

(** ** Numbers of the stack machine *)

(** The loop that pushes the bytes of [absvalue]; eight bytes hold a [uint64_t]. *)
Fixpoint abs_bytes (fuel : nat) (absvalue : Z) : list Z :=
  match fuel with
  | O => []
  | S fuel => if absvalue =? 0 then [] else absvalue .& 0xff :: abs_bytes fuel (absvalue >> 8)
  end.

(** The byte at the back, changed to [f] of itself. *)
Fixpoint map_back (f : Z → Z) (l : list Z) : list Z :=
  match l with
  | [] => []
  | [x] => [f x]
  | x :: l => x :: map_back f l
  end.

Definition back (l : list Z) : Z := List.last l 0.

Definition serialize (value : Z) : list Z :=
  if value =? 0 then []
  else
    let neg := value <? 0 in
    let absvalue := u64 value in
    let absvalue := if neg then u64 (- absvalue) else absvalue in
    let result := abs_bytes 8 absvalue in
    if negb (back result .& 0x80 =? 0) then result ++ [if neg then 0x80 else 0]
    else if neg then map_back (λ b, b .| 0x80) result
    else result.

(** The loop [result |= vch[i] << 8*i]. *)
Fixpoint or_bytes (i : Z) (vch : list Z) (result : Z) : Z :=
  match vch with
  | [] => result
  | b :: vch => or_bytes (i + 1) vch (result .| i64 (b << (8 * i)))
  end.

Definition set_vch (vch : list Z) : Z :=
  match vch with
  | [] => 0
  | _ =>
      let result := or_bytes 0 vch 0 in
      if negb (back vch .& 0x80 =? 0)
      then - i64 (u64 result .& u64 (Z.lnot (0x80 << (8 * (size vch - 1)))))
      else result
  end.

Definition is_minimal (vch : list Z) : bool :=
  if (0 <? size vch) && (back vch .& 0x7f =? 0)
  then negb ((size vch <=? 1) || (vch.[length vch - 2] .& 0x80 =? 0))
  else true.

(** The constructor from a stack element; [None] is [scriptnum_error]. *)
Definition CScriptNum (vch : list Z) (fRequireMinimal : bool) (nMaxNumSize : Z) : option Z :=
  if nMaxNumSize <? size vch then None
  else if fRequireMinimal && negb (is_minimal vch) then None
  else Some (set_vch vch).

Definition nDefaultMaxNumSize : Z := 4.

Definition getint (m_value : Z) : Z :=
  if 0x7fffffff <? m_value then 0x7fffffff
  else if m_value <? -0x80000000 then -0x80000000
  else m_value.

(** ** Appending to a script *)

Definition push_vch (s : CScript) (b : list Z) : CScript :=
  s ++ (if size b <? OP_PUSHDATA1 then [u8 (size b)]
        else if size b <=? 0xff then [OP_PUSHDATA1; u8 (size b)]
        else if size b <=? 0xffff then OP_PUSHDATA2 :: le_enc 2 (size b)
        else OP_PUSHDATA4 :: le_enc 4 (size b)) ++ b.

(** [None] is the exception of the opcode operator. *)
Definition push_opcode (s : CScript) (opcode : Z) : option CScript :=
  if (opcode <? 0) || (0xff <? opcode) then None else Some (s ++ [u8 opcode]).

Definition push_int64 (s : CScript) (n : Z) : CScript :=
  if (n =? -1) || ((1 <=? n) && (n <=? 16)) then s ++ [u8 (n + (OP_1 - 1))]
  else if n =? 0 then s ++ [OP_0]
  else push_vch s (serialize n).

(** ** Reading instructions *)

Record op_read := OpRead { op_ok : bool; opcodeRet : Z; vchRet : list Z; pc_next : CScript }.

(** The failure exits: the iterator stays where the reader had moved it. *)
Definition op_fail (pc : CScript) : op_read := OpRead false OP_INVALIDOPCODE [] pc.

(** The immediate operand: [nSize] bytes at [pc]. *)
Definition op_data (opcode nSize : Z) (pc : CScript) : op_read :=
  if size pc <? nSize then op_fail pc
  else OpRead true opcode (take (Z.to_nat nSize) pc) (drop (Z.to_nat nSize) pc).

Definition GetOp2 (pc : CScript) : op_read :=
  match pc with
  | [] => op_fail []
  | opcode :: pc =>
      if opcode <=? OP_PUSHDATA4 then
        if opcode <? OP_PUSHDATA1 then op_data opcode opcode pc
        else if opcode =? OP_PUSHDATA1 then
          if size pc <? 1 then op_fail pc else op_data opcode (hd 0 pc) (drop 1 pc)
        else if opcode =? OP_PUSHDATA2 then
          if size pc <? 2 then op_fail pc
          else op_data opcode (le_dec (take 2 pc)) (drop 2 pc)
        else
          if size pc <? 4 then op_fail pc
          else op_data opcode (le_dec (take 4 pc)) (drop 4 pc)
      else OpRead true opcode [] pc
  end.

(** [None] where the source asserts. *)
Definition DecodeOP_N (opcode : Z) : option Z :=
  if opcode =? OP_0 then Some 0
  else if (OP_1 <=? opcode) && (opcode <=? OP_16) then Some (opcode - (OP_1 - 1))
  else None.

Definition EncodeOP_N (n : Z) : option Z :=
  if negb ((0 <=? n) && (n <=? 16)) then None
  else if n =? 0 then Some OP_0 else Some (OP_1 + n - 1).

(** ** Scans

    Every turn of a scan reads an instruction, so the length of the script is
    enough fuel ([GetOp2_progress]). *)

Fixpoint sigops_loop (fuel : nat) (fAccurate : bool) (pc : CScript) (lastOpcode n : Z) : Z :=
  match fuel with
  | O => n
  | S fuel =>
      match pc with
      | [] => n
      | _ =>
          let r := GetOp2 pc in
          if negb (op_ok r) then n
          else
            let opcode := opcodeRet r in
            let n :=
              if (opcode =? OP_CHECKSIG) || (opcode =? OP_CHECKSIGVERIFY) then u32 (n + 1)
              else if (opcode =? OP_CHECKMULTISIG) || (opcode =? OP_CHECKMULTISIGVERIFY) then
                if fAccurate && (OP_1 <=? lastOpcode) && (lastOpcode <=? OP_16)
                then u32 (n + (lastOpcode - (OP_1 - 1)))
                else u32 (n + MAX_PUBKEYS_PER_MULTISIG)
              else n in
            sigops_loop fuel fAccurate (pc_next r) opcode n
      end
  end.

Definition GetSigOpCount (fAccurate : bool) (s : CScript) : Z :=
  sigops_loop (length s) fAccurate s OP_INVALIDOPCODE 0.

Definition IsPayToScriptHash (s : CScript) : bool :=
  (size s =? 23) && (s.[0] =? OP_HASH160) && (s.[1] =? 0x14) && (s.[22] =? OP_EQUAL).

(** The last item a push-only script pushes; [None] when it is not push-only. *)
Fixpoint last_push (fuel : nat) (pc : CScript) (data : list Z) : option (list Z) :=
  match fuel with
  | O => Some data
  | S fuel =>
      match pc with
      | [] => Some data
      | _ =>
          let r := GetOp2 pc in
          if negb (op_ok r) then None
          else if OP_16 <? opcodeRet r then None
          else last_push fuel (pc_next r) (vchRet r)
      end
  end.

Definition GetSigOpCount_P2SH (scriptPubKey scriptSig : CScript) : Z :=
  if negb (IsPayToScriptHash scriptPubKey) then GetSigOpCount true scriptPubKey
  else match last_push (length scriptSig) scriptSig [] with
       | None => 0
       | Some data => GetSigOpCount true data
       end.

Fixpoint IsNormalPaymentScript_loop (fuel : nat) (pc : CScript) (i : Z) : bool :=
  match fuel with
  | O => true
  | S fuel =>
      match pc with
      | [] => true
      | _ =>
          let r := GetOp2 pc in
          let opcode := opcodeRet r in
          if (i =? 0) && negb (opcode =? OP_DUP) then false
          else if (i =? 1) && negb (opcode =? OP_HASH160) then false
          else if (i =? 3) && negb (opcode =? OP_EQUALVERIFY) then false
          else if (i =? 4) && negb (opcode =? OP_CHECKSIG) then false
          else if i =? 5 then false
          else IsNormalPaymentScript_loop fuel (pc_next r) (i + 1)
      end
  end.

Definition IsNormalPaymentScript (s : CScript) : bool :=
  if negb (size s =? 25) then false else IsNormalPaymentScript_loop (length s) s 0.

Definition StartsWithOpcode (opcode : Z) (s : CScript) : bool :=
  match s with [] => false | b :: _ => b =? opcode end.

Fixpoint IsPushOnly_loop (fuel : nat) (pc : CScript) : bool :=
  match fuel with
  | O => true
  | S fuel =>
      match pc with
      | [] => true
      | _ =>
          let r := GetOp2 pc in
          if negb (op_ok r) then false
          else if OP_16 <? opcodeRet r then false
          else IsPushOnly_loop fuel (pc_next r)
      end
  end.

Definition IsPushOnly (s : CScript) : bool := IsPushOnly_loop (length s) s.

Definition IsUnspendable (s : CScript) : bool :=
  StartsWithOpcode OP_RETURN s || (MAX_SCRIPT_SIZE <? size s).

Fixpoint Find_loop (fuel : nat) (op : Z) (pc : CScript) (nFound : Z) : Z :=
  match fuel with
  | O => nFound
  | S fuel =>
      match pc with
      | [] => nFound
      | _ =>
          let r := GetOp2 pc in
          if negb (op_ok r) then nFound
          else Find_loop fuel op (pc_next r) (if opcodeRet r =? op then nFound + 1 else nFound)
      end
  end.

Definition Find (op : Z) (s : CScript) : Z := Find_loop (length s) op s 0.

(** The inner loop of [FindAndDelete]: skip the copies of [b] at [pc]. *)
Fixpoint skip_copies (fuel : nat) (b pc : CScript) (nFound : Z) : CScript * Z :=
  match fuel with
  | O => (pc, nFound)
  | S fuel =>
      if (length b <=? length pc)%nat && bool_decide (take (length b) pc = b)
      then skip_copies fuel b (drop (length b) pc) (nFound + 1)
      else (pc, nFound)
  end.

(** The outer loop: [kept] is the stretch between [pc2] and [pc]. *)
Fixpoint FindAndDelete_loop (fuel : nat) (b kept pc : CScript) (nFound : Z) (result : CScript) :
    Z * CScript :=
  match fuel with
  | O => (nFound, result ++ kept ++ pc)
  | S fuel =>
      let result := result ++ kept in
      let '(pc, nFound) := skip_copies (length pc) b pc nFound in
      let r := GetOp2 pc in
      if op_ok r
      then FindAndDelete_loop fuel b (take (length pc - length (pc_next r)) pc) (pc_next r) nFound result
      else (nFound, result ++ pc)
  end.

Definition FindAndDelete (s b : CScript) : Z * CScript :=
  match b with
  | [] => (0, s)
  | _ =>
      let '(nFound, result) := FindAndDelete_loop (S (length s)) b [] s 0 [] in
      (nFound, if 0 <? nFound then result else s)
  end.

(** ** The instruction reader makes progress *)

Lemma op_data_suffix opcode nSize pc :
  ∃ pre, pc = pre ++ pc_next (op_data opcode nSize pc).
Proof.
  unfold op_data. destruct (size pc <? nSize); [by exists []|].
  exists (take (Z.to_nat nSize) pc). simpl. by rewrite take_drop.
Qed.

Lemma GetOp2_suffix op pc : ∃ pre, op :: pc = op :: pre ++ pc_next (GetOp2 (op :: pc)).
Proof.
  assert (∀ opc sz k, ∃ pre, pc = pre ++ pc_next (op_data opc sz (drop k pc))) as Hd.
  { intros opc sz k. destruct (op_data_suffix opc sz (drop k pc)) as [pre E].
    exists (take k pc ++ pre). by rewrite <- app_assoc, <- E, take_drop. }
  assert (∃ pre, pc = pre ++ pc_next (GetOp2 (op :: pc))) as [pre E]; [|by exists pre; rewrite <- E].
  simpl. repeat case_match; try by exists [].
  - apply op_data_suffix.
  - apply (Hd _ _ 1%nat).
  - apply (Hd _ _ 2%nat).
  - apply (Hd _ _ 4%nat).
Qed.

Lemma GetOp2_progress pc : pc ≠ [] → (length (pc_next (GetOp2 pc)) < length pc)%nat.
Proof.
  destruct pc as [|op pc]; [done|]. intros _. destruct (GetOp2_suffix op pc) as [pre E].
  rewrite E at 2. simpl. rewrite length_app. lia.
Qed.

(** ** Numbers *)

Lemma back_snoc l x : back (l ++ [x]) = x.
Proof. unfold back. by rewrite List.last_last. Qed.

Lemma map_back_snoc f l x : map_back f (l ++ [x]) = l ++ [f x].
Proof. induction l as [|y l IH]; [done|]. simpl. rewrite IH. by destruct l. Qed.

Lemma le_dec_snoc l x : le_dec (l ++ [x]) = le_dec l + x * 2 ^ (8 * Z.of_nat (length l)).
Proof.
  induction l as [|y l IH]; simpl; [lia|]. rewrite IH.
  replace (8 * Z.of_nat (S (length l))) with (8 + 8 * Z.of_nat (length l)) by lia.
  rewrite Z.pow_add_r by lia. change (2 ^ 8) with 256. lia.
Qed.

(** The high bit and the low seven bits of a byte. *)
Lemma byte_high b : byte b → (b .& 0x80 =? 0) = (b <? 128).
Proof.
  intros [? ?]. destruct (Z.ltb_spec b 128).
  - apply Z.eqb_eq. change 0x80 with (1 << 7). apply Z.bits_inj'. intros i Hi.
    rewrite Z.land_spec, Z.bits_0. destruct (Z.lt_ge_cases i 7).
    + by rewrite Z.shiftl_spec_low, andb_false_r.
    + by rewrite (word_testbit_high 7) by (done || split; simpl; lia).
  - apply Z.eqb_neq. intros E. assert (Z.testbit (b .& 0x80) 7 = false) as H' by (by rewrite E).
    rewrite Z.land_spec, andb_true_r in H'. apply Z.testbit_false in H'; [|done].
    change (2 ^ 7) with 128 in H'.
    assert (b / 128 = 1) as E' by (symmetry; apply (Z.div_unique _ _ _ (b - 128)); simpl in *; lia).
    by rewrite E' in H'.
Qed.

Lemma byte_low b : byte b → b .& 0x7f = if b <? 128 then b else b - 128.
Proof.
  intros [? ?]. change 0x7f with (Z.ones 7). rewrite Z.land_ones by lia. change (2 ^ 7) with 128.
  simpl in *. destruct (Z.ltb_spec b 128); [apply Z.mod_small; lia|].
  symmetry. apply (Z.mod_unique _ _ 1); lia.
Qed.

Lemma or_bytes_spec vch i acc :
  0 ≤ i → i + size vch ≤ 7 → Forall byte vch → word (8 * i) acc →
  or_bytes i vch acc = acc + le_dec vch * 2 ^ (8 * i).
Proof.
  unfold size. intros Hi Hl Hb. revert i acc Hi Hl.
  induction Hb as [|b vch Hb _ IH]; intros i acc Hi Hl Hacc; simpl in *; [lia|].
  assert (2 ^ (8 * (i + 1)) = 256 * 2 ^ (8 * i)) as Hp.
  { replace (8 * (i + 1)) with (8 + 8 * i) by lia. by rewrite Z.pow_add_r by lia. }
  assert (2 ^ (8 * (i + 1)) ≤ 2 ^ 56) by (apply Z.pow_le_mono_r; lia).
  assert (b << (8 * i) = b * 2 ^ (8 * i)) as Hs by (apply Z.shiftl_mul_pow2; lia).
  destruct Hb as [Hb0 Hb1]. simpl in Hb1. unfold word in Hacc.
  rewrite i64_id by (rewrite Hs; nia).
  rewrite Z.lor_comm, lor_shiftl_add by (lia || done).
  rewrite IH; [rewrite Hp; lia|lia|lia|unfold word; rewrite Hp; nia].
Qed.

(** Clearing the sign bit of the last of at most seven bytes. *)
Lemma clear_sign r k :
  0 ≤ k ≤ 6 → word (8 * k + 7) r →
  u64 (r + 128 * 2 ^ (8 * k)) .& u64 (Z.lnot (0x80 << (8 * k))) = r.
Proof.
  intros Hk Hr. assert (128 * 2 ^ (8 * k) = 1 << (8 * k + 7)) as E.
  { rewrite Z.shiftl_mul_pow2 by lia. change 128 with (2 ^ 7).
    rewrite <- Z.pow_add_r by lia. rewrite Z.mul_1_l. f_equal. lia. }
  assert (r + 128 * 2 ^ (8 * k) = (1 << (8 * k + 7)) .| r) as ->.
  { rewrite lor_shiftl_add by (lia || done). rewrite E, Z.shiftl_mul_pow2 by lia. lia. }
  replace (0x80 << (8 * k)) with (1 << (8 * k + 7))
    by (rewrite <- E; symmetry; apply Z.shiftl_mul_pow2; lia).
  rewrite !u64_mod, <- !Z.land_ones by lia. apply Z.bits_inj'. intros i Hi.
  rewrite !Z.land_spec, Z.lor_spec, Z.lnot_spec by lia.
  destruct (Z.lt_ge_cases i 64).
  - rewrite Z.ones_spec_low by lia. rewrite !andb_true_r.
    destruct (Z.eq_dec i (8 * k + 7)) as [->|].
    + rewrite (word_testbit_high (8 * k + 7) r) by (done || lia).
      rewrite Z.shiftl_spec, Z.sub_diag by lia. done.
    + assert (Z.testbit (1 << (8 * k + 7)) i = false) as ->; [|by rewrite andb_true_r].
      rewrite Z.shiftl_1_l. apply Z.pow2_bits_false. lia.
  - rewrite (word_testbit_high (8 * k + 7) r) by (done || lia).
    rewrite Z.ones_spec_high by lia. by rewrite !andb_false_r.
Qed.

Lemma set_vch_snoc l b :
  size l ≤ 6 → Forall byte l → byte b →
  set_vch (l ++ [b]) =
  if b <? 128 then le_dec (l ++ [b]) else - le_dec (l ++ [b - 128]).
Proof.
  intros Hl Hb Hbb. unfold set_vch.
  assert (size (l ++ [b]) = size l + 1) as Hs by (unfold size; rewrite length_app; simpl; lia).
  destruct (l ++ [b]) as [|x t] eqn:E; [by destruct l|]. rewrite <- E in *. clear x t E.
  rewrite back_snoc, (byte_high b) by done.
  assert (Forall byte (l ++ [b])) by (apply Forall_app; auto).
  rewrite or_bytes_spec by (done || lia). rewrite Z.mul_1_r, Z.add_0_l.
  destruct (Z.ltb_spec b 128); simpl; [done|].
  destruct Hbb as [? Hb2]. simpl in Hb2. rewrite Hs, Z.add_simpl_r, !le_dec_snoc.
  pose proof (le_dec_word l Hb) as Hw. unfold size in *. set (k := Z.of_nat (length l)) in *.
  assert (word (8 * k + 7) (le_dec l + (b - 128) * 2 ^ (8 * k))) as Hr.
  { unfold word in *. rewrite Z.pow_add_r by lia. change (2 ^ 7) with 128. nia. }
  replace (le_dec l + b * 2 ^ (8 * k))
    with (le_dec l + (b - 128) * 2 ^ (8 * k) + 128 * 2 ^ (8 * k)) by lia.
  rewrite clear_sign by (lia || done). rewrite i64_id; [done|].
  unfold word in Hr. assert (2 ^ (8 * k + 7) ≤ 2 ^ 55) by (apply Z.pow_le_mono_r; lia). lia.
Qed.

Lemma abs_bytes_dec fuel l m :
  Forall byte l → byte m → m ≠ 0 → (length l < fuel)%nat →
  abs_bytes fuel (le_dec (l ++ [m])) = l ++ [m].
Proof.
  intros Hl Hm Hm0. revert fuel. induction Hl as [|x l Hx Hl IH]; intros [|fuel] Hf; simpl in *; try lia.
  - destruct Hm as [? Hm]. simpl in Hm. rewrite Z.mul_0_r, Z.add_0_r.
    rewrite (proj2 (Z.eqb_neq _ _)) by done. change (m .& 0xff) with (u8 m).
    rewrite u8_id by (split; simpl; lia). f_equal. rewrite Z.shiftr_div_pow2 by lia.
    rewrite Z.div_small by (simpl; lia). by destruct fuel.
  - assert (0 < le_dec (l ++ [m])) as Hpos.
    { rewrite le_dec_snoc. pose proof (le_dec_word l Hl) as [? _]. destruct Hm as [? _].
      pose proof (Z.pow_pos_nonneg 2 (8 * Z.of_nat (length l))). nia. }
    destruct Hx as [? Hx]. simpl in Hx. rewrite (proj2 (Z.eqb_neq _ _)) by lia.
    change (?a .& 0xff) with (u8 a). rewrite u8_mod. change (2 ^ 8) with 256.
    rewrite Z.shiftr_div_pow2 by lia. change (2 ^ 8) with 256.
    rewrite (Z.mul_comm 256), Z_mod_plus_full, Z_div_plus_full by lia.
    rewrite Z.mod_small, Z.div_small, Z.add_0_l by lia. f_equal. apply IH. lia.
Qed.

Lemma abs_bytes_shape fuel a :
  0 < a < 2 ^ (8 * Z.of_nat fuel) →
  ∃ l m, abs_bytes fuel a = l ++ [m] ∧ Forall byte l ∧ byte m ∧ m ≠ 0 ∧
    le_dec (l ++ [m]) = a ∧ (length l < fuel)%nat.
Proof.
  revert a. induction fuel as [|fuel IH]; intros a Ha; [simpl in Ha; lia|]. cbn [abs_bytes].
  rewrite (proj2 (Z.eqb_neq _ _)) by lia. change (a .& 0xff) with (u8 a).
  pose proof (u8_word a) as Hw. rewrite u8_mod in *. change (2 ^ 8) with 256 in *.
  rewrite Z.shiftr_div_pow2 by lia. change (2 ^ 8) with 256.
  pose proof (Z.div_mod a 256 ltac:(lia)). pose proof (Z.div_pos a 256 ltac:(lia) ltac:(lia)).
  assert (a / 256 < 2 ^ (8 * Z.of_nat fuel)) as Hlt.
  { apply Z.div_lt_upper_bound; [lia|]. change 256 with (2 ^ 8). rewrite <- Z.pow_add_r by lia.
    replace (8 + 8 * Z.of_nat fuel) with (8 * Z.of_nat (S fuel)) by lia. lia. }
  destruct (Z.eq_dec (a / 256) 0) as [E|E].
  - exists [], (a mod 256). rewrite E. split; [by destruct fuel|]. simpl. repeat split; try done; try lia; apply Hw.
  - destruct (IH (a / 256)) as (l & m & -> & Hl & Hm & Hm0 & Hd & Hlen); [lia|].
    exists (a mod 256 :: l), m. simpl. repeat split; auto; [apply Hm..|lia|lia].
Qed.

(** The encoding of a number whose magnitude ends with the byte [m]. *)
Definition signed_bytes (neg : bool) (l : list Z) (m : Z) : list Z :=
  if m <? 128 then l ++ [if neg then m + 128 else m] else l ++ [m; if neg then 128 else 0].

Lemma serialize_shape (value : Z) l m :
  value ≠ 0 → - 2 ^ 63 ≤ value < 2 ^ 63 → Forall byte l → byte m → m ≠ 0 → (length l < 8)%nat →
  le_dec (l ++ [m]) = Z.abs value → serialize value = signed_bytes (value <? 0) l m.
Proof.
  intros Hv Hr Hl Hm Hm0 Hlen Hd. unfold serialize, signed_bytes.
  rewrite (proj2 (Z.eqb_neq _ _)) by done.
  assert ((if value <? 0 then u64 (- u64 value) else u64 value) = Z.abs value) as ->.
  { rewrite !u64_mod. destruct (Z.ltb_spec value 0).
    - rewrite <- (Z.mod_unique value (2 ^ 64) (-1) (value + 2 ^ 64)) by lia.
      symmetry. apply (Z.mod_unique _ _ (-1)); lia.
    - rewrite Z.mod_small; lia. }
  rewrite <- Hd, abs_bytes_dec by done. rewrite back_snoc, byte_high by done.
  destruct (Z.ltb_spec m 128) as [Hlow|Hhigh]; simpl.
  - destruct (value <? 0); [|done]. rewrite map_back_snoc. f_equal.
    change 0x80 with (1 << 7). rewrite Z.lor_comm, lor_shiftl_add; [|lia|].
    + by rewrite Z.mul_1_l, Z.add_comm.
    + destruct Hm as [? Hm]. simpl in Hm. split; simpl; lia.
  - by rewrite <- app_assoc.
Qed.

Lemma signed_bytes_bytes neg l m : Forall byte l → byte m → Forall byte (signed_bytes neg l m).
Proof.
  intros Hl [? Hm]. simpl in Hm. unfold signed_bytes.
  destruct (Z.ltb_spec m 128), neg; apply Forall_app; split; try done;
    repeat (apply Forall_cons; split; [split; simpl; lia|]); apply Forall_nil_2.
Qed.

Lemma is_minimal_snoc l b :
  byte b →
  is_minimal (l ++ [b]) =
  negb ((b =? 0) || (b =? 128)) || (negb (bool_decide (l = [])) && negb (back l .& 0x80 =? 0)).
Proof.
  intros Hb. unfold is_minimal. rewrite back_snoc, byte_low by done.
  assert (size (l ++ [b]) = Z.of_nat (length l) + 1) as -> by (unfold size; rewrite length_app; simpl; lia).
  rewrite (proj2 (Z.ltb_lt _ _)) by lia. rewrite length_app, andb_true_l.
  replace (length l + length [b] - 2)%nat with (length l - 1)%nat by (simpl; lia).
  destruct Hb as [? Hb]. simpl in Hb.
  destruct l as [|x l] using rev_ind.
  - simpl. destruct (Z.ltb_spec b 128), (Z.eqb_spec b 0), (Z.eqb_spec b 128); try lia; simpl;
      rewrite ?(proj2 (Z.eqb_eq _ _)), ?(proj2 (Z.eqb_neq _ _)) by lia; done.
  - clear IHl. rewrite back_snoc, length_app. simpl.
    replace (length l + 1 - 1)%nat with (length l) by lia.
    rewrite <- app_assoc. change ([x] ++ [b]) with (x :: [b]).
    rewrite nth_middle, (proj2 (Z.leb_gt _ _)) by lia.
    rewrite bool_decide_false by (by destruct l). simpl.
    destruct (Z.ltb_spec b 128), (Z.eqb_spec b 0), (Z.eqb_spec b 128); try lia; simpl;
      rewrite ?(proj2 (Z.eqb_eq _ _)), ?(proj2 (Z.eqb_neq _ _)) by lia; done.
Qed.

Lemma set_vch_signed neg l m :
  Forall byte l → byte m → size (signed_bytes neg l m) ≤ 7 →
  set_vch (signed_bytes neg l m) = if neg then - le_dec (l ++ [m]) else le_dec (l ++ [m]).
Proof.
  intros Hl Hm. pose proof Hm as [? Hm']. simpl in Hm'. unfold signed_bytes.
  destruct (Z.ltb_spec m 128) as [Hlow|Hhigh]; unfold size; rewrite length_app; simpl; intros Hs.
  - rewrite set_vch_snoc; [|unfold size; lia|done|destruct neg; split; simpl; lia].
    destruct neg; [rewrite (proj2 (Z.ltb_ge _ _)) by lia|by rewrite (proj2 (Z.ltb_lt _ _)) by lia].
    by rewrite Z.add_simpl_r.
  - change (l ++ [m; ?x]) with (l ++ [m] ++ [x]). rewrite app_assoc.
    rewrite set_vch_snoc.
    + destruct neg; simpl; rewrite le_dec_snoc with (l := l ++ [m]); lia.
    + unfold size. rewrite length_app. simpl. lia.
    + apply Forall_app; auto.
    + destruct neg; split; simpl; lia.
Qed.

Lemma is_minimal_signed neg l m :
  byte m → m ≠ 0 → is_minimal (signed_bytes neg l m) = true.
Proof.
  intros Hm Hm0. pose proof Hm as [? Hm']. simpl in Hm'. unfold signed_bytes.
  destruct (Z.ltb_spec m 128) as [Hlow|Hhigh].
  - rewrite is_minimal_snoc by (destruct neg; split; simpl; lia).
    destruct neg; rewrite !(proj2 (Z.eqb_neq _ _)) by lia; done.
  - change (l ++ [m; ?x]) with (l ++ [m] ++ [x]). rewrite app_assoc.
    rewrite is_minimal_snoc by (destruct neg; split; simpl; lia).
    rewrite back_snoc, byte_high, (proj2 (Z.ltb_ge _ _)), bool_decide_false by (lia || done || by destruct l).
    apply orb_true_r.
Qed.

(** A minimal encoding is that of its sign and magnitude. *)
Lemma minimal_signed vch :
  Forall byte vch → vch ≠ [] → is_minimal vch = true →
  ∃ neg l m, vch = signed_bytes neg l m ∧ Forall byte l ∧ byte m ∧ m ≠ 0.
Proof.
  intros Hb Hne. destruct vch as [|b l IHv] using rev_ind; [done|]. clear Hne IHv.
  apply Forall_app in Hb as [Hl Hb%Forall_inv].
  pose proof Hb as [? Hb']. simpl in Hb'. rewrite is_minimal_snoc by done.
  destruct (Z.eqb_spec b 0) as [E0|E0]; [|destruct (Z.eqb_spec b 128) as [E1|E1]]; simpl.
  - destruct l as [|m l IHl] using rev_ind; [done|]. rewrite bool_decide_false by (by destruct l).
    apply Forall_app in Hl as [Hl Hm%Forall_inv].
    rewrite back_snoc, byte_high by done. intros Hh%negb_true_iff%Z.ltb_ge.
    exists false, l, m. unfold signed_bytes. rewrite (proj2 (Z.ltb_ge _ _)), <- app_assoc by done.
    subst b. repeat split; try done; [apply Hm..|lia].
  - destruct l as [|m l IHl] using rev_ind; [done|]. rewrite bool_decide_false by (by destruct l).
    apply Forall_app in Hl as [Hl Hm%Forall_inv].
    rewrite back_snoc, byte_high by done. intros Hh%negb_true_iff%Z.ltb_ge.
    exists true, l, m. unfold signed_bytes. rewrite (proj2 (Z.ltb_ge _ _)), <- app_assoc by done.
    subst b. repeat split; try done; [apply Hm..|lia].
  - intros _. destruct (Z.ltb_spec b 128).
    + exists false, l, b. unfold signed_bytes. rewrite (proj2 (Z.ltb_lt _ _)) by done.
      repeat split; try done; apply Hb.
    + exists true, l, (b - 128). unfold signed_bytes. rewrite (proj2 (Z.ltb_lt _ _)), Z.sub_add by lia.
      repeat split; try done; simpl; lia.
Qed.

(** The size of an encoding and the range of its magnitude. *)
Lemma size_signed_bytes neg l m k :
  Forall byte l → byte m → m ≠ 0 → 1 ≤ k →
  size (signed_bytes neg l m) ≤ k ↔ le_dec (l ++ [m]) < 2 ^ (8 * k - 1).
Proof.
  intros Hl [? Hm] Hm0 Hk. simpl in Hm. rewrite le_dec_snoc.
  pose proof (le_dec_word l Hl) as [? Hw]. set (L := Z.of_nat (length l)) in *.
  assert (2 ^ (8 * L + 7) = 128 * 2 ^ (8 * L)) as H7 by (rewrite Z.pow_add_r by lia; change (2 ^ 7) with 128; lia).
  assert (2 ^ (8 * L + 8) = 256 * 2 ^ (8 * L)) as H8 by (rewrite Z.pow_add_r by lia; change (2 ^ 8) with 256; lia).
  assert (size (signed_bytes neg l m) = if m <? 128 then L + 1 else L + 2) as ->.
  { unfold signed_bytes, size. destruct (m <? 128); rewrite length_app; simpl; lia. }
  set (P := 2 ^ (8 * L)) in *.
  destruct (Z.ltb_spec m 128) as [Hlow|Hhigh]; split; intros Hle.
  - assert (2 ^ (8 * L + 7) ≤ 2 ^ (8 * k - 1)) by (apply Z.pow_le_mono_r; lia). nia.
  - assert (2 ^ (8 * L) < 2 ^ (8 * k - 1)) as Hlt by (fold P; nia).
    apply Z.pow_lt_mono_r_iff in Hlt; lia.
  - assert (2 ^ (8 * L + 8) ≤ 2 ^ (8 * k - 1)) by (apply Z.pow_le_mono_r; lia). nia.
  - assert (2 ^ (8 * L + 7) < 2 ^ (8 * k - 1)) as Hlt by nia.
    apply Z.pow_lt_mono_r_iff in Hlt; lia.
Qed.

Lemma serialize_0 : serialize 0 = [].
Proof. done. Qed.

(** Every number has an encoding of the form above. *)
Lemma serialize_signed n :
  n ≠ 0 → - 2 ^ 63 ≤ n < 2 ^ 63 →
  ∃ l m, serialize n = signed_bytes (n <? 0) l m ∧ Forall byte l ∧ byte m ∧ m ≠ 0 ∧
    le_dec (l ++ [m]) = Z.abs n.
Proof.
  intros Hn Hr. destruct (abs_bytes_shape 8 (Z.abs n)) as (l & m & _ & Hl & Hm & Hm0 & Hd & Hlen);
    [simpl; lia|].
  exists l, m. rewrite (serialize_shape n l m) by done. done.
Qed.

Lemma serialize_bytes n : - 2 ^ 63 ≤ n < 2 ^ 63 → Forall byte (serialize n).
Proof.
  intros Hr. destruct (Z.eq_dec n 0) as [->|Hn]; [constructor|].
  destruct (serialize_signed n Hn Hr) as (l & m & -> & Hl & Hm & _). by apply signed_bytes_bytes.
Qed.

Lemma scriptnum_decodes n k :
  - 2 ^ 63 ≤ n < 2 ^ 63 → 1 ≤ k ≤ 7 → Z.abs n < 2 ^ (8 * k - 1) →
  ∀ minimal, CScriptNum (serialize n) minimal k = Some n.
Proof.
  intros Hr Hk Ha minimal. unfold CScriptNum. destruct (Z.eq_dec n 0) as [->|Hn].
  { rewrite serialize_0. rewrite (proj2 (Z.ltb_ge _ _)) by (unfold size; simpl; lia).
    by destruct minimal. }
  destruct (serialize_signed n Hn Hr) as (l & m & -> & Hl & Hm & Hm0 & Hd).
  assert (size (signed_bytes (n <? 0) l m) ≤ k) by (apply size_signed_bytes; lia || done).
  rewrite (proj2 (Z.ltb_ge _ _)), is_minimal_signed, andb_false_r by done.
  rewrite set_vch_signed, Hd by (done || lia). destruct (Z.ltb_spec n 0); f_equal; lia.
Qed.

(** Decoding a stack element as a number with the minimality rule, within a
    limit of [k] bytes, is the exact inverse of [serialize]: it succeeds with [n]
    exactly on the encoding of [n], and exactly for the numbers of magnitude
    below [2^(8k-1)].  With [k = 4] these are the operands
    [-2^31 + 1 .. 2^31 - 1] the comment of the class promises. *)
Theorem scriptnum_minimal_inverse vch n k :
  Forall byte vch → - 2 ^ 63 ≤ n < 2 ^ 63 → 1 ≤ k ≤ 7 →
  CScriptNum vch true k = Some n ↔ vch = serialize n ∧ Z.abs n < 2 ^ (8 * k - 1).
Proof.
  intros Hb Hr Hk. split; [|intros [-> ?]; by apply scriptnum_decodes].
  unfold CScriptNum. destruct (Z.ltb_spec k (size vch)) as [|Hs]; [done|].
  destruct (is_minimal vch) eqn:Hmin; [|done]. intros [= E].
  assert (0 < 2 ^ (8 * k - 1)) by (apply Z.pow_pos_nonneg; lia).
  destruct (decide (vch = [])) as [->|Hne]; [simpl in E; by subst n|].
  destruct (minimal_signed vch) as (neg & l & m & -> & Hl & Hm & Hm0); [done..|].
  rewrite set_vch_signed in E by (done || lia).
  apply size_signed_bytes in Hs; [|done..|lia].
  assert (0 < le_dec (l ++ [m])) as Hpos.
  { rewrite le_dec_snoc. pose proof (le_dec_word l Hl) as [? _]. destruct Hm as [? _].
    pose proof (Z.pow_pos_nonneg 2 (8 * Z.of_nat (length l))). nia. }
  assert (Z.abs n = le_dec (l ++ [m])) as Ha by (destruct neg; lia).
  split; [|lia]. rewrite (serialize_shape n l m); [|destruct neg; lia|done..| |by symmetry].
  - f_equal. destruct neg; symmetry; [apply Z.ltb_lt|apply Z.ltb_ge]; lia.
  - assert (le_dec (l ++ [m]) < 2 ^ 55) as Hlt.
    { eapply Z.lt_le_trans; [exact Hs|]. apply Z.pow_le_mono_r; lia. }
    rewrite le_dec_snoc in Hlt.
    assert (2 ^ (8 * Z.of_nat (length l)) < 2 ^ 55) as Hlt2.
    { pose proof (le_dec_word l Hl) as [? _]. destruct Hm as [? _].
      pose proof (Z.pow_pos_nonneg 2 (8 * Z.of_nat (length l))). nia. }
    apply Z.pow_lt_mono_r_iff in Hlt2; lia.
Qed.

Lemma scriptnum_minimal_inverse_witness :
  CScriptNum [0xff; 0xff; 0xff; 0xff] true 4 = Some (- (2 ^ 31 - 1)) ∧ serialize (2 ^ 31 - 1) = [0xff; 0xff; 0xff; 0x7f].
Proof.
  split; [|by vm_compute].
  apply (scriptnum_minimal_inverse [0xff; 0xff; 0xff; 0xff] (- (2 ^ 31 - 1)) 4);
    [by apply bytesb_spec|lia|lia|split; [by vm_compute|lia]].
Defined.

(** ** What is pushed is read back *)

(** The opcode under which [operator<<] pushes [b]. *)
Definition push_op (b : list Z) : Z :=
  if size b <? OP_PUSHDATA1 then size b
  else if size b <=? 0xff then OP_PUSHDATA1
  else if size b <=? 0xffff then OP_PUSHDATA2 else OP_PUSHDATA4.

Lemma size_nonneg l : 0 ≤ size l.
Proof. unfold size. lia. Qed.

Lemma size_app l l' : size (l ++ l') = size l + size l'.
Proof. unfold size. rewrite length_app. lia. Qed.

Lemma op_data_app opcode b rest : op_data opcode (size b) (b ++ rest) = OpRead true opcode b rest.
Proof.
  unfold op_data. rewrite size_app. pose proof (size_nonneg rest).
  rewrite (proj2 (Z.ltb_ge _ _)) by lia. unfold size.
  by rewrite Nat2Z.id, take_app_length, drop_app_length.
Qed.

Lemma le_dec_take_enc k v rest :
  word (8 * Z.of_nat k) v → le_dec (take k (le_enc k v ++ rest)) = v ∧
  drop k (le_enc k v ++ rest) = rest ∧ (size (le_enc k v ++ rest) <? Z.of_nat k) = false.
Proof.
  intros Hv. pose proof (length_le_enc k v) as Hl. split_and!.
  - rewrite <- Hl at 1. rewrite take_app_length, le_dec_enc, word_mod_id; [done|done|apply Hv].
  - rewrite <- Hl at 1. apply drop_app_length.
  - apply Z.ltb_ge. rewrite size_app. unfold size at 1. rewrite Hl. pose proof (size_nonneg rest). lia.
Qed.

Lemma GetOp2_push b rest :
  size b < 2 ^ 32 → GetOp2 (push_vch [] b ++ rest) = OpRead true (push_op b) b rest.
Proof.
  intros Hs. pose proof (size_nonneg b) as H0. unfold push_vch, push_op. rewrite app_nil_l.
  unfold OP_PUSHDATA1, OP_PUSHDATA2, OP_PUSHDATA4.
  destruct (Z.ltb_spec (size b) 0x4c) as [H1|H1]; [|destruct (Z.leb_spec (size b) 0xff) as [H2|H2];
    [|destruct (Z.leb_spec (size b) 0xffff) as [H3|H3]]]; rewrite <- app_assoc.
  - rewrite u8_id by (split; simpl; lia). cbn [GetOp2 app]. unfold OP_PUSHDATA4, OP_PUSHDATA1.
    rewrite (proj2 (Z.leb_le _ _)), (proj2 (Z.ltb_lt _ _)) by lia. apply op_data_app.
  - rewrite u8_id by (split; simpl; lia). cbn [GetOp2 app]. simpl.
    rewrite (proj2 (Z.ltb_ge _ _)) by (unfold size; simpl; lia). apply op_data_app.
  - cbn [GetOp2 app]. cbn [OP_PUSHDATA1 OP_PUSHDATA2 OP_PUSHDATA4 Z.leb Z.ltb Z.eqb Z.compare
      Pos.compare Pos.compare_cont Pos.eqb].
    destruct (le_dec_take_enc 2 (size b) (b ++ rest)) as (E1 & E2 & E3); [split; simpl; lia|].
    change (Z.of_nat 2) with 2 in E3. rewrite E1, E2, E3. apply op_data_app.
  - cbn [GetOp2 app]. cbn [OP_PUSHDATA1 OP_PUSHDATA2 OP_PUSHDATA4 Z.leb Z.ltb Z.eqb Z.compare
      Pos.compare Pos.compare_cont Pos.eqb].
    destruct (le_dec_take_enc 4 (size b) (b ++ rest)) as (E1 & E2 & E3); [split; simpl; lia|].
    change (Z.of_nat 4) with 4 in E3. rewrite E1, E2, E3. apply op_data_app.
Qed.

Lemma push_vch_app s b : push_vch s b = s ++ push_vch [] b.
Proof. done. Qed.

Lemma push_vch_nonempty b : push_vch [] b ≠ [].
Proof. unfold push_vch. by repeat case_match. Qed.

(** A script made by pushing the elements of [bs] in turn. *)
Definition push_all (bs : list (list Z)) : CScript := foldl push_vch [] bs.

Lemma foldl_push s bs : foldl push_vch s bs = s ++ concat (map (push_vch []) bs).
Proof.
  revert s. induction bs as [|b bs IH]; intros s; simpl; [by rewrite app_nil_r|].
  by rewrite IH, (push_vch_app s), app_assoc.
Qed.

Lemma push_all_concat bs : push_all bs = concat (map (push_vch []) bs).
Proof. apply foldl_push. Qed.

Lemma push_op_le b : push_op b ≤ OP_16.
Proof.
  unfold push_op, OP_16, OP_PUSHDATA1, OP_PUSHDATA2, OP_PUSHDATA4.
  destruct (Z.ltb_spec (size b) 0x4c); [lia|]. repeat case_match; lia.
Qed.

(** One turn of a scan over a script that starts with a push. *)
Lemma last_push_push fuel b rest data :
  size b < 2 ^ 32 → last_push (S fuel) (push_vch [] b ++ rest) data = last_push fuel rest b.
Proof.
  intros Hs. cbn [last_push]. rewrite GetOp2_push by done. simpl.
  rewrite (proj2 (Z.ltb_ge _ _)) by apply push_op_le.
  pose proof (push_vch_nonempty b). by destruct (push_vch [] b).
Qed.

Lemma IsPushOnly_push fuel b rest :
  size b < 2 ^ 32 → IsPushOnly_loop (S fuel) (push_vch [] b ++ rest) = IsPushOnly_loop fuel rest.
Proof.
  intros Hs. cbn [IsPushOnly_loop]. rewrite GetOp2_push by done. simpl.
  rewrite (proj2 (Z.ltb_ge _ _)) by apply push_op_le.
  pose proof (push_vch_nonempty b). by destruct (push_vch [] b).
Qed.

Lemma push_all_loops bs :
  Forall (λ b, size b < 2 ^ 32) bs → ∀ fuel data,
  (length (concat (map (push_vch []) bs)) ≤ fuel)%nat →
  IsPushOnly_loop fuel (concat (map (push_vch []) bs)) = true ∧
  last_push fuel (concat (map (push_vch []) bs)) data = Some (List.last bs data).
Proof.
  induction 1 as [|b bs Hb _ IH]; intros fuel data Hf; simpl in *.
  - by destruct fuel.
  - rewrite length_app in Hf. assert (0 < length (push_vch [] b))%nat as Hp.
    { pose proof (push_vch_nonempty b). destruct (push_vch [] b); simpl; [done|lia]. }
    destruct fuel as [|fuel]; [lia|]. rewrite IsPushOnly_push, last_push_push by done.
    destruct (IH fuel b) as [-> ->]; [lia|]. split; [done|].
    destruct bs as [|b' bs]; [done|]. f_equal. apply last_default.
Qed.

(** All the instructions of a script, [None] when one is cut short. *)
Fixpoint instructions (fuel : nat) (pc : CScript) : option (list (Z * list Z)) :=
  match fuel with
  | O => if bool_decide (pc = []) then Some [] else None
  | S fuel =>
      match pc with
      | [] => Some []
      | _ =>
          let r := GetOp2 pc in
          if op_ok r then (cons (opcodeRet r, vchRet r)) <$> instructions fuel (pc_next r) else None
      end
  end.

Lemma instructions_push fuel b rest :
  size b < 2 ^ 32 →
  instructions (S fuel) (push_vch [] b ++ rest) = cons (push_op b, b) <$> instructions fuel rest.
Proof.
  intros Hs. cbn [instructions]. rewrite GetOp2_push by done.
  pose proof (push_vch_nonempty b). by destruct (push_vch [] b).
Qed.

Lemma instructions_push_all bs fuel :
  Forall (λ b, size b < 2 ^ 32) bs → (length (concat (map (push_vch []) bs)) ≤ fuel)%nat →
  instructions fuel (concat (map (push_vch []) bs)) = Some (map (λ b, (push_op b, b)) bs).
Proof.
  intros Hbs. revert fuel. induction Hbs as [|b bs Hb _ IH]; intros fuel Hf; simpl in *.
  - by destruct fuel.
  - rewrite length_app in Hf. assert (0 < length (push_vch [] b))%nat as Hp.
    { pose proof (push_vch_nonempty b). destruct (push_vch [] b); simpl; [done|lia]. }
    destruct fuel as [|fuel]; [lia|]. rewrite instructions_push, IH by (done || lia). done.
Qed.

(** A script built with [operator<<] from data elements reads back as exactly
    these elements in order, each under the shortest opcode for its length; it is
    push-only, and the element the P2SH signature-operation count takes from it
    is the last one pushed. *)
Theorem pushed_script_reads_back bs :
  Forall (λ b, size b < 2 ^ 32) bs →
  let s := push_all bs in
  instructions (length s) s = Some (map (λ b, (push_op b, b)) bs) ∧
  IsPushOnly s = true ∧ last_push (length s) s [] = Some (List.last bs []).
Proof.
  intros Hbs s. unfold s, IsPushOnly. rewrite push_all_concat.
  split; [by apply instructions_push_all|]. by apply push_all_loops.
Qed.

Lemma pushed_script_reads_back_witness :
  let s := push_all [[1; 2]; []; replicate 300 7] in
  instructions (length s) s = Some [(2, [1; 2]); (OP_0, []); (OP_PUSHDATA2, replicate 300 7)] ∧
  IsPushOnly s = true ∧ last_push (length s) s [] = Some (replicate 300 7).
Proof.
  apply (pushed_script_reads_back [[1; 2]; []; replicate 300 7]).
  repeat (apply Forall_cons; split; [by vm_compute|]). apply Forall_nil_2.
Defined.

(** ** Signature operations *)

Lemma sigops_bounds fuel pc last n n' :
  (length pc ≤ fuel)%nat → 0 ≤ n ≤ n' → n' + 20 * size pc < 2 ^ 32 →
  let a := sigops_loop fuel true pc last n in let b := sigops_loop fuel false pc last n' in
  n ≤ a ≤ b ∧ b ≤ n' + 20 * size pc.
Proof.
  revert pc last n n'. induction fuel as [|fuel IH]; intros pc last n n' Hf Hn Hw; cbn [sigops_loop].
  { destruct pc; [|simpl in Hf; lia]. unfold size. simpl. lia. }
  destruct pc as [|op pc]; [unfold size; simpl; lia|].
  pose proof (GetOp2_progress (op :: pc) ltac:(done)) as Hp. pose proof (size_nonneg (op :: pc)).
  destruct (op_ok (GetOp2 (op :: pc))); simpl negb; cbn iota; [|lia].
  set (r := GetOp2 (op :: pc)) in *. clearbody r.
  assert (20 * size (pc_next r) + 20 ≤ 20 * size (op :: pc)) as Hsz by (unfold size; lia).
  pose proof (size_nonneg (pc_next r)). unfold MAX_PUBKEYS_PER_MULTISIG.
  assert (∀ d d', 0 ≤ d ≤ d' → d' ≤ 20 → u32 (n + d) = n + d ∧ u32 (n' + d') = n' + d') as Hu.
  { intros. split; apply u32_id; unfold word; lia. }
  assert (∀ d d', 0 ≤ d ≤ d' → d' ≤ 20 →
    let a := sigops_loop fuel true (pc_next r) (opcodeRet r) (n + d) in
    let b := sigops_loop fuel false (pc_next r) (opcodeRet r) (n' + d') in
    n ≤ a ≤ b ∧ b ≤ n' + 20 * size (op :: pc)) as Hgo.
  { intros d d' Hd Hd'. destruct (IH (pc_next r) (opcodeRet r) (n + d) (n' + d')); simpl in *; lia. }
  destruct ((opcodeRet r =? OP_CHECKSIG) || _).
  { destruct (Hu 1 1) as [-> ->]; [lia..|]. apply Hgo; lia. }
  destruct ((opcodeRet r =? OP_CHECKMULTISIG) || _).
  2:{ specialize (Hgo 0 0). rewrite !Z.add_0_r in Hgo. apply Hgo; lia. }
  cbn [andb]. unfold OP_1, OP_16. destruct (Z.leb_spec 0x51 last), (Z.leb_spec last 0x60); cbn [andb].
  1: destruct (Hu (last - (0x51 - 1)) 20) as [-> ->]; [lia..|]; apply Hgo; lia.
  all: destruct (Hu 20 20) as [-> ->]; [lia..|]; apply Hgo; lia.
Qed.

(** The accurate count of signature operations never exceeds the legacy
    count, which never exceeds twenty per byte of script: for scripts below 200 MB
    the 32-bit counter does not wrap. *)
Theorem sigop_count_bounds s :
  size s ≤ 200000000 →
  0 ≤ GetSigOpCount true s ≤ GetSigOpCount false s ∧ GetSigOpCount false s ≤ 20 * size s.
Proof.
  intros Hs. pose proof (size_nonneg s).
  destruct (sigops_bounds (length s) s OP_INVALIDOPCODE 0 0) as [Ha Hb]; [lia..|].
  unfold GetSigOpCount. simpl in *. lia.
Qed.

Lemma sigop_count_bounds_witness :
  GetSigOpCount true [OP_2; OP_CHECKMULTISIG; OP_CHECKSIG] ≤
  GetSigOpCount false [OP_2; OP_CHECKMULTISIG; OP_CHECKSIG] ≤ 60.
Proof.
  destruct (sigop_count_bounds [OP_2; OP_CHECKMULTISIG; OP_CHECKSIG]) as [[_ H1] H2];
    [by vm_compute|]. split; [exact H1|exact H2].
Defined.

(** ** [FindAndDelete] *)

(** What deletion means: copies of [b] go where an instruction could start, the
    other instructions stay, and so does what follows the last whole one. *)
Definition copy_at (b s : CScript) : bool :=
  (length b <=? length s)%nat && bool_decide (take (length b) s = b).

Inductive deletes (b : CScript) : CScript → CScript → Z → Prop :=
  | deletes_copy s s' k :
      copy_at b s = true → deletes b (drop (length b) s) s' k → deletes b s s' (k + 1)
  | deletes_instr s s' pre k :
      copy_at b s = false → op_ok (GetOp2 s) = true → s = pre ++ pc_next (GetOp2 s) →
      deletes b (pc_next (GetOp2 s)) s' k → deletes b s (pre ++ s') k
  | deletes_end s :
      copy_at b s = false → op_ok (GetOp2 s) = false → deletes b s s 0.

Lemma copy_at_length b s :
  b ≠ [] → copy_at b s = true → (length (drop (length b) s) < length s)%nat.
Proof.
  intros Hb [Hl _]%andb_prop. apply Nat.leb_le in Hl. rewrite length_drop.
  destruct b; [done|]. simpl in *. lia.
Qed.

Lemma skip_copies_spec fuel b s n :
  b ≠ [] → (length s ≤ fuel)%nat →
  let r := skip_copies fuel b s n in
  copy_at b r.1 = false ∧ (length r.1 ≤ length s)%nat ∧
  ∀ s' k, deletes b r.1 s' k → deletes b s s' (k + (r.2 - n)).
Proof.
  intros Hb. revert s n. induction fuel as [|fuel IH]; intros s n Hf; cbn [skip_copies].
  { destruct s; [|simpl in Hf; lia]. simpl. split; [by destruct b|]. split; [done|].
    intros. by rewrite Z.sub_diag, Z.add_0_r. }
  fold (copy_at b s). destruct (copy_at b s) eqn:E.
  - pose proof (copy_at_length b s Hb E). destruct (IH (drop (length b) s) (n + 1)) as (H1 & H2 & H3); [lia|].
    split; [done|]. split; [lia|]. intros s' k Hd.
    replace (k + _) with (k + ((skip_copies fuel b (drop (length b) s) (n + 1)).2 - (n + 1)) + 1) by lia.
    apply deletes_copy; auto.
  - simpl. split; [done|]. split; [done|]. intros. by rewrite Z.sub_diag, Z.add_0_r.
Qed.

Lemma FindAndDelete_loop_spec fuel b kept s n result :
  b ≠ [] → (length s < fuel)%nat →
  ∃ s' k, deletes b s s' k ∧
    FindAndDelete_loop fuel b kept s n result = (n + k, result ++ kept ++ s').
Proof.
  intros Hb. revert kept s n result. induction fuel as [|fuel IH]; intros kept s n result Hf; [lia|].
  cbn [FindAndDelete_loop].
  destruct (skip_copies_spec (length s) b s n Hb ltac:(done)) as (Hc & Hl & Hd).
  destruct (skip_copies (length s) b s n) as [pc n'] eqn:E. simpl in *.
  destruct (op_ok (GetOp2 pc)) eqn:Hok.
  - destruct pc as [|op pc]; [done|]. pose proof (GetOp2_progress (op :: pc) ltac:(done)) as Hp.
    destruct (GetOp2_suffix op pc) as [pre Hpre].
    set (next := pc_next (GetOp2 (op :: pc))) in *.
    assert (take (length (op :: pc) - length next) (op :: pc) = op :: pre) as ->.
    { rewrite Hpre. simpl. rewrite length_app.
      replace (S (length pre + length next) - length next)%nat with (S (length pre)) by lia.
      simpl. f_equal. apply take_app_length. }
    destruct (IH (op :: pre) next n' (result ++ kept)) as (s' & k & Hs' & ->); [simpl in *; lia|].
    exists ((op :: pre) ++ s'), (k + (n' - n)). split.
    + apply Hd. by apply deletes_instr.
    + rewrite <- app_assoc. f_equal. lia.
  - exists pc, (0 + (n' - n)). split; [apply Hd; by apply deletes_end|].
    rewrite <- app_assoc. f_equal. lia.
Qed.

Lemma deletes_count b s s' k :
  deletes b s s' k → 0 ≤ k ∧ size s = size s' + k * size b ∧ (k = 0 → s' = s).
Proof.
  induction 1 as [s s' k Hc _ (IH1 & IH2 & _)|s s' pre k _ _ E _ (IH1 & IH2 & IH3)|s _ _].
  - apply andb_prop in Hc as [Hl%Nat.leb_le _]. unfold size in *. rewrite length_drop in IH2.
    split; [lia|]. split; [lia|]. lia.
  - split; [done|]. split; [rewrite E, !size_app, IH2; lia|]. intros Hk. by rewrite E at 1; rewrite IH3.
  - split; [done|]. split; [lia|done].
Qed.

Lemma FindAndDelete_deletes s b :
  b ≠ [] → deletes b s (FindAndDelete s b).2 (FindAndDelete s b).1.
Proof.
  intros Hb. unfold FindAndDelete. destruct b as [|x b'] eqn:Eb; [done|]. rewrite <- Eb in *.
  destruct (FindAndDelete_loop_spec (S (length s)) b [] s 0 []) as (s' & k & Hd & ->); [done|lia|].
  simpl. destruct (deletes_count _ _ _ _ Hd) as (H0 & Hs & Hz).
  rewrite Z.add_0_l. destruct (Z.ltb_spec 0 k); [auto|]. assert (k = 0) as -> by lia. by rewrite Hz in Hd.
Qed.

(** [FindAndDelete] is total and implements the deletion relation: copies of
    the pattern are removed exactly at instruction boundaries, every other
    instruction and an unreadable tail are kept, the returned number counts the
    copies, the script shrinks by that many pattern lengths, and a script with no
    copy is left unchanged. *)
Theorem FindAndDelete_refines s b :
  b ≠ [] →
  let '(nFound, s') := FindAndDelete s b in
  deletes b s s' nFound ∧ 0 ≤ nFound ∧ size s = size s' + nFound * size b.
Proof.
  intros Hb. pose proof (FindAndDelete_deletes s b Hb) as Hd. destruct (FindAndDelete s b) as [k s'].
  destruct (deletes_count _ _ _ _ Hd) as (? & ? & _). auto.
Qed.

Lemma FindAndDelete_refines_witness :
  let '(nFound, s') := FindAndDelete [2; 7; 7; 1; 9; 1; 9; 0x87] [1; 9] in
  deletes [1; 9] [2; 7; 7; 1; 9; 1; 9; 0x87] s' nFound ∧ nFound = 2 ∧ s' = [2; 7; 7; 0x87].
Proof.
  pose proof (FindAndDelete_refines [2; 7; 7; 1; 9; 1; 9; 0x87] [1; 9] ltac:(done)) as H.
  vm_compute in H |- *. split; [apply H|done].
Defined.
