(* ===== verification/Standard.v ===== *)
(** * Script templates

    [src/src/script/standard.cpp]: which template an output script follows
    ([Solver]), the addresses it pays to, and the scripts that pay to an address;
    among the templates, the two registrations of the ADAM miners.  The parts of
    [src/src/pubkey.h] the templates use; and of the MESCAL decompiler in
    [src/src/script/mescal.cpp], which [Solver] consults before it looks for the
    registrations, the two patterns that come first.

    [later] stands for what the decompiler does with a script that is not one of
    these two patterns from end to end: the number of actions it finds, or an
    error.  [Hash160] is the key hash. *)

From stdpp Require Import option.
From S2P Require Import Prelude Ints Serialize Transaction Script.

Local Open Scope Z_scope.

(** ** Public keys *)

(** A [CPubKey] is the bytes [begin()..end()] of a valid key; the one invalid
    value, made by [Invalidate], is the byte [0xFF]. *)
Abbreviation CPubKey := (list Z) (only parsing).

Definition GetLen (chHeader : Z) : nat :=
  if (chHeader =? 2) || (chHeader =? 3) then 33
  else if (chHeader =? 4) || (chHeader =? 6) || (chHeader =? 7) then 65
  else 0.

Definition ValidSize (vch : list Z) : bool :=
  match vch with [] => false | b :: _ => (GetLen b =? length vch)%nat end.

Definition Invalid : CPubKey := [0xFF].

(** The constructor from bytes. *)
Definition Set_key (bytes : list Z) : CPubKey :=
  let len := match bytes with [] => O | b :: _ => GetLen b end in
  if negb (len =? 0)%nat && (len =? length bytes)%nat then bytes else Invalid.

Definition key_size (k : CPubKey) : nat := GetLen (hd 0xFF k).

Definition IsValid (k : CPubKey) : bool := (0 <? key_size k)%nat.

(** ** Templates *)

Inductive txnouttype :=
  | TX_NONSTANDARD | TX_PUBKEY | TX_PUBKEYHASH | TX_SCRIPTHASH | TX_MULTISIG | TX_NULL_DATA
  | TX_WITNESS_V1_TAPROOT | TX_CONTRACT_PUBLISH | TX_CONTRACT_RUN | TX_CONTRACT_STATUS
  | TX_MESCAL_CONTRACT | TX_ADAM_COINLOCK | TX_ADAM_POWLOCK.

#[export] Instance txnouttype_eq_dec : EqDecision txnouttype.
Proof. solve_decision. Defined.

(** [GetOp]: opcode, data and the iterator after it. *)
Definition GetOp (pc : CScript) : option (Z * list Z * CScript) :=
  let r := GetOp2 pc in if op_ok r then Some (opcodeRet r, vchRet r, pc_next r) else None.

(** [!script.GetOp(pc, op) || op != expected], the negation. *)
Definition expect (expected : Z) (pc : CScript) : option CScript :=
  '(op, _, pc) ← GetOp pc; if op =? expected then Some pc else None.

(** A data element of the given size. *)
Definition expect_data (sz : Z) (pc : CScript) : option (list Z * CScript) :=
  '(_, d, pc) ← GetOp pc; if size d =? sz then Some (d, pc) else None.

Definition MatchPayToPubkey (script : CScript) : option (list Z) :=
  if (size script =? 65 + 2) && (script.[0] =? 65) && (back script =? OP_CHECKSIG) then
    let pubkey := take 65 (drop 1 script) in if ValidSize pubkey then Some pubkey else None
  else if (size script =? 33 + 2) && (script.[0] =? 33) && (back script =? OP_CHECKSIG) then
    let pubkey := take 33 (drop 1 script) in if ValidSize pubkey then Some pubkey else None
  else None.

Definition MatchPayToPubkeyHash (script : CScript) : option (list Z) :=
  if (size script =? 25) && (script.[0] =? OP_DUP) && (script.[1] =? OP_HASH160)
     && (script.[2] =? 20) && (script.[23] =? OP_EQUALVERIFY) && (script.[24] =? OP_CHECKSIG)
  then Some (take 20 (drop 3 script)) else None.

Definition IsSmallInteger (opcode : Z) : bool := (OP_1 <=? opcode) && (opcode <=? OP_16).

(** The loop over the keys: the last opcode read, the keys, the iterator. *)
Fixpoint multisig_keys (fuel : nat) (it : CScript) (pubkeys : list (list Z)) :
    Z * list (list Z) * CScript :=
  match fuel with
  | O => (OP_INVALIDOPCODE, pubkeys, it)
  | S fuel =>
      let r := GetOp2 it in
      if op_ok r && ValidSize (vchRet r)
      then multisig_keys fuel (pc_next r) (pubkeys ++ [vchRet r])
      else (opcodeRet r, pubkeys, pc_next r)
  end.

Definition MatchMultisig (script : CScript) : option (Z * list (list Z)) :=
  if (size script <? 1) || negb (back script =? OP_CHECKMULTISIG) then None
  else
    '(opcode, _, it) ← GetOp script;
    if negb (IsSmallInteger opcode) then None
    else
      required ← DecodeOP_N opcode;
      let '(opcode, pubkeys, it) := multisig_keys (S (length it)) it [] in
      if negb (IsSmallInteger opcode) then None
      else
        keys ← DecodeOP_N opcode;
        if negb (Z.of_nat (length pubkeys) =? keys) || (keys <? required) then None
        else if (length it =? 1)%nat then Some (required, pubkeys) else None.

(** The loop of the three contract matchers, up to the last byte. *)
Fixpoint pushes_to_last (fuel : nat) (pc : CScript) : bool :=
  match fuel with
  | O => true
  | S fuel =>
      if (1 <? length pc)%nat then
        let r := GetOp2 pc in
        if negb (op_ok r) then false
        else if OP_16 <? opcodeRet r then false
        else pushes_to_last fuel (pc_next r)
      else true
  end.

Definition MatchContract (last : Z) (script : CScript) : bool :=
  if (size script <? 2) || negb (back script =? last) then false
  else pushes_to_last (length script) script.

Definition MatchContractPublish : CScript → bool := MatchContract OP_PUBLISH.
Definition MatchContractRun : CScript → bool := MatchContract OP_RUN.
Definition MatchContractStatus : CScript → bool := MatchContract OP_UPDATE_STATUS.

Record registration := MkRegistration {
  reg_nonce : list Z; reg_challenge : list Z; reg_pubkey : CPubKey; reg_lockTime : Z;
  reg_pubkeyHash : list Z }.

(** The part the two registrations share, from the lock time on. *)
Definition lock_tail (vchPubKey : list Z) (nonce challenge : list Z) (pc : CScript) :
    option registration :=
  '(_, vchLockTime, pc) ← GetOp pc;
  pc ← expect OP_CHECKLOCKTIMEVERIFY pc;
  pc ← expect OP_DROP pc;
  pc ← expect OP_DUP pc;
  pc ← expect OP_HASH160 pc;
  '(vchHash, pc) ← expect_data 20 pc;
  pc ← expect OP_EQUALVERIFY pc;
  pc ← expect OP_CHECKSIG pc;
  if negb (bool_decide (pc = [])) then None
  else if negb (IsValid (Set_key vchPubKey)) then None
  else
    lockTime ← CScriptNum vchLockTime true nDefaultMaxNumSize;
    Some (MkRegistration nonce challenge (Set_key vchPubKey) lockTime vchHash).

Definition MatchCoinLockRegistration (script : CScript) : option registration :=
  if size script <? 60 then None
  else
    '(vchPubKey, pc) ← expect_data 33 script;
    pc ← expect OP_DROP pc;
    lock_tail vchPubKey [] [] pc.

Definition MatchPoWLockRegistration (script : CScript) : option registration :=
  if size script <? 95 then None
  else
    '(_, vchNonce, pc) ← GetOp script;
    if bool_decide (vchNonce = []) then None
    else
      '(vchChallenge, pc) ← expect_data 32 pc;
      '(vchPubKey, pc) ← expect_data 33 pc;
      pc ← expect OP_DROP pc;
      pc ← expect OP_DROP pc;
      pc ← expect OP_DROP pc;
      lock_tail vchPubKey vchNonce vchChallenge pc.

(** ** The first two patterns of the MESCAL decompiler *)

(** [MatchPattern]: [OP_PUSHDATA4] in the pattern stands for any data push. *)
Fixpoint MatchPattern (pattern : list Z) (pc : CScript) (pushedData : list (list Z)) :
    option (list (list Z) * CScript) :=
  match pattern with
  | [] => Some (pushedData, pc)
  | expected :: pattern =>
      '(op, data, pc) ← GetOp pc;
      if expected =? OP_PUSHDATA4 then
        if (0 <=? op) && (op <=? OP_PUSHDATA4) then MatchPattern pattern pc (pushedData ++ [data]) else None
      else if negb (op =? expected) then None
      else MatchPattern pattern pc pushedData
  end.

Definition IsPubKey (vch : list Z) : bool :=
  ((size vch =? 33) && ((vch.[0] =? 0x02) || (vch.[0] =? 0x03))) || ((size vch =? 65) && (vch.[0] =? 0x04)).

Definition coinlock_pattern : list Z :=
  [OP_PUSHDATA4; OP_DROP; OP_PUSHDATA4; OP_CHECKLOCKTIMEVERIFY; OP_DROP; OP_DUP; OP_HASH160;
   OP_PUSHDATA4; OP_EQUALVERIFY; OP_CHECKSIG].

Definition powlock_pattern : list Z :=
  [OP_PUSHDATA4; OP_PUSHDATA4; OP_PUSHDATA4; OP_DROP; OP_DROP; OP_DROP; OP_PUSHDATA4;
   OP_CHECKLOCKTIMEVERIFY; OP_DROP; OP_DUP; OP_HASH160; OP_PUSHDATA4; OP_EQUALVERIFY; OP_CHECKSIG].

(** A pattern whose key and lock time are at these positions: no match, the
    exception of [CScriptNum], or the position after the block. *)
Definition reg_block (pattern : list Z) (key time : nat) (script : CScript) : option (option CScript) :=
  '(pushes, pc) ← MatchPattern pattern script [];
  if IsPubKey (nth key pushes []) then
    Some (_ ← CScriptNum (nth time pushes []) true nDefaultMaxNumSize; Some pc)
  else None.

Section Solver.
  Context (later : CScript → option Z) (Hash160 : list Z → list Z).

(** The number of actions of a decompiled script, [None] on an error.  A
    registration that is the whole script leaves one block on the stack. *)
Definition Decompile_actions (script : CScript) : option Z :=
  match reg_block coinlock_pattern 0 1 script with
  | Some (Some []) => Some 1
  | Some (Some _) => later script
  | Some None => None
  | None =>
      match reg_block powlock_pattern 2 3 script with
      | Some (Some []) => Some 1
      | Some None => None
      | _ => later script
      end
  end.

(** The result, the type and the solutions. *)
Definition Solver (scriptPubKey : CScript) : bool * txnouttype * list (list Z) :=
  if IsPayToScriptHash scriptPubKey then
    (true, TX_SCRIPTHASH, [take 20 (drop 2 scriptPubKey)])
  else if (size scriptPubKey =? 34) && (scriptPubKey.[0] =? OP_1) && (scriptPubKey.[1] =? 32) then
    (true, TX_WITNESS_V1_TAPROOT, [drop 2 scriptPubKey])
  else if (1 <=? size scriptPubKey) && (scriptPubKey.[0] =? OP_RETURN) && IsPushOnly (drop 1 scriptPubKey) then
    (true, TX_NULL_DATA, [])
  else
    match MatchPayToPubkey scriptPubKey with
    | Some data => (true, TX_PUBKEY, [data])
    | None =>
    match MatchPayToPubkeyHash scriptPubKey with
    | Some data => (true, TX_PUBKEYHASH, [data])
    | None =>
    match MatchMultisig scriptPubKey with
    | Some (required, keys) =>
        (true, TX_MULTISIG, [[u8 required]] ++ keys ++ [[u8 (Z.of_nat (length keys))]])
    | None =>
    if MatchContractPublish scriptPubKey || MatchContractRun scriptPubKey || MatchContractStatus scriptPubKey
    then (false, TX_NONSTANDARD, [])
    else if negb (IsPushOnly scriptPubKey)
            && match Decompile_actions scriptPubKey with Some n => 0 <? n | None => false end
    then (true, TX_MESCAL_CONTRACT, [])
    else
    match MatchCoinLockRegistration scriptPubKey with
    | Some r => (true, TX_ADAM_COINLOCK, [reg_pubkeyHash r; reg_pubkey r])
    | None =>
    match MatchPoWLockRegistration scriptPubKey with
    | Some r => (true, TX_ADAM_POWLOCK, [reg_pubkeyHash r; reg_pubkey r])
    | None => (false, TX_NONSTANDARD, [])
    end end end end end.

Definition ScriptSigArgsExpected (t : txnouttype) (vSolutions : list (list Z)) : Z :=
  match t with
  | TX_NONSTANDARD | TX_NULL_DATA | TX_CONTRACT_PUBLISH | TX_CONTRACT_RUN | TX_CONTRACT_STATUS
  | TX_MESCAL_CONTRACT => -1
  | TX_PUBKEY => 1
  | TX_PUBKEYHASH | TX_ADAM_COINLOCK | TX_ADAM_POWLOCK => 2
  | TX_MULTISIG => match vSolutions with (b :: _) :: _ => b + 1 | _ => -1 end
  | TX_SCRIPTHASH => 1
  | TX_WITNESS_V1_TAPROOT => 1
  end.

(** [CTxDestination]; ids and keys are their bytes. *)
Inductive CTxDestination :=
  | CNoDestination | CKeyID (id : list Z) | CScriptID (id : list Z) | WitnessV1Taproot (xonly : list Z).

Definition ExtractDestination (scriptPubKey : CScript) : option CTxDestination :=
  match Solver scriptPubKey with
  | (false, _, _) => None
  | (true, t, vSolutions) =>
      let s0 := nth 0 vSolutions [] in
      match t with
      | TX_PUBKEY => if negb (IsValid (Set_key s0)) then None else Some (CKeyID (Hash160 (Set_key s0)))
      | TX_PUBKEYHASH | TX_ADAM_COINLOCK | TX_ADAM_POWLOCK => Some (CKeyID s0)
      | TX_SCRIPTHASH => Some (CScriptID s0)
      | TX_WITNESS_V1_TAPROOT => Some (WitnessV1Taproot s0)
      | _ => None
      end
  end.

(** The type, the addresses and the number required. *)
Definition ExtractDestinations (scriptPubKey : CScript) :
    option (txnouttype * list CTxDestination * Z) :=
  match Solver scriptPubKey with
  | (false, _, _) => None
  | (true, t, vSolutions) =>
      match t with
      | TX_NULL_DATA => None
      | TX_MULTISIG =>
          let keys := filter (λ k, IsValid k = true)
                        (map Set_key (take (length vSolutions - 2) (drop 1 vSolutions))) in
          if bool_decide (keys = []) then None
          else Some (t, map (λ k, CKeyID (Hash160 k)) keys, (nth 0 vSolutions []).[0])
      | _ =>
          match ExtractDestination scriptPubKey with
          | None => None
          | Some address => Some (t, [address], 1)
          end
      end
  end.
End Solver.

(** The opcode operator on the opcodes the templates use. *)
Definition op (s : CScript) (opcode : Z) : CScript := s ++ [opcode].

Definition GetScriptForDestination (dest : CTxDestination) : CScript :=
  match dest with
  | CNoDestination => []
  | CKeyID keyID => op (op (push_vch (op (op [] OP_DUP) OP_HASH160) keyID) OP_EQUALVERIFY) OP_CHECKSIG
  | CScriptID scriptID => op (push_vch (op [] OP_HASH160) scriptID) OP_EQUAL
  | WitnessV1Taproot xonly => push_vch (op [] OP_1) xonly
  end.

Definition GetScriptForRawPubKey (pubKey : CPubKey) : CScript := op (push_vch [] pubKey) OP_CHECKSIG.

(** [None] where [EncodeOP_N] asserts. *)
Definition GetScriptForMultisig (nRequired : Z) (keys : list CPubKey) : option CScript :=
  m ← EncodeOP_N nRequired;
  n ← EncodeOP_N (Z.of_nat (length keys));
  Some (op (op (foldl push_vch (op [] m) keys) n) OP_CHECKMULTISIG).

Definition IsValidDestination (dest : CTxDestination) : bool :=
  match dest with CNoDestination => false | _ => true end.

(** The registration scripts of [createcoinlock] and [createpowlock] in the mining
    RPCs. *)
Definition lock_script_tail (locktime : Z) (keyID : list Z) (s : CScript) : CScript :=
  op (op (push_vch (op (op (op (op (push_vch s (serialize locktime)) OP_CHECKLOCKTIMEVERIFY) OP_DROP)
    OP_DUP) OP_HASH160) keyID) OP_EQUALVERIFY) OP_CHECKSIG.

Definition coinlock_script (pubkey : CPubKey) (locktime : Z) (keyID : list Z) : CScript :=
  lock_script_tail locktime keyID (op (push_vch [] pubkey) OP_DROP).

Definition powlock_script (nonce challenge : list Z) (pubkey : CPubKey) (locktime : Z) (keyID : list Z) :
    CScript :=
  lock_script_tail locktime keyID
    (op (op (op (push_vch (push_vch (push_vch [] nonce) challenge) pubkey) OP_DROP) OP_DROP) OP_DROP).

(** ** Reading templates *)

Lemma GetOp_push b rest :
  size b < 2 ^ 32 → GetOp (push_vch [] b ++ rest) = Some (push_op b, b, rest).
Proof. intros H. unfold GetOp. by rewrite GetOp2_push. Qed.

Lemma GetOp2_opcode o rest : OP_PUSHDATA4 < o → GetOp2 (o :: rest) = OpRead true o [] rest.
Proof. intros H. simpl. by rewrite (proj2 (Z.leb_gt _ _)). Qed.

Lemma GetOp_opcode o rest : OP_PUSHDATA4 < o → GetOp (o :: rest) = Some (o, [], rest).
Proof. intros H. unfold GetOp. by rewrite GetOp2_opcode. Qed.

Lemma expect_op o rest : OP_PUSHDATA4 < o → expect o (o :: rest) = Some rest.
Proof. intros H. unfold expect. rewrite GetOp_opcode by done. simpl. by rewrite Z.eqb_refl. Qed.

Lemma expect_data_push sz b rest :
  size b = sz → sz < 2 ^ 32 → expect_data sz (push_vch [] b ++ rest) = Some (b, rest).
Proof. intros <- H. unfold expect_data. rewrite GetOp_push by done. simpl. by rewrite Z.eqb_refl. Qed.

Lemma MatchPattern_push pattern b rest acc :
  size b < 2 ^ 32 →
  MatchPattern (OP_PUSHDATA4 :: pattern) (push_vch [] b ++ rest) acc = MatchPattern pattern rest (acc ++ [b]).
Proof.
  intros H. cbn [MatchPattern]. rewrite GetOp_push by done. simpl.
  pose proof (size_nonneg b). unfold push_op, OP_PUSHDATA1, OP_PUSHDATA2, OP_PUSHDATA4.
  destruct (Z.ltb_spec (size b) 0x4c); [by rewrite (proj2 (Z.leb_le 0 _)), (proj2 (Z.leb_le _ 0x4e)) by lia|].
  by repeat case_match.
Qed.

Lemma MatchPattern_op pattern o rest acc :
  OP_PUSHDATA4 < o → MatchPattern (o :: pattern) (o :: rest) acc = MatchPattern pattern rest acc.
Proof.
  intros H. cbn [MatchPattern]. rewrite GetOp_opcode by done. simpl.
  rewrite (proj2 (Z.eqb_neq _ _)) by lia. by rewrite Z.eqb_refl.
Qed.

Lemma lock_script_tail_eq t id s :
  lock_script_tail t id s =
  s ++ push_vch [] (serialize t) ++ [OP_CHECKLOCKTIMEVERIFY; OP_DROP; OP_DUP; OP_HASH160] ++
  push_vch [] id ++ [OP_EQUALVERIFY; OP_CHECKSIG].
Proof.
  unfold lock_script_tail, op. rewrite (push_vch_app s), (push_vch_app (_ ++ [OP_HASH160])).
  by rewrite <- !app_assoc.
Qed.

(** A lock time the number constructor accepts with its default limit. *)
Definition locktime_ok (t : Z) : Prop := Z.abs t < 2 ^ 31.

Lemma size_serialize_lt t : locktime_ok t → size (serialize t) ≤ 4.
Proof.
  intros Ht. unfold locktime_ok in Ht. pose proof (scriptnum_decodes t 4 ltac:(lia) ltac:(lia) Ht false) as H.
  unfold CScriptNum in H. destruct (Z.ltb_spec 4 (size (serialize t))); [done|lia].
Qed.

Definition compressed (pubkey : CPubKey) : Prop := size pubkey = 33 ∧ (pubkey.[0] = 2 ∨ pubkey.[0] = 3).

Lemma compressed_valid k : compressed k → Set_key k = k ∧ IsValid k = true ∧ IsPubKey k = true ∧ ValidSize k = true.
Proof.
  intros [Hs H0]. unfold size in Hs. destruct k as [|b k]; [simpl in Hs; lia|]. simpl in H0.
  assert (length (b :: k) = 33%nat) as Hl by lia. unfold Set_key, IsValid, key_size, IsPubKey, ValidSize, size.
  rewrite Hl. simpl hd. simpl nth.
  destruct H0 as [->| ->]; by rewrite ?Hl.
Qed.

Lemma lock_tail_read t id pk nonce ch :
  locktime_ok t → size id = 20 → compressed pk →
  lock_tail pk nonce ch
    (push_vch [] (serialize t) ++ [OP_CHECKLOCKTIMEVERIFY; OP_DROP; OP_DUP; OP_HASH160] ++
     push_vch [] id ++ [OP_EQUALVERIFY; OP_CHECKSIG]) = Some (MkRegistration nonce ch pk t id).
Proof.
  intros Ht Hid Hpk. destruct (compressed_valid pk Hpk) as (Hset & Hv & _).
  pose proof (size_serialize_lt t Ht). unfold lock_tail.
  rewrite GetOp_push by lia. cbn [mbind option_bind app].
  do 4 (rewrite expect_op by done; cbn [mbind option_bind]).
  rewrite (expect_data_push 20 id) by (done || lia). cbn [mbind option_bind].
  do 2 (rewrite expect_op by done; cbn [mbind option_bind]).
  rewrite Hset, Hv. simpl. unfold locktime_ok in Ht.
  by rewrite (scriptnum_decodes t nDefaultMaxNumSize) by (unfold nDefaultMaxNumSize; simpl; lia).
Qed.

Lemma MatchPattern_tail t id acc :
  locktime_ok t → size id = 20 →
  MatchPattern [OP_PUSHDATA4; OP_CHECKLOCKTIMEVERIFY; OP_DROP; OP_DUP; OP_HASH160; OP_PUSHDATA4;
                OP_EQUALVERIFY; OP_CHECKSIG]
    (push_vch [] (serialize t) ++ [OP_CHECKLOCKTIMEVERIFY; OP_DROP; OP_DUP; OP_HASH160] ++
     push_vch [] id ++ [OP_EQUALVERIFY; OP_CHECKSIG]) acc = Some (acc ++ [serialize t; id], []).
Proof.
  intros Ht Hid. pose proof (size_serialize_lt t Ht).
  rewrite MatchPattern_push by lia. cbn [app].
  do 4 (rewrite MatchPattern_op by done). rewrite MatchPattern_push by lia.
  do 2 (rewrite MatchPattern_op by done). simpl. by rewrite <- app_assoc.
Qed.

Lemma size_cons x l : size (x :: l) = size l + 1.
Proof. unfold size. simpl. lia. Qed.

Lemma size_push b : size b < 0x4c → push_vch [] b = size b :: b.
Proof.
  intros H. unfold push_vch. rewrite app_nil_l. unfold OP_PUSHDATA1.
  rewrite (proj2 (Z.ltb_lt _ _)) by done. pose proof (size_nonneg b).
  by rewrite u8_id by (split; simpl; lia).
Qed.

(** The end of a registration script, and its length. *)
Lemma lock_tail_back t id s : back (lock_script_tail t id s) = OP_CHECKSIG.
Proof. unfold lock_script_tail, op. apply back_snoc. Qed.

Lemma lock_tail_size t id s :
  locktime_ok t → size id = 20 → size s + 28 ≤ size (lock_script_tail t id s) ≤ size s + 32.
Proof.
  intros Ht Hid. pose proof (size_serialize_lt t Ht). pose proof (size_nonneg (serialize t)).
  rewrite lock_script_tail_eq, !size_push by lia. rewrite !size_app, !size_cons.
  change (size []) with 0. lia.
Qed.

Section Theorems.
  Context (later : CScript → option Z) (Hash160 : list Z → list Z).

(** No template before the decompiler takes a script that starts with a data
    element, ends with [OP_CHECKSIG] and is longer than those of keys and hashes. *)
Lemma Solver_skips s b rest :
  s = push_vch [] b ++ rest → size b < 65 → 60 ≤ size s → back s = OP_CHECKSIG → IsPushOnly s = false →
  (∃ n, Decompile_actions later s = Some n ∧ 0 < n) → Solver later s = (true, TX_MESCAL_CONTRACT, []).
Proof using Type.
  intros Hs Hb Hsz Hback Hpush (k & Hk & Hpos). pose proof (size_nonneg b).
  assert (s.[0] = size b) as H0 by (rewrite Hs, size_push by lia; done).
  unfold Solver, IsPayToScriptHash, MatchPayToPubkey, MatchPayToPubkeyHash.
  rewrite H0, Hback, Hpush.
  rewrite (proj2 (Z.eqb_neq (size s) 23)), (proj2 (Z.eqb_neq (size s) 34)),
    (proj2 (Z.eqb_neq (size s) (33 + 2))), (proj2 (Z.eqb_neq (size s) 25)),
    (proj2 (Z.eqb_neq (size b) 65)), (proj2 (Z.eqb_neq (size b) OP_RETURN)) by (unfold OP_RETURN; lia).
  rewrite !andb_false_r. cbn [andb].
  assert (MatchMultisig s = None) as ->.
  { unfold MatchMultisig. destruct ((size s <? 1) || _); [done|].
    rewrite Hs, GetOp_push by lia. simpl. unfold push_op, OP_PUSHDATA1.
    rewrite (proj2 (Z.ltb_lt _ _)) by lia. unfold IsSmallInteger, OP_1.
    by rewrite (proj2 (Z.leb_gt 0x51 _)) by lia. }
  unfold MatchContractPublish, MatchContractRun, MatchContractStatus, MatchContract. rewrite Hback.
  rewrite !orb_true_r. simpl. rewrite Hk. by rewrite (proj2 (Z.ltb_lt _ _)).
Qed.

Lemma IsPushOnly_opcode fuel o rest : OP_16 < o → IsPushOnly_loop (S fuel) (o :: rest) = false.
Proof using Type.
  intros H. cbn [IsPushOnly_loop]. unfold OP_16 in *. rewrite GetOp2_opcode by (unfold OP_PUSHDATA4; lia).
  simpl. by rewrite (proj2 (Z.ltb_lt _ _)).
Qed.

(** A script that pushes and then executes something is not push-only. *)
Lemma IsPushOnly_pushes bs fuel o rest :
  Forall (λ b, size b < 2 ^ 32) bs → OP_16 < o → (length bs < fuel)%nat →
  IsPushOnly_loop fuel (concat (map (push_vch []) bs) ++ o :: rest) = false.
Proof using Type.
  intros Hbs Ho. revert fuel. induction Hbs as [|b bs Hb _ IH]; intros [|fuel] Hf; simpl in Hf; try lia.
  - by apply IsPushOnly_opcode.
  - cbn [map concat]. rewrite <- app_assoc, IsPushOnly_push by done. apply IH. lia.
Qed.

(** C38: the coin-lock registration the mining RPC builds is recognised by its own
    matcher, with the key, lock time and key hash it was built from; but [Solver]
    asks the MESCAL decompiler first, which takes the same script as a contract of
    one action.  So the registration never gets the type TX_ADAM_COINLOCK, and no
    destination is extracted from it, whatever the rest of the decompiler does. *)
Theorem coinlock_registration_shadowed pubkey t keyID :
  compressed pubkey → locktime_ok t → size keyID = 20 →
  let s := coinlock_script pubkey t keyID in
  MatchCoinLockRegistration s = Some (MkRegistration [] [] pubkey t keyID) ∧
  Solver later s = (true, TX_MESCAL_CONTRACT, []) ∧ ExtractDestination later Hash160 s = None.
Proof using Type.
  intros Hpk Ht Hid s. pose proof Hpk as [Hsz _]. destruct (compressed_valid pubkey Hpk) as (_ & _ & Hip & _).
  assert (60 ≤ size s) as Hlen.
  { unfold s, coinlock_script. pose proof (lock_tail_size t keyID (op (push_vch [] pubkey) OP_DROP) Ht Hid) as H.
    assert (size (op (push_vch [] pubkey) OP_DROP) = 35) as E; [|lia].
    unfold op. rewrite size_app, size_push, size_cons, Hsz by lia. done. }
  assert (s = push_vch [] pubkey ++ OP_DROP :: (push_vch [] (serialize t) ++
    [OP_CHECKLOCKTIMEVERIFY; OP_DROP; OP_DUP; OP_HASH160] ++ push_vch [] keyID ++ [OP_EQUALVERIFY; OP_CHECKSIG])) as Hs.
  { unfold s, coinlock_script. rewrite lock_script_tail_eq. unfold op. by rewrite <- app_assoc. }
  assert (Solver later s = (true, TX_MESCAL_CONTRACT, [])) as Hsolve.
  { apply (Solver_skips _ pubkey (OP_DROP :: (push_vch [] (serialize t) ++
      [OP_CHECKLOCKTIMEVERIFY; OP_DROP; OP_DUP; OP_HASH160] ++ push_vch [] keyID ++ [OP_EQUALVERIFY; OP_CHECKSIG])));
      [done|lia|done|apply lock_tail_back| |].
    - unfold IsPushOnly. rewrite Hs at 2. rewrite <- (app_nil_r (push_vch [] pubkey)).
      apply (IsPushOnly_pushes [pubkey]); [apply Forall_singleton; lia|done|].
      unfold size in Hlen. simpl. lia.
    - exists 1. split; [|done]. unfold Decompile_actions, reg_block, coinlock_pattern.
      rewrite Hs, MatchPattern_push, MatchPattern_op by (done || lia).
      rewrite MatchPattern_tail by done. cbn [app mbind option_bind nth]. rewrite Hip.
      unfold locktime_ok in Ht.
      by rewrite (scriptnum_decodes t nDefaultMaxNumSize) by (unfold nDefaultMaxNumSize; simpl; lia). }
  split_and!; [|done|unfold ExtractDestination; by rewrite Hsolve].
  unfold MatchCoinLockRegistration. rewrite (proj2 (Z.ltb_ge _ _)) by done.
  rewrite Hs, (expect_data_push 33 pubkey) by (done || lia). cbn [mbind option_bind].
  rewrite expect_op by done. by apply lock_tail_read.
Qed.

(** The same for the registration with a proof of work. *)
Lemma powlock_registration_read nonce challenge pubkey t keyID :
  1 ≤ size nonce < 0x4c → size challenge = 32 → compressed pubkey → locktime_ok t → size keyID = 20 →
  MatchPoWLockRegistration (powlock_script nonce challenge pubkey t keyID) =
  Some (MkRegistration nonce challenge pubkey t keyID).
Proof using Type.
  intros Hn Hc Hpk Ht Hid. pose proof Hpk as [Hsz _]. unfold MatchPoWLockRegistration, powlock_script.
  set (pre := op (op (op _ OP_DROP) OP_DROP) OP_DROP).
  assert (size pre = 70 + size nonce + 1) as Hpre.
  { unfold pre, op. rewrite (push_vch_app (push_vch _ _)), (push_vch_app (push_vch _ _)).
    rewrite !size_push by lia. rewrite !size_app, !size_cons, Hc, Hsz. change (size []) with 0. lia. }
  pose proof (lock_tail_size t keyID pre Ht Hid).
  rewrite (proj2 (Z.ltb_ge _ _)) by lia. rewrite lock_script_tail_eq. unfold pre, op.
  rewrite (push_vch_app (push_vch [] nonce ++ _)) || rewrite (push_vch_app (push_vch (push_vch [] nonce) challenge)).
  rewrite (push_vch_app (push_vch [] nonce)). rewrite <- !app_assoc.
  rewrite GetOp_push by lia. cbn [mbind option_bind app].
  rewrite bool_decide_false by (intros ->; unfold size in Hn; simpl in Hn; lia).
  rewrite (expect_data_push 32 challenge) by (done || lia). cbn [mbind option_bind].
  rewrite (expect_data_push 33 pubkey) by (done || lia). cbn [mbind option_bind].
  do 3 (rewrite expect_op by done; cbn [mbind option_bind]). by apply lock_tail_read.
Qed.

(** Addresses whose ids have the right width. *)
Definition dest_ok (d : CTxDestination) : Prop :=
  match d with
  | CNoDestination => False
  | CKeyID id | CScriptID id => size id = 20
  | WitnessV1Taproot x => size x = 32
  end.

(** Paying to an address and reading the script gives the address back, for
    key hashes, script hashes and taproot keys. *)
Theorem destination_roundtrip d :
  dest_ok d → ExtractDestination later Hash160 (GetScriptForDestination d) = Some d.
Proof using Type.
  destruct d as [|id|id|x]; simpl; [done|..]; intros Hs;
    unfold op; rewrite push_vch_app, size_push, Hs by lia.
  - assert (length id = 20%nat) as Hl by (unfold size in Hs; lia). clear Hs.
    do 20 (destruct id as [|? id]; [done|]). by destruct id.
  - assert (length id = 20%nat) as Hl by (unfold size in Hs; lia). clear Hs.
    do 20 (destruct id as [|? id]; [done|]). by destruct id.
  - assert (length x = 32%nat) as Hl by (unfold size in Hs; lia). clear Hs.
    do 32 (destruct x as [|? x]; [done|]). by destruct x.
Qed.

(** The keys of a multisig script, read by the loop. *)
Lemma multisig_keys_read keys fuel o rest acc :
  Forall (λ k, ValidSize k = true) keys → OP_PUSHDATA4 < o → (length keys < fuel)%nat →
  multisig_keys fuel (concat (map (push_vch []) keys) ++ o :: rest) acc = (o, acc ++ keys, rest).
Proof using Type.
  intros Hk Ho. revert fuel acc. induction Hk as [|k keys Hk _ IH]; intros [|fuel] acc Hf; simpl in Hf; try lia.
  - cbn [map concat app multisig_keys]. rewrite GetOp2_opcode by done. simpl. by rewrite app_nil_r.
  - cbn [map concat multisig_keys]. rewrite <- app_assoc, GetOp2_push.
    + cbn [op_ok vchRet pc_next andb]. rewrite Hk, IH by lia. by rewrite <- app_assoc.
    + unfold ValidSize in Hk. destruct k as [|b k]; [done|]. apply Nat.eqb_eq in Hk. unfold size.
      rewrite <- Hk. unfold GetLen. repeat case_match; simpl; lia.
Qed.

Lemma ValidSize_sizes k : ValidSize k = true → size k = 33 ∨ size k = 65.
Proof using Type.
  unfold ValidSize. destruct k as [|b k]; [done|]. intros H%Nat.eqb_eq. unfold size. rewrite <- H.
  revert H. unfold GetLen. repeat case_match; auto. simpl. lia.
Qed.

Lemma concat_pushes_length keys : (length keys ≤ length (concat (map (push_vch []) keys)))%nat.
Proof using Type.
  induction keys as [|k keys IH]; simpl; [lia|]. rewrite length_app.
  pose proof (push_vch_nonempty k). destruct (push_vch [] k); [done|]. simpl. lia.
Qed.

(** The multisig script of [m] of [n] keys, [1 <= m <= n <= 16], is recognised as
    such, with its keys in order: the first solution is [m], the last is [n]. *)
Theorem multisig_roundtrip m keys :
  1 ≤ m ≤ Z.of_nat (length keys) → Z.of_nat (length keys) ≤ 16 →
  Forall (λ k, ValidSize k = true) keys →
  ∃ s, GetScriptForMultisig m keys = Some s ∧
    Solver later s = (true, TX_MULTISIG, [[m]] ++ keys ++ [[Z.of_nat (length keys)]]).
Proof using Type.
  intros Hm Hn Hk. set (n := Z.of_nat (length keys)) in *.
  assert (∀ i, 1 ≤ i ≤ 16 → EncodeOP_N i = Some (OP_1 + i - 1)) as Henc.
  { intros i Hi. unfold EncodeOP_N. rewrite (proj2 (Z.leb_le 0 i)), (proj2 (Z.leb_le i 16)) by lia. simpl.
    by rewrite (proj2 (Z.eqb_neq _ _)) by lia. }
  assert (∀ i, 1 ≤ i ≤ 16 → IsSmallInteger (OP_1 + i - 1) = true ∧ DecodeOP_N (OP_1 + i - 1) = Some i) as Hdec.
  { intros i Hi. unfold IsSmallInteger, DecodeOP_N, OP_0, OP_1, OP_16.
    rewrite (proj2 (Z.leb_le _ _)), (proj2 (Z.leb_le _ 0x60)), (proj2 (Z.eqb_neq _ _)) by lia. simpl.
    split; [done|]. f_equal. lia. }
  unfold GetScriptForMultisig. fold n. rewrite !Henc by lia. cbn [mbind option_bind].
  eexists. split; [done|]. unfold op. rewrite foldl_push. cbn [app].
  set (sm := OP_1 + m - 1). set (sn := OP_1 + n - 1).
  set (s := ((sm :: concat (map (push_vch []) keys)) ++ [sn]) ++ [OP_CHECKMULTISIG]).
  assert (s = sm :: concat (map (push_vch []) keys) ++ sn :: [OP_CHECKMULTISIG]) as Hs.
  { unfold s. simpl. by rewrite <- app_assoc. }
  assert (s.[0] = sm ∧ s.[1] ≠ 32 ∧ 4 ≤ size s ∧ (length keys < length s - 2)%nat) as (H0 & H1 & Hsz & Hlen).
  { rewrite Hs. split; [done|]. destruct Hk as [|k keys Hv Hk]; [simpl in n; lia|].
    pose proof (ValidSize_sizes k Hv). cbn [map concat]. rewrite size_push by lia. simpl.
    pose proof (concat_pushes_length keys). unfold size in *. simpl. rewrite !length_app. simpl.
    split_and!; lia. }
  assert (back s = OP_CHECKMULTISIG) as Hback by (unfold s; apply back_snoc).
  assert (MatchMultisig s = Some (m, keys)) as Hmatch.
  { unfold MatchMultisig. rewrite Hback. rewrite (proj2 (Z.ltb_ge _ _)) by lia. simpl orb. cbn iota.
    rewrite Hs at 1. destruct (Hdec m) as [Hsm Hdm]; [lia|]. destruct (Hdec n) as [Hsn Hdn]; [lia|].
    rewrite GetOp_opcode by (unfold sm, OP_1, OP_PUSHDATA4; lia). cbn [mbind option_bind].
    fold sm in Hsm, Hdm. fold sn in Hsn, Hdn. rewrite Hsm, Hdm. simpl negb. cbn iota.
    rewrite multisig_keys_read; [|done|unfold sn, OP_1, OP_PUSHDATA4; lia|].
    2:{ rewrite Hs in Hlen. simpl in Hlen. lia. }
    rewrite Hsn, Hdn, app_nil_l. simpl. fold n. rewrite Z.eqb_refl, (proj2 (Z.ltb_ge _ _)) by lia. done. }
  change (Solver later s = (true, TX_MULTISIG, [m] :: keys ++ [[n]])). clearbody s.
  unfold Solver, IsPayToScriptHash, MatchPayToPubkey, MatchPayToPubkeyHash. rewrite H0.
  unfold sm, OP_1, OP_HASH160, OP_RETURN, OP_DUP.
  rewrite (proj2 (Z.eqb_neq (0x51 + m - 1) 0xa9)), (proj2 (Z.eqb_neq (0x51 + m - 1) 0x6a)),
    (proj2 (Z.eqb_neq (0x51 + m - 1) 65)), (proj2 (Z.eqb_neq (0x51 + m - 1) 33)),
    (proj2 (Z.eqb_neq (0x51 + m - 1) 0x76)), (proj2 (Z.eqb_neq _ 32)) by lia.
  rewrite !andb_false_r. cbn [andb]. rewrite Hmatch. fold n.
  by rewrite !u8_id by (split; simpl; lia).
Qed.
End Theorems.

(** ** Witnesses *)

Definition demo_pubkey : CPubKey := 2 :: replicate 32 9.

Definition demo_later (s : CScript) : option Z := None.

Lemma demo_compressed : compressed demo_pubkey.
Proof. split; [done|by left]. Qed.

Lemma coinlock_registration_shadowed_witness :
  Solver demo_later (coinlock_script demo_pubkey 2900 (replicate 20 5)) = (true, TX_MESCAL_CONTRACT, []).
Proof.
  apply (coinlock_registration_shadowed demo_later (λ k, k) demo_pubkey 2900 (replicate 20 5));
    [apply demo_compressed|unfold locktime_ok; lia|done].
Defined.

Lemma destination_roundtrip_witness :
  ExtractDestination demo_later (λ k, k) (GetScriptForDestination (CKeyID (replicate 20 5))) =
  Some (CKeyID (replicate 20 5)).
Proof. by apply (destination_roundtrip demo_later (λ k, k) (CKeyID (replicate 20 5))). Defined.

Lemma multisig_roundtrip_witness :
  ∃ s, GetScriptForMultisig 2 [demo_pubkey; demo_pubkey; demo_pubkey] = Some s ∧
    Solver demo_later s = (true, TX_MULTISIG, [[2]; demo_pubkey; demo_pubkey; demo_pubkey; [3]]).
Proof.
  apply (multisig_roundtrip demo_later 2 [demo_pubkey; demo_pubkey; demo_pubkey]);
    [simpl; lia|simpl; lia|by repeat constructor].
Defined.
