(* ===== verification/Compressor.v ===== *)
(** * Compressed outputs, coins and undo records

    [src/src/compressor.h] and [.cpp]: the short forms of the usual scripts and
    the compression of amounts; the serialisation of a [Coin] in
    [src/src/coins.h] and of the undo records in [src/src/undo.h], which are
    what the coin database and the undo files hold.

    The curve library is a parameter: [IsFullyValid] and the decompression of a
    public key, with [key_decompresses] stating what the code relies on. *)

From S2P Require Import Prelude Ints Serialize Transaction Script.

Local Open Scope Z_scope.

(** ** Amounts *)

(** The loop of [CompressAmount] runs at most nine times. *)
Fixpoint strip_zeros (fuel : nat) (n e : Z) : Z * Z :=
  match fuel with
  | O => (n, e)
  | S fuel => if (n mod 10 =? 0) && (e <? 9) then strip_zeros fuel (n / 10) (e + 1) else (n, e)
  end.

Definition CompressAmount (n : Z) : Z :=
  if n =? 0 then 0
  else
    let '(n, e) := strip_zeros 9 n 0 in
    if e <? 9 then
      let d := n mod 10 in
      let n := n / 10 in
      u64 (1 + (n * 9 + d - 1) * 10 + e)
    else u64 (1 + (n - 1) * 10 + 9).

Fixpoint scale (e : nat) (n : Z) : Z :=
  match e with O => n | S e => scale e (u64 (n * 10)) end.

Definition DecompressAmount (x : Z) : Z :=
  if x =? 0 then 0
  else
    let x := x - 1 in
    let e := x mod 10 in
    let x := x / 10 in
    let n := if e <? 9 then
               let d := x mod 9 + 1 in
               let x := x / 9 in
               u64 (x * 10 + d)
             else u64 (x + 1) in
    scale (Z.to_nat e) n.

(** ** Scripts *)

Section Compressor.
  (** [CPubKey::IsFullyValid] and [CPubKey::Decompress]. *)
  Context (IsFullyValid : list Z → bool) (DecompressKey : list Z → option (list Z)).

Definition slice (first last : nat) (s : list Z) : list Z := take (last - first) (drop first s).

Definition IsToKeyID (script : CScript) : option (list Z) :=
  if (size script =? 25) && (script.[0] =? OP_DUP) && (script.[1] =? OP_HASH160)
     && (script.[2] =? 20) && (script.[23] =? OP_EQUALVERIFY) && (script.[24] =? OP_CHECKSIG)
  then Some (slice 3 23 script) else None.

Definition IsToScriptID (script : CScript) : option (list Z) :=
  if (size script =? 23) && (script.[0] =? OP_HASH160) && (script.[1] =? 20)
     && (script.[22] =? OP_EQUAL)
  then Some (slice 2 22 script) else None.

Definition IsToPubKey (script : CScript) : option (list Z) :=
  if (size script =? 35) && (script.[0] =? 33) && (script.[34] =? OP_CHECKSIG)
     && ((script.[1] =? 0x02) || (script.[1] =? 0x03))
  then Some (slice 1 34 script)
  else if (size script =? 67) && (script.[0] =? 65) && (script.[66] =? OP_CHECKSIG)
          && (script.[1] =? 0x04)
  then let pubkey := slice 1 66 script in if IsFullyValid pubkey then Some pubkey else None
  else None.

Definition Compress (script : CScript) : option (list Z) :=
  match IsToKeyID script with
  | Some keyID => Some (0x00 :: keyID)
  | None =>
      match IsToScriptID script with
      | Some scriptID => Some (0x01 :: scriptID)
      | None =>
          match IsToPubKey script with
          | Some pubkey =>
              let x := slice 1 33 pubkey in
              if (pubkey.[0] =? 0x02) || (pubkey.[0] =? 0x03) then Some (pubkey.[0] :: x)
              else if pubkey.[0] =? 0x04 then Some (0x04 .| (pubkey.[64] .& 0x01) :: x)
              else None
          | None => None
          end
      end
  end.

Definition GetSpecialSize (nSize : Z) : Z :=
  if (nSize =? 0) || (nSize =? 1) then 20
  else if (nSize =? 2) || (nSize =? 3) || (nSize =? 4) || (nSize =? 5) then 32
  else 0.

(** The script after the call; [None] when it returns false and leaves the
    script as it was. *)
Definition Decompress (nSize : Z) (input : list Z) : option CScript :=
  if nSize =? 0 then Some ([OP_DUP; OP_HASH160; 20] ++ take 20 input ++ [OP_EQUALVERIFY; OP_CHECKSIG])
  else if nSize =? 1 then Some ([OP_HASH160; 20] ++ take 20 input ++ [OP_EQUAL])
  else if (nSize =? 2) || (nSize =? 3) then Some ([33; nSize] ++ take 32 input ++ [OP_CHECKSIG])
  else if (nSize =? 4) || (nSize =? 5) then
    match DecompressKey (u8 (nSize - 2) :: take 32 input) with
    | Some pubkey => Some ([65] ++ pubkey ++ [OP_CHECKSIG])
    | None => None
    end
  else None.

Definition nSpecialScripts : Z := 6.

(** [None] would be an overrun of the buffer of [WriteVarInt], which does not
    happen ([varint_roundtrip]). *)
Definition Serialize_script (script : CScript) : list Z :=
  match Compress script with
  | Some compr => compr
  | None => default [] (WriteVarInt 32 (u32 (size script + nSpecialScripts))) ++ script
  end.

Definition signore (nSize : Z) : Reader () :=
  if nSize <? 0 then rthrow ignore_negative else _ <<- sread nSize;; rret tt.

(** [old] is the script the object held before. *)
Definition Unserialize_script (old : CScript) : Reader CScript :=
  nSize <<- ReadVarInt 32;;
  if nSize <? nSpecialScripts then
    vch <<- sread (GetSpecialSize nSize);;
    rret (default old (Decompress nSize vch))
  else
    let nSize := nSize - nSpecialScripts in
    if MAX_SCRIPT_SIZE <? nSize then
      _ <<- signore (i32 nSize);; rret (old ++ [OP_RETURN])
    else sread nSize.

(** ** Outputs, coins and undo records *)

Definition Serialize_txout (o : CTxOut) : list Z :=
  default [] (WriteVarInt 64 (CompressAmount (u64 (nValue o)))) ++ Serialize_script (scriptPubKey o).

Definition Unserialize_txout (old : CTxOut) : Reader CTxOut :=
  nVal <<- ReadVarInt 64;;
  s <<- Unserialize_script (scriptPubKey old);;
  rret (MkTxOut (i64 (DecompressAmount nVal)) s (nRounds old)).

(** The code word of height and kind. *)
Definition coin_code (c : Coin) : Z :=
  u32 (coin_nHeight c * 4 + (if fCoinBase c then 2 else 0) + (if fCoinStake c then 1 else 0)).

Definition code_coin (code : Z) (o : CTxOut) : Coin :=
  MkCoin (negb (code .& 2 =? 0)) (negb (code .& 1 =? 0)) o (code >> 2).

(** [None] is the assertion that the coin is unspent. *)
Definition Serialize_coin (c : Coin) : option (list Z) :=
  if IsSpent c then None
  else Some (default [] (WriteVarInt 32 (coin_code c)) ++ Serialize_txout (out c)).

Definition Unserialize_coin (old : Coin) : Reader Coin :=
  code <<- ReadVarInt 32;; o <<- Unserialize_txout (out old);; rret (code_coin code o).

Definition Serialize_undo (c : Coin) : list Z :=
  default [] (WriteVarInt 32 (coin_code c)) ++ (if 0 <? coin_nHeight c then ser_writedata8 0 else [])
  ++ Serialize_txout (out c).

Definition Unserialize_undo (old : Coin) : Reader Coin :=
  nCode <<- ReadVarInt 32;;
  _ <<- (if 0 <? (nCode >> 2) then ReadVarInt 32 else rret 0);;
  o <<- Unserialize_txout (out old);; rret (code_coin nCode o).

(** [8000000 / GetSerializeSize(CTxIn())]. *)
Definition MAX_INPUTS_PER_BLOCK : Z := 8000000 / 41.

Definition Serialize_CTxUndo (vprevout : list Coin) : list Z :=
  WriteCompactSize (Z.of_nat (length vprevout)) ++ concat (map Serialize_undo vprevout).

Fixpoint read_undos (k : nat) (acc : list Coin) : Reader (list Coin) :=
  match k with
  | O => rret acc
  | S k => c <<- Unserialize_undo coinEmpty;; read_undos k (acc ++ [c])
  end.

(** The exception for too many records is of the same class as a size too large. *)
Definition Unserialize_CTxUndo : Reader (list Coin) :=
  count <<- ReadCompactSize;;
  if MAX_INPUTS_PER_BLOCK <? count then rthrow size_too_large
  else read_undos (Z.to_nat count) [].
End Compressor.

(** ** Amounts come back *)

Lemma strip_zeros_spec fuel n e :
  0 < n → 0 ≤ e → e + Z.of_nat fuel = 9 →
  let r := strip_zeros fuel n e in
  0 < r.1 ∧ e ≤ r.2 ≤ 9 ∧ n = r.1 * 10 ^ (r.2 - e) ∧ (r.2 = 9 ∨ r.1 mod 10 ≠ 0).
Proof.
  revert n e. induction fuel as [|fuel IH]; intros n e Hn He Hf; cbn [strip_zeros].
  { simpl. rewrite Z.sub_diag. split_and!; lia. }
  destruct (Z.eqb_spec (n mod 10) 0) as [Hz|Hz]; simpl.
  - rewrite (proj2 (Z.ltb_lt _ _)) by lia. pose proof (Z.div_mod n 10 ltac:(lia)).
    destruct (IH (n / 10) (e + 1)) as (H1 & H2 & H3 & H4); [lia..|].
    destruct (strip_zeros fuel (n / 10) (e + 1)) as [n' e']. simpl in *. split_and!; try lia.
    replace (e' - e) with (1 + (e' - (e + 1))) by lia. rewrite Z.pow_add_r by lia. lia.
  - rewrite Z.sub_diag. split_and!; lia.
Qed.

Lemma scale_spec e n : 0 ≤ n → n * 10 ^ Z.of_nat e < 2 ^ 64 → scale e n = n * 10 ^ Z.of_nat e.
Proof.
  revert n. induction e as [|e IH]; intros n Hn Hb; cbn [scale]; [simpl; lia|].
  assert (10 ^ Z.of_nat (S e) = 10 * 10 ^ Z.of_nat e) as Hp
    by (rewrite Nat2Z.inj_succ, Z.pow_succ_r by lia; lia).
  pose proof (Z.pow_pos_nonneg 10 (Z.of_nat e)). rewrite Hp in *.
  rewrite u64_id by (unfold word; nia). rewrite IH by lia. lia.
Qed.

(** Compression of an amount already split into digits and zeros. *)
Lemma DecompressAmount_digits q d e :
  0 ≤ q → 1 ≤ d ≤ 9 → 0 ≤ e < 9 → (q * 10 + d) * 10 ^ e < 2 ^ 64 →
  DecompressAmount (1 + (q * 9 + d - 1) * 10 + e) = (q * 10 + d) * 10 ^ e.
Proof.
  intros Hq Hd He Hb. unfold DecompressAmount.
  rewrite (proj2 (Z.eqb_neq _ _)) by lia.
  replace (1 + (q * 9 + d - 1) * 10 + e - 1) with (e + (q * 9 + (d - 1)) * 10) by lia.
  rewrite Z_mod_plus_full, Z_div_plus_full by lia.
  rewrite (Z.mod_small e), (Z.div_small e), Z.add_0_l by lia.
  rewrite (proj2 (Z.ltb_lt _ _)) by lia.
  rewrite (Z.add_comm (q * 9)), Z_mod_plus_full, Z_div_plus_full by lia.
  rewrite (Z.mod_small (d - 1)), (Z.div_small (d - 1)), Z.add_0_l, Z.sub_add by lia.
  pose proof (Z.pow_pos_nonneg 10 e). rewrite u64_id by (unfold word; nia).
  rewrite scale_spec; rewrite ?Z2Nat.id by lia; lia.
Qed.

Lemma DecompressAmount_zeros q :
  0 < q → q * 10 ^ 9 < 2 ^ 64 → DecompressAmount (1 + (q - 1) * 10 + 9) = q * 10 ^ 9.
Proof.
  intros Hq Hb. unfold DecompressAmount. rewrite (proj2 (Z.eqb_neq _ _)) by lia.
  replace (1 + (q - 1) * 10 + 9 - 1) with (9 + (q - 1) * 10) by lia.
  rewrite Z_mod_plus_full, Z_div_plus_full by lia. change (9 mod 10) with 9.
  change (9 / 10) with 0. cbn [Z.ltb Z.compare Pos.compare Pos.compare_cont].
  rewrite Z.add_0_l, Z.sub_add, u64_id by (unfold word; lia).
  rewrite scale_spec; [done|lia|done].
Qed.

(** Amount compression loses nothing: every amount below [2^64 / 9], which covers
    all the money of every network many times over, is its own decompressed
    compression, and the compressed value does not wrap. *)
Lemma amount_compression_roundtrip n :
  0 ≤ n → 9 * n < 2 ^ 64 →
  DecompressAmount (CompressAmount n) = n ∧ 0 ≤ CompressAmount n ≤ 9 * n.
Proof.
  intros Hn Hb. unfold CompressAmount.
  destruct (Z.eqb_spec n 0) as [->|Hne]; [done|].
  destruct (strip_zeros_spec 9 n 0) as (H1 & H2 & H3 & H4); [lia..|].
  destruct (strip_zeros 9 n 0) as [q e]. simpl in *. rewrite Z.sub_0_r in H3.
  pose proof (Z.pow_pos_nonneg 10 e ltac:(lia) ltac:(lia)).
  destruct (Z.ltb_spec e 9) as [He|He].
  - destruct H4 as [|H4]; [lia|]. pose proof (Z.div_mod q 10 ltac:(lia)) as Hq.
    pose proof (Z.mod_pos_bound q 10 ltac:(lia)). pose proof (Z.div_pos q 10).
    assert (e = 0 ∨ 10 ≤ 10 ^ e) as Hpow.
    { destruct (Z.eq_dec e 0); [by left|right]. change 10 with (10 ^ 1) at 1.
      apply Z.pow_le_mono_r; lia. }
    assert (0 ≤ 1 + (q / 10 * 9 + q mod 10 - 1) * 10 + e ≤ 9 * n) as Hrange.
    { split; [lia|]. destruct Hpow as [->|?]; [simpl in H3; lia|]. nia. }
    rewrite u64_id by (unfold word; lia). split; [|done].
    rewrite DecompressAmount_digits; nia.
  - assert (e = 9) as -> by lia.
    assert (0 ≤ 1 + (q - 1) * 10 + 9 ≤ 9 * n) by lia.
    rewrite u64_id by (unfold word; lia). split; [|done].
    rewrite DecompressAmount_zeros; lia.
Qed.

(** ** Scripts come back *)

Lemma drop_nth (s : list Z) i : (i < length s)%nat → drop i s = s.[i] :: drop (S i) s.
Proof.
  revert i. induction s as [|x s IH]; intros [|i] Hi; simpl in *; try lia; [by rewrite drop_0|].
  apply IH. lia.
Qed.

Lemma drop_all_length (s : list Z) : drop (length s) s = [].
Proof. by apply drop_ge. Qed.

Lemma slice_app a b s : (a ≤ b)%nat → drop a s = slice a b s ++ drop b s.
Proof.
  intros H. unfold slice. rewrite <- (take_drop (b - a) (drop a s)) at 1.
  rewrite drop_drop. do 2 f_equal. lia.
Qed.

Lemma length_slice a b (s : list Z) : (a ≤ b ≤ length s)%nat → length (slice a b s) = (b - a)%nat.
Proof. intros H. unfold slice. rewrite length_take, length_drop. lia. Qed.

Lemma take_slice k a b (s : list Z) rest :
  (a ≤ b ≤ length s)%nat → (b - a = k)%nat → take k (slice a b s ++ rest) = slice a b s.
Proof. intros H <-. rewrite <- (length_slice a b s H). apply take_app_length. Qed.

(** Split a conjunction of byte tests into equalities. *)
Ltac bool_eqs :=
  repeat match goal with
  | H : (_ && _) = true |- _ => apply andb_prop in H as [? ?]
  | H : (_ =? _) = true |- _ => apply Z.eqb_eq in H
  end.

(** Rewrite with the bytes of a script that are known. *)
Ltac nths := repeat match goal with H : nth _ _ _ = _ |- _ => rewrite H; clear H end.

Section Roundtrip.
  Context (IsFullyValid : list Z → bool) (DecompressKey : list Z → option (list Z)).

(** The curve: a valid uncompressed key is recovered from its abscissa and the
    parity of its ordinate. *)
Definition key_decompresses : Prop :=
  ∀ k, IsFullyValid k = true → length k = 65%nat → k.[0] = 4 →
    DecompressKey (2 + k.[64] mod 2 :: slice 1 33 k) = Some k.

Lemma IsToKeyID_inv s id :
  IsToKeyID s = Some id →
  length id = 20%nat ∧ s = [OP_DUP; OP_HASH160; 20] ++ id ++ [OP_EQUALVERIFY; OP_CHECKSIG].
Proof using Type.
  unfold IsToKeyID. case_match eqn:E; [|done]. intros [= <-]. bool_eqs.
  assert (length s = 25%nat) as Hl by (unfold size in *; lia).
  split; [by rewrite length_slice by lia|].
  rewrite <- (drop_0 s) at 1. do 3 (rewrite drop_nth by lia).
  rewrite (slice_app 3 23) by lia. do 2 (rewrite (drop_nth s) by lia).
  rewrite (drop_ge s 25) by lia. by nths.
Qed.

Lemma IsToScriptID_inv s id :
  IsToScriptID s = Some id →
  length id = 20%nat ∧ s = [OP_HASH160; 20] ++ id ++ [OP_EQUAL].
Proof using Type.
  unfold IsToScriptID. case_match eqn:E; [|done]. intros [= <-]. bool_eqs.
  assert (length s = 23%nat) as Hl by (unfold size in *; lia).
  split; [by rewrite length_slice by lia|].
  rewrite <- (drop_0 s) at 1. do 2 (rewrite drop_nth by lia).
  rewrite (slice_app 2 22) by lia. rewrite (drop_nth s) by lia.
  rewrite (drop_ge s 23) by lia. by nths.
Qed.

Lemma IsToPubKey_inv s k :
  IsToPubKey IsFullyValid s = Some k →
  s = [Z.of_nat (length k)] ++ k ++ [OP_CHECKSIG] ∧
  (length k = 33%nat ∧ (k.[0] = 2 ∨ k.[0] = 3) ∨
   length k = 65%nat ∧ k.[0] = 4 ∧ IsFullyValid k = true).
Proof using Type.
  unfold IsToPubKey. intros H.
  assert (∀ len, size s = len + 2 → (2 ≤ len)%Z → s.[0] = len → s.[Z.to_nat (len + 1)] = OP_CHECKSIG →
    let k := slice 1 (Z.to_nat (len + 1)) s in
    Z.of_nat (length k) = len ∧ s = [Z.of_nat (length k)] ++ k ++ [OP_CHECKSIG] ∧ k.[0] = s.[1]) as Hs.
  { intros len Hlen Hge H0 H1. unfold size in Hlen.
    assert (Z.of_nat (length (slice 1 (Z.to_nat (len + 1)) s)) = len) as E by (rewrite length_slice; lia).
    simpl. split; [done|]. rewrite E. split.
    - rewrite <- (drop_0 s) at 1. rewrite drop_nth by lia.
      rewrite (slice_app 1 (Z.to_nat (len + 1))), (drop_nth s (Z.to_nat _)), drop_ge by lia.
      by rewrite H0, H1.
    - unfold slice. rewrite (drop_nth s 1) by lia.
      destruct (Z.to_nat (len + 1) - 1)%nat eqn:?; [lia|done]. }
  case_match eqn:E1; [|case_match eqn:E2; [case_match eqn:E3|]]; simplify_eq; bool_eqs.
  - destruct (Hs 33) as (Hk & Hd & Hk0); [done..|]. change (Z.to_nat (33 + 1)) with 34%nat in *. split; [done|left].
    split; [lia|]. rewrite Hk0.
    match goal with H : (_ || _) = true |- _ => apply orb_prop in H as [?%Z.eqb_eq|?%Z.eqb_eq] end; auto.
  - destruct (Hs 65) as (Hk & Hd & Hk0); [done..|]. change (Z.to_nat (65 + 1)) with 66%nat in *. split; [done|right].
    split; [lia|]. by rewrite Hk0.
Qed.

(** The number of the special form, and its bytes. *)
Lemma Compress_inv (Hkey : key_decompresses) s compr :
  Compress IsFullyValid s = Some compr →
  ∃ code b, compr = code :: b ∧ 0 ≤ code < 6 ∧ size b = GetSpecialSize code ∧
    Decompress DecompressKey code b = Some s.
Proof using Type.
  unfold Compress. destruct (IsToKeyID s) as [id|] eqn:E1.
  { intros [= <-]. apply IsToKeyID_inv in E1 as [Hl ->]. exists 0, id. unfold size.
    rewrite Hl. split_and!; try done. unfold Decompress. cbn [Z.eqb].
    rewrite (take_ge id) by lia. done. }
  destruct (IsToScriptID s) as [id|] eqn:E2.
  { intros [= <-]. apply IsToScriptID_inv in E2 as [Hl ->]. exists 1, id. unfold size.
    rewrite Hl. split_and!; try done. unfold Decompress. cbn [Z.eqb Pos.eqb].
    rewrite (take_ge id) by lia. done. }
  destruct (IsToPubKey IsFullyValid s) as [k|] eqn:E3; [|done].
  apply IsToPubKey_inv in E3 as [Hs Hk]. destruct Hk as [(Hl & Hk)|(Hl & Hk & Hv)].
  - assert (k = k.[0] :: slice 1 33 k) as Ek.
    { rewrite <- (drop_0 k) at 1. rewrite drop_nth by lia. f_equal.
      rewrite (slice_app 1 33), (drop_ge k) by lia. by rewrite app_nil_r. }
    assert (length (slice 1 33 k) = 32%nat) as Hx by (rewrite length_slice; lia).
    rewrite (proj2 (orb_true_iff _ _)) by (rewrite !Z.eqb_eq; done).
    intros [= <-]. exists k.[0], (slice 1 33 k). split; [done|]. split; [lia|].
    unfold size. rewrite Hx. rewrite Hs, Hl. unfold Decompress, GetSpecialSize.
    rewrite (take_ge _ 32) by lia.
    set (x := slice 1 33 k) in *. clearbody x.
    destruct Hk as [E|E]; rewrite E in *; (split; [done|]); by rewrite Ek.
  - assert (length (slice 1 33 k) = 32%nat) as Hx by (rewrite length_slice; lia).
    rewrite Hk. cbn [Z.eqb Pos.eqb orb].
    assert (k.[64] .& 0x01 = k.[64] mod 2) as -> by (apply (Z.land_ones _ 1); lia).
    intros [= <-]. pose proof (Hkey k Hv Hl Hk) as Hd.
    exists (0x04 .| k.[64] mod 2), (slice 1 33 k). split; [done|].
    pose proof (Z.mod_pos_bound k.[64] 2 ltac:(lia)).
    unfold size. rewrite Hx, Hs, Hl. unfold Decompress, GetSpecialSize.
    rewrite (take_ge _ 32) by lia.
    set (x := slice 1 33 k) in *. clearbody x.
    assert (k.[64] mod 2 = 0 ∨ k.[64] mod 2 = 1) as [Em|Em] by lia; rewrite Em in *.
    + change (0x04 .| 0) with 4. cbn [Z.eqb Pos.eqb orb]. change (u8 (4 - 2)) with (2 + 0).
      rewrite Hd. split; [lia|done].
    + change (0x04 .| 1) with 5. cbn [Z.eqb Pos.eqb orb]. change (u8 (5 - 2)) with (2 + 1).
      rewrite Hd. split; [lia|done].
Qed.

(** A script the database keeps: bytes, within the script limit. *)
Definition script_ok (s : CScript) : Prop := Forall byte s ∧ size s ≤ MAX_SCRIPT_SIZE.

Context (Hkey : key_decompresses).

Lemma read_special code rest : 0 ≤ code < 6 → ReadVarInt 32 (code :: rest) = Ok code rest.
Proof using Type.
  intros H. assert (code = 0 ∨ code = 1 ∨ code = 2 ∨ code = 3 ∨ code = 4 ∨ code = 5)
    as [->|[->|[->|[->|[->| ->]]]]] by lia; done.
Qed.

Lemma script_back s old rest :
  script_ok s →
  Unserialize_script DecompressKey old (Serialize_script IsFullyValid s ++ rest) = Ok s rest.
Proof using Hkey.
  unfold script_ok, MAX_SCRIPT_SIZE. intros [Hb Hs]. pose proof (size_nonneg s).
  unfold Serialize_script, Unserialize_script, rbind.
  destruct (Compress IsFullyValid s) as [compr|] eqn:E.
  - destruct (Compress_inv Hkey s compr E) as (code & b & -> & Hc & Hsz & Hd).
    cbn [app]. rewrite read_special by done. unfold nSpecialScripts.
    rewrite (proj2 (Z.ltb_lt _ _)) by lia. rewrite <- Hsz. unfold size. rewrite sread_app.
    unfold rret. by rewrite Hd.
  - rewrite <- app_assoc. unfold nSpecialScripts, MAX_SCRIPT_SIZE.
    rewrite u32_id by (unfold word; lia). rewrite varint_back by (lia || unfold word; lia).
    rewrite (proj2 (Z.ltb_ge _ _)) by lia. rewrite Z.add_simpl_r.
    rewrite (proj2 (Z.ltb_ge _ _)) by lia. apply sread_app.
Qed.

(** A script beyond the limit comes back as the one-byte unspendable script. *)
Lemma script_overlong s rest :
  MAX_SCRIPT_SIZE < size s < 2 ^ 31 - 6 →
  Unserialize_script DecompressKey [] (Serialize_script IsFullyValid s ++ rest) = Ok [OP_RETURN] rest.
Proof using Hkey.
  unfold MAX_SCRIPT_SIZE. intros Hs. unfold Serialize_script, Unserialize_script, rbind.
  assert (Compress IsFullyValid s = None) as ->.
  { unfold Compress, IsToKeyID, IsToScriptID, IsToPubKey.
    by rewrite !(proj2 (Z.eqb_neq (size s) _)) by lia. }
  rewrite <- app_assoc. unfold nSpecialScripts, MAX_SCRIPT_SIZE.
  rewrite u32_id by (unfold word; lia). rewrite varint_back by (lia || unfold word; lia).
  rewrite (proj2 (Z.ltb_ge _ _)) by lia. rewrite Z.add_simpl_r.
  rewrite (proj2 (Z.ltb_lt _ _)) by lia. unfold signore. rewrite i32_id by lia.
  rewrite (proj2 (Z.ltb_ge _ _)) by lia. unfold rbind, size. by rewrite sread_app.
Qed.

(** Amounts in the range of the compression, and nothing in the members that are
    not serialised. *)
Definition kept_out (o : CTxOut) : Prop :=
  0 ≤ nValue o ∧ 9 * nValue o < 2 ^ 64 ∧ script_ok (scriptPubKey o) ∧ nRounds o = -10.

Lemma txout_back o rest :
  kept_out o →
  Unserialize_txout DecompressKey NullTxOut (Serialize_txout IsFullyValid o ++ rest) = Ok o rest.
Proof using Hkey.
  intros (H0 & H9 & Hs & Hr). unfold Serialize_txout, Unserialize_txout.
  destruct (amount_compression_roundtrip (nValue o) H0 H9) as [Ha Hc].
  rewrite u64_id by (unfold word; lia). rewrite <- app_assoc. unfold rbind.
  rewrite varint_back by (lia || unfold word; lia). rewrite script_back by done.
  unfold rret. rewrite Ha, i64_id by lia. change (nRounds NullTxOut) with (-10). rewrite <- Hr. by destruct o.
Qed.

(** A coin of the database: an unspent output of a block below height [2^30]. *)
Definition kept_coin (c : Coin) : Prop := kept_out (out c) ∧ 0 ≤ coin_nHeight c < 2 ^ 30.

Lemma coin_code_word c : 0 ≤ coin_nHeight c < 2 ^ 30 → word 32 (coin_code c).
Proof using Type. intros H. apply u32_word. Qed.

Lemma coin_code_back c o : 0 ≤ coin_nHeight c < 2 ^ 30 →
  code_coin (coin_code c) o = MkCoin (fCoinBase c) (fCoinStake c) o (coin_nHeight c) ∧
  coin_code c >> 2 = coin_nHeight c.
Proof using Type.
  intros H. unfold code_coin, coin_code. destruct c as [b s o' h]; simpl in *.
  set (f := (if b then 2 else 0) + (if s then 1 else 0)).
  assert (0 ≤ f < 4) as Hf by (unfold f; destruct b, s; lia).
  replace (h * 4 + _ + _) with (h * 4 + f) by (unfold f; lia).
  rewrite u32_id by (unfold word; lia).
  assert (h * 4 + f = (h << 2) .| f) as -> by (rewrite lor_shiftl_add; [done|lia|split; simpl; lia]).
  rewrite Z.shiftr_lor, Z.shiftr_shiftl_l, !Z.land_lor_distr_l by lia. simpl (2 - 2).
  rewrite Z.shiftl_0_r. assert (f >> 2 = 0) as -> by (rewrite Z.shiftr_div_pow2 by lia; by apply Z.div_small).
  rewrite Z.lor_0_r.
  assert (∀ x, word 2 x → (h << 2) .& x = 0) as Hz.
  { intros x Hx. apply Z.bits_inj'. intros i Hi. rewrite Z.land_spec, Z.bits_0, Z.shiftl_spec by done.
    destruct (Z.lt_ge_cases i 2); [by rewrite Z.testbit_neg_r by lia|].
    rewrite (word_testbit_high 2 x) by done. apply andb_false_r. }
  rewrite !Hz by (split; simpl; lia). unfold f. by destruct b, s.
Qed.

Lemma undo_back c rest :
  kept_coin c →
  Unserialize_undo DecompressKey coinEmpty (Serialize_undo IsFullyValid c ++ rest) = Ok c rest.
Proof using Hkey.
  intros [Ho Hh]. unfold Serialize_undo, Unserialize_undo. rewrite <- !app_assoc. unfold rbind.
  rewrite varint_back by (lia || by apply coin_code_word).
  destruct (coin_code_back c (out c) Hh) as [Hc ->].
  destruct (0 <? coin_nHeight c); simpl; rewrite txout_back by done; unfold rret; rewrite Hc; by destruct c.
Qed.

(** C39: a coin written to the database comes back: for every unspent coin of a
    height below [2^30], an amount below [2^64 / 9] and a script of at most
    [MAX_SCRIPT_SIZE] bytes, reading the compressed form gives the same coin,
    kind, height, amount and script, with the rest of the stream untouched. *)
Theorem coin_roundtrip c rest :
  kept_coin c →
  ∃ bs, Serialize_coin IsFullyValid c = Some bs ∧
    Unserialize_coin DecompressKey coinEmpty (bs ++ rest) = Ok c rest.
Proof using Hkey.
  intros [Ho Hh]. unfold Serialize_coin, Unserialize_coin.
  assert (IsSpent c = false) as ->.
  { unfold IsSpent, TxOut_IsNull. destruct Ho as [? _]. apply Z.eqb_neq. lia. }
  eexists. split; [done|]. rewrite <- app_assoc. unfold rbind.
  rewrite varint_back by (lia || by apply coin_code_word).
  rewrite txout_back by done. unfold rret.
  rewrite (proj1 (coin_code_back c (out c) Hh)). by destruct c.
Qed.

Lemma read_undos_back cs acc rest :
  Forall kept_coin cs →
  read_undos DecompressKey (length cs) acc (concat (map (Serialize_undo IsFullyValid) cs) ++ rest) =
  Ok (acc ++ cs) rest.
Proof using Hkey.
  intros Hcs. revert acc. induction Hcs as [|c cs Hc _ IH]; intros acc; simpl; [by rewrite app_nil_r|].
  rewrite <- app_assoc. unfold rbind. rewrite undo_back by done. rewrite IH.
  by rewrite <- app_assoc.
Qed.

(** The undo record of a transaction comes back: reading what
    [CTxUndo::Serialize] wrote gives the same coins in the same order, for any
    number of inputs up to [MAX_INPUTS_PER_BLOCK], with the legacy dummy byte of
    the records above height zero skipped. *)
Theorem txundo_roundtrip vprevout rest :
  Forall kept_coin vprevout → Z.of_nat (length vprevout) ≤ MAX_INPUTS_PER_BLOCK →
  Unserialize_CTxUndo DecompressKey (Serialize_CTxUndo IsFullyValid vprevout ++ rest) =
  Ok vprevout rest.
Proof using Hkey.
  intros Hc Hl. unfold Serialize_CTxUndo, Unserialize_CTxUndo, rbind. rewrite <- app_assoc.
  rewrite compact_write_read.
  - rewrite (proj2 (Z.ltb_ge _ _)) by lia. rewrite Nat2Z.id. by rewrite read_undos_back.
  - split; [lia|]. etransitivity; [exact Hl|by vm_compute].
Qed.
End Roundtrip.

(** ** Witnesses *)

(** A stand-in curve on which the ordinate is the abscissa but for its last byte. *)
Definition demo_valid (k : list Z) : bool :=
  bool_decide (slice 33 64 k = slice 1 32 k) && ((k.[64] =? 0) || (k.[64] =? 1)).

Definition demo_decompress (k : list Z) : option (list Z) :=
  Some (4 :: drop 1 k ++ take 31 (drop 1 k) ++ [k.[0] - 2]).

Lemma demo_key_decompresses : key_decompresses demo_valid demo_decompress.
Proof.
  intros k [Hv%bool_decide_eq_true Hp]%andb_prop Hl H0. unfold demo_decompress.
  change (drop 1 (?x :: ?t)) with (drop 0 t). rewrite drop_0. f_equal.
  assert (take 31 (slice 1 33 k) = slice 33 64 k) as ->.
  { rewrite Hv. unfold slice. by rewrite take_take. }
  change ((2 + ?x :: ?t).[0]) with (2 + x).
  replace (2 + k.[64] mod 2 - 2) with k.[64].
  2:{ apply orb_prop in Hp as [->%Z.eqb_eq| ->%Z.eqb_eq]; done. }
  rewrite <- (drop_0 k) at 4. rewrite (drop_nth k 0), H0, (slice_app 1 33), (slice_app 33 64) by lia.
  rewrite (drop_nth k 64), (drop_ge k 65) by lia. done.
Qed.

Definition demo_coin : Coin :=
  MkCoin true false (NewTxOut 2500000000 (push_vch [] (4 :: replicate 63 7 ++ [1]) ++ [OP_CHECKSIG])) 12345.

Lemma demo_coin_kept : kept_coin demo_coin.
Proof. split; [|by vm_compute]. split_and!; try by vm_compute. split; [by apply bytesb_spec|by vm_compute]. Qed.

Lemma coin_roundtrip_witness :
  ∃ bs, Serialize_coin demo_valid demo_coin = Some bs ∧
    Unserialize_coin demo_decompress coinEmpty (bs ++ [3]) = Ok demo_coin [3].
Proof. apply (coin_roundtrip demo_valid demo_decompress demo_key_decompresses), demo_coin_kept. Defined.

Lemma txundo_roundtrip_witness :
  Unserialize_CTxUndo demo_decompress
    (Serialize_CTxUndo demo_valid [demo_coin; demo_coin] ++ [3]) = Ok [demo_coin; demo_coin] [3].
Proof.
  apply (txundo_roundtrip demo_valid demo_decompress demo_key_decompresses); [|by vm_compute].
  constructor; [apply demo_coin_kept|]. constructor; [apply demo_coin_kept|constructor].
Defined.
