(* ===== verification/Coins.v ===== *)
(** * The coin cache

    [src/src/coins.h] and [coins.cpp], with the database view of
    [src/src/txdb.cpp] underneath: the set of unspent outputs as a stack of
    caches.  Each cache ([CCoinsViewCache]) holds entries with the flags [DIRTY]
    and [FRESH]; a lookup that misses goes to the view below and fills the caches
    it passes, so even the reading methods change the state; [Flush] pushes the
    dirty entries into the view below.

    A view is the list of its caches, top first, over the database or over the
    base class, which knows nothing.  A [CCoinsMap] is a [gmap]; the memory
    accounting is kept, with the allocation of a script as a parameter.

    What a view means is its set of unspent coins, [utxo].  [cache_wf] is the
    contract of the flags, and the theorems show that the stack of caches
    behaves as a stack of plain maps. *)

From stdpp Require Import gmap fin_maps.
From S2P Require Import Prelude Ints Serialize Transaction Script.

Local Open Scope Z_scope.

(** ** State *)

Definition DIRTY : Z := 1.
Definition FRESH : Z := 2.

Record CCoinsCacheEntry := MkEntry { coin : Coin; flags : Z }.

Abbreviation CCoinsMap := (gmap COutPoint CCoinsCacheEntry) (only parsing).

(** One cache, without the pointer to the view below. *)
Record Cache := MkCache { cacheCoins : CCoinsMap; hashBlock : Z; cachedCoinsUsage : Z }.

(** What is below all the caches: the base class [CCoinsView], or the database
    with its best block. *)
Inductive Backing := NoView | CCoinsViewDB (db : gmap COutPoint Coin) (best : Z).

(** The caches above the backing view, top first. *)
Abbreviation Caches := (list Cache) (only parsing).

Definition is_dirty (f : Z) : bool := negb (f .& DIRTY =? 0).
Definition is_fresh (f : Z) : bool := negb (f .& FRESH =? 0).

Inductive outcome (A : Type) := Done (a : A) | Logic_error | Assertion_failed.
Arguments Done {A} _.
Arguments Logic_error {A}.
Arguments Assertion_failed {A}.

(** ** The views *)

Definition backing_GetCoin (b : Backing) (o : COutPoint) : option Coin :=
  match b with NoView => None | CCoinsViewDB db _ => db !! o end.

Definition backing_GetBestBlock (b : Backing) : Z :=
  match b with NoView => 0 | CCoinsViewDB _ best => best end.

(** One dirty entry written to the batch. *)
Definition db_write (db : gmap COutPoint Coin) (kv : COutPoint * CCoinsCacheEntry) :
    gmap COutPoint Coin :=
  if is_dirty (flags kv.2) then
    if IsSpent (coin kv.2) then delete kv.1 db else <[kv.1 := coin kv.2]> db
  else db.

(** [CCoinsViewDB::BatchWrite], and the base class, which refuses. *)
Definition backing_BatchWrite (mapCoins : CCoinsMap) (hashBlockIn : Z) (b : Backing) :
    bool * Backing :=
  match b with
  | NoView => (false, b)
  | CCoinsViewDB db best =>
      (true, CCoinsViewDB (foldl db_write db (map_to_list mapCoins))
               (if negb (hashBlockIn =? 0) then hashBlockIn else best))
  end.

Section Cache.
  (** [memusage::DynamicUsage] of a coin: the allocation of its script. *)
  Context (DynamicUsage : Coin → Z).

(** Constructed on top of the view below. *)
Definition empty_cache : Cache := MkCache ∅ 0 0.

(** [FetchCoin] of a cache, when the view below answers [tmp]. *)
Definition fill (c : Cache) (o : COutPoint) (tmp : Coin) : Cache :=
  MkCache (<[o := MkEntry tmp (if IsSpent tmp then FRESH else 0)]> (cacheCoins c)) (hashBlock c)
    (u64 (cachedCoinsUsage c + DynamicUsage tmp)).

(** [GetCoin]: find, or ask the view below and fill. *)
Fixpoint GetCoin (v : Caches) (b : Backing) (o : COutPoint) : option Coin * Caches :=
  match v with
  | [] => (backing_GetCoin b o, [])
  | c :: v =>
      match cacheCoins c !! o with
      | Some it => (Some (coin it), c :: v)
      | None =>
          let '(r, v) := GetCoin v b o in
          match r with
          | None => (None, c :: v)
          | Some tmp => (Some tmp, fill c o tmp :: v)
          end
      end
  end.

(** [FetchCoin]: the iterator, as the entry it points to. *)
Definition FetchCoin (v : Caches) (b : Backing) (o : COutPoint) : option CCoinsCacheEntry * Caches :=
  let v := (GetCoin v b o).2 in
  match v with
  | [] => (None, [])
  | c :: _ => (cacheCoins c !! o, v)
  end.

Definition AddCoin (c : Cache) (o : COutPoint) (newCoin : Coin) (possible_overwrite : bool) :
    outcome Cache :=
  if IsSpent newCoin then Assertion_failed
  else if IsUnspendable (scriptPubKey (out newCoin)) then Done c
  else
    let inserted := bool_decide (cacheCoins c !! o = None) in
    let it := default (MkEntry coinEmpty 0) (cacheCoins c !! o) in
    let usage := if negb inserted then u64 (cachedCoinsUsage c - DynamicUsage (coin it))
                 else cachedCoinsUsage c in
    if negb possible_overwrite && negb (IsSpent (coin it)) then Logic_error
    else
      let fresh := negb possible_overwrite && negb (is_dirty (flags it)) in
      Done (MkCache
        (<[o := MkEntry newCoin (flags it .| (DIRTY .| (if fresh then FRESH else 0)))]> (cacheCoins c))
        (hashBlock c) (u64 (usage + DynamicUsage newCoin))).

Fixpoint AddCoins_loop (c : Cache) (txid : Z) (i : Z) (outs : list CTxOut) (nHeight : Z)
    (fCoinbase fCoinstake : bool) : outcome Cache :=
  match outs with
  | [] => Done c
  | o :: outs =>
      match AddCoin c (MkOutPoint txid (u32 i)) (NewCoin o nHeight fCoinbase fCoinstake) false with
      | Done c => AddCoins_loop c txid (i + 1) outs nHeight fCoinbase fCoinstake
      | e => e
      end
  end.

Definition AddCoins (c : Cache) (tx : CTransaction) (nHeight : Z) : outcome Cache :=
  AddCoins_loop c (txhash tx) 0 (vout tx) nHeight (IsCoinBase tx) (IsCoinStake tx).

(** [SpendCoin]: the coin moved out, if there was one, and the view after. *)
Definition SpendCoin (v : Caches) (b : Backing) (o : COutPoint) : option Coin * Caches :=
  match FetchCoin v b o with
  | (Some it, c :: v) =>
      let usage := u64 (cachedCoinsUsage c - DynamicUsage (coin it)) in
      (Some (coin it),
       MkCache (if is_fresh (flags it) then delete o (cacheCoins c)
                else <[o := MkEntry coinEmpty (flags it .| DIRTY)]> (cacheCoins c))
         (hashBlock c) usage :: v)
  | (_, v) => (None, v)
  end.

Definition AccessCoin (v : Caches) (b : Backing) (o : COutPoint) : Coin * Caches :=
  let '(it, v) := FetchCoin v b o in (default coinEmpty (coin <$> it), v).

Definition HaveCoin (v : Caches) (b : Backing) (o : COutPoint) : bool * Caches :=
  let '(it, v) := FetchCoin v b o in
  (match it with Some it => negb (IsSpent (coin it)) | None => false end, v).

Definition HaveCoinInCache (c : Cache) (o : COutPoint) : bool :=
  match cacheCoins c !! o with Some _ => true | None => false end.

Fixpoint GetBestBlock (v : Caches) (b : Backing) : Z * Caches :=
  match v with
  | [] => (backing_GetBestBlock b, [])
  | c :: v =>
      if hashBlock c =? 0 then
        let '(h, v) := GetBestBlock v b in
        (h, MkCache (cacheCoins c) h (cachedCoinsUsage c) :: v)
      else (hashBlock c, c :: v)
  end.

Definition SetBestBlock (hashBlockIn : Z) (c : Cache) : Cache :=
  MkCache (cacheCoins c) hashBlockIn (cachedCoinsUsage c).

(** One entry of [BatchWrite] into a cache. *)
Definition batch_entry (us : CCoinsMap * Z) (kv : COutPoint * CCoinsCacheEntry) :
    outcome (CCoinsMap * Z) :=
  let '(m, usage) := us in
  let it := kv.2 in
  if negb (is_dirty (flags it)) then Done us
  else
    match m !! kv.1 with
    | None =>
        if is_fresh (flags it) && IsSpent (coin it) then Done us
        else Done (<[kv.1 := MkEntry (coin it) (if is_fresh (flags it) then DIRTY .| FRESH else DIRTY)]> m,
                   u64 (usage + DynamicUsage (coin it)))
    | Some itUs =>
        if is_fresh (flags it) && negb (IsSpent (coin itUs)) then Logic_error
        else if is_fresh (flags itUs) && IsSpent (coin it) then
          Done (delete kv.1 m, u64 (usage - DynamicUsage (coin itUs)))
        else
          Done (<[kv.1 := MkEntry (coin it) (flags itUs .| DIRTY)]> m,
                u64 (u64 (usage - DynamicUsage (coin itUs)) + DynamicUsage (coin it)))
    end.

(** The loop over the entries, in the order of the container. *)
Fixpoint batch_loop (us : CCoinsMap * Z) (l : list (COutPoint * CCoinsCacheEntry)) :
    outcome (CCoinsMap * Z) :=
  match l with
  | [] => Done us
  | kv :: l => match batch_entry us kv with Done us => batch_loop us l | e => e end
  end.

Definition BatchWrite (mapCoins : CCoinsMap) (hashBlockIn : Z) (v : Caches) (b : Backing) :
    outcome (bool * Caches * Backing) :=
  match v with
  | [] => let '(ok, b) := backing_BatchWrite mapCoins hashBlockIn b in Done (ok, [], b)
  | c :: v =>
      match batch_loop (cacheCoins c, cachedCoinsUsage c) (map_to_list mapCoins) with
      | Done (m, usage) => Done (true, MkCache m hashBlockIn usage :: v, b)
      | Logic_error => Logic_error
      | Assertion_failed => Assertion_failed
      end
  end.

(** [Flush] of the top cache. *)
Definition Flush (c : Cache) (v : Caches) (b : Backing) : outcome (bool * Caches * Backing) :=
  match BatchWrite (cacheCoins c) (hashBlock c) v b with
  | Done (fOk, v, b) => Done (fOk, MkCache ∅ (hashBlock c) 0 :: v, b)
  | e => e
  end.

Definition Uncache (o : COutPoint) (c : Cache) : Cache :=
  match cacheCoins c !! o with
  | Some it =>
      if flags it =? 0
      then MkCache (delete o (cacheCoins c)) (hashBlock c)
             (u64 (cachedCoinsUsage c - DynamicUsage (coin it)))
      else c
  | None => c
  end.

Definition GetCacheSize (c : Cache) : Z := Z.of_nat (Datatypes.length (map_to_list (cacheCoins c))).

Fixpoint GetValueIn_loop (v : Caches) (b : Backing) (ins : list CTxIn) (nResult : Z) : Z * Caches :=
  match ins with
  | [] => (nResult, v)
  | i :: ins =>
      let '(c, v) := AccessCoin v b (prevout i) in
      GetValueIn_loop v b ins (i64 (nResult + nValue (out c)))
  end.

Definition GetValueIn (v : Caches) (b : Backing) (tx : CTransaction) : Z * Caches :=
  if IsCoinBase tx then (0, v) else GetValueIn_loop v b (vin tx) 0.

Fixpoint HaveInputs_loop (v : Caches) (b : Backing) (ins : list CTxIn) : bool * Caches :=
  match ins with
  | [] => (true, v)
  | i :: ins =>
      let '(have, v) := HaveCoin v b (prevout i) in
      if have then HaveInputs_loop v b ins else (false, v)
  end.

Definition HaveInputs (v : Caches) (b : Backing) (tx : CTransaction) : bool * Caches :=
  if IsCoinBase tx then (true, v) else HaveInputs_loop v b (vin tx).

Definition GetCoinDepthAtHeight (v : Caches) (b : Backing) (o : COutPoint) (nHeight : Z) : Z * Caches :=
  let '(c, v) := AccessCoin v b o in
  (if negb (IsSpent c) then i32 (u32 (nHeight - coin_nHeight c + 1)) else -1, v).

(** [MAX_BLOCK_SIZE_CURRENT / GetSerializeSize(CTxOut())]. *)
Definition MAX_OUTPUTS_PER_BLOCK : Z := 8000000 / 9.

Fixpoint AccessByTxid_loop (fuel : nat) (v : Caches) (b : Backing) (txid iter_n : Z) : Coin * Caches :=
  match fuel with
  | O => (coinEmpty, v)
  | S fuel =>
      if negb (iter_n <? MAX_OUTPUTS_PER_BLOCK) then (coinEmpty, v)
      else
        let '(alternate, v) := AccessCoin v b (MkOutPoint txid iter_n) in
        if negb (IsSpent alternate) then (alternate, v)
        else AccessByTxid_loop fuel v b txid (iter_n + 1)
  end.

Definition AccessByTxid (v : Caches) (b : Backing) (txid : Z) : Coin * Caches :=
  AccessByTxid_loop (Z.to_nat MAX_OUTPUTS_PER_BLOCK) v b txid 0.
End Cache.

(** ** What a view means *)

(** The coin a lookup finds, spent ones included. *)
Fixpoint found (v : Caches) (b : Backing) (o : COutPoint) : option Coin :=
  match v with
  | [] => backing_GetCoin b o
  | c :: v => match cacheCoins c !! o with Some it => Some (coin it) | None => found v b o end
  end.

Definition live (r : option Coin) : option Coin :=
  match r with Some c => if IsSpent c then None else Some c | None => None end.

(** The unspent coins. *)
Definition utxo (v : Caches) (b : Backing) (o : COutPoint) : option Coin := live (found v b o).

(** The contract of the flags of one entry: an entry that is not dirty agrees
    with the view below, a fresh one has no unspent coin below it. *)
Definition entry_ok (below : option Coin) (e : CCoinsCacheEntry) : Prop :=
  (is_dirty (flags e) = false → below = live (Some (coin e))) ∧
  (is_fresh (flags e) = true → below = None).

Definition cache_wf (c : Cache) (v : Caches) (b : Backing) : Prop :=
  ∀ o e, cacheCoins c !! o = Some e → entry_ok (utxo v b o) e.

(** The database holds unspent coins only. *)
Definition backing_wf (b : Backing) : Prop :=
  match b with
  | NoView => True
  | CCoinsViewDB db _ => ∀ o c, db !! o = Some c → IsSpent c = false
  end.

Fixpoint view_wf (v : Caches) (b : Backing) : Prop :=
  match v with
  | [] => backing_wf b
  | c :: v => cache_wf c v b ∧ view_wf v b
  end.

(** ** Flags *)

Lemma flag_bit k f : 0 ≤ k → negb (f .& 2 ^ k =? 0) = Z.testbit f k.
Proof.
  intros Hk. destruct (Z.eqb_spec (f .& 2 ^ k) 0) as [E|E]; simpl; symmetry.
  - assert (Z.testbit (f .& 2 ^ k) k = false) as H by (by rewrite E, Z.bits_0).
    by rewrite Z.land_spec, Z.pow2_bits_true, andb_true_r in H.
  - destruct (Z.testbit f k) eqn:Hb; [done|]. exfalso. apply E. apply Z.bits_inj'. intros i Hi.
    rewrite Z.land_spec, Z.bits_0, Z.pow2_bits_eqb by lia.
    destruct (Z.eqb_spec k i) as [<-|]; [by rewrite Hb|apply andb_false_r].
Qed.

Lemma is_dirty_bit f : is_dirty f = Z.testbit f 0.
Proof. by apply (flag_bit 0). Qed.

Lemma is_fresh_bit f : is_fresh f = Z.testbit f 1.
Proof. by apply (flag_bit 1). Qed.

Lemma is_dirty_lor f g : is_dirty (f .| g) = is_dirty f || is_dirty g.
Proof. by rewrite !is_dirty_bit, Z.lor_spec. Qed.

Lemma is_fresh_lor f g : is_fresh (f .| g) = is_fresh f || is_fresh g.
Proof. by rewrite !is_fresh_bit, Z.lor_spec. Qed.

(** ** Reading fills the caches and changes nothing else *)

Lemma utxo_found v v' b b' o : found v' b' o = found v b o → utxo v' b' o = utxo v b o.
Proof. unfold utxo. by intros ->. Qed.

Lemma cache_wf_ext c v v' b b' :
  (∀ o, utxo v' b' o = utxo v b o) → cache_wf c v b → cache_wf c v' b'.
Proof. intros E H o e He. rewrite E. by apply H. Qed.

Section Usage.
  Context (DynamicUsage : Coin → Z).

(** The memory the coins of a map hold. *)
Definition coins_usage (m : CCoinsMap) : Z :=
  map_fold (λ _ e s, DynamicUsage (coin e) + s) 0 m.

Definition usage_ok (c : Cache) : Prop := cachedCoinsUsage c = u64 (coins_usage (cacheCoins c)).

Lemma coins_usage_insert m o e :
  m !! o = None → coins_usage (<[o := e]> m) = DynamicUsage (coin e) + coins_usage m.
Proof using Type.
  intros H. unfold coins_usage. rewrite map_fold_insert_L; [done|intros; lia|done].
Qed.

Lemma coins_usage_delete m o e :
  m !! o = Some e → coins_usage m = DynamicUsage (coin e) + coins_usage (delete o m).
Proof using Type.
  intros H. unfold coins_usage. rewrite map_fold_delete_L with (i := o) (x := e); [done|intros; lia|done].
Qed.

Lemma coins_usage_replace m o e e' :
  m !! o = Some e →
  coins_usage (<[o := e']> m) = coins_usage m - DynamicUsage (coin e) + DynamicUsage (coin e').
Proof using Type.
  intros H. rewrite <- insert_delete_eq, coins_usage_insert by apply lookup_delete_eq.
  rewrite (coins_usage_delete m o e H). lia.
Qed.

Lemma u64_plus a b : u64 (u64 a + b) = u64 (a + b).
Proof using Type. by rewrite !u64_mod, Zplus_mod_idemp_l. Qed.

Lemma u64_minus a b : u64 (u64 a - b) = u64 (a - b).
Proof using Type. by rewrite !u64_mod, Zminus_mod_idemp_l. Qed.

(** One cache answers a miss from the view below. *)
Lemma fill_spec c o tmp v b :
  cacheCoins c !! o = None → found v b o = Some tmp →
  let c' := fill DynamicUsage c o tmp in
  (∀ o', found (c' :: v) b o' = found (c :: v) b o') ∧
  (cache_wf c v b → cache_wf c' v b) ∧ (usage_ok c → usage_ok c').
Proof using Type.
  intros Hm Hf. simpl. split_and!.
  - intros o'. destruct (decide (o' = o)) as [->|Hne].
    + by rewrite lookup_insert_eq, Hm, Hf.
    + by rewrite lookup_insert_ne.
  - intros Hwf o' e. simpl. destruct (decide (o' = o)) as [->|Hne].
    + rewrite lookup_insert_eq. intros [= <-]. unfold entry_ok, utxo. rewrite Hf. simpl.
      split; [done|]. by destruct (IsSpent tmp).
    + rewrite lookup_insert_ne by done. apply Hwf.
  - unfold usage_ok. simpl. intros ->. rewrite coins_usage_insert by done.
    rewrite u64_plus. f_equal. simpl. lia.
Qed.

(** What every reading method guarantees of the caches after it. *)
Definition same_view (v v' : Caches) (b : Backing) : Prop :=
  (∀ k o, found (drop k v') b o = found (drop k v) b o) ∧ length v' = length v ∧
  (view_wf v b → view_wf v' b) ∧ (Forall usage_ok v → Forall usage_ok v') ∧
  map hashBlock v' = map hashBlock v.

Lemma same_view_refl v b : same_view v v b.
Proof using Type. by split_and!. Qed.

Lemma same_view_trans v1 v2 v3 b :
  same_view v1 v2 b → same_view v2 v3 b → same_view v1 v3 b.
Proof using Type.
  intros (F1 & L1 & W1 & U1 & H1) (F2 & L2 & W2 & U2 & H2). split_and!; auto; try congruence.
Qed.

Lemma same_view_utxo v v' b o : same_view v v' b → utxo v' b o = utxo v b o.
Proof using Type. intros (F & _). by apply utxo_found, (F 0%nat). Qed.

Lemma same_view_nonempty v v' b : same_view v v' b → v ≠ [] → v' ≠ [].
Proof using Type. intros (_ & L & _). by destruct v, v'. Qed.

Lemma GetCoin_spec v b o :
  (GetCoin DynamicUsage v b o).1 = found v b o ∧ same_view v (GetCoin DynamicUsage v b o).2 b.
Proof using Type.
  induction v as [|c v IH]; [by split; [|apply same_view_refl]|].
  cbn [GetCoin found]. destruct (cacheCoins c !! o) as [it|] eqn:Hm; [by split; [|apply same_view_refl]|].
  destruct (GetCoin DynamicUsage v b o) as [r v']. simpl in IH. destruct IH as [-> (F & L & W & U & H)].
  assert (same_view (c :: v) (c :: v') b) as Hsame.
  { split_and!; simpl; [|by rewrite L| | |by rewrite H].
    - intros [|k] o'; simpl; [by rewrite (F 0%nat o' : found v' b o' = _)|apply F].
    - intros [Hc Hv]. split; [|by apply W]. eapply cache_wf_ext; [|done]. intros.
      by apply utxo_found, (F 0%nat).
    - intros [? ?]%Forall_cons. apply Forall_cons; auto. }
  destruct (found v b o) as [tmp|] eqn:Hf; simpl; [|done]. split; [done|].
  apply (same_view_trans _ (c :: v')); [done|].
  destruct (fill_spec c o tmp v' b Hm) as (F1 & W1 & U1); [by rewrite (F 0%nat o : found v' b o = _)|].
  split_and!; try done; simpl.
  - intros [|k] o'; [apply F1|done].
  - intros [? ?]. auto.
  - intros [? ?]%Forall_cons. apply Forall_cons; auto.
Qed.

(** After a fetch the answer is in the top cache. *)
Lemma GetCoin_top c v b o :
  ∃ c' v', (GetCoin DynamicUsage (c :: v) b o).2 = c' :: v' ∧
    coin <$> cacheCoins c' !! o = found (c :: v) b o.
Proof using Type.
  cbn [GetCoin found]. destruct (cacheCoins c !! o) as [it|] eqn:Hm.
  { exists c, v. by rewrite Hm. }
  pose proof (GetCoin_spec v b o) as [Hr _]. destruct (GetCoin DynamicUsage v b o) as [r v'].
  simpl in Hr. subst r. destruct (found v b o) as [tmp|].
  - exists (fill DynamicUsage c o tmp), v'. split; [done|]. simpl. by rewrite lookup_insert_eq.
  - exists c, v'. by rewrite Hm.
Qed.

Lemma FetchCoin_spec c v b o :
  ∃ c' v', FetchCoin DynamicUsage (c :: v) b o = (cacheCoins c' !! o, c' :: v') ∧
    coin <$> cacheCoins c' !! o = found (c :: v) b o ∧ same_view (c :: v) (c' :: v') b.
Proof using Type.
  destruct (GetCoin_top c v b o) as (c' & v' & E & Hf).
  pose proof (GetCoin_spec (c :: v) b o) as [_ Hs]. rewrite E in Hs.
  exists c', v'. unfold FetchCoin. by rewrite E.
Qed.

Lemma AccessCoin_spec c v b o :
  let r := AccessCoin DynamicUsage (c :: v) b o in
  r.1 = default coinEmpty (found (c :: v) b o) ∧ same_view (c :: v) r.2 b.
Proof using Type.
  unfold AccessCoin. destruct (FetchCoin_spec c v b o) as (c' & v' & -> & <- & Hs). done.
Qed.

Lemma HaveCoin_spec c v b o :
  let r := HaveCoin DynamicUsage (c :: v) b o in
  r.1 = bool_decide (is_Some (utxo (c :: v) b o)) ∧ same_view (c :: v) r.2 b.
Proof using Type.
  unfold HaveCoin, utxo. destruct (FetchCoin_spec c v b o) as (c' & v' & -> & <- & Hs). simpl.
  split; [|done]. destruct (cacheCoins c' !! o) as [it|]; simpl; [|done].
  by destruct (IsSpent (coin it)).
Qed.

(** ** Writing *)

(** The map of unspent coins after a change at one outpoint. *)
Definition upd (f : COutPoint → option Coin) (o : COutPoint) (r : option Coin) :
    COutPoint → option Coin :=
  λ o', if decide (o' = o) then r else f o'.

Lemma utxo_insert c v b m h u o e :
  m = <[o := e]> (cacheCoins c) →
  ∀ o', utxo (MkCache m h u :: v) b o' = upd (utxo (c :: v) b) o (live (Some (coin e))) o'.
Proof using Type.
  intros -> o'. unfold utxo, upd. simpl. destruct (decide (o' = o)) as [->|Hne].
  - by rewrite lookup_insert_eq.
  - by rewrite lookup_insert_ne.
Qed.

Lemma utxo_delete c v b m h u o :
  m = delete o (cacheCoins c) →
  ∀ o', utxo (MkCache m h u :: v) b o' = upd (utxo (c :: v) b) o (utxo v b o) o'.
Proof using Type.
  intros -> o'. unfold utxo, upd. simpl. destruct (decide (o' = o)) as [->|Hne].
  - by rewrite lookup_delete_eq.
  - by rewrite lookup_delete_ne.
Qed.

Lemma cache_wf_insert c v b h u o e :
  cache_wf c v b → entry_ok (utxo v b o) e → cache_wf (MkCache (<[o := e]> (cacheCoins c)) h u) v b.
Proof using Type.
  intros Hc He o' e'. simpl. destruct (decide (o' = o)) as [->|Hne].
  - rewrite lookup_insert_eq. by intros [= <-].
  - rewrite lookup_insert_ne by done. apply Hc.
Qed.

Lemma cache_wf_delete c v b h u o :
  cache_wf c v b → cache_wf (MkCache (delete o (cacheCoins c)) h u) v b.
Proof using Type. intros Hc o' e'. simpl. intros [_ H]%lookup_delete_Some. by apply Hc. Qed.

Lemma entry_ok_dirty below c f :
  is_dirty f = true → (is_fresh f = true → below = None) → entry_ok below (MkEntry c f).
Proof using Type. intros Hd Hf. split; [|done]. simpl. by rewrite Hd. Qed.

Lemma SpendCoin_spec c v b o :
  let r := SpendCoin DynamicUsage (c :: v) b o in
  r.1 = found (c :: v) b o ∧ length r.2 = length (c :: v) ∧
  (view_wf (c :: v) b → view_wf r.2 b ∧ ∀ o', utxo r.2 b o' = upd (utxo (c :: v) b) o None o') ∧
  (Forall usage_ok (c :: v) → DynamicUsage coinEmpty = 0 → Forall usage_ok r.2).
Proof using Type.
  unfold SpendCoin. destruct (FetchCoin_spec c v b o) as (c' & v' & -> & Hf & F & L & W & U & H).
  destruct (cacheCoins c' !! o) as [it|] eqn:Hit; simpl in Hf |- *.
  2:{ rewrite <- Hf. split_and!; [done|done| |auto]. intros Hwf. split; [by apply W|].
      intros o'. unfold upd. rewrite (utxo_found _ _ _ _ _ (F 0%nat o' : found (c' :: v') b o' = found (c :: v) b o')).
      destruct (decide (o' = o)) as [->|]; [|done]. unfold utxo. simpl. by rewrite <- Hf. }
  rewrite <- Hf. split_and!; [done|done| |].
  - intros [Hc Hv]%W. destruct (Hc _ _ Hit) as [_ Hfr].
    assert (∀ o', upd (utxo (c' :: v') b) o None o' = upd (utxo (c :: v) b) o None o') as Hupd.
    { intros o'. unfold upd. by rewrite (utxo_found _ _ _ _ _ (F 0%nat o' : found (c' :: v') b o' = found (c :: v) b o')). }
    destruct (is_fresh (flags it)) eqn:Hfresh.
    + split; [split; [by apply cache_wf_delete|done]|]. intros o'. rewrite <- Hupd.
      rewrite (utxo_delete c' v' b _ _ _ o) by done. by rewrite Hfr.
    + split; [split; [|done]|intros o'; rewrite <- Hupd; by rewrite (utxo_insert c' v' b _ _ _ o _ eq_refl)].
      apply cache_wf_insert; [done|]. apply entry_ok_dirty; rewrite ?is_dirty_lor, ?is_fresh_lor.
      * apply orb_true_r.
      * by rewrite Hfresh.
  - intros Hu Hempty. apply U in Hu. apply Forall_cons in Hu as [Hc Hv]. apply Forall_cons. split; [|done].
    unfold usage_ok in *. simpl. rewrite Hc, u64_minus. destruct (is_fresh (flags it)).
    + rewrite (coins_usage_delete _ _ _ Hit). f_equal. lia.
    + rewrite (coins_usage_replace _ _ _ _ Hit). f_equal. simpl. lia.
Qed.

(** The views below only have their caches filled. *)
Lemma SpendCoin_below c v b o v2 :
  (SpendCoin DynamicUsage (c :: v) b o).2 = v2 →
  ∃ c' v', v2 = c' :: v' ∧ ∀ k o', found (drop k v') b o' = found (drop k v) b o'.
Proof using Type.
  intros <-. unfold SpendCoin. destruct (FetchCoin_spec c v b o) as (c' & v' & -> & Hf & F & _).
  assert (∀ k o', found (drop k v') b o' = found (drop k v) b o') by (intros k; apply (F (S k))).
  destruct (cacheCoins c' !! o); simpl; eauto.
Qed.

Lemma AddCoin_spec c v b o newCoin ow :
  IsSpent newCoin = false → IsUnspendable (scriptPubKey (out newCoin)) = false →
  match AddCoin DynamicUsage c o newCoin ow with
  | Done c' =>
      (view_wf (c :: v) b → ow = true ∨ utxo (c :: v) b o = None → cache_wf c' v b) ∧
      (∀ o', utxo (c' :: v) b o' = upd (utxo (c :: v) b) o (Some newCoin) o') ∧
      (usage_ok c → usage_ok c') ∧ hashBlock c' = hashBlock c
  | Logic_error => ow = false ∧ is_Some (utxo (c :: v) b o)
  | Assertion_failed => False
  end.
Proof using Type.
  intros Hs Hu. unfold AddCoin. rewrite Hs, Hu.
  destruct (negb ow && _) eqn:Hthrow.
  { apply andb_prop in Hthrow as [Ho Hsp]. split; [by destruct ow|]. unfold utxo. simpl.
    destruct (cacheCoins c !! o) as [it|]; simpl in *; [|done].
    destruct (IsSpent (coin it)); [done|eauto]. }
  split_and!; [|intros o'; rewrite (utxo_insert c v b _ _ _ o _ eq_refl); simpl; by rewrite Hs| |done].
  - intros [Hc Hv] Hpre. apply cache_wf_insert; [done|].
    apply entry_ok_dirty; rewrite ?is_dirty_lor, ?is_fresh_lor; [by rewrite orb_true_l, orb_true_r|].
    destruct (cacheCoins c !! o) as [it|] eqn:Hm; simpl in *.
    + destruct (Hc _ _ Hm) as [Hd Hf]. intros [Hfr|Hfr]%orb_prop; [by apply Hf|].
      destruct ow, (is_dirty (flags it)) eqn:Hdirty; try done. rewrite Hd by done. simpl in Hthrow.
      apply negb_false_iff in Hthrow. simpl. by rewrite Hthrow.
    + destruct Hpre as [->|Hn]; [done|]. intros _. unfold utxo in *. simpl in Hn. by rewrite Hm in Hn.
  - unfold usage_ok. simpl. intros ->. destruct (cacheCoins c !! o) as [it|] eqn:Hm; simpl.
    + rewrite (coins_usage_replace _ _ _ _ Hm), u64_minus, u64_plus. f_equal. 
    + rewrite coins_usage_insert, u64_plus by done. f_equal. simpl. lia.
Qed.

Lemma Uncache_spec c v b o :
  let c' := Uncache DynamicUsage o c in
  (view_wf (c :: v) b → cache_wf c' v b ∧ ∀ o', utxo (c' :: v) b o' = utxo (c :: v) b o') ∧
  (usage_ok c → usage_ok c').
Proof using Type.
  unfold Uncache. destruct (cacheCoins c !! o) as [it|] eqn:Hm; [|by split; [intros [? ?]|]].
  destruct (Z.eqb_spec (flags it) 0) as [E|]; [|by split; [intros [? ?]|]]. simpl. split.
  - intros [Hc Hv]. split; [by apply cache_wf_delete|]. intros o'.
    rewrite (utxo_delete c v b _ _ _ o eq_refl). unfold upd.
    destruct (decide (o' = o)) as [->|]; [|done]. destruct (Hc _ _ Hm) as [Hd _].
    rewrite Hd by (by rewrite E). unfold utxo. simpl. by rewrite Hm.
  - unfold usage_ok. simpl. intros ->. rewrite u64_minus, (coins_usage_delete _ _ _ Hm).
    f_equal. lia.
Qed.

(** ** Flushing *)

(** The effect of the dirty entries of a map on the coins below. *)
Definition overlay_entry (f : COutPoint → option Coin) (kv : COutPoint * CCoinsCacheEntry) :
    COutPoint → option Coin :=
  if is_dirty (flags kv.2) then upd f kv.1 (live (Some (coin kv.2))) else f.

Definition overlay (l : list (COutPoint * CCoinsCacheEntry)) (f : COutPoint → option Coin) :
    COutPoint → option Coin := foldl overlay_entry f l.

Lemma overlay_notin l f o : o ∉ l.*1 → overlay l f o = f o.
Proof using Type.
  revert f. induction l as [|[o1 e] l IH]; intros f Hn; [done|].
  apply not_elem_of_cons in Hn as [Hne Hn]. simpl in Hne.
  unfold overlay. cbn [foldl]. fold (overlay l (overlay_entry f (o1, e))). rewrite IH by done.
  unfold overlay_entry, upd. simpl. destruct (is_dirty (flags e)); [|done]. by rewrite decide_False.
Qed.

Lemma overlay_in l f o e :
  NoDup l.*1 → (o, e) ∈ l → overlay l f o = if is_dirty (flags e) then live (Some (coin e)) else f o.
Proof using Type.
  revert f. induction l as [|[o1 e1] l IH]; intros f Hnd Hin; [by apply not_elem_of_nil in Hin|].
  apply NoDup_cons in Hnd as [Hn Hnd]. unfold overlay. cbn [foldl].
  fold (overlay l (overlay_entry f (o1, e1))).
  apply elem_of_cons in Hin as [[= <- <-]|Hin].
  - rewrite overlay_notin by done. unfold overlay_entry, upd. simpl.
    destruct (is_dirty (flags e)); [by rewrite decide_True|done].
  - rewrite IH by done. destruct (is_dirty (flags e)); [done|].
    unfold overlay_entry, upd. simpl. destruct (is_dirty (flags e1)); [|done].
    rewrite decide_False; [done|]. intros ->. apply Hn. apply list_elem_of_fmap. by exists (o1, e).
Qed.

(** Pushing a well-formed cache into the view below gives the coins of the cache. *)
Lemma overlay_cache c v b o :
  cache_wf c v b → overlay (map_to_list (cacheCoins c)) (utxo v b) o = utxo (c :: v) b o.
Proof using Type.
  intros Hc. destruct (cacheCoins c !! o) as [e|] eqn:Hm.
  - rewrite (overlay_in _ _ o e).
    + unfold utxo at 2. simpl. rewrite Hm. destruct (is_dirty (flags e)) eqn:Hd; [done|].
      by destruct (Hc _ _ Hm) as [-> _].
    + apply NoDup_fst_map_to_list.
    + by apply elem_of_map_to_list.
  - rewrite overlay_notin; [unfold utxo; simpl; by rewrite Hm|].
    intros ([o' e] & -> & Hin)%list_elem_of_fmap. apply elem_of_map_to_list in Hin. simpl in Hm. congruence.
Qed.

(** One entry written into a cache that has the contract with the view below. *)
Lemma batch_entry_spec m u h v b o e :
  cache_wf (MkCache m h u) v b → entry_ok (utxo (MkCache m h u :: v) b o) e →
  ∃ m' u', batch_entry DynamicUsage (m, u) (o, e) = Done (m', u') ∧
    cache_wf (MkCache m' h u') v b ∧
    (∀ o', utxo (MkCache m' h u' :: v) b o' =
           overlay_entry (utxo (MkCache m h u :: v) b) (o, e) o') ∧
    (usage_ok (MkCache m h u) → usage_ok (MkCache m' h u')).
Proof using Type.
  intros Hc [_ Hfresh]. set (c := MkCache m h u) in *. unfold batch_entry, overlay_entry. simpl.
  destruct (is_dirty (flags e)) eqn:Hd; simpl; [|by exists m, u].
  destruct (m !! o) as [us|] eqn:Hm.
  - assert (utxo (c :: v) b o = live (Some (coin us))) as Hus by (unfold utxo; simpl; by rewrite Hm).
    destruct (Hc o us Hm) as [_ Hfus].
    destruct (is_fresh (flags e) && negb (IsSpent (coin us))) eqn:Hthrow.
    { apply andb_prop in Hthrow as [Hf Hs%negb_true_iff]. rewrite (Hfresh Hf) in Hus.
      simpl in Hus. by rewrite Hs in Hus. }
    destruct (is_fresh (flags us) && IsSpent (coin e)) eqn:Hdel.
    + apply andb_prop in Hdel as [Hf Hs]. eexists _, _. split; [done|]. split_and!.
      * by apply (cache_wf_delete c).
      * intros o'. rewrite (utxo_delete c v b _ _ _ o eq_refl), (Hfus Hf). simpl. by rewrite Hs.
      * unfold usage_ok. simpl. intros ->. rewrite u64_minus, (coins_usage_delete _ _ _ Hm). f_equal. lia.
    + eexists _, _. split; [done|]. split_and!.
      * apply (cache_wf_insert c); [done|].
        apply entry_ok_dirty; rewrite ?is_dirty_lor, ?is_fresh_lor; [apply orb_true_r|].
        by rewrite orb_false_r.
      * intros o'. by rewrite (utxo_insert c v b _ _ _ o _ eq_refl).
      * unfold usage_ok. simpl. intros ->. rewrite u64_minus, u64_plus, (coins_usage_replace _ _ _ _ Hm). done.
  - assert (utxo (c :: v) b o = utxo v b o) as Hbelow by (unfold utxo; simpl; by rewrite Hm).
    destruct (is_fresh (flags e) && IsSpent (coin e)) eqn:Hskip.
    + apply andb_prop in Hskip as [Hf Hs]. exists m, u. split_and!; [done|done| |done].
      intros o'. unfold upd. destruct (decide (o' = o)) as [->|]; [|done]. simpl. rewrite Hs. by apply Hfresh.
    + eexists _, _. split; [done|]. split_and!.
      * apply (cache_wf_insert c); [done|]. apply entry_ok_dirty.
        -- by destruct (is_fresh (flags e)).
        -- intros Hf. rewrite <- Hbelow. apply Hfresh. by destruct (is_fresh (flags e)).
      * intros o'. by rewrite (utxo_insert c v b _ _ _ o _ eq_refl).
      * unfold usage_ok. simpl. intros ->. rewrite coins_usage_insert, u64_plus by done. f_equal. simpl. lia.
Qed.

Lemma overlay_entry_other f o e o' : o' ≠ o → overlay_entry f (o, e) o' = f o'.
Proof using Type.
  intros Hne. unfold overlay_entry, upd. simpl. destruct (is_dirty (flags e)); [|done]. by rewrite decide_False.
Qed.

Lemma overlay_ext l f g : (∀ o, f o = g o) → ∀ o, overlay l f o = overlay l g o.
Proof using Type.
  revert f g. induction l as [|kv l IH]; intros f g E o; [apply E|]. unfold overlay. cbn [foldl].
  apply IH. intros o'. unfold overlay_entry, upd. destruct (is_dirty _); [|apply E].
  destruct (decide _); [done|apply E].
Qed.

Lemma batch_loop_spec l m u h v b :
  NoDup l.*1 → cache_wf (MkCache m h u) v b →
  (∀ o e, (o, e) ∈ l → entry_ok (utxo (MkCache m h u :: v) b o) e) →
  ∃ m' u', batch_loop DynamicUsage (m, u) l = Done (m', u') ∧
    cache_wf (MkCache m' h u') v b ∧
    (∀ o, utxo (MkCache m' h u' :: v) b o = overlay l (utxo (MkCache m h u :: v) b) o) ∧
    (usage_ok (MkCache m h u) → usage_ok (MkCache m' h u')).
Proof using Type.
  revert m u. induction l as [|[o e] l IH]; intros m u Hnd Hc Hl; [by exists m, u|].
  apply NoDup_cons in Hnd as [Hn Hnd].
  destruct (batch_entry_spec m u h v b o e) as (m1 & u1 & E & Hc1 & Hf1 & Hu1);
    [done|apply Hl; by left|]. cbn [batch_loop]. rewrite E.
  destruct (IH m1 u1) as (m2 & u2 & -> & Hc2 & Hf2 & Hu2); [done|done| |].
  - intros o' e' Hin. rewrite Hf1, overlay_entry_other; [apply Hl; by right|].
    intros ->. apply Hn. apply list_elem_of_fmap. by exists (o, e').
  - exists m2, u2. split_and!; [done|done| |auto]. intros o'. rewrite Hf2. unfold overlay at 2. cbn [foldl].
    by apply overlay_ext.
Qed.

Lemma db_write_spec l db best :
  backing_wf (CCoinsViewDB db best) → ∀ best',
  backing_wf (CCoinsViewDB (foldl db_write db l) best') ∧
  ∀ o, utxo [] (CCoinsViewDB (foldl db_write db l) best') o = overlay l (utxo [] (CCoinsViewDB db best)) o.
Proof using Type.
  revert db best. induction l as [|[o e] l IH]; intros db best Hwf best'; [done|]. cbn [foldl].
  assert (backing_wf (CCoinsViewDB (db_write db (o, e)) best)) as Hwf1.
  { intros o' c'. unfold db_write. simpl. destruct (is_dirty (flags e)); [|by apply Hwf].
    destruct (IsSpent (coin e)) eqn:Hs.
    - intros [_ H]%lookup_delete_Some. by apply (Hwf o').
    - intros [[_ <-]|[_ H]]%lookup_insert_Some; [done|by apply (Hwf o')]. }
  destruct (IH _ best Hwf1 best') as [Hwf2 Hf]. split; [done|]. intros o'. rewrite Hf.
  unfold overlay at 2. cbn [foldl]. apply overlay_ext. clear -Hwf. intros o'.
  unfold overlay_entry, upd, utxo, db_write. simpl. destruct (is_dirty (flags e)); [|done].
  destruct (IsSpent (coin e)) eqn:Hs; destruct (decide (o' = o)) as [->|Hne]; simpl.
  - by rewrite lookup_delete_eq.
  - by rewrite lookup_delete_ne.
  - rewrite lookup_insert_eq. simpl. by rewrite Hs.
  - by rewrite lookup_insert_ne.
Qed.

(** A database below the caches. *)
Definition on_db (b : Backing) : Prop := match b with NoView => False | _ => True end.

(** The view and every view below it, down to the database, as plain maps. *)
Fixpoint refines (v : Caches) (b : Backing) (A : list (COutPoint → option Coin)) : Prop :=
  match v, A with
  | [], [f] => ∀ o, utxo [] b o = f o
  | c :: v', f :: A => (∀ o, utxo (c :: v') b o = f o) ∧ refines v' b A
  | _, _ => False
  end.

(** [Flush] pushes exactly the coins of the cache into the view below, leaves the
    views under that one alone, and does not throw. *)
Lemma Flush_spec c v b g A :
  view_wf (c :: v) b → on_db b → refines v b (g :: A) →
  ∃ v' b', Flush DynamicUsage c v b = Done (true, MkCache ∅ (hashBlock c) 0 :: v', b') ∧
    view_wf (MkCache ∅ (hashBlock c) 0 :: v') b' ∧ on_db b' ∧
    (∀ o, utxo v' b' o = utxo (c :: v) b o) ∧ refines v' b' (utxo (c :: v) b :: A) ∧
    (Forall usage_ok v → Forall usage_ok v').
Proof using Type.
  intros [Hc Hv] Hb HA. unfold Flush, BatchWrite. destruct v as [|p v].
  - destruct b as [|db best]; [done|]. simpl.
    destruct (db_write_spec (map_to_list (cacheCoins c)) db best Hv
      (if negb (hashBlock c =? 0) then hashBlock c else best)) as [Hwf Hf].
    assert (∀ o, utxo [] (CCoinsViewDB (foldl db_write db (map_to_list (cacheCoins c)))
      (if negb (hashBlock c =? 0) then hashBlock c else best)) o = utxo [c] (CCoinsViewDB db best) o) as E.
    { intros o. rewrite Hf. by apply overlay_cache. }
    eexists [], _. split; [done|]. split_and!; try done.
    by destruct A.
  - destruct p as [m h u]. destruct Hv as [Hp Hv]. destruct HA as [_ HA]. simpl.
    destruct (batch_loop_spec (map_to_list (cacheCoins c)) m u h v b) as (m' & u' & -> & Hc' & Hf & Hu).
    + apply NoDup_fst_map_to_list.
    + done.
    + intros o e Hin%elem_of_map_to_list. by apply Hc.
    + assert (∀ o, utxo (MkCache m' (hashBlock c) u' :: v) b o = utxo (c :: MkCache m h u :: v) b o) as E.
      { intros o. change (utxo (MkCache m' (hashBlock c) u' :: v) b o) with (utxo (MkCache m' h u' :: v) b o).
        rewrite Hf. by apply overlay_cache. }
      eexists (MkCache m' (hashBlock c) u' :: v), b. split; [done|]. split_and!; try done.
      intros [H1 H2]%Forall_cons. apply Forall_cons. split; [by apply Hu|done].
Qed.

(** ** A stack of caches is a stack of maps *)

Inductive op :=
  | Read (o : COutPoint) | Add (o : COutPoint) (x : Coin) (possible_overwrite : bool)
  | Spend (o : COutPoint) | Forget (o : COutPoint) | Commit | Open | Close.

(** The methods of the top cache; [Open] constructs a cache on top of it and
    [Close] destroys the top cache.  The answer is the unspent coin read or
    moved out. *)
Definition exec (x : op) (s : Caches * Backing) : outcome (option Coin * (Caches * Backing)) :=
  match s with
  | ([], _) => Assertion_failed
  | (c :: v, b) =>
      match x with
      | Read o => let '(r, v) := AccessCoin DynamicUsage (c :: v) b o in Done (live (Some r), (v, b))
      | Add o x ow =>
          match AddCoin DynamicUsage c o x ow with
          | Done c => Done (None, (c :: v, b))
          | Logic_error => Logic_error
          | Assertion_failed => Assertion_failed
          end
      | Spend o => let '(r, v) := SpendCoin DynamicUsage (c :: v) b o in Done (live r, (v, b))
      | Forget o => Done (None, (Uncache DynamicUsage o c :: v, b))
      | Commit =>
          match Flush DynamicUsage c v b with
          | Done (_, v, b) => Done (None, (v, b))
          | Logic_error => Logic_error
          | Assertion_failed => Assertion_failed
          end
      | Open => Done (None, (empty_cache :: c :: v, b))
      | Close => Done (None, (v, b))
      end
  end.

(** The same on maps, top first; [None] where the caller breaks the contract: an
    unspent coin added over another one without permission, the database closed. *)
Definition spec (x : op) (A : list (COutPoint → option Coin)) :
    option (option Coin * list (COutPoint → option Coin)) :=
  match A with
  | f :: g :: A =>
      match x with
      | Read o => Some (f o, f :: g :: A)
      | Add o x ow =>
          if IsSpent x then None
          else if IsUnspendable (scriptPubKey (out x)) then Some (None, f :: g :: A)
          else if negb ow && bool_decide (is_Some (f o)) then None
          else Some (None, upd f o (Some x) :: g :: A)
      | Spend o => Some (f o, upd f o None :: g :: A)
      | Forget _ => Some (None, f :: g :: A)
      | Commit => Some (None, f :: f :: A)
      | Open => Some (None, f :: f :: g :: A)
      | Close => match A with [] => None | _ => Some (None, g :: A) end
      end
  | _ => None
  end.

(** What holds between calls. *)
Definition stack_ok (s : Caches * Backing) : Prop :=
  view_wf s.1 s.2 ∧ on_db s.2 ∧ Forall usage_ok s.1.

Lemma refines_found v v' b A :
  (∀ k o, found (drop k v') b o = found (drop k v) b o) → length v' = length v →
  refines v b A → refines v' b A.
Proof using Type.
  revert v' A. induction v as [|c v IH]; intros [|c' v'] A F L HA; try done.
  destruct A as [|f A]; [done|]. destruct HA as [Hf HA]. split.
  - intros o. rewrite <- Hf. by apply utxo_found, (F 0%nat).
  - apply (IH v'); [|by injection L|done]. intros k. apply (F (S k)).
Qed.

Lemma refines_same v v' b A : same_view v v' b → refines v b A → refines v' b A.
Proof using Type. intros (F & L & _). by apply refines_found. Qed.

Lemma stack_ok_same v v' b : same_view v v' b → stack_ok (v, b) → stack_ok (v', b).
Proof using Type. intros (_ & _ & W & U & _) (? & ? & ?). split_and!; simpl in *; auto. Qed.

Lemma refines_head v b f g A : (∀ o, f o = g o) → refines v b (f :: A) → refines v b (g :: A).
Proof using Type.
  intros E. destruct v as [|c v]; simpl.
  - destruct A; [|done]. intros H o. by rewrite <- E.
  - intros [H ?]. split; [|done]. intros o. by rewrite <- E.
Qed.

Context (Husage : DynamicUsage coinEmpty = 0).

Lemma exec_spec x s A r A' :
  stack_ok s → refines s.1 s.2 A → spec x A = Some (r, A') →
  ∃ s', exec x s = Done (r, s') ∧ stack_ok s' ∧ refines s'.1 s'.2 A'.
Proof using Husage.
  destruct s as [v b]. simpl. intros Hok HA Hspec.
  destruct A as [|f [|g A]]; [done..|]. destruct v as [|c v]; [done|].
  pose proof HA as [Hf HA']. pose proof Hok as (Hwf & Hb & Hu). simpl in Hwf, Hb, Hu.
  destruct x as [o|o x ow|o|o| | |]; simpl in Hspec |- *.
  - injection Hspec as <- <-. destruct (AccessCoin_spec c v b o) as [Hr Hs].
    destruct (AccessCoin DynamicUsage (c :: v) b o) as [r v']. simpl in Hr, Hs |- *. subst r.
    exists (v', b). rewrite <- Hf. split_and!.
    + unfold utxo. simpl. by destruct (cacheCoins c !! o); [|destruct (found v b o)].
    + by apply (stack_ok_same (c :: v)).
    + by apply (refines_same (c :: v)).
  - destruct (IsSpent x) eqn:Hsp; [done|]. destruct (IsUnspendable (scriptPubKey (out x))) eqn:Hun.
    { injection Hspec as <- <-. unfold AddCoin. rewrite Hsp, Hun. by exists (c :: v, b). }
    pose proof (AddCoin_spec c v b o x ow Hsp Hun) as Hadd.
    destruct (negb ow && _) eqn:Hpre in Hspec; [done|]. injection Hspec as <- <-.
    assert (ow = true ∨ utxo (c :: v) b o = None) as Hp.
    { rewrite Hf. destruct ow; [by left|right]. apply bool_decide_eq_false in Hpre.
      by apply eq_None_not_Some. }
    destruct (AddCoin DynamicUsage c o x ow) as [c'| |]; [| |done].
    + destruct Hadd as (Hw & Hx & Hus & _). eexists (c' :: v, b). split; [done|].
      split; [split; [|split]|split]; simpl.
      * split; [by apply Hw|apply Hwf].
      * done.
      * apply Forall_cons in Hu as [? ?]. apply Forall_cons; auto.
      * intros o'. rewrite Hx. unfold upd. by rewrite Hf.
      * done.
    + destruct Hadd as [-> Hsome]. destruct Hp as [|Hn]; [done|]. rewrite Hn in Hsome. by destruct Hsome.
  - injection Hspec as <- <-. destruct (SpendCoin_spec c v b o) as (Hr & L & W & U).
    destruct (SpendCoin DynamicUsage (c :: v) b o) as [r v'] eqn:E. simpl in Hr, L, W, U |- *.
    destruct (W Hwf) as [Hwf' Hx]. subst r. eexists (v', b). split; [by rewrite <- Hf|].
    split; [split; [done|split; [done|by apply U]]|].
    destruct (SpendCoin_below c v b o v') as (c2 & v2 & -> & F); [by rewrite E|].
    split; [intros o'; rewrite Hx; unfold upd; by rewrite Hf|].
    eapply refines_found; [exact F| |exact HA']. simpl in L. lia.
  - injection Hspec as <- <-. destruct (Uncache_spec c v b o) as [Hw Hus].
    destruct (Hw Hwf) as [Hc Hx]. eexists (_ :: v, b). split; [done|].
    split; [split; [|split]|split]; simpl; try done.
    + split; [done|apply Hwf].
    + apply Forall_cons in Hu as [? ?]. apply Forall_cons; auto.
    + intros o'. by rewrite Hx.
  - injection Hspec as <- <-.
    destruct (Flush_spec c v b g A Hwf Hb HA') as (v' & b' & -> & Hwf' & Hb' & Hx & HA2 & Hus).
    eexists (_ :: v', b'). split; [done|]. apply Forall_cons in Hu as [_ Hu]. split.
    + split_and!; try done. apply Forall_cons. split; [done|by apply Hus].
    + simpl. split; [|by apply (refines_head _ _ (utxo (c :: v) b))].
      intros o. rewrite <- Hf, <- Hx. unfold utxo. simpl. by rewrite lookup_empty.
  - injection Hspec as <- <-. eexists (empty_cache :: c :: v, b). split; [done|]. split.
    + split_and!; try done. by apply Forall_cons.
    + split; [|done]. intros o. by rewrite <- Hf.
  - destruct A as [|h A]; [done|]. injection Hspec as <- <-. exists (v, b). split; [done|].
    apply Forall_cons in Hu as [_ Hu]. split; [|done]. split_and!; [apply Hwf|done|done].
Qed.

Fixpoint run (xs : list op) (s : Caches * Backing) : outcome (list (option Coin) * (Caches * Backing)) :=
  match xs with
  | [] => Done ([], s)
  | x :: xs =>
      match exec x s with
      | Done (r, s) =>
          match run xs s with
          | Done (rs, s) => Done (r :: rs, s)
          | Logic_error => Logic_error
          | Assertion_failed => Assertion_failed
          end
      | Logic_error => Logic_error
      | Assertion_failed => Assertion_failed
      end
  end.

Fixpoint run_spec (xs : list op) (A : list (COutPoint → option Coin)) :
    option (list (option Coin) * list (COutPoint → option Coin)) :=
  match xs with
  | [] => Some ([], A)
  | x :: xs => '(r, A) ← spec x A; '(rs, A) ← run_spec xs A; Some (r :: rs, A)
  end.

(** C1: a stack of coin caches over the database behaves as a stack of plain maps
    of unspent coins.  For every sequence of reads, additions, spends, uncaches,
    flushes, and constructions and destructions of caches that the maps allow, the
    caches throw nothing, give the same answers, and mean the same maps at every
    level afterwards; the flags keep their contract and every memory counter is
    the sum over its cache.  Filling caches on reads, the DIRTY and FRESH
    shortcuts and the order of a flush are invisible. *)
Theorem coin_stack_refines xs s A rs A' :
  stack_ok s → refines s.1 s.2 A → run_spec xs A = Some (rs, A') →
  ∃ s', run xs s = Done (rs, s') ∧ stack_ok s' ∧ refines s'.1 s'.2 A'.
Proof using Husage.
  revert s A rs. induction xs as [|x xs IH]; intros s A rs Hok HA Hr; simpl in *.
  { simplify_eq. eauto. }
  destruct (spec x A) as [[r A1]|] eqn:E; [|done]. simpl in Hr.
  destruct (run_spec xs A1) as [[rs1 A2]|] eqn:E2; [|done]. simpl in Hr. simplify_eq.
  destruct (exec_spec x s A r A1 Hok HA E) as (s1 & -> & Hok1 & HA1).
  destruct (IH s1 A1 rs1 Hok1 HA1 E2) as (s2 & -> & Hok2 & HA2). eauto.
Qed.

(** Adding a coin without permission to overwrite: the exception is raised
    exactly when the cache itself holds an unspent coin at the outpoint; on every
    other branch of a spendable new coin the coin is stored, the entry is dirty,
    and it is marked fresh exactly when overwriting is not allowed and no dirty
    entry was there. *)
Theorem AddCoin_branches c o newCoin ow :
  IsSpent newCoin = false → IsUnspendable (scriptPubKey (out newCoin)) = false →
  let old := cacheCoins c !! o in
  let unspent := match old with Some e => negb (IsSpent (coin e)) | None => false end in
  (AddCoin DynamicUsage c o newCoin ow = Logic_error ↔ ow = false ∧ unspent = true) ∧
  (ow = true ∨ unspent = false → ∃ c' f,
     AddCoin DynamicUsage c o newCoin ow = Done c' ∧ cacheCoins c' !! o = Some (MkEntry newCoin f) ∧
     is_dirty f = true ∧
     is_fresh f = match old with Some e => is_fresh (flags e) || negb ow && negb (is_dirty (flags e))
                               | None => negb ow end ∧
     ∀ o', o' ≠ o → cacheCoins c' !! o' = cacheCoins c !! o').
Proof using Type.
  intros Hs Hu old unspent. unfold AddCoin. rewrite Hs, Hu.
  assert (negb (IsSpent (coin (default (MkEntry coinEmpty 0) (cacheCoins c !! o)))) = unspent) as ->.
  { unfold unspent, old. by destruct (cacheCoins c !! o). }
  split.
  - destruct ow, unspent; simpl; split; try done; by intros [? ?].
  - intros Hok. assert (negb ow && unspent = false) as -> by (destruct Hok as [->| ->]; [done|apply andb_false_r]).
    eexists _, _. split; [done|]. simpl. split; [by rewrite lookup_insert_eq|].
    rewrite is_dirty_lor, is_dirty_lor, is_fresh_lor, is_fresh_lor.
    split; [apply orb_true_r|]. split; [|intros o' ?; by rewrite lookup_insert_ne].
    fold old. destruct old as [e|]; simpl; [|by destruct ow]. by destruct ow, (is_dirty (flags e)).
Qed.
End Usage.

(** ** Witnesses *)

(** The allocation of a prevector: nothing up to 28 bytes. *)
Definition demo_usage (c : Coin) : Z :=
  let n := size (scriptPubKey (out c)) in if n <=? 28 then 0 else n.

Definition demo_o (k : Z) : COutPoint := MkOutPoint 7 k.

Definition demo_c (k : Z) : Coin := NewCoin (NewTxOut k [OP_1]) 5 false false.

Definition demo_db : Backing := CCoinsViewDB {[demo_o 0 := demo_c 10; demo_o 1 := demo_c 11]} 3.

(** Open a second cache, spend one coin, add one, flush into the first cache and
    into the database. *)
Definition demo_ops : list op :=
  [Read (demo_o 0); Open; Spend (demo_o 0); Add (demo_o 2) (demo_c 12) false; Commit; Close;
   Read (demo_o 2); Commit; Read (demo_o 0)].

Lemma demo_stack_ok : stack_ok demo_usage ([empty_cache], demo_db).
Proof.
  split; [split; [done|]|split; [done|by apply Forall_singleton]].
  intros o c. unfold demo_db. simpl.
  intros [[_ <-]|[_ [_ <-]%lookup_singleton_Some]]%lookup_insert_Some; done.
Qed.

Lemma coin_stack_refines_witness :
  let A := [utxo [empty_cache] demo_db; utxo [] demo_db] in
  ∃ s', run demo_usage demo_ops ([empty_cache], demo_db) =
    Done ([Some (demo_c 10); None; Some (demo_c 10); None; None; None; Some (demo_c 12); None; None], s') ∧
    stack_ok demo_usage s'.
Proof.
  intros A.
  destruct (run_spec demo_ops A) as [[rs A']|] eqn:E; [|by vm_compute in E].
  destruct (coin_stack_refines demo_usage eq_refl demo_ops ([empty_cache], demo_db) A rs A'
    demo_stack_ok ltac:(by repeat split) E) as (s' & Hs & Hok & _).
  exists s'. split; [|exact Hok]. rewrite Hs. f_equal.
  assert (rs = (default ([], []) (run_spec demo_ops A)).1) as -> by (by rewrite E).
  by vm_compute.
Defined.

Lemma AddCoin_branches_witness :
  AddCoin demo_usage (MkCache {[demo_o 0 := MkEntry (demo_c 10) 0]} 0 0) (demo_o 0) (demo_c 5) false =
  Logic_error.
Proof. by apply (AddCoin_branches demo_usage _ (demo_o 0) (demo_c 5) false). Defined.
