(* ===== verification/TxVerify.v ===== *)
(** * Transaction checks

    [src/src/consensus/tx_verify.cpp]: the checks of a transaction that need no
    context ([CheckTransaction]), finality, and the counts of signature
    operations; the recogniser of the zero-coin registrations of ADAM miners,
    which spend nothing; and [Consensus::CheckTxInputs] of [src/src/main.cpp],
    the checks of a transaction against the coins it spends.

    [CValidationState] is the reason of the rejection with its score; the key
    hash and the hash of the registration puzzle are parameters. *)

From stdpp Require Import gmap fin_maps.
From S2P Require Import Prelude Ints Serialize Transaction Script Standard Params Coins.

Local Open Scope Z_scope.

Inductive reject :=
  | bad_txns_vin_empty | bad_txns_vout_empty | bad_txns_oversize | bad_txns_vout_negative
  | bad_txns_vout_toolarge | bad_txns_txouttotal_toolarge | bad_txns_inputs_duplicate | bad_cb_length
  | bad_txns_prevout_null | zerocoin_nonzero_out | zerocoin_pow_invalid | inputs_unavailable
  | premature_spend | inputvalues_outofrange | in_belowout | fee_negative | fee_outofrange
  | amount_exception (e : amount_error).

(** [state.DoS(score, ...)] and [state.Invalid]; [Pass] is [return true]. *)
Inductive check := Pass | DoS (score : Z) (r : reject).

#[export] Instance reject_eq_dec : EqDecision reject.
Proof. solve_decision. Defined.

#[export] Instance check_eq_dec : EqDecision check.
Proof. solve_decision. Defined.

(** ** Finality and signature operations *)

(** [height] and [time] are what the code reads when the arguments are zero. *)
Definition IsFinalTx (height time : Z) (tx : CTransaction) (nBlockHeight nBlockTime : Z) : bool :=
  if nLockTime tx =? 0 then true
  else
    let nBlockHeight := if nBlockHeight =? 0 then height else nBlockHeight in
    let nBlockTime := if nBlockTime =? 0 then time else nBlockTime in
    if nLockTime tx <? (if nLockTime tx <? LOCKTIME_THRESHOLD then nBlockHeight else nBlockTime) then true
    else forallb IsFinal (vin tx).

Definition GetLegacySigOpCount (tx : CTransaction) : Z :=
  let n := fold_left (λ n i, u32 (n + GetSigOpCount false (scriptSig i))) (vin tx) 0 in
  fold_left (λ n o, u32 (n + GetSigOpCount false (scriptPubKey o))) (vout tx) n.

Section Checks.
  Context `{Target} (SerializeHash : list Z → Z) (Hash160 : list Z → list Z).

(** ** Zero-coin registrations *)

Definition zeroCoinSentinel : COutPoint := MkOutPoint 1 0.

Definition IsZeroCoinPoWTransaction (tx : CTransaction) : bool :=
  if IsCoinBase tx || IsCoinStake tx then false
  else
    match vin tx, vout tx with
    | [i], [o] =>
        if negb (bool_decide (prevout i = zeroCoinSentinel)) then false
        else if negb (nValue o =? 0) || negb (bool_decide (GetValueOut tx = inr 0)) then false
        else match MatchPoWLockRegistration (scriptPubKey o) with
             | Some r => IsValid (reg_pubkey r)
                         && bool_decide (Hash160 (reg_pubkey r) = reg_pubkeyHash r)
                         && (size (reg_nonce r) =? 4)
             | None => false
             end
    | _, _ => false
    end.

(** ** Checks without context *)

Definition MAX_STANDARD_TX_SIZE : Z := 150000.

Definition GetSerializeSize_tx (tx : CTransaction) : Z :=
  size (Serialize (codec_CTransaction SerializeHash) tx).

Fixpoint check_outputs (params : Params) (tx : CTransaction) (nValueOut : Z) (outs : list CTxOut) : check :=
  match outs with
  | [] => Pass
  | txout :: outs =>
      if IsEmpty txout && negb (IsCoinBase tx) && negb (IsCoinStake tx) then DoS 100 bad_txns_vout_empty
      else if nValue txout <? 0 then DoS 100 bad_txns_vout_negative
      else if nMaxMoneyOut params <? nValue txout then DoS 100 bad_txns_vout_toolarge
      else
        let nValueOut := i64 (nValueOut + nValue txout) in
        if negb (MoneyRange params nValueOut) then DoS 100 bad_txns_txouttotal_toolarge
        else check_outputs params tx nValueOut outs
  end.

Fixpoint check_duplicates (vInOutPoints : gset COutPoint) (ins : list CTxIn) : check :=
  match ins with
  | [] => Pass
  | txin :: ins =>
      if bool_decide (prevout txin ∈ vInOutPoints) then DoS 100 bad_txns_inputs_duplicate
      else check_duplicates ({[prevout txin]} ∪ vInOutPoints) ins
  end.

Fixpoint check_prevouts (tx : CTransaction) (ins : list CTxIn) : check :=
  match ins with
  | [] => Pass
  | txin :: ins =>
      if (IsNull (prevout txin) || bool_decide (prevout txin = zeroCoinSentinel))
         && negb (IsZeroCoinPoWTransaction tx)
      then DoS 10 bad_txns_prevout_null
      else check_prevouts tx ins
  end.

Definition CheckTransaction (params : Params) (tx : CTransaction) : check :=
  match vin tx, vout tx with
  | [], _ => DoS 10 bad_txns_vin_empty
  | _, [] => DoS 10 bad_txns_vout_empty
  | i0 :: _, _ =>
      if MAX_STANDARD_TX_SIZE <? GetSerializeSize_tx tx then DoS 100 bad_txns_oversize
      else
        match check_outputs params tx 0 (vout tx) with
        | Pass =>
            match check_duplicates ∅ (vin tx) with
            | Pass =>
                if IsCoinBase tx then
                  if (size (scriptSig i0) <? 2) || (150 <? size (scriptSig i0)) then DoS 100 bad_cb_length
                  else Pass
                else check_prevouts tx (vin tx)
            | e => e
            end
        | e => e
        end
  end.

(** ** Checks against the coins *)

(** [ss << nNonce << challenge << pubkey; ss.GetHash()] as a number, and the target. *)
Context (puzzleHash : Z → list Z → list Z → Z) (zeroCoinTarget : Z) (DynamicUsage : Coin → Z).

Definition nonce_le (nonce : list Z) : Z :=
  u32 (nonce.[0] .| (nonce.[1] << 8) .| (nonce.[2] << 16) .| (nonce.[3] << 24)).

Definition zerocoin_check (tx : CTransaction) : check :=
  match vin tx, vout tx with
  | [_], [o] =>
      if negb (bool_decide (GetValueOut tx = inr 0)) || negb (nValue o =? 0) then DoS 100 zerocoin_nonzero_out
      else
        let puzzleValid :=
          match MatchPoWLockRegistration (scriptPubKey o) with
          | Some r =>
              if IsValid (reg_pubkey r) && bool_decide (Hash160 (reg_pubkey r) = reg_pubkeyHash r)
                 && (size (reg_nonce r) =? 4)
              then puzzleHash (nonce_le (reg_nonce r)) (reg_challenge r) (reg_pubkey r) <=? zeroCoinTarget
              else false
          | None => false
          end in
        if negb puzzleValid then DoS 100 zerocoin_pow_invalid else Pass
  | _, _ => DoS 100 zerocoin_nonzero_out
  end.

(** The loop over the inputs: the total, or the rejection.  [None] is the
    assertion that the coin is unspent. *)
Fixpoint sum_inputs (params : Params) (v : list Cache) (b : Backing) (nSpendHeight nValueIn : Z)
    (ins : list CTxIn) : option ((check + Z) * list Cache) :=
  match ins with
  | [] => Some (inr nValueIn, v)
  | i :: ins =>
      let '(coin, v) := AccessCoin DynamicUsage v b (prevout i) in
      if IsSpent coin then None
      else if (fCoinBase coin || fCoinStake coin)
              && (nSpendHeight - coin_nHeight coin <? nCoinbaseMaturity params)
      then Some (inl (DoS 0 premature_spend), v)
      else
        let nValueIn := i64 (nValueIn + nValue (out coin)) in
        if negb (MoneyRange params (nValue (out coin))) || negb (MoneyRange params nValueIn)
        then Some (inl (DoS 100 inputvalues_outofrange), v)
        else sum_inputs params v b nSpendHeight nValueIn ins
  end.

Definition CheckTxInputs (params : Params) (lastCheckpoint : Z) (tx : CTransaction) (v : list Cache)
    (b : Backing) (nSpendHeight : Z) : option (check * list Cache) :=
  if nSpendHeight <=? lastCheckpoint then Some (Pass, v)
  else if IsZeroCoinPoWTransaction tx then Some (zerocoin_check tx, v)
  else
    let '(have, v) := HaveInputs DynamicUsage v b tx in
    if negb have then Some (DoS 0 inputs_unavailable, v)
    else
      match sum_inputs params v b nSpendHeight 0 (vin tx) with
      | None => None
      | Some (inl e, v) => Some (e, v)
      | Some (inr nValueIn, v) =>
          if IsCoinStake tx then Some (Pass, v)
          else match GetValueOut tx with
               | inl e => Some (DoS 0 (amount_exception e), v)
               | inr nValueOut =>
                   if nValueIn <? nValueOut then Some (DoS 100 in_belowout, v)
                   else
                     let nTxFee := i64 (nValueIn - nValueOut) in
                     if nTxFee <? 0 then Some (DoS 100 fee_negative, v)
                     else if negb (MoneyRange params nTxFee) then Some (DoS 100 fee_outofrange, v)
                     else Some (Pass, v)
               end
      end.
End Checks.

(** ** What the checks without context accept *)

Section Spec.
  Context `{Target} (SerializeHash : list Z → Z) (Hash160 : list Z → list Z).

Lemma check_duplicates_spec seen ins :
  check_duplicates seen ins = Pass ↔
  NoDup (prevout <$> ins) ∧ Forall (λ i, prevout i ∉ seen) ins.
Proof using Type.
  revert seen. induction ins as [|i ins IH]; intros seen; simpl; [split; [by split; [constructor|]|done]|].
  rewrite NoDup_cons, Forall_cons. case_bool_decide as Hin.
  { split; [done|]. by intros (_ & Hn & _). }
  rewrite IH, !Forall_forall. split.
  - intros (Hnd & Hf). split_and!; [|done|done|].
    + intros (j & E & Hj)%list_elem_of_fmap. apply (Hf j Hj). rewrite <- E. set_solver.
    + intros j Hj. pose proof (Hf j Hj). set_solver.
  - intros ((Hn & Hnd) & _ & Hf). split; [done|]. intros j Hj [E%elem_of_singleton|?]%elem_of_union.
    + apply Hn. apply list_elem_of_fmap. by exists j.
    + by apply (Hf j).
Qed.

Lemma check_prevouts_spec tx ins :
  check_prevouts Hash160 tx ins = Pass ↔
  IsZeroCoinPoWTransaction Hash160 tx = true ∨
  Forall (λ i, IsNull (prevout i) = false ∧ prevout i ≠ zeroCoinSentinel) ins.
Proof using Type.
  destruct (IsZeroCoinPoWTransaction Hash160 tx) eqn:Hz; induction ins as [|i ins IH]; simpl; rewrite ?Hz.
  - split; [by left|done].
  - rewrite andb_false_r. rewrite IH. split; by left.
  - split; [by right|done].
  - rewrite Forall_cons, andb_true_r. destruct (IsNull (prevout i)); simpl.
    { split; [done|]. by intros [|[[? _] _]]. }
    case_bool_decide as Hp; [split; [done|]; by intros [|[[_ ?] _]]|].
    rewrite IH. split; (intros [?|?]; [done|right]); [auto|by destruct H0].
Qed.

Context (params : Params) (Hmax : 0 ≤ nMaxMoneyOut params < 2 ^ 62).

Lemma MoneyRange_spec v : MoneyRange params v = true ↔ 0 ≤ v ≤ nMaxMoneyOut params.
Proof using Type. unfold MoneyRange. rewrite andb_true_iff, !Z.leb_le. done. Qed.

Definition out_in_range (o : CTxOut) : Prop := 0 ≤ nValue o ≤ nMaxMoneyOut params.

Lemma sum_out_ge outs : Forall out_in_range outs → 0 ≤ sum_out outs.
Proof using Type. unfold out_in_range. induction 1; simpl; lia. Qed.

Lemma check_outputs_spec tx acc outs :
  0 ≤ acc ≤ nMaxMoneyOut params →
  check_outputs params tx acc outs = Pass ↔
  Forall out_in_range outs ∧ acc + sum_out outs ≤ nMaxMoneyOut params ∧
  (IsCoinBase tx = false → IsCoinStake tx = false → Forall (λ o, IsEmpty o = false) outs).
Proof using Hmax.
  revert acc. induction outs as [|o outs IH]; intros acc Hacc; simpl.
  { split; [intros _; split_and!; [done|lia|done]|done]. }
  rewrite !Forall_cons. unfold out_in_range at 1.
  destruct (IsEmpty o && negb (IsCoinBase tx) && negb (IsCoinStake tx)) eqn:He.
  { apply andb_prop in He as [[He Hb%negb_true_iff]%andb_prop Hs%negb_true_iff].
    split; [done|]. intros (_ & _ & Hne). destruct (Hne Hb Hs) as [Hno _]. congruence. }
  assert (IsCoinBase tx = false → IsCoinStake tx = false → IsEmpty o = false) as He'.
  { intros Hb Hs. rewrite Hb, Hs in He. simpl in He. by rewrite !andb_true_r in He. }
  destruct (Z.ltb_spec (nValue o) 0) as [|Hge]; [split; [done|intros ([? _] & _); lia]|].
  destruct (Z.ltb_spec (nMaxMoneyOut params) (nValue o)) as [|Hle]; [split; [done|intros ([? _] & _); lia]|].
  rewrite i64_id by lia. destruct (MoneyRange params (acc + nValue o)) eqn:Hr; simpl.
  - apply MoneyRange_spec in Hr. rewrite IH by lia. rewrite Z.add_assoc. split.
    + intros (Hf & Hsum & Hne). split_and!; auto; try lia.
    + intros ([_ Hf] & Hsum & Hne). split_and!; auto. intros Hb Hs. by destruct (Hne Hb Hs).
  - split; [done|]. intros ([_ Hf] & Hsum & _). pose proof (sum_out_ge outs Hf).
    assert (MoneyRange params (acc + nValue o) = true); [|congruence]. apply MoneyRange_spec. lia.
Qed.

(** A transaction as the rules without context want it. *)
Definition tx_wellformed (tx : CTransaction) : Prop :=
  vin tx ≠ [] ∧ vout tx ≠ [] ∧ GetSerializeSize_tx SerializeHash tx ≤ MAX_STANDARD_TX_SIZE ∧
  Forall out_in_range (vout tx) ∧ sum_out (vout tx) ≤ nMaxMoneyOut params ∧
  (IsCoinBase tx = false → IsCoinStake tx = false → Forall (λ o, IsEmpty o = false) (vout tx)) ∧
  NoDup (prevout <$> vin tx) ∧
  (if IsCoinBase tx
   then Forall (λ i, 2 ≤ size (scriptSig i) ≤ 150) (vin tx)
   else IsZeroCoinPoWTransaction Hash160 tx = true ∨
        Forall (λ i, IsNull (prevout i) = false ∧ prevout i ≠ zeroCoinSentinel) (vin tx)).

Lemma CheckTransaction_spec tx :
  CheckTransaction SerializeHash Hash160 params tx = Pass ↔ tx_wellformed tx.
Proof using Hmax.
  unfold CheckTransaction, tx_wellformed.
  destruct (vin tx) as [|i0 ins] eqn:Hin; [split; [done|by intros []]|].
  destruct (vout tx) as [|o0 outs] eqn:Hout; [split; [done|by intros (_ & ? & _)]|].
  rewrite <- Hin, <- Hout.
  assert (vin tx ≠ []) by (by rewrite Hin). assert (vout tx ≠ []) by (by rewrite Hout).
  destruct (Z.ltb_spec MAX_STANDARD_TX_SIZE (GetSerializeSize_tx SerializeHash tx)) as [Hs|Hs].
  { split; [done|]. intros (_ & _ & ? & _). lia. }
  pose proof (check_outputs_spec tx 0 (vout tx) ltac:(lia)) as Ho. rewrite Z.add_0_l in Ho.
  pose proof (check_duplicates_spec ∅ (vin tx)) as Hd.
  destruct (check_outputs params tx 0 (vout tx)) eqn:Eo; [|split; [done|]; intros (_ & _ & _ & ? & ? & ? & _); by apply Ho].
  destruct (check_duplicates ∅ (vin tx)) eqn:Ed.
  2:{ split; [done|]. intros (_ & _ & _ & _ & _ & _ & Hn & _). apply Hd. split; [done|].
      apply Forall_forall. intros. apply not_elem_of_empty. }
  destruct (proj1 Ho eq_refl) as (? & ? & ?). destruct (proj1 Hd eq_refl) as [? _].
  destruct (IsCoinBase tx) eqn:Hcb.
  - assert (vin tx = [i0]) as Hone.
    { unfold IsCoinBase in Hcb. rewrite Hin in Hcb |- *. by destruct ins. }
    assert (Forall (λ i, 2 ≤ size (scriptSig i) ≤ 150) (vin tx) ↔ 2 ≤ size (scriptSig i0) ≤ 150) as ->
      by (by rewrite Hone, Forall_singleton).
    destruct ((size (scriptSig i0) <? 2) || (150 <? size (scriptSig i0))) eqn:Hsz.
    + split; [done|]. intros (_ & _ & _ & _ & _ & _ & _ & ?).
      apply orb_prop in Hsz as [?%Z.ltb_lt|?%Z.ltb_lt]; lia.
    + apply orb_false_iff in Hsz as [?%Z.ltb_ge ?%Z.ltb_ge]. split; [intros _; by split_and!|done].
  - rewrite check_prevouts_spec. split; [intros; by split_and!|]. by intros (_ & _ & _ & _ & _ & _ & _ & ?).
Qed.

(** C31: [CheckTransaction] accepts exactly the well-formed transactions: inputs and
    outputs present, size within the limit, every output and their sum within the
    money range, no output empty unless the transaction is a coinbase or a
    coinstake, no outpoint spent twice, a coinbase script of 2 to 150 bytes, and
    otherwise no null or sentinel outpoint unless it is a zero-coin registration. *)
Theorem CheckTransaction_iff tx :
  CheckTransaction SerializeHash Hash160 params tx = Pass ↔ tx_wellformed tx.
Proof using Hmax. exact (CheckTransaction_spec tx). Qed.

(** ** Value is conserved *)

Context (puzzleHash : Z → list Z → list Z → Z) (zeroCoinTarget : Z) (DynamicUsage : Coin → Z).

(** The value of the coins a list of inputs spends, in a map of unspent coins. *)
Definition sum_in (f : COutPoint → option Coin) (ins : list CTxIn) : Z :=
  foldr (λ i s, nValue (out (default coinEmpty (f (prevout i)))) + s) 0 ins.

Definition mature (nSpendHeight : Z) (c : Coin) : Prop :=
  fCoinBase c = true ∨ fCoinStake c = true → nCoinbaseMaturity params ≤ nSpendHeight - coin_nHeight c.

Lemma HaveInputs_loop_spec v b ins :
  v ≠ [] →
  let r := HaveInputs_loop DynamicUsage v b ins in
  (r.1 = true ↔ Forall (λ i, is_Some (utxo v b (prevout i))) ins) ∧ same_view DynamicUsage v r.2 b.
Proof using Type.
  revert v. induction ins as [|i ins IH]; intros v Hv; cbn [HaveInputs_loop].
  { split; [|apply same_view_refl]. split; [by constructor|done]. }
  destruct v as [|c v]; [done|]. pose proof (HaveCoin_spec DynamicUsage c v b (prevout i)) as [Hr Hs].
  destruct (HaveCoin DynamicUsage (c :: v) b (prevout i)) as [have v1]. simpl in Hr, Hs.
  rewrite Forall_cons, <- (bool_decide_eq_true (is_Some (utxo (c :: v) b (prevout i)))), <- Hr.
  destruct have; simpl; [|by split; [split; [done|by intros [? _]]|]].
  destruct (IH v1) as [Hi Hs2]; [by apply (same_view_nonempty _ _ _ _ Hs)|].
  split; [|by apply (same_view_trans _ _ v1)]. rewrite Hi. split; [intros Hf|intros [_ Hf]].
  - split; [done|]. eapply Forall_impl; [exact Hf|]. intros j. cbv beta. by rewrite (same_view_utxo _ _ _ _ _ Hs).
  - eapply Forall_impl; [exact Hf|]. intros j. cbv beta. by rewrite (same_view_utxo _ _ _ _ _ Hs).
Qed.

Lemma sum_inputs_spec v b h acc ins (f : COutPoint → option Coin) :
  v ≠ [] → (∀ o, utxo v b o = f o) → Forall (λ i, is_Some (f (prevout i))) ins →
  0 ≤ acc ≤ nMaxMoneyOut params →
  ∃ r v', sum_inputs DynamicUsage params v b h acc ins = Some (r, v') ∧ same_view DynamicUsage v v' b ∧
    match r with
    | inl e => e ≠ Pass
    | inr n => n = acc + sum_in f ins ∧ 0 ≤ n ≤ nMaxMoneyOut params ∧ 0 ≤ sum_in f ins ∧
               Forall (λ i, ∀ c, f (prevout i) = Some c → mature h c) ins
    end.
Proof using Hmax.
  revert v acc. induction ins as [|i ins IH]; intros v acc Hv Hf Hall Hacc; cbn [sum_inputs sum_in foldr].
  { eexists _, v. split; [done|]. split; [apply same_view_refl|]. split_and!; [lia..|done]. }
  apply Forall_cons in Hall as [[x Hx] Hall]. destruct v as [|c v]; [done|].
  pose proof (AccessCoin_spec DynamicUsage c v b (prevout i)) as [Hr Hs].
  destruct (AccessCoin DynamicUsage (c :: v) b (prevout i)) as [coin v1]. simpl in Hr, Hs.
  assert (coin = x ∧ IsSpent x = false) as [-> Hsp].
  { pose proof (Hf (prevout i)) as Hu. rewrite Hx in Hu. unfold utxo in Hu. simpl in Hu. rewrite Hr.
    destruct (match cacheCoins c !! prevout i with Some it => _ | None => _ end) as [y|]; [|done].
    simpl in *. by destruct (IsSpent y) eqn:?; [|injection Hu as ->]. }
  clear Hr. rewrite Hsp, Hx. simpl default.
  destruct ((fCoinBase x || fCoinStake x) && _) eqn:Hmat.
  { eexists _, v1. split; [done|]. by split. }
  destruct (MoneyRange params (nValue (out x))) eqn:Hr1; cbn [negb orb].
  2:{ eexists _, v1. split; [done|]. by split. }
  apply MoneyRange_spec in Hr1. rewrite i64_id by lia.
  destruct (MoneyRange params (acc + nValue (out x))) eqn:Hr2; cbn [negb].
  2:{ eexists _, v1. split; [done|]. by split. }
  apply MoneyRange_spec in Hr2.
  destruct (IH v1 (acc + nValue (out x))) as (r & v2 & E & Hs2 & Hres); [by apply (same_view_nonempty _ _ _ _ Hs)| |done|done|].
  { intros o. rewrite <- Hf. by apply (same_view_utxo DynamicUsage). }
  exists r, v2. split; [done|]. split; [by apply (same_view_trans _ _ v1)|].
  destruct r as [e|k]; [done|]. destruct Hres as (-> & Hk & H0 & Hm). fold (sum_in f ins).
  split_and!; [lia..|]. apply Forall_cons. split; [|done]. intros y Hy Hcb. rewrite Hx in Hy. injection Hy as <-.
  apply andb_false_iff in Hmat as [Hno%orb_false_iff|Hge%Z.ltb_ge]; [|lia].
  destruct Hno as [H1 H2]. destruct Hcb; congruence.
Qed.

Lemma CheckTxInputs_spec cp tx v b h :
  v ≠ [] → cp < h → IsCoinBase tx = false → IsZeroCoinPoWTransaction Hash160 tx = false →
  Forall (λ o, signed 64 (nValue o)) (vout tx) →
  ∃ r v', CheckTxInputs Hash160 puzzleHash zeroCoinTarget DynamicUsage params cp tx v b h = Some (r, v') ∧
    same_view DynamicUsage v v' b ∧
    (r = Pass →
       Forall (λ i, ∃ c, utxo v b (prevout i) = Some c ∧ mature h c) (vin tx) ∧
       0 ≤ sum_in (utxo v b) (vin tx) ≤ nMaxMoneyOut params ∧
       (IsCoinStake tx = false → sum_out (vout tx) ≤ sum_in (utxo v b) (vin tx))).
Proof using Hmax.
  intros Hv Hcp Hcb Hz Hout. unfold CheckTxInputs. rewrite (proj2 (Z.leb_gt _ _)), Hz by done.
  unfold HaveInputs. rewrite Hcb. pose proof (HaveInputs_loop_spec v b (vin tx) Hv) as [Hh Hs].
  destruct (HaveInputs_loop DynamicUsage v b (vin tx)) as [have v1]. simpl in Hh, Hs.
  assert (∀ o, utxo v1 b o = utxo v b o) as Hu1 by (intros; by apply (same_view_utxo DynamicUsage)).
  destruct have; cbn [negb]; [|by eexists _, v1].
  pose proof (proj1 Hh eq_refl) as Hall.
  destruct (sum_inputs_spec v1 b h 0 (vin tx) (utxo v b)) as (r & v2 & -> & Hs2 & Hr);
    [by apply (same_view_nonempty _ _ _ _ Hs)|done|done|lia|].
  pose proof (same_view_trans DynamicUsage _ _ _ _ Hs Hs2) as Hs3.
  destruct r as [e|n]; [eexists _, v2; split_and!; done|]. destruct Hr as (-> & Hn & H0 & Hm).
  rewrite Z.add_0_l in *.
  assert (Forall (λ i, ∃ c, utxo v b (prevout i) = Some c ∧ mature h c) (vin tx)) as Hins.
  { apply Forall_forall. intros i Hi. rewrite Forall_forall in Hall, Hm.
    destruct (Hall i Hi) as [c Hc]. exists c. split; [done|]. by apply (Hm i). }
  destruct (IsCoinStake tx) eqn:Hst; [eexists _, v2; by split_and!|].
  destruct (GetValueOut tx) as [e|w] eqn:Hw; [by eexists _, v2|].
  apply (GetValueOut_loop_spec 0) in Hw as (_ & -> & _); [|lia|done].
  rewrite Z.add_0_l.
  destruct (Z.ltb_spec (sum_in (utxo v b) (vin tx)) (sum_out (vout tx))) as [|Hle]; [by eexists _, v2|].
  destruct (_ <? 0); [by eexists _, v2|]. destruct (negb _); [by eexists _, v2|].
  eexists _, v2. split_and!; [done|done|]. intros _. split; [done|]. split; [done|]. by intros _.
Qed.

(** A zero-coin registration pays nothing. *)
Lemma zerocoin_pays_nothing tx : IsZeroCoinPoWTransaction Hash160 tx = true → sum_out (vout tx) = 0.
Proof using Type.
  unfold IsZeroCoinPoWTransaction. destruct (IsCoinBase tx || IsCoinStake tx); [done|].
  destruct (vin tx) as [|i [|? ?]], (vout tx) as [|o [|? ?]]; try done. destruct (negb _); [done|].
  destruct (Z.eqb_spec (nValue o) 0) as [E|]; [|done]. intros _. simpl. lia.
Qed.

(** C8: [CheckTxInputs] lets money be created by coinstakes and below the last checkpoint
    only.  For any transaction but a coinbase, which it is not called for, it meets no
    assertion and changes no coin of the view.  Up to the last checkpoint it accepts
    everything.  Past it, an accepted zero-coin registration pays nothing; of any other
    accepted transaction every input is an unspent coin, generated coins are mature, the
    value of the inputs is in the money range, and unless it is a coinstake its outputs sum
    to no more than its inputs. *)
Theorem CheckTxInputs_conserves cp tx v b h :
  v ≠ [] → IsCoinBase tx = false → Forall (λ o, signed 64 (nValue o)) (vout tx) →
  ∃ r v', CheckTxInputs Hash160 puzzleHash zeroCoinTarget DynamicUsage params cp tx v b h = Some (r, v') ∧
    (∀ o, utxo v' b o = utxo v b o) ∧ (h ≤ cp → r = Pass) ∧
    (cp < h → r = Pass →
       if IsZeroCoinPoWTransaction Hash160 tx then sum_out (vout tx) = 0
       else
         Forall (λ i, ∃ c, utxo v b (prevout i) = Some c ∧ mature h c) (vin tx) ∧
         0 ≤ sum_in (utxo v b) (vin tx) ≤ nMaxMoneyOut params ∧
         (IsCoinStake tx = false → sum_out (vout tx) ≤ sum_in (utxo v b) (vin tx))).
Proof using Hmax.
  intros Hv Hcb Hout. destruct (Z.le_gt_cases h cp) as [Hle|Hcp].
  { exists Pass, v. unfold CheckTxInputs. rewrite (proj2 (Z.leb_le _ _) Hle). split_and!; [done..|lia]. }
  destruct (IsZeroCoinPoWTransaction Hash160 tx) eqn:Hz.
  { eexists _, v. unfold CheckTxInputs. rewrite (proj2 (Z.leb_gt _ _)), Hz by done. split_and!; [done..|lia|].
    intros _ _. by apply zerocoin_pays_nothing. }
  destruct (CheckTxInputs_spec cp tx v b h Hv Hcp Hcb Hz Hout) as (r & v' & E & Hs & Hr).
  exists r, v'. split_and!; [done| |lia|by intros _]. intros o. by apply (same_view_utxo DynamicUsage).
Qed.
End Spec.

(** ** Witnesses *)

Definition demo_params : Params :=
  MkParams [] [] [] 0 0 0 0 0 0 (210000000 * 100000000) 0 100 (λ _, 0).

Lemma CheckTransaction_iff_witness :
  @tx_wellformed lp64 demo_hash (λ k, k) demo_params demo_tx.
Proof.
  apply (@CheckTransaction_iff lp64 demo_hash (λ k, k) demo_params); [simpl; lia|].
  by vm_compute.
Defined.

Definition demo_spent : COutPoint := MkOutPoint (2 ^ 255 + 5) 1.

Definition demo_backing : Backing :=
  CCoinsViewDB {[demo_spent := NewCoin (NewTxOut 6000 [OP_1]) 50 true false]} 3.

Lemma CheckTxInputs_conserves_witness :
  ∃ v', CheckTxInputs (λ k, k) (λ _ _ _, 0) 0 demo_usage demo_params 100 demo_tx [empty_cache]
          demo_backing 151 = Some (Pass, v') ∧
    sum_out (vout demo_tx) ≤ sum_in (utxo [empty_cache] demo_backing) (vin demo_tx).
Proof.
  destruct (CheckTxInputs_conserves (λ k, k) demo_params ltac:(simpl; lia) (λ _ _ _, 0) 0 demo_usage 100
    demo_tx [empty_cache] demo_backing 151) as (r & v' & E & _ & _ & Hr); [done|by vm_compute| |].
  - constructor; [|constructor]. unfold signed. simpl. lia.
  - assert (r = Pass) as ->.
    { assert (fst <$> CheckTxInputs (λ k, k) (λ _ _ _, 0) 0 demo_usage demo_params 100 demo_tx [empty_cache]
        demo_backing 151 = Some Pass) as E2 by (by vm_compute). rewrite E in E2. by injection E2. }
    exists v'. split; [exact E|]. assert (IsZeroCoinPoWTransaction (λ k, k) demo_tx = false) as Hz by (by vm_compute).
    specialize (Hr ltac:(lia) eq_refl). rewrite Hz in Hr. by apply Hr.
Defined.
