(* ===== verification/BlockUndo.v ===== *)
(** * Connecting and disconnecting transactions

    How [src/src/main.cpp] moves the coins of a block: [UpdateCoins] spends the
    inputs of a transaction, keeping them in an undo record, and adds its
    outputs; [ApplyTxInUndo] puts one spent coin back; the transaction loop of
    [DisconnectBlock] removes the outputs of a block and restores its inputs, last
    transaction first.  The view is the stack of caches of [Coins].

    Of [DisconnectBlock], the state other than coins (money supply, burn cache,
    masternode registry, files) is not here: what is here is its effect on the
    view and the result code. *)

From stdpp Require Import gmap fin_maps.
From S2P Require Import Prelude Ints Serialize Transaction Script Standard Coins TxVerify.

Local Open Scope Z_scope.

Inductive DisconnectResult := DISCONNECT_OK | DISCONNECT_UNCLEAN | DISCONNECT_FAILED.

#[export] Instance DisconnectResult_eq_dec : EqDecision DisconnectResult.
Proof. solve_decision. Defined.

Section Blocks.
  Context (DynamicUsage : Coin → Z) (Hash160 : list Z → list Z).

(** The loop of [UpdateCoins] over the inputs: [emplace_back], then [SpendCoin]
    into the new element. *)
Fixpoint spend_inputs (fZeroCoinPoW : bool) (v : list Cache) (b : Backing) (ins : list CTxIn)
    (vprevout : list Coin) : list Coin * list Cache :=
  match ins with
  | [] => (vprevout, v)
  | txin :: ins =>
      if negb fZeroCoinPoW && negb (IsNull (prevout txin)) then
        let '(moved, v) := SpendCoin DynamicUsage v b (prevout txin) in
        spend_inputs fZeroCoinPoW v b ins (vprevout ++ [default coinEmpty moved])
      else spend_inputs fZeroCoinPoW v b ins (vprevout ++ [coinEmpty])
  end.

(** [AddCoins] into the top cache. *)
Definition add_outputs (v : list Cache) (tx : CTransaction) (nHeight : Z) : outcome (list Cache) :=
  match v with
  | [] => Assertion_failed
  | c :: v =>
      match AddCoins DynamicUsage c tx nHeight with
      | Done c => Done (c :: v)
      | Logic_error => Logic_error
      | Assertion_failed => Assertion_failed
      end
  end.

Definition UpdateCoins (tx : CTransaction) (v : list Cache) (b : Backing) (nHeight : Z) :
    outcome (list Coin * list Cache) :=
  let '(txundo, v) :=
    if IsCoinBase tx then ([], v)
    else spend_inputs (IsZeroCoinPoWTransaction Hash160 tx) v b (vin tx) [] in
  match add_outputs v tx nHeight with
  | Done v => Done (txundo, v)
  | Logic_error => Logic_error
  | Assertion_failed => Assertion_failed
  end.

(** The coin put back, with its metadata; [None] is [DISCONNECT_FAILED]. *)
Definition undo_metadata (undo : Coin) (v : list Cache) (b : Backing) (o : COutPoint) :
    option Coin * list Cache :=
  if coin_nHeight undo =? 0 then
    let '(alternate, v) := AccessByTxid DynamicUsage v b (hash o) in
    if negb (IsSpent alternate)
    then (Some (MkCoin (fCoinBase alternate) (fCoinStake alternate) (out undo) (coin_nHeight alternate)), v)
    else (None, v)
  else (Some undo, v).

Definition ApplyTxInUndo (undo : Coin) (v : list Cache) (b : Backing) (o : COutPoint) :
    outcome (DisconnectResult * list Cache) :=
  let '(have, v) := HaveCoin DynamicUsage v b o in
  let fClean := negb have in
  match undo_metadata undo v b o with
  | (None, v) => Done (DISCONNECT_FAILED, v)
  | (Some undo, c :: v) =>
      match AddCoin DynamicUsage c o undo false with
      | Done c => Done (if fClean then DISCONNECT_OK else DISCONNECT_UNCLEAN, c :: v)
      | Logic_error => Logic_error
      | Assertion_failed => Assertion_failed
      end
  | (Some _, []) => Assertion_failed
  end.

(** The outputs of a transaction are spent, and compared with what was there. *)
Fixpoint remove_outputs (txid : Z) (i : Z) (outs : list CTxOut) (v : list Cache) (b : Backing)
    (fClean : bool) : bool * list Cache :=
  match outs with
  | [] => (fClean, v)
  | o :: outs =>
      if negb (IsUnspendable (scriptPubKey o)) then
        let '(moved, v) := SpendCoin DynamicUsage v b (MkOutPoint txid (u32 i)) in
        let coin := default coinEmpty moved in
        remove_outputs txid (i + 1) outs v b (if negb (bool_decide (o = out coin)) then false else fClean)
      else remove_outputs txid (i + 1) outs v b fClean
  end.

(** The inputs, last first, each with its coin of the undo record. *)
Fixpoint restore_inputs (pairs : list (CTxIn * Coin)) (v : list Cache) (b : Backing) (fClean : bool) :
    outcome (option bool * list Cache) :=
  match pairs with
  | [] => Done (Some fClean, v)
  | (txin, undo) :: pairs =>
      if IsNull (prevout txin) then restore_inputs pairs v b fClean
      else
        match ApplyTxInUndo undo v b (prevout txin) with
        | Done (DISCONNECT_FAILED, v) => Done (None, v)
        | Done (res, v) => restore_inputs pairs v b (fClean && negb (bool_decide (res = DISCONNECT_UNCLEAN)))
        | Logic_error => Logic_error
        | Assertion_failed => Assertion_failed
        end
  end.

(** One turn of the transaction loop; [None] is the return of [DISCONNECT_FAILED]. *)
Definition disconnect_tx (tx : CTransaction) (txundo : list Coin) (v : list Cache) (b : Backing)
    (fClean : bool) : outcome (option bool * list Cache) :=
  let '(fClean, v) := remove_outputs (txhash tx) 0 (vout tx) v b fClean in
  if IsCoinBase tx || IsZeroCoinPoWTransaction Hash160 tx then Done (Some fClean, v)
  else if negb (length txundo =? length (vin tx))%nat then Done (None, v)
  else restore_inputs (rev (zip (vin tx) txundo)) v b fClean.

(** The loop from the last transaction to the first; the first one, the coinbase,
    has no undo record. *)
Fixpoint disconnect_loop (txs : list (CTransaction * list Coin)) (v : list Cache) (b : Backing)
    (fClean : bool) : outcome (option bool * list Cache) :=
  match txs with
  | [] => Done (Some fClean, v)
  | (tx, txundo) :: txs =>
      match disconnect_tx tx txundo v b fClean with
      | Done (Some fClean, v) => disconnect_loop txs v b fClean
      | r => r
      end
  end.

Definition DisconnectBlock_coins (vtx : list CTransaction) (vtxundo : list (list Coin)) (v : list Cache)
    (b : Backing) : outcome (DisconnectResult * list Cache) :=
  if negb (length vtxundo + 1 =? length vtx)%nat then Done (DISCONNECT_FAILED, v)
  else
    match disconnect_loop (rev (zip vtx ([] :: vtxundo))) v b true with
    | Done (None, v) => Done (DISCONNECT_FAILED, v)
    | Done (Some fClean, v) => Done (if fClean then DISCONNECT_OK else DISCONNECT_UNCLEAN, v)
    | Logic_error => Logic_error
    | Assertion_failed => Assertion_failed
    end.

(** The coins of a block, connected transaction by transaction, with the undo
    records of all but the first. *)
Fixpoint connect_loop (vtx : list CTransaction) (v : list Cache) (b : Backing) (nHeight : Z) :
    outcome (list (list Coin) * list Cache) :=
  match vtx with
  | [] => Done ([], v)
  | tx :: vtx =>
      match UpdateCoins tx v b nHeight with
      | Done (txundo, v) =>
          match connect_loop vtx v b nHeight with
          | Done (undos, v) => Done (txundo :: undos, v)
          | Logic_error => Logic_error
          | Assertion_failed => Assertion_failed
          end
      | Logic_error => Logic_error
      | Assertion_failed => Assertion_failed
      end
  end.
End Blocks.

(** ** What the loops do to the set of unspent coins *)

(** The view [v] over [b] is sound and its unspent coins are [f]. *)
Definition means (v : list Cache) (b : Backing) (f : COutPoint → option Coin) : Prop :=
  v ≠ [] ∧ view_wf v b ∧ ∀ o, utxo v b o = f o.

Definition dels (os : list COutPoint) (f : COutPoint → option Coin) : COutPoint → option Coin :=
  foldl (λ g o, upd g o None) f os.

Definition adds (l : list (COutPoint * Coin)) (f : COutPoint → option Coin) : COutPoint → option Coin :=
  foldl (λ g p, upd g p.1 (Some p.2)) f l.

(** A coin the undo record can bring back. *)
Definition restorable (c : Coin) : Prop :=
  IsSpent c = false ∧ IsUnspendable (scriptPubKey (out c)) = false ∧ coin_nHeight c ≠ 0.

(** The outpoints a list of inputs spends. *)
Definition spends (ins : list CTxIn) : list COutPoint :=
  filter (λ o, IsNull o = false) (prevout <$> ins).

(** The coins a list of outputs creates, from index [i]. *)
Fixpoint creates (txid i : Z) (outs : list CTxOut) (mk : CTxOut → Coin) : list (COutPoint * Coin) :=
  match outs with
  | [] => []
  | o :: outs =>
      (if IsUnspendable (scriptPubKey o) then [] else [(MkOutPoint txid (u32 i), mk o)])
      ++ creates txid (i + 1) outs mk
  end.

Section Abstract.
  Context (Hash160 : list Z → list Z).

Definition tx_spends (tx : CTransaction) : list COutPoint :=
  if IsCoinBase tx || IsZeroCoinPoWTransaction Hash160 tx then [] else spends (vin tx).

Definition tx_creates (nHeight : Z) (tx : CTransaction) : list (COutPoint * Coin) :=
  creates (txhash tx) 0 (vout tx) (λ o, NewCoin o nHeight (IsCoinBase tx) (IsCoinStake tx)).

(** The transaction fits the set: its inputs are distinct unspent coins, its
    outputs are new and of a value other than the null one. *)
Definition tx_fits (nHeight : Z) (f : COutPoint → option Coin) (tx : CTransaction) : Prop :=
  NoDup (tx_spends tx) ∧ Forall (λ o, ∃ c, f o = Some c ∧ restorable c) (tx_spends tx) ∧
  Forall (λ p, f p.1 = None) (tx_creates nHeight tx) ∧
  Forall (λ o, nValue o ≠ -1) (vout tx) ∧ Z.of_nat (length (vout tx)) ≤ 2 ^ 32.

Definition apply_tx (nHeight : Z) (f : COutPoint → option Coin) (tx : CTransaction) :
    COutPoint → option Coin :=
  adds (tx_creates nHeight tx) (dels (tx_spends tx) f).

Fixpoint block_fits (nHeight : Z) (f : COutPoint → option Coin) (txs : list CTransaction) : Prop :=
  match txs with
  | [] => True
  | tx :: txs => tx_fits nHeight f tx ∧ block_fits nHeight (apply_tx nHeight f tx) txs
  end.
End Abstract.

(** ** Updates of the set *)

Lemma means_ext v b f g : (∀ o, f o = g o) → means v b f → means v b g.
Proof. intros E (? & ? & H). split; [done|]. split; [done|]. intros o. by rewrite H. Qed.

Lemma upd_same f o r : upd f o r o = r.
Proof. unfold upd. by rewrite decide_True. Qed.

Lemma upd_other f o r o' : o' ≠ o → upd f o r o' = f o'.
Proof. intros. unfold upd. by rewrite decide_False. Qed.

Lemma dels_in os f o : o ∈ os → dels os f o = None.
Proof.
  revert f. induction os as [|x os IH]; intros f H; [by apply not_elem_of_nil in H|].
  change (dels (x :: os) f) with (dels os (upd f x None)).
  destruct (decide (o ∈ os)) as [Hin|Hn]; [by apply IH|].
  apply elem_of_cons in H as [->|H]; [|done]. clear IH.
  assert (∀ g, g x = None → dels os g x = None) as K; [|apply K, upd_same].
  induction os as [|y os IH]; intros g Hg; [done|]. apply not_elem_of_cons in Hn as [? Hn].
  apply (IH Hn). by rewrite upd_other.
Qed.

Lemma dels_notin os f o : o ∉ os → dels os f o = f o.
Proof.
  revert f. induction os as [|x os IH]; intros f H; [done|].
  apply not_elem_of_cons in H as [? H]. change (dels (x :: os) f) with (dels os (upd f x None)).
  rewrite IH by done. by apply upd_other.
Qed.

Lemma dels_perm os os' f o : os ≡ₚ os' → dels os f o = dels os' f o.
Proof.
  intros P. destruct (decide (o ∈ os)) as [H|H].
  - rewrite !dels_in; [done| |done]. by rewrite <- P.
  - rewrite !dels_notin; [done| |done]. by rewrite <- P.
Qed.

Lemma adds_notin l f o : o ∉ l.*1 → adds l f o = f o.
Proof.
  revert f. induction l as [|p l IH]; intros f H; [done|].
  apply not_elem_of_cons in H as [? H]. change (adds (p :: l) f) with (adds l (upd f p.1 (Some p.2))).
  rewrite IH by done. by apply upd_other.
Qed.

Lemma adds_cons_head p l f : p.1 ∉ l.*1 → adds (p :: l) f p.1 = Some p.2.
Proof.
  intros H. change (adds (p :: l) f) with (adds l (upd f p.1 (Some p.2))).
  rewrite adds_notin by done. apply upd_same.
Qed.

Lemma adds_at l f g o : f o = g o → adds l f o = adds l g o.
Proof.
  revert f g. induction l as [|p l IH]; intros f g H; [done|].
  apply IH. unfold upd. by destruct (decide (o = p.1)).
Qed.

Lemma dels_at os f g o : f o = g o → dels os f o = dels os g o.
Proof.
  revert f g. induction os as [|x os IH]; intros f g H; [done|].
  apply IH. unfold upd. by destruct (decide (o = x)).
Qed.

(** Taking out again the first coin added. *)
Lemma adds_remove p l f o :
  p.1 ∉ l.*1 → f p.1 = None → upd (adds (p :: l) f) p.1 None o = adds l f o.
Proof.
  intros Hn Hf. destruct (decide (o = p.1)) as [->|Hne].
  - by rewrite upd_same, adds_notin.
  - rewrite upd_other by done. apply (adds_at l). by apply upd_other.
Qed.

(** Putting back the first coin taken out. *)
Lemma dels_restore x os f c o :
  x ∉ os → f x = Some c → upd (dels (x :: os) f) x (Some c) o = dels os f o.
Proof.
  intros Hn Hf. destruct (decide (o = x)) as [->|Hne].
  - by rewrite upd_same, dels_notin.
  - rewrite upd_other by done. apply (dels_at os). by apply upd_other.
Qed.

Lemma spends_cons i ins :
  spends (i :: ins) = if IsNull (prevout i) then spends ins else prevout i :: spends ins.
Proof.
  unfold spends. rewrite fmap_cons, filter_cons. by destruct (IsNull (prevout i)).
Qed.

Lemma elem_of_spends i ins : i ∈ ins → IsNull (prevout i) = false → prevout i ∈ spends ins.
Proof. intros Hi Hn. apply list_elem_of_filter. split; [done|]. by apply list_elem_of_fmap_2. Qed.

(** The outpoints of the outputs of one transaction are distinct. *)
Lemma creates_index txid outs mk i o :
  o ∈ (creates txid i outs mk).*1 → ∃ k, i ≤ k < i + Z.of_nat (length outs) ∧ o = MkOutPoint txid (u32 k).
Proof.
  revert i. induction outs as [|x outs IH]; intros i; cbn [creates]; [by intros ?%not_elem_of_nil|].
  rewrite fmap_app, elem_of_app. intros [H|H].
  - destruct (IsUnspendable (scriptPubKey x)); [by apply not_elem_of_nil in H|].
    apply list_elem_of_singleton in H as ->. exists i. simpl. split; [lia|done].
  - apply IH in H as (k & ? & ->). exists k. cbn [length]. split; [lia|done].
Qed.

Lemma creates_NoDup txid outs mk i :
  0 ≤ i → i + Z.of_nat (length outs) ≤ 2 ^ 32 → NoDup (creates txid i outs mk).*1.
Proof.
  revert i. induction outs as [|x outs IH]; intros i Hi Hl; [apply NoDup_nil_2|].
  cbn [length] in Hl. cbn [creates]. destruct (IsUnspendable (scriptPubKey x)); simpl; [apply IH; lia|].
  apply NoDup_cons. split; [|apply IH; lia].
  intros (k & Hk & E)%creates_index. injection E as E. rewrite !u32_mod in E.
  rewrite !Z.mod_small in E; lia.
Qed.

Section Undo.
  Context (DynamicUsage : Coin → Z) (Hash160 : list Z → list Z).

(** ** The operations on a view that means a set *)

Lemma spend_means v b f o c :
  means v b f → f o = Some c →
  ∃ v', SpendCoin DynamicUsage v b o = (Some c, v') ∧ means v' b (upd f o None).
Proof using Type.
  intros (Hne & Hwf & Hf) Ho. destruct v as [|c0 v]; [done|].
  destruct (SpendCoin_spec DynamicUsage c0 v b o) as (Hr & L & W & _). destruct (W Hwf) as [Hwf' Hx].
  destruct (SpendCoin DynamicUsage (c0 :: v) b o) as [r v']. simpl in *. exists v'. split; [|split; [|split]].
  - f_equal. rewrite Hr. rewrite <- Hf in Ho. unfold utxo in Ho. simpl in Ho.
    destruct (cacheCoins c0 !! o) as [it|]; [|destruct (found v b o) as [y|]; [|done]];
      simpl in Ho |- *; by destruct (IsSpent _).
  - by destruct v'.
  - done.
  - intros o'. rewrite Hx. unfold upd. by rewrite Hf.
Qed.

Lemma add_means c v b f o x :
  means (c :: v) b f → f o = None → IsSpent x = false → IsUnspendable (scriptPubKey (out x)) = false →
  ∃ c', AddCoin DynamicUsage c o x false = Done c' ∧ means (c' :: v) b (upd f o (Some x)).
Proof using Type.
  intros (_ & Hwf & Hf) Ho Hs Hu. pose proof (AddCoin_spec DynamicUsage c v b o x false Hs Hu) as H.
  destruct (AddCoin DynamicUsage c o x false) as [c'| |]; [| |done].
  - destruct H as (Hw & Hx & _). exists c'. split; [done|]. split; [done|]. split.
    + split; [|apply Hwf]. apply Hw; [done|]. right. by rewrite Hf.
    + intros o'. rewrite Hx. unfold upd. by rewrite Hf.
  - destruct H as [_ [y Hy]]. by rewrite Hf, Ho in Hy.
Qed.

Lemma have_means v b f o :
  means v b f → f o = None →
  ∃ v', HaveCoin DynamicUsage v b o = (false, v') ∧ means v' b f.
Proof using Type.
  intros (Hne & Hwf & Hf) Ho. destruct v as [|c v]; [done|].
  destruct (HaveCoin_spec DynamicUsage c v b o) as [Hr Hs].
  destruct (HaveCoin DynamicUsage (c :: v) b o) as [r v']. simpl in Hr, Hs. exists v'. split; [|split; [|split]].
  - rewrite Hf, Ho in Hr. by subst r.
  - by eapply same_view_nonempty.
  - by apply Hs.
  - intros o'. by rewrite (same_view_utxo DynamicUsage _ _ _ _ Hs).
Qed.

(** What [UpdateCoins] keeps for an input. *)
Definition undo_of (f : COutPoint → option Coin) (i : CTxIn) : Coin :=
  if IsNull (prevout i) then coinEmpty else default coinEmpty (f (prevout i)).

Lemma spend_inputs_means ins v b f acc :
  means v b f → NoDup (spends ins) → Forall (λ o, is_Some (f o)) (spends ins) →
  ∃ v', spend_inputs DynamicUsage false v b ins acc = (acc ++ (undo_of f <$> ins), v') ∧
    means v' b (dels (spends ins) f).
Proof using Type.
  revert v f acc. induction ins as [|i ins IH]; intros v f acc Hm Hnd Hf.
  { exists v. by rewrite app_nil_r. }
  rewrite spends_cons in Hnd, Hf |- *. rewrite fmap_cons. cbn [spend_inputs negb andb].
  destruct (IsNull (prevout i)) eqn:Hnull; cbn [negb].
  - destruct (IH v f (acc ++ [coinEmpty]) Hm Hnd Hf) as (v' & -> & Hm'). exists v'. split; [|done].
    rewrite <- app_assoc. simpl. f_equal. f_equal. f_equal. unfold undo_of. by rewrite Hnull.
  - apply NoDup_cons in Hnd as [Hn Hnd].
    apply Forall_cons in Hf as [[c Hc] Hf].
    destruct (spend_means v b f (prevout i) c Hm Hc) as (v1 & -> & Hm1).
    destruct (IH v1 (upd f (prevout i) None) (acc ++ [c])) as (v' & E & Hm'); [done|done| |].
    { rewrite Forall_forall in Hf |- *. intros o Ho. rewrite upd_other; [by apply Hf|]. by intros ->. }
    exists v'. simpl. rewrite E. split; [|done]. rewrite <- app_assoc. f_equal. f_equal. simpl. f_equal.
    + unfold undo_of. by rewrite Hnull, Hc.
    + apply list_fmap_ext. intros k i' Hi'. unfold undo_of. destruct (IsNull (prevout i')) eqn:E'; [done|].
      rewrite upd_other; [done|]. intros E2. apply Hn. rewrite <- E2. apply elem_of_spends; [|done].
      by eapply list_elem_of_lookup_2.
Qed.

Lemma add_outputs_means outs txid i h cb cs c v b f :
  means (c :: v) b f →
  Forall (λ p, f p.1 = None) (creates txid i outs (λ o, NewCoin o h cb cs)) →
  NoDup (creates txid i outs (λ o, NewCoin o h cb cs)).*1 → Forall (λ o, nValue o ≠ -1) outs →
  ∃ c', AddCoins_loop DynamicUsage c txid i outs h cb cs = Done c' ∧
    means (c' :: v) b (adds (creates txid i outs (λ o, NewCoin o h cb cs)) f).
Proof using Type.
  revert i c f. induction outs as [|x outs IH]; intros i c f Hm Hnone Hnd Hv; [by exists c|].
  apply Forall_cons in Hv as [Hx Hv]. cbn [AddCoins_loop creates] in *.
  assert (IsSpent (NewCoin x h cb cs) = false) as Hs by (by apply Z.eqb_neq).
  destruct (IsUnspendable (scriptPubKey x)) eqn:Hu; simpl in *.
  - unfold AddCoin. rewrite Hs. simpl. rewrite Hu. by apply IH.
  - apply Forall_cons in Hnone as [Ho Hnone]. apply NoDup_cons in Hnd as [Hn Hnd].
    destruct (add_means c v b f (MkOutPoint txid (u32 i)) (NewCoin x h cb cs) Hm Ho Hs Hu) as (c1 & -> & Hm1).
    apply (IH (i + 1) c1 _ Hm1); [|done|done]. rewrite Forall_forall in Hnone |- *. intros p Hp.
    rewrite upd_other; [by apply Hnone|]. intros E. apply Hn. rewrite <- E.
    by apply (list_elem_of_fmap_2 fst).
Qed.

Lemma remove_outputs_means outs txid i h cb cs v b g clean :
  let l := creates txid i outs (λ o, NewCoin o h cb cs) in
  means v b (adds l g) → Forall (λ p, g p.1 = None) l → NoDup l.*1 →
  ∃ v', remove_outputs DynamicUsage txid i outs v b clean = (clean, v') ∧ means v' b g.
Proof using Type.
  revert i v. induction outs as [|x outs IH]; intros i v l Hm Hnone Hnd; [by exists v|].
  subst l. cbn [remove_outputs creates] in *.
  destruct (IsUnspendable (scriptPubKey x)) eqn:Hu; simpl in *; [by apply IH|].
  apply Forall_cons in Hnone as [Ho Hnone]. apply NoDup_cons in Hnd as [Hn Hnd].
  set (p := (MkOutPoint txid (u32 i), NewCoin x h cb cs)) in *.
  destruct (spend_means v b _ p.1 p.2 Hm (adds_cons_head p _ g Hn)) as (v1 & E & Hm1). simpl in E. rewrite E. simpl.
  rewrite bool_decide_eq_true_2 by done. simpl. apply IH; [|done|done].
  eapply means_ext; [|exact Hm1]. intros o. by apply (adds_remove p).
Qed.

Lemma ApplyTxInUndo_means v b f o c :
  means v b f → f o = None → restorable c →
  ∃ v', ApplyTxInUndo DynamicUsage c v b o = Done (DISCONNECT_OK, v') ∧ means v' b (upd f o (Some c)).
Proof using Type.
  intros Hm Ho (Hs & Hu & Hh). unfold ApplyTxInUndo, undo_metadata.
  destruct (have_means v b f o Hm Ho) as (v1 & -> & Hm1). rewrite (proj2 (Z.eqb_neq _ 0) Hh).
  destruct v1 as [|c1 v1]; [by destruct Hm1|].
  destruct (add_means c1 v1 b f o c Hm1 Ho Hs Hu) as (c2 & -> & Hm2). by exists (c2 :: v1).
Qed.

Lemma restore_inputs_means f ins v b clean :
  means v b (dels (spends ins) f) → NoDup (spends ins) →
  Forall (λ o, ∃ c, f o = Some c ∧ restorable c) (spends ins) →
  ∃ v', restore_inputs DynamicUsage (zip ins (undo_of f <$> ins)) v b clean = Done (Some clean, v') ∧
    means v' b f.
Proof using Type.
  revert v. induction ins as [|i ins IH]; intros v Hm Hnd Hf; [by exists v|].
  rewrite spends_cons in Hm, Hnd, Hf. rewrite fmap_cons. cbn [zip zip_with restore_inputs].
  destruct (IsNull (prevout i)) eqn:Hnull.
  - by apply IH.
  - apply NoDup_cons in Hnd as [Hn Hnd].
    apply Forall_cons in Hf as [(c & Hc & Hr) Hf].
    assert (undo_of f i = c) as -> by (unfold undo_of; by rewrite Hnull, Hc).
    destruct (ApplyTxInUndo_means v b _ (prevout i) c Hm) as (v1 & -> & Hm1);
      [apply dels_in; by left|done|]. simpl. rewrite andb_true_r.
    apply IH; [|done|done]. eapply means_ext; [|exact Hm1]. intros o. by apply dels_restore.
Qed.

(** ** One transaction *)

Lemma UpdateCoins_means tx v b f h :
  means v b f → tx_fits Hash160 h f tx →
  ∃ undo v', UpdateCoins DynamicUsage Hash160 tx v b h = Done (undo, v') ∧
    means v' b (apply_tx Hash160 h f tx) ∧
    (IsCoinBase tx || IsZeroCoinPoWTransaction Hash160 tx = false → undo = (undo_of f <$> vin tx)).
Proof using Type.
  intros Hm (Hnd & Hin & Hnone & Hv & Hl).
  assert (∃ undo v1,
    (if IsCoinBase tx then ([], v)
     else spend_inputs DynamicUsage (IsZeroCoinPoWTransaction Hash160 tx) v b (vin tx) []) = (undo, v1) ∧
    means v1 b (dels (tx_spends Hash160 tx) f) ∧
    (IsCoinBase tx || IsZeroCoinPoWTransaction Hash160 tx = false → undo = (undo_of f <$> vin tx)))
    as (undo & v1 & E & Hm1 & Hundo).
  { unfold tx_spends in *. destruct (IsCoinBase tx); [by exists [], v|].
    destruct (IsZeroCoinPoWTransaction Hash160 tx); simpl in *.
    - assert (∀ ins acc, (spend_inputs DynamicUsage true v b ins acc).2 = v) as E.
      { induction ins as [|i ins IH]; intros acc; [done|]. apply IH. }
      specialize (E (vin tx) []). destruct (spend_inputs DynamicUsage true v b (vin tx) []) as [u v'].
      simpl in E. subst v'. by exists u, v.
    - destruct (spend_inputs_means (vin tx) v b f [] Hm Hnd) as (v1 & E & Hm1); [|eauto].
      eapply Forall_impl; [exact Hin|]. intros o (c & Hc & _). by exists c. }
  unfold UpdateCoins. rewrite E. unfold add_outputs. destruct v1 as [|c v1]; [by destruct Hm1|].
  destruct (add_outputs_means (vout tx) (txhash tx) 0 h (IsCoinBase tx) (IsCoinStake tx) c v1 b
    (dels (tx_spends Hash160 tx) f) Hm1) as (c' & E2 & Hm2).
  - eapply Forall_impl; [exact Hnone|]. intros p Hp. destruct (decide (p.1 ∈ tx_spends Hash160 tx)).
    + by apply dels_in.
    + by rewrite dels_notin.
  - apply creates_NoDup; lia.
  - done.
  - unfold AddCoins. rewrite E2. eauto.
Qed.

Lemma zip_rev_fmap {A B} (g : A → B) l : rev (zip l (g <$> l)) = zip (rev l) (g <$> rev l).
Proof using Type.
  assert (∀ l', zip l' (g <$> l') = map (λ x, (x, g x)) l') as E.
  { induction l' as [|x l' IH]; [done|]. simpl. f_equal. exact IH. }
  by rewrite !E, map_rev.
Qed.

Lemma spends_rev ins : spends (rev ins) ≡ₚ spends ins.
Proof using Type. unfold spends. by rewrite <- Permutation_rev. Qed.

Lemma disconnect_tx_means tx v b f h undo :
  means v b (apply_tx Hash160 h f tx) → tx_fits Hash160 h f tx →
  (IsCoinBase tx || IsZeroCoinPoWTransaction Hash160 tx = false → undo = (undo_of f <$> vin tx)) →
  ∃ v', disconnect_tx DynamicUsage Hash160 tx undo v b true = Done (Some true, v') ∧ means v' b f.
Proof using Type.
  intros Hm (Hnd & Hin & Hnone & Hv & Hl) Hundo. unfold disconnect_tx.
  destruct (remove_outputs_means (vout tx) (txhash tx) 0 h (IsCoinBase tx) (IsCoinStake tx) v b
    (dels (tx_spends Hash160 tx) f) true Hm) as (v1 & -> & Hm1).
  - eapply Forall_impl; [exact Hnone|]. intros p Hp. destruct (decide (p.1 ∈ tx_spends Hash160 tx)).
    + by apply dels_in.
    + by rewrite dels_notin.
  - apply creates_NoDup; lia.
  - unfold tx_spends in *. destruct (IsCoinBase tx || _) eqn:E; [by exists v1|].
    rewrite (Hundo eq_refl), length_fmap, Nat.eqb_refl, zip_rev_fmap. simpl.
    apply restore_inputs_means.
    + eapply means_ext; [|exact Hm1]. intros o. apply dels_perm. symmetry. apply spends_rev.
    + by rewrite spends_rev.
    + by rewrite spends_rev.
Qed.

(** ** One block *)

Lemma disconnect_loop_app l1 l2 v b clean v1 clean1 :
  disconnect_loop DynamicUsage Hash160 l1 v b clean = Done (Some clean1, v1) →
  disconnect_loop DynamicUsage Hash160 (l1 ++ l2) v b clean =
  disconnect_loop DynamicUsage Hash160 l2 v1 b clean1.
Proof using Type.
  revert v clean. induction l1 as [|[tx u] l1 IH]; intros v clean; simpl; [by intros [= -> ->]|].
  destruct (disconnect_tx _ _ tx u v b clean) as [[[cl|] v']| |]; try done. apply IH.
Qed.

Lemma connect_disconnect txs h v b f :
  means v b f → block_fits Hash160 h f txs →
  ∃ undos v1, connect_loop DynamicUsage Hash160 txs v b h = Done (undos, v1) ∧
    length undos = length txs ∧ means v1 b (foldl (apply_tx Hash160 h) f txs) ∧
    ∀ v1, means v1 b (foldl (apply_tx Hash160 h) f txs) →
      ∃ v2, disconnect_loop DynamicUsage Hash160 (rev (zip txs undos)) v1 b true = Done (Some true, v2) ∧
        means v2 b f.
Proof using Type.
  revert v f. induction txs as [|tx txs IH]; intros v f Hm Hfit.
  { exists [], v. split_and!; [done..|]. intros v1 Hm1. by exists v1. }
  destruct Hfit as [Htx Hfit]. cbn [connect_loop].
  destruct (UpdateCoins_means tx v b f h Hm Htx) as (undo & v1 & -> & Hm1 & Hu).
  destruct (IH v1 _ Hm1 Hfit) as (undos & v2 & -> & L & Hm2 & Hdis).
  exists (undo :: undos), v2. split_and!; [done|simpl; by rewrite L|done|].
  intros v3 Hm3. destruct (Hdis v3 Hm3) as (v4 & E4 & Hm4).
  destruct (disconnect_tx_means tx v4 b f h undo Hm4 Htx Hu) as (v5 & E5 & Hm5).
  exists v5. split; [|done]. cbn [zip zip_with rev].
  rewrite (disconnect_loop_app _ _ _ _ _ _ _ E4). simpl. by rewrite E5.
Qed.

(** C2: disconnecting a block undoes connecting it.  Take any sound view whose
    unspent coins the transactions of a block fit, one after the other, a coinbase
    first: inputs distinct, unspent and with their metadata, outputs new.  Then
    connecting the block throws nothing and yields one undo record per
    transaction; and disconnecting it, with those undo records, from any view that
    means the resulting set answers [DISCONNECT_OK] and leaves a sound view with
    exactly the unspent coins there were before, coins created and spent inside
    the block included. *)
Theorem disconnect_undoes_connect cb txs h v b f :
  means v b f → IsCoinBase cb = true → block_fits Hash160 h f (cb :: txs) →
  ∃ u0 undos v1, connect_loop DynamicUsage Hash160 (cb :: txs) v b h = Done (u0 :: undos, v1) ∧
    means v1 b (foldl (apply_tx Hash160 h) f (cb :: txs)) ∧
    ∀ v1, means v1 b (foldl (apply_tx Hash160 h) f (cb :: txs)) →
      ∃ v2, DisconnectBlock_coins DynamicUsage Hash160 (cb :: txs) undos v1 b = Done (DISCONNECT_OK, v2) ∧
        means v2 b f.
Proof using Type.
  intros Hm Hcb [Htx Hfit]. cbn [connect_loop].
  destruct (UpdateCoins_means cb v b f h Hm Htx) as (u0 & v1 & -> & Hm1 & Hu).
  destruct (connect_disconnect txs h v1 b _ Hm1 Hfit) as (undos & v2 & -> & L & Hm2 & Hdis).
  exists u0, undos, v2. split_and!; [done|done|]. intros v3 Hm3.
  destruct (Hdis v3 Hm3) as (v4 & E4 & Hm4).
  destruct (disconnect_tx_means cb v4 b f h [] Hm4 Htx) as (v5 & E5 & Hm5); [by rewrite Hcb|].
  exists v5. split; [|done]. unfold DisconnectBlock_coins. cbn [length].
  rewrite L, Nat.add_1_r, Nat.eqb_refl. cbn [negb zip zip_with rev].
  rewrite (disconnect_loop_app _ _ _ _ _ _ _ E4). simpl. by rewrite E5.
Qed.
End Undo.

(** ** Witness *)

(** A block of a coinbase, a transaction that spends a coin of the database, and
    one that spends its output. *)
Definition demo_in (txid k : Z) : CTxIn := MkTxIn (MkOutPoint txid k) [] SEQUENCE_FINAL [].

Definition demo_coinbase : CTransaction :=
  MkTransaction 1 [MkTxIn (MkOutPoint 0 0xFFFFFFFF) [OP_1] SEQUENCE_FINAL []] [NewTxOut 50 [OP_1]] 0 100.

Definition demo_txs : list CTransaction :=
  [MkTransaction 1 [demo_in 7 0] [NewTxOut 6 [OP_1]; NewTxOut 0 [OP_RETURN]; NewTxOut 3 [OP_1]] 0 101;
   MkTransaction 1 [demo_in 101 2; demo_in 7 1] [NewTxOut 13 [OP_1]] 0 102].

(** Each input of the demonstration is found by evaluation. *)
Ltac solve_fit :=
  split; [vm_compute; repeat (apply NoDup_cons; split; [set_solver|]); apply NoDup_nil_2|];
  split; [repeat (apply Forall_cons; split; [eexists; split; [vm_compute; reflexivity|by vm_compute]|]);
          apply Forall_nil_2|];
  split; [repeat (apply Forall_cons; split; [vm_compute; reflexivity|]); apply Forall_nil_2|];
  split; [repeat (apply Forall_cons; split; [done|]); apply Forall_nil_2|by vm_compute].

Lemma disconnect_undoes_connect_witness :
  let f := utxo [empty_cache] demo_db in
  ∃ u0 undos v1,
    connect_loop demo_usage id (demo_coinbase :: demo_txs) [empty_cache] demo_db 9 =
      Done (u0 :: undos, v1) ∧
    undos = [[demo_c 10]; [NewCoin (NewTxOut 3 [OP_1]) 9 false false; demo_c 11]] ∧
    ∃ v2, DisconnectBlock_coins demo_usage id (demo_coinbase :: demo_txs) undos v1 demo_db =
        Done (DISCONNECT_OK, v2) ∧ means v2 demo_db f.
Proof.
  intros f.
  destruct (disconnect_undoes_connect demo_usage id demo_coinbase demo_txs 9 [empty_cache] demo_db f)
    as (u0 & undos & v1 & E & Hm & Hd).
  - split; [done|]. split; [apply demo_stack_ok|done].
  - done.
  - split; [solve_fit|]. split; [solve_fit|]. split; [solve_fit|done].
  - exists u0, undos, v1. split; [exact E|]. split.
    + assert (Done (u0 :: undos) = match connect_loop demo_usage id (demo_coinbase :: demo_txs) [empty_cache] demo_db 9
        with Done (u, _) => Done u | _ => Logic_error end) as H by (by rewrite E).
      vm_compute in H. by injection H.
    + exact (Hd v1 Hm).
Defined.
