(* ===== verification/Sighash.v ===== *)
(** * Signature hashes and signature checkers

    The second half of [src/src/script/interpreter.cpp]: what a signature signs
    ([CTransactionSignatureSerializer], [SignatureHash] and [SignatureHashTaproot],
    with the hashes of [PrecomputedTransactionData]), the Taproot commitment
    ([ComputeTapLeafHash], [ComputeTapBranchHash], [DeriveTaprootMerkleRoot]), and
    the checker the script interpreter calls ([CheckSig], [CheckLockTime],
    [CheckSequence]).

    The reference for the legacy hash is [SignatureHashOld] of
    [src/src/test/sighash_tests.cpp], the original algorithm on a modified copy of
    the transaction.

    The hash functions ([CHash256] behind [CHashWriter], [CSHA256]) and the curve
    operations ([CPubKey::Verify], [CXOnlyPubKey::VerifySchnorr]) are parameters.
    A [uint256] is the number of its limbs. *)

From Stdlib Require Import Ascii String.
From S2P Require Import Prelude Ints Serialize Transaction Script Standard.


Local Open Scope Z_scope.

Definition SIGHASH_ALL : Z := 1.
Definition SIGHASH_NONE : Z := 2.
Definition SIGHASH_SINGLE : Z := 3.
Definition SIGHASH_ANYONECANPAY : Z := 0x80.

Inductive SigVersion := SIGVERSION_BASE | SIGVERSION_WITNESS_V0 | SIGVERSION_TAPROOT | SIGVERSION_TAPSCRIPT.

#[export] Instance SigVersion_eq_dec : EqDecision SigVersion.
Proof. solve_decision. Defined.

Definition SEQUENCE_LOCKTIME_DISABLE_FLAG : Z := 2 ^ 31.
Definition SEQUENCE_LOCKTIME_TYPE_FLAG : Z := 2 ^ 22.
Definition SEQUENCE_LOCKTIME_MASK : Z := 0x0000ffff.

Definition UINT256_ONE : Z := 1.

(** The bytes of a string literal. *)
Definition literal (s : String.string) : list Z :=
  map (λ a, Z.of_nat (Ascii.nat_of_ascii a)) (String.list_ascii_of_string s).

(** An element of a vector the code has checked to be there. *)
Definition NullTxIn : CTxIn := MkTxIn (MkOutPoint 0 0xFFFFFFFF) [] SEQUENCE_FINAL [].
Definition vin_at (tx : CTransaction) (i : nat) : CTxIn := nth i (vin tx) NullTxIn.
Definition vout_at (tx : CTransaction) (i : nat) : CTxOut := nth i (vout tx) NullTxOut.

(** ** The serialiser of the legacy hash *)

(** First loop of [SerializeScriptCode]: count the separators. *)
Fixpoint count_separators (fuel : nat) (it : CScript) (nCodeSeparators : Z) : Z :=
  match fuel with
  | O => nCodeSeparators
  | S fuel =>
      let r := GetOp2 it in
      if op_ok r then
        count_separators fuel (pc_next r)
          (if opcodeRet r =? OP_CODESEPARATOR then u32 (nCodeSeparators + 1) else nCodeSeparators)
      else nCodeSeparators
  end.

(** Second loop: the stretches between separators.  [itBegin] and [it] are the
    suffixes at the two iterators. *)
Fixpoint write_stretches (fuel : nat) (itBegin it : CScript) (s : list Z) : list Z :=
  match fuel with
  | O => s
  | S fuel =>
      let r := GetOp2 it in
      let it := pc_next r in
      if op_ok r then
        if opcodeRet r =? OP_CODESEPARATOR
        then write_stretches fuel it it (s ++ take (length itBegin - length it - 1) itBegin)
        else write_stretches fuel itBegin it s
      else match itBegin with
           | [] => s
           | _ => s ++ take (length itBegin - length it) itBegin
           end
  end.

Definition SerializeScriptCode (scriptCode : CScript) : list Z :=
  let nCodeSeparators := count_separators (S (length scriptCode)) scriptCode 0 in
  WriteCompactSize (size scriptCode - nCodeSeparators)
  ++ write_stretches (S (length scriptCode)) scriptCode scriptCode [].

Record CTransactionSignatureSerializer := MkSerializer {
  txTo : CTransaction; scriptCode : CScript; nIn : nat;
  fAnyoneCanPay : bool; fHashSingle : bool; fHashNone : bool }.

Definition NewSerializer (txToIn : CTransaction) (scriptCodeIn : CScript) (nInIn : nat) (nHashTypeIn : Z) :
    CTransactionSignatureSerializer :=
  MkSerializer txToIn scriptCodeIn nInIn (negb (nHashTypeIn .& SIGHASH_ANYONECANPAY =? 0))
    (nHashTypeIn .& 0x1f =? SIGHASH_SINGLE) (nHashTypeIn .& 0x1f =? SIGHASH_NONE).

Definition SerializeInput (c : CTransactionSignatureSerializer) (nInput : nat) : list Z :=
  let nInput := if fAnyoneCanPay c then nIn c else nInput in
  let i := vin_at (txTo c) nInput in
  Serialize codec_COutPoint (prevout i)
  ++ (if negb (nInput =? nIn c)%nat then Serialize codec_bytes [] else SerializeScriptCode (scriptCode c))
  ++ (if negb (nInput =? nIn c)%nat && (fHashSingle c || fHashNone c) then ser_writedata32 0
      else Serialize codec_u32 (nSequence i)).

Definition SerializeOutput (c : CTransactionSignatureSerializer) (nOutput : nat) : list Z :=
  if fHashSingle c && negb (nOutput =? nIn c)%nat then Serialize codec_CTxOut NullTxOut
  else Serialize codec_CTxOut (vout_at (txTo c) nOutput).

Definition Serialize_signature (c : CTransactionSignatureSerializer) : list Z :=
  let nInputs := if fAnyoneCanPay c then 1%nat else length (vin (txTo c)) in
  let nOutputs := if fHashNone c then 0%nat
                  else if fHashSingle c then S (nIn c) else length (vout (txTo c)) in
  Serialize codec_i32 (nVersion (txTo c))
  ++ WriteCompactSize (Z.of_nat nInputs) ++ concat (map (SerializeInput c) (seq 0 nInputs))
  ++ WriteCompactSize (Z.of_nat nOutputs) ++ concat (map (SerializeOutput c) (seq 0 nOutputs))
  ++ Serialize codec_u32 (nLockTime (txTo c)).

Definition WriteLE32 (val : Z) : list Z :=
  [val .& 0xff; (val >> 8) .& 0xff; (val >> 16) .& 0xff; (val >> 24) .& 0xff].

Definition WriteLE64 (val : Z) : list Z :=
  [val .& 0xff; (val >> 8) .& 0xff; (val >> 16) .& 0xff; (val >> 24) .& 0xff;
   (val >> 32) .& 0xff; (val >> 40) .& 0xff; (val >> 48) .& 0xff; (val >> 56) .& 0xff].

(** The hashes a checker may share between the inputs of one transaction. *)
Record PrecomputedTransactionData := MkPrecomputed {
  hashPrevouts : Z; hashSequence : Z; hashOutputs : Z;
  hashPrevoutsSingle : Z; hashSequenceSingle : Z; hashOutputsSingle : Z;
  hashSpentAmounts : Z; hashSpentScripts : Z;
  m_spent_outputs_ready : bool; spentOutputs : list CTxOut }.

Section Hashes.
  (** [CHash256] through [CHashWriter::GetHash], and [CSHA256] finalised into 32
      bytes. *)
  Context (Hash : list Z → Z) (SHA256 : list Z → list Z).

(** [uint256(std::vector(h_bytes, h_bytes + 32))] of a finalised [CSHA256]. *)
Definition sha (data : list Z) : Z := le_dec (SHA256 data).

Definition GetPrevoutsSHA256 (tx : CTransaction) : Z :=
  sha (concat (map (λ i, le_enc 32 (hash (prevout i)) ++ WriteLE32 (n (prevout i))) (vin tx))).

Definition GetSequencesSHA256 (tx : CTransaction) : Z :=
  sha (concat (map (λ i, WriteLE32 (nSequence i)) (vin tx))).

Definition GetOutputsSHA256 (tx : CTransaction) : Z :=
  sha (concat (map (λ o, WriteLE64 (u64 (nValue o)) ++ Serialize codec_bytes (scriptPubKey o)) (vout tx))).

Definition GetSpentAmountsSHA256 (spent : list CTxOut) : Z :=
  sha (concat (map (λ o, WriteLE64 (u64 (nValue o))) spent)).

Definition GetSpentScriptsSHA256 (spent : list CTxOut) : Z :=
  sha (concat (map (λ o, Serialize codec_bytes (scriptPubKey o)) spent)).

Definition GetPrevoutHash (tx : CTransaction) : Z :=
  Hash (concat (map (λ i, Serialize codec_COutPoint (prevout i)) (vin tx))).

Definition GetSequenceHash (tx : CTransaction) : Z :=
  Hash (concat (map (λ i, Serialize codec_u32 (nSequence i)) (vin tx))).

Definition GetOutputsHash (tx : CTransaction) : Z :=
  Hash (concat (map (Serialize codec_CTxOut) (vout tx))).

(** A tagged hash: the hash of the tag twice, then the data. *)
Definition tagged (tag : String.string) (data : list Z) : Z :=
  let tag_hash := SHA256 (literal tag) in sha (tag_hash ++ tag_hash ++ data).

Definition ComputeTapLeafHash (leaf_version : Z) (script : CScript) : Z :=
  tagged "TapLeaf"%string (ser_writedata8 leaf_version ++ Serialize codec_bytes script).

(** [left < right] is the order of the numbers. *)
Definition ComputeTapBranchHash (left right : Z) : Z :=
  tagged "TapBranch"%string
    (if left <? right then le_enc 32 left ++ le_enc 32 right else le_enc 32 right ++ le_enc 32 left).

(** The siblings of the path, from position 33 on. *)
Fixpoint tap_path (path_len : nat) (siblings : list Z) (current_hash : Z) : Z :=
  match path_len with
  | O => current_hash
  | S path_len =>
      tap_path path_len (drop 32 siblings) (ComputeTapBranchHash current_hash (le_dec (take 32 siblings)))
  end.

Definition DeriveTaprootMerkleRoot (control_block : list Z) (leaf_hash : Z) : Z :=
  tap_path ((length control_block - 33) / 32) (drop 33 control_block) leaf_hash.

(** The constructor, and [Init]. *)
Definition PrecomputedTransactionData_new (tx : CTransaction) : PrecomputedTransactionData :=
  MkPrecomputed (GetPrevoutHash tx) (GetSequenceHash tx) (GetOutputsHash tx)
    (GetPrevoutsSHA256 tx) (GetSequencesSHA256 tx) (GetOutputsSHA256 tx) 0 0 false [].

Definition Init (p : PrecomputedTransactionData) (spent_outputs : list CTxOut) : PrecomputedTransactionData :=
  MkPrecomputed (hashPrevouts p) (hashSequence p) (hashOutputs p)
    (hashPrevoutsSingle p) (hashSequenceSingle p) (hashOutputsSingle p)
    (GetSpentAmountsSHA256 spent_outputs) (GetSpentScriptsSHA256 spent_outputs) true spent_outputs.

(** [cache ? cache->h : f(txTo)]. *)
Definition cached (cache : option PrecomputedTransactionData) (h : PrecomputedTransactionData → Z) (other : Z) : Z :=
  match cache with Some c => h c | None => other end.

(** The spent outputs, where they are known. *)
Definition spent_ready (cache : option PrecomputedTransactionData) : option PrecomputedTransactionData :=
  match cache with Some c => if m_spent_outputs_ready c then Some c else None | None => None end.

(** [None] is a return of [UINT256_ONE]. *)
Definition taproot_message (tx : CTransaction) (nIn : nat) (nHashType : Z) (sigversion : SigVersion)
    (cache : option PrecomputedTransactionData) (tapleaf_hash : option Z) (codesep_pos : Z) : option (list Z) :=
  if (length (vin tx) <=? nIn)%nat then None
  else
    let sighash_type := u8 (if nHashType =? 0 then SIGHASH_ALL else nHashType) in
    let anyone_can_pay := negb (sighash_type .& SIGHASH_ANYONECANPAY =? 0) in
    let mode := sighash_type .& 0x1f in
    let i := vin_at tx nIn in
    all ← (if negb anyone_can_pay then
             c ← spent_ready cache;
             Some (le_enc 32 (cached cache hashPrevoutsSingle (GetPrevoutsSHA256 tx))
                   ++ le_enc 32 (hashSpentAmounts c) ++ le_enc 32 (hashSpentScripts c)
                   ++ le_enc 32 (cached cache hashSequenceSingle (GetSequencesSHA256 tx)))
           else Some []);
    let outs := if negb (mode =? SIGHASH_NONE) && negb (mode =? SIGHASH_SINGLE)
                then le_enc 32 (cached cache hashOutputsSingle (GetOutputsSHA256 tx)) else [] in
    let spend_type := if bool_decide (sigversion = SIGVERSION_TAPSCRIPT) then 2 else 0 in
    one ← (if anyone_can_pay then
             c ← spent_ready cache;
             if (nIn <? length (spentOutputs c))%nat then
               let txout := nth nIn (spentOutputs c) NullTxOut in
               Some (le_enc 32 (hash (prevout i)) ++ WriteLE32 (n (prevout i))
                     ++ WriteLE64 (u64 (nValue txout)) ++ Serialize codec_bytes (scriptPubKey txout)
                     ++ WriteLE32 (nSequence i))
             else None
           else Some []);
    single ← (if mode =? SIGHASH_SINGLE then
                if (nIn <? length (vout tx))%nat
                then Some (le_enc 32 (sha (Serialize codec_CTxOut (vout_at tx nIn)))) else None
              else Some []);
    leaf ← (if bool_decide (sigversion = SIGVERSION_TAPSCRIPT) then
              h ← tapleaf_hash; Some (le_enc 32 h ++ [0] ++ WriteLE32 codesep_pos)
            else Some []);
    Some ([0] ++ [sighash_type] ++ WriteLE32 (u32 (nVersion tx)) ++ WriteLE32 (nLockTime tx)
          ++ all ++ outs ++ [spend_type] ++ WriteLE32 (Z.of_nat nIn) ++ one ++ single ++ leaf).

Definition SignatureHashTaproot (tx : CTransaction) (nIn : nat) (nHashType : Z) (sigversion : SigVersion)
    (cache : option PrecomputedTransactionData) (tapleaf_hash : option Z) (codesep_pos : Z) : Z :=
  match taproot_message tx nIn nHashType sigversion cache tapleaf_hash codesep_pos with
  | Some message => tagged "TapSighash"%string message
  | None => UINT256_ONE
  end.

(** The branch of [SignatureHash] for witness version 0. *)
Definition SignatureHash_v0 (scriptCode : CScript) (tx : CTransaction) (nIn : nat) (nHashType amount : Z)
    (cache : option PrecomputedTransactionData) : Z :=
  let anyone := negb (nHashType .& SIGHASH_ANYONECANPAY =? 0) in
  let mode := nHashType .& 0x1f in
  let i := vin_at tx nIn in
  let hp := if negb anyone then cached cache hashPrevouts (GetPrevoutHash tx) else 0 in
  let hs := if negb anyone && negb (mode =? SIGHASH_SINGLE) && negb (mode =? SIGHASH_NONE)
            then cached cache hashSequence (GetSequenceHash tx) else 0 in
  let ho := if negb (mode =? SIGHASH_SINGLE) && negb (mode =? SIGHASH_NONE)
            then cached cache hashOutputs (GetOutputsHash tx)
            else if (mode =? SIGHASH_SINGLE) && (nIn <? length (vout tx))%nat
            then Hash (Serialize codec_CTxOut (vout_at tx nIn)) else 0 in
  Hash (Serialize codec_i32 (nVersion tx) ++ Serialize codec_uint256 hp ++ Serialize codec_uint256 hs
        ++ Serialize codec_COutPoint (prevout i) ++ Serialize codec_bytes scriptCode
        ++ Serialize codec_i64 amount ++ Serialize codec_u32 (nSequence i)
        ++ Serialize codec_uint256 ho ++ Serialize codec_u32 (nLockTime tx)
        ++ Serialize codec_i32 nHashType).

Definition SignatureHash (scriptCode : CScript) (tx : CTransaction) (nIn : nat) (nHashType amount : Z)
    (sigversion : SigVersion) (cache : option PrecomputedTransactionData) : Z :=
  if (length (vin tx) <=? nIn)%nat then UINT256_ONE
  else if bool_decide (sigversion = SIGVERSION_WITNESS_V0)
  then SignatureHash_v0 scriptCode tx nIn nHashType amount cache
  else if (nHashType .& 0x1f =? SIGHASH_SINGLE) && (length (vout tx) <=? nIn)%nat then UINT256_ONE
  else Hash (Serialize_signature (NewSerializer tx scriptCode nIn nHashType) ++ Serialize codec_i32 nHashType).

(** ** The original algorithm *)

Definition set_script (s : CScript) (i : CTxIn) : CTxIn := MkTxIn (prevout i) s (nSequence i) (prevPubKey i).

Definition set_sequence (q : Z) (i : CTxIn) : CTxIn := MkTxIn (prevout i) (scriptSig i) q (prevPubKey i).

Definition SignatureHashOld (scriptCode : CScript) (tx : CTransaction) (nIn : nat) (nHashType : Z) : Z :=
  if (length (vin tx) <=? nIn)%nat then UINT256_ONE
  else
    let scriptCode := (FindAndDelete scriptCode [OP_CODESEPARATOR]).2 in
    let ins := imap (λ i x, set_script (if (i =? nIn)%nat then scriptCode else []) x) (vin tx) in
    let free := imap (λ i x, if negb (i =? nIn)%nat then set_sequence 0 x else x) ins in
    let mode := nHashType .& 0x1f in
    if (mode =? SIGHASH_SINGLE) && (length (vout tx) <=? nIn)%nat then UINT256_ONE
    else
      let ins := if (mode =? SIGHASH_NONE) || (mode =? SIGHASH_SINGLE) then free else ins in
      let outs := if mode =? SIGHASH_NONE then []
                  else if mode =? SIGHASH_SINGLE
                  then imap (λ i o, if (i <? nIn)%nat then NullTxOut else o) (take (nIn + 1) (vout tx))
                  else vout tx in
      let ins := if negb (nHashType .& SIGHASH_ANYONECANPAY =? 0) then [nth nIn ins NullTxIn] else ins in
      Hash (Serialize codec_i32 (nVersion tx) ++ Serialize_vec codec_CTxIn ins
            ++ Serialize_vec codec_CTxOut outs ++ Serialize codec_u32 (nLockTime tx)
            ++ Serialize codec_i32 nHashType).
End Hashes.

(** ** Checkers *)

(** The virtual methods the interpreter calls. *)
Record BaseSignatureChecker := MkChecker {
  CheckSig : list Z → list Z → CScript → SigVersion → bool;
  CheckLockTime : Z → bool;
  CheckSequence : Z → bool;
  GetTx : option CTransaction; GetIn : nat; GetAmount : Z;
  GetPrecomputedData : option PrecomputedTransactionData }.

(** The methods of the base class. *)
Definition BaseChecker : BaseSignatureChecker :=
  MkChecker (λ _ _ _ _, false) (λ _, false) (λ _, false) None 0 0 None.

Definition tx_CheckLockTime (txTo : CTransaction) (nIn : nat) (nLockTime : Z) : bool :=
  if negb ((Transaction.nLockTime txTo <? LOCKTIME_THRESHOLD) && (nLockTime <? LOCKTIME_THRESHOLD)
           || (LOCKTIME_THRESHOLD <=? Transaction.nLockTime txTo) && (LOCKTIME_THRESHOLD <=? nLockTime))
  then false
  else if Transaction.nLockTime txTo <? nLockTime then false
  else if IsFinal (vin_at txTo nIn) then false
  else true.

Definition tx_CheckSequence (txTo : CTransaction) (nIn : nat) (nSequence : Z) : bool :=
  let txToSequence := Transaction.nSequence (vin_at txTo nIn) in
  if u32 (nVersion txTo) <? 2 then false
  else if negb (txToSequence .& SEQUENCE_LOCKTIME_DISABLE_FLAG =? 0) then false
  else
    let nLockTimeMask := SEQUENCE_LOCKTIME_TYPE_FLAG .| SEQUENCE_LOCKTIME_MASK in
    let txToSequenceMasked := txToSequence .& nLockTimeMask in
    let nSequenceMasked := nSequence .& nLockTimeMask in
    if negb ((txToSequenceMasked <? SEQUENCE_LOCKTIME_TYPE_FLAG) && (nSequenceMasked <? SEQUENCE_LOCKTIME_TYPE_FLAG)
             || (SEQUENCE_LOCKTIME_TYPE_FLAG <=? txToSequenceMasked) && (SEQUENCE_LOCKTIME_TYPE_FLAG <=? nSequenceMasked))
    then false
    else if txToSequenceMasked <? nSequenceMasked then false
    else true.

Section Checkers.
  Context (Hash : list Z → Z) (SHA256 : list Z → list Z).
  (** [CPubKey::Verify] and [CXOnlyPubKey::VerifySchnorr]: key, message, signature. *)
  Context (Verify : list Z → Z → list Z → bool) (VerifySchnorr : list Z → Z → list Z → bool).

(** The branch for Taproot keys. *)
Definition CheckSig_taproot (tx : CTransaction) (nIn : nat) (precomTxData : option PrecomputedTransactionData)
    (tapleaf_hash : option Z) (codesep_pos : Z) (vchSigIn vchPubKey : list Z) (sigversion : SigVersion) : bool :=
  if (size vchSigIn =? 0) || negb (size vchPubKey =? 32) then false
  else
    let check nHashType vchSig :=
      VerifySchnorr vchPubKey
        (SignatureHashTaproot SHA256 tx nIn nHashType sigversion precomTxData tapleaf_hash codesep_pos) vchSig in
    if size vchSigIn =? 65 then check (back vchSigIn) (removelast vchSigIn)
    else if negb (size vchSigIn =? 64) then false
    else check 0 vchSigIn.

(** The branch for ECDSA keys. *)
Definition CheckSig_ecdsa (tx : CTransaction) (nIn : nat) (amount : Z)
    (precomTxData : option PrecomputedTransactionData) (vchSigIn vchPubKey : list Z) (scriptCode : CScript)
    (sigversion : SigVersion) : bool :=
  let pubkey := Set_key vchPubKey in
  if negb (IsValid pubkey) then false
  else if size vchSigIn =? 0 then false
  else
    let nHashType := back vchSigIn in
    let sighash := SignatureHash Hash scriptCode tx nIn nHashType amount sigversion precomTxData in
    Verify pubkey sighash (removelast vchSigIn).

Definition tx_CheckSig (tx : CTransaction) (nIn : nat) (amount : Z)
    (precomTxData : option PrecomputedTransactionData) (tapleaf_hash : option Z) (codesep_pos : Z)
    (vchSigIn vchPubKey : list Z) (scriptCode : CScript) (sigversion : SigVersion) : bool :=
  if bool_decide (sigversion = SIGVERSION_TAPSCRIPT) && ((size vchPubKey =? 33) || (size vchPubKey =? 65))
  then CheckSig_ecdsa tx nIn amount precomTxData vchSigIn vchPubKey scriptCode SIGVERSION_BASE
  else if bool_decide (sigversion = SIGVERSION_TAPROOT) || bool_decide (sigversion = SIGVERSION_TAPSCRIPT)
  then CheckSig_taproot tx nIn precomTxData tapleaf_hash codesep_pos vchSigIn vchPubKey sigversion
  else CheckSig_ecdsa tx nIn amount precomTxData vchSigIn vchPubKey scriptCode sigversion.

(** [TransactionSignatureChecker], which knows no leaf. *)
Definition TransactionSignatureChecker (tx : CTransaction) (nIn : nat) (amount : Z)
    (precomTxData : option PrecomputedTransactionData) : BaseSignatureChecker :=
  MkChecker (tx_CheckSig tx nIn amount precomTxData None 0xffffffff)
    (tx_CheckLockTime tx nIn) (tx_CheckSequence tx nIn) (Some tx) nIn amount precomTxData.

Definition TapscriptSignatureChecker (tx : CTransaction) (nIn : nat) (amount : Z)
    (cachedHashes : PrecomputedTransactionData) (tapleaf_hash codesep_pos : Z) : BaseSignatureChecker :=
  MkChecker (tx_CheckSig tx nIn amount (Some cachedHashes) (Some tapleaf_hash) codesep_pos)
    (tx_CheckLockTime tx nIn) (tx_CheckSequence tx nIn) (Some tx) nIn amount (Some cachedHashes).
End Checkers.

(** ** The script code without its separators *)

(** A script whose every instruction is whole. *)
Definition whole (s : CScript) : Prop := is_Some (instructions (length s) s).

Inductive readable : CScript → Prop :=
  | readable_nil : readable []
  | readable_op op pc :
      op_ok (GetOp2 (op :: pc)) = true → readable (pc_next (GetOp2 (op :: pc))) → readable (op :: pc).

Lemma instructions_readable fuel s l : instructions fuel s = Some l → readable s.
Proof.
  revert s l. induction fuel as [|fuel IH]; intros [|op s] l; cbn [instructions]; try (intros; constructor; done).
  - intros H. destruct (op_ok _) eqn:Hok; [|done].
    apply fmap_Some in H as (l' & Hl & _). apply readable_op; [done|]. by eapply IH.
Qed.

Lemma opcodeRet_head op pc : op_ok (GetOp2 (op :: pc)) = true → opcodeRet (GetOp2 (op :: pc)) = op.
Proof. simpl. unfold op_data. by repeat case_match. Qed.

Lemma copy_separator s : copy_at [OP_CODESEPARATOR] s = match s with op :: _ => op =? OP_CODESEPARATOR | [] => false end.
Proof.
  destruct s as [|op s]; [done|]. unfold copy_at, OP_CODESEPARATOR. simpl. rewrite take_0.
  destruct (Z.eqb_spec op 0xab) as [->|Hne]; case_bool_decide; congruence.
Qed.

(** What the two loops of [SerializeScriptCode] see of a deletion. *)
Lemma separators_deleted s s' k :
  deletes [OP_CODESEPARATOR] s s' k → readable s →
  ∀ fuel, (length s < fuel)%nat → size s < 2 ^ 32 →
    (∀ c, 0 ≤ c → c + size s < 2 ^ 32 → count_separators fuel s c = c + k) ∧
    (∀ kept acc, write_stretches fuel (kept ++ s) s acc = acc ++ kept ++ s').
Proof.
  induction 1 as [s s' k Hc Hd IH|s s' pre k Hc Hok Hpre Hd IH|s Hc Hok]; intros Hr fuel Hf Hs.
  - rewrite copy_separator in Hc. destruct s as [|op s]; [done|]. apply Z.eqb_eq in Hc as ->.
    inversion_clear Hr. destruct fuel as [|fuel]; [lia|]. simpl in Hf. unfold size in Hs. simpl in Hs.
    change (drop (length [OP_CODESEPARATOR]) (OP_CODESEPARATOR :: s)) with s in IH.
    destruct (IH ltac:(done) fuel ltac:(lia) ltac:(unfold size; lia)) as [H1 H2]. split.
    + intros c Hc0 Hcs. unfold size in Hcs. simpl in Hcs. cbn [count_separators].
      change (GetOp2 (OP_CODESEPARATOR :: s)) with (OpRead true OP_CODESEPARATOR [] s).
      cbn [op_ok opcodeRet pc_next]. rewrite Z.eqb_refl, u32_mod, Z.mod_small by lia.
      rewrite H1 by (unfold size; lia). lia.
    + intros kept acc. cbn [write_stretches].
      change (GetOp2 (OP_CODESEPARATOR :: s)) with (OpRead true OP_CODESEPARATOR [] s).
      cbn [op_ok opcodeRet pc_next]. rewrite Z.eqb_refl.
      specialize (H2 [] (acc ++ kept)). cbn [app] in H2.
      rewrite length_app. cbn [length]. replace (length kept + S (length s) - length s - 1)%nat with (length kept) by lia.
      rewrite take_app_length, H2. by rewrite <- app_assoc.
  - destruct s as [|op s]; [done|]. rewrite copy_separator in Hc.
    inversion_clear Hr as [|? ? _ Hr']. destruct fuel as [|fuel]; [lia|].
    pose proof (GetOp2_progress (op :: s) ltac:(done)) as Hp. pose proof (opcodeRet_head op s Hok) as Ho.
    set (r := GetOp2 (op :: s)) in *.
    destruct (IH Hr' fuel ltac:(lia) ltac:(unfold size in *; lia)) as [H1 H2]. split.
    + intros c Hc0 Hcs. cbn [count_separators]. fold r. rewrite Hok, Ho, Hc.
      apply H1; [done|]. unfold size in *. lia.
    + intros kept acc. cbn [write_stretches]. fold r. rewrite Hok, Ho, Hc, Hpre, app_assoc, H2.
      by rewrite <- app_assoc.
  - inversion Hr; subst; [|congruence]. destruct fuel as [|fuel]; [simpl in Hf; lia|].
    split; [intros c ? ?; simpl; lia|]. intros kept acc. simpl. rewrite app_nil_r, Nat.sub_0_r, firstn_all.
    destruct kept; [by rewrite app_nil_r|done].
Qed.

Lemma SerializeScriptCode_deletes s :
  whole s → size s < 2 ^ 32 →
  SerializeScriptCode s = Serialize_bytes (FindAndDelete s [OP_CODESEPARATOR]).2.
Proof.
  intros [l Hl%instructions_readable] Hs.
  pose proof (FindAndDelete_deletes s [OP_CODESEPARATOR] ltac:(done)) as Hd.
  destruct (FindAndDelete s [OP_CODESEPARATOR]) as [k s']. simpl in Hd.
  destruct (separators_deleted _ _ _ Hd Hl (S (length s)) ltac:(lia) Hs) as [H1 H2].
  destruct (deletes_count _ _ _ _ Hd) as (_ & Hsz & _).
  unfold SerializeScriptCode, Serialize_bytes. rewrite H1 by lia.
  rewrite (H2 [] [] : write_stretches _ s s [] = _). cbn [app]. f_equal. f_equal.
  unfold size in *. simpl in Hsz |- *. lia.
Qed.

(** ** The serialiser writes the modified transaction *)

Lemma map_seq_imap {A B} (g : nat → A → B) l d :
  map (λ k, g k (nth k l d)) (seq 0 (length l)) = imap g l.
Proof.
  revert g. induction l as [|x l IH]; intros g; [done|]. simpl. f_equal.
  rewrite <- seq_shift, map_map. apply (IH (λ k, g (S k))).
Qed.

(** The message of the original algorithm, without the final hash. *)
Definition original_members (scriptCode : CScript) (tx : CTransaction) (nIn : nat) (nHashType : Z) :
    Z * (list CTxIn * (list CTxOut * Z)) :=
  let ins := imap (λ i x, set_script (if (i =? nIn)%nat then scriptCode else []) x) (vin tx) in
  let free := imap (λ i x, if negb (i =? nIn)%nat then set_sequence 0 x else x) ins in
  let mode := nHashType .& 0x1f in
  let ins := if (mode =? SIGHASH_NONE) || (mode =? SIGHASH_SINGLE) then free else ins in
  let outs := if mode =? SIGHASH_NONE then []
              else if mode =? SIGHASH_SINGLE
              then imap (λ i o, if (i <? nIn)%nat then NullTxOut else o) (take (nIn + 1) (vout tx))
              else vout tx in
  let ins := if negb (nHashType .& SIGHASH_ANYONECANPAY =? 0) then [nth nIn ins NullTxIn] else ins in
  (nVersion tx, (ins, (outs, nLockTime tx))).

Lemma nth_imap {A B} (g : nat → A → B) l k d d' :
  (k < length l)%nat → nth k (imap g l) d = g k (nth k l d').
Proof.
  revert g k. induction l as [|x l IH]; intros g [|k] Hk; simpl in *; try lia; [done|].
  apply (IH (g ∘ S)). lia.
Qed.

Lemma imap_imap {A B C} (f : nat → B → C) (g : nat → A → B) l :
  imap f (imap g l) = imap (λ i x, f i (g i x)) l.
Proof.
  revert f g. induction l as [|x l IH]; intros f g; [done|]. simpl. f_equal. apply (IH (f ∘ S) (g ∘ S)).
Qed.

Section Equivalence.
  Context (tx : CTransaction) (s : CScript) (k : nat) (nHashType : Z).
  Context (Hs : SerializeScriptCode s = Serialize_bytes (FindAndDelete s [OP_CODESEPARATOR]).2).

Let c := NewSerializer tx s k nHashType.
Let s' := (FindAndDelete s [OP_CODESEPARATOR]).2.
Let free := (nHashType .& 0x1f =? SIGHASH_NONE) || (nHashType .& 0x1f =? SIGHASH_SINGLE).

(** An input as it is signed. *)
Let signed_in (i : nat) (x : CTxIn) : CTxIn :=
  let y := set_script (if (i =? k)%nat then s' else []) x in
  if free && negb (i =? k)%nat then set_sequence 0 y else y.

Lemma SerializeInput_at i :
  SerializeInput c i =
  Serialize codec_CTxIn (signed_in (if fAnyoneCanPay c then k else i) (vin_at tx (if fAnyoneCanPay c then k else i))).
Proof using Hs.
  unfold SerializeInput. cbn [txTo nIn scriptCode c NewSerializer fHashSingle fHashNone].
  set (j := if fAnyoneCanPay c then k else i). unfold signed_in.
  fold free. destruct (Nat.eqb_spec j k) as [->|Hne]; cbn [negb andb].
  - rewrite andb_false_r, Hs. done.
  - rewrite andb_true_r, orb_comm. fold free. by destruct free.
Qed.

Lemma inputs_modified :
  (k < length (vin tx))%nat →
  concat (map (SerializeInput c) (seq 0 (if fAnyoneCanPay c then 1 else length (vin tx))))
    = concat (map (Serialize codec_CTxIn) (original_members s' tx k nHashType).2.1) ∧
  length (original_members s' tx k nHashType).2.1 = (if fAnyoneCanPay c then 1%nat else length (vin tx)).
Proof using Hs.
  intros Hk.
  assert ((if free then imap (λ i x, if negb (i =? k)%nat then set_sequence 0 x else x)
              (imap (λ i x, set_script (if (i =? k)%nat then s' else []) x) (vin tx))
           else imap (λ i x, set_script (if (i =? k)%nat then s' else []) x) (vin tx))
          = imap signed_in (vin tx)) as E.
  { unfold signed_in. destruct free; [|done]. rewrite imap_imap. done. }
  unfold original_members. cbn [fst snd]. fold free. rewrite E.
  change (negb (nHashType .& SIGHASH_ANYONECANPAY =? 0)) with (fAnyoneCanPay c).
  rewrite (map_ext _ _ SerializeInput_at). destruct (fAnyoneCanPay c).
  - simpl. split; [|done]. rewrite (nth_imap _ _ _ _ NullTxIn) by done. done.
  - rewrite length_imap. split; [|done]. f_equal. unfold vin_at.
    rewrite (map_seq_imap (λ i x, Serialize codec_CTxIn (signed_in i x))).
    symmetry. apply (fmap_imap signed_in (Serialize codec_CTxIn)).
Qed.

Lemma outputs_modified :
  ((nHashType .& 0x1f =? SIGHASH_SINGLE) && (length (vout tx) <=? k)%nat = false) →
  let nOutputs := if fHashNone c then 0%nat else if fHashSingle c then S k else length (vout tx) in
  concat (map (SerializeOutput c) (seq 0 nOutputs))
    = concat (map (Serialize codec_CTxOut) (original_members s' tx k nHashType).2.2.1) ∧
  length (original_members s' tx k nHashType).2.2.1 = nOutputs.
Proof using Type.
  unfold original_members, SerializeOutput. cbn [fst snd c NewSerializer txTo nIn fHashNone fHashSingle].
  destruct (Z.eqb_spec (nHashType .& 0x1f) SIGHASH_NONE) as [->|Hn]; [done|].
  destruct (Z.eqb_spec (nHashType .& 0x1f) SIGHASH_SINGLE) as [E|E]; cbn [andb]; intros Hk.
  - apply Nat.leb_gt in Hk. rewrite length_imap, length_take, Nat.add_1_r, Nat.min_l by lia. split; [|done].
    f_equal. replace (seq 0 (S k)) with (seq 0 (length (take (S k) (vout tx)))) by (f_equal; rewrite length_take; lia).
    transitivity (imap (λ i o, Serialize codec_CTxOut (if (i <? k)%nat then NullTxOut else o)) (take (S k) (vout tx))).
    2:{ symmetry. apply (fmap_imap (λ i o, if (i <? k)%nat then NullTxOut else o) (Serialize codec_CTxOut)). }
    rewrite <- (map_seq_imap _ _ NullTxOut). apply map_ext_in. intros i Hi%in_seq.
    rewrite length_take_le in Hi by lia.
    destruct (Nat.eqb_spec i k) as [->|Hne]; cbn [negb].
    + rewrite Nat.ltb_irrefl. f_equal. unfold vout_at. rewrite <- (take_drop (S k) (vout tx)) at 1.
      apply app_nth1. rewrite length_take. lia.
    + destruct (Nat.ltb_spec i k); [done|lia].
  - split; [|done]. f_equal. unfold vout_at.
    rewrite (map_seq_imap (λ _ o, Serialize codec_CTxOut o)). clear. generalize (vout tx) as l.
    induction l as [|o l IH]; [done|]. simpl. f_equal. exact IH.
Qed.

(** What is signed is the modified transaction on the wire. *)
Lemma Serialize_signature_modified :
  (k < length (vin tx))%nat →
  ((nHashType .& 0x1f =? SIGHASH_SINGLE) && (length (vout tx) <=? k)%nat = false) →
  Serialize_signature c =
  let '(v, (ins, (outs, l))) := original_members s' tx k nHashType in
  Serialize codec_i32 v ++ Serialize_vec codec_CTxIn ins ++ Serialize_vec codec_CTxOut outs
  ++ Serialize codec_u32 l.
Proof using Hs.
  intros Hk Ho. destruct (inputs_modified Hk) as [E1 L1]. destruct (outputs_modified Ho) as [E2 L2].
  unfold Serialize_signature, Serialize_vec. cbn [c NewSerializer txTo nIn] in *.
  rewrite E1, E2, <- L1, <- L2. unfold original_members. cbn [fst snd]. by rewrite <- !app_assoc.
Qed.
End Equivalence.

(** C13: the serialiser behind the legacy signature hash computes exactly what the
    original algorithm computes on a modified copy of the transaction: for every
    hash type, input index (out of range included), amount and cache, and every
    script code whose instructions are whole, the optimised hash is the original
    one.  In particular dropping code separators while writing is deleting them
    first, and writing blank inputs and outputs is blanking them first. *)
Theorem signature_hash_is_original Hash scriptCode tx nIn nHashType amount cache :
  whole scriptCode → size scriptCode < 2 ^ 32 →
  SignatureHash Hash scriptCode tx nIn nHashType amount SIGVERSION_BASE cache =
  SignatureHashOld Hash scriptCode tx nIn nHashType.
Proof.
  intros Hw Hs%(SerializeScriptCode_deletes _ Hw). unfold SignatureHash, SignatureHashOld. cbn [bool_decide].
  destruct (Nat.leb_spec (length (vin tx)) nIn) as [|Hk]; [done|].
  destruct ((nHashType .& 0x1f =? SIGHASH_SINGLE) && _) eqn:Ho; [done|].
  rewrite (Serialize_signature_modified tx scriptCode nIn nHashType Hs Hk Ho).
  unfold original_members. by rewrite <- !app_assoc.
Qed.

(** ** What a signature commits to *)

Lemma deletes_Forall (P : Z → Prop) b s s' k : deletes b s s' k → Forall P s → Forall P s'.
Proof.
  induction 1 as [s s' k _ _ IH|s s' pre k _ _ E _ IH|s _ _]; intros Hs.
  - apply IH. by apply Forall_drop.
  - rewrite E in Hs. apply Forall_app in Hs as [? ?]. apply Forall_app. auto.
  - done.
Qed.

(** The members of a transaction are in range. *)
Definition members_ok (tx : CTransaction) : Prop :=
  signed 32 (nVersion tx) ∧ vec_ok txin_ok (vin tx) ∧ vec_ok txout_ok (vout tx) ∧ word 32 (nLockTime tx).

(** Sign everything: neither [SIGHASH_NONE] nor [SIGHASH_SINGLE], all inputs. *)
Definition signs_all (nHashType : Z) : Prop :=
  nHashType .& 0x1f ≠ SIGHASH_NONE ∧ nHashType .& 0x1f ≠ SIGHASH_SINGLE ∧
  nHashType .& SIGHASH_ANYONECANPAY = 0.

(** The bytes hashed for a legacy signature. *)
Definition signed_message (scriptCode : CScript) (tx : CTransaction) (nIn : nat) (nHashType : Z) : list Z :=
  Serialize_signature (NewSerializer tx scriptCode nIn nHashType) ++ Serialize codec_i32 nHashType.

Lemma original_members_all s tx k t :
  signs_all t → original_members s tx k t =
  (nVersion tx, (imap (λ i x, set_script (if (i =? k)%nat then s else []) x) (vin tx), (vout tx, nLockTime tx))).
Proof.
  intros (H1 & H2 & H3). unfold original_members.
  by rewrite (proj2 (Z.eqb_neq _ _) H1), (proj2 (Z.eqb_neq _ _) H2), H3.
Qed.

Lemma signed_ins_ok s tx k :
  vec_ok byte s → vec_ok txin_ok (vin tx) →
  vec_ok txin_ok (imap (λ i x, set_script (if (i =? k)%nat then s else []) x) (vin tx)).
Proof.
  intros Hs [Hl Hv]. split; [by rewrite length_imap|]. apply Forall_forall. intros x Hx.
  apply list_elem_of_lookup in Hx as [i Hi]. rewrite list_lookup_imap in Hi.
  apply fmap_Some in Hi as (y & Hy & ->). apply (Forall_lookup_1 _ _ _ _ Hv) in Hy as (? & ? & ? & ?).
  split_and!; simpl; try done; destruct (i =? k)%nat; try apply Hs; split; done.
Qed.

Lemma codec_members_rt `{Target} :
  RoundTrips codec_members (λ m, signed 32 m.1 ∧ vec_ok txin_ok m.2.1 ∧ vec_ok txout_ok m.2.2.1 ∧ word 32 m.2.2.2).
Proof.
  enough (Canonical codec_members (λ m, signed 32 m.1 ∧ vec_ok txin_ok m.2.1 ∧ vec_ok txout_ok m.2.2.1 ∧
    word 32 m.2.2.2)) as K by apply K.
  eapply canonical_iff.
  - apply codec_pair_canonical; [apply _|].
    apply codec_pair_canonical; [apply codec_vec_canonical; [apply sizeof_CTxIn_ok|apply _]|].
    apply codec_pair_canonical; [apply codec_vec_canonical; [apply sizeof_CTxOut_ok|apply _]|apply _].
  - done.
Qed.

(** Two messages that sign everything determine the modified transactions. *)
Lemma signed_message_members s1 s2 tx1 tx2 k1 k2 t1 t2 :
  vec_ok byte s1 → vec_ok byte s2 → whole s1 → whole s2 → members_ok tx1 → members_ok tx2 →
  (k1 < length (vin tx1))%nat → (k2 < length (vin tx2))%nat → signs_all t1 → signs_all t2 →
  signed_message s1 tx1 k1 t1 = signed_message s2 tx2 k2 t2 →
  original_members (FindAndDelete s1 [OP_CODESEPARATOR]).2 tx1 k1 t1 =
  original_members (FindAndDelete s2 [OP_CODESEPARATOR]).2 tx2 k2 t2.
Proof.
  assert (∀ s tx k t, vec_ok byte s → whole s → members_ok tx → (k < length (vin tx))%nat → signs_all t →
    let m := original_members (FindAndDelete s [OP_CODESEPARATOR]).2 tx k t in
    Unserialize (@codec_members lp64) (signed_message s tx k t) = Ok m (Serialize codec_i32 t)) as H.
  { intros s tx k t [Hl Hb] Hw (Hv & Hin & Hout & Hlt) Hk Ht m.
    assert (vec_ok byte (FindAndDelete s [OP_CODESEPARATOR]).2) as Hs'.
    { pose proof (FindAndDelete_deletes s [OP_CODESEPARATOR] ltac:(done)) as Hd.
      destruct (deletes_count _ _ _ _ Hd) as (? & Hsz & _). unfold size in Hsz. cbn [length] in Hsz.
      split; [lia|by eapply deletes_Forall]. }
    unfold signed_message. rewrite (Serialize_signature_modified tx s k t); [| |done|].
    - fold m. destruct m as [v [ins [outs l]]] eqn:Em.
      replace (Serialize codec_i32 v ++ _) with (Serialize (@codec_members lp64) (v, (ins, (outs, l)))) by done.
      pose proof (@codec_members_rt lp64) as Hrt. apply rt_read. subst m.
      rewrite (original_members_all _ tx k t Ht) in Em. injection Em as <- <- <- <-. simpl.
      split_and!; try done. by apply signed_ins_ok.
    - apply SerializeScriptCode_deletes; [done|]. unfold size, MAX_SIZE in *. lia.
    - destruct Ht as (_ & Ht & _). by rewrite (proj2 (Z.eqb_neq _ _) Ht). }
  intros ? ? ? ? ? ? ? ? ? ? E.
  assert (Ok (A := Z * (list CTxIn * (list CTxOut * Z))) (original_members (FindAndDelete s1 [OP_CODESEPARATOR]).2 tx1 k1 t1) (Serialize codec_i32 t1) =
    Ok (original_members (FindAndDelete s2 [OP_CODESEPARATOR]).2 tx2 k2 t2) (Serialize codec_i32 t2)) as K.
  { rewrite <- !H by done. by rewrite E. }
  congruence.
Qed.

Lemma map_set_script {B} (g : CTxIn → B) h l :
  (∀ s x, g (set_script s x) = g x) → map g (imap (λ i x, set_script (h i) x) l) = map g l.
Proof.
  intros Hg. revert h. induction l as [|x l IH]; intros h; [done|]. simpl. rewrite Hg. f_equal. apply (IH (h ∘ S)).
Qed.

(** Blanked inputs are equal only for the same outpoints, sequences and position. *)
Lemma signed_ins_inj (c1 c2 : CScript) (k1 k2 : nat) (l1 l2 : list CTxIn) :
  (k1 < length l1)%nat → (k2 < length l2)%nat →
  imap (λ i x, set_script (if (i =? k1)%nat then c1 else []) x) l1 =
  imap (λ i x, set_script (if (i =? k2)%nat then c2 else []) x) l2 →
  map prevout l1 = map prevout l2 ∧ map nSequence l1 = map nSequence l2 ∧
  c1 = c2 ∧ (c1 ≠ [] → k1 = k2).
Proof.
  intros Hk1 Hk2 Ei.
  assert (∀ B (g : CTxIn → B), (∀ s x, g (set_script s x) = g x) → map g l1 = map g l2) as Hmap.
  { intros B g Hg. rewrite <- (map_set_script g (λ i, if (i =? k1)%nat then c1 else []) l1), Ei by done.
    by apply (map_set_script g (λ i, if (i =? k2)%nat then c2 else [])). }
  split; [by apply Hmap|]. split; [by apply Hmap|].
  assert (length l1 = length l2) as L.
  { rewrite <- (length_map prevout l1), (Hmap _ prevout) by done. apply length_map. }
  assert (∀ i, (i < length l1)%nat →
    (if (i =? k1)%nat then c1 else []) = (if (i =? k2)%nat then c2 else [])) as H.
  { intros i Hi. assert (∀ l g, (i < length l)%nat →
      scriptSig (nth i (imap (λ i x, set_script (g i) x) l) NullTxIn) = g i) as K.
    { intros l g Hl. by rewrite (nth_imap _ _ _ _ NullTxIn Hl). }
    rewrite <- (K l1 (λ i, if (i =? k1)%nat then c1 else [])) by done.
    rewrite Ei. apply (K l2 (λ i, if (i =? k2)%nat then c2 else [])). lia. }
  pose proof (H k1 Hk1) as A. pose proof (H k2 ltac:(lia)) as B.
  rewrite Nat.eqb_refl in A, B. destruct (Nat.eqb_spec k1 k2) as [->|Hne]; [done|].
  rewrite (proj2 (Nat.eqb_neq k2 k1)) in B by done. split; [congruence|done].
Qed.

(** C32: a legacy signature of type [SIGHASH_ALL] commits to the whole spend.  If
    two transactions in range, with inputs and script codes to sign, give the same
    signed bytes, then they have the same version, lock time and outputs, spend
    the same outpoints with the same sequence numbers in the same order, and sign
    the same script code up to code separators at the same input (unless that code
    is empty). *)
Theorem sighash_all_commits s1 s2 tx1 tx2 k1 k2 t1 t2 :
  vec_ok byte s1 → vec_ok byte s2 → whole s1 → whole s2 → members_ok tx1 → members_ok tx2 →
  (k1 < length (vin tx1))%nat → (k2 < length (vin tx2))%nat → signs_all t1 → signs_all t2 →
  signed_message s1 tx1 k1 t1 = signed_message s2 tx2 k2 t2 →
  nVersion tx1 = nVersion tx2 ∧ nLockTime tx1 = nLockTime tx2 ∧ vout tx1 = vout tx2 ∧
  map prevout (vin tx1) = map prevout (vin tx2) ∧ map nSequence (vin tx1) = map nSequence (vin tx2) ∧
  let code s := (FindAndDelete s [OP_CODESEPARATOR]).2 in
  code s1 = code s2 ∧ (code s1 ≠ [] → k1 = k2).
Proof.
  intros Hs1 Hs2 Hw1 Hw2 Hm1 Hm2 Hk1 Hk2 Ht1 Ht2 E.
  apply signed_message_members in E; try done. rewrite !original_members_all in E by done.
  revert E. cbv beta zeta. generalize (FindAndDelete s1 [OP_CODESEPARATOR]).2, (FindAndDelete s2 [OP_CODESEPARATOR]).2.
  intros c1 c2 E. injection E as Ev Ei Eo El.
  destruct (signed_ins_inj c1 c2 k1 k2 _ _ Hk1 Hk2 Ei) as (? & ? & ? & ?). by split_and!.
Qed.

(** ** Taproot *)

Section Taproot.
  Context (Hash : list Z → Z) (SHA256 : list Z → list Z).
  Context (Verify : list Z → Z → list Z → bool) (VerifySchnorr : list Z → Z → list Z → bool).

(** Without the spent outputs there is nothing to sign. *)
Lemma taproot_message_not_ready tx k t v cache leaf pos :
  spent_ready cache = None → taproot_message SHA256 tx k t v cache leaf pos = None.
Proof using Type.
  intros Hc. unfold taproot_message. rewrite Hc. destruct (length (vin tx) <=? k)%nat; [done|].
  by destruct (u8 _ .& SIGHASH_ANYONECANPAY =? 0).
Qed.

(** C33: a Taproot key signature does not commit to the transaction.  The checkers
    of block and memory-pool validation are given the data the constructor
    precomputes, whose spent outputs are never filled in ([Init] is called from
    tests only); the hash then is the constant [UINT256_ONE] for every
    transaction, input, hash type and script version, so that one and the same
    signature is accepted for all transactions or for none. *)
Theorem taproot_signature_commits_to_nothing tx tx' k k' amount amount' sig key code code' :
  let checker tx k amount :=
    TransactionSignatureChecker Hash SHA256 Verify VerifySchnorr tx k amount
      (Some (PrecomputedTransactionData_new Hash SHA256 tx)) in
  (∀ t v leaf pos,
     SignatureHashTaproot SHA256 tx k t v (Some (PrecomputedTransactionData_new Hash SHA256 tx)) leaf pos =
     UINT256_ONE) ∧
  CheckSig (checker tx k amount) sig key code SIGVERSION_TAPROOT =
  CheckSig (checker tx' k' amount') sig key code' SIGVERSION_TAPROOT.
Proof using Type.
  assert (∀ tx k t v leaf pos,
    SignatureHashTaproot SHA256 tx k t v (Some (PrecomputedTransactionData_new Hash SHA256 tx)) leaf pos =
    UINT256_ONE) as H.
  { intros. unfold SignatureHashTaproot. by rewrite taproot_message_not_ready. }
  split; [apply H|]. simpl. unfold tx_CheckSig. simpl. unfold CheckSig_taproot. by rewrite !H.
Qed.

(** Taproot signatures are malleable.  The default hash type is replaced by
    [SIGHASH_ALL] before it is hashed, so that a 64-byte signature, the same
    signature with an explicit type [SIGHASH_ALL] and the same with an explicit
    zero type are accepted or refused together, whatever the transaction and its
    precomputed data. *)
Theorem taproot_default_type_malleable tx k cache leaf pos sig key v :
  size sig = 64 →
  let check s := CheckSig_taproot SHA256 VerifySchnorr tx k cache leaf pos s key v in
  check (sig ++ [SIGHASH_ALL]) = check sig ∧ check (sig ++ [0]) = check sig.
Proof using Type.
  intros Hs. unfold CheckSig_taproot. rewrite !size_app, Hs. cbn [size length Z.of_nat Z.add Z.eqb].
  rewrite !back_snoc, !removelast_last. done.
Qed.
End Taproot.

(** ** Witnesses *)

(** Two versions of one transaction that differ in their input scripts only. *)
Definition demo_spend (sig : CScript) : CTransaction :=
  MkTransaction 1 [MkTxIn (MkOutPoint 7 0) sig 5 []; MkTxIn (MkOutPoint 7 1) sig 6 []]
    [NewTxOut 50 [OP_1]; NewTxOut 3 [OP_DUP; OP_CHECKSIG]] 9 0.

Definition demo_code : CScript := [OP_CODESEPARATOR; 2; 5; 0xab; OP_CODESEPARATOR; OP_CHECKSIG].

Lemma signature_hash_is_original_witness :
  SignatureHash demo_hash demo_code (demo_spend []) 1 SIGHASH_SINGLE 0 SIGVERSION_BASE None =
  SignatureHashOld demo_hash demo_code (demo_spend []) 1 SIGHASH_SINGLE ∧
  (FindAndDelete demo_code [OP_CODESEPARATOR]).2 = [2; 5; 0xab; OP_CHECKSIG].
Proof.
  split; [|by vm_compute]. apply signature_hash_is_original; [|by vm_compute].
  eexists. vm_compute. reflexivity.
Defined.

Lemma demo_members_ok sig : vec_ok byte sig → members_ok (demo_spend sig).
Proof.
  intros Hs. split; [by vm_compute|]. split; [|split; [|by vm_compute]].
  - split; [by vm_compute|]. repeat (apply Forall_cons; split); try apply Forall_nil_2;
      (split; [by vm_compute|]; split; [done|by vm_compute]).
  - split; [by vm_compute|]. repeat (apply Forall_cons; split); try apply Forall_nil_2;
      (split; [by vm_compute|]; split; [|done]; split; [by vm_compute|]; by repeat constructor).
Qed.

Lemma sighash_all_commits_witness :
  let code s := (FindAndDelete s [OP_CODESEPARATOR]).2 in
  code demo_code = code [2; 5; 0xab; OP_CHECKSIG].
Proof.
  apply (sighash_all_commits demo_code [2; 5; 0xab; OP_CHECKSIG] (demo_spend [1; 2]) (demo_spend [])
    1 1 SIGHASH_ALL SIGHASH_ALL).
  - split; [by vm_compute|by repeat constructor].
  - split; [by vm_compute|by repeat constructor].
  - eexists. vm_compute. reflexivity.
  - eexists. vm_compute. reflexivity.
  - apply demo_members_ok. split; [by vm_compute|by repeat constructor].
  - apply demo_members_ok. split; [by vm_compute|done].
  - simpl. lia.
  - simpl. lia.
  - done.
  - done.
  - vm_compute. reflexivity.
Defined.

Lemma taproot_default_type_malleable_witness :
  let sig := replicate 64 7 in
  let check s := CheckSig_taproot (λ bs, replicate 32 0) (λ _ m s, (size s =? 64) && negb (m =? 1))
    (demo_spend []) 0 (Some (Init (λ _, []) (PrecomputedTransactionData_new (λ _, 0) (λ _, []) (demo_spend []))
       [NewTxOut 1 []; NewTxOut 2 []])) None 0 s (replicate 32 2) SIGVERSION_TAPROOT in
  check (sig ++ [SIGHASH_ALL]) = true ∧ check sig = true.
Proof.
  intros sig check.
  pose proof (taproot_default_type_malleable (λ bs, replicate 32 0) (λ _ m s, (size s =? 64) && negb (m =? 1))
    (demo_spend []) 0 (Some (Init (λ _, []) (PrecomputedTransactionData_new (λ _, 0) (λ _, []) (demo_spend []))
       [NewTxOut 1 []; NewTxOut 2 []])) None 0 sig (replicate 32 2) SIGVERSION_TAPROOT eq_refl) as [H _].
  assert (check sig = true) as Hs by (by vm_compute). split; [|exact Hs]. unfold check in Hs |- *. by rewrite H.
Defined.
