(* ===== verification/Interpreter.v ===== *)
(** * The script interpreter

    [src/src/script/interpreter.cpp]: the encodings of signatures, keys and pushes,
    [EvalScript] with all its opcodes and limits, and [VerifyScript] with its
    pay-to-script-hash and Taproot branches.

    A stack is a list with its top first, so the comment [(x1 x2 -- x2 x1)] of the
    source is the pattern [x2 :: x1 :: s].  An iterator into the script is the
    suffix it points to.  An error is the code [EvalScript] stores before it returns
    false; what it throws is caught there and becomes
    [SCRIPT_ERR_UNKNOWN_ERROR].

    The hash functions, [CPubKey::CheckLowS] and [CXOnlyPubKey::CheckTapTweak] are
    parameters; the signature checker is the interface of [Sighash]. *)

From S2P Require Import Prelude Ints Serialize Transaction Script Standard Sighash.

Local Open Scope Z_scope.

Abbreviation valtype := (list Z) (only parsing).

Inductive ScriptError :=
  | SCRIPT_ERR_OK | SCRIPT_ERR_UNKNOWN_ERROR | SCRIPT_ERR_EVAL_FALSE | SCRIPT_ERR_OP_RETURN
  | SCRIPT_ERR_SCRIPT_SIZE | SCRIPT_ERR_PUSH_SIZE | SCRIPT_ERR_OP_COUNT | SCRIPT_ERR_STACK_SIZE
  | SCRIPT_ERR_SIG_COUNT | SCRIPT_ERR_PUBKEY_COUNT
  | SCRIPT_ERR_VERIFY | SCRIPT_ERR_EQUALVERIFY | SCRIPT_ERR_CHECKMULTISIGVERIFY
  | SCRIPT_ERR_CHECKSIGVERIFY | SCRIPT_ERR_NUMEQUALVERIFY
  | SCRIPT_ERR_BAD_OPCODE | SCRIPT_ERR_DISABLED_OPCODE | SCRIPT_ERR_INVALID_STACK_OPERATION
  | SCRIPT_ERR_INVALID_ALTSTACK_OPERATION | SCRIPT_ERR_UNBALANCED_CONDITIONAL
  | SCRIPT_ERR_NEGATIVE_LOCKTIME | SCRIPT_ERR_UNSATISFIED_LOCKTIME
  | SCRIPT_ERR_SIG_HASHTYPE | SCRIPT_ERR_SIG_DER | SCRIPT_ERR_MINIMALDATA | SCRIPT_ERR_SIG_PUSHONLY
  | SCRIPT_ERR_SIG_HIGH_S | SCRIPT_ERR_SIG_NULLDUMMY | SCRIPT_ERR_PUBKEYTYPE | SCRIPT_ERR_CLEANSTACK
  | SCRIPT_ERR_SIG_NULLFAIL | SCRIPT_ERR_DISCOURAGE_UPGRADABLE_NOPS.

#[export] Instance ScriptError_eq_dec : EqDecision ScriptError.
Proof. solve_decision. Defined.

(** ** Flags *)

Definition SCRIPT_VERIFY_NONE : Z := 0.
Definition SCRIPT_VERIFY_P2SH : Z := 2 ^ 0.
Definition SCRIPT_VERIFY_STRICTENC : Z := 2 ^ 1.
Definition SCRIPT_VERIFY_DERSIG : Z := 2 ^ 2.
Definition SCRIPT_VERIFY_LOW_S : Z := 2 ^ 3.
Definition SCRIPT_VERIFY_NULLDUMMY : Z := 2 ^ 4.
Definition SCRIPT_VERIFY_SIGPUSHONLY : Z := 2 ^ 5.
Definition SCRIPT_VERIFY_MINIMALDATA : Z := 2 ^ 6.
Definition SCRIPT_VERIFY_DISCOURAGE_UPGRADABLE_NOPS : Z := 2 ^ 7.
Definition SCRIPT_VERIFY_CLEANSTACK : Z := 2 ^ 8.
Definition SCRIPT_VERIFY_CHECKLOCKTIMEVERIFY : Z := 2 ^ 9.
Definition SCRIPT_VERIFY_CHECKSEQUENCEVERIFY : Z := 2 ^ 10.
Definition SCRIPT_VERIFY_NULLFAIL : Z := 2 ^ 14.
Definition SCRIPT_VERIFY_TAPROOT : Z := 2 ^ 15.

(** [flags & f]. *)
Definition has (flags f : Z) : bool := negb (flags .& f =? 0).

(** The flags of [ConnectBlock]. *)
Definition ConnectBlock_flags (fCLTVIsActivated : bool) : Z :=
  let flags := SCRIPT_VERIFY_P2SH .| SCRIPT_VERIFY_DERSIG in
  if fCLTVIsActivated then flags .| SCRIPT_VERIFY_CHECKLOCKTIMEVERIFY else flags.

(** ** Encodings *)

Fixpoint CastToBool (vch : valtype) : bool :=
  match vch with
  | [] => false
  | b :: rest =>
      if negb (b =? 0) then negb ((size rest =? 0) && (b =? 0x80)) else CastToBool rest
  end.

Definition IsCompressedOrUncompressedPubKey (vchPubKey : valtype) : bool :=
  if size vchPubKey <? 33 then false
  else if vchPubKey.[0] =? 0x04 then size vchPubKey =? 65
  else if (vchPubKey.[0] =? 0x02) || (vchPubKey.[0] =? 0x03) then size vchPubKey =? 33
  else false.

Definition IsValidSignatureEncoding (sig : valtype) : bool :=
  if size sig <? 9 then false
  else if 73 <? size sig then false
  else if negb (sig.[0] =? 0x30) then false
  else if negb (sig.[1] =? size sig - 3) then false
  else
    let lenR := sig.[3] in
    if size sig <=? 5 + lenR then false
    else
      let lenS := sig.[Z.to_nat (5 + lenR)] in
      if negb (lenR + lenS + 7 =? size sig) then false
      else if negb (sig.[2] =? 0x02) then false
      else if lenR =? 0 then false
      else if negb (sig.[4] .& 0x80 =? 0) then false
      else if (1 <? lenR) && (sig.[4] =? 0x00) && (sig.[5] .& 0x80 =? 0) then false
      else if negb (sig.[Z.to_nat (lenR + 4)] =? 0x02) then false
      else if lenS =? 0 then false
      else if negb (sig.[Z.to_nat (lenR + 6)] .& 0x80 =? 0) then false
      else if (1 <? lenS) && (sig.[Z.to_nat (lenR + 6)] =? 0x00) && (sig.[Z.to_nat (lenR + 7)] .& 0x80 =? 0) then false
      else true.

Definition IsDefinedHashtypeSignature (vchSig : valtype) : bool :=
  if size vchSig =? 0 then false
  else
    let nHashType := back vchSig .& u8 (Z.lnot SIGHASH_ANYONECANPAY) in
    negb ((nHashType <? SIGHASH_ALL) || (SIGHASH_SINGLE <? nHashType)).

Definition CheckPubKeyEncoding (vchPubKey : valtype) (flags : Z) : ScriptError + unit :=
  if has flags SCRIPT_VERIFY_STRICTENC && negb (IsCompressedOrUncompressedPubKey vchPubKey)
  then inl SCRIPT_ERR_PUBKEYTYPE else inr ().

Definition CheckMinimalPush (data : valtype) (opcode : Z) : bool :=
  if size data =? 0 then opcode =? OP_0
  else if (size data =? 1) && (1 <=? data.[0]) && (data.[0] <=? 16) then opcode =? OP_1 + (data.[0] - 1)
  else if (size data =? 1) && (data.[0] =? 0x81) then opcode =? OP_1NEGATE
  else if size data <=? 75 then opcode =? size data
  else if size data <=? 255 then opcode =? OP_PUSHDATA1
  else if size data <=? 65535 then opcode =? OP_PUSHDATA2
  else true.

(** ** The state of an evaluation *)

Record state := MkState {
  stack : list valtype; altstack : list valtype; vfExec : list bool; nOpCount : Z;
  pbegincodehash : CScript }.

Definition set_stack (s : list valtype) (st : state) : state :=
  MkState s (altstack st) (vfExec st) (nOpCount st) (pbegincodehash st).

Definition set_vfExec (v : list bool) (st : state) : state :=
  MkState (stack st) (altstack st) v (nOpCount st) (pbegincodehash st).

Definition set_nOpCount (k : Z) (st : state) : state :=
  MkState (stack st) (altstack st) (vfExec st) k (pbegincodehash st).

Definition vchFalse : valtype := [].
Definition vchTrue : valtype := [1].
Definition vchBool (b : bool) : valtype := if b then vchTrue else vchFalse.

Abbreviation result A := (ScriptError + A)%type (only parsing).

Definition bindE {A B} (x : result A) (f : A → result B) : result B :=
  match x with inl e => inl e | inr a => f a end.

Notation "x <-? m ;; k" := (bindE m (λ x, k)) (at level 100, m at next level, right associativity).

(** A number read from the stack; an exception of [CScriptNum] is caught. *)
Definition number (vch : valtype) (fRequireMinimal : bool) (nMaxNumSize : Z) : result Z :=
  match CScriptNum vch fRequireMinimal nMaxNumSize with
  | Some n => inr n
  | None => inl SCRIPT_ERR_UNKNOWN_ERROR
  end.

Definition is_disabled (opcode : Z) : bool :=
  existsb (Z.eqb opcode)
    [OP_CAT; OP_SUBSTR; OP_LEFT; OP_RIGHT; OP_INVERT; OP_AND; OP_OR; OP_XOR; OP_2MUL; OP_2DIV; OP_MUL;
     OP_DIV; OP_MOD; OP_LSHIFT; OP_RSHIFT; OP_MLOAD; OP_MSTORE; OP_SLOAD; OP_SSTORE; OP_PUBLISH; OP_RUN;
     OP_UPDATE_STATUS].

(** ** Opcodes that look at the stack only *)

(** The inner switch of the unary numeric opcodes. *)
Definition unary (opcode bn : Z) : option Z :=
  if opcode =? OP_1ADD then Some (bn + 1)
  else if opcode =? OP_1SUB then Some (bn - 1)
  else if opcode =? OP_NEGATE then Some (- bn)
  else if opcode =? OP_ABS then Some (if bn <? 0 then - bn else bn)
  else if opcode =? OP_NOT then Some (Z.b2z (bn =? 0))
  else if opcode =? OP_0NOTEQUAL then Some (Z.b2z (negb (bn =? 0)))
  else None.

(** And of the binary ones. *)
Definition binary (opcode bn1 bn2 : Z) : option Z :=
  if opcode =? OP_ADD then Some (bn1 + bn2)
  else if opcode =? OP_SUB then Some (bn1 - bn2)
  else if opcode =? OP_BOOLAND then Some (Z.b2z (negb (bn1 =? 0) && negb (bn2 =? 0)))
  else if opcode =? OP_BOOLOR then Some (Z.b2z (negb (bn1 =? 0) || negb (bn2 =? 0)))
  else if opcode =? OP_NUMEQUAL then Some (Z.b2z (bn1 =? bn2))
  else if opcode =? OP_NUMEQUALVERIFY then Some (Z.b2z (bn1 =? bn2))
  else if opcode =? OP_NUMNOTEQUAL then Some (Z.b2z (negb (bn1 =? bn2)))
  else if opcode =? OP_LESSTHAN then Some (Z.b2z (bn1 <? bn2))
  else if opcode =? OP_GREATERTHAN then Some (Z.b2z (bn2 <? bn1))
  else if opcode =? OP_LESSTHANOREQUAL then Some (Z.b2z (bn1 <=? bn2))
  else if opcode =? OP_GREATERTHANOREQUAL then Some (Z.b2z (bn2 <=? bn1))
  else if opcode =? OP_MIN then Some (if bn1 <? bn2 then bn1 else bn2)
  else if opcode =? OP_MAX then Some (if bn2 <? bn1 then bn1 else bn2)
  else None.

(** [OP_PICK] and [OP_ROLL] on the stack below the index. *)
Definition pick (opcode n : Z) (s : list valtype) : result (list valtype) :=
  if (n <? 0) || (Z.of_nat (length s) <=? n) then inl SCRIPT_ERR_INVALID_STACK_OPERATION
  else
    let vch := nth (Z.to_nat n) s [] in
    inr (vch :: (if opcode =? OP_ROLL then take (Z.to_nat n) s ++ drop (S (Z.to_nat n)) s else s)).

(** The cases of the switch that change the main stack only; [None] where the
    opcode is not one of them.  First those that drop and copy elements. *)
Definition dup_op (opcode : Z) (s : list valtype) : option (result (list valtype)) :=
  let bad := inl SCRIPT_ERR_INVALID_STACK_OPERATION in
  if opcode =? OP_2DROP then
    Some match s with _ :: _ :: s => inr s | _ => bad end
  else if opcode =? OP_2DUP then
    Some match s with x2 :: x1 :: s => inr (x2 :: x1 :: x2 :: x1 :: s) | _ => bad end
  else if opcode =? OP_3DUP then
    Some match s with x3 :: x2 :: x1 :: s => inr (x3 :: x2 :: x1 :: x3 :: x2 :: x1 :: s) | _ => bad end
  else if opcode =? OP_2OVER then
    Some match s with x4 :: x3 :: x2 :: x1 :: s => inr (x2 :: x1 :: x4 :: x3 :: x2 :: x1 :: s) | _ => bad end
  else if opcode =? OP_2ROT then
    Some match s with
         | x6 :: x5 :: x4 :: x3 :: x2 :: x1 :: s => inr (x2 :: x1 :: x6 :: x5 :: x4 :: x3 :: s)
         | _ => bad end
  else if opcode =? OP_2SWAP then
    Some match s with x4 :: x3 :: x2 :: x1 :: s => inr (x2 :: x1 :: x4 :: x3 :: s) | _ => bad end
  else if opcode =? OP_IFDUP then
    Some match s with x :: s => inr (if CastToBool x then x :: x :: s else x :: s) | _ => bad end
  else if opcode =? OP_DEPTH then Some (inr (serialize (Z.of_nat (length s)) :: s))
  else if opcode =? OP_DROP then
    Some match s with _ :: s => inr s | _ => bad end
  else if opcode =? OP_DUP then
    Some match s with x :: s => inr (x :: x :: s) | _ => bad end
  else if opcode =? OP_NIP then
    Some match s with x2 :: _ :: s => inr (x2 :: s) | _ => bad end
  else if opcode =? OP_OVER then
    Some match s with x2 :: x1 :: s => inr (x1 :: x2 :: x1 :: s) | _ => bad end
  else None.

(** Those that move elements and measure one. *)
Definition move_op (opcode : Z) (fRequireMinimal : bool) (s : list valtype) : option (result (list valtype)) :=
  let bad := inl SCRIPT_ERR_INVALID_STACK_OPERATION in
  if (opcode =? OP_PICK) || (opcode =? OP_ROLL) then
    Some match s with
         | x :: ((_ :: _) as s) => n <-? number x fRequireMinimal nDefaultMaxNumSize;; pick opcode (getint n) s
         | _ => bad end
  else if opcode =? OP_ROT then
    Some match s with x3 :: x2 :: x1 :: s => inr (x1 :: x3 :: x2 :: s) | _ => bad end
  else if opcode =? OP_SWAP then
    Some match s with x2 :: x1 :: s => inr (x1 :: x2 :: s) | _ => bad end
  else if opcode =? OP_TUCK then
    Some match s with x2 :: x1 :: s => inr (x2 :: x1 :: x2 :: s) | _ => bad end
  else if opcode =? OP_SIZE then
    Some match s with x :: s => inr (serialize (size x) :: x :: s) | _ => bad end
  else None.

(** Those that test, and all of them. *)
Definition stack_op (opcode : Z) (fRequireMinimal : bool) (s : list valtype) :
    option (result (list valtype)) :=
  let bad := inl SCRIPT_ERR_INVALID_STACK_OPERATION in
  if opcode =? OP_VERIFY then
    Some match s with x :: s => if CastToBool x then inr s else inl SCRIPT_ERR_VERIFY | _ => bad end
  else if (opcode =? OP_EQUAL) || (opcode =? OP_EQUALVERIFY) then
    Some match s with
         | x2 :: x1 :: s =>
             let fEqual := bool_decide (x1 = x2) in
             if opcode =? OP_EQUALVERIFY then if fEqual then inr s else inl SCRIPT_ERR_EQUALVERIFY
             else inr (vchBool fEqual :: s)
         | _ => bad end
  else if opcode =? OP_WITHIN then
    Some match s with
         | x3 :: x2 :: x1 :: s =>
             bn1 <-? number x1 fRequireMinimal nDefaultMaxNumSize;;
             bn2 <-? number x2 fRequireMinimal nDefaultMaxNumSize;;
             bn3 <-? number x3 fRequireMinimal nDefaultMaxNumSize;;
             inr (vchBool ((bn2 <=? bn1) && (bn1 <? bn3)) :: s)
         | _ => bad end
  else
    match dup_op opcode s with
    | Some r => Some r
    | None => move_op opcode fRequireMinimal s
    end.

(** The numeric opcodes of one and two operands. *)
Definition is_unary (opcode : Z) : bool := match unary opcode 0 with Some _ => true | None => false end.
Definition is_binary (opcode : Z) : bool := match binary opcode 0 0 with Some _ => true | None => false end.

Definition exec_unary (opcode : Z) (fRequireMinimal : bool) (s : list valtype) : result (list valtype) :=
  match s with
  | x :: s =>
      bn <-? number x fRequireMinimal nDefaultMaxNumSize;;
      inr (serialize (default 0 (unary opcode bn)) :: s)
  | _ => inl SCRIPT_ERR_INVALID_STACK_OPERATION
  end.

Definition exec_binary (opcode : Z) (fRequireMinimal : bool) (s : list valtype) : result (list valtype) :=
  match s with
  | x2 :: x1 :: s =>
      bn1 <-? number x1 fRequireMinimal nDefaultMaxNumSize;;
      bn2 <-? number x2 fRequireMinimal nDefaultMaxNumSize;;
      let vch := serialize (default 0 (binary opcode bn1 bn2)) in
      if opcode =? OP_NUMEQUALVERIFY then
        if CastToBool vch then inr s else inl SCRIPT_ERR_NUMEQUALVERIFY
      else inr (vch :: s)
  | _ => inl SCRIPT_ERR_INVALID_STACK_OPERATION
  end.

Section Eval.
  (** [CPubKey::CheckLowS] and the hashes of the crypto opcodes. *)
  Context (CheckLowS : list Z → bool).
  Context (RIPEMD160 SHA1 SHA256 CHash160 CHash256 : list Z → list Z).

Definition IsLowDERSignature (vchSig : valtype) : result unit :=
  if negb (IsValidSignatureEncoding vchSig) then inl SCRIPT_ERR_SIG_DER
  else if negb (CheckLowS (removelast vchSig)) then inl SCRIPT_ERR_SIG_HIGH_S
  else inr ().

Definition CheckSignatureEncoding (vchSig : valtype) (flags : Z) : result unit :=
  if size vchSig =? 0 then inr ()
  else if has flags (SCRIPT_VERIFY_DERSIG .| SCRIPT_VERIFY_LOW_S .| SCRIPT_VERIFY_STRICTENC)
          && negb (IsValidSignatureEncoding vchSig)
  then inl SCRIPT_ERR_SIG_DER
  else
    _ <-? (if has flags SCRIPT_VERIFY_LOW_S then IsLowDERSignature vchSig else inr ());;
    if has flags SCRIPT_VERIFY_STRICTENC && negb (IsDefinedHashtypeSignature vchSig)
    then inl SCRIPT_ERR_SIG_HASHTYPE else inr ().

(** The crypto opcodes of one operand. *)
Definition hash_op (opcode : Z) : option (list Z → list Z) :=
  if opcode =? OP_RIPEMD160 then Some RIPEMD160
  else if opcode =? OP_SHA1 then Some SHA1
  else if opcode =? OP_SHA256 then Some SHA256
  else if opcode =? OP_HASH160 then Some CHash160
  else if opcode =? OP_HASH256 then Some CHash256
  else None.

Section Script.
  Context (flags : Z) (checker : BaseSignatureChecker) (sigversion : SigVersion).

Definition fRequireMinimal : bool := has flags SCRIPT_VERIFY_MINIMALDATA.

(** The encodings of a signature and a key, where they are checked. *)
Definition check_encodings (vchSig vchPubKey : valtype) : result unit :=
  if negb (bool_decide (sigversion = SIGVERSION_TAPSCRIPT)) || negb (size vchPubKey =? 32) then
    _ <-? CheckSignatureEncoding vchSig flags;; CheckPubKeyEncoding vchPubKey flags
  else inr ().

Definition exec_locktime (st : state) : result state :=
  if negb (has flags SCRIPT_VERIFY_CHECKLOCKTIMEVERIFY) then
    if has flags SCRIPT_VERIFY_DISCOURAGE_UPGRADABLE_NOPS
    then inl SCRIPT_ERR_DISCOURAGE_UPGRADABLE_NOPS else inr st
  else
    match stack st with
    | [] => inl SCRIPT_ERR_INVALID_STACK_OPERATION
    | x :: _ =>
        nLockTime <-? number x fRequireMinimal 5;;
        if nLockTime <? 0 then inl SCRIPT_ERR_NEGATIVE_LOCKTIME
        else if negb (CheckLockTime checker nLockTime) then inl SCRIPT_ERR_UNSATISFIED_LOCKTIME
        else inr st
    end.

Definition exec_sequence (st : state) : result state :=
  if negb (has flags SCRIPT_VERIFY_CHECKSEQUENCEVERIFY) then inr st
  else
    match stack st with
    | [] => inl SCRIPT_ERR_INVALID_STACK_OPERATION
    | x :: _ =>
        nSequence <-? number x fRequireMinimal 5;;
        if nSequence <? 0 then inl SCRIPT_ERR_NEGATIVE_LOCKTIME
        else if negb (nSequence .& SEQUENCE_LOCKTIME_DISABLE_FLAG =? 0) then inr st
        else if negb (CheckSequence checker nSequence) then inl SCRIPT_ERR_UNSATISFIED_LOCKTIME
        else inr st
    end.

Definition exec_if (fExec : bool) (opcode : Z) (st : state) : result state :=
  if fExec then
    match stack st with
    | [] => inl SCRIPT_ERR_UNBALANCED_CONDITIONAL
    | vch :: s =>
        let fValue := CastToBool vch in
        let fValue := if opcode =? OP_NOTIF then negb fValue else fValue in
        inr (set_vfExec (fValue :: vfExec st) (set_stack s st))
    end
  else inr (set_vfExec (false :: vfExec st) st).

Definition exec_else (st : state) : result state :=
  match vfExec st with
  | [] => inl SCRIPT_ERR_UNBALANCED_CONDITIONAL
  | b :: v => inr (set_vfExec (negb b :: v) st)
  end.

Definition exec_endif (st : state) : result state :=
  match vfExec st with
  | [] => inl SCRIPT_ERR_UNBALANCED_CONDITIONAL
  | _ :: v => inr (set_vfExec v st)
  end.

Definition exec_toaltstack (st : state) : result state :=
  match stack st with
  | [] => inl SCRIPT_ERR_INVALID_STACK_OPERATION
  | x :: s => inr (MkState s (x :: altstack st) (vfExec st) (nOpCount st) (pbegincodehash st))
  end.

Definition exec_fromaltstack (st : state) : result state :=
  match altstack st with
  | [] => inl SCRIPT_ERR_INVALID_ALTSTACK_OPERATION
  | x :: alt => inr (MkState (x :: stack st) alt (vfExec st) (nOpCount st) (pbegincodehash st))
  end.

(** [scriptCode.FindAndDelete(CScript(vchSig))], for the base version only. *)
Definition drop_signature (scriptCode : CScript) (vchSig : valtype) : CScript :=
  if bool_decide (sigversion = SIGVERSION_BASE)
  then (FindAndDelete scriptCode (push_vch [] vchSig)).2 else scriptCode.

Definition exec_checksig (opcode : Z) (st : state) : result state :=
  match stack st with
  | vchPubKey :: vchSig :: s =>
      let scriptCode := drop_signature (pbegincodehash st) vchSig in
      _ <-? check_encodings vchSig vchPubKey;;
      let fSuccess := CheckSig checker vchSig vchPubKey scriptCode sigversion in
      if opcode =? OP_CHECKSIGVERIFY then
        if fSuccess then inr (set_stack s st) else inl SCRIPT_ERR_CHECKSIGVERIFY
      else inr (set_stack (vchBool fSuccess :: s) st)
  | _ => inl SCRIPT_ERR_INVALID_STACK_OPERATION
  end.

Definition exec_checksigadd (st : state) : result state :=
  if negb (bool_decide (sigversion = SIGVERSION_TAPSCRIPT)) then inl SCRIPT_ERR_BAD_OPCODE
  else
    match stack st with
    | vchPubKey :: x :: vchSig :: s =>
        nNum <-? number x fRequireMinimal nDefaultMaxNumSize;;
        let fSuccess := CheckSig checker vchSig vchPubKey (pbegincodehash st) sigversion in
        inr (set_stack (serialize (nNum + (if fSuccess then 1 else 0)) :: s) st)
    | _ => inl SCRIPT_ERR_INVALID_STACK_OPERATION
    end.

(** The loop over keys and signatures: the counters are the lengths of what is
    left. *)
Fixpoint multisig_loop (scriptCode : CScript) (sigs keys : list valtype) : result bool :=
  match sigs, keys with
  | [], _ => inr true
  | _ :: _, [] => inr false
  | vchSig :: sigs', vchPubKey :: keys =>
      _ <-? check_encodings vchSig vchPubKey;;
      let fOk := CheckSig checker vchSig vchPubKey scriptCode sigversion in
      let sigs := if fOk then sigs' else sigs in
      if (length keys <? length sigs)%nat then inr false else multisig_loop scriptCode sigs keys
  end.

(** [while (i-- > 1)]: [i] pops, each with the check of [NULLFAIL]. *)
Fixpoint cleanup (i : nat) (fSuccess : bool) (ikey2 : Z) (s : list valtype) : result (list valtype) :=
  match i, s with
  | O, _ => inr s
  | S i, top :: s =>
      if negb fSuccess && has flags SCRIPT_VERIFY_NULLFAIL && (ikey2 =? 0) && negb (size top =? 0)
      then inl SCRIPT_ERR_SIG_NULLFAIL
      else cleanup i fSuccess (if 0 <? ikey2 then ikey2 - 1 else ikey2) s
  | S _, [] => inl SCRIPT_ERR_UNKNOWN_ERROR
  end.

Definition exec_checkmultisig (opcode : Z) (st : state) : result state :=
  match stack st with
  | [] => inl SCRIPT_ERR_INVALID_STACK_OPERATION
  | x :: below =>
      n <-? number x fRequireMinimal nDefaultMaxNumSize;;
      let nKeysCount := getint n in
      if (nKeysCount <? 0) || (MAX_PUBKEYS_PER_MULTISIG <? nKeysCount) then inl SCRIPT_ERR_PUBKEY_COUNT
      else
        let st := set_nOpCount (nOpCount st + nKeysCount) st in
        if MAX_OPS_PER_SCRIPT <? nOpCount st then inl SCRIPT_ERR_OP_COUNT
        else if Z.of_nat (length (stack st)) <? 2 + nKeysCount then inl SCRIPT_ERR_INVALID_STACK_OPERATION
        else
          let keys := take (Z.to_nat nKeysCount) below in
          let below := drop (Z.to_nat nKeysCount) below in
          m <-? number (hd [] below) fRequireMinimal nDefaultMaxNumSize;;
          let nSigsCount := getint m in
          if (nSigsCount <? 0) || (nKeysCount <? nSigsCount) then inl SCRIPT_ERR_SIG_COUNT
          else
            let i := 3 + nKeysCount + nSigsCount in
            if Z.of_nat (length (stack st)) <? i then inl SCRIPT_ERR_INVALID_STACK_OPERATION
            else
              let sigs := take (Z.to_nat nSigsCount) (drop 1 below) in
              let scriptCode := foldl drop_signature (pbegincodehash st) sigs in
              fSuccess <-? multisig_loop scriptCode sigs keys;;
              s <-? cleanup (Z.to_nat (i - 1)) fSuccess (nKeysCount + 2) (stack st);;
              match s with
              | [] => inl SCRIPT_ERR_INVALID_STACK_OPERATION
              | dummy :: s =>
                  if has flags SCRIPT_VERIFY_NULLDUMMY && negb (size dummy =? 0) then inl SCRIPT_ERR_SIG_NULLDUMMY
                  else if opcode =? OP_CHECKMULTISIGVERIFY then
                    if fSuccess then inr (set_stack s st) else inl SCRIPT_ERR_CHECKMULTISIGVERIFY
                  else inr (set_stack (vchBool fSuccess :: s) st)
              end
  end.

(** The switch.  [pc] is the iterator after the instruction. *)
Definition exec_op (fExec : bool) (opcode : Z) (pc : CScript) (st : state) : result state :=
  if (opcode =? OP_1NEGATE) || ((OP_1 <=? opcode) && (opcode <=? OP_16)) then
    inr (set_stack (serialize (opcode - (OP_1 - 1)) :: stack st) st)
  else if opcode =? OP_NOP then inr st
  else if opcode =? OP_CHECKLOCKTIMEVERIFY then exec_locktime st
  else if opcode =? OP_CHECKSEQUENCEVERIFY then exec_sequence st
  else if (opcode =? OP_NOP1) || ((OP_NOP4 <=? opcode) && (opcode <=? OP_NOP10)) then
    if has flags SCRIPT_VERIFY_DISCOURAGE_UPGRADABLE_NOPS
    then inl SCRIPT_ERR_DISCOURAGE_UPGRADABLE_NOPS else inr st
  else if (opcode =? OP_IF) || (opcode =? OP_NOTIF) then exec_if fExec opcode st
  else if opcode =? OP_ELSE then exec_else st
  else if opcode =? OP_ENDIF then exec_endif st
  else if opcode =? OP_RETURN then inl SCRIPT_ERR_OP_RETURN
  else if opcode =? OP_TOALTSTACK then exec_toaltstack st
  else if opcode =? OP_FROMALTSTACK then exec_fromaltstack st
  else if is_unary opcode then s <-? exec_unary opcode fRequireMinimal (stack st);; inr (set_stack s st)
  else if is_binary opcode then s <-? exec_binary opcode fRequireMinimal (stack st);; inr (set_stack s st)
  else if opcode =? OP_CODESEPARATOR then
    inr (MkState (stack st) (altstack st) (vfExec st) (nOpCount st) pc)
  else if (opcode =? OP_CHECKSIG) || (opcode =? OP_CHECKSIGVERIFY) then exec_checksig opcode st
  else if opcode =? OP_CHECKSIGADD then exec_checksigadd st
  else if (opcode =? OP_CHECKMULTISIG) || (opcode =? OP_CHECKMULTISIGVERIFY) then exec_checkmultisig opcode st
  else
    match hash_op opcode with
    | Some h =>
        match stack st with
        | vch :: s => inr (set_stack (h vch :: s) st)
        | [] => inl SCRIPT_ERR_INVALID_STACK_OPERATION
        end
    | None =>
        match stack_op opcode fRequireMinimal (stack st) with
        | Some r => s <-? r;; inr (set_stack s st)
        | None => inl SCRIPT_ERR_BAD_OPCODE
        end
    end.

(** One turn of the loop. *)
Definition step (pc : CScript) (st : state) : result (CScript * state) :=
  let fExec := forallb id (vfExec st) in
  let r := GetOp2 pc in
  let opcode := opcodeRet r in
  if negb (op_ok r) then inl SCRIPT_ERR_BAD_OPCODE
  else if MAX_SCRIPT_ELEMENT_SIZE <? size (vchRet r) then inl SCRIPT_ERR_PUSH_SIZE
  else
    let st := if OP_16 <? opcode then set_nOpCount (nOpCount st + 1) st else st in
    if (OP_16 <? opcode) && (201 <? nOpCount st) then inl SCRIPT_ERR_OP_COUNT
    else if is_disabled opcode then inl SCRIPT_ERR_DISABLED_OPCODE
    else
      st <-? (if fExec && (0 <=? opcode) && (opcode <=? OP_PUSHDATA4) then
                if fRequireMinimal && negb (CheckMinimalPush (vchRet r) opcode) then inl SCRIPT_ERR_MINIMALDATA
                else inr (set_stack (vchRet r :: stack st) st)
              else if fExec || ((OP_IF <=? opcode) && (opcode <=? OP_ENDIF)) then
                exec_op fExec opcode (pc_next r) st
              else inr st);;
      if 1000 <? Z.of_nat (length (stack st) + length (altstack st)) then inl SCRIPT_ERR_STACK_SIZE
      else inr (pc_next r, st).

(** [while (pc < pend)], with the length of the script as fuel. *)
Fixpoint eval_loop (fuel : nat) (pc : CScript) (st : state) : result state :=
  match pc with
  | [] => inr st
  | _ =>
      match fuel with
      | O => inl SCRIPT_ERR_UNKNOWN_ERROR
      | S fuel =>
          match step pc st with
          | inl e => inl e
          | inr (pc, st) => eval_loop fuel pc st
          end
      end
  end.

Definition EvalScript (s : list valtype) (script : CScript) : result (list valtype) :=
  if MAX_SCRIPT_SIZE <? size script then inl SCRIPT_ERR_SCRIPT_SIZE
  else
    st <-? eval_loop (length script) script (MkState s [] [] 0 script);;
    match vfExec st with
    | [] => inr (stack st)
    | _ => inl SCRIPT_ERR_UNBALANCED_CONDITIONAL
    end.
End Script.

(** [VerifyScript]; [None] is the failure of its assertion. *)
Section Verify.
  (** [CXOnlyPubKey::CheckTapTweak]: output key, internal key, root, parity; and
      the parameters of the checkers. *)
  Context (CheckTapTweak : list Z → list Z → Z → bool → bool).
  Context (Hash : list Z → Z) (VerifyECDSA VerifySchnorr : list Z → Z → list Z → bool).

Definition is_taproot (scriptPubKey : CScript) : bool :=
  (size scriptPubKey =? 34) && (scriptPubKey.[0] =? OP_1) && (scriptPubKey.[1] =? 32).

(** What a final stack says. *)
Definition stack_true (s : list valtype) : ScriptError :=
  match s with
  | [] => SCRIPT_ERR_EVAL_FALSE
  | top :: _ => if CastToBool top then SCRIPT_ERR_OK else SCRIPT_ERR_EVAL_FALSE
  end.

(** The script path of Taproot. *)
Definition VerifyScript_leaf (flags : Z) (checker : BaseSignatureChecker) (Q control_block leaf_script : valtype)
    (s : list valtype) : ScriptError :=
  if (size control_block <? 33) || negb ((size control_block - 33) mod 32 =? 0)
  then SCRIPT_ERR_INVALID_STACK_OPERATION
  else
    let leaf_version := control_block.[0] .& 0xfe in
    if negb (leaf_version =? 0xc0) then SCRIPT_ERR_BAD_OPCODE
    else
      let P := take 32 (drop 1 control_block) in
      let leaf_hash := ComputeTapLeafHash SHA256 leaf_version leaf_script in
      let merkle_root := DeriveTaprootMerkleRoot SHA256 control_block leaf_hash in
      let parity := negb (control_block.[0] .& 1 =? 0) in
      if negb (CheckTapTweak Q P merkle_root parity) then SCRIPT_ERR_EVAL_FALSE
      else
        match GetTx checker, GetPrecomputedData checker with
        | Some tx, Some precom =>
            let tapscript_checker :=
              TapscriptSignatureChecker Hash SHA256 VerifyECDSA VerifySchnorr tx (GetIn checker) (GetAmount checker)
                precom leaf_hash 0xffffffff in
            match EvalScript flags tapscript_checker SIGVERSION_TAPSCRIPT s leaf_script with
            | inl e => e
            | inr s => stack_true s
            end
        | _, _ => SCRIPT_ERR_UNKNOWN_ERROR
        end.

Definition VerifyScript_taproot (flags : Z) (checker : BaseSignatureChecker) (scriptSig scriptPubKey : CScript) :
    ScriptError :=
  if negb (IsPushOnly scriptSig) then SCRIPT_ERR_SIG_PUSHONLY
  else
    match EvalScript flags checker SIGVERSION_BASE [] scriptSig with
    | inl e => e
    | inr [] => SCRIPT_ERR_INVALID_STACK_OPERATION
    | inr [sig] =>
        if negb (CheckSig checker sig (drop 2 scriptPubKey) [] SIGVERSION_TAPROOT) then SCRIPT_ERR_EVAL_FALSE
        else SCRIPT_ERR_OK
    | inr (control_block :: leaf_script :: s) =>
        VerifyScript_leaf flags checker (drop 2 scriptPubKey) control_block leaf_script s
    end.

(** The additional validation of pay to script hash. *)
Definition VerifyScript_p2sh (flags : Z) (checker : BaseSignatureChecker) (scriptSig : CScript)
    (stackCopy : list valtype) : option ScriptError :=
  if negb (IsPushOnly scriptSig) then Some SCRIPT_ERR_SIG_PUSHONLY
  else
    match stackCopy with
    | [] => None
    | pubKeySerialized :: stackCopy =>
        match EvalScript flags checker SIGVERSION_BASE stackCopy pubKeySerialized with
        | inl e => Some e
        | inr s => Some (stack_true s)
        end
    end.

Definition VerifyScript (scriptSig scriptPubKey : CScript) (flags : Z) (checker : BaseSignatureChecker) :
    option ScriptError :=
  if has flags SCRIPT_VERIFY_TAPROOT && is_taproot scriptPubKey
  then Some (VerifyScript_taproot flags checker scriptSig scriptPubKey)
  else if has flags SCRIPT_VERIFY_SIGPUSHONLY && negb (IsPushOnly scriptSig) then Some SCRIPT_ERR_SIG_PUSHONLY
  else
    match EvalScript flags checker SIGVERSION_BASE [] scriptSig with
    | inl e => Some e
    | inr s1 =>
        match EvalScript flags checker SIGVERSION_BASE s1 scriptPubKey with
        | inl e => Some e
        | inr s2 =>
            if bool_decide (stack_true s2 = SCRIPT_ERR_OK) then
              if has flags SCRIPT_VERIFY_P2SH && IsPayToScriptHash scriptPubKey
              then VerifyScript_p2sh flags checker scriptSig s1
              else Some SCRIPT_ERR_OK
            else Some SCRIPT_ERR_EVAL_FALSE
        end
    end.
End Verify.
End Eval.

(** ** What the stack may hold *)

(** A stack element: bytes, at most 520 of them. *)
Definition elem_ok (v : valtype) : Prop := Forall byte v ∧ size v ≤ MAX_SCRIPT_ELEMENT_SIZE.

(** A stack a script may start on or leave. *)
Definition stack_ok (s : list valtype) : Prop := Forall elem_ok s ∧ Z.of_nat (length s) ≤ 1000.

Definition elems_ok (st : state) : Prop := Forall elem_ok (stack st) ∧ Forall elem_ok (altstack st).

(** The resources of an evaluation between two turns of the loop. *)
Definition state_ok (st : state) : Prop :=
  elems_ok st ∧ 0 ≤ nOpCount st ≤ MAX_OPS_PER_SCRIPT ∧
  Z.of_nat (length (vfExec st)) ≤ nOpCount st ∧
  Z.of_nat (length (stack st) + length (altstack st)) ≤ 1000 ∧ Forall byte (pbegincodehash st).

Lemma length_abs_bytes fuel a : (length (abs_bytes fuel a) ≤ fuel)%nat.
Proof.
  revert a. induction fuel as [|fuel IH]; intros a; simpl; [lia|]. destruct (a =? 0); simpl; [lia|].
  specialize (IH (a >> 8)). lia.
Qed.

Lemma length_map_back f l : length (map_back f l) = length l.
Proof. induction l as [|x [|y l] IH]; [done..|]. cbn [map_back length] in *. by rewrite IH. Qed.

Lemma serialize_elem n : - 2 ^ 63 ≤ n < 2 ^ 63 → elem_ok (serialize n).
Proof.
  intros Hn. split; [by apply serialize_bytes|]. unfold serialize, MAX_SCRIPT_ELEMENT_SIZE, size.
  destruct (n =? 0); [simpl; lia|].
  set (a := if n <? 0 then _ else _). pose proof (length_abs_bytes 8 a).
  destruct (negb _); [rewrite length_app; cbn [length]; lia|].
  destruct (n <? 0); [rewrite length_map_back|]; lia.
Qed.

Lemma vchBool_elem b : elem_ok (vchBool b).
Proof. destruct b; split; by repeat constructor. Qed.

(** Operands of four or five bytes are small, so that no result leaves 64 bits. *)
Lemma number_range v m k n :
  Forall byte v → 0 ≤ k ≤ 5 → number v m k = inr n → - 2 ^ 40 < n < 2 ^ 40.
Proof.
  intros Hv Hk. unfold number, CScriptNum. destruct (Z.ltb_spec k (size v)) as [|Hs]; [done|].
  destruct (m && _); [done|]. intros [= <-].
  destruct v as [|b l _] using rev_ind; [by vm_compute|].
  apply Forall_app in Hv as [Hl Hb%Forall_inv]. unfold size in Hs. rewrite length_app in Hs. simpl in Hs.
  rewrite set_vch_snoc by (done || unfold size; lia). rewrite !le_dec_snoc.
  pose proof (le_dec_word l Hl) as Hw. unfold word in Hw. destruct Hb as [Hb0 Hb1].
  assert (2 ^ (8 * Z.of_nat (length l)) ≤ 2 ^ 32) by (apply Z.pow_le_mono_r; lia).
  change (2 ^ 8) with 256 in Hb1. change (2 ^ 32) with 4294967296 in *. change (2 ^ 40) with 1099511627776.
  destruct (Z.ltb_spec b 128); nia.
Qed.

#[local] Hint Resolve serialize_elem vchBool_elem : core.

Lemma pick_ok opcode n s s' : Forall elem_ok s → pick opcode n s = inr s' → Forall elem_ok s'.
Proof.
  intros Hs. unfold pick. destruct (_ || _) eqn:E; [done|]. intros [= <-].
  apply orb_false_iff in E as [H0%Z.ltb_ge H1%Z.leb_gt]. apply Forall_cons. split.
  - apply (proj1 (Forall_nth _ _ _) Hs). lia.
  - destruct (opcode =? OP_ROLL); [|done]. apply Forall_app.
    split; [by apply Forall_take|by apply Forall_drop].
Qed.

(** Splits what a case has matched and rebuilds the stack it leaves. *)
Ltac stack_cases :=
  repeat match goal with
  | H : Forall elem_ok (_ :: _) |- _ => apply Forall_cons in H as [? ?]
  | H : Some _ = Some _ |- _ => injection H as H
  | H : inr _ = inr _ |- _ => injection H as H
  | H : inl _ = inr _ |- _ => discriminate H
  | H : None = Some _ |- _ => discriminate H
  end; subst; repeat (apply Forall_cons; split); auto.

Lemma size_elem v : elem_ok v → elem_ok (serialize (size v)).
Proof. intros [_ H]. apply serialize_elem. unfold MAX_SCRIPT_ELEMENT_SIZE, size in *. lia. Qed.

#[local] Hint Resolve size_elem pick_ok : core.

Lemma dup_op_ok opcode s s' :
  Forall elem_ok s → Z.of_nat (length s) ≤ 1000 → dup_op opcode s = Some (inr s') → Forall elem_ok s'.
Proof.
  intros Hs Hl. assert (elem_ok (serialize (Z.of_nat (length s)))) by (apply serialize_elem; lia).
  unfold dup_op. repeat case_match; intros; stack_cases; eauto.
Qed.

Lemma move_op_ok opcode m s s' : Forall elem_ok s → move_op opcode m s = Some (inr s') → Forall elem_ok s'.
Proof.
  intros Hs. unfold move_op, bindE. repeat case_match; intros; stack_cases; eauto.
Qed.

Lemma stack_op_ok opcode m s r s' :
  Forall elem_ok s → Z.of_nat (length s) ≤ 1000 → stack_op opcode m s = Some r → r = inr s' → Forall elem_ok s'.
Proof.
  intros Hs Hl. unfold stack_op, bindE. intros Hr ->. revert Hr.
  destruct (dup_op opcode s) as [r|] eqn:Ed; [|destruct (move_op opcode m s) as [r|] eqn:Em];
    repeat case_match; intros; simplify_eq; eauto using dup_op_ok, move_op_ok; stack_cases; eauto.
Qed.

(** ** The resource invariant *)

Section Invariant.
  Context (CheckLowS : list Z → bool).
  Context (RIPEMD160 SHA1 SHA256 CHash160 CHash256 : list Z → list Z).
  Context (flags : Z) (checker : BaseSignatureChecker) (sigversion : SigVersion).

(** A digest is a string of at most 520 bytes: 20 or 32. *)
Definition digests (h : list Z → list Z) : Prop := ∀ v, elem_ok (h v).

  Context (Hhash : Forall digests [RIPEMD160; SHA1; SHA256; CHash160; CHash256]).

Local Abbreviation exec := (exec_op CheckLowS RIPEMD160 SHA1 SHA256 CHash160 CHash256 flags checker sigversion).
Local Abbreviation turn := (step CheckLowS RIPEMD160 SHA1 SHA256 CHash160 CHash256 flags checker sigversion).
Local Abbreviation loop := (eval_loop CheckLowS RIPEMD160 SHA1 SHA256 CHash160 CHash256 flags checker sigversion).

(** What an opcode may do to a state. *)
Definition op_ok_step (st st' : state) : Prop :=
  elems_ok st' ∧ nOpCount st ≤ nOpCount st' ∧ (nOpCount st ≤ 201 → nOpCount st' ≤ 201) ∧
  (length (vfExec st') ≤ length (vfExec st))%nat ∧ Forall byte (pbegincodehash st').

Lemma set_stack_step s st :
  elems_ok st → Forall byte (pbegincodehash st) → Forall elem_ok s → op_ok_step st (set_stack s st).
Proof using Type. intros [? ?] ? ?. by repeat split. Qed.

Lemma same_step st : elems_ok st → Forall byte (pbegincodehash st) → op_ok_step st st.
Proof using Type. intros [? ?] ?. by repeat split. Qed.

Lemma unary_elem opcode n : - 2 ^ 40 < n < 2 ^ 40 → elem_ok (serialize (default 0 (unary opcode n))).
Proof using Type.
  intros Hn. apply serialize_elem. unfold unary.
  assert (∀ b, - 2 ^ 63 ≤ Z.b2z b < 2 ^ 63) by (intros []; simpl; lia).
  repeat case_match; simpl; auto; lia.
Qed.

Lemma binary_elem opcode n1 n2 :
  - 2 ^ 40 < n1 < 2 ^ 40 → - 2 ^ 40 < n2 < 2 ^ 40 → elem_ok (serialize (default 0 (binary opcode n1 n2))).
Proof using Type.
  intros Hn1 Hn2. apply serialize_elem. unfold binary.
  assert (∀ b, - 2 ^ 63 ≤ Z.b2z b < 2 ^ 63) by (intros []; simpl; lia).
  repeat case_match; simpl; auto; lia.
Qed.

Lemma exec_unary_ok opcode m s s' : Forall elem_ok s → exec_unary opcode m s = inr s' → Forall elem_ok s'.
Proof using Type.
  intros Hs. destruct s as [|x s]; [done|]. apply Forall_cons in Hs as [[Hx _] Hs]. simpl. unfold bindE.
  destruct (number x m nDefaultMaxNumSize) as [|n] eqn:En; [done|]. intros [= <-].
  apply Forall_cons. split; [|done]. apply unary_elem. eapply (number_range x m 4); [done|lia|exact En].
Qed.

Lemma exec_binary_ok opcode m s s' : Forall elem_ok s → exec_binary opcode m s = inr s' → Forall elem_ok s'.
Proof using Type.
  intros Hs. destruct s as [|x2 [|x1 s]]; [done..|].
  apply Forall_cons in Hs as [[Hx2 _] Hs]. apply Forall_cons in Hs as [[Hx1 _] Hs]. simpl. unfold bindE.
  destruct (number x1 m nDefaultMaxNumSize) as [|n1] eqn:E1; [done|].
  destruct (number x2 m nDefaultMaxNumSize) as [|n2] eqn:E2; [done|].
  assert (elem_ok (serialize (default 0 (binary opcode n1 n2)))).
  { apply binary_elem; (eapply (number_range _ m 4); [|lia|eassumption]); done. }
  repeat case_match; intros; stack_cases.
Qed.

Lemma cleanup_drop i f k s s' : cleanup flags i f k s = inr s' → s' = drop i s.
Proof using Type.
  revert k s. induction i as [|i IH]; intros k s; [by intros [= <-]|]. destruct s as [|x s]; [done|]. simpl.
  destruct (_ && negb (size x =? 0)); [done|]. apply IH.
Qed.

Lemma exec_checkmultisig_ok opcode st st' :
  elems_ok st → Forall byte (pbegincodehash st) →
  exec_checkmultisig CheckLowS flags checker sigversion opcode st = inr st' → op_ok_step st st'.
Proof using Type.
  intros [Hs Ha] Hb. unfold exec_checkmultisig, bindE. destruct (stack st) as [|x s] eqn:Est; [done|].
  destruct (number x _ _) as [|n]; [done|].
  destruct (_ || _) eqn:Ek; [done|]. apply orb_false_iff in Ek as [H0%Z.ltb_ge _].
  cbn [set_nOpCount nOpCount stack]. destruct (Z.ltb_spec MAX_OPS_PER_SCRIPT (nOpCount st + getint n)) as [|Hop]; [done|].
  unfold MAX_OPS_PER_SCRIPT in Hop. destruct (_ <? _); [done|].
  destruct (number (hd [] _) _ _) as [|m]; [done|]. destruct (_ || _); [done|]. destruct (_ <? _); [done|].
  destruct (multisig_loop _ _ _ _ _ _ _) as [|ok]; [done|].
  destruct (cleanup _ _ _ _ _) as [|s1] eqn:Ec; [done|]. apply cleanup_drop in Ec.
  assert (Forall elem_ok s1) as Hs1 by (subst s1; rewrite Est; by apply Forall_drop).
  destruct s1 as [|d s1]; [done|]. apply Forall_cons in Hs1 as [_ Hs1].
  assert (∀ s2, Forall elem_ok s2 → op_ok_step st (set_stack s2 (set_nOpCount (nOpCount st + getint n) st))) as K.
  { intros s2 Hs2. unfold op_ok_step, elems_ok. simpl. split; [done|]. split; [lia|]. split; [lia|]. done. }
  destruct (_ && negb (size d =? 0)); [done|].
  repeat case_match; intros [= <-]; apply K; stack_cases.
Qed.

Lemma exec_checksig_ok opcode st st' :
  elems_ok st → Forall byte (pbegincodehash st) →
  exec_checksig CheckLowS flags checker sigversion opcode st = inr st' → op_ok_step st st'.
Proof using Type.
  intros Hst Hb. pose proof Hst as [Hs _]. unfold exec_checksig, bindE.
  destruct (stack st) as [|k [|sig s]]; [done..|]. destruct (check_encodings _ _ _ _ _); [done|].
  repeat case_match; intros [= <-]; apply set_stack_step; try done; stack_cases.
Qed.

Lemma exec_checksigadd_ok st st' :
  elems_ok st → Forall byte (pbegincodehash st) →
  exec_checksigadd flags checker sigversion st = inr st' → op_ok_step st st'.
Proof using Type.
  intros Hst Hb. pose proof Hst as [Hs _]. unfold exec_checksigadd, bindE.
  destruct (negb _); [done|]. destruct (stack st) as [|k [|x [|sig s]]]; [done..|].
  destruct (number x _ _) as [|n] eqn:En; [done|]. intros [= <-].
  apply Forall_cons in Hs as [_ Hs]. apply Forall_cons in Hs as [[Hx _] Hs]. apply Forall_cons in Hs as [_ Hs].
  apply set_stack_step; [done|done|]. apply Forall_cons. split; [|done]. apply serialize_elem.
  assert (- 2 ^ 40 < n < 2 ^ 40) by (eapply (number_range x _ 4); [done|lia|exact En]).
  destruct (CheckSig _ _ _ _ _); lia.
Qed.

Lemma exec_locktime_ok st st' : exec_locktime flags checker st = inr st' → st' = st.
Proof using Type. unfold exec_locktime, bindE. repeat case_match; congruence. Qed.

Lemma exec_sequence_ok st st' : exec_sequence flags checker st = inr st' → st' = st.
Proof using Type. unfold exec_sequence, bindE. repeat case_match; congruence. Qed.

(** The conditionals change [vfExec], the two transfers move one element. *)
Lemma exec_if_ok fExec opcode st st' :
  elems_ok st → Forall byte (pbegincodehash st) → exec_if fExec opcode st = inr st' →
  elems_ok st' ∧ nOpCount st' = nOpCount st ∧ length (vfExec st') = S (length (vfExec st)) ∧
  Forall byte (pbegincodehash st').
Proof using Type.
  intros [Hs Ha] Hb. unfold exec_if. destruct fExec; [|by intros [= <-]].
  destruct (stack st) as [|x s] eqn:E; [done|]. intros [= <-]. apply Forall_cons in Hs as [_ Hs]. done.
Qed.

Lemma exec_else_ok st st' :
  elems_ok st → Forall byte (pbegincodehash st) → exec_else st = inr st' ∨ exec_endif st = inr st' →
  op_ok_step st st'.
Proof using Type.
  intros [Hs Ha] Hb. unfold exec_else, exec_endif.
  destruct (vfExec st) as [|b v] eqn:E; intros [H|H]; try done; injection H as <-;
    unfold op_ok_step, elems_ok; simpl; rewrite E; simpl; split_and!; auto; lia.
Qed.

Lemma exec_altstack_ok st st' :
  elems_ok st → Forall byte (pbegincodehash st) →
  exec_toaltstack st = inr st' ∨ exec_fromaltstack st = inr st' → op_ok_step st st'.
Proof using Type.
  intros [Hs Ha] Hb. unfold exec_toaltstack, exec_fromaltstack. intros [H|H].
  - destruct (stack st) as [|x s] eqn:E; [done|]. injection H as <-. apply Forall_cons in Hs as [? ?].
    unfold op_ok_step, elems_ok. simpl. split_and!; auto; lia.
  - destruct (altstack st) as [|x s] eqn:E; [done|]. injection H as <-. apply Forall_cons in Ha as [? ?].
    unfold op_ok_step, elems_ok. simpl. split_and!; auto; lia.
Qed.

Lemma hash_op_ok opcode h v :
  hash_op RIPEMD160 SHA1 SHA256 CHash160 CHash256 opcode = Some h → elem_ok (h v).
Proof using Hhash.
  rewrite !Forall_cons in Hhash. destruct Hhash as (? & ? & ? & ? & ? & _).
  unfold hash_op. repeat case_match; intros [= <-]; auto.
Qed.

(** An opcode other than the two that open a conditional. *)
Lemma exec_op_cases fExec opcode pc st st' :
  elems_ok st → Forall byte (pbegincodehash st) → Forall byte pc → Z.of_nat (length (stack st)) ≤ 1000 →
  exec fExec opcode pc st = inr st' →
  op_ok_step st st' ∨ ((opcode =? OP_IF) || (opcode =? OP_NOTIF) = true ∧ exec_if fExec opcode st = inr st').
Proof using Hhash.
  intros Hst Hb Hpc Hlen. pose proof Hst as [Hs _]. pose proof (same_step st Hst Hb) as Hsame.
  unfold exec_op, bindE.
  destruct ((opcode =? OP_1NEGATE) || _) eqn:Epush.
  { intros [= <-]. left. apply set_stack_step; [done..|]. apply Forall_cons. split; [|done].
    apply serialize_elem. unfold OP_1NEGATE, OP_1, OP_16 in *. lia. }
  destruct (opcode =? OP_NOP); [intros [= <-]; by left|].
  destruct (opcode =? OP_CHECKLOCKTIMEVERIFY); [intros ->%exec_locktime_ok; by left|].
  destruct (opcode =? OP_CHECKSEQUENCEVERIFY); [intros ->%exec_sequence_ok; by left|].
  destruct ((opcode =? OP_NOP1) || _); [destruct (has _ _); intros [= <-]; by left|].
  destruct ((opcode =? OP_IF) || _); [by right|]. intros H. left. revert H.
  destruct (opcode =? OP_ELSE); [intros; by apply exec_else_ok; [..|left]|].
  destruct (opcode =? OP_ENDIF); [intros; by apply exec_else_ok; [..|right]|].
  destruct (opcode =? OP_RETURN); [done|].
  destruct (opcode =? OP_TOALTSTACK); [intros; by apply exec_altstack_ok; [..|left]|].
  destruct (opcode =? OP_FROMALTSTACK); [intros; by apply exec_altstack_ok; [..|right]|].
  destruct (is_unary opcode).
  { destruct (exec_unary _ _ _) as [|s] eqn:E; intros [= <-]. apply set_stack_step; eauto using exec_unary_ok. }
  destruct (is_binary opcode).
  { destruct (exec_binary _ _ _) as [|s] eqn:E; intros [= <-]. apply set_stack_step; eauto using exec_binary_ok. }
  destruct (opcode =? OP_CODESEPARATOR).
  { intros [= <-]. destruct Hsame as (? & ? & ? & ? & _). by split_and!. }
  destruct ((opcode =? OP_CHECKSIG) || _); [by apply exec_checksig_ok|].
  destruct (opcode =? OP_CHECKSIGADD); [by apply exec_checksigadd_ok|].
  destruct ((opcode =? OP_CHECKMULTISIG) || _); [by apply exec_checkmultisig_ok|].
  destruct (hash_op _ _ _ _ _ opcode) as [h|] eqn:Eh.
  { destruct (stack st) as [|x s]; intros [= <-]. apply set_stack_step; [done..|].
    apply Forall_cons in Hs as [_ Hs]. apply Forall_cons. split; [by eapply hash_op_ok|done]. }
  destruct (stack_op opcode _ _) as [r|] eqn:Er; [|done]. destruct r as [|s]; intros [= <-].
  apply set_stack_step; [done..|]. by eapply stack_op_ok.
Qed.

Lemma exec_op_ok fExec opcode pc st st' :
  elems_ok st → Forall byte (pbegincodehash st) → Forall byte pc → Z.of_nat (length (stack st)) ≤ 1000 →
  exec fExec opcode pc st = inr st' →
  elems_ok st' ∧ nOpCount st ≤ nOpCount st' ∧ (nOpCount st ≤ 201 → nOpCount st' ≤ 201) ∧
  Z.of_nat (length (vfExec st')) ≤ Z.of_nat (length (vfExec st)) + Z.b2z (OP_16 <? opcode) ∧
  Forall byte (pbegincodehash st').
Proof using Hhash.
  intros Hst Hb Hpc Hlen H.
  destruct (exec_op_cases _ _ _ _ _ Hst Hb Hpc Hlen H) as [(? & ? & ? & ? & ?)|[Eif Hif]].
  - split_and!; auto. destruct (OP_16 <? opcode); simpl; lia.
  - destruct (exec_if_ok _ _ _ _ Hst Hb Hif) as (? & -> & -> & ?). split_and!; auto; [lia|].
    assert ((OP_16 <? opcode) = true) as ->; [|simpl; lia]. unfold OP_IF, OP_NOTIF, OP_16 in *. lia.
Qed.

Lemma GetOp2_bytes pc :
  Forall byte pc → Forall byte (vchRet (GetOp2 pc)) ∧ Forall byte (pc_next (GetOp2 pc)).
Proof using Type.
  intros H. destruct pc as [|op pc]; [done|]. destruct (GetOp2_suffix op pc) as [pre E]. split.
  - apply Forall_cons in H as [_ H]. simpl. unfold op_data, op_fail.
    repeat case_match; simpl; try done; by repeat first [apply Forall_take|apply Forall_drop].
  - rewrite E in H. apply Forall_cons in H as [_ H]. by apply Forall_app in H as [_ H].
Qed.

Lemma step_ok pc st pc' st' :
  state_ok st → Forall byte pc → turn pc st = inr (pc', st') → state_ok st' ∧ Forall byte pc'.
Proof using Hhash.
  intros ((Hs & Ha) & Hop & Hvf & Hlen & Hb) Hpc. destruct (GetOp2_bytes pc Hpc) as [Hv Hn].
  unfold step, bindE. destruct (negb _); [done|].
  destruct (Z.ltb_spec MAX_SCRIPT_ELEMENT_SIZE (size (vchRet (GetOp2 pc)))) as [|Hsz]; [done|].
  set (opcode := opcodeRet (GetOp2 pc)).
  set (st1 := if OP_16 <? opcode then set_nOpCount (nOpCount st + 1) st else st).
  assert (elems_ok st1 ∧ Forall byte (pbegincodehash st1) ∧ stack st1 = stack st ∧ altstack st1 = altstack st ∧
    nOpCount st1 = nOpCount st + Z.b2z (OP_16 <? opcode) ∧ vfExec st1 = vfExec st) as (H1 & H2 & H3 & H4 & H5 & H6).
  { unfold st1. destruct (OP_16 <? opcode); simpl; split_and!; try done; lia. }
  clearbody st1. destruct ((OP_16 <? opcode) && (201 <? nOpCount st1)) eqn:Ecount; [done|].
  destruct (is_disabled opcode); [done|].
  assert (0 ≤ nOpCount st1 ≤ 201) as Hcount.
  { unfold MAX_OPS_PER_SCRIPT in Hop. destruct (OP_16 <? opcode); simpl in *; lia. }
  assert (∀ st2, elems_ok st2 → nOpCount st1 ≤ nOpCount st2 ≤ 201 →
    Z.of_nat (length (vfExec st2)) ≤ nOpCount st2 → Forall byte (pbegincodehash st2) →
    (if 1000 <? Z.of_nat (length (stack st2) + length (altstack st2)) then inl SCRIPT_ERR_STACK_SIZE
     else inr (pc_next (GetOp2 pc), st2)) = inr (pc', st') → state_ok st' ∧ Forall byte pc') as K.
  { intros st2 ? ? ? ?. destruct (Z.ltb_spec 1000 (Z.of_nat (length (stack st2) + length (altstack st2)))); [done|].
    intros [= <- <-]. split; [|done]. unfold state_ok, MAX_OPS_PER_SCRIPT. split_and!; try done; lia. }
  assert (Z.of_nat (length (vfExec st1)) ≤ nOpCount st1) as Hvf1.
  { rewrite H5, H6. destruct (OP_16 <? opcode); simpl; lia. }
  destruct (forallb id (vfExec st) && _ && _).
  { destruct (fRequireMinimal flags && _); [done|]. apply K; simpl; auto; [|lia].
    destruct H1. split; simpl; [|done]. apply Forall_cons. by split. }
  destruct (_ || _); [|apply K; auto; lia].
  destruct (exec_op _ _ _ _ _ _ _ _ _ _ opcode _ st1) as [|st2] eqn:E; [done|].
  destruct (exec_op_ok _ _ _ _ _ H1 H2 Hn ltac:(rewrite H3; lia) E) as (? & ? & Hle & Hvf2 & ?).
  specialize (Hle ltac:(lia)). apply K; auto. rewrite H6 in Hvf2. lia.
Qed.

(** ** Evaluation as a step relation *)

(** The configurations an evaluation passes through. *)
Inductive reach (s0 : list valtype) (script : CScript) : CScript → state → Prop :=
  | reach_start : reach s0 script script (MkState s0 [] [] 0 script)
  | reach_turn pc st pc' st' :
      reach s0 script pc st → pc ≠ [] → turn pc st = inr (pc', st') → reach s0 script pc' st'.

Lemma turn_next pc st pc' st' : turn pc st = inr (pc', st') → pc' = pc_next (GetOp2 pc).
Proof using Type. unfold step, bindE. repeat case_match; congruence. Qed.

Lemma turn_shrinks pc st pc' st' : pc ≠ [] → turn pc st = inr (pc', st') → (length pc' < length pc)%nat.
Proof using Type. intros Hne ->%turn_next. by apply GetOp2_progress. Qed.

(** The loop, started anywhere on the way, ends where the relation ends. *)
Lemma loop_reach s0 script fuel pc st :
  reach s0 script pc st → (length pc ≤ fuel)%nat →
  match loop fuel pc st with
  | inr st' => reach s0 script [] st'
  | inl e => ∃ pc' st', reach s0 script pc' st' ∧ pc' ≠ [] ∧ turn pc' st' = inl e
  end.
Proof using Type.
  revert pc st. induction fuel as [|fuel IH]; intros pc st Hr Hf.
  { destruct pc; [exact Hr|simpl in Hf; lia]. }
  destruct pc as [|op pc]; [exact Hr|]. cbn [eval_loop].
  destruct (step _ _ _ _ _ _ _ _ _ (op :: pc) st) as [e|[pc' st']] eqn:E; [by exists (op :: pc), st|].
  pose proof (turn_shrinks (op :: pc) st pc' st' ltac:(done) E). apply IH; [by eapply reach_turn|lia].
Qed.

Lemma reach_loop s0 script pc st :
  reach s0 script pc st →
  ∃ fuel, (length pc ≤ fuel)%nat ∧
    loop (length script) script (MkState s0 [] [] 0 script) = loop fuel pc st.
Proof using Type.
  induction 1 as [|pc st pc' st' _ (fuel & Hf & ->) Hne Ht]; [by exists (length script)|].
  pose proof (turn_shrinks _ _ _ _ Hne Ht). destruct fuel as [|fuel]; [lia|]. exists fuel. split; [lia|].
  cbn [eval_loop]. destruct pc; [done|]. by rewrite Ht.
Qed.

Lemma loop_end fuel st : loop fuel [] st = inr st.
Proof using Type. by destruct fuel. Qed.

Lemma reach_ok s0 script pc st :
  Forall byte script → stack_ok s0 → reach s0 script pc st → state_ok st ∧ Forall byte pc.
Proof using Hhash.
  intros Hb [Hs Hl]. induction 1 as [|pc st pc' st' _ [Hst Hpc] Hne Ht]; [|by eapply step_ok].
  split; [|done]. unfold state_ok, elems_ok, MAX_OPS_PER_SCRIPT. simpl. split_and!; try done; lia.
Qed.

(** C28: [EvalScript] returns on every script and stack, after at most one turn of
    the loop per byte, and computes exactly the outcome of its step relation: it
    accepts with a stack if and only if the script is within the size limit and a
    configuration at its end is reached with that stack and no open conditional,
    and it stores an error if and only if the script is too long, a reachable turn
    raises that error, or the end is reached inside a conditional. *)
Theorem EvalScript_runs_to_completion s0 script :
  let eval := EvalScript CheckLowS RIPEMD160 SHA1 SHA256 CHash160 CHash256 flags checker sigversion s0 script in
  (∀ s', eval = inr s' ↔
     size script ≤ MAX_SCRIPT_SIZE ∧ ∃ st, reach s0 script [] st ∧ vfExec st = [] ∧ stack st = s') ∧
  (∀ e, eval = inl e ↔
     (MAX_SCRIPT_SIZE < size script ∧ e = SCRIPT_ERR_SCRIPT_SIZE) ∨
     size script ≤ MAX_SCRIPT_SIZE ∧
       ((∃ pc st, reach s0 script pc st ∧ pc ≠ [] ∧ turn pc st = inl e) ∨
        (∃ st, reach s0 script [] st ∧ vfExec st ≠ [] ∧ e = SCRIPT_ERR_UNBALANCED_CONDITIONAL))).
Proof using Type.
  unfold EvalScript, bindE. destruct (Z.ltb_spec MAX_SCRIPT_SIZE (size script)) as [Hs|Hs].
  { split; [intros s'; split; [done|lia]|]. intros e. split; [intros [= <-]; by left|].
    intros [[_ ->]|[? _]]; [done|lia]. }
  pose proof (loop_reach s0 script (length script) script _ (reach_start s0 script) ltac:(done)) as Hl.
  assert (∀ st, reach s0 script [] st → loop (length script) script (MkState s0 [] [] 0 script) = inr st) as Hend.
  { intros st (fuel & _ & ->)%reach_loop. apply loop_end. }
  assert (∀ pc st e, reach s0 script pc st → pc ≠ [] → turn pc st = inl e →
    loop (length script) script (MkState s0 [] [] 0 script) = inl e) as Herr.
  { intros pc st e (fuel & Hf & ->)%reach_loop Hne Ht. destruct pc as [|op pc]; [done|].
    destruct fuel as [|fuel]; [simpl in Hf; lia|]. cbn [eval_loop]. by rewrite Ht. }
  split.
  - intros s'. split.
    + destruct (loop _ _ _) as [|st]; [done|]. intros H. split; [done|]. exists st.
      destruct (vfExec st); [|done]. by injection H.
    + intros (_ & st & Hr & Hv & <-). by rewrite (Hend st Hr), Hv.
  - intros e. split.
    + destruct (loop _ _ _) as [e'|st]; intros H; right; (split; [done|]).
      * left. by injection H as <-.
      * right. exists st. destruct (vfExec st); [done|]. by injection H as <-.
    + intros [[? _]|(_ & [(pc & st & Hr & Hne & Ht)|(st & Hr & Hv & ->)])]; [lia|..].
      * by rewrite (Herr pc st e Hr Hne Ht).
      * rewrite (Hend st Hr). by destruct (vfExec st).
Qed.

(** C6: the limits of the interpreter are invariants.  For a script of bytes and a
    starting stack of at most a thousand elements of at most 520 bytes, every
    configuration an evaluation reaches has at most a thousand elements on its two
    stacks together, each a string of at most 520 bytes, has counted between 0 and
    201 operations, and has no more open conditionals than operations counted. *)
Theorem script_resources_bounded s0 script pc st :
  Forall byte script → stack_ok s0 → reach s0 script pc st → state_ok st ∧ Forall byte pc.
Proof using Hhash. intros Hb Hs Hr. by apply (reach_ok s0 script). Qed.

(** Evaluation preserves the type of a stack.  From at most a thousand byte
    strings of at most 520 bytes, an accepted script leaves at most a thousand byte
    strings of at most 520 bytes, so that the stack one script leaves can be given
    to the next. *)
Theorem EvalScript_typed s0 script s' :
  Forall byte script → stack_ok s0 →
  EvalScript CheckLowS RIPEMD160 SHA1 SHA256 CHash160 CHash256 flags checker sigversion s0 script = inr s' →
  stack_ok s'.
Proof using Hhash.
  intros Hb Hs. unfold EvalScript, bindE. destruct (_ <? _); [done|].
  pose proof (loop_reach s0 script (length script) script _ (reach_start s0 script) ltac:(done)) as Hl.
  destruct (loop _ _ _) as [|st]; [done|]. destruct (vfExec st); [|done]. intros [= <-].
  apply (reach_ok s0 script) in Hl as [([? _] & _ & _ & ? & _) _]; [|done..]. split; [done|lia].
Qed.
End Invariant.

(** ** Witnesses *)

(** Digests of one byte, and a checker that accepts every signature. *)
Definition demo_digest (v : list Z) : list Z := [Z.of_nat (length v) mod 256].

Definition yes_checker : BaseSignatureChecker :=
  MkChecker (λ _ _ _ _, true) (λ _, true) (λ _, true) None 0 0 None.

Lemma demo_digests : Forall digests (replicate 5 demo_digest).
Proof.
  repeat (apply Forall_cons; split); try apply Forall_nil_2; intros v; split.
  all: try (repeat constructor; apply Z.mod_pos_bound; lia).
  all: unfold demo_digest, size, MAX_SCRIPT_ELEMENT_SIZE; simpl; lia.
Qed.

(** [1 IF 2 SIZE ELSE RETURN ENDIF 5 ADD]. *)
Definition demo_branch : CScript :=
  [OP_1; OP_IF; OP_2; OP_SIZE; OP_ELSE; OP_RETURN; OP_ENDIF; OP_5; OP_ADD].

Lemma EvalScript_typed_witness :
  EvalScript (λ _, true) demo_digest demo_digest demo_digest demo_digest demo_digest
    SCRIPT_VERIFY_MINIMALDATA yes_checker SIGVERSION_BASE [] demo_branch = inr [[6]; [2]] ∧
  stack_ok [[6]; [2]].
Proof.
  split; [by vm_compute|].
  apply (EvalScript_typed (λ _, true) demo_digest demo_digest demo_digest demo_digest demo_digest
    SCRIPT_VERIFY_MINIMALDATA yes_checker SIGVERSION_BASE demo_digests [] demo_branch).
  - by repeat constructor.
  - split; [done|simpl; lia].
  - by vm_compute.
Defined.

Lemma script_resources_bounded_witness :
  ∃ st, reach (λ _, true) demo_digest demo_digest demo_digest demo_digest demo_digest
    SCRIPT_VERIFY_MINIMALDATA yes_checker SIGVERSION_BASE [] [OP_1; OP_IF] [] st ∧ state_ok st ∧
  vfExec st = [true].
Proof.
  eexists. split; [|split; [|]].
  - eapply reach_turn; [eapply reach_turn; [apply reach_start|done|vm_compute; reflexivity]|done|vm_compute; reflexivity].
  - eapply (script_resources_bounded (λ _, true) demo_digest demo_digest demo_digest demo_digest demo_digest
      SCRIPT_VERIFY_MINIMALDATA yes_checker SIGVERSION_BASE demo_digests [] [OP_1; OP_IF]).
    + by repeat constructor.
    + split; [done|simpl; lia].
    + eapply reach_turn; [eapply reach_turn; [apply reach_start|done|vm_compute; reflexivity]|done|vm_compute; reflexivity].
  - reflexivity.
Defined.
