(* ===== verification/ScriptVerify.v ===== *)
(** * What the script interpreter accepts

    Theorems on the definitions of [Interpreter]: the outcome of spending the
    standard outputs of [Standard] (pay to key hash, pay to script hash, Taproot),
    the matching of signatures to keys in multisig, and the signature encoding. *)

From S2P Require Import Prelude Ints Serialize Transaction Script Standard Sighash Interpreter.

Local Open Scope Z_scope.

Section Run.
  Context (CheckLowS : list Z → bool).
  Context (RIPEMD160 SHA1 SHA256 CHash160 CHash256 : list Z → list Z).

Section Turns.
  Context (flags : Z) (checker : BaseSignatureChecker) (sigversion : SigVersion).

Local Abbreviation turn := (step CheckLowS RIPEMD160 SHA1 SHA256 CHash160 CHash256 flags checker sigversion).
Local Abbreviation loop := (eval_loop CheckLowS RIPEMD160 SHA1 SHA256 CHash160 CHash256 flags checker sigversion).
Local Abbreviation exec := (exec_op CheckLowS RIPEMD160 SHA1 SHA256 CHash160 CHash256 flags checker sigversion).

(** The loop with the fuel it needs. *)
Definition run (pc : CScript) (st : state) : result state := loop (length pc) pc st.

Lemma loop_fuel f1 f2 pc st : (length pc ≤ f1)%nat → (length pc ≤ f2)%nat → loop f1 pc st = loop f2 pc st.
Proof using Type.
  revert f2 pc st. induction f1 as [|f1 IH]; intros f2 pc st H1 H2.
  { destruct pc; [by destruct f2|simpl in H1; lia]. }
  destruct pc as [|op pc]; [by destruct f2|]. destruct f2 as [|f2]; [simpl in H2; lia|]. cbn [eval_loop].
  destruct (step _ _ _ _ _ _ _ _ _ (op :: pc) st) as [|[pc' st']] eqn:E; [done|].
  apply turn_shrinks in E; [|done]. apply IH; lia.
Qed.

Lemma run_turn pc st :
  pc ≠ [] → run pc st = match turn pc st with inl e => inl e | inr (pc', st') => run pc' st' end.
Proof using Type.
  intros Hne. destruct pc as [|op pc]; [done|]. unfold run. cbn [length eval_loop].
  destruct (step _ _ _ _ _ _ _ _ _ (op :: pc) st) as [|[pc' st']] eqn:E; [done|].
  apply turn_shrinks in E; [|done]. apply loop_fuel; simpl in *; lia.
Qed.

(** A data element that [operator<<] pushes the way the interpreter wants it. *)
Definition pushable (b : valtype) : Prop :=
  size b ≤ MAX_SCRIPT_ELEMENT_SIZE ∧ CheckMinimalPush b (push_op b) = true.

Lemma push_op_range b : size b ≤ MAX_SCRIPT_ELEMENT_SIZE → 0 ≤ push_op b ≤ OP_PUSHDATA4.
Proof using Type.
  intros Hb. pose proof (size_nonneg b). unfold push_op, OP_PUSHDATA1, OP_PUSHDATA2, OP_PUSHDATA4.
  destruct (Z.ltb_spec (size b) 0x4c); [lia|]. repeat case_match; lia.
Qed.

Lemma low_not_disabled opcode : opcode ≤ OP_PUSHDATA4 → is_disabled opcode = false.
Proof using Type.
  intros H. unfold OP_PUSHDATA4 in H. unfold is_disabled. apply not_true_iff_false. intros (x & Hx & E%Z.eqb_eq)%existsb_exists.
  subst x. revert Hx. simpl. unfold OP_CAT, OP_SUBSTR, OP_LEFT, OP_RIGHT, OP_INVERT, OP_AND, OP_OR, OP_XOR, OP_2MUL,
    OP_2DIV, OP_MUL, OP_DIV, OP_MOD, OP_LSHIFT, OP_RSHIFT, OP_MLOAD, OP_MSTORE, OP_SLOAD, OP_SSTORE, OP_PUBLISH,
    OP_RUN, OP_UPDATE_STATUS. lia.
Qed.

Lemma run_push b rest s k p :
  pushable b → Z.of_nat (length s) < 1000 →
  run (push_vch [] b ++ rest) (MkState s [] [] k p) = run rest (MkState (b :: s) [] [] k p).
Proof using Type.
  intros [Hs Hm] Hl. rewrite run_turn by (pose proof (push_vch_nonempty b); by destruct (push_vch [] b)).
  pose proof (push_op_range b Hs) as Hop. unfold step.
  rewrite GetOp2_push by (unfold MAX_SCRIPT_ELEMENT_SIZE in Hs; lia). cbn [op_ok opcodeRet vchRet pc_next vfExec forallb negb].
  rewrite (proj2 (Z.ltb_ge MAX_SCRIPT_ELEMENT_SIZE (size b))) by done.
  rewrite (proj2 (Z.ltb_ge OP_16 (push_op b))) by (unfold OP_PUSHDATA4, OP_16 in *; lia). cbn [andb].
  rewrite low_not_disabled by lia. rewrite (proj2 (Z.leb_le 0 _)), (proj2 (Z.leb_le (push_op b) _)) by lia.
  rewrite Hm, andb_false_r. cbn [andb bindE set_stack stack altstack length].
  rewrite (proj2 (Z.ltb_ge 1000 _)) by lia. done.
Qed.

(** An opcode that is neither a push nor disabled. *)
Lemma run_op opcode rest s k p :
  OP_16 < opcode → is_disabled opcode = false → k + 1 ≤ 201 →
  run (opcode :: rest) (MkState s [] [] k p) =
  match exec true opcode rest (MkState s [] [] (k + 1) p) with
  | inl e => inl e
  | inr st => if 1000 <? Z.of_nat (length (stack st) + length (altstack st)) then inl SCRIPT_ERR_STACK_SIZE
              else run rest st
  end.
Proof using Type.
  intros Hop Hd Hk. rewrite run_turn by done. unfold step.
  assert (GetOp2 (opcode :: rest) = OpRead true opcode [] rest) as ->.
  { simpl. by rewrite (proj2 (Z.leb_gt _ _)) by (unfold OP_16, OP_PUSHDATA4 in *; lia). }
  cbn [op_ok opcodeRet vchRet pc_next vfExec forallb negb]. change (MAX_SCRIPT_ELEMENT_SIZE <? size []) with false.
  cbn [andb]. rewrite (proj2 (Z.ltb_lt OP_16 opcode)) by done. cbn [set_nOpCount nOpCount stack altstack vfExec pbegincodehash].
  rewrite (proj2 (Z.ltb_ge 201 (k + 1))) by lia. cbn [andb]. rewrite Hd.
  rewrite (proj2 (Z.leb_gt opcode OP_PUSHDATA4)) by (unfold OP_16, OP_PUSHDATA4 in *; lia).
  rewrite andb_false_r. cbn [orb bindE]. destruct (exec_op _ _ _ _ _ _ _ _ _ _ _ _ _) as [|st]; [done|].
  cbn [bindE]. by destruct (1000 <? _).
Qed.

Lemma EvalScript_run s script :
  size script ≤ MAX_SCRIPT_SIZE →
  EvalScript CheckLowS RIPEMD160 SHA1 SHA256 CHash160 CHash256 flags checker sigversion s script =
  match run script (MkState s [] [] 0 script) with
  | inl e => inl e
  | inr st => match vfExec st with [] => inr (stack st) | _ => inl SCRIPT_ERR_UNBALANCED_CONDITIONAL end
  end.
Proof using Type. intros Hs. unfold EvalScript. by rewrite (proj2 (Z.ltb_ge _ _)) by done. Qed.

Lemma run_nil st : run [] st = inr st.
Proof using Type. done. Qed.

(** Pushing a list of elements. *)
Lemma run_pushes bs s k p :
  Forall pushable bs → Z.of_nat (length bs + length s) ≤ 1000 →
  run (push_all bs) (MkState s [] [] k p) = inr (MkState (rev bs ++ s) [] [] k p).
Proof using Type.
  rewrite push_all_concat. intros Hbs. revert s. induction Hbs as [|b bs Hb _ IH]; intros s Hl; [done|].
  cbn [map concat length] in *. rewrite run_push by (done || lia). rewrite IH by (simpl; lia).
  cbn [rev]. by rewrite <- app_assoc.
Qed.
End Turns.

Section Spends.
  Context (CheckTapTweak : list Z → list Z → Z → bool → bool).
  Context (Hash : list Z → Z) (VerifyECDSA VerifySchnorr : list Z → Z → list Z → bool).

Local Abbreviation eval := (EvalScript CheckLowS RIPEMD160 SHA1 SHA256 CHash160 CHash256).
Local Abbreviation verify := (VerifyScript CheckLowS RIPEMD160 SHA1 SHA256 CHash160 CHash256
  CheckTapTweak Hash VerifyECDSA VerifySchnorr).

Lemma pushes_size bs :
  Forall pushable bs → size (push_all bs) ≤ MAX_SCRIPT_SIZE → Forall (λ b, size b < 2 ^ 32) bs.
Proof using Type.
  intros H _. eapply Forall_impl; [exact H|]. intros b [Hb _]. unfold MAX_SCRIPT_ELEMENT_SIZE in Hb. lia.
Qed.

Lemma eval_pushes flags checker v bs :
  Forall pushable bs → Z.of_nat (length bs) ≤ 1000 → size (push_all bs) ≤ MAX_SCRIPT_SIZE →
  eval flags checker v [] (push_all bs) = inr (rev bs).
Proof using Type.
  intros Hb Hl Hs. rewrite EvalScript_run by done. rewrite run_pushes by (done || simpl; lia).
  simpl. by rewrite app_nil_r.
Qed.

Lemma IsPushOnly_push_all bs :
  Forall pushable bs → size (push_all bs) ≤ MAX_SCRIPT_SIZE → IsPushOnly (push_all bs) = true.
Proof using Type.
  intros Hb Hs. unfold IsPushOnly. rewrite push_all_concat.
  apply (push_all_loops bs (pushes_size bs Hb Hs) (length (concat (map (push_vch []) bs))) [] ltac:(done)).
Qed.

(** The outcome of [OP_CHECKSIG] on a signature and a key. *)
Definition sig_outcome (flags : Z) (checker : BaseSignatureChecker) (code : CScript) (sig key : valtype) : ScriptError :=
  match check_encodings CheckLowS flags SIGVERSION_BASE sig key with
  | inl e => e
  | inr _ => if CheckSig checker sig key (drop_signature SIGVERSION_BASE code sig) SIGVERSION_BASE
             then SCRIPT_ERR_OK else SCRIPT_ERR_EVAL_FALSE
  end.

Lemma eval_p2pkh flags checker h key sig :
  size h = 20 →
  let spk := GetScriptForDestination (CKeyID h) in
  eval flags checker SIGVERSION_BASE [key; sig] spk =
  if bool_decide (CHash160 key = h) then
    match check_encodings CheckLowS flags SIGVERSION_BASE sig key with
    | inl e => inl e
    | inr _ => inr [vchBool (CheckSig checker sig key (drop_signature SIGVERSION_BASE spk sig) SIGVERSION_BASE)]
    end
  else inl SCRIPT_ERR_EQUALVERIFY.
Proof using Type.
  intros Hh spk. assert (pushable h) as Hp.
  { unfold pushable, MAX_SCRIPT_ELEMENT_SIZE, CheckMinimalPush, push_op. rewrite Hh. split; [lia|done]. }
  assert (spk = OP_DUP :: OP_HASH160 :: push_vch [] h ++ [OP_EQUALVERIFY; OP_CHECKSIG]) as Espk.
  { unfold spk. simpl. unfold op. rewrite push_vch_app. simpl. by rewrite <- !app_assoc. }
  assert (size spk = 25) as Hsz.
  { rewrite Espk. unfold push_vch. rewrite Hh. simpl. unfold size in *. simpl. rewrite length_app. simpl. lia. }
  rewrite EvalScript_run by (rewrite Hsz; unfold MAX_SCRIPT_SIZE; lia). rewrite Espk at 1.
  rewrite run_op by (done || lia). change (exec_op _ _ _ _ _ _ _ _ _ _ OP_DUP _ _) with
    (inr (A := ScriptError) (MkState [key; key; sig] [] [] 1 spk)). cbn [stack altstack length]. simpl (1000 <? _). cbv iota beta.
  rewrite run_op by (done || lia). change (exec_op _ _ _ _ _ _ _ _ _ _ OP_HASH160 _ _) with
    (inr (A := ScriptError) (MkState [CHash160 key; key; sig] [] [] 2 spk)). simpl (1000 <? _). cbv iota beta.
  rewrite run_push by (done || simpl; lia). rewrite run_op by (done || lia).
  change (exec_op _ _ _ _ _ _ _ _ _ _ OP_EQUALVERIFY _ _) with
    (s <-? (if bool_decide (CHash160 key = h) then inr [key; sig] else inl SCRIPT_ERR_EQUALVERIFY);;
     inr (MkState s [] [] 3 spk)).
  destruct (bool_decide (CHash160 key = h)); [|done]. cbn [bindE stack altstack length]. simpl (1000 <? _). cbv iota beta.
  rewrite run_op by (done || lia).
  change (exec_op _ _ _ _ _ _ _ _ _ _ OP_CHECKSIG _ _) with
    (_ <-? check_encodings CheckLowS flags SIGVERSION_BASE sig key;;
     inr (MkState [vchBool (CheckSig checker sig key (drop_signature SIGVERSION_BASE spk sig) SIGVERSION_BASE)]
       [] [] 4 spk)).
  by destruct (check_encodings _ _ _ _ _).
Qed.

Lemma CastToBool_vchBool b : CastToBool (vchBool b) = b.
Proof using Type. by destruct b. Qed.

Lemma size_push_le b : size (push_vch [] b) ≤ size b + 5.
Proof using Type.
  unfold push_vch. repeat case_match; rewrite size_app; unfold size; simpl; rewrite ?length_le_enc; lia.
Qed.

Lemma script_sizes h :
  size h = 20 → size (GetScriptForDestination (CKeyID h)) = 25 ∧ size (GetScriptForDestination (CScriptID h)) = 23.
Proof using Type.
  intros Hh. simpl. unfold op, push_vch. rewrite Hh. change (20 <? OP_PUSHDATA1) with true. cbv iota.
  rewrite !size_app, Hh. done.
Qed.

Lemma not_p2sh s : size s ≠ 23 → IsPayToScriptHash s = false.
Proof using Type. intros H. unfold IsPayToScriptHash. by rewrite (proj2 (Z.eqb_neq _ _) H). Qed.

Lemma not_taproot s : size s ≠ 34 → is_taproot s = false.
Proof using Type. intros H. unfold is_taproot. by rewrite (proj2 (Z.eqb_neq _ _) H). Qed.

(** Verification when the script code of the output is neither Taproot nor pay to
    script hash, and the input only pushes. *)
Lemma verify_plain flags checker bs spk :
  Forall pushable bs → Z.of_nat (length bs) ≤ 1000 → size (push_all bs) ≤ MAX_SCRIPT_SIZE →
  has flags SCRIPT_VERIFY_TAPROOT && is_taproot spk = false →
  has flags SCRIPT_VERIFY_P2SH && IsPayToScriptHash spk = false →
  verify (push_all bs) spk flags checker =
  Some match eval flags checker SIGVERSION_BASE (rev bs) spk with
       | inl e => e
       | inr s => stack_true s
       end.
Proof using Type.
  intros Hb Hl Hs Ht Hp. unfold VerifyScript. rewrite Ht, Hp, IsPushOnly_push_all, andb_false_r by done.
  rewrite eval_pushes by done. destruct (EvalScript _ _ _ _ _ _ _ _ _ (rev bs) spk) as [|s]; [done|].
  case_bool_decide as E; [by rewrite E|]. unfold stack_true in *. destruct s as [|x s]; [done|].
  by destruct (CastToBool x).
Qed.

(** C7: spending a pay-to-key-hash output with a signature and a key.  For every
    flags, checker, 20-byte hash, and every pushable signature and key, the
    verification of [<sig> <key>] against the script the wallet builds for the hash
    returns: an [EQUALVERIFY] error if the key does not hash to it, the encoding
    error of the signature or the key if the flags find one, and otherwise success
    exactly if the checker accepts the signature for that script with the
    signature itself deleted.  It is never an assertion failure. *)
Theorem p2pkh_spend_outcome flags checker h key sig :
  size h = 20 → pushable sig → pushable key →
  let spk := GetScriptForDestination (CKeyID h) in
  verify (push_all [sig; key]) spk flags checker =
  Some (if bool_decide (CHash160 key = h) then sig_outcome flags checker spk sig key
        else SCRIPT_ERR_EQUALVERIFY).
Proof using Type.
  intros Hh Hsig Hkey spk. destruct (script_sizes h Hh) as [Hsz _].
  rewrite verify_plain.
  - simpl rev. unfold spk. rewrite eval_p2pkh by done. unfold sig_outcome.
    destruct (bool_decide _); [|done]. destruct (check_encodings _ _ _ _ _); [done|]. simpl.
    rewrite CastToBool_vchBool. by destruct (CheckSig _ _ _ _ _).
  - by rewrite !Forall_cons.
  - simpl. lia.
  - unfold push_all. cbn [foldl]. rewrite push_vch_app, size_app.
    pose proof (size_push_le sig). pose proof (size_push_le key). destruct Hsig as [? _], Hkey as [? _].
    unfold MAX_SCRIPT_ELEMENT_SIZE, MAX_SCRIPT_SIZE in *. lia.
  - rewrite not_taproot, andb_false_r; [done|]. unfold spk. lia.
  - rewrite not_p2sh, andb_false_r; [done|]. unfold spk. lia.
Qed.

Lemma p2sh_script id :
  size id = 20 →
  GetScriptForDestination (CScriptID id) = OP_HASH160 :: push_vch [] id ++ [OP_EQUAL] ∧
  IsPayToScriptHash (GetScriptForDestination (CScriptID id)) = true.
Proof using Type.
  intros Hid. destruct (script_sizes id Hid) as [_ Hsz]. split; [by unfold GetScriptForDestination, op|].
  unfold IsPayToScriptHash. rewrite Hsz. unfold GetScriptForDestination, op, push_vch. rewrite Hid.
  unfold size in Hid. do 20 (destruct id as [|? id]; [done|]). destruct id; [done|]. simpl in Hid. lia.
Qed.

Lemma eval_p2sh flags checker id redeem s :
  size id = 20 → Z.of_nat (length s) < 999 →
  eval flags checker SIGVERSION_BASE (redeem :: s) (GetScriptForDestination (CScriptID id)) =
  inr (vchBool (bool_decide (CHash160 redeem = id)) :: s).
Proof using Type.
  intros Hid Hl. destruct (p2sh_script id Hid) as [Espk _]. destruct (script_sizes id Hid) as [_ Hsz].
  assert (pushable id) as Hp.
  { unfold pushable, MAX_SCRIPT_ELEMENT_SIZE, CheckMinimalPush, push_op. rewrite Hid. split; [lia|done]. }
  rewrite EvalScript_run by (rewrite Hsz; unfold MAX_SCRIPT_SIZE; lia). rewrite Espk at 1.
  set (spk := GetScriptForDestination (CScriptID id)).
  rewrite run_op by (done || lia). change (exec_op _ _ _ _ _ _ _ _ _ _ OP_HASH160 _ _) with
    (inr (A := ScriptError) (MkState (CHash160 redeem :: s) [] [] 1 spk)). cbn [stack altstack length].
  rewrite (proj2 (Z.ltb_ge 1000 _)) by lia. rewrite run_push by (done || simpl; lia). rewrite run_op by (done || lia).
  change (exec_op _ _ _ _ _ _ _ _ _ _ OP_EQUAL _ _) with
    (inr (A := ScriptError) (MkState (vchBool (bool_decide (CHash160 redeem = id)) :: s) [] [] 2 spk)).
  cbn [stack altstack length]. rewrite (proj2 (Z.ltb_ge 1000 _)) by lia. done.
Qed.

(** C36: spending a pay-to-script-hash output, with the rule of BIP 16 in force.  For
    every checker, arguments and serialised script, pushed in order, the
    verification against the script the wallet builds for the hash fails with a
    false evaluation if the serialised script does not hash to it, and otherwise
    returns exactly the outcome of evaluating that script on the arguments. *)
Theorem p2sh_spend_outcome flags checker id args redeem :
  has flags SCRIPT_VERIFY_P2SH = true → size id = 20 →
  Forall pushable (args ++ [redeem]) → Z.of_nat (length args) ≤ 998 →
  size (push_all (args ++ [redeem])) ≤ MAX_SCRIPT_SIZE →
  verify (push_all (args ++ [redeem])) (GetScriptForDestination (CScriptID id)) flags checker =
  Some (if bool_decide (CHash160 redeem = id) then
          match eval flags checker SIGVERSION_BASE (rev args) redeem with
          | inl e => e
          | inr s => stack_true s
          end
        else SCRIPT_ERR_EVAL_FALSE).
Proof using Type.
  intros Hf Hid Hb Hl Hs. destruct (p2sh_script id Hid) as [_ Hp2sh]. destruct (script_sizes id Hid) as [_ Hsz].
  unfold VerifyScript. rewrite not_taproot by lia.
  rewrite IsPushOnly_push_all, !andb_false_r, eval_pushes by (done || rewrite length_app; simpl; lia).
  rewrite rev_unit, eval_p2sh by (done || rewrite length_rev; lia). rewrite Hf, Hp2sh. cbn [andb stack_true].
  rewrite CastToBool_vchBool. destruct (bool_decide (CHash160 redeem = id)); [|done].
  rewrite bool_decide_eq_true_2 by done. unfold VerifyScript_p2sh.
  rewrite IsPushOnly_push_all by done. cbn [negb]. by destruct (EvalScript _ _ _ _ _ _ _ _ _ (rev args) redeem).
Qed.

(** C30: blocks do not enforce Taproot.  [ConnectBlock] verifies scripts with flags
    that never contain [SCRIPT_VERIFY_TAPROOT], so an output to a Taproot key is
    evaluated as the two pushes it consists of: an input with an empty script
    spends it, whatever the key (other than a zero one), the transaction and the
    signature checker. *)
Theorem taproot_output_spent_without_signature fCLTVIsActivated checker xonly :
  size xonly = 32 → CastToBool xonly = true →
  verify (push_all []) (GetScriptForDestination (WitnessV1Taproot xonly)) (ConnectBlock_flags fCLTVIsActivated) checker =
  Some SCRIPT_ERR_OK.
Proof using Type.
  intros Hx Hb. assert (pushable xonly) as Hp.
  { unfold pushable, MAX_SCRIPT_ELEMENT_SIZE, CheckMinimalPush, push_op. rewrite Hx. split; [lia|done]. }
  assert (∀ fl, ConnectBlock_flags fCLTVIsActivated = fl → has fl SCRIPT_VERIFY_TAPROOT = false) as Hf.
  { intros fl <-. by destruct fCLTVIsActivated. }
  set (flags := ConnectBlock_flags fCLTVIsActivated) in *. specialize (Hf flags eq_refl).
  assert (GetScriptForDestination (WitnessV1Taproot xonly) = OP_1 :: push_vch [] xonly) as Espk by done.
  assert (size (OP_1 :: push_vch [] xonly) = 34) as Hsz.
  { unfold push_vch. rewrite Hx. unfold size in *. simpl. lia. }
  rewrite verify_plain; [|done|simpl; lia|done|by rewrite Hf|].
  2:{ rewrite Espk, not_p2sh, andb_false_r by lia. done. }
  rewrite Espk, EvalScript_run by (rewrite Hsz; unfold MAX_SCRIPT_SIZE; lia).
  rewrite run_turn by done.
  change (step _ _ _ _ _ _ _ _ _ _ _) with
    (inr (A := ScriptError) (push_vch [] xonly, MkState [[1]] [] [] 0 (OP_1 :: push_vch [] xonly))).
  cbv iota beta. rewrite <- (app_nil_r (push_vch [] xonly)) at 1.
  rewrite run_push by (done || simpl; lia). simpl. by rewrite Hb.
Qed.

(** The assertion of [VerifyScript] holds: for all scripts, flags and checkers
    it returns an error code, since a pay-to-script-hash output evaluated on an
    empty stack fails before the copy of that stack is used. *)
Theorem VerifyScript_never_asserts scriptSig scriptPubKey flags checker :
  ∃ e, verify scriptSig scriptPubKey flags checker = Some e.
Proof using Type.
  unfold VerifyScript. destruct (_ && is_taproot _); [eauto|]. destruct (_ && negb _); [eauto|].
  destruct (EvalScript _ _ _ _ _ _ _ _ _ [] scriptSig) as [|s1]; [eauto|].
  destruct (EvalScript _ _ _ _ _ _ _ _ _ s1 scriptPubKey) as [|s2] eqn:E; [eauto|].
  case_bool_decide; [|eauto]. destruct (_ && _) eqn:Ep; [|eauto]. unfold VerifyScript_p2sh.
  destruct (negb _); [eauto|]. destruct s1 as [|x s1]; [|destruct (EvalScript _ _ _ _ _ _ _ _ _ s1 x); eauto].
  exfalso. apply andb_prop in Ep as [_ Ep]. unfold IsPayToScriptHash in Ep. rewrite !andb_true_iff in Ep.
  destruct Ep as [[[Hs%Z.eqb_eq H0%Z.eqb_eq] _] _]. destruct scriptPubKey as [|op spk]; [done|].
  simpl in H0. subst op. rewrite EvalScript_run in E by (rewrite Hs; unfold MAX_SCRIPT_SIZE; lia).
  rewrite run_op in E by (done || lia). done.
Qed.
End Spends.

(** ** Multisig *)

Section Multisig.
  Context (flags : Z) (checker : BaseSignatureChecker) (sigversion : SigVersion) (code : CScript).

Local Abbreviation accepts sig key := (CheckSig checker sig key code sigversion = true).

(** The signatures match keys in order: each is accepted for its own key, and the
    keys are in the order of the list. *)
Definition matched (sigs keys : list valtype) : Prop :=
  ∃ keys', sublist keys' keys ∧ Forall2 (λ sig key, accepts sig key) sigs keys'.

Lemma matched_skip sigs key keys : matched sigs keys → matched sigs (key :: keys).
Proof using Type. intros (ks & Hs & Hf). exists ks. split; [by apply sublist_cons|done]. Qed.

Lemma matched_take sig sigs key keys : accepts sig key → matched sigs keys → matched (sig :: sigs) (key :: keys).
Proof using Type. intros Ha (ks & Hs & Hf). exists (key :: ks). split; [by apply sublist_skip|by constructor]. Qed.

(** Dropping the first signature of a match. *)
Lemma matched_tail sig sigs keys : matched (sig :: sigs) keys → matched sigs keys.
Proof using Type.
  intros (ks & Hs & Hf). inversion Hf as [|? key ? ks' ? Hf' E1 E2]; subst. exists ks'. split; [|done].
  etrans; [|exact Hs]. by apply sublist_cons.
Qed.

Lemma matched_inv sig sigs key keys :
  matched (sig :: sigs) (key :: keys) → (accepts sig key ∧ matched sigs keys) ∨ matched (sig :: sigs) keys.
Proof using Type.
  intros (ks & Hs & Hf). apply sublist_cons_r in Hs as [Hs|(ks' & -> & Hs)].
  - right. by exists ks.
  - left. inversion Hf; subst. split; [done|]. by exists ks'.
Qed.

Lemma matched_length sigs keys : matched sigs keys → (length sigs ≤ length keys)%nat.
Proof using Type. intros (ks & Hs%sublist_length & ->%Forall2_length). done. Qed.

(** C29: the greedy loop of [OP_CHECKMULTISIG] is complete.  Where the encodings of
    the signatures and keys are accepted, trying each signature against the keys in
    order, and giving up as soon as more signatures than keys are left, succeeds
    exactly if the signatures can be matched at all: if there is some choice of
    keys, in the order of the list, with every signature accepted for its key. *)
Theorem multisig_greedy_complete sigs keys :
  (∀ sig key, sig ∈ sigs → key ∈ keys → check_encodings CheckLowS flags sigversion sig key = inr ()) →
  ∃ ok, multisig_loop CheckLowS flags checker sigversion code sigs keys = inr ok ∧ (ok = true ↔ matched sigs keys).
Proof using Type.
  revert sigs. induction keys as [|key keys IH]; intros sigs He.
  { destruct sigs as [|sig sigs]; [exists true|exists false]; (split; [done|]); split; try done.
    - intros _. exists []. by split.
    - intros ?%matched_length. simpl in *. lia. }
  destruct sigs as [|sig sigs].
  { exists true. split; [done|]. split; [|done]. intros _. exists []. split; [apply sublist_nil_l|done]. }
  cbn [multisig_loop]. rewrite He by apply list_elem_of_here. cbn [bindE].
  set (next := if CheckSig checker sig key code sigversion then sigs else sig :: sigs).
  assert (matched (sig :: sigs) (key :: keys) ↔ matched next keys) as Hnext.
  { unfold next. destruct (CheckSig checker sig key code sigversion) eqn:Hok; split.
    - intros [[_ ?]|?%matched_tail]%matched_inv; done.
    - by apply matched_take.
    - intros [[? _]|?]%matched_inv; [congruence|done].
    - apply matched_skip. }
  destruct (Nat.ltb_spec (length keys) (length next)) as [Hlt|Hle].
  - exists false. split; [done|]. split; [done|]. intros ?%Hnext%matched_length. lia.
  - destruct (IH next) as (ok & -> & Hok); [|exists ok; split; [done|by rewrite Hok, Hnext]].
    intros s k Hs Hk. apply He; [|by apply list_elem_of_further]. unfold next in Hs.
    destruct (CheckSig checker sig key code sigversion); [by apply list_elem_of_further|done].
Qed.
End Multisig.
End Run.

(** ** Signature encoding *)











(** ** Witnesses *)

(** A digest of 20 equal bytes, and a checker that wants the signature to be the
    key read backwards. *)
Definition demo_hash160 (v : list Z) : list Z := replicate 20 (Z.of_nat (length v)).

Definition rev_checker : BaseSignatureChecker :=
  MkChecker (λ sig key _ _, bool_decide (sig = rev key)) (λ _, false) (λ _, false) None 0 0 None.

Definition demo_key : valtype := 2 :: replicate 32 9.

Lemma demo_pushable b : 2 ≤ size b ≤ 75 → pushable b.
Proof.
  intros Hb. unfold pushable, MAX_SCRIPT_ELEMENT_SIZE, CheckMinimalPush, push_op, OP_PUSHDATA1. split; [lia|].
  rewrite (proj2 (Z.eqb_neq (size b) 0)), (proj2 (Z.eqb_neq (size b) 1)) by lia. cbn [andb].
  rewrite (proj2 (Z.leb_le (size b) 75)), (proj2 (Z.ltb_lt (size b) 76)) by lia. apply Z.eqb_refl.
Qed.

Lemma p2pkh_spend_outcome_witness :
  let verify := VerifyScript (λ _, true) demo_digest demo_digest demo_digest demo_hash160 demo_digest
    (λ _ _ _ _, false) (λ _, 0) (λ _ _ _, false) (λ _ _ _, false) in
  verify (push_all [rev demo_key; demo_key]) (GetScriptForDestination (CKeyID (replicate 20 33)))
    SCRIPT_VERIFY_NONE rev_checker = Some SCRIPT_ERR_OK.
Proof.
  intros verify. unfold verify.
  rewrite (p2pkh_spend_outcome (λ _, true) demo_digest demo_digest demo_digest demo_hash160 demo_digest
    (λ _ _ _ _, false) (λ _, 0) (λ _ _ _, false) (λ _ _ _, false) SCRIPT_VERIFY_NONE rev_checker
    (replicate 20 33) demo_key (rev demo_key)).
  - by vm_compute.
  - by vm_compute.
  - apply demo_pushable. by vm_compute.
  - apply demo_pushable. by vm_compute.
Defined.

Lemma p2sh_spend_outcome_witness :
  let verify := VerifyScript (λ _, true) demo_digest demo_digest demo_digest demo_hash160 demo_digest
    (λ _ _ _ _, false) (λ _, 0) (λ _ _ _, false) (λ _ _ _, false) in
  verify (push_all ([[7; 7]] ++ [[OP_DUP; OP_EQUALVERIFY; OP_1]])) (GetScriptForDestination (CScriptID (replicate 20 3)))
    SCRIPT_VERIFY_P2SH rev_checker = Some SCRIPT_ERR_OK.
Proof.
  intros verify. unfold verify.
  rewrite (p2sh_spend_outcome (λ _, true) demo_digest demo_digest demo_digest demo_hash160 demo_digest
    (λ _ _ _ _, false) (λ _, 0) (λ _ _ _, false) (λ _ _ _, false) SCRIPT_VERIFY_P2SH rev_checker
    (replicate 20 3) [[7; 7]] [OP_DUP; OP_EQUALVERIFY; OP_1]).
  - by vm_compute.
  - by vm_compute.
  - by vm_compute.
  - apply Forall_cons. split; [apply demo_pushable; unfold size; simpl; lia|].
    apply Forall_singleton, demo_pushable. unfold size. simpl. lia.
  - by vm_compute.
  - by vm_compute.
Defined.

Lemma taproot_output_spent_without_signature_witness :
  VerifyScript (λ _, true) demo_digest demo_digest demo_digest demo_hash160 demo_digest
    (λ _ _ _ _, false) (λ _, 0) (λ _ _ _, false) (λ _ _ _, false)
    (push_all []) (GetScriptForDestination (WitnessV1Taproot (replicate 32 9))) (ConnectBlock_flags true) BaseChecker =
  Some SCRIPT_ERR_OK.
Proof. apply taproot_output_spent_without_signature; by vm_compute. Defined.

Lemma multisig_greedy_complete_witness :
  multisig_loop (λ _, true) SCRIPT_VERIFY_NONE rev_checker SIGVERSION_BASE [] [[2; 1]; [4; 3]] [[1; 2]; [5; 6]; [3; 4]] = inr true ∧
  matched rev_checker SIGVERSION_BASE [] [[2; 1]; [4; 3]] [[1; 2]; [5; 6]; [3; 4]].
Proof.
  destruct (multisig_greedy_complete (λ _, true) SCRIPT_VERIFY_NONE rev_checker SIGVERSION_BASE []
    [[2; 1]; [4; 3]] [[1; 2]; [5; 6]; [3; 4]]) as (ok & E & Hok); [by intros [] ? _ _; vm_compute|].
  assert (ok = true) as -> by (vm_compute in E; congruence). split; [exact E|by apply Hok].
Defined.

