(* ===== verification/AdamSeed.v ===== *)
(** * The rolling seed of ADAM

    [GetAdamSeed] of [adam.cpp]: the seed of a block is its parent's seed mixed with
    the block's VRF proof, starting from the hash of the last block before ADAM is
    active.  The function walks back to a seed it knows, replays the proofs forward
    and caches what it computes; [ConnectBlock] of [main.cpp] also writes the seed of the
    block it connects.  [ComputeNextAdamSeed], the block file and the map of recent proofs
    are arguments.

    The theorem: whatever was asked and connected before, the function returns the fold of
    the proofs, provided that the parents of connected blocks could be read then.  Without
    that, [ConnectBlock] caches a wrong seed for good ([unreadable_parent_poisons]). *)

From stdpp Require Import gmap fin_maps.
From S2P Require Import Prelude Ints Params BlockIndex.

Local Open Scope Z_scope.

Definition IsAdamActive (nHeight : Z) (params : Params) : option bool :=
  NetworkUpgradeActive params nHeight UPGRADE_ADAM.

(** The two maps the function keeps: seeds by block hash, and back. *)
Record Seeds := MkSeeds {
  mapAdamSeeds : gmap (list Z) (list Z);
  mapSeedToBlockHash : gmap (list Z) (list Z)
}.

(** [uint256()]. *)
Definition null_seed : list Z := replicate 8 0.

Section Seed.
Context (params : Params) (h : heap).
Context (ComputeNextAdamSeed : list Z → list Z → list Z).
Context (ReadBlockFromDisk : ptr → option (list Z)) (mapRecentVRFProofs : gmap (list Z) (list Z)).

(** The walk back; [path] grows at its end in the source and is replayed from there,
    here it grows at its head.  The result is the known seed, if any, and the path. *)
Fixpoint seed_walk (fuel : nat) (st : Seeds) (curr : option ptr) (path : list ptr) :
    option (option (list Z) * list ptr) :=
  match fuel with
  | O => None
  | S fuel =>
      match curr with
      | None => Some (None, path)
      | Some p =>
          b ← h !! p;
          active ← IsAdamActive (nHeight b) params;
          if negb active then Some (Some (phashBlock b), path)
          else
            match mapAdamSeeds st !! phashBlock b with
            | Some seed => Some (Some seed, path)
            | None => seed_walk fuel st (pprev b) (p :: path)
            end
      end
  end.

(** The proof of a block: from its file, else from the recent proofs. *)
Definition block_proof (p : ptr) (b : CBlockIndex) : option (list Z) :=
  match ReadBlockFromDisk p with
  | Some proof => Some proof
  | None => mapRecentVRFProofs !! phashBlock b
  end.

Fixpoint seed_replay (st : Seeds) (seed : list Z) (path : list ptr) : option (Seeds * list Z) :=
  match path with
  | [] => Some (st, seed)
  | p :: path =>
      b ← h !! p;
      match block_proof p b with
      | None => Some (st, null_seed)
      | Some vAdamVRFProof =>
          let seed := ComputeNextAdamSeed seed vAdamVRFProof in
          seed_replay (MkSeeds (<[phashBlock b := seed]> (mapAdamSeeds st))
                               (<[seed := phashBlock b]> (mapSeedToBlockHash st))) seed path
      end
  end.

(** [None] is a null or dangling pointer, or a failed assertion.  The walk meets
    heights in descending order, so [nHeight + 2] turns are enough. *)
Definition GetAdamSeed (st : Seeds) (pindex : option ptr) : option (Seeds * list Z) :=
  match pindex with
  | None => Some (st, null_seed)
  | Some p =>
      b ← h !! p;
      active ← IsAdamActive (nHeight b) params;
      if negb active then Some (st, phashBlock b)
      else
        r ← seed_walk (S (S (Z.to_nat (nHeight b)))) st (Some p) [];
        match r with
        | (None, _) => Some (st, null_seed)
        | (Some seed, path) => seed_replay st seed path
        end
  end.

(** The end of [ConnectBlock], for the block of [p] with its version and proof. *)
Definition ConnectBlock_seed (st : Seeds) (p : ptr) (nVersion : Z) (vAdamVRFProof : list Z) : option Seeds :=
  b ← h !! p;
  if 11 <=? nVersion then
    '(st, prevSeed) ← GetAdamSeed st (pprev b);
    let newSeed := ComputeNextAdamSeed prevSeed vAdamVRFProof in
    Some (MkSeeds (<[phashBlock b := newSeed]> (mapAdamSeeds st)) (mapSeedToBlockHash st))
  else Some st.

(** ** What a seed is *)

(** [vrf p] is the proof in the block of [p]. *)
Context (vrf : ptr → list Z).

Inductive is_seed : ptr → list Z → Prop :=
| seed_start p b :
    h !! p = Some b → IsAdamActive (nHeight b) params = Some false → is_seed p (phashBlock b)
| seed_next p b q s :
    h !! p = Some b → IsAdamActive (nHeight b) params = Some true → pprev b = Some q →
    is_seed q s → is_seed p (ComputeNextAdamSeed s (vrf p)).

Lemma is_seed_unique p s s' : is_seed p s → is_seed p s' → s = s'.
Proof using Type.
  intros Hs. revert s'. induction Hs; intros s' Hs'; inversion Hs'; simplify_eq; [done|].
  f_equal. auto.
Qed.

(** Block hashes identify blocks, and what can be read of a block is its proof. *)
Context (hash_inj : ∀ p q b c,
  h !! p = Some b → h !! q = Some c → phashBlock b = phashBlock c → p = q).
Context (read_vrf : ∀ p b v, h !! p = Some b → block_proof p b = Some v → v = vrf p).

(** The cached seeds are the seeds of their blocks, from ADAM's activation on: before it
    the cache is not read. *)
Definition seeds_ok (st : Seeds) : Prop :=
  (∀ p b s, h !! p = Some b → IsAdamActive (nHeight b) params = Some true →
     mapAdamSeeds st !! phashBlock b = Some s → is_seed p s) ∧
  (∀ s x, mapSeedToBlockHash st !! s = Some x →
     ∃ p b, h !! p = Some b ∧ phashBlock b = x ∧ is_seed p s).

Lemma seeds_ok_insert st p b s :
  seeds_ok st → h !! p = Some b → is_seed p s →
  seeds_ok (MkSeeds (<[phashBlock b := s]> (mapAdamSeeds st))
                    (<[s := phashBlock b]> (mapSeedToBlockHash st))).
Proof using hash_inj.
  intros [Hf Hb] Hp Hs. split; simpl.
  - intros q c s' Hq Hact. rewrite lookup_insert_Some. intros [[E <-]|[_ ?]]; [|by eapply Hf].
    by rewrite (hash_inj q p c b Hq Hp).
  - intros s' x. rewrite lookup_insert_Some. intros [[<- <-]|[_ ?]]; [by exists p, b|by apply Hb].
Qed.

(** [climbs q path]: the blocks of [path] descend from [q], parent by parent, all
    with ADAM active. *)
Fixpoint climbs (q : ptr) (path : list ptr) : Prop :=
  match path with
  | [] => True
  | p :: path =>
      (∃ b, h !! p = Some b ∧ IsAdamActive (nHeight b) params = Some true ∧ pprev b = Some q) ∧
      climbs p path
  end.

Lemma IsAdamActive_defined b : 0 ≤ nHeight b → ∃ a, IsAdamActive (nHeight b) params = Some a.
Proof using.
  intros Hb. unfold IsAdamActive, NetworkUpgradeActive, NetworkUpgradeState.
  rewrite (proj2 (Z.ltb_ge _ 0)) by lia. repeat case_match; simpl; eauto.
Qed.

Lemma seed_walk_spec fuel st p b path :
  tree_wf h → seeds_ok st → h !! p = Some b → climbs p path → nHeight b + 1 < Z.of_nat fuel →
  ∃ os path', seed_walk fuel st (Some p) path = Some (os, path') ∧
    match os with
    | Some s => ∃ q, is_seed q s ∧ climbs q path' ∧ last (q :: path') = last (p :: path)
    | None => ∀ s, ¬ is_seed p s
    end.
Proof using Type.
  intros Hwf [Hst _]. revert p b path. induction fuel as [|fuel IH]; intros p b path Hp Hc Hf;
    destruct (Hwf p b Hp) as [H0 He]; [lia|]. destruct (IsAdamActive_defined b H0) as [a Ha].
  simpl. rewrite Hp. simpl. rewrite Ha. simpl. destruct a; simpl; [|].
  - destruct (mapAdamSeeds st !! phashBlock b) as [s|] eqn:Hs.
    { exists (Some s), path. split; [done|]. exists p. by split_and!; [eapply Hst|..]. }
    unfold entry_wf in He. destruct (pprev b) as [q|] eqn:Hq.
    + destruct He as (c & Hqc & Hh & _).
      destruct (IH q c (p :: path) Hqc) as (os & path' & Hw & Hos); [by split; [eauto|]|lia|].
      exists os, path'. split; [done|]. destruct os; [done|].
      intros s Hps. inversion Hps; simplify_eq. by eapply Hos.
    + destruct fuel; [lia|]. exists None, (p :: path). split; [done|].
      intros s Hps. inversion Hps; simplify_eq.
  - exists (Some (phashBlock b)), path. split; [done|]. exists p. split_and!; [|done..].
    by apply seed_start.
Qed.

Definition parent (p q : ptr) : Prop := ∃ b, h !! p = Some b ∧ pprev b = Some q.

(** The proofs of a block and of its ancestors can be read, as far as ADAM is active. *)
Definition readable (p : ptr) : Prop :=
  ∀ q c, rtc parent p q → h !! q = Some c → IsAdamActive (nHeight c) params = Some true → is_Some (block_proof q c).

Lemma climbs_parent q path t x : climbs q path → last (q :: path) = Some t → x ∈ path → rtc parent t x.
Proof using Type.
  revert q x. induction path as [|p path IH]; intros q x Hc Ht Hx; [by apply not_elem_of_nil in Hx|].
  destruct Hc as [_ Hc]. assert (rtc parent t p) as Hp.
  { destruct path as [|y path]; [injection Ht as <-; constructor|]. eapply rtc_r; [apply (IH p y Hc Ht); by left|].
    destruct Hc as [(b & Hb & _ & Eb) _]. by exists b. }
  apply elem_of_cons in Hx as [->|Hx]; [done|by apply (IH p)].
Qed.

Lemma seed_replay_spec st q s path :
  seeds_ok st → is_seed q s → climbs q path →
  ∃ st' r, seed_replay st s path = Some (st', r) ∧ seeds_ok st' ∧
    ((∃ t, last (q :: path) = Some t ∧ is_seed t r) ∨
     r = null_seed ∧ ∃ x c, x ∈ path ∧ h !! x = Some c ∧ IsAdamActive (nHeight c) params = Some true ∧ block_proof x c = None).
Proof using hash_inj read_vrf.
  revert st q s. induction path as [|p path IH]; intros st q s Hst Hs Hc.
  - exists st, s. split_and!; [done..|]. left. by exists q.
  - destruct Hc as ((b & Hp & Ha & Hq) & Hc). simpl. rewrite Hp. simpl.
    destruct (block_proof p b) as [v|] eqn:Hv.
    + rewrite (read_vrf p b v Hp Hv). assert (is_seed p (ComputeNextAdamSeed s (vrf p))) as Hn
        by by eapply seed_next.
      destruct (IH (MkSeeds (<[phashBlock b := ComputeNextAdamSeed s (vrf p)]> (mapAdamSeeds st))
        (<[ComputeNextAdamSeed s (vrf p) := phashBlock b]> (mapSeedToBlockHash st))) p (ComputeNextAdamSeed s (vrf p))) as (st' & r & E & Hok & Hr);
        [by apply (seeds_ok_insert _ p)|done|done|].
      exists st', r. split_and!; [done..|]. destruct Hr as [?|(-> & x & c & Hx & ?)]; [by left|right].
      split; [done|]. exists x, c. split; [by right|done].
    + exists st, null_seed. split_and!; [done..|]. right. split; [done|]. exists p, b. split; [by left|done].
Qed.

Lemma GetAdamSeed_spec st p b :
  tree_wf h → seeds_ok st → h !! p = Some b →
  ∃ st' r, GetAdamSeed st (Some p) = Some (st', r) ∧ seeds_ok st' ∧
    (is_seed p r ∨ r = null_seed ∧ ((∀ s, ¬ is_seed p s) ∨ ¬ readable p)).
Proof using hash_inj read_vrf.
  intros Hwf Hst Hp. destruct (Hwf p b Hp) as [H0 _]. destruct (IsAdamActive_defined b H0) as [a Ha].
  unfold GetAdamSeed. rewrite Hp. simpl. rewrite Ha. simpl. destruct a; simpl; [|].
  - destruct (seed_walk_spec (S (S (Z.to_nat (nHeight b)))) st p b [] Hwf Hst Hp I)
      as (os & path & Hw & Hos); [lia|]. simpl in Hw. rewrite Hw. simpl.
    destruct os as [s|]; [|by exists st, null_seed; auto 6]. destruct Hos as (q & Hq & Hc & Hlast).
    destruct (seed_replay_spec st q s path Hst Hq Hc) as (st' & r & Hr & Hok & Hres). exists st', r. split_and!; [done..|].
    destruct Hres as [(t & Ht & Hseed)|(-> & x & c & Hx & Hxc & Hact & Hnone)].
    + left. rewrite Hlast in Ht. by injection Ht as ->.
    + right. split; [done|]. right. intros Hr'. destruct (Hr' x c) as [v Hv]; [|done..|congruence].
      by apply (climbs_parent q path).
  - exists st, (phashBlock b). split_and!; [done..|]. left. by apply seed_start.
Qed.

(** ADAM starts after the genesis block, so every block has a seed. *)
Lemma has_seed p b : tree_wf h → 0 < nActivationHeight params UPGRADE_ADAM → h !! p = Some b → ∃ s, is_seed p s.
Proof using Type.
  intros Hwf Hact. remember (Z.to_nat (nHeight b)) as n eqn:En. revert p b En. induction n as [|n IH]; intros p b En Hp;
    destruct (Hwf p b Hp) as [H0 He]; destruct (IsAdamActive_defined b H0) as [[|] Ha].
  2, 4: by eexists; eapply seed_start.
  - exfalso. revert Ha. unfold IsAdamActive, NetworkUpgradeActive, NetworkUpgradeState, NO_ACTIVATION_HEIGHT.
    replace (nHeight b) with 0 by lia. cbn [Z.ltb Z.compare]. destruct (Z.eqb_spec (nActivationHeight params UPGRADE_ADAM) (-1)); [lia|].
    destruct (Z.leb_spec (nActivationHeight params UPGRADE_ADAM) 0); [lia|]. done.
  - unfold entry_wf in He. destruct (pprev b) as [q|] eqn:Hq; [|lia]. destruct He as (c & Hqc & Hh & _).
    destruct (IH q c) as [s Hs]; [lia|done|]. eexists. by eapply seed_next.
Qed.

Lemma ConnectBlock_seed_spec st p b q nVersion :
  tree_wf h → 0 < nActivationHeight params UPGRADE_ADAM → seeds_ok st → h !! p = Some b → pprev b = Some q → readable q →
  ∃ st', ConnectBlock_seed st p nVersion (vrf p) = Some st' ∧ seeds_ok st'.
Proof using hash_inj read_vrf.
  intros Hwf Hact Hst Hp Hq Hr. unfold ConnectBlock_seed. rewrite Hp. cbn [mbind option_bind].
  destruct (11 <=? nVersion); [|by exists st]. rewrite Hq.
  destruct (Hwf p b Hp) as [_ He]. unfold entry_wf in He. rewrite Hq in He. destruct He as (c & Hqc & _).
  destruct (GetAdamSeed_spec st q c Hwf Hst Hqc) as (st1 & r & -> & [Hf Hb] & Hres). cbn [mbind option_bind].
  eexists. split; [done|]. split; [|done]. intros x bx s Hx Hactive. simpl. rewrite lookup_insert_Some.
  intros [[E <-]|[_ Hs]]; [|by apply (Hf x bx)]. pose proof (hash_inj x p bx b Hx Hp (eq_sym E)) as ->.
  rewrite Hp in Hx. injection Hx as <-. apply (seed_next p b q); [done..|].
  destruct Hres as [?|[_ [Hno|Hno]]]; [done| |done]. destruct (has_seed q c Hwf Hact Hqc) as [s Hs]. by destruct (Hno s).
Qed.
End Seed.

(** ** Sequences of calls *)

(** What can be read at some time: the block file and the recent proofs. *)
Record Reads := MkReads { rd_disk : ptr → option (list Z); rd_recent : gmap (list Z) (list Z) }.

(** A call of [GetAdamSeed], or the end of [ConnectBlock]. *)
Inductive seed_call :=
| Asked (r : Reads) (p : ptr)
| Connecting (r : Reads) (p : ptr) (nVersion : Z).

Section Calls.
Context (params : Params) (h : heap) (Next : list Z → list Z → list Z) (vrf : ptr → list Z).

Definition get_seed (r : Reads) (st : Seeds) (p : ptr) : option (Seeds * list Z) :=
  GetAdamSeed params h Next (rd_disk r) (rd_recent r) st (Some p).

Definition run_call (st : Seeds) (e : seed_call) : option Seeds :=
  match e with
  | Asked r p => fst <$> get_seed r st p
  | Connecting r p nVersion => ConnectBlock_seed params h Next (rd_disk r) (rd_recent r) st p nVersion (vrf p)
  end.

Definition run_calls (st : Seeds) (l : list seed_call) : option Seeds :=
  foldl (λ o e, st ← o; run_call st e) (Some st) l.

(** What is read of a block is its proof. *)
Definition truthful (r : Reads) : Prop :=
  ∀ p b v, h !! p = Some b → block_proof (rd_disk r) (rd_recent r) p b = Some v → v = vrf p.

Definition readable_now (r : Reads) (p : ptr) : Prop := readable params h (rd_disk r) (rd_recent r) p.

(** Calls are for known blocks, and a block is connected when its parents can be read. *)
Definition call_ok (e : seed_call) : Prop :=
  match e with
  | Asked r p => truthful r ∧ is_Some (h !! p)
  | Connecting r p _ => truthful r ∧ ∃ b q, h !! p = Some b ∧ pprev b = Some q ∧ readable_now r q
  end.

Context (Hwf : tree_wf h) (Hact : 0 < nActivationHeight params UPGRADE_ADAM).
Context (hash_inj : ∀ p q b c, h !! p = Some b → h !! q = Some c → phashBlock b = phashBlock c → p = q).

Lemma run_call_ok st e : seeds_ok params h Next vrf st → call_ok e → ∃ st', run_call st e = Some st' ∧ seeds_ok params h Next vrf st'.
Proof using All.
  intros Hst. destruct e as [r p|r p v]; cbn [call_ok run_call].
  - intros [Ht [b Hp]]. destruct (GetAdamSeed_spec params h Next (rd_disk r) (rd_recent r) vrf hash_inj Ht st p b Hwf Hst Hp)
      as (st' & s & E & Hok & _). exists st'. unfold get_seed. by rewrite E.
  - intros (Ht & b & q & Hp & Hq & Hr). by apply (ConnectBlock_seed_spec params h Next (rd_disk r) (rd_recent r) vrf hash_inj Ht st p b q).
Qed.

Lemma run_calls_ok st l : seeds_ok params h Next vrf st → Forall call_ok l → ∃ st', run_calls st l = Some st' ∧ seeds_ok params h Next vrf st'.
Proof using All.
  intros Hst Hl. revert st Hst. unfold run_calls. induction Hl as [|e l He _ IH]; intros st Hst; [by exists st|].
  cbn [foldl mbind option_bind]. destruct (run_call_ok st e Hst He) as (st1 & -> & Hst1). by apply IH.
Qed.

(** C23: [GetAdamSeed] returns the rolling seed of a block, the fold of all VRF proofs since
    ADAM became active over the hash of the last block before.  Start with empty caches,
    ask for seeds and connect blocks in any order, each time with whatever can be read of
    the blocks then, the parents of a connected block included.  Then no call dereferences
    a null pointer, and a call for any block returns its seed, however much of the path was
    cached, or the null seed if a proof on its path cannot be read; and the map back from
    seeds names the block of each. *)
Theorem GetAdamSeed_is_fold calls :
  Forall call_ok calls →
  ∃ st, run_calls (MkSeeds ∅ ∅) calls = Some st ∧
    (∀ s x, mapSeedToBlockHash st !! s = Some x → ∃ p b, h !! p = Some b ∧ phashBlock b = x ∧ is_seed params h Next vrf p s) ∧
    ∀ r p b, truthful r → h !! p = Some b →
      ∃ st' s seed, get_seed r st p = Some (st', s) ∧ is_seed params h Next vrf p seed ∧
        (s = seed ∨ s = null_seed ∧ ¬ readable_now r p).
Proof using All.
  intros Hc. destruct (run_calls_ok (MkSeeds ∅ ∅) calls) as (st & -> & Hst); [|done|].
  { split; intros *; simpl; rewrite lookup_empty; done. }
  exists st. split; [done|]. split; [apply Hst|]. intros r p b Ht Hp.
  destruct (GetAdamSeed_spec params h Next (rd_disk r) (rd_recent r) vrf hash_inj Ht st p b Hwf Hst Hp) as (st' & s & E & _ & Hs).
  destruct (has_seed params h Next vrf p b Hwf Hact Hp) as [seed Hseed]. exists st', s, seed. split_and!; [done..|].
  destruct Hs as [Hs|[-> [Hno|Hno]]]; [left|by destruct (Hno seed)|by right]. by apply (is_seed_unique params h Next vrf p).
Qed.
End Calls.

(** When a parent's seed cannot be computed while a block is connected, the seed cached for
    the block is computed from the null seed, and is returned ever after, whatever can be
    read by then. *)
Lemma unreadable_parent_poisons params h Next rd rc st p b st1 nVersion proof :
  h !! p = Some b → IsAdamActive (nHeight b) params = Some true → 11 ≤ nVersion →
  GetAdamSeed params h Next rd rc st (pprev b) = Some (st1, null_seed) →
  ∃ st2, ConnectBlock_seed params h Next rd rc st p nVersion proof = Some st2 ∧
    ∀ rd' rc', GetAdamSeed params h Next rd' rc' st2 (Some p) = Some (st2, Next null_seed proof).
Proof.
  intros Hp Ha Hv E. unfold ConnectBlock_seed. rewrite Hp. cbn [mbind option_bind]. rewrite (proj2 (Z.leb_le _ _) Hv), E.
  cbn [mbind option_bind]. eexists. split; [done|]. intros rd' rc'. unfold GetAdamSeed. rewrite Hp. cbn [mbind option_bind]. rewrite Ha.
  cbn [mbind option_bind negb seed_walk]. rewrite Hp. cbn [mbind option_bind]. rewrite Ha. cbn [mbind option_bind negb mapAdamSeeds].
  by rewrite lookup_insert_eq.
Qed.

(** ADAM from height 3 on; a proof is the block's number, mixing is appending. *)
Definition demo_seed_params : Params :=
  MkParams [] [] [] 0 0 0 0 0 0 0 0 0 (λ u, if decide (u = UPGRADE_ADAM) then 3 else 0).

Definition demo_chain : heap := chain_heap (λ _, 0) (λ _, 0) 6.
Definition demo_read (p : ptr) : option (list Z) := Some [Zpos p].

Lemma chain_heap_hash time nbits n p b :
  chain_heap time nbits n !! p = Some b → phashBlock b = [Z.pos p - 1].
Proof.
  intros Hp. assert (∃ i, p = Pos.of_succ_nat i) as [i ->] by (exists (pred (Pos.to_nat p)); lia).
  rewrite chain_heap_lookup in Hp. case_decide; [|done]. injection Hp as <-.
  destruct i; cbn [BuildSkip chain_entry pprev set_pskip phashBlock]; f_equal; lia.
Qed.

Definition demo_reads : Reads := MkReads demo_read ∅.

Lemma demo_truthful : truthful demo_chain (λ p, [Zpos p]) demo_reads.
Proof. intros p c v _. unfold block_proof. by intros [= <-]. Qed.

Lemma demo_readable p : readable_now demo_seed_params demo_chain demo_reads p.
Proof. intros q c _ _ _. by eexists. Qed.

(** Block 5 is connected, then the seed of block 4 is asked for, then that of block 6. *)
Lemma GetAdamSeed_is_fold_witness :
  ∃ st st', run_calls demo_seed_params demo_chain app (λ p, [Zpos p]) (MkSeeds ∅ ∅) [Connecting demo_reads 5 11; Asked demo_reads 4] = Some st ∧
    get_seed demo_seed_params demo_chain app demo_reads st 6 = Some (st', [2; 4; 5; 6]) ∧
    is_seed demo_seed_params demo_chain app (λ p, [Zpos p]) 6 [2; 4; 5; 6].
Proof.
  destruct (demo_chain !! 6%positive) as [b|] eqn:Hb; [|vm_compute in Hb; discriminate Hb].
  destruct (demo_chain !! 5%positive) as [b5|] eqn:Hb5; [|vm_compute in Hb5; discriminate Hb5].
  destruct (demo_chain !! 4%positive) as [b4|] eqn:Hb4; [|vm_compute in Hb4; discriminate Hb4].
  assert (pprev b5 = Some 4%positive) as E5 by (vm_compute in Hb5; injection Hb5 as <-; reflexivity).
  destruct (GetAdamSeed_is_fold demo_seed_params demo_chain app (λ p, [Zpos p]) (chain_heap_wf _ _ 6) ltac:(vm_compute; reflexivity))
    with (calls := [Connecting demo_reads 5 11; Asked demo_reads 4]) as (st & Hrun & _ & Hget).
  - intros p q c d Hp Hq. apply chain_heap_hash in Hp, Hq. rewrite Hp, Hq. intros [= E]. lia.
  - repeat constructor; [exact demo_truthful|exists b5, 4%positive; split; [exact Hb5|split; [exact E5|apply demo_readable]]|
      exact demo_truthful|by exists b4].
  - destruct (Hget demo_reads 6%positive b demo_truthful Hb) as (st' & s & seed & E & Hs & Hr).
    assert (s = [2; 4; 5; 6]) as ->.
    { assert ((run_calls demo_seed_params demo_chain app (λ p, [Zpos p]) (MkSeeds ∅ ∅) [Connecting demo_reads 5 11; Asked demo_reads 4]
        ≫= λ st, snd <$> get_seed demo_seed_params demo_chain app demo_reads st 6) = Some [2; 4; 5; 6]) as Hv by (vm_compute; reflexivity).
      rewrite Hrun in Hv. cbn [mbind option_bind] in Hv. rewrite E in Hv. by injection Hv. }
    exists st, st'. split; [exact Hrun|]. split; [exact E|]. destruct Hr as [<-|[H _]]; [exact Hs|discriminate H].
Defined.
