(* ===== verification/AdamPing.v ===== *)
(** * The on-chain masternode registry of ADAM

    [adam.cpp] and [adam.h]: which masternode keys are alive (their ping
    heights), which collateral each one stands for, and which collateral has been
    delegated to which key, with the history that lets a reorganisation undo a
    delegation; and the loop of [DisconnectBlock] in [main.cpp] that takes a
    block's pings back.  The maps are [gmap]s, a [std::set<int>] is its elements in
    ascending order.  The coin view, the key hash and the delegation signature
    check are arguments. *)

From stdpp Require Import gmap fin_maps sorting.
From S2P Require Import Prelude Ints Transaction Standard.

Local Open Scope Z_scope.

(** ** Delegations *)

Record COnChainMasternodeDelegation := MkDelegation {
  pubKeyCollateralAddress : CPubKey;
  pubKeyMasternode : CPubKey;
  addr : list Z;
  sigTime : Z;
  protocolVersion : Z;
  nMessVersion : Z;
  vchCollateralSig : list Z
}.

#[export] Instance Delegation_eq_dec : EqDecision COnChainMasternodeDelegation.
Proof. solve_decision. Defined.

(** ** Ordered sets of heights *)

Fixpoint set_insert (x : Z) (s : list Z) : list Z :=
  match s with
  | [] => [x]
  | y :: s' => if x <? y then x :: s else if x =? y then s else y :: set_insert x s'
  end.

Definition set_erase (x : Z) (s : list Z) : list Z := filter (λ y, y ≠ x) s.

(** The position of the first element above [x]. *)
Fixpoint upper_bound (x : Z) (s : list Z) : nat :=
  match s with
  | [] => O
  | y :: s' => if x <? y then O else S (upper_bound x s')
  end.

(** ** The registry *)

(** The globals of [adam.cpp]. *)
Record Registry := MkRegistry {
  mapMasternodeLastActiveHeight : gmap CPubKey Z;
  mapMasternodeActiveHeights : gmap CPubKey (list Z);
  mapMasternodeCollateralOutpoints : gmap CPubKey COutPoint;
  mapOnChainCollateralDelegations : gmap COutPoint COnChainMasternodeDelegation;
  mapCollateralDelegationFirstHeight : gmap COutPoint Z;
  mapCollateralDelegationHistory : gmap COutPoint (list (Z * COnChainMasternodeDelegation));
  g_nMasternodePingStateGen : Z
}.

Abbreviation lasts := mapMasternodeLastActiveHeight.
Abbreviation actives := mapMasternodeActiveHeights.
Abbreviation collaterals := mapMasternodeCollateralOutpoints.
Abbreviation delegations := mapOnChainCollateralDelegations.
Abbreviation firsts := mapCollateralDelegationFirstHeight.
Abbreviation histories := mapCollateralDelegationHistory.
Abbreviation gen := g_nMasternodePingStateGen.

Definition with_pings (l : gmap CPubKey Z) (a : gmap CPubKey (list Z)) (c : gmap CPubKey COutPoint)
    (s : Registry) : Registry :=
  MkRegistry l a c (delegations s) (firsts s) (histories s) (gen s).

Definition with_delegations d f h (s : Registry) : Registry :=
  MkRegistry (lasts s) (actives s) (collaterals s) d f h (gen s).

(** [++g_nMasternodePingStateGen] on 64 bits. *)
Definition BumpMasternodePingStateGen (s : Registry) : Registry :=
  MkRegistry (lasts s) (actives s) (collaterals s) (delegations s) (firsts s) (histories s)
    (u64 (gen s + 1)).

(** ** Delegations *)

(** [push_back], and [erase(begin())] of a vector that has grown past 16. *)
Definition push_history (v : list (Z * COnChainMasternodeDelegation)) e :=
  let v := v ++ [e] in
  if (16 <? length v)%nat then tail v else v.

Definition RecordCollateralDelegationWithHistory (collateralOutpoint : COutPoint)
    (newDel : COnChainMasternodeDelegation) (nHeight : Z) (s : Registry) : Registry :=
  let o := collateralOutpoint in
  let dels := <[o := newDel]> (delegations s) in
  match delegations s !! o with
  | Some old =>
      if decide (pubKeyMasternode old ≠ pubKeyMasternode newDel) then
        let prevFirstHeight := default 1 (firsts s !! o) in
        let vecHist := push_history (default [] (histories s !! o)) (prevFirstHeight, old) in
        with_delegations dels (<[o := nHeight]> (firsts s)) (<[o := vecHist]> (histories s)) s
      else
        match firsts s !! o with
        | Some first => with_delegations dels (<[o := Z.min first nHeight]> (firsts s)) (histories s) s
        | None => with_delegations dels (<[o := nHeight]> (firsts s)) (histories s) s
        end
  | None => with_delegations dels (<[o := nHeight]> (firsts s)) (histories s) s
  end.

(** The second component is [*pRestoredOldKeyOut]. *)
Definition RevertOnChainCollateralDelegation (collateralOutpoint : COutPoint)
    (disconnectedPubKey : CPubKey) (nDisconnectedHeight : Z) (s : Registry) : Registry * CPubKey :=
  let o := collateralOutpoint in
  match delegations s !! o with
  | Some del =>
      if decide (pubKeyMasternode del = disconnectedPubKey) then
        let firstHeight := default nDisconnectedHeight (firsts s !! o) in
        if nDisconnectedHeight <=? firstHeight then
          let erased := (with_delegations (delete o (delegations s)) (delete o (firsts s)) (histories s) s,
                         Invalid) in
          match histories s !! o with
          | Some v =>
              match last v with
              | Some (restoredFirstHeight, old) =>
                  let v' := removelast v in
                  let hist := match v' with
                              | [] => delete o (histories s)
                              | _ => <[o := v']> (histories s)
                              end in
                  (with_delegations (<[o := old]> (delegations s))
                     (<[o := restoredFirstHeight]> (firsts s)) hist s,
                   pubKeyMasternode old)
              | None => erased
              end
          | None => erased
          end
        else (s, Invalid)
      else (s, Invalid)
  | None => (s, Invalid)
  end.

(** ** Coins and authorisation *)

Definition COIN : Z := 100000000.

Definition GetMasternodeNodeCollateral (_ : Z) : Z := 4200 * COIN.

(** What the registry is evaluated against: the view of unspent coins a caller
    passes ([pView]), the global one ([pcoinsTip]), the height of the active tip,
    and the cryptography. *)
Record Env := MkEnv {
  pView : option (COutPoint → option Coin);
  pcoinsTip : option (COutPoint → option Coin);
  tipHeight : option Z;
  Hash160 : list Z → list Z;
  CheckSignature : COutPoint → COnChainMasternodeDelegation → bool
}.

Definition coinsView (e : Env) : option (COutPoint → option Coin) :=
  match pView e with Some v => Some v | None => pcoinsTip e end.

(** [GetScriptForDestination] of a key id: [OP_DUP OP_HASH160 <20 bytes>
    OP_EQUALVERIFY OP_CHECKSIG]. *)
Definition GetScriptForKey (e : Env) (k : CPubKey) : list Z :=
  [0x76; 0xa9; 20] ++ Hash160 e k ++ [0x88; 0xac].

Definition VerifyOnChainDelegationSignature (e : Env) (del : COnChainMasternodeDelegation)
    (collateralOutpoint : COutPoint) : bool :=
  if negb (IsValid (pubKeyCollateralAddress del)) || negb (IsValid (pubKeyMasternode del))
     || bool_decide (vchCollateralSig del = []) then false
  else CheckSignature e collateralOutpoint del.

(** A delegation to [k] by the owner of the coin. *)
Definition delegation_ok (e : Env) (k : CPubKey) (collateralOutpoint : COutPoint) (coin : Coin)
    (del : COnChainMasternodeDelegation) : bool :=
  bool_decide (pubKeyMasternode del = k) && IsValid (pubKeyCollateralAddress del)
  && (bool_decide (scriptPubKey (out coin) = GetScriptForKey e (pubKeyCollateralAddress del))
      && VerifyOnChainDelegationSignature e del collateralOutpoint).

Definition IsValidMasternodeCollateralAndAuth (e : Env) (s : Registry) (pubKeyMasternode : CPubKey)
    (collateralOutpoint : COutPoint) (nHeight : Z)
    (pInlineDelegation : option COnChainMasternodeDelegation) : bool :=
  if negb (IsValid pubKeyMasternode) || IsNull collateralOutpoint then false
  else
    match coinsView e with
    | None => false
    | Some GetCoin =>
        match GetCoin collateralOutpoint with
        | None => false
        | Some coin =>
            if IsSpent coin then false
            else
              let checkHeight := if 0 <=? nHeight then nHeight else default 0 (tipHeight e) in
              if negb (nValue (out coin) =? GetMasternodeNodeCollateral checkHeight) then false
              else if bool_decide (scriptPubKey (out coin) = GetScriptForKey e pubKeyMasternode) then true
              else if match pInlineDelegation with
                      | Some del => delegation_ok e pubKeyMasternode collateralOutpoint coin del
                      | None => false
                      end then true
              else
                match delegations s !! collateralOutpoint with
                | Some del => delegation_ok e pubKeyMasternode collateralOutpoint coin del
                | None => false
                end
        end
    end.

(** ** Liveness *)

(** The test both lookups of [IsMasternodeActiveAtHeight] make. *)
Definition in_window (nQueryHeight nWindow pingHeight : Z) : bool :=
  (pingHeight <=? nQueryHeight) && (nQueryHeight - pingHeight <=? nWindow).

Definition IsMasternodeActiveAtHeight (s : Registry) (pubKeyMasternode : CPubKey)
    (nQueryHeight nWindow : Z) : bool :=
  if negb (IsValid pubKeyMasternode) then false
  else if match actives s !! pubKeyMasternode with
          | Some hs =>
              match upper_bound nQueryHeight hs with
              | O => false
              | S i => match hs !! i with
                       | Some pingHeight => in_window nQueryHeight nWindow pingHeight
                       | None => false
                       end
              end
          | None => false
          end then true
  else match lasts s !! pubKeyMasternode with
       | Some pingHeight => in_window nQueryHeight nWindow pingHeight
       | None => false
       end.

(** ** Registration *)

(** One turn of the loop that keeps collaterals and keys one-to-one. *)
Definition evict_step (pubKeyMasternode : CPubKey) (collateralOutpoint : COutPoint) (s : Registry)
    (kv : CPubKey * COutPoint) : Registry :=
  if decide (kv.2 = collateralOutpoint ∧ kv.1 ≠ pubKeyMasternode) then
    with_pings (delete kv.1 (lasts s)) (delete kv.1 (actives s)) (delete kv.1 (collaterals s)) s
  else s.

Definition evict (pubKeyMasternode : CPubKey) (collateralOutpoint : COutPoint) (s : Registry) :
    Registry :=
  foldl (evict_step pubKeyMasternode collateralOutpoint) s (map_to_list (collaterals s)).

(** Old heights go from the front, but never the last element. *)
Fixpoint trim_heights (nCutoffHeight : Z) (s : list Z) : list Z :=
  match s with
  | [] => []
  | h :: s' =>
      if (1 <? length s)%nat && (h <? nCutoffHeight) then trim_heights nCutoffHeight s' else s
  end.

Definition add_height (nHeight : Z) (hs : list Z) : list Z :=
  let setHeights := set_insert nHeight hs in
  if (64 <? length setHeights)%nat then trim_heights (nHeight - 5760) setHeights else setHeights.

(** The height joins the key's set, whose greatest element is its last activity. *)
Definition store_ping (k : CPubKey) (o : COutPoint) (nHeight : Z) (s : Registry) : Registry :=
  let setHeights := add_height nHeight (default [] (actives s !! k)) in
  with_pings (<[k := default 0 (last setHeights)]> (lasts s)) (<[k := setHeights]> (actives s))
    (<[k := o]> (collaterals s)) s.

(** The inline delegation a registration records once it is authorised. *)
Definition record_inline (e : Env) (k : CPubKey) (o : COutPoint) (nHeight : Z)
    (pInlineDelegation : option COnChainMasternodeDelegation) (s : Registry) : Registry :=
  match pInlineDelegation, coinsView e with
  | Some del, Some GetCoin =>
      if bool_decide (pubKeyMasternode del = k) && IsValid (pubKeyCollateralAddress del) then
        match GetCoin o with
        | Some coin =>
            if negb (IsSpent coin)
               && bool_decide (scriptPubKey (out coin) = GetScriptForKey e (pubKeyCollateralAddress del))
               && VerifyOnChainDelegationSignature e del o
            then RecordCollateralDelegationWithHistory o del nHeight s
            else s
        | None => s
        end
      else s
  | _, _ => s
  end.

Definition RegisterOnChainMasternodePing (e : Env) (k : CPubKey)
    (collateralOutpoint : COutPoint) (nHeight : Z)
    (pInlineDelegation : option COnChainMasternodeDelegation) (s : Registry) : Registry * bool :=
  if negb (IsValidMasternodeCollateralAndAuth e s k collateralOutpoint nHeight pInlineDelegation)
  then (s, false)
  else
    let s := record_inline e k collateralOutpoint nHeight pInlineDelegation s in
    let s := evict k collateralOutpoint s in
    let s := store_ping k collateralOutpoint nHeight s in
    (BumpMasternodePingStateGen s, true).

(** ** Disconnecting a block *)

(** One turn of the loop of [DisconnectBlock] over [mapMasternodeActiveHeights];
    the keys left without a ping are collected.  The collateral the loop saves for
    such a key is the one the registry holds, which the loop leaves alone. *)
Definition drop_step (nHeight : Z) (acc : Registry * list CPubKey) (kv : CPubKey * list Z) :
    Registry * list CPubKey :=
  let '(s, emptied) := acc in
  let '(k, hs) := kv in
  if decide (nHeight ∈ hs) then
    let hs' := set_erase nHeight hs in
    match last hs' with
    | Some h =>
        (with_pings (<[k := h]> (lasts s)) (<[k := hs']> (actives s)) (collaterals s) s, emptied)
    | None =>
        (with_pings (delete k (lasts s)) (delete k (actives s)) (collaterals s) s, k :: emptied)
    end
  else (s, emptied).

Definition DropHeight (nHeight : Z) (s : Registry) : Registry * list CPubKey :=
  foldl (drop_step nHeight) (s, []) (map_to_list (actives s)).

(** What the loop over the emptied keys does to each before it looks for an older
    ping. *)
Definition forget_key (k : CPubKey) (s : Registry) : Registry :=
  with_pings (delete k (lasts s)) (actives s) (delete k (collaterals s)) s.

(** ** The cache on disk *)

(** [COnChainMasternodeStateCache], without the pinned BLS keys. *)
Record StateCache := MkCache {
  mapLastActiveHeight : gmap CPubKey Z;
  mapActiveHeights : gmap CPubKey (list Z);
  mapCollateralOutpoints : gmap CPubKey COutPoint;
  mapCollateralDelegations : gmap COutPoint COnChainMasternodeDelegation;
  cachedFirstHeight : gmap COutPoint Z;
  cachedHistory : gmap COutPoint (list (Z * COnChainMasternodeDelegation))
}.

(** The snapshot [FlushMasternodePingStateToDisk] writes. *)
Definition snapshot (s : Registry) : StateCache :=
  MkCache (lasts s) (actives s) (collaterals s) (delegations s) (firsts s) (histories s).

(** The registry as [InitializeOnChainMasternodePings] clears it. *)
Definition cleared (s : Registry) : Registry :=
  MkRegistry ∅ ∅ ∅ ∅ ∅ ∅ (u64 (gen s + 1)).

Definition load_first_step (f : gmap COutPoint Z) (kv : COutPoint * COnChainMasternodeDelegation) :
    gmap COutPoint Z :=
  match f !! kv.1 with Some _ => f | None => <[kv.1 := 1]> f end.

Definition load_active_step (nCachedHeight : Z) (m : gmap CPubKey Z * gmap CPubKey (list Z))
    (kv : CPubKey * list Z) : gmap CPubKey Z * gmap CPubKey (list Z) :=
  if negb (IsValid kv.1) then m
  else
    let validHeights := foldl (λ v h, if h <=? nCachedHeight then set_insert h v else v) [] kv.2 in
    match last validHeights with
    | Some h => (<[kv.1 := h]> m.1, <[kv.1 := validHeights]> m.2)
    | None => m
    end.

Definition load_last_step (nCachedHeight : Z) (m : gmap CPubKey Z * gmap CPubKey (list Z))
    (kv : CPubKey * Z) : gmap CPubKey Z * gmap CPubKey (list Z) :=
  if IsValid kv.1 && (kv.2 <=? nCachedHeight) && bool_decide (m.1 !! kv.1 = None) then
    (<[kv.1 := kv.2]> m.1, <[kv.1 := set_insert kv.2 (default [] (m.2 !! kv.1))]> m.2)
  else m.

(** The branch that loads a cache written at a block of the active chain. *)
Definition LoadMasternodePingState (cachedState : StateCache) (nCachedHeight : Z) (s : Registry) :
    Registry :=
  let s := cleared s in
  let m := foldl (load_active_step nCachedHeight) (lasts s, actives s)
             (map_to_list (mapActiveHeights cachedState)) in
  let m := foldl (load_last_step nCachedHeight) m
             (map_to_list (mapLastActiveHeight cachedState)) in
  MkRegistry m.1 m.2 (mapCollateralOutpoints cachedState) (mapCollateralDelegations cachedState)
    (foldl load_first_step (cachedFirstHeight cachedState)
       (map_to_list (mapCollateralDelegations cachedState)))
    (cachedHistory cachedState) (gen s).

(** ** Ordered sets *)

Abbreviation asc := (StronglySorted Z.lt).

Lemma elem_of_set_insert x y s : y ∈ set_insert x s ↔ y = x ∨ y ∈ s.
Proof.
  induction s as [|z s IH]; simpl; [by rewrite list_elem_of_singleton, elem_of_nil, (right_id False (∨))|].
  destruct (Z.ltb_spec x z); [by rewrite elem_of_cons|].
  destruct (Z.eqb_spec x z) as [->|]; rewrite !elem_of_cons; [|rewrite IH]; tauto.
Qed.

Lemma set_insert_asc x s : asc s → asc (set_insert x s).
Proof.
  induction 1 as [|z s Hs IH Hz]; simpl; [repeat constructor|].
  pose proof (proj1 (Forall_forall _ _) Hz) as Hz'.
  destruct (Z.ltb_spec x z).
  - repeat constructor; [done..|]. apply Forall_forall. intros y Hy. specialize (Hz' y Hy). lia.
  - destruct (Z.eqb_spec x z); [by constructor|]. constructor; [done|].
    apply Forall_forall. intros y [->|Hy]%elem_of_set_insert; [lia|auto].
Qed.

Lemma set_erase_asc x s : asc s → asc (set_erase x s).
Proof.
  unfold set_erase. induction 1 as [|z s Hs IH Hz]; simpl; [constructor|].
  rewrite filter_cons. case_decide; [|done]. constructor; [done|].
  apply Forall_forall. intros y [_ Hy]%list_elem_of_filter. by apply (proj1 (Forall_forall _ _) Hz).
Qed.

Lemma elem_of_set_erase x y s : y ∈ set_erase x s ↔ y ≠ x ∧ y ∈ s.
Proof. unfold set_erase. by rewrite list_elem_of_filter. Qed.

Lemma asc_last s h : asc s → last s = Some h → h ∈ s ∧ Forall (λ x, x ≤ h) s.
Proof.
  induction 1 as [|z s Hs IH Hz]; [done|]. destruct s as [|y s].
  - intros [= ->]. split; [set_solver|repeat constructor; lia].
  - change (last (z :: y :: s)) with (last (y :: s)). intros [Hin Hle]%IH.
    split; [set_solver|]. constructor; [|done].
    pose proof (proj1 (Forall_forall _ _) Hz h Hin). lia.
Qed.

Lemma trim_heights_cons c h x s :
  trim_heights c (h :: x :: s) = if h <? c then trim_heights c (x :: s) else h :: x :: s.
Proof. done. Qed.

(** Trimming leaves a suffix that keeps the last element and every height from the
    cutoff on. *)
Lemma trim_heights_spec c s :
  asc s → s ≠ [] →
  asc (trim_heights c s) ∧ last (trim_heights c s) = last s ∧
  (∀ x, x ∈ trim_heights c s → x ∈ s) ∧ (∀ x, x ∈ s → c ≤ x → x ∈ trim_heights c s).
Proof.
  induction 1 as [|z s Hs IH Hz]; [done|]. intros _. destruct s as [|y s].
  - simpl. repeat split; auto; repeat constructor.
  - rewrite trim_heights_cons. destruct (Z.ltb_spec z c).
    + destruct IH as (? & Hl & ? & ?); [done|]. rewrite Hl.
      repeat split; [done|set_solver|]. intros x [->|Hx]%elem_of_cons ?; [lia|auto].
    + repeat split; auto. by constructor.
Qed.

Lemma set_insert_nonempty x s : set_insert x s ≠ [].
Proof. destruct s; simpl; [done|]. by repeat case_match. Qed.

Lemma add_height_spec h s :
  asc s →
  asc (add_height h s) ∧ h ∈ add_height h s ∧ (∀ x, x ∈ add_height h s → x = h ∨ x ∈ s) ∧
  (∀ x, x ∈ s → h - 5760 ≤ x → x ∈ add_height h s) ∧
  last (add_height h s) = last (set_insert h s).
Proof.
  intros Hs. unfold add_height. pose proof (set_insert_asc h s Hs) as Hi.
  assert (∀ x, x = h ∨ x ∈ s ↔ x ∈ set_insert h s) as Hel
    by (intros; by rewrite elem_of_set_insert).
  case_match.
  - destruct (trim_heights_spec (h - 5760) _ Hi (set_insert_nonempty h s)) as (? & ? & ? & Hk).
    split_and!; [done|apply Hk; [by apply Hel; left|lia]| | |done].
    + intros x Hx. apply Hel. auto.
    + intros x Hx Hc. apply Hk; [by apply Hel; right|done].
  - split_and!; [done|by apply Hel; left|intros; by apply Hel|intros; apply Hel; by right|done].
Qed.

Lemma add_height_nonempty h s : asc s → add_height h s ≠ [].
Proof. intros Hs E. destruct (add_height_spec h s Hs) as (_ & Hin & _). rewrite E in Hin. set_solver. Qed.

(** The element before [upper_bound] is the greatest one not above [q]. *)
Lemma upper_bound_spec q s :
  asc s →
  match upper_bound q s with
  | O => ∀ x, x ∈ s → q < x
  | S i => ∃ h, s !! i = Some h ∧ h ∈ s ∧ h ≤ q ∧ ∀ x, x ∈ s → x ≤ q → x ≤ h
  end.
Proof.
  induction 1 as [|z s Hs IH Hz]; simpl; [set_solver|].
  pose proof (proj1 (Forall_forall _ _) Hz) as Hz'.
  destruct (Z.ltb_spec q z).
  - intros x [->|Hx]%elem_of_cons; [done|]. specialize (Hz' x Hx). lia.
  - destruct (upper_bound q s) as [|i].
    + exists z. split_and!; [done|set_solver|done|].
      intros x [->|Hx]%elem_of_cons ?; [done|]. specialize (IH x Hx). lia.
    + destruct IH as (h & Hi & Hin & Hq & Hmax). exists h.
      split_and!; [done|set_solver|done|].
      intros x [->|Hx]%elem_of_cons ?; [|auto]. specialize (Hz' h Hin). lia.
Qed.

Lemma in_window_spec q w h : in_window q w h = true ↔ h ≤ q ∧ q - h ≤ w.
Proof. unfold in_window. rewrite andb_true_iff, !Z.leb_le. done. Qed.

(** Looking at that one element decides whether any is in the window. *)
Lemma upper_bound_window q w s :
  asc s →
  match upper_bound q s with
  | O => false
  | S i => match s !! i with Some h => in_window q w h | None => false end
  end = true ↔ ∃ h, h ∈ s ∧ h ≤ q ∧ q - h ≤ w.
Proof.
  intros Hs. pose proof (upper_bound_spec q s Hs) as Hu. destruct (upper_bound q s) as [|i].
  - split; [done|]. intros (h & Hin & Hq & _). specialize (Hu h Hin). lia.
  - destruct Hu as (h & -> & Hin & Hq & Hmax). rewrite in_window_spec. split.
    + intros [_ Hw]. eauto.
    + intros (x & Hx & Hxq & Hw). specialize (Hmax x Hx Hxq). lia.
Qed.

(** ** The invariant of the registry *)

(** A key's ping heights: a nonempty ascending set. *)
Definition heights_ok (hs : list Z) : Prop := hs ≠ [] ∧ asc hs.

Record reg_ok (s : Registry) : Prop := {
  ok_actives : map_Forall (λ k hs, IsValid k = true ∧ heights_ok hs) (actives s);
  ok_lasts : map_Forall (λ k h, ∃ hs, actives s !! k = Some hs ∧ last hs = Some h) (lasts s);
  ok_collaterals : ∀ k1 k2 o,
    collaterals s !! k1 = Some o → collaterals s !! k2 = Some o → k1 = k2;
  ok_firsts : ∀ o, is_Some (firsts s !! o) ↔ is_Some (delegations s !! o);
  ok_histories :
    map_Forall (λ o v, v ≠ [] ∧ (length v ≤ 16)%nat ∧ is_Some (delegations s !! o)) (histories s)
}.

Definition empty_registry (g : Z) : Registry := MkRegistry ∅ ∅ ∅ ∅ ∅ ∅ g.

Lemma empty_registry_ok g : reg_ok (empty_registry g).
Proof.
  split; simpl; try apply map_Forall_empty; [done|]. intros o. by rewrite !lookup_empty.
Qed.

(** The two halves of the registry are independent. *)
Lemma reg_ok_pings l a c s :
  reg_ok s →
  map_Forall (λ k hs, IsValid k = true ∧ heights_ok hs) a →
  map_Forall (λ k h, ∃ hs, a !! k = Some hs ∧ last hs = Some h) l →
  (∀ k1 k2 o, c !! k1 = Some o → c !! k2 = Some o → k1 = k2) →
  reg_ok (with_pings l a c s).
Proof. by intros []; split. Qed.

Lemma reg_ok_delegations d f h s :
  reg_ok s →
  (∀ o, is_Some (f !! o) ↔ is_Some (d !! o)) →
  map_Forall (λ o v, v ≠ [] ∧ (length v ≤ 16)%nat ∧ is_Some (d !! o)) h →
  reg_ok (with_delegations d f h s).
Proof. by intros []; split. Qed.

Lemma reg_ok_bump s : reg_ok s → reg_ok (BumpMasternodePingStateGen s).
Proof. by intros []; split. Qed.

Lemma push_history_ok v e :
  (length v ≤ 16)%nat → push_history v e ≠ [] ∧ (length (push_history v e) ≤ 16)%nat.
Proof.
  intros Hv. unfold push_history. rewrite length_app. simpl.
  destruct (Nat.ltb_spec 16 (length v + 1)).
  - destruct v as [|x v]; simpl in *; [lia|]. rewrite length_app. simpl. split; [|lia].
    by destruct v.
  - rewrite length_app. simpl. split; [by destruct v|lia].
Qed.

Lemma is_Some_insert {V} `{Countable K} (m : gmap K V) i j x :
  is_Some (<[i := x]> m !! j) ↔ j = i ∨ is_Some (m !! j).
Proof. rewrite lookup_insert_is_Some'. naive_solver. Qed.

Lemma is_Some_delete {V} `{Countable K} (m : gmap K V) i j :
  is_Some (delete i m !! j) ↔ j ≠ i ∧ is_Some (m !! j).
Proof. rewrite lookup_delete_is_Some. naive_solver. Qed.

(** A delegation never makes an outpoint's history dangling. *)
Lemma histories_insert s o d :
  reg_ok s →
  map_Forall (λ o' v, v ≠ [] ∧ (length v ≤ 16)%nat ∧ is_Some (<[o := d]> (delegations s) !! o'))
    (histories s).
Proof.
  intros Hs o' v Hv. destruct (ok_histories s Hs o' v Hv) as (? & ? & ?).
  split_and!; [done..|]. apply is_Some_insert. by right.
Qed.

Lemma history_length s o : reg_ok s → (length (default [] (histories s !! o)) ≤ 16)%nat.
Proof.
  intros Hs. destruct (histories s !! o) eqn:E; simpl; [|lia]. by apply (ok_histories s Hs) in E as (? & ? & ?).
Qed.

Lemma RecordCollateralDelegation_ok o d h s :
  reg_ok s → reg_ok (RecordCollateralDelegationWithHistory o d h s).
Proof.
  intros Hs. assert (∀ x,
    reg_ok (with_delegations (<[o := d]> (delegations s)) (<[o := x]> (firsts s)) (histories s) s)) as Hr.
  { intros x. apply reg_ok_delegations; [done| |by apply histories_insert].
    intros o'. by rewrite !is_Some_insert, (ok_firsts s Hs). }
  unfold RecordCollateralDelegationWithHistory.
  repeat case_match; try apply Hr. apply reg_ok_delegations; [done| |].
  - intros o'. by rewrite !is_Some_insert, (ok_firsts s Hs).
  - apply map_Forall_insert_2; [|by apply histories_insert].
    pose proof (push_history_ok _ (default 1 (firsts s !! o), c) (history_length s o Hs)) as [? ?].
    split_and!; [done..|]. apply is_Some_insert. by left.
Qed.

Lemma length_removelast {A} (v : list A) : length (removelast v) = (length v - 1)%nat.
Proof. destruct v as [|x v] using rev_ind; [done|]. rewrite removelast_last, length_app. simpl. lia. Qed.

Lemma RevertOnChainCollateralDelegation_ok o k h s :
  reg_ok s → reg_ok (RevertOnChainCollateralDelegation o k h s).1.
Proof.
  intros Hs. unfold RevertOnChainCollateralDelegation.
  destruct (delegations s !! o) as [del|] eqn:Hd; [|done].
  case_decide; [|done]. case_match; [|done].
  destruct (histories s !! o) as [v|] eqn:Hh.
  - destruct (ok_histories s Hs o v Hh) as (Hv & Hl & _).
    destruct (last v) as [[f old]|] eqn:El; [|by apply last_None in El]. simpl.
    apply reg_ok_delegations; [done| |].
    + intros o'. by rewrite !is_Some_insert, (ok_firsts s Hs).
    + pose proof (histories_insert s o old Hs) as Hi. pose proof (length_removelast v).
      destruct (removelast v) eqn:Er; [by apply map_Forall_delete|].
      apply map_Forall_insert_2; [|done]. split_and!; [done|lia|]. apply is_Some_insert. by left.
  - simpl. apply reg_ok_delegations; [done| |].
    + intros o'. by rewrite !is_Some_delete, (ok_firsts s Hs).
    + intros o' v Hv. destruct (ok_histories s Hs o' v Hv) as (? & ? & ?).
      split_and!; [done..|]. apply is_Some_delete. split; [congruence|done].
Qed.

(** ** Eviction *)

Definition evicted (k : CPubKey) (o : COutPoint) (s : Registry) (k' : CPubKey) : Prop :=
  k' ≠ k ∧ collaterals s !! k' = Some o.

#[export] Instance evicted_dec k o s k' : Decision (evicted k o s k').
Proof. unfold evicted. apply _. Defined.

Lemma evict_step_lookup k o s kv k' :
  let bad := k' ≠ k ∧ kv = (k', o) in
  let s' := evict_step k o s kv in
  lasts s' !! k' = (if decide bad then None else lasts s !! k') ∧
  actives s' !! k' = (if decide bad then None else actives s !! k') ∧
  collaterals s' !! k' = (if decide bad then None else collaterals s !! k').
Proof.
  destruct kv as [k1 o1]. unfold evict_step. simpl.
  destruct (decide (o1 = o ∧ k1 ≠ k)) as [[-> Hk]|Hn]; simpl.
  - destruct (decide (k' = k1)) as [->|Hne].
    + rewrite !decide_True by done. by rewrite !lookup_delete_eq.
    + rewrite !decide_False by naive_solver. by rewrite !lookup_delete_ne by done.
  - by rewrite !decide_False by naive_solver.
Qed.

Lemma evict_fold_lookup k o l s k' :
  let bad := k' ≠ k ∧ (k', o) ∈ l in
  let s' := foldl (evict_step k o) s l in
  lasts s' !! k' = (if decide bad then None else lasts s !! k') ∧
  actives s' !! k' = (if decide bad then None else actives s !! k') ∧
  collaterals s' !! k' = (if decide bad then None else collaterals s !! k').
Proof.
  revert s. induction l as [|kv l IH]; intros s; simpl.
  { by rewrite !decide_False by (rewrite elem_of_nil; tauto). }
  destruct (IH (evict_step k o s kv)) as (-> & -> & ->).
  destruct (evict_step_lookup k o s kv k') as (-> & -> & ->).
  destruct (decide (k' ≠ k ∧ (k', o) ∈ l)) as [[? ?]|Hn].
  - by rewrite !decide_True by (rewrite elem_of_cons; tauto).
  - destruct (decide (k' ≠ k ∧ kv = (k', o))) as [[? ->]|Hn'].
    + by rewrite !decide_True by (rewrite elem_of_cons; tauto).
    + by rewrite !decide_False by (rewrite elem_of_cons; naive_solver).
Qed.

(** The loop erases exactly the other keys that hold the collateral, from all three
    maps. *)
Lemma evict_lookup k o s k' :
  let s' := evict k o s in
  lasts s' !! k' = (if decide (evicted k o s k') then None else lasts s !! k') ∧
  actives s' !! k' = (if decide (evicted k o s k') then None else actives s !! k') ∧
  collaterals s' !! k' = (if decide (evicted k o s k') then None else collaterals s !! k').
Proof.
  simpl. unfold evict.
  destruct (evict_fold_lookup k o (map_to_list (collaterals s)) s k') as (-> & -> & ->).
  destruct (decide (evicted k o s k')) as [[? ?]|Hn].
  - by rewrite !decide_True by (by rewrite elem_of_map_to_list).
  - by rewrite !decide_False by (by rewrite elem_of_map_to_list).
Qed.

Lemma evict_delegations k o s :
  delegations (evict k o s) = delegations s ∧ firsts (evict k o s) = firsts s ∧
  histories (evict k o s) = histories s ∧ gen (evict k o s) = gen s.
Proof.
  unfold evict. generalize (map_to_list (collaterals s)). intros l. revert s.
  induction l as [|kv l IH]; intros s; [done|]. simpl.
  destruct (IH (evict_step k o s kv)) as (-> & -> & -> & ->).
  unfold evict_step. by case_decide.
Qed.

Lemma evict_ok k o s : reg_ok s → reg_ok (evict k o s).
Proof.
  intros Hs. pose proof (evict_lookup k o s) as Hl. simpl in Hl.
  destruct (evict_delegations k o s) as (Hd & Hf & Hh & _).
  split.
  - intros k' hs. destruct (Hl k') as (_ & -> & _). case_decide; [done|]. apply (ok_actives s Hs).
  - intros k' h. destruct (Hl k') as (-> & -> & _). case_decide; [done|]. apply (ok_lasts s Hs).
  - intros k1 k2 o'. destruct (Hl k1) as (_ & _ & ->), (Hl k2) as (_ & _ & ->).
    repeat case_decide; try done. apply (ok_collaterals s Hs).
  - rewrite Hd, Hf. apply (ok_firsts s Hs).
  - rewrite Hd, Hh. apply (ok_histories s Hs).
Qed.

(** ** Registration *)

Lemma Register_unfold e k o h d s :
  RegisterOnChainMasternodePing e k o h d s =
  if IsValidMasternodeCollateralAndAuth e s k o h d
  then (BumpMasternodePingStateGen (store_ping k o h (evict k o (record_inline e k o h d s))), true)
  else (s, false).
Proof. unfold RegisterOnChainMasternodePing. by destruct (IsValidMasternodeCollateralAndAuth e s k o h d). Qed.

Lemma record_inline_ok e k o h d s : reg_ok s → reg_ok (record_inline e k o h d s).
Proof.
  intros Hs. unfold record_inline. repeat case_match; try done. by apply RecordCollateralDelegation_ok.
Qed.

Lemma Record_pings o d h s :
  let s' := RecordCollateralDelegationWithHistory o d h s in
  lasts s' = lasts s ∧ actives s' = actives s ∧ collaterals s' = collaterals s ∧ gen s' = gen s.
Proof. simpl. unfold RecordCollateralDelegationWithHistory. by repeat case_match. Qed.

Lemma record_inline_pings e k o h d s :
  let s' := record_inline e k o h d s in
  lasts s' = lasts s ∧ actives s' = actives s ∧ collaterals s' = collaterals s ∧ gen s' = gen s.
Proof. simpl. unfold record_inline. repeat case_match; try done. apply Record_pings. Qed.

Lemma heights_asc s k : reg_ok s → asc (default [] (actives s !! k)).
Proof.
  intros Hs. destruct (actives s !! k) as [hs|] eqn:E; simpl; [|constructor].
  by apply (ok_actives s Hs) in E as (_ & _ & ?).
Qed.

Lemma last_nonempty {A} (l : list A) d : l ≠ [] → last l = Some (default d (last l)).
Proof. intros Hl. destruct (last l) eqn:E; [done|]. by apply last_None in E. Qed.

Lemma store_ping_ok k o h s :
  reg_ok s → IsValid k = true → (∀ k', collaterals s !! k' = Some o → k' = k) →
  reg_ok (store_ping k o h s).
Proof.
  intros Hs Hk Ho. pose proof (heights_asc s k Hs) as Ha.
  destruct (add_height_spec h _ Ha) as (Hasc & _). pose proof (add_height_nonempty h _ Ha) as Hne.
  apply reg_ok_pings; [done| | |].
  - apply map_Forall_insert_2; [|apply (ok_actives s Hs)]. by split.
  - intros k' h'. destruct (decide (k' = k)) as [->|Hkk].
    + rewrite !lookup_insert_eq. intros [= <-]. eexists. split; [done|]. by apply last_nonempty.
    + rewrite !lookup_insert_ne by done. apply (ok_lasts s Hs).
  - intros k1 k2 o'. rewrite !lookup_insert_Some.
    intros [[<- <-]|[? H1]] [[<- H2]|[? H2]]; [done|symmetry; by apply Ho|subst; by apply Ho|].
    by apply (ok_collaterals s Hs k1 k2 o').
Qed.

Lemma auth_valid e s k o h d : IsValidMasternodeCollateralAndAuth e s k o h d = true → IsValid k = true.
Proof. unfold IsValidMasternodeCollateralAndAuth. by destruct (IsValid k). Qed.

Lemma Register_ok e k o h d s :
  reg_ok s → reg_ok (RegisterOnChainMasternodePing e k o h d s).1.
Proof.
  intros Hs. rewrite Register_unfold. case_match eqn:Ha; [|done].
  apply reg_ok_bump, store_ping_ok; [by apply evict_ok, record_inline_ok|by eapply auth_valid|].
  intros k'. destruct (evict_lookup k o (record_inline e k o h d s) k') as (_ & _ & ->).
  case_decide as Hn; [done|]. intros E. destruct (decide (k' = k)); [done|]. by destruct Hn.
Qed.

(** ** Disconnecting *)

(** What is left of a key's heights. *)
Definition dropped (h : Z) (hs : list Z) : option (list Z) :=
  match set_erase h hs with [] => None | hs' => Some hs' end.

Lemma dropped_other h hs : heights_ok hs → h ∉ hs → dropped h hs = Some hs.
Proof.
  intros [Hne _] Hn. unfold dropped. assert (set_erase h hs = hs) as ->; [|by destruct hs].
  unfold set_erase. induction hs as [|x hs IH]; [done|].
  rewrite filter_cons_True by set_solver. f_equal. destruct hs; [done|]. apply IH; [done|set_solver].
Qed.

Lemma drop_step_pings h s em k hs :
  reg_ok s → actives s !! k = Some hs →
  let s' := (drop_step h (s, em) (k, hs)).1 in
  reg_ok s' ∧
  (∀ k', actives s' !! k' = if decide (k' = k) then dropped h hs else actives s !! k') ∧
  (∀ k', lasts s' !! k' =
     if decide (k' = k ∧ h ∈ hs) then dropped h hs ≫= last else lasts s !! k') ∧
  collaterals s' = collaterals s.
Proof.
  intros Hs Hk. destruct (ok_actives s Hs k hs Hk) as (Hv & Hok). simpl. unfold drop_step.
  destruct (decide (h ∈ hs)) as [Hin|Hin].
  - pose proof (set_erase_asc h hs (proj2 Hok)) as He.
    destruct (last (set_erase h hs)) as [m|] eqn:El; simpl.
    + assert (dropped h hs = Some (set_erase h hs)) as ->
        by (unfold dropped; by destruct (set_erase h hs)).
      split_and!; [| | |done].
      * apply reg_ok_pings; [done| | |apply (ok_collaterals s Hs)].
        -- apply map_Forall_insert_2; [|apply (ok_actives s Hs)].
           split; [done|]. split; [by intros E; rewrite E in El|done].
        -- intros k' h'. destruct (decide (k' = k)) as [->|].
           ++ rewrite !lookup_insert_eq. intros [= <-]. eauto.
           ++ rewrite !lookup_insert_ne by done. apply (ok_lasts s Hs).
      * intros k'. case_decide; subst; [by rewrite lookup_insert_eq|by rewrite lookup_insert_ne].
      * intros k'. case_decide as Hc; [destruct Hc as [-> _]; by rewrite lookup_insert_eq|].
        rewrite lookup_insert_ne by naive_solver. done.
    + apply last_None in El. assert (dropped h hs = None) as -> by (unfold dropped; by rewrite El).
      split_and!; [| | |done].
      * apply reg_ok_pings; [done|apply map_Forall_delete, (ok_actives s Hs)| |apply (ok_collaterals s Hs)].
        intros k' h'. rewrite lookup_delete_Some. intros [? Hl].
        rewrite lookup_delete_ne by done. by apply (ok_lasts s Hs).
      * intros k'. case_decide; subst; [by rewrite lookup_delete_eq|by rewrite lookup_delete_ne].
      * intros k'. case_decide as Hc; [destruct Hc as [-> _]; by rewrite lookup_delete_eq|].
        rewrite lookup_delete_ne by naive_solver. done.
  - simpl. rewrite (dropped_other h hs Hok Hin). split_and!; [done| | |done].
    + intros k'. case_decide; by subst.
    + intros k'. by rewrite decide_False by tauto.
Qed.

Lemma drop_step_emptied h s em k hs :
  (drop_step h (s, em) (k, hs)).2 =
  if decide (h ∈ hs ∧ dropped h hs = None) then k :: em else em.
Proof.
  unfold drop_step, dropped. destruct (decide (h ∈ hs)).
  - destruct (last (set_erase h hs)) eqn:El.
    + rewrite decide_False; [done|]. intros [_ E]. by destruct (set_erase h hs).
    + apply last_None in El. rewrite El. by rewrite decide_True.
  - by rewrite decide_False by tauto.
Qed.

#[local] Arguments drop_step : simpl never.

(** The loop visits each key once, with the heights the key has at that time. *)
Lemma drop_fold h l s em :
  reg_ok s → NoDup l.*1 → (∀ k hs, (k, hs) ∈ l → actives s !! k = Some hs) →
  let r := foldl (drop_step h) (s, em) l in
  reg_ok r.1 ∧ collaterals r.1 = collaterals s ∧
  (∀ k, k ∈ l.*1 → actives r.1 !! k = actives s !! k ≫= dropped h) ∧
  (∀ k, k ∉ l.*1 → actives r.1 !! k = actives s !! k) ∧
  (∀ k hs, (k, hs) ∈ l → h ∈ hs → lasts r.1 !! k = dropped h hs ≫= last) ∧
  (∀ k, (∀ hs, (k, hs) ∈ l → h ∉ hs) → lasts r.1 !! k = lasts s !! k) ∧
  (∀ k, k ∈ r.2 ↔ k ∈ em ∨ ∃ hs, (k, hs) ∈ l ∧ h ∈ hs ∧ dropped h hs = None).
Proof.
  revert s em. induction l as [|[k0 hs0] l IH]; intros s em Hs Hnd Hl; simpl.
  { split_and!; try done; [set_solver|set_solver|]. intros k. set_solver. }
  rewrite fmap_cons in Hnd. apply NoDup_cons in Hnd as [Hk0 Hnd]. simpl in *.
  assert (actives s !! k0 = Some hs0) as Hact by (apply Hl; left).
  destruct (drop_step_pings h s em k0 hs0 Hs Hact) as (Hs1 & Ha1 & Hl1 & Hc1).
  pose proof (drop_step_emptied h s em k0 hs0) as He1.
  destruct (drop_step h (s, em) (k0, hs0)) as [s1 em1]. simpl in *.
  assert (∀ k hs, (k, hs) ∈ l → k ≠ k0) as Hne.
  { intros k hs Hin ->. apply Hk0. apply list_elem_of_fmap. by exists (k0, hs). }
  destruct (IH s1 em1 Hs1 Hnd) as (Hs2 & Hc2 & Hin2 & Hout2 & Hlin2 & Hlout2 & Hem2).
  { intros k hs Hin. rewrite Ha1, decide_False by (by eapply Hne). apply Hl. by right. }
  split_and!; [done|congruence| | | | |].
  - intros k [->|Hk]%elem_of_cons.
    + rewrite Hout2 by done. rewrite Ha1, decide_True by done. by rewrite Hact.
    + rewrite Hin2 by done. rewrite Ha1, decide_False; [done|]. by intros ->.
  - intros k Hk. apply not_elem_of_cons in Hk as [? ?].
    by rewrite Hout2, Ha1, decide_False.
  - intros k hs [[= -> ->]|Hin]%elem_of_cons Hh; [|by apply Hlin2].
    rewrite Hlout2 by (intros ? Hx; by apply Hne in Hx). by rewrite Hl1, decide_True.
  - intros k Hk. rewrite Hlout2 by (intros; apply Hk; by right).
    rewrite Hl1, decide_False; [done|]. intros [-> Hin]. apply (Hk hs0); [left|done].
  - intros k. rewrite Hem2, He1. setoid_rewrite elem_of_cons.
    destruct (decide (h ∈ hs0 ∧ dropped h hs0 = None)) as [Hd|Hd]; rewrite ?elem_of_cons.
    + split; [intros [[->|]|(hs & ? & ?)]; eauto 6|].
      intros [?|(hs & [[= -> ->]|?] & ?)]; [left; by right|left; by left|right; eauto].
    + split; [intros [?|(hs & ? & ?)]; [by left|right; eauto]|].
      intros [?|(hs & [[= -> ->]|?] & ?)]; [by left|tauto|right; eauto].
Qed.

(** [DropHeight] takes the height out of every set, keeps the last activity of a key
    its greatest remaining height, and returns the keys that have none left. *)
Lemma DropHeight_spec h s :
  reg_ok s →
  let r := DropHeight h s in
  reg_ok r.1 ∧ collaterals r.1 = collaterals s ∧
  (∀ k, actives r.1 !! k = actives s !! k ≫= dropped h) ∧
  (∀ k hs, actives s !! k = Some hs → h ∈ hs → lasts r.1 !! k = dropped h hs ≫= last) ∧
  (∀ k, (∀ hs, actives s !! k = Some hs → h ∉ hs) → lasts r.1 !! k = lasts s !! k) ∧
  (∀ k, k ∈ r.2 ↔ ∃ hs, actives s !! k = Some hs ∧ h ∈ hs ∧ dropped h hs = None).
Proof.
  intros Hs. unfold DropHeight.
  destruct (drop_fold h (map_to_list (actives s)) s [] Hs) as (H1 & H2 & H3 & H4 & H5 & H6 & H7).
  { apply NoDup_fst_map_to_list. }
  { intros k hs. by rewrite elem_of_map_to_list. }
  setoid_rewrite elem_of_map_to_list in H5. setoid_rewrite elem_of_map_to_list in H6.
  setoid_rewrite elem_of_map_to_list in H7.
  split_and!; [done..| |done|done|].
  - intros k. destruct (actives s !! k) as [hs|] eqn:E; simpl.
    + rewrite H3, E; [done|]. apply list_elem_of_fmap. exists (k, hs).
      by rewrite elem_of_map_to_list.
    + rewrite H4, E; [done|]. rewrite list_elem_of_fmap. intros ([k' hs] & -> & Hin).
      apply elem_of_map_to_list in Hin. simpl in *. congruence.
  - intros k. rewrite H7. set_solver.
Qed.

Lemma forget_key_ok k s : reg_ok s → reg_ok (forget_key k s).
Proof.
  intros Hs. apply reg_ok_pings; [done|apply (ok_actives s Hs)| |].
  - apply map_Forall_delete, (ok_lasts s Hs).
  - intros k1 k2 o. rewrite !lookup_delete_Some. intros [_ ?] [_ ?]. by eapply (ok_collaterals s Hs).
Qed.

(** ** Loading the cache *)

(** The heights of a key that a cache written at height [h] keeps. *)
Definition kept (h : Z) (hs : list Z) : option (list Z) :=
  match filter (λ x, x ≤ h) hs with [] => None | v => Some v end.

Lemma set_insert_last x s : Forall (λ y, y < x) s → set_insert x s = s ++ [x].
Proof.
  induction 1 as [|y s Hy Hs IH]; [done|]. simpl.
  rewrite (proj2 (Z.ltb_ge x y)), (proj2 (Z.eqb_neq x y)) by lia. by rewrite IH.
Qed.

Lemma load_heights h hs :
  asc hs →
  foldl (λ v x, if x <=? h then set_insert x v else v) [] hs = filter (λ x, x ≤ h) hs.
Proof.
  induction hs as [|x hs IH] using rev_ind; intros Hs; [done|].
  apply StronglySorted_app in Hs as (Hx & Hs & _).
  rewrite foldl_snoc, filter_app, IH by done. rewrite filter_cons, filter_nil.
  destruct (Z.leb_spec x h); [rewrite decide_True by done|by rewrite decide_False, app_nil_r by lia].
  apply set_insert_last. apply Forall_forall. intros y [_ Hy]%list_elem_of_filter.
  apply Hx; [done|]. by left.
Qed.

Lemma kept_spec h hs v :
  asc hs → kept h hs = Some v → heights_ok v ∧ ∀ x, x ∈ v ↔ x ≤ h ∧ x ∈ hs.
Proof.
  intros Hs. unfold kept. destruct (filter _ hs) as [|y v'] eqn:E; [done|]. intros [= <-].
  rewrite <- E. split; [|intros x; by rewrite list_elem_of_filter]. split; [by rewrite E|].
  clear E. induction Hs as [|z s Hs IH Hz]; [constructor|].
  rewrite filter_cons. case_decide; [|done]. constructor; [done|].
  apply Forall_forall. intros x [_ Hx]%list_elem_of_filter. by apply (proj1 (Forall_forall _ _) Hz).
Qed.

Lemma kept_last h hs x : last hs = Some x → x ≤ h → is_Some (kept h hs).
Proof.
  intros Hx Hle. assert (x ∈ filter (λ y, y ≤ h) hs) as Hin.
  { apply list_elem_of_filter. split; [done|]. by apply last_Some_elem_of. }
  unfold kept. destruct (filter _ hs); [by apply elem_of_nil in Hin|eauto].
Qed.

Lemma kept_all h hs : hs ≠ [] → Forall (λ x, x ≤ h) hs → kept h hs = Some hs.
Proof.
  intros Hne Hle. unfold kept. assert (filter (λ x, x ≤ h) hs = hs) as ->; [|by destruct hs].
  clear Hne. induction Hle; [done|]. rewrite filter_cons_True by done. by f_equal.
Qed.

Lemma load_active_foldr h l :
  NoDup l.*1 → Forall (λ kv, IsValid kv.1 = true ∧ heights_ok kv.2) l →
  let m := foldr (λ kv m, load_active_step h m kv) (∅, ∅) l in
  let hss : gmap CPubKey (list Z) := list_to_map l in
  ∀ k, m.2 !! k = hss !! k ≫= kept h ∧ m.1 !! k = (hss !! k ≫= kept h) ≫= last.
Proof.
  simpl. induction l as [|[k0 hs] l IH]; intros Hnd Hl k; [done|].
  rewrite fmap_cons in Hnd. apply NoDup_cons in Hnd as [Hk0 Hnd]. simpl in Hk0.
  apply Forall_cons in Hl as [[Hv [Hne Hs]] Hl]. specialize (IH Hnd Hl). simpl in Hv, Hne, Hs.
  simpl. set (m := foldr _ _ l) in *. unfold load_active_step. simpl. rewrite Hv. simpl.
  rewrite load_heights by done. destruct (decide (k = k0)) as [->|Hk].
  - rewrite lookup_insert_eq. simpl. unfold kept.
    destruct (filter _ hs) as [|x v] eqn:E; simpl.
    + destruct (IH k0) as [-> ->]. by rewrite (not_elem_of_list_to_map_1 l k0).
    + rewrite (last_nonempty (x :: v) 0) by done. simpl. by rewrite !lookup_insert_eq.
  - rewrite lookup_insert_ne by done. destruct (IH k) as [<- <-].
    destruct (last (filter _ hs)); simpl; [|done]. by rewrite !lookup_insert_ne.
Qed.

Lemma foldl_rev {A B} (f : B → A → B) b l : foldl f b l = foldr (λ x b, f b x) b (rev l).
Proof. revert b. induction l as [|x l IH]; intros b; simpl; [done|]. by rewrite IH, foldr_snoc. Qed.

Lemma load_active_spec h s :
  reg_ok s →
  let m := foldl (load_active_step h) (∅, ∅) (map_to_list (actives s)) in
  ∀ k, m.2 !! k = actives s !! k ≫= kept h ∧ m.1 !! k = (actives s !! k ≫= kept h) ≫= last.
Proof.
  intros Hs. simpl.
  rewrite foldl_rev.
  assert (list_to_map (rev (map_to_list (actives s))) = actives s) as Hm.
  { rewrite <- (list_to_map_to_list (actives s)) at 2. apply list_to_map_proper.
    - rewrite <- Permutation_rev. apply NoDup_fst_map_to_list.
    - by rewrite <- Permutation_rev. }
  intros k. rewrite <- Hm. rewrite Hm at 1 3. apply load_active_foldr.
  - rewrite <- Permutation_rev. apply NoDup_fst_map_to_list.
  - rewrite <- Permutation_rev. apply Forall_forall. intros [k' hs] Hin%elem_of_map_to_list.
    by apply (ok_actives s Hs).
Qed.

Lemma load_last_id h m l :
  (∀ k v, (k, v) ∈ l → v ≤ h → is_Some (m.1 !! k)) → foldl (load_last_step h) m l = m.
Proof.
  induction l as [|[k v] l IH]; intros Hl; [done|]. simpl.
  assert (load_last_step h m (k, v) = m) as ->.
  { unfold load_last_step. simpl. destruct (IsValid k); [|done]. simpl.
    destruct (Z.leb_spec v h) as [Hv|]; [|done]. simpl.
    destruct (Hl k v) as [x Hx]; [left|done|]. by rewrite Hx. }
  apply IH. intros k' v' Hin. apply (Hl k' v'). by right.
Qed.

Lemma load_first_id f l : (∀ o d, (o, d) ∈ l → is_Some (f !! o)) → foldl load_first_step f l = f.
Proof.
  induction l as [|[o d] l IH]; intros Hl; [done|]. simpl.
  destruct (Hl o d) as [x Hx]; [left|]. unfold load_first_step at 2. simpl. rewrite Hx.
  apply IH. intros o' d' Hin. apply (Hl o' d'). by right.
Qed.

(** Loading the snapshot of a registry keeps of each key the heights up to the
    cached block and nothing else changes. *)
Lemma Load_spec s0 h s :
  reg_ok s0 →
  let r := LoadMasternodePingState (snapshot s0) h s in
  (∀ k, actives r !! k = actives s0 !! k ≫= kept h) ∧
  (∀ k, lasts r !! k = (actives s0 !! k ≫= kept h) ≫= last) ∧
  collaterals r = collaterals s0 ∧ delegations r = delegations s0 ∧ firsts r = firsts s0 ∧
  histories r = histories s0 ∧ gen r = u64 (gen s + 1).
Proof.
  intros Hs0. unfold LoadMasternodePingState, snapshot, cleared. cbn [lasts actives collaterals
    delegations firsts histories gen mapLastActiveHeight mapActiveHeights mapCollateralOutpoints
    mapCollateralDelegations cachedFirstHeight cachedHistory].
  pose proof (load_active_spec h s0 Hs0) as Ha. simpl in Ha.
  rewrite load_last_id.
  - split_and!; [intros k; apply Ha..|done|done| |done|done]. apply load_first_id.
    intros o d Hd%elem_of_map_to_list. apply (ok_firsts s0 Hs0). eauto.
  - intros k v Hin%elem_of_map_to_list Hv. destruct (Ha k) as [_ ->].
    destruct (ok_lasts s0 Hs0 k v Hin) as (hs & Hk & Hl). rewrite Hk. simpl.
    destruct (kept_last h hs v Hl Hv) as [w Hw]. rewrite Hw. simpl.
    destruct (ok_actives s0 Hs0 k hs Hk) as (_ & _ & Hasc).
    destruct (kept_spec h hs w Hasc Hw) as [[Hne _] _]. rewrite (last_nonempty w 0) by done. eauto.
Qed.

Lemma Load_ok s0 h s : reg_ok s0 → reg_ok (LoadMasternodePingState (snapshot s0) h s).
Proof.
  intros Hs0. destruct (Load_spec s0 h s Hs0) as (Ha & Hl & Hc & Hd & Hf & Hh & _).
  split.
  - intros k v. rewrite Ha. intros (hs & Hk & Hv)%bind_Some.
    destruct (ok_actives s0 Hs0 k hs Hk) as (? & _ & Hasc).
    split; [done|]. by destruct (kept_spec h hs v Hasc Hv).
  - intros k x. rewrite Hl, Ha. intros (v & -> & ?)%bind_Some. eauto.
  - rewrite Hc. apply (ok_collaterals s0 Hs0).
  - rewrite Hf, Hd. apply (ok_firsts s0 Hs0).
  - rewrite Hh, Hd. apply (ok_histories s0 Hs0).
Qed.

(** ** Reachable registries *)

(** What the code does to the registry, in any order: pings of connected blocks,
    delegations, the three actions of a disconnected block, and a restart, which
    clears the registry and may load the snapshot of an earlier one. *)
Inductive reachable : Registry → Prop :=
| reach_start g : reachable (empty_registry g)
| reach_register e k o h d s :
    reachable s → reachable (RegisterOnChainMasternodePing e k o h d s).1
| reach_record o d h s : reachable s → reachable (RecordCollateralDelegationWithHistory o d h s)
| reach_revert o k h s : reachable s → reachable (RevertOnChainCollateralDelegation o k h s).1
| reach_drop h s : reachable s → reachable (DropHeight h s).1
| reach_forget k s : reachable s → reachable (forget_key k s)
| reach_bump s : reachable s → reachable (BumpMasternodePingStateGen s)
| reach_clear s : reachable s → reachable (cleared s)
| reach_load s0 h s : reachable s0 → reachable s → reachable (LoadMasternodePingState (snapshot s0) h s).

Lemma reachable_ok s : reachable s → reg_ok s.
Proof.
  induction 1; [apply empty_registry_ok|by apply Register_ok|by apply RecordCollateralDelegation_ok|
    by apply RevertOnChainCollateralDelegation_ok|by apply DropHeight_spec|by apply forget_key_ok|
    by apply reg_ok_bump|apply empty_registry_ok|by apply Load_ok].
Qed.

(** ** What the operations promise *)

(** The evidence for a key: an unspent coin of the collateral's value that pays to
    the key itself, or to an owner who signed a delegation to the key, carried by the
    transaction or recorded before. *)
Definition authorised (e : Env) (s : Registry) (k : CPubKey) (o : COutPoint)
    (inline : option COnChainMasternodeDelegation) : Prop :=
  IsValid k = true ∧ IsNull o = false ∧
  ∃ GetCoin coin,
    coinsView e = Some GetCoin ∧ GetCoin o = Some coin ∧ nValue (out coin) = 4200 * COIN ∧
    (scriptPubKey (out coin) = GetScriptForKey e k ∨
     ∃ del, (inline = Some del ∨ delegations s !! o = Some del) ∧ pubKeyMasternode del = k ∧
       scriptPubKey (out coin) = GetScriptForKey e (pubKeyCollateralAddress del) ∧
       VerifyOnChainDelegationSignature e del o = true).

Lemma delegation_ok_spec e k o coin del :
  delegation_ok e k o coin del = true ↔
  pubKeyMasternode del = k ∧ scriptPubKey (out coin) = GetScriptForKey e (pubKeyCollateralAddress del) ∧
  VerifyOnChainDelegationSignature e del o = true.
Proof.
  unfold delegation_ok. rewrite !andb_true_iff, !bool_decide_eq_true.
  split; [tauto|]. intros (? & ? & Hv). split_and!; try done.
  unfold VerifyOnChainDelegationSignature in Hv. by destruct (IsValid (pubKeyCollateralAddress del)).
Qed.

Lemma option_delegation_spec e k o coin (od : option COnChainMasternodeDelegation) :
  match od with Some del => delegation_ok e k o coin del | None => false end = true ↔
  ∃ del, od = Some del ∧ pubKeyMasternode del = k ∧
    scriptPubKey (out coin) = GetScriptForKey e (pubKeyCollateralAddress del) ∧
    VerifyOnChainDelegationSignature e del o = true.
Proof.
  destruct od as [del|]; [rewrite delegation_ok_spec|]; split.
  - eauto.
  - by intros (? & [= <-] & ?).
  - done.
  - by intros (? & ? & ?).
Qed.

Lemma auth_spec e s k o h inline :
  IsValidMasternodeCollateralAndAuth e s k o h inline = true ↔ authorised e s k o inline.
Proof.
  unfold IsValidMasternodeCollateralAndAuth, authorised.
  destruct (IsValid k); [|by split; [|intros (? & _)]].
  destruct (IsNull o); [by split; [|intros (_ & ? & _)]|]. simpl.
  destruct (coinsView e) as [GetCoin|]; [|by split; [|intros (_ & _ & ? & ? & ? & _)]].
  destruct (GetCoin o) as [coin|] eqn:Hc;
    [|split; [done|intros (_ & _ & ? & ? & [= <-] & ? & _); congruence]].
  unfold GetMasternodeNodeCollateral, IsSpent, TxOut_IsNull.
  destruct (Z.eqb_spec (nValue (out coin)) (-1)) as [Hm1|_].
  { split; [done|]. intros (_ & _ & ? & coin' & [= <-] & Hc' & Hv & _). simplify_eq.
    unfold COIN in Hv. lia. }
  destruct (Z.eqb_spec (nValue (out coin)) (4200 * COIN)) as [Hval|Hval]; simpl;
    [|split; [done|by intros (_ & _ & ? & coin' & [= <-] & Hc' & Hv & _); simplify_eq]].
  transitivity (scriptPubKey (out coin) = GetScriptForKey e k ∨
     ∃ del, (inline = Some del ∨ delegations s !! o = Some del) ∧ pubKeyMasternode del = k ∧
       scriptPubKey (out coin) = GetScriptForKey e (pubKeyCollateralAddress del) ∧
       VerifyOnChainDelegationSignature e del o = true).
  - case_bool_decide; [split; [by left|done]|].
    pose proof (option_delegation_spec e k o coin inline) as Hi.
    pose proof (option_delegation_spec e k o coin (delegations s !! o)) as Hd.
    destruct (match inline with Some del => _ | None => false end).
    + split; [|done]. intros _. destruct (proj1 Hi eq_refl) as (? & ? & ?). right. eauto 6.
    + rewrite Hd. split.
      * intros (del & ? & ?). right. eauto.
      * intros [?|(del & [Hdel|Hdel] & Hr)]; [done| |eauto].
        exfalso. enough (false = true) by done. apply Hi. eauto.
  - split; [|by intros (_ & _ & ? & ? & [= <-] & ? & _ & ?); simplify_eq].
    intros Hor. split_and!; [done..|]. eauto 8.
Qed.

(** Some ping of the key lies in the window that ends at [q]. *)
Definition pinged (s : Registry) (k : CPubKey) (q w : Z) : Prop :=
  ∃ hs h, actives s !! k = Some hs ∧ h ∈ hs ∧ h ≤ q ∧ q - h ≤ w.

Lemma active_spec s k q w :
  reg_ok s → IsMasternodeActiveAtHeight s k q w = true ↔ IsValid k = true ∧ pinged s k q w.
Proof.
  intros Hs. unfold IsMasternodeActiveAtHeight, pinged.
  destruct (IsValid k); [|by split; [|intros []]]. simpl.
  destruct (actives s !! k) as [hs|] eqn:Ha.
  - destruct (ok_actives s Hs k hs Ha) as (_ & _ & Hasc).
    pose proof (upper_bound_window q w hs Hasc) as Hu.
    destruct (match upper_bound q hs with O => false | S _ => _ end).
    + split; [|done]. intros _. split; [done|]. destruct (proj1 Hu eq_refl) as (h & ?). eauto.
    + assert (¬ ∃ h, h ∈ hs ∧ h ≤ q ∧ q - h ≤ w) as Hn by (rewrite <- Hu; done).
      destruct (lasts s !! k) as [h|] eqn:Hl.
      * rewrite in_window_spec. destruct (ok_lasts s Hs k h Hl) as (hs' & Ha' & Hlast). simplify_eq.
        split; [|intros (_ & ? & x & [= <-] & ?); by destruct Hn; eauto].
        intros ?. destruct Hn. exists h. split; [by apply last_Some_elem_of|done].
      * split; [done|]. intros (_ & ? & x & [= <-] & ?). destruct Hn. eauto.
  - destruct (lasts s !! k) as [h|] eqn:Hl.
    + destruct (ok_lasts s Hs k h Hl) as (hs & ? & _). congruence.
    + by split; [|intros (_ & ? & ? & ? & _)].
Qed.

(** ** A concrete registry *)

Definition demo_key (b : Z) : CPubKey := 2 :: replicate 32 b.
Definition demo_out : COutPoint := MkOutPoint 77 0.
Definition demo_del (b : Z) : COnChainMasternodeDelegation :=
  MkDelegation (demo_key 9) (demo_key b) [] 0 0 0 [1].

(** One coin of the collateral's value, owned by key 9, whose signatures verify. *)
Definition demo_env : Env :=
  let view o := if decide (o = demo_out)
                then Some (NewCoin (NewTxOut (4200 * COIN) ([0x76; 0xa9; 20] ++ demo_key 9 ++ [0x88; 0xac])) 1 false false)
                else None in
  MkEnv (Some view) None None (λ k, k) (λ _ _, true).

(** The owner's ping at height 5, then a delegate's at height 8. *)
Definition demo_reg1 : Registry :=
  (RegisterOnChainMasternodePing demo_env (demo_key 9) demo_out 5 None (empty_registry 0)).1.
Definition demo_reg2 : Registry :=
  (RegisterOnChainMasternodePing demo_env (demo_key 1) demo_out 8 (Some (demo_del 1)) demo_reg1).1.

Lemma demo_reg2_reachable : reachable demo_reg2.
Proof. repeat constructor. Qed.

(** ** Theorems *)

(** C10: in every registry the code can reach, by registrations, delegations, block
    disconnections and restarts in any order, no two keys hold the same collateral;
    every key's ping heights are a nonempty strictly ascending set whose greatest
    element is the recorded last activity; a collateral has a first height exactly
    when it has a delegation, and a delegation history of 1 to 16 entries only when
    it has one. *)
Theorem registry_invariant s :
  reachable s →
  (∀ k1 k2 o, collaterals s !! k1 = Some o → collaterals s !! k2 = Some o → k1 = k2) ∧
  (∀ k hs, actives s !! k = Some hs → IsValid k = true ∧ hs ≠ [] ∧ StronglySorted Z.lt hs) ∧
  (∀ k h, lasts s !! k = Some h →
     ∃ hs, actives s !! k = Some hs ∧ h ∈ hs ∧ Forall (λ x, x ≤ h) hs) ∧
  (∀ o, is_Some (firsts s !! o) ↔ is_Some (delegations s !! o)) ∧
  (∀ o v, histories s !! o = Some v →
     (1 ≤ length v ≤ 16)%nat ∧ is_Some (delegations s !! o)).
Proof.
  intros Hs%reachable_ok. split_and!; [apply (ok_collaterals s Hs)| | |apply (ok_firsts s Hs)|].
  - intros k hs Hk. by destruct (ok_actives s Hs k hs Hk) as (? & ? & ?).
  - intros k h Hk. destruct (ok_lasts s Hs k h Hk) as (hs & Ha & Hl). exists hs. split; [done|].
    apply asc_last; [|done]. by destruct (ok_actives s Hs k hs Ha) as (_ & _ & ?).
  - intros o v Hv. destruct (ok_histories s Hs o v Hv) as (Hne & ? & ?).
    split; [|done]. destruct v; [done|]. simpl in *. lia.
Qed.

Lemma registry_invariant_witness :
  collaterals demo_reg2 !! demo_key 1 = Some demo_out ∧ collaterals demo_reg2 !! demo_key 9 = None.
Proof.
  assert (collaterals demo_reg2 !! demo_key 1 = Some demo_out) as H1 by (vm_compute; reflexivity).
  split; [exact H1|].
  destruct (registry_invariant demo_reg2 demo_reg2_reachable) as (Hinj & _).
  destruct (collaterals demo_reg2 !! demo_key 9) as [o|] eqn:E; [|done].
  assert (o = demo_out) as -> by (vm_compute in E; discriminate E).
  specialize (Hinj _ _ _ H1 E). discriminate Hinj.
Defined.

(** A masternode counts as active at a height exactly when its key is valid and
    one of its recorded pings lies in the window that ends there, although the code
    looks only at one element of the set and at the last activity. *)
Theorem IsMasternodeActive_iff s k q w :
  reachable s →
  IsMasternodeActiveAtHeight s k q w = true ↔
  IsValid k = true ∧ ∃ hs h, actives s !! k = Some hs ∧ h ∈ hs ∧ h ≤ q ∧ q - h ≤ w.
Proof. intros Hs. by apply active_spec, reachable_ok. Qed.

Lemma IsMasternodeActive_iff_witness :
  ∃ hs h, actives demo_reg2 !! demo_key 1 = Some hs ∧ h ∈ hs ∧ h ≤ 10 ∧ 10 - h ≤ 2880.
Proof.
  apply (IsMasternodeActive_iff demo_reg2 (demo_key 1) 10 2880 demo_reg2_reachable).
  vm_compute. reflexivity.
Defined.

Lemma Register_lookup e k o h d s k' :
  let s' := BumpMasternodePingStateGen (store_ping k o h (evict k o (record_inline e k o h d s))) in
  (k' = k →
     actives s' !! k' = Some (add_height h (default [] (actives s !! k))) ∧
     collaterals s' !! k' = Some o) ∧
  (k' ≠ k → collaterals s !! k' ≠ Some o →
     lasts s' !! k' = lasts s !! k' ∧ actives s' !! k' = actives s !! k' ∧
     collaterals s' !! k' = collaterals s !! k') ∧
  (k' ≠ k → collaterals s' !! k' ≠ Some o).
Proof.
  set (s1 := record_inline e k o h d s).
  destruct (record_inline_pings e k o h d s) as (Hl & Ha & Hc & _). fold s1 in Hl, Ha, Hc.
  simpl. split_and!.
  - intros ->. rewrite !lookup_insert_eq. split; [|done]. do 2 f_equal.
    destruct (evict_lookup k o s1 k) as (_ & -> & _). rewrite decide_False, Ha; [done|].
    by intros [? _].
  - intros Hk Ho. rewrite !lookup_insert_ne by done.
    destruct (evict_lookup k o s1 k') as (-> & -> & ->). rewrite <- Hl, <- Ha, <- Hc.
    rewrite <- Hc in Ho. rewrite !decide_False by (by intros [_ ?]). done.
  - intros Hk. rewrite lookup_insert_ne by done.
    destruct (evict_lookup k o s1 k') as (_ & _ & ->). case_decide as Hn; [done|].
    intros E. by destruct Hn.
Qed.

(** Adding a ping at [h] adds exactly the window of [h]: what trimming drops is
    older than any window of 2880 that ends less than 2880 blocks before [h]. *)
Lemma add_height_window h hs q w :
  asc hs → w ≤ 2880 → h - 2880 ≤ q →
  (∃ x, x ∈ add_height h hs ∧ x ≤ q ∧ q - x ≤ w) ↔
  (h ≤ q ∧ q - h ≤ w) ∨ ∃ x, x ∈ hs ∧ x ≤ q ∧ q - x ≤ w.
Proof.
  intros Hs Hw Hq. destruct (add_height_spec h hs Hs) as (_ & Hin & Hsub & Hkeep & _). split.
  - intros (x & Hx & ? & ?). destruct (Hsub x Hx) as [->|?]; eauto.
  - intros [?|(x & Hx & ? & ?)]; [eauto|]. exists x. split; [|done]. apply Hkeep; [done|lia].
Qed.

Lemma pinged_store s s' k h q w :
  reg_ok s → actives s' !! k = Some (add_height h (default [] (actives s !! k))) →
  w ≤ 2880 → h - 2880 ≤ q →
  pinged s' k q w ↔ (h ≤ q ∧ q - h ≤ w) ∨ pinged s k q w.
Proof.
  intros Hs Ha Hw Hq. pose proof (add_height_window h _ q w (heights_asc s k Hs) Hw Hq) as Hadd.
  unfold pinged. rewrite Ha. split.
  - intros (? & x & [= <-] & Hx). destruct (proj1 Hadd (ex_intro _ x Hx)) as [?|(y & Hy & ?)]; [by left|].
    right. destruct (actives s !! k) as [hs|]; [eauto|by apply elem_of_nil in Hy].
  - intros Hor. enough (∃ x, x ∈ add_height h (default [] (actives s !! k)) ∧ x ≤ q ∧ q - x ≤ w)
      as (x & ?) by eauto.
    apply Hadd. destruct Hor as [?|(hs & x & -> & ?)]; eauto.
Qed.

(** [RegisterOnChainMasternodePing] accepts a ping exactly when the key is
    authorised: the collateral is an unspent coin of 4200 units that pays to the key
    or to an owner who signed its delegation; a refused ping changes nothing.  An
    accepted one makes the key the only holder of the collateral, leaves the keys of
    other collaterals alone, and adds to the key's activity exactly the windows that
    contain the new height: the trimming of old heights is invisible to every query
    with the window of 2880 blocks the code uses, up to 2880 blocks back. *)
Theorem RegisterOnChainMasternodePing_spec e k o h d s :
  reachable s →
  let '(s', ok) := RegisterOnChainMasternodePing e k o h d s in
  (ok = true ↔ authorised e s k o d) ∧
  (ok = false → s' = s) ∧
  (ok = true →
     (∀ k', collaterals s' !! k' = Some o ↔ k' = k) ∧
     (∀ k', k' ≠ k → collaterals s !! k' ≠ Some o →
        lasts s' !! k' = lasts s !! k' ∧ actives s' !! k' = actives s !! k' ∧
        collaterals s' !! k' = collaterals s !! k') ∧
     (∀ q w, w ≤ 2880 → h - 2880 ≤ q →
        IsMasternodeActiveAtHeight s' k q w =
        in_window q w h || IsMasternodeActiveAtHeight s k q w)).
Proof.
  intros Hs%reachable_ok. rewrite Register_unfold. pose proof (auth_spec e s k o h d) as Hauth.
  pose proof (Register_ok e k o h d s Hs) as Hok. rewrite Register_unfold in Hok.
  destruct (IsValidMasternodeCollateralAndAuth e s k o h d) eqn:Hb; [|by split_and!].
  simpl in Hok. split_and!; [by rewrite <- Hauth|done|]. intros _.
  pose proof (λ k', Register_lookup e k o h d s k') as Hl. split_and!.
  - intros k'. destruct (Hl k') as (H1 & _ & H3). destruct (decide (k' = k)) as [E|E].
    + split; [done|]. intros _. by apply H1.
    + split; [|done]. intros ?. by destruct (H3 E).
  - intros k'. apply (Hl k').
  - intros q w Hw Hq. apply eq_true_iff_eq. rewrite orb_true_iff, in_window_spec.
    rewrite !active_spec by done. destruct (Hl k) as (H1 & _ & _).
    rewrite (pinged_store s _ k h q w Hs) by (by try apply H1).
    apply auth_valid in Hb. tauto.
Qed.

Lemma RegisterOnChainMasternodePing_spec_witness :
  authorised demo_env demo_reg1 (demo_key 1) demo_out (Some (demo_del 1)) ∧
  ∀ k', collaterals demo_reg2 !! k' = Some demo_out ↔ k' = demo_key 1.
Proof.
  assert (reachable demo_reg1) as Hr by repeat constructor.
  pose proof (RegisterOnChainMasternodePing_spec demo_env (demo_key 1) demo_out 8
    (Some (demo_del 1)) demo_reg1 Hr) as H.
  unfold demo_reg2. revert H.
  assert ((RegisterOnChainMasternodePing demo_env (demo_key 1) demo_out 8
    (Some (demo_del 1)) demo_reg1).2 = true) as E by (vm_compute; reflexivity).
  destruct (RegisterOnChainMasternodePing _ _ _ _ _ demo_reg1) as [s' ok]. simpl in E. subst ok.
  intros (H1 & _ & H3). split; [by apply H1|]. by apply H3.
Defined.

(** ** Undoing *)

Lemma Registry_eq s s' :
  lasts s = lasts s' → actives s = actives s' → collaterals s = collaterals s' →
  delegations s = delegations s' → firsts s = firsts s' → histories s = histories s' →
  gen s = gen s' → s = s'.
Proof. destruct s, s'; simpl; congruence. Qed.

Lemma push_history_short v e : (length v < 16)%nat → push_history v e = v ++ [e].
Proof. intros. unfold push_history. rewrite length_app. simpl. by rewrite (proj2 (Nat.ltb_ge 16 _)) by lia. Qed.

Lemma insert_undo {V} `{Countable K} (m : gmap K V) i x y : m !! i = Some y → <[i := y]> (<[i := x]> m) = m.
Proof. intros. by rewrite insert_insert_eq, insert_id. Qed.

Lemma delete_undo {V} `{Countable K} (m : gmap K V) i x : m !! i = None → delete i (<[i := x]> m) = m.
Proof. intros. by rewrite delete_insert_eq, delete_id. Qed.

(** A delegation that changes the key is undone exactly, as long as its history is
    not full. *)
Lemma Revert_Record o d h s :
  reg_ok s → (∀ old, delegations s !! o = Some old → pubKeyMasternode old ≠ pubKeyMasternode d) →
  (length (default [] (histories s !! o)) < 16)%nat →
  RevertOnChainCollateralDelegation o (pubKeyMasternode d) h
    (RecordCollateralDelegationWithHistory o d h s) =
  (s, from_option pubKeyMasternode Invalid (delegations s !! o)).
Proof.
  intros Hs Hold Hlen. unfold RecordCollateralDelegationWithHistory.
  destruct (delegations s !! o) as [old|] eqn:Hd.
  - rewrite decide_True by auto. rewrite push_history_short by done.
    destruct (proj2 (ok_firsts s Hs o)) as [f Hf]; [eauto|]. rewrite Hf. simpl.
    unfold RevertOnChainCollateralDelegation. simpl. rewrite !lookup_insert_eq.
    rewrite decide_True by done. simpl. rewrite Z.leb_refl, last_snoc, removelast_last. f_equal.
    apply Registry_eq; simpl; try done; [by apply insert_undo..|].
    destruct (histories s !! o) as [v|] eqn:Hh; simpl; [|by apply delete_undo].
    destruct (ok_histories s Hs o v Hh) as (Hne & _). destruct v; [done|]. by apply insert_undo.
  - assert (firsts s !! o = None) as Hf.
    { apply eq_None_not_Some. rewrite (ok_firsts s Hs), Hd. by intros []. }
    assert (histories s !! o = None) as Hh.
    { destruct (histories s !! o) eqn:E; [|done].
      destruct (ok_histories s Hs o _ E) as (_ & _ & [x Hx]). congruence. }
    unfold RevertOnChainCollateralDelegation. simpl. rewrite !lookup_insert_eq.
    rewrite decide_True by done. simpl. rewrite Z.leb_refl, Hh. f_equal.
    apply Registry_eq; simpl; try done; by apply delete_undo.
Qed.

(** A delegation that renews the same key is not undone: reverting the block that
    carried it leaves the renewal in place of the delegation it replaced. *)
Lemma Revert_renewal o old d h f s :
  delegations s !! o = Some old → pubKeyMasternode old = pubKeyMasternode d →
  firsts s !! o = Some f → f < h →
  delegations (RevertOnChainCollateralDelegation o (pubKeyMasternode d) h
    (RecordCollateralDelegationWithHistory o d h s)).1 !! o = Some d.
Proof.
  intros Hd Hk Hf Hlt. unfold RecordCollateralDelegationWithHistory. rewrite Hd, decide_False, Hf by naive_solver.
  unfold RevertOnChainCollateralDelegation. simpl. rewrite !lookup_insert_eq, decide_True by done. simpl.
  rewrite (proj2 (Z.leb_gt h (Z.min f h))) by lia. simpl. by rewrite lookup_insert_eq.
Qed.

(** A run of delegations of one collateral, in the order blocks connect, and the
    reverts in the order the same blocks disconnect. *)
Fixpoint delegate_all (o : COutPoint) (ds : list (COnChainMasternodeDelegation * Z)) (s : Registry) :
    Registry :=
  match ds with
  | [] => s
  | (d, h) :: ds => delegate_all o ds (RecordCollateralDelegationWithHistory o d h s)
  end.

Fixpoint revert_all (o : COutPoint) (ds : list (COnChainMasternodeDelegation * Z)) (s : Registry) :
    Registry :=
  match ds with
  | [] => s
  | (d, h) :: ds => (RevertOnChainCollateralDelegation o (pubKeyMasternode d) h (revert_all o ds s)).1
  end.

(** Each delegation names another key than the one before it. *)
Fixpoint changes_key (cur : option CPubKey) (ds : list (COnChainMasternodeDelegation * Z)) : Prop :=
  match ds with
  | [] => True
  | (d, _) :: ds => cur ≠ Some (pubKeyMasternode d) ∧ changes_key (Some (pubKeyMasternode d)) ds
  end.

Definition current_key (o : COutPoint) (s : Registry) : option CPubKey :=
  pubKeyMasternode <$> delegations s !! o.

Lemma Record_current o d h s :
  current_key o (RecordCollateralDelegationWithHistory o d h s) = Some (pubKeyMasternode d).
Proof.
  unfold current_key, RecordCollateralDelegationWithHistory.
  repeat case_match; simpl; by rewrite lookup_insert_eq.
Qed.

Lemma Record_history_length o d h s :
  (length (default [] (histories (RecordCollateralDelegationWithHistory o d h s) !! o)) ≤
   S (length (default [] (histories s !! o))))%nat.
Proof.
  unfold RecordCollateralDelegationWithHistory. repeat case_match; simpl; try lia.
  rewrite lookup_insert_eq. simpl. unfold push_history. rewrite length_app. simpl.
  case_match; [|rewrite length_app; simpl; lia].
  destruct (default [] (histories s !! o)); simpl; rewrite ?length_app; simpl; lia.
Qed.

Lemma revert_delegate_all o ds s :
  reg_ok s → changes_key (current_key o s) ds →
  (length (default [] (histories s !! o)) + length ds ≤ 16)%nat →
  revert_all o ds (delegate_all o ds s) = s.
Proof.
  revert s. induction ds as [|[d h] ds IH]; intros s Hs Hc Hl; [done|]. simpl in Hc, Hl |- *.
  destruct Hc as [Hd Hc]. rewrite IH.
  - rewrite Revert_Record; [done|done| |lia]. intros old Hold E. apply Hd. unfold current_key.
    rewrite Hold. simpl. by rewrite E.
  - by apply RecordCollateralDelegation_ok.
  - by rewrite Record_current.
  - pose proof (Record_history_length o d h s). lia.
Qed.

(** C20: a reorganisation undoes delegations exactly: whatever run of key-changing
    delegations of one collateral the connected blocks record, reverting them as the
    blocks disconnect, last first, gives back the registry before the run, as long as
    the history has room for it (16 entries) and every block has one of them: within a
    block [DisconnectBlock] reverts in the order of the transactions. *)
Theorem delegations_survive_reorg o ds s :
  reachable s → changes_key (current_key o s) ds →
  (length (default [] (histories s !! o)) + length ds ≤ 16)%nat →
  revert_all o ds (delegate_all o ds s) = s.
Proof. intros Hs%reachable_ok. by apply revert_delegate_all. Qed.

(** Two delegations of one collateral in one block, reverted in the order of the block as
    [DisconnectBlock] does: the first stays, although its block is gone. *)
Lemma forward_revert_leaves_first o d1 d2 h s :
  reg_ok s → changes_key (current_key o s) [(d1, h); (d2, h)] →
  (length (default [] (histories s !! o)) + 2 ≤ 16)%nat →
  let s1 := RecordCollateralDelegationWithHistory o d1 h s in
  let s2 := RecordCollateralDelegationWithHistory o d2 h s1 in
  (RevertOnChainCollateralDelegation o (pubKeyMasternode d2) h
    (RevertOnChainCollateralDelegation o (pubKeyMasternode d1) h s2).1).1 = s1.
Proof.
  intros Hs (Hc1 & Hc2 & _) Hl s1 s2. pose proof (Record_current o d2 h s1) as Hcur. fold s2 in Hcur.
  assert ((RevertOnChainCollateralDelegation o (pubKeyMasternode d1) h s2).1 = s2) as ->.
  { unfold current_key in Hcur. unfold RevertOnChainCollateralDelegation. destruct (delegations s2 !! o) as [del|]; [|done].
    injection Hcur as E. rewrite decide_False; [done|]. rewrite E. congruence. }
  unfold s2. rewrite Revert_Record; [done| | |].
  - by apply RecordCollateralDelegation_ok.
  - intros old Hold. pose proof (Record_current o d1 h s) as H1. fold s1 in H1. unfold current_key in H1. rewrite Hold in H1. injection H1 as E. rewrite E. intros E2. apply Hc2. by rewrite E2.
  - pose proof (Record_history_length o d1 h s). change (length (default [] (histories s1 !! o)) < 16)%nat. unfold s1. lia.
Qed.

Definition demo_run : list (COnChainMasternodeDelegation * Z) :=
  [(demo_del 3, 9); (demo_del 4, 10); (demo_del 3, 12)].

Lemma delegations_survive_reorg_witness :
  delegate_all demo_out demo_run demo_reg2 ≠ demo_reg2 ∧
  revert_all demo_out demo_run (delegate_all demo_out demo_run demo_reg2) = demo_reg2.
Proof.
  split.
  - intros E. apply (f_equal (λ s, current_key demo_out s)) in E. vm_compute in E. discriminate E.
  - apply (delegations_survive_reorg demo_out demo_run demo_reg2 demo_reg2_reachable).
    + vm_compute. repeat split; discriminate.
    + vm_compute. repeat constructor.
Defined.

(** Every key with pings has its last activity recorded, as all operations but the
    middle of a disconnection leave it. *)
Definition lasts_total (s : Registry) : Prop :=
  ∀ k, is_Some (actives s !! k) → is_Some (lasts s !! k).

(** The registry survives a restart: loading the snapshot written at a block of
    height [h], none of whose pings is newer than [h], gives back the registry that
    was written, with only the generation counter advanced. *)
Theorem registry_restart_roundtrip s h s1 :
  reachable s → lasts_total s →
  (∀ k hs, actives s !! k = Some hs → Forall (λ x, x ≤ h) hs) →
  LoadMasternodePingState (snapshot s) h s1 =
  MkRegistry (lasts s) (actives s) (collaterals s) (delegations s) (firsts s) (histories s)
    (u64 (gen s1 + 1)).
Proof.
  intros Hs%reachable_ok Ht Hh.
  destruct (Load_spec s h s1 Hs) as (Ha & Hl & Hc & Hd & Hf & Hhi & Hg).
  assert (∀ k, actives s !! k ≫= kept h = actives s !! k) as Hk.
  { intros k. destruct (actives s !! k) as [hs|] eqn:E; [|done]. simpl.
    apply kept_all; [by apply (ok_actives s Hs) in E as (_ & ? & _)|by apply (Hh k)]. }
  apply Registry_eq; simpl; try done; apply map_eq; intros k.
  - rewrite Hl, Hk. destruct (actives s !! k) as [hs|] eqn:E; simpl.
    + destruct (Ht k) as [x Hx]; [rewrite E; eauto|].
      destruct (ok_lasts s Hs k x Hx) as (hs' & ? & ?). congruence.
    + destruct (lasts s !! k) as [x|] eqn:Ex; [|done].
      destruct (ok_lasts s Hs k x Ex) as (hs' & ? & ?). congruence.
  - by rewrite Ha, Hk.
Qed.

Lemma registry_restart_roundtrip_witness :
  LoadMasternodePingState (snapshot demo_reg2) 8 (empty_registry 3) =
  MkRegistry (lasts demo_reg2) (actives demo_reg2) (collaterals demo_reg2) (delegations demo_reg2)
    (firsts demo_reg2) (histories demo_reg2) 4.
Proof.
  apply (registry_restart_roundtrip demo_reg2 8 (empty_registry 3) demo_reg2_reachable).
  - intros k. change (is_Some (({[demo_key 1 := [8]]} : gmap CPubKey (list Z)) !! k) →
      is_Some (({[demo_key 1 := 8]} : gmap CPubKey Z) !! k)).
    rewrite !lookup_singleton_is_Some. done.
  - intros k hs. change (({[demo_key 1 := [8]]} : gmap CPubKey (list Z)) !! k = Some hs →
      Forall (λ x, x ≤ 8) hs).
    rewrite lookup_singleton_Some. intros [_ <-]. repeat constructor. lia.
Defined.

Lemma set_erase_insert h s : h ∉ s → set_erase h (set_insert h s) = s.
Proof.
  unfold set_erase. assert (∀ l : list Z, h ∉ l → filter (λ y, y ≠ h) l = l) as Hid.
  { induction l as [|y l IH]; [done|]. intros [? ?]%not_elem_of_cons.
    rewrite filter_cons_True by done. by rewrite IH. }
  induction s as [|y s IH]; intros Hn; simpl.
  - rewrite filter_cons_False by (intros []; done). done.
  - apply not_elem_of_cons in Hn as Hn'. destruct Hn' as [Hy Hs]. destruct (h <? y).
    + rewrite filter_cons_False by (intros []; done). by apply Hid.
    + rewrite (proj2 (Z.eqb_neq h y)) by done. rewrite filter_cons_True by done. by rewrite IH.
Qed.

Lemma add_height_dropped h hs :
  h ∉ hs → (length hs < 64)%nat → dropped h (add_height h hs) = match hs with [] => None | _ => Some hs end.
Proof.
  intros Hn Hl. unfold add_height. assert (length (set_insert h hs) ≤ S (length hs))%nat.
  { clear. induction hs as [|y hs IH]; simpl; [lia|]. repeat case_match; simpl; lia. }
  rewrite (proj2 (Nat.ltb_ge 64 _)) by lia. unfold dropped. rewrite set_erase_insert by done. by destruct hs.
Qed.

Lemma lasts_of_actives s k :
  reg_ok s → lasts_total s → lasts s !! k = actives s !! k ≫= last.
Proof.
  intros Hs Ht. destruct (lasts s !! k) as [x|] eqn:Ex.
  - destruct (ok_lasts s Hs k x Ex) as (hs & -> & ?). done.
  - destruct (actives s !! k) as [hs|] eqn:E; [|done].
    destruct (Ht k) as [x Hx]; [rewrite E; eauto|]. congruence.
Qed.

(** Disconnecting the block takes its ping back: after an accepted ping at a
    height no key has used, for a collateral no other key holds, the loop of
    [DisconnectBlock] restores the activity of every key, and reports as emptied
    exactly the key that had no earlier ping. *)
Theorem ping_disconnect_roundtrip e k o h d s :
  reachable s → lasts_total s → authorised e s k o d →
  (∀ k' hs, actives s !! k' = Some hs → h ∉ hs) →
  (∀ k', collaterals s !! k' = Some o → k' = k) →
  (length (default [] (actives s !! k)) < 64)%nat →
  let '(s', emptied) := DropHeight h (RegisterOnChainMasternodePing e k o h d s).1 in
  actives s' = actives s ∧ lasts s' = lasts s ∧
  ∀ k', k' ∈ emptied ↔ k' = k ∧ actives s !! k = None.
Proof.
  intros Hs%reachable_ok Ht Hauth%(auth_spec e s k o h d) Hnew Honly Hlen.
  pose proof (Register_ok e k o h d s Hs) as Hr. rewrite Register_unfold, Hauth in Hr |- *.
  cbn [fst] in Hr |- *. pose proof (λ k', Register_lookup e k o h d s k') as Hl. cbv zeta in Hl.
  set (s1 := BumpMasternodePingStateGen _) in *. clearbody s1.
  destruct (DropHeight_spec h s1 Hr) as (Hok & _ & Ha & Hlin & Hlout & Hem).
  destruct (DropHeight h s1) as [s' emptied]. simpl in *.
  set (hs0 := default [] (actives s !! k)) in *.
  assert (h ∉ hs0) as Hn0.
  { unfold hs0. destruct (actives s !! k) eqn:E; simpl; [by eapply Hnew|apply not_elem_of_nil]. }
  assert (actives s1 !! k = Some (add_height h hs0)) as Hk by (by apply Hl).
  assert (match hs0 with [] => None | _ => Some hs0 end = actives s !! k) as Hhs0.
  { unfold hs0. destruct (actives s !! k) as [hs|] eqn:E; [|done]. simpl.
    destruct (ok_actives s Hs k hs E) as (_ & Hne & _). by destruct hs. }
  assert (dropped h (add_height h hs0) = actives s !! k) as Hdrop by (by rewrite add_height_dropped).
  assert (∀ k', k' ≠ k → lasts s1 !! k' = lasts s !! k' ∧ actives s1 !! k' = actives s !! k') as Hother.
  { intros k' Hne. destruct (Hl k') as (_ & H2 & _). destruct (H2 Hne) as (? & ? & _); [|done].
    intros E. by apply Hne, Honly. }
  assert (h ∈ add_height h hs0) as Hin.
  { by destruct (add_height_spec h hs0 (heights_asc s k Hs)) as (_ & ? & _). }
  split_and!.
  - apply map_eq. intros k'. rewrite Ha. destruct (decide (k' = k)) as [->|Hne].
    + by rewrite Hk.
    + destruct (Hother k' Hne) as [_ ->]. destruct (actives s !! k') as [hs|] eqn:E; [|done]. simpl.
      apply dropped_other; [by apply (ok_actives s Hs) in E as (_ & ?)|by eapply Hnew].
  - apply map_eq. intros k'. destruct (decide (k' = k)) as [->|Hne].
    + rewrite (Hlin k _ Hk Hin), Hdrop. by rewrite lasts_of_actives.
    + destruct (Hother k' Hne) as [Hl' Ha']. rewrite Hlout; [done|]. rewrite Ha'. apply Hnew.
  - intros k'. rewrite Hem. destruct (decide (k' = k)) as [->|Hne].
    + split; [intros (hs & Hhs & _ & Hd)|intros [_ Hd]; exists (add_height h hs0)];
        [simplify_eq; by rewrite Hdrop in Hd|by rewrite Hdrop].
    + destruct (Hother k' Hne) as [_ Ha']. rewrite Ha'. split; [|by intros []].
      intros (hs & Hhs & Hh & _). by apply Hnew in Hhs.
Qed.

Lemma ping_disconnect_roundtrip_witness :
  let s' := (DropHeight 11
    (RegisterOnChainMasternodePing demo_env (demo_key 1) demo_out 11 None demo_reg2).1).1 in
  actives s' = actives demo_reg2 ∧ lasts s' = lasts demo_reg2.
Proof.
  pose proof (ping_disconnect_roundtrip demo_env (demo_key 1) demo_out 11 None demo_reg2
    demo_reg2_reachable) as H.
  cbv zeta. destruct (DropHeight 11 _) as [s' emptied] eqn:E.
  destruct H as (H1 & H2 & _); [| | | | |by split].
  - intros k. change (is_Some (({[demo_key 1 := [8]]} : gmap CPubKey (list Z)) !! k) →
      is_Some (({[demo_key 1 := 8]} : gmap CPubKey Z) !! k)).
    rewrite !lookup_singleton_is_Some. done.
  - apply (auth_spec _ _ _ _ 11). vm_compute. reflexivity.
  - intros k hs. change (({[demo_key 1 := [8]]} : gmap CPubKey (list Z)) !! k = Some hs → 11 ∉ hs).
    rewrite lookup_singleton_Some. intros [_ <-]. by intros ?%list_elem_of_singleton.
  - intros k. change (({[demo_key 1 := demo_out]} : gmap CPubKey COutPoint) !! k = Some demo_out →
      k = demo_key 1).
    rewrite lookup_singleton_Some. by intros [<- _].
  - vm_compute. repeat constructor.
Defined.
