(* ===== verification/AdamSelect.v ===== *)
(** * Election of miners and coordinators by ADAM

    [adam.cpp]: [SelectAdamNodes] elects the miners and the coordinator of a block
    from a pool of keys ranked by their hash with the rolling seed.

    [std::sort] is the class of [Sorting].  A
    [uint256] that is only compared is the number its limbs spell (the comparison of
    limbs is that of numbers, see [ArithUint256]). *)

From stdpp Require Import gmap fin_maps sorting.
From S2P Require Import Prelude Sorting Transaction Standard Ints Params AdamPing.

Local Open Scope Z_scope.

(** ** Keys in the order of [CPubKey::operator<] *)

(** The first byte decides, then [memcmp] over the bytes of keys of equal length. *)
Fixpoint key_lt (a b : CPubKey) : bool :=
  match a, b with
  | [], [] => false
  | [], _ :: _ => true
  | _ :: _, [] => false
  | x :: a, y :: b => (x <? y) || ((x =? y) && key_lt a b)
  end.

Lemma key_lt_asym a b : key_lt a b = true → key_lt b a = false.
Proof.
  revert b. induction a as [|x a IH]; intros [|y b]; simpl; try done.
  destruct (Z.ltb_spec x y), (Z.ltb_spec y x), (Z.eqb_spec x y), (Z.eqb_spec y x); simpl; try lia; auto.
Qed.

Lemma key_lt_total a b : key_lt a b = false → key_lt b a = false → a = b.
Proof.
  revert b. induction a as [|x a IH]; intros [|y b]; simpl; try done.
  destruct (Z.ltb_spec x y), (Z.ltb_spec y x), (Z.eqb_spec x y), (Z.eqb_spec y x); simpl; try done; try lia.
  intros. f_equal; auto.
Qed.

Lemma key_lt_ctrans a b c : key_lt b a = false → key_lt c b = false → key_lt c a = false.
Proof.
  revert b c. induction a as [|x a IH]; intros [|y b] [|z c]; simpl; try done.
  destruct (Z.ltb_spec y x), (Z.ltb_spec z y), (Z.ltb_spec z x), (Z.eqb_spec y x), (Z.eqb_spec z y),
    (Z.eqb_spec z x); simpl; try done; try lia. apply IH.
Qed.

Lemma key_lt_orders : weakly_orders key_lt.
Proof. split; [apply key_lt_asym|apply key_lt_ctrans]. Qed.

(** The order in which a [std::map] keyed by [CPubKey] is traversed. *)
Definition in_key_order {V} (m : gmap CPubKey V) : list (CPubKey * V) :=
  merge_by (λ p q, key_lt p.1 q.1) (map_to_list m).

(** ** Parameters *)

(** The fields of [Consensus::Params] that the election reads. *)
Record AdamParams := MkAdamParams {
  consensus : Params;
  nAdamMinersCount : Z;
  nAdamThreshold : Z;
  nAdamThresholdBootstrapLimit : Z
}.

Definition GetAdamThreshold (p : AdamParams) (nHeight : Z) : Z :=
  if (nHeight <? nAdamThresholdBootstrapLimit p) && (0 <=? nHeight) then 5 else nAdamThreshold p.

(** ** Election *)

Record MinerRank := MkRank { rank_key : CPubKey; rank_hash : Z }.

Definition rank_lt (a b : MinerRank) : bool := rank_hash a <? rank_hash b.

(** [operator[]] of a vector; [None] past its ends. *)
Definition at_index {A} (l : list A) (i : Z) : option A :=
  if i <? 0 then None else l !! Z.to_nat i.

Section Select.
Context {S : StdSort}.

(** [CHashWriter] over the seed and a key; the pool of candidate keys. *)
Context (SeedKeyHash : list Z → CPubKey → Z).
Context (GetAdamMinerPool : Z → list CPubKey).

Definition rank (hashAdamSeed : list Z) (key : CPubKey) : MinerRank :=
  MkRank key (SeedKeyHash hashAdamSeed key).

Definition ranked (hashAdamSeed : list Z) (keys : list CPubKey) : list MinerRank :=
  std_sort rank_lt (rank hashAdamSeed <$> keys).

(** [pool] has been checked against the threshold; [None] is an access past the end
    of [rankedPool]. *)
Definition elect (hashAdamSeed : list Z) (minCount threshold : Z) (pool vMns : list CPubKey) :
    option (list CPubKey * CPubKey) :=
  let rankedPool := ranked hashAdamSeed pool in
  if threshold <? Z.of_nat (length vMns) then
    let rankedMns := ranked hashAdamSeed vMns in
    first ← at_index rankedMns 0;
    let coordinatorOut := rank_key first in
    let remainingPool := filter (λ r, rank_key r ≠ coordinatorOut) rankedPool in
    let electCount := Z.min minCount (Z.of_nat (length remainingPool)) in
    Some (rank_key <$> take (Z.to_nat electCount) remainingPool, coordinatorOut)
  else
    let electCount := Z.min minCount (Z.of_nat (length rankedPool)) in
    let vSelectedMinersOut := rank_key <$> take (Z.to_nat electCount) rankedPool in
    coord ← (if electCount <? Z.of_nat (length rankedPool) then at_index rankedPool electCount
             else at_index rankedPool 0);
    Some (vSelectedMinersOut, rank_key coord).

(** The active, authorised masternodes, one per collateral, in key order. *)
Definition mns_step (e : Env) (s : Registry) (currentHeight : Z)
    (acc : list CPubKey * list COutPoint) (kv : CPubKey * COutPoint) :
    list CPubKey * list COutPoint :=
  let '(vMns, seen) := acc in
  if IsValid kv.1 && IsMasternodeActiveAtHeight s kv.1 currentHeight 2880 then
    if negb (bool_decide (kv.2 ∈ seen))
       && IsValidMasternodeCollateralAndAuth e s kv.1 kv.2 currentHeight None
    then (vMns ++ [kv.1], kv.2 :: seen)
    else acc
  else acc.

(** [std::unique]: runs of equal neighbours shrink to one. *)
Fixpoint unique (l : list CPubKey) : list CPubKey :=
  match l with
  | x :: ((y :: _) as l') => if decide (x = y) then unique l' else x :: unique l'
  | _ => l
  end.

Definition active_masternodes (e : Env) (s : Registry) (fRegTest : bool) (currentHeight : Z) :
    list CPubKey :=
  if fRegTest then []
  else unique (std_sort key_lt
         (foldl (mns_step e s currentHeight) ([], []) (in_key_order (collaterals s))).1).

(** The function's static variables. *)
Record SelectCache := MkSelectCache {
  cachedSeed : list Z;
  cachedMinCount : Z;
  cachedThreshold : Z;
  cachedPool : list CPubKey;
  cachedMns : list CPubKey;
  cachedSelectedMiners : list CPubKey;
  cachedCoordinator : CPubKey
}.

(** [uint256::IsNull]. *)
Definition seed_IsNull (x : list Z) : bool := forallb (λ w, w =? 0) x.

Definition cache_hit (c : SelectCache) (hashAdamSeed : list Z) (minCount threshold : Z)
    (pool vMns : list CPubKey) : bool :=
  negb (seed_IsNull (cachedSeed c)) && bool_decide (cachedSeed c = hashAdamSeed)
  && (cachedMinCount c =? minCount) && (cachedThreshold c =? threshold)
  && bool_decide (cachedPool c = pool) && bool_decide (cachedMns c = vMns).

(** The height the election refers to and the number of miners it elects.
    [seedHeight] is the height of the block [mapSeedToBlockHash] knows for the
    seed. *)
Definition select_height (nBlockHeight : Z) (seedHeight : option Z) : Z :=
  if 0 <? nBlockHeight then nBlockHeight - 1 else default (-1) seedHeight.

Definition select_minCount (p : AdamParams) (nBlockHeight nHeight : Z) (tip : option Z) : option Z :=
  let effectiveBlockHeight :=
    if 0 <? nBlockHeight then nBlockHeight
    else if 0 <=? nHeight then nHeight + 1
    else match tip with Some t => t + 1 | None => 0 end in
  if 0 <? effectiveBlockHeight then
    active ← NetworkUpgradeActive (consensus p) effectiveBlockHeight UPGRADE_POMBL;
    Some (if (active : bool) then nAdamMinersCount p else 11)
  else Some 11.

(** The outer option is a failed assertion or an access out of range; the inner one
    is the returned flag with the two output arguments. *)
Definition SelectAdamNodes (e : Env) (s : Registry) (p : AdamParams) (fRegTest : bool)
    (hashAdamSeed : list Z) (nBlockHeight : Z) (seedHeight : option Z) (c : SelectCache) :
    option (SelectCache * option (list CPubKey * CPubKey)) :=
  let nHeight := select_height nBlockHeight seedHeight in
  let pool := GetAdamMinerPool nHeight in
  minCount ← select_minCount p nBlockHeight nHeight (tipHeight e);
  let refHeight := if 0 <=? nHeight then nHeight else default 0 (tipHeight e) in
  let threshold := GetAdamThreshold p refHeight in
  if Z.of_nat (length pool) <? u64 threshold then Some (c, None)
  else
    let vMns := active_masternodes e s fRegTest refHeight in
    if cache_hit c hashAdamSeed minCount threshold pool vMns then
      Some (c, Some (cachedSelectedMiners c, cachedCoordinator c))
    else
      out ← elect hashAdamSeed minCount threshold pool vMns;
      Some (MkSelectCache hashAdamSeed minCount threshold pool vMns out.1 out.2, Some out).

(** ** Ranking *)

(** Keys in the order of their hash with the seed. *)
Definition by_hash (seed : list Z) (a b : CPubKey) : Prop := SeedKeyHash seed a ≤ SeedKeyHash seed b.

Definition ranked_keys (seed : list Z) (keys : list CPubKey) : list CPubKey :=
  rank_key <$> ranked seed keys.

Lemma ranked_elem seed keys r : r ∈ ranked seed keys → r = rank seed (rank_key r).
Proof using Type.
  unfold ranked. rewrite std_sort_perm. by intros (k & -> & _)%list_elem_of_fmap.
Qed.

Lemma ranked_keys_perm seed keys : ranked_keys seed keys ≡ₚ keys.
Proof using Type.
  unfold ranked_keys, ranked. rewrite std_sort_perm, <- list_fmap_compose.
  by rewrite (list_fmap_ext (rank_key ∘ rank seed) id), list_fmap_id.
Qed.

Lemma ranked_keys_sorted seed keys : StronglySorted (by_hash seed) (ranked_keys seed keys).
Proof using Type.
  unfold ranked_keys. pose proof (ranked_elem seed keys) as He.
  assert (StronglySorted (not_after rank_lt) (ranked seed keys)) as Hs
    by apply std_sort_sorted, weakly_orders_by.
  induction Hs as [|r l Hs IH Hr]; [constructor|]. rewrite fmap_cons. constructor.
  - apply IH. intros x Hx. apply He. by right.
  - apply Forall_forall. intros k (x & -> & Hx)%list_elem_of_fmap.
    pose proof (proj1 (Forall_forall _ _) Hr x Hx) as Hle.
    unfold not_after, rank_lt in Hle. apply Z.ltb_ge in Hle.
    rewrite (He r), (He x) in Hle by (by constructor). exact Hle.
Qed.

Lemma sorted_take {A} (R : A → A → Prop) n l x y :
  StronglySorted R l → x ∈ take n l → y ∈ l → y ∉ take n l → R x y.
Proof using.
  rewrite <- (take_drop n l) at 1 3. rewrite StronglySorted_app, elem_of_app.
  intros (Hlt & _) Hx [Hy|Hy] Hny; [done|]. by apply Hlt.
Qed.

(** ** What an election is *)

(** Rule 1 applies when there are more masternodes than the threshold. *)
Definition rule1 (threshold : Z) (vMns : list CPubKey) : Prop := threshold < Z.of_nat (length vMns).

#[global] Instance rule1_dec threshold vMns : Decision (rule1 threshold vMns).
Proof. unfold rule1. apply _. Defined.

(** The keys the miners are elected from. *)
Definition candidates (threshold : Z) (pool vMns : list CPubKey) (coordinator : CPubKey) :
    list CPubKey :=
  if decide (rule1 threshold vMns) then filter (λ k, k ≠ coordinator) pool else pool.

(** [elected miners coordinator]: the miners are the [minCount] candidates of lowest
    hash, in that order and without repetition; under rule 1 the coordinator is the
    masternode of lowest hash, otherwise the first pool key after the miners, or the
    first of all when every pool key is a miner. *)
Record elected (seed : list Z) (minCount threshold : Z) (pool vMns miners : list CPubKey)
    (coordinator : CPubKey) : Prop := {
  el_candidates : ∀ m, m ∈ miners → m ∈ candidates threshold pool vMns coordinator;
  el_nodup : NoDup miners;
  el_count : Z.of_nat (length miners) =
    Z.min minCount (Z.of_nat (length (candidates threshold pool vMns coordinator)));
  el_sorted : StronglySorted (by_hash seed) miners;
  el_lowest : ∀ m k, m ∈ miners → k ∈ candidates threshold pool vMns coordinator → k ∉ miners →
    by_hash seed m k;
  el_rule1 : rule1 threshold vMns →
    coordinator ∈ vMns ∧ ∀ k, k ∈ vMns → by_hash seed coordinator k;
  el_rule2 : ¬ rule1 threshold vMns → minCount < Z.of_nat (length pool) →
    coordinator ∈ pool ∧ (coordinator ∉ miners) ∧
    ∀ k, k ∈ pool → k ∉ miners → by_hash seed coordinator k;
  el_all : ¬ rule1 threshold vMns → Z.of_nat (length pool) ≤ minCount →
    coordinator ∈ pool ∧ ∀ k, k ∈ pool → by_hash seed coordinator k
}.

(** The miners, taken from the front of the sorted candidates. *)
Lemma elect_front seed (cand sorted : list CPubKey) n :
  NoDup cand → sorted ≡ₚ cand → StronglySorted (by_hash seed) sorted → 0 ≤ n →
  let miners := take (Z.to_nat (Z.min n (Z.of_nat (length sorted)))) sorted in
  (∀ m, m ∈ miners → m ∈ cand) ∧ NoDup miners ∧
  Z.of_nat (length miners) = Z.min n (Z.of_nat (length cand)) ∧
  StronglySorted (by_hash seed) miners ∧
  (∀ m k, m ∈ miners → k ∈ cand → k ∉ miners → by_hash seed m k).
Proof using Type.
  intros Hnd Hp Hs Hn miners. rewrite <- Hp in Hnd.
  split_and!.
  - intros m Hm. rewrite <- Hp. by eapply elem_of_sublist, sublist_take.
  - subst miners. by eapply sublist_NoDup, sublist_take.
  - subst miners. rewrite length_take, <- (Permutation_length Hp). lia.
  - subst miners. revert Hs. generalize (Z.to_nat (Z.min n (Z.of_nat (length sorted)))). intros j.
    rewrite <- (take_drop j sorted) at 1. by intros (_ & ? & _)%StronglySorted_app.
  - intros m k Hm Hk Hnk. rewrite <- Hp in Hk. by eapply sorted_take.
Qed.

Lemma StronglySorted_filter {A} (R : A → A → Prop) (P : A → Prop) `{∀ x, Decision (P x)} l :
  StronglySorted R l → StronglySorted R (filter P l).
Proof using.
  induction 1 as [|x l Hs IH Hx]; [constructor|]. rewrite filter_cons. case_decide; [|done].
  constructor; [done|]. apply Forall_forall. intros y [_ Hy]%list_elem_of_filter.
  by apply (proj1 (Forall_forall _ _) Hx).
Qed.

(** The head of a sorted list is least. *)
Lemma sorted_head {A} (R : A → A → Prop) l x :
  Reflexive R → StronglySorted R l → l !! 0%nat = Some x → ∀ y, y ∈ l → R x y.
Proof using.
  intros HR Hs Hx y. destruct l as [|z l]; [done|]. simpl in Hx. injection Hx as ->.
  apply StronglySorted_inv in Hs as [_ Hz]. intros [->|Hy]%elem_of_cons; [done|].
  by apply (proj1 (Forall_forall _ _) Hz).
Qed.

#[global] Instance by_hash_refl seed : Reflexive (by_hash seed).
Proof using Type. intros k. unfold by_hash. lia. Qed.

Lemma rank_key_filter seed keys c :
  rank_key <$> filter (λ r, rank_key r ≠ c) (ranked seed keys) =
  filter (λ k, k ≠ c) (ranked_keys seed keys).
Proof using Type.
  unfold ranked_keys. induction (ranked seed keys) as [|r l IH]; [done|].
  rewrite fmap_cons, !filter_cons. destruct (decide (rank_key r ≠ c)) as [Hd|Hd].
  - by rewrite fmap_cons, IH.
  - exact IH.
Qed.

Lemma length_ranked seed keys : length (ranked seed keys) = length (ranked_keys seed keys).
Proof using Type. unfold ranked_keys. by rewrite length_fmap. Qed.

Lemma at_index_0 {A} (l : list A) : l ≠ [] → ∃ x, at_index l 0 = Some x ∧ l !! 0%nat = Some x.
Proof using. destruct l as [|x l]; [done|]. eauto. Qed.

Lemma at_index_fmap {A B} (f : A → B) l i : at_index (f <$> l) i = f <$> at_index l i.
Proof using. unfold at_index. case_match; [done|]. by rewrite list_lookup_fmap. Qed.

(** The election on keys alone. *)
Lemma elect_keys seed minCount threshold pool vMns :
  elect seed minCount threshold pool vMns =
  let rp := ranked_keys seed pool in
  if threshold <? Z.of_nat (length vMns) then
    c ← at_index (ranked_keys seed vMns) 0;
    let rem := filter (λ k, k ≠ c) rp in
    Some (take (Z.to_nat (Z.min minCount (Z.of_nat (length rem)))) rem, c)
  else
    let cnt := Z.min minCount (Z.of_nat (length rp)) in
    c ← (if cnt <? Z.of_nat (length rp) then at_index rp cnt else at_index rp 0);
    Some (take (Z.to_nat cnt) rp, c).
Proof using Type.
  assert (∀ keys i, at_index (ranked_keys seed keys) i = rank_key <$> at_index (ranked seed keys) i)
    as Hi by (intros; apply at_index_fmap).
  unfold elect. rewrite !length_ranked. cbv zeta. case_match.
  - rewrite Hi. destruct (at_index (ranked seed vMns) 0) as [r|]; simpl; [|done].
    by rewrite fmap_take, rank_key_filter, <- (length_fmap rank_key (filter _ _)), rank_key_filter.
  - rewrite !fmap_take. fold (ranked_keys seed pool).
    rewrite !Hi. case_match; by destruct (at_index _ _).
Qed.

Lemma candidates_rule1 threshold pool vMns c :
  rule1 threshold vMns → candidates threshold pool vMns c = filter (λ k, k ≠ c) pool.
Proof using. intros. unfold candidates. by rewrite decide_True. Qed.

Lemma candidates_rule2 threshold pool vMns c :
  ¬ rule1 threshold vMns → candidates threshold pool vMns c = pool.
Proof using. intros. unfold candidates. by rewrite decide_False. Qed.

Lemma ranked_keys_nonempty seed keys : keys ≠ [] → ranked_keys seed keys ≠ [].
Proof using Type.
  intros Hk E. apply Hk, Permutation_nil. rewrite <- E. apply ranked_keys_perm.
Qed.

Lemma elect_rule1 seed minCount threshold pool vMns :
  NoDup pool → 0 ≤ minCount → 0 ≤ threshold → rule1 threshold vMns →
  ∃ miners c, elect seed minCount threshold pool vMns = Some (miners, c) ∧
    elected seed minCount threshold pool vMns miners c.
Proof using Type.
  intros Hnd Hn Ht Hr. rewrite elect_keys. cbv zeta. pose proof Hr as Hr'. unfold rule1 in Hr'.
  rewrite (proj2 (Z.ltb_lt _ _) Hr').
  destruct (at_index_0 (ranked_keys seed vMns)) as (c & -> & Hc).
  { apply ranked_keys_nonempty. intros ->. simpl in Hr'. lia. }
  simpl. do 2 eexists. split; [done|].
  pose proof (sorted_head _ _ c (by_hash_refl seed) (ranked_keys_sorted seed vMns) Hc) as Hmin.
  destruct (elect_front seed (filter (λ k, k ≠ c) pool) (filter (λ k, k ≠ c) (ranked_keys seed pool))
    minCount) as (? & ? & ? & ? & ?); [by apply NoDup_filter| | |done|].
  { by rewrite (ranked_keys_perm seed pool). }
  { apply StronglySorted_filter, ranked_keys_sorted. }
  split; rewrite ?candidates_rule1 by done; try done.
  intros _. split.
  - rewrite <- (ranked_keys_perm seed vMns). by eapply list_elem_of_lookup_2.
  - intros k Hk. apply Hmin. by rewrite ranked_keys_perm.
Qed.

Lemma elect_rule2 seed minCount threshold pool vMns :
  NoDup pool → pool ≠ [] → 0 ≤ minCount → ¬ rule1 threshold vMns →
  ∃ miners c, elect seed minCount threshold pool vMns = Some (miners, c) ∧
    elected seed minCount threshold pool vMns miners c.
Proof using Type.
  intros Hnd Hne Hn Hr. rewrite elect_keys. cbv zeta. pose proof Hr as Hr'. unfold rule1 in Hr'.
  rewrite (proj2 (Z.ltb_ge threshold (Z.of_nat (length vMns)))) by lia.
  set (rp := ranked_keys seed pool).
  pose proof (ranked_keys_perm seed pool : rp ≡ₚ pool) as Hp.
  pose proof (ranked_keys_sorted seed pool : StronglySorted _ rp) as Hs.
  destruct (elect_front seed pool rp minCount Hnd Hp Hs Hn) as (? & Hndm & ? & ? & ?).
  pose proof (Permutation_length Hp) as Hlen. rewrite <- Hp in Hnd.
  destruct (at_index_0 rp (ranked_keys_nonempty seed pool Hne)) as (c0 & -> & Hc0).
  set (j := Z.min minCount (Z.of_nat (length rp))) in *.
  destruct (Z.ltb_spec j (Z.of_nat (length rp))) as [Hj|Hj].
  - assert (at_index rp j = rp !! Z.to_nat j) as ->.
    { unfold at_index. by rewrite (proj2 (Z.ltb_ge j 0)) by lia. }
    destruct (lookup_lt_is_Some_2 rp (Z.to_nat j)) as [c Hc]; [lia|]. rewrite Hc. simpl.
    do 2 eexists. split; [done|]. split; rewrite ?candidates_rule2 by done; try done;
      [|intros; exfalso; lia].
    intros _ _. pose proof (take_drop_middle rp _ c Hc) as Hm. rewrite <- Hm in Hnd, Hs.
    apply NoDup_app in Hnd as (_ & Hnd & _).
    apply StronglySorted_app in Hs as (Hlt & _ & Hs). split_and!.
    + rewrite <- Hp. by eapply list_elem_of_lookup_2.
    + intros Hin. apply (Hnd c Hin). by left.
    + intros k Hk Hnk. rewrite <- Hp, <- Hm, elem_of_app in Hk. destruct Hk as [?|Hk]; [done|].
      by eapply (sorted_head _ (c :: _)); [apply by_hash_refl| | |].
  - simpl. do 2 eexists. split; [done|]. split; rewrite ?candidates_rule2 by done; try done;
      [intros; exfalso; lia|].
    intros _ _. split.
    + rewrite <- Hp. by eapply list_elem_of_lookup_2.
    + intros k Hk. rewrite <- Hp in Hk. by apply (sorted_head (by_hash seed) rp c0 (by_hash_refl seed) Hs Hc0).
Qed.

Lemma elect_spec seed minCount threshold pool vMns :
  NoDup pool → pool ≠ [] → 0 ≤ minCount → 0 ≤ threshold →
  ∃ miners c, elect seed minCount threshold pool vMns = Some (miners, c) ∧
    elected seed minCount threshold pool vMns miners c.
Proof using Type.
  intros. destruct (decide (rule1 threshold vMns)); [by apply elect_rule1|by apply elect_rule2].
Qed.

(** ** The cache *)

(** What the static variables hold is the election of the inputs they hold. *)
Definition cache_ok (c : SelectCache) : Prop :=
  seed_IsNull (cachedSeed c) = false →
  elect (cachedSeed c) (cachedMinCount c) (cachedThreshold c) (cachedPool c) (cachedMns c) =
  Some (cachedSelectedMiners c, cachedCoordinator c).

Lemma cache_hit_spec c seed minCount threshold pool vMns :
  cache_ok c → cache_hit c seed minCount threshold pool vMns = true →
  elect seed minCount threshold pool vMns = Some (cachedSelectedMiners c, cachedCoordinator c).
Proof using Type.
  unfold cache_hit. rewrite !andb_true_iff, !bool_decide_eq_true, !Z.eqb_eq, negb_true_iff.
  intros Hc (((((Hn & <-) & <-) & <-) & <-) & <-). by apply Hc.
Qed.

(** With a coherent cache the function is the election. *)
Lemma Select_elect e s p fRegTest seed nBlockHeight seedHeight c minCount :
  cache_ok c →
  let nHeight := select_height nBlockHeight seedHeight in
  let refHeight := if 0 <=? nHeight then nHeight else default 0 (tipHeight e) in
  let threshold := GetAdamThreshold p refHeight in
  let pool := GetAdamMinerPool nHeight in
  let vMns := active_masternodes e s fRegTest refHeight in
  select_minCount p nBlockHeight nHeight (tipHeight e) = Some minCount →
  match elect seed minCount threshold pool vMns with
  | Some out =>
      ∃ c', cache_ok c' ∧
        SelectAdamNodes e s p fRegTest seed nBlockHeight seedHeight c =
        Some (if Z.of_nat (length pool) <? u64 threshold then (c, None) else (c', Some out))
  | None => True
  end.
Proof using Type.
  intros Hc nHeight refHeight threshold pool vMns Hm.
  destruct (elect seed minCount threshold pool vMns) as [[miners coord]|] eqn:He; [|done].
  unfold SelectAdamNodes. fold nHeight pool refHeight threshold vMns. rewrite Hm. simpl.
  destruct (Z.of_nat (length pool) <? u64 threshold); [by exists c|].
  destruct (cache_hit c seed minCount threshold pool vMns) eqn:Hh.
  - exists c. split; [done|]. apply cache_hit_spec in Hh; [|done]. congruence.
  - rewrite He. simpl. eexists. split; [|done]. by intros _.
Qed.

Lemma select_minCount_defined p nBlockHeight nHeight tip :
  0 ≤ nAdamMinersCount p →
  ∃ m, select_minCount p nBlockHeight nHeight tip = Some m ∧ 0 ≤ m.
Proof using.
  intros Hp. unfold select_minCount. set (h := if 0 <? nBlockHeight then _ else _).
  destruct (Z.ltb_spec 0 h); [|by exists 11].
  unfold NetworkUpgradeActive, NetworkUpgradeState. rewrite (proj2 (Z.ltb_ge h 0)) by lia.
  repeat case_match; simpl; eexists; (split; [reflexivity|]); by repeat case_match.
Qed.

(** ** The masternodes *)

(** Active and authorised at a height. *)
Definition mn_ok (e : Env) (s : Registry) (h : Z) (k : CPubKey) (o : COutPoint) : bool :=
  IsValid k && IsMasternodeActiveAtHeight s k h 2880
  && IsValidMasternodeCollateralAndAuth e s k o h None.

(** With one key per collateral the set of seen collaterals never matters. *)
Lemma mns_fold e s h l vMns seen :
  NoDup (l.*2) → (∀ o, o ∈ l.*2 → o ∉ seen) →
  (foldl (mns_step e s h) (vMns, seen) l).1 =
  vMns ++ (filter (λ kv, mn_ok e s h kv.1 kv.2 = true) l).*1.
Proof using.
  revert vMns seen. induction l as [|[k o] l IH]; intros vMns seen Hnd Hseen.
  { simpl. by rewrite app_nil_r. }
  cbn [foldl].
  rewrite fmap_cons in Hnd, Hseen. apply NoDup_cons in Hnd as [Ho Hnd]. simpl in Ho, Hseen.
  assert (mns_step e s h (vMns, seen) (k, o) =
    if mn_ok e s h k o then (vMns ++ [k], o :: seen) else (vMns, seen)) as ->.
  { unfold mns_step, mn_ok. simpl. rewrite (bool_decide_eq_false_2 (o ∈ seen)) by (apply Hseen; by left).
    by destruct (IsValid k), (IsMasternodeActiveAtHeight s k h 2880). }
  destruct (mn_ok e s h k o) eqn:E.
  - rewrite filter_cons_True by done. rewrite IH; [by rewrite <- app_assoc|done|].
    intros o' Ho' [->|Hin]%elem_of_cons; [done|]. apply (Hseen o'); [by right|done].
  - rewrite filter_cons_False by (simpl; congruence).
    apply IH; [done|]. intros o' Ho'. apply Hseen. by right.
Qed.

Lemma unique_nodup l : NoDup l → unique l = l.
Proof using.
  induction 1 as [|x l Hx Hl IH]; [done|]. destruct l as [|y l]; [done|].
  change (unique (x :: y :: l)) with (if decide (x = y) then unique (y :: l) else x :: unique (y :: l)).
  rewrite decide_False, IH; [done|]. intros ->. apply Hx. by left.
Qed.

Lemma NoDup_snd_injective {V} `{EqDecision V} (m : gmap CPubKey V) :
  (∀ k1 k2 v, m !! k1 = Some v → m !! k2 = Some v → k1 = k2) → NoDup (map_to_list m).*2.
Proof using.
  intros Hinj. assert (∀ l, NoDup l.*1 → (∀ k v, (k, v) ∈ l → m !! k = Some v) → NoDup l.*2) as H.
  { induction l as [|[k v] l IH]; intros Hnd Hl; [constructor|].
    rewrite fmap_cons in *. apply NoDup_cons in Hnd as [Hk Hnd]. constructor; simpl in *.
    - intros ([k' v'] & -> & Hin)%list_elem_of_fmap. simpl in *. apply Hk, list_elem_of_fmap.
      exists (k', v'). split; [|done]. simpl.
      apply (Hinj k k' v'); apply Hl; [left|by right].
    - apply IH; [done|]. intros k' v' Hin. apply Hl. by right. }
  apply H; [apply NoDup_fst_map_to_list|]. intros k v. by rewrite elem_of_map_to_list.
Qed.

Lemma active_masternodes_sorted e s h :
  reg_ok s →
  ∃ l, NoDup l ∧ (∀ k, k ∈ l ↔ ∃ o, collaterals s !! k = Some o ∧ mn_ok e s h k o = true) ∧
    active_masternodes e s false h = std_sort key_lt l.
Proof using Type.
  intros Hs. assert (in_key_order (collaterals s) ≡ₚ map_to_list (collaterals s)) as Hp
    by apply merge_by_perm.
  exists (filter (λ kv, mn_ok e s h kv.1 kv.2 = true) (in_key_order (collaterals s))).*1.
  assert (NoDup (filter (λ kv, mn_ok e s h kv.1 kv.2 = true) (in_key_order (collaterals s))).*1) as Hnd.
  { eapply sublist_NoDup; [|apply fmap_sublist, sublist_filter]. rewrite Hp.
    apply NoDup_fst_map_to_list. }
  split_and!; [done| |].
  - intros k. rewrite list_elem_of_fmap. setoid_rewrite list_elem_of_filter. setoid_rewrite Hp. split.
    + intros ([k' o] & -> & Hok & Hin%elem_of_map_to_list). eauto.
    + intros (o & Hk & Hok). exists (k, o). by rewrite elem_of_map_to_list.
  - unfold active_masternodes. rewrite mns_fold; [|rewrite Hp|intros; apply not_elem_of_nil].
    + simpl. apply unique_nodup. by rewrite std_sort_perm.
    + apply NoDup_snd_injective, (ok_collaterals s Hs).
Qed.
End Select.

(** ** Independence of the sort *)

Section Agreement.
Context (S1 S2 : StdSort) (SeedKeyHash : list Z → CPubKey → Z) (GetAdamMinerPool : Z → list CPubKey).

(** The seed tells the keys apart. *)
Definition distinct_hashes (seed : list Z) (keys : list CPubKey) : Prop :=
  ∀ a b, a ∈ keys → b ∈ keys → SeedKeyHash seed a = SeedKeyHash seed b → a = b.

Lemma ranked_agree seed keys :
  distinct_hashes seed keys →
  @ranked S1 SeedKeyHash seed keys = @ranked S2 SeedKeyHash seed keys.
Proof using Type.
  intros Hd. apply std_sort_unique; [apply weakly_orders_by|].
  intros x y (a & -> & Ha)%list_elem_of_fmap (b & -> & Hb)%list_elem_of_fmap.
  unfold rank_lt. simpl. rewrite !Z.ltb_ge. intros. rewrite (Hd a b); [done..|]. lia.
Qed.

Lemma elect_agree seed minCount threshold pool vMns :
  distinct_hashes seed pool → distinct_hashes seed vMns →
  @elect S1 SeedKeyHash seed minCount threshold pool vMns =
  @elect S2 SeedKeyHash seed minCount threshold pool vMns.
Proof using Type. intros. unfold elect. by rewrite !ranked_agree. Qed.

Lemma active_masternodes_agree e s fRegTest h :
  reg_ok s → @active_masternodes S1 e s fRegTest h = @active_masternodes S2 e s fRegTest h.
Proof using Type.
  intros Hs. destruct fRegTest; [done|]. unfold active_masternodes. f_equal.
  apply std_sort_unique; [apply key_lt_orders|]. intros x y _ _. apply key_lt_total.
Qed.
End Agreement.

(** ** Theorems *)

Lemma GetAdamThreshold_bounds p h :
  0 < nAdamThreshold p ≤ 0x7FFFFFFF →
  0 < GetAdamThreshold p h ∧ u64 (GetAdamThreshold p h) = GetAdamThreshold p h.
Proof.
  intros Hp. assert (0 < GetAdamThreshold p h ≤ 0x7FFFFFFF) as Ht
    by (unfold GetAdamThreshold; case_match; lia).
  split; [lia|]. apply u64_id. unfold word. lia.
Qed.

(** The masternodes an election counts are exactly the registered keys that are
    active in the last 2880 blocks and authorised by their collateral, each once and
    in ascending order, in every reachable registry: the check for collaterals seen
    before, the sort and the removal of duplicates change nothing. *)
Theorem active_masternodes_exact (S : StdSort) e s h :
  reachable s →
  StronglySorted (λ a b, key_lt a b = true) (active_masternodes e s false h) ∧
  ∀ k, k ∈ active_masternodes e s false h ↔
    IsMasternodeActiveAtHeight s k h 2880 = true ∧
    ∃ o, collaterals s !! k = Some o ∧ authorised e s k o None.
Proof.
  intros Hs%reachable_ok. destruct (active_masternodes_sorted e s h Hs) as (l & Hnd & Hl & ->). split.
  - pose proof (std_sort_sorted key_lt l key_lt_orders) as Hsort.
    assert (NoDup (std_sort key_lt l)) as Hnd' by by rewrite std_sort_perm.
    induction Hsort as [|x l' Hs' IH Hx]; [constructor|]. apply NoDup_cons in Hnd' as [Hx' Hnd'].
    constructor; [by apply IH|]. apply Forall_forall. intros y Hy.
    pose proof (proj1 (Forall_forall _ _) Hx y Hy) as Hxy. unfold not_after in Hxy.
    destruct (key_lt x y) eqn:E; [done|]. by rewrite (key_lt_total x y E Hxy) in Hx'.
  - intros k. rewrite std_sort_perm, Hl. unfold mn_ok. setoid_rewrite andb_true_iff.
    setoid_rewrite andb_true_iff. setoid_rewrite (auth_spec e s k _ h None). split.
    + intros (o & ? & [_ ?] & ?). eauto.
    + intros (? & o & ? & Ha). exists o. split_and!; try done. by destruct Ha.
Qed.

Lemma active_masternodes_exact_witness :
  demo_key 1 ∈ @active_masternodes merge_std_sort demo_env demo_reg2 false 10.
Proof.
  apply (active_masternodes_exact merge_std_sort demo_env demo_reg2 10 demo_reg2_reachable).
  split; [vm_compute; reflexivity|]. exists demo_out. split; [vm_compute; reflexivity|].
  apply (auth_spec _ _ _ _ 10). vm_compute. reflexivity.
Defined.

(** C5: [SelectAdamNodes] always returns, refuses exactly when the pool is smaller
    than the threshold, and otherwise elects: the miners are the configured number of
    pool keys of lowest hash with the seed, in that order, each once; the coordinator
    is the masternode of lowest hash, and no miner, when there are more masternodes
    than the threshold, otherwise the next pool key after the miners (the first of all
    when the miners exhaust the pool).  The static cache stays coherent. *)
Theorem SelectAdamNodes_elects (S : StdSort) SeedKeyHash GetAdamMinerPool e s p fRegTest seed
    nBlockHeight seedHeight c :
  let nHeight := select_height nBlockHeight seedHeight in
  let refHeight := if 0 <=? nHeight then nHeight else default 0 (tipHeight e) in
  let threshold := GetAdamThreshold p refHeight in
  let pool := GetAdamMinerPool nHeight in
  let vMns := active_masternodes e s fRegTest refHeight in
  cache_ok SeedKeyHash c → NoDup pool → 0 ≤ nAdamMinersCount p → 0 < nAdamThreshold p ≤ 0x7FFFFFFF →
  ∃ minCount c' r,
    select_minCount p nBlockHeight nHeight (tipHeight e) = Some minCount ∧
    SelectAdamNodes SeedKeyHash GetAdamMinerPool e s p fRegTest seed nBlockHeight seedHeight c =
      Some (c', r) ∧
    cache_ok SeedKeyHash c' ∧
    match r with
    | None => Z.of_nat (length pool) < threshold
    | Some (miners, coordinator) =>
        threshold ≤ Z.of_nat (length pool) ∧
        elected SeedKeyHash seed minCount threshold pool vMns miners coordinator
    end.
Proof.
  intros nHeight refHeight threshold pool vMns Hc Hnd Hm Hp.
  destruct (select_minCount_defined p nBlockHeight nHeight (tipHeight e) Hm) as (minCount & Hmin & Hm0).
  destruct (GetAdamThreshold_bounds p refHeight Hp) as [Ht Htu]. fold threshold in Ht, Htu.
  pose proof (Select_elect SeedKeyHash GetAdamMinerPool e s p fRegTest seed nBlockHeight seedHeight c
    minCount Hc) as Hsel. cbv zeta in Hsel. fold nHeight refHeight threshold pool vMns in Hsel.
  specialize (Hsel Hmin). rewrite Htu in Hsel.
  destruct (Z.ltb_spec (Z.of_nat (length pool)) threshold) as [Hlt|Hge].
  - exists minCount, c, None. split_and!; [done| |done|done].
    unfold SelectAdamNodes. fold nHeight. rewrite Hmin. simpl. fold refHeight threshold pool.
    rewrite Htu. by rewrite (proj2 (Z.ltb_lt _ _) Hlt).
  - destruct (elect_spec SeedKeyHash seed minCount threshold pool vMns Hnd) as (ms & co & He & Hel);
      [by intros E; rewrite E in Hge; simpl in Hge; lia|done|lia|].
    rewrite He in Hsel. destruct Hsel as (c' & Hc' & Hs). eauto 10.
Qed.

(** A seed that orders the demo keys by their first byte after the header. *)
Definition demo_hash (_ : list Z) (k : CPubKey) : Z := nth 1 k 0.

Definition demo_adam (threshold : Z) : AdamParams :=
  MkAdamParams (MkParams [] [] [] 0 0 0 0 0 0 0 0 0 (λ _, 0)) 3 threshold 0.

Definition demo_pool (_ : Z) : list CPubKey := demo_key <$> [8; 4; 6; 2; 5].

Definition null_cache : SelectCache := MkSelectCache [0] (-1) (-1) [] [] [] Invalid.

Lemma SelectAdamNodes_elects_witness :
  ∃ miners coordinator,
    (snd <$> @SelectAdamNodes merge_std_sort demo_hash demo_pool demo_env demo_reg2 (demo_adam 2) false [1] 20 None
       null_cache) = Some (Some (miners, coordinator)) ∧
    miners = demo_key <$> [2; 4; 5] ∧ coordinator = demo_key 6 ∧
    elected demo_hash [1] 3 2 (demo_pool 19)
      (@active_masternodes merge_std_sort demo_env demo_reg2 false 19) miners coordinator.
Proof.
  destruct (SelectAdamNodes_elects merge_std_sort demo_hash demo_pool demo_env demo_reg2 (demo_adam 2)
    false [1] 20 None null_cache) as (minCount & c' & r & Hm & Hsel & _ & Hr).
  - intros H. vm_compute in H. discriminate H.
  - vm_compute. repeat constructor; intros H; repeat (apply elem_of_cons in H as [H|H]; [discriminate H|]);
      by apply elem_of_nil in H.
  - vm_compute. discriminate.
  - vm_compute. split; [reflexivity|discriminate].
  - assert (minCount = 3) as -> by (vm_compute in Hm; by injection Hm).
    destruct r as [[ms co]|]; [|exfalso; vm_compute in Hr; discriminate Hr].
    exists ms, co. rewrite Hsel. split; [done|].
    assert (snd <$> @SelectAdamNodes merge_std_sort demo_hash demo_pool demo_env demo_reg2 (demo_adam 2) false [1] 20 None
       null_cache = Some (Some (demo_key <$> [2; 4; 5], demo_key 6))) as Hv by (vm_compute; reflexivity).
    rewrite Hsel in Hv. simpl in Hv. injection Hv as -> ->. split_and!; [done..|]. exact (proj2 Hr).
Defined.

(** C35: nodes agree on an election: two nodes with the same registry, coins, seed and
    pool return the same miners and the same coordinator, whatever each one's static
    cache has kept from earlier calls and however its [std::sort] orders equivalent
    elements, as long as the seed gives the keys distinct hashes. *)
Theorem SelectAdamNodes_agreement (S1 S2 : StdSort) SeedKeyHash GetAdamMinerPool e s p fRegTest seed
    nBlockHeight seedHeight c1 c2 :
  let nHeight := select_height nBlockHeight seedHeight in
  let refHeight := if 0 <=? nHeight then nHeight else default 0 (tipHeight e) in
  let pool := GetAdamMinerPool nHeight in
  reachable s → @cache_ok S1 SeedKeyHash c1 → @cache_ok S2 SeedKeyHash c2 →
  NoDup pool → 0 ≤ nAdamMinersCount p → 0 < nAdamThreshold p ≤ 0x7FFFFFFF →
  distinct_hashes SeedKeyHash seed pool →
  distinct_hashes SeedKeyHash seed (@active_masternodes S1 e s fRegTest refHeight) →
  snd <$> @SelectAdamNodes S1 SeedKeyHash GetAdamMinerPool e s p fRegTest seed nBlockHeight seedHeight c1 =
  snd <$> @SelectAdamNodes S2 SeedKeyHash GetAdamMinerPool e s p fRegTest seed nBlockHeight seedHeight c2.
Proof.
  intros nHeight refHeight pool Hs%reachable_ok Hc1 Hc2 Hnd Hm Hp Hd1 Hd2.
  destruct (select_minCount_defined p nBlockHeight nHeight (tipHeight e) Hm) as (minCount & Hmin & Hm0).
  destruct (GetAdamThreshold_bounds p refHeight Hp) as [Ht Htu].
  pose proof (@Select_elect S1 SeedKeyHash GetAdamMinerPool e s p fRegTest seed nBlockHeight seedHeight
    c1 minCount Hc1 Hmin) as H1.
  pose proof (@Select_elect S2 SeedKeyHash GetAdamMinerPool e s p fRegTest seed nBlockHeight seedHeight
    c2 minCount Hc2 Hmin) as H2.
  cbv zeta in H1, H2. fold nHeight refHeight pool in H1, H2.
  set (threshold := GetAdamThreshold p refHeight) in *. rewrite Htu in H1, H2.
  rewrite <- (active_masternodes_agree S1 S2 e s fRegTest refHeight Hs) in H2.
  rewrite <- (elect_agree S1 S2 SeedKeyHash) in H2 by done.
  destruct (Z.ltb_spec (Z.of_nat (length pool)) threshold) as [Hlt|Hge].
  - assert (∀ (S : StdSort) c, SelectAdamNodes SeedKeyHash GetAdamMinerPool e s p fRegTest seed
      nBlockHeight seedHeight c = Some (c, None)) as Hno; [|by rewrite !Hno].
    intros S c. unfold SelectAdamNodes. fold nHeight. rewrite Hmin. simpl.
    fold refHeight threshold pool. rewrite Htu. by rewrite (proj2 (Z.ltb_lt _ _) Hlt).
  - destruct (@elect_spec S1 SeedKeyHash seed minCount threshold pool
      (@active_masternodes S1 e s fRegTest refHeight) Hnd) as (ms & co & He & _);
      [by intros E; rewrite E in Hge; simpl in Hge; lia|done|lia|].
    rewrite He in H1, H2. destruct H1 as (c1' & _ & ->), H2 as (c2' & _ & ->). done.
Qed.

(** Another sort that meets the contract: it sorts the reversed list. *)
Definition rev_merge_sort : StdSort.
Proof.
  refine {| std_sort := λ A lt l, merge_by lt (rev l) |}.
  - intros A lt l. rewrite merge_by_perm. symmetry. apply Permutation_rev.
  - intros A lt l. apply merge_by_sorted.
Defined.

Lemma SelectAdamNodes_agreement_witness :
  snd <$> @SelectAdamNodes merge_std_sort demo_hash demo_pool demo_env demo_reg2 (demo_adam 2) false [1]
    20 None null_cache =
  snd <$> @SelectAdamNodes rev_merge_sort demo_hash demo_pool demo_env demo_reg2 (demo_adam 2) false [1]
    20 None null_cache.
Proof.
  assert (∀ bs : list Z, distinct_hashes demo_hash [1] (demo_key <$> bs)) as Hd.
  { intros bs a b (x & -> & _)%list_elem_of_fmap (y & -> & _)%list_elem_of_fmap.
    unfold demo_hash. simpl. by intros ->. }
  apply (SelectAdamNodes_agreement merge_std_sort rev_merge_sort demo_hash demo_pool demo_env demo_reg2
    (demo_adam 2) false [1] 20 None null_cache null_cache demo_reg2_reachable).
  - intros H. vm_compute in H. discriminate H.
  - intros H. vm_compute in H. discriminate H.
  - vm_compute. repeat constructor; intros H; repeat (apply elem_of_cons in H as [H|H]; [discriminate H|]);
      by apply elem_of_nil in H.
  - vm_compute. discriminate.
  - vm_compute. split; [reflexivity|discriminate].
  - exact (Hd _).
  - exact (Hd [1]).
Defined.
