(* ===== verification/AdamFallback.v ===== *)
(** * Rotation of the fallback coordinator

    [adam.cpp]: when the elected coordinator stays silent for 45 seconds,
    [GetAdamFallbackCoordinatorForSlot] hands its role to the miners in turn, 30
    seconds each, in the order [RankValidatorsByPoBLSDistance] gives them: the miners
    with a valid ticket first, by the distance of the ticket to a target, ties broken
    by key.  The hashes and the extraction of a ticket from a solution are
    arguments. *)

From stdpp Require Import gmap fin_maps sorting.
From S2P Require Import Prelude Sorting Transaction Standard Ints Params AdamPing AdamSelect.

Local Open Scope Z_scope.

Definition ADAM_FALLBACK_COORDINATOR_TIMEOUT_SECS : Z := 45.

Record ValidatorDistance := MkDistance {
  vd_key : CPubKey;
  vd_distance : Z;
  vd_hasValidTicket : bool
}.

Definition vd_lt (a b : ValidatorDistance) : bool :=
  if negb (eqb (vd_hasValidTicket a) (vd_hasValidTicket b)) then
    vd_hasValidTicket a && negb (vd_hasValidTicket b)
  else if negb (vd_distance a =? vd_distance b) then vd_distance a <? vd_distance b
  else key_lt (vd_key a) (vd_key b).

Definition ComputePoBLSXORDistance (ticketHash targetHash : Z) : Z := ticketHash .^ targetHash.

Section Fallback.
Context {S : StdSort}.
Context (SeedKeyHeightHash : list Z → CPubKey → Z → Z) (ComputePoBLSTarget : list Z → Z → Z).
Context (ExtractPoBLSTicketFromSolution : list Z → Z → CPubKey → option Z).

Definition distance_of (hashAdamSeed : list Z) (nBlockHeight : Z) (mapSolutions : gmap CPubKey (list Z))
    (minerKey : CPubKey) : ValidatorDistance :=
  let targetHash := ComputePoBLSTarget hashAdamSeed nBlockHeight in
  let ticket :=
    match mapSolutions !! minerKey with
    | Some ((_ :: _) as vchSolution) =>
        ExtractPoBLSTicketFromSolution vchSolution nBlockHeight minerKey
    | _ => None
    end in
  let ticketHash := default (SeedKeyHeightHash hashAdamSeed minerKey nBlockHeight) ticket in
  MkDistance minerKey (ComputePoBLSXORDistance ticketHash targetHash) (bool_decide (is_Some ticket)).

Definition RankValidatorsByPoBLSDistance (hashAdamSeed : list Z) (nBlockHeight : Z)
    (vMiners : list CPubKey) (mapSolutions : gmap CPubKey (list Z)) : list CPubKey :=
  vd_key <$> std_sort vd_lt (distance_of hashAdamSeed nBlockHeight mapSolutions <$> vMiners).

(** The three output arguments on success. *)
Record Fallback := MkFallback {
  activeFallbackOut : CPubKey;
  prevFallbackOut : CPubKey;
  rotationIndexOut : Z
}.

(** The outer option is an access past the end of the ranking. *)
Definition GetAdamFallbackCoordinatorForSlot (hashAdamSeed : list Z) (nBlockHeight nTimeElapsed : Z)
    (vMiners : list CPubKey) (mapSolutions : gmap CPubKey (list Z)) : option (option Fallback) :=
  if (nTimeElapsed <? ADAM_FALLBACK_COORDINATOR_TIMEOUT_SECS) || bool_decide (vMiners = [])
  then Some None
  else
    let vRankedValidators :=
      RankValidatorsByPoBLSDistance hashAdamSeed nBlockHeight vMiners mapSolutions in
    let size := Z.of_nat (length vRankedValidators) in
    if bool_decide (vRankedValidators = []) then Some None
    else
      let nFallbackElapsed := nTimeElapsed - ADAM_FALLBACK_COORDINATOR_TIMEOUT_SECS in
      let nRawSlot := Z.quot nFallbackElapsed 30 in
      let nSlotOffset := Z.rem nFallbackElapsed 30 in
      let rotationIndex := i32 (u64 nRawSlot mod size) in
      active ← at_index vRankedValidators rotationIndex;
      if (0 <? nRawSlot) && (nSlotOffset <? 5) then
        let prevRotationIndex := i32 (u64 (rotationIndex + i32 size - 1) mod size) in
        prev ← at_index vRankedValidators prevRotationIndex;
        Some (Some (MkFallback active prev rotationIndex))
      else Some (Some (MkFallback active active rotationIndex)).

(** ** The ranking *)

Lemma vd_lt_orders : weakly_orders vd_lt.
Proof using.
  unfold weakly_orders, vd_lt. split.
  - intros [k1 d1 t1] [k2 d2 t2]. simpl. destruct t1, t2; simpl; try done;
      rewrite (Z.eqb_sym d2 d1); destruct (Z.eqb_spec d1 d2); simpl;
      try apply key_lt_asym; rewrite Z.ltb_lt, Z.ltb_ge; lia.
  - intros [k1 d1 t1] [k2 d2 t2] [k3 d3 t3]. simpl.
    destruct t1, t2, t3; simpl; try done;
      destruct (Z.eqb_spec d2 d1), (Z.eqb_spec d3 d2), (Z.eqb_spec d3 d1); simpl; subst; try lia;
      rewrite ?Z.ltb_ge; try lia; apply key_lt_ctrans.
Qed.

Lemma vd_lt_total a b : vd_lt a b = false → vd_lt b a = false → a = b.
Proof using.
  destruct a as [k1 d1 t1], b as [k2 d2 t2]. unfold vd_lt. simpl.
  rewrite (Z.eqb_sym d2 d1). destruct t1, t2; simpl; try done;
    destruct (Z.eqb_spec d1 d2) as [->|]; simpl; rewrite ?Z.ltb_ge; try lia;
    intros; by rewrite (key_lt_total k1 k2).
Qed.

Lemma Rank_perm seed h miners sols : RankValidatorsByPoBLSDistance seed h miners sols ≡ₚ miners.
Proof using Type.
  unfold RankValidatorsByPoBLSDistance. rewrite std_sort_perm, <- list_fmap_compose.
  by rewrite (list_fmap_ext (vd_key ∘ distance_of seed h sols) id), list_fmap_id.
Qed.

(** A key is ranked before another only if it is not beaten by it. *)
Definition ranks_before seed h sols (a b : CPubKey) : Prop :=
  vd_lt (distance_of seed h sols b) (distance_of seed h sols a) = false.

Lemma Rank_sorted seed h miners sols :
  StronglySorted (ranks_before seed h sols) (RankValidatorsByPoBLSDistance seed h miners sols).
Proof using Type.
  unfold RankValidatorsByPoBLSDistance.
  pose proof (std_sort_sorted vd_lt (distance_of seed h sols <$> miners) vd_lt_orders) as Hs.
  assert (∀ v, v ∈ std_sort vd_lt (distance_of seed h sols <$> miners) →
    v = distance_of seed h sols (vd_key v)) as He.
  { intros v. rewrite std_sort_perm. by intros (k & -> & _)%list_elem_of_fmap. }
  induction Hs as [|v l Hs IH Hv]; [constructor|]. rewrite fmap_cons. constructor.
  - apply IH. intros x Hx. apply He. by right.
  - apply Forall_forall. intros k (x & -> & Hx)%list_elem_of_fmap. unfold ranks_before.
    rewrite <- (He v), <- (He x) by (by constructor). by apply (proj1 (Forall_forall _ _) Hv).
Qed.

(** The order of the rotation: miners with a valid ticket before those without, each group
    by ascending distance of the ticket to the target, ties in the order of keys. *)
Definition in_rank_order seed h sols (l : list CPubKey) : Prop :=
  let dist := distance_of seed h sols in
  ∀ i j a b, (i < j)%nat → l !! i = Some a → l !! j = Some b →
    (vd_hasValidTicket (dist b) = true → vd_hasValidTicket (dist a) = true) ∧
    (vd_hasValidTicket (dist a) = vd_hasValidTicket (dist b) →
       vd_distance (dist a) < vd_distance (dist b) ∨
       vd_distance (dist a) = vd_distance (dist b) ∧ key_lt b a = false).

Lemma Rank_in_order seed h miners sols : in_rank_order seed h sols (RankValidatorsByPoBLSDistance seed h miners sols).
Proof using Type.
  set (l := RankValidatorsByPoBLSDistance seed h miners sols). intros i j a b Hij Ha Hb. set (dist := distance_of seed h sols).
  assert (ranks_before seed h sols a b) as Hr.
  { pose proof (Rank_sorted seed h miners sols) as Hs. fold l in Hs.
    rewrite <- (take_drop_middle l j b Hb) in Hs. apply StronglySorted_app in Hs as (Hs & _).
    apply Hs; [|by left]. apply list_elem_of_lookup. exists i. by rewrite lookup_take_lt. }
  unfold ranks_before, vd_lt in Hr. fold dist in Hr.
  change (vd_key (dist a)) with a in Hr. change (vd_key (dist b)) with b in Hr.
  assert (∀ x y : Z, (if negb (y =? x) then y <? x else key_lt b a) = false →
    x < y ∨ x = y ∧ key_lt b a = false) as Hd.
  { intros x y. destruct (Z.eqb_spec y x); simpl; [auto|]. rewrite Z.ltb_ge. lia. }
  destruct (vd_hasValidTicket (dist a)), (vd_hasValidTicket (dist b)); simpl in Hr; try done;
    split; try done; intros _; by apply Hd.
Qed.

(** ** The rotation *)

(** The number of whole slots since the timeout, and the key whose turn a slot is. *)
Definition slot (nTimeElapsed : Z) : Z := (nTimeElapsed - 45) / 30.

Definition turn (l : list CPubKey) (i : Z) : option CPubKey := l !! Z.to_nat (i mod Z.of_nat (length l)).

Lemma at_index_turn l i x :
  l ≠ [] → x = i mod Z.of_nat (length l) → at_index l x = turn l i.
Proof using.
  intros Hl ->. unfold at_index, turn. pose proof (Z.mod_pos_bound i (Z.of_nat (length l))).
  destruct l; [done|]. by rewrite (proj2 (Z.ltb_ge _ 0)) by (simpl in *; lia).
Qed.

Lemma turn_defined l i : l ≠ [] → ∃ k, turn l i = Some k ∧ k ∈ l.
Proof using.
  intros Hl. unfold turn. pose proof (Z.mod_pos_bound i (Z.of_nat (length l))).
  destruct (lookup_lt_is_Some_2 l (Z.to_nat (i mod Z.of_nat (length l)))) as [k Hk].
  { destruct l; [done|]. simpl in *. lia. }
  exists k. split; [done|]. by eapply list_elem_of_lookup_2.
Qed.

Lemma prev_index n i :
  0 < n < 2 ^ 31 → 0 < i → (i mod n + n - 1) mod n = (i - 1) mod n.
Proof using.
  intros Hn Hi. rewrite <- Z.add_sub_assoc, Z.add_mod_idemp_l by lia.
  replace (i + (n - 1)) with (i - 1 + 1 * n) by lia. by rewrite Z.mod_add by lia.
Qed.

Lemma Fallback_at seed h t miners sols :
  45 ≤ t < 2 ^ 63 → miners ≠ [] → Z.of_nat (length miners) < 2 ^ 31 →
  let l := RankValidatorsByPoBLSDistance seed h miners sols in
  ∃ active prev,
    GetAdamFallbackCoordinatorForSlot seed h t miners sols =
      Some (Some (MkFallback active prev (slot t mod Z.of_nat (length miners)))) ∧
    turn l (slot t) = Some active ∧
    turn l (if decide (0 < slot t ∧ (t - 45) mod 30 < 5) then slot t - 1 else slot t) = Some prev.
Proof using Type.
  intros Ht Hne Hlen l. pose proof (Permutation_length (Rank_perm seed h miners sols) :
    length l = length miners) as Hll.
  assert (l ≠ []) as Hl by (intros E; rewrite E in Hll; by destruct miners).
  assert (0 < Z.of_nat (length l)) by (destruct l; [done|]; simpl; lia).
  unfold GetAdamFallbackCoordinatorForSlot, ADAM_FALLBACK_COORDINATOR_TIMEOUT_SECS.
  rewrite (proj2 (Z.ltb_ge t 45)), (bool_decide_eq_false_2 (miners = [])) by (done || lia). simpl.
  fold l. rewrite (bool_decide_eq_false_2 (l = [])) by done.
  rewrite Z.quot_div_nonneg, Z.rem_mod_nonneg by lia. fold (slot t). rewrite <- Hll.
  assert (0 ≤ slot t ∧ u64 (slot t) = slot t) as [Hs0 ->].
  { unfold slot. split; [apply Z.div_pos; lia|]. apply u64_id. split; [apply Z.div_pos; lia|].
    apply Z.div_lt_upper_bound; [lia|]. change (2 ^ 63) with 0x8000000000000000 in Ht.
    change (2 ^ 64) with 0x10000000000000000. lia. }
  pose proof (Z.mod_pos_bound (slot t) (Z.of_nat (length l))) as Hb.
  rewrite !(i32_id (slot t mod _)), !(i32_id (Z.of_nat (length l))) by lia.
  rewrite (at_index_turn l (slot t) (slot t mod _) Hl eq_refl).
  destruct (turn_defined l (slot t) Hl) as (a & Ha & _). rewrite Ha. simpl.
  destruct (turn_defined l (slot t - 1) Hl) as (b & Hpb & _).
  destruct (Z.ltb_spec 0 (slot t)) as [Hp|Hp]; simpl.
  - destruct (Z.ltb_spec ((t - 45) mod 30) 5).
    + rewrite u64_id by (change (2 ^ 31) with 0x80000000 in *; unfold word;
        change (2 ^ 64) with 0x10000000000000000; lia).
      rewrite prev_index by lia. pose proof (Z.mod_pos_bound (slot t - 1) (Z.of_nat (length l))).
      rewrite i32_id by lia. rewrite (at_index_turn l (slot t - 1) ((slot t - 1) mod _) Hl eq_refl), Hpb. simpl.
      exists a, b. by rewrite decide_True.
    + exists a, a. rewrite decide_False by lia. done.
  - exists a, a. rewrite decide_False by lia. done.
Qed.

Lemma turn_visits l k i :
  k ∈ l → ∃ j, 0 ≤ j < Z.of_nat (length l) ∧ turn l (i + j) = Some k.
Proof using.
  intros [q Hq]%list_elem_of_lookup. pose proof (lookup_lt_Some _ _ _ Hq) as Hlt.
  set (m := Z.of_nat (length l)). exists ((Z.of_nat q - i) mod m).
  assert (0 < m) as Hm by lia. split; [by apply Z.mod_pos_bound|].
  unfold turn. fold m. rewrite Z.add_mod_idemp_r by lia.
  replace (i + (Z.of_nat q - i)) with (Z.of_nat q) by lia. rewrite Z.mod_small by lia.
  by rewrite Nat2Z.id.
Qed.
End Fallback.

(** ** Theorems *)

(** The ranking is the same for every [std::sort] that meets its contract, so all nodes
    with the same solutions rotate in the same order. *)
Lemma RankValidators_agree (S S' : StdSort) H T X seed h miners sols :
  @RankValidatorsByPoBLSDistance S H T X seed h miners sols = @RankValidatorsByPoBLSDistance S' H T X seed h miners sols.
Proof.
  unfold RankValidatorsByPoBLSDistance. f_equal. apply std_sort_unique; [apply vd_lt_orders|].
  intros x y _ _. apply vd_lt_total.
Qed.

(** C22: the fallback starts exactly 45 seconds after the last block; from then on, slots
    of 30 seconds belong to the miners in turn, in one order for all times: the miners with
    a valid ticket first, each group by ascending distance to the target, ties by key.
    During the first 5 seconds of every slot but the first, the miner of the slot before is
    still accepted; and over any as many consecutive slots as there are miners every
    miner gets its turn, so one silent miner delays a block by at most its slot. *)
Theorem fallback_rotation (S : StdSort) H T X seed h miners sols :
  miners ≠ [] → Z.of_nat (length miners) < 2 ^ 31 →
  let at_time u := @GetAdamFallbackCoordinatorForSlot S H T X seed h u miners sols in
  ∃ l, l ≡ₚ miners ∧ in_rank_order H T X seed h sols l ∧
  ∀ t, 0 ≤ t → t + 30 * Z.of_nat (length miners) < 2 ^ 63 →
  (t < 45 → at_time t = Some None) ∧
  (45 ≤ t →
   ∃ r, at_time t = Some (Some r) ∧ rotationIndexOut r = slot t mod Z.of_nat (length miners) ∧
     l !! Z.to_nat (rotationIndexOut r) = Some (activeFallbackOut r) ∧
     (if decide (75 ≤ t ∧ (t - 45) mod 30 < 5) then
        ∃ r', at_time (t - 30) = Some (Some r') ∧ prevFallbackOut r = activeFallbackOut r'
      else prevFallbackOut r = activeFallbackOut r) ∧
     ∀ k, k ∈ miners → ∃ j r',
       0 ≤ j < Z.of_nat (length miners) ∧
       at_time (t + 30 * j) = Some (Some r') ∧ activeFallbackOut r' = k).
Proof.
  intros Hne Hlen at_time. unfold at_time. set (l := RankValidatorsByPoBLSDistance H T X seed h miners sols).
  assert (l ≡ₚ miners) as Hp by apply Rank_perm. exists l. split; [done|]. split; [apply Rank_in_order|]. intros t Ht0 Ht. split.
  { intros Hlt. unfold GetAdamFallbackCoordinatorForSlot, ADAM_FALLBACK_COORDINATOR_TIMEOUT_SECS.
    by rewrite (proj2 (Z.ltb_lt t 45) Hlt). }
  intros Ht45. assert (∀ u, 45 ≤ u < 2 ^ 63 → ∃ r, GetAdamFallbackCoordinatorForSlot H T X seed h u miners sols =
    Some (Some r) ∧ rotationIndexOut r = slot u mod Z.of_nat (length miners) ∧ turn l (slot u) = Some (activeFallbackOut r) ∧
    turn l (if decide (0 < slot u ∧ (u - 45) mod 30 < 5) then slot u - 1 else slot u) =
      Some (prevFallbackOut r)) as Hat.
  { intros u Hu. destruct (Fallback_at H T X seed h u miners sols Hu Hne Hlen) as (a & p & E & ? & ?).
    eauto. }
  destruct (Hat t) as (r & E & Ei & Ha & Hprev); [lia|]. exists r. split_and!; [done|done| | |].
  - rewrite Ei. rewrite <- Ha. unfold turn. by rewrite (Permutation_length Hp).
  - assert (0 < slot t ↔ 75 ≤ t) as Hsl.
    { unfold slot. pose proof (Z.div_mod (t - 45) 30). pose proof (Z.mod_pos_bound (t - 45) 30). lia. }
    destruct (decide (75 ≤ t ∧ (t - 45) mod 30 < 5)) as [[H75 Hm]|Hn].
    + rewrite decide_True in Hprev by tauto. destruct (Hat (t - 30)) as (r' & ? & _ & Ha' & _); [lia|].
      exists r'. split; [done|]. replace (slot (t - 30)) with (slot t - 1) in Ha'; [congruence|].
      unfold slot. replace (t - 45) with (t - 30 - 45 + 1 * 30) by lia. rewrite Z.div_add by lia. lia.
    + rewrite decide_False in Hprev by tauto. congruence.
  - intros k Hk. rewrite <- Hp in Hk. destruct (turn_visits l k (slot t) Hk) as (j & Hj & Hturn).
    rewrite (Permutation_length Hp) in Hj. destruct (Hat (t + 30 * j)) as (r' & ? & _ & Ha' & _); [lia|].
    exists j, r'. split_and!; [lia|lia|done|]. replace (slot (t + 30 * j)) with (slot t + j) in Ha';
      [congruence|].
    unfold slot. replace (t + 30 * j - 45) with (t - 45 + j * 30) by lia. by rewrite Z.div_add by lia.
Qed.

(** Tickets are the solution's first byte; the key's second byte stands in for the
    hash of a key without one. *)
Definition demo_fallback (t : Z) : option (option Fallback) :=
  @GetAdamFallbackCoordinatorForSlot merge_std_sort (λ _ k _, nth 1 k 0) (λ _ _, 0) (λ v _ _, head v) [1] 100 t
    (demo_pool 0) {[demo_key 6 := [3]]}.

Lemma fallback_rotation_witness :
  (∃ r, demo_fallback 45 = Some (Some r) ∧ activeFallbackOut r = demo_key 6) ∧
  (∃ j r', 0 ≤ j < 5 ∧ demo_fallback (45 + 30 * j) = Some (Some r') ∧ activeFallbackOut r' = demo_key 8).
Proof.
  destruct (fallback_rotation merge_std_sort (λ _ k _, nth 1 k 0) (λ _ _, 0) (λ v _ _, head v) [1] 100
    (demo_pool 0) {[demo_key 6 := [3]]}) as (l & _ & _ & Hall); [discriminate|vm_compute; reflexivity|].
  destruct (Hall 45 ltac:(lia) ltac:(vm_compute; reflexivity)) as (_ & Hr).
  destruct (Hr ltac:(lia)) as (r & E & _ & _ & _ & Hturns). split.
  - exists r. split; [exact E|].
    assert (demo_fallback 45 = Some (Some (MkFallback (demo_key 6) (demo_key 6) 0))) as Ev
      by (vm_compute; reflexivity).
    unfold demo_fallback in Ev. rewrite Ev in E. by injection E as <-.
  - exact (Hturns (demo_key 8) ltac:(unfold demo_pool; left)).
Defined.
