(* ===== verification/StakeModifier.v ===== *)
(** * Stake modifiers

    [src/src/legacy/stakemodifier.cpp]: the 64-bit number that every stake kernel
    hashes.  [ComputeNextStakeModifier] collects one entropy bit from each of up to 64
    recent blocks, [SelectBlockFromCandidates] choosing the blocks;
    [GetOldModifier] finds the modifier a coin stakes with, about 35 minutes after the
    block of the coin.  With it, [SetNewStakeModifier] of [chain.cpp], which gives a new
    block index entry its modifier.

    The block index is the heap of [BlockIndex], [mapBlockIndex] the map from hashes
    to its entries, the active chain that of [Chain].  [Hash], the double SHA-256 of
    a byte string as the limbs of a [uint256], is a parameter. *)

From stdpp Require Import gmap fin_maps sorting.
From S2P Require Import Prelude Ints ArithUint256 Uint256 BlockIndex Chain Sorting.

Local Open Scope Z_scope.

Definition MODIFIER_INTERVAL : Z := 60.
Definition MODIFIER_INTERVAL_RATIO : Z := 3.

(** [fTest]: the network is the regression or the test network. *)
Definition GetOldModifierInterval (fTest : bool) : Z := if fTest then 60 else 2087.

(** The product and the quotient are of unsigned type; [None] is the failed assertion. *)
Definition GetStakeModifierSelectionIntervalSection (nSection : Z) : option Z :=
  if (0 <=? nSection) && (nSection <? 64) then
    Some (u32 (MODIFIER_INTERVAL * 63) / u32 (63 + (63 - nSection) * (MODIFIER_INTERVAL_RATIO - 1)))
  else None.

(** [GetBlockHash().GetCheapHash() & 1]. *)
Definition GetStakeEntropyBit (b : CBlockIndex) : Z := u32 (GetLow64 (phashBlock b) .& 1).

Definition uint256_bytes (a : uint256) : list Z := concat (map (le_enc 4) a).

(** [operator<] of [std::pair<int64_t, uint256>]. *)
Definition candidate_lt (x y : Z * uint256) : bool :=
  (x.1 <? y.1) || (negb (y.1 <? x.1) && op_lt W256 x.2 y.2).

Section Modifiers.
Context {S : StdSort}.
Context (Hash : list Z → uint256) (fTest : bool).
Context (h : heap) (mapBlockIndex : gmap uint256 ptr).

(** ** Selecting a block *)

Definition hashSelection_of (nStakeModifierPrev : Z) (b : CBlockIndex) : uint256 :=
  let hashProof := if IsProofOfStake b then base_uint_zero W256 else phashBlock b in
  let hashSelection := Hash (uint256_bytes hashProof ++ le_enc 8 nStakeModifierPrev) in
  if IsProofOfStake b then shr_assign W256 hashSelection 32 else hashSelection.

(** The loop, with the best candidate so far and its hash ([fSelected] is that there
    is one).  The outer [None] is a null dereference, the inner one [return false]. *)
Fixpoint select_loop (mapSelectedBlocks : gmap uint256 ptr) (nSelectionIntervalStop nStakeModifierPrev : Z)
    (best : option (uint256 * ptr)) (vSorted : list (Z * uint256)) : option (option ptr) :=
  match vSorted with
  | [] => Some (snd <$> best)
  | item :: vSorted =>
      match mapBlockIndex !! item.2 with
      | None => Some None
      | Some pindex =>
          b ← h !! pindex;
          if bool_decide (is_Some best) && (nSelectionIntervalStop <? GetBlockTime b) then Some (snd <$> best)
          else if bool_decide (is_Some (mapSelectedBlocks !! phashBlock b)) then
            select_loop mapSelectedBlocks nSelectionIntervalStop nStakeModifierPrev best vSorted
          else
            let hashSelection := hashSelection_of nStakeModifierPrev b in
            let best :=
              match best with
              | Some (hashBest, p) =>
                  if op_lt W256 hashSelection hashBest then Some (hashSelection, pindex) else best
              | None => Some (hashSelection, pindex)
              end in
            select_loop mapSelectedBlocks nSelectionIntervalStop nStakeModifierPrev best vSorted
      end
  end.

Definition SelectBlockFromCandidates (vSortedByTimestamp : list (Z * uint256)) (mapSelectedBlocks : gmap uint256 ptr)
    (nSelectionIntervalStop nStakeModifierPrev : Z) : option (option ptr) :=
  select_loop mapSelectedBlocks nSelectionIntervalStop nStakeModifierPrev None vSortedByTimestamp.

(** ** The next modifier *)

(** [while (p && p->pprev && !p->GeneratedStakeModifier()) p = p->pprev]. *)
Fixpoint last_generated (fuel : nat) (p : ptr) : option CBlockIndex :=
  b ← h !! p;
  if GeneratedStakeModifier b then Some b
  else
    match pprev b, fuel with
    | None, _ => Some b
    | Some q, Datatypes.S fuel => last_generated fuel q
    | Some _, O => None
    end.

(** The loop that pushes back the candidates, newest first. *)
Fixpoint collect (nSelectionIntervalStart : Z) (fuel : nat) (pindex : option ptr) : option (list (Z * uint256)) :=
  match pindex, fuel with
  | None, _ => Some []
  | Some _, O => None
  | Some p, Datatypes.S fuel =>
      b ← h !! p;
      if nSelectionIntervalStart <=? GetBlockTime b then
        rest ← collect nSelectionIntervalStart fuel (pprev b);
        Some ((GetBlockTime b, phashBlock b) :: rest)
      else Some []
  end.

(** One round; [None] is a null dereference or a failed assertion, [Some None] is
    [return error]. *)
Definition round (vSorted : list (Z * uint256)) (nStakeModifier : Z)
    (st : option (option (Z * Z * gmap uint256 ptr))) (nRound : nat) :
    option (option (Z * Z * gmap uint256 ptr)) :=
  st ← st;
  match st with
  | None => Some None
  | Some (stop, new, taken) =>
      section ← GetStakeModifierSelectionIntervalSection (Z.of_nat nRound);
      let stop := stop + section in
      sel ← SelectBlockFromCandidates vSorted taken stop nStakeModifier;
      match sel with
      | None => Some None
      | Some pindex =>
          b ← h !! pindex;
          Some (Some (stop, new .| u64 (GetStakeEntropyBit b << Z.of_nat nRound),
                      match taken !! phashBlock b with
                      | Some _ => taken
                      | None => <[phashBlock b := pindex]> taken
                      end))
      end
  end.

(** The result, [nStakeModifier] and [fGeneratedStakeModifier]. *)
Definition ComputeNextStakeModifier (pindexPrev : option ptr) : option (bool * Z * bool) :=
  match pindexPrev with
  | None => Some (true, 0, true)
  | Some pprev =>
      b ← h !! pprev;
      if nHeight b =? 0 then Some (true, 0x0e78f1f28b0e0000, true)
      else
        p ← last_generated (Z.to_nat (nHeight b)) pprev;
        if negb (GeneratedStakeModifier p) then Some (false, 0, false)
        else
          let nStakeModifier := GetStakeModifierV1 p in
          let nModifierTime := GetBlockTime p in
          if Z.quot (GetBlockTime b) MODIFIER_INTERVAL <=? Z.quot nModifierTime MODIFIER_INTERVAL then
            Some (true, nStakeModifier, false)
          else
            let nSelectionIntervalStart :=
              Z.quot (GetBlockTime b) MODIFIER_INTERVAL * MODIFIER_INTERVAL - GetOldModifierInterval fTest in
            v ← collect nSelectionIntervalStart (Datatypes.S (Z.to_nat (nHeight b))) pindexPrev;
            let vSortedByTimestamp := std_sort candidate_lt (rev v) in
            st ← foldl (round vSortedByTimestamp nStakeModifier) (Some (Some (nSelectionIntervalStart, 0, ∅)))
                   (seq 0 (Nat.min 64 (length vSortedByTimestamp)));
            match st with
            | None => Some (false, nStakeModifier, false)
            | Some (_, nStakeModifierNew, _) => Some (true, nStakeModifierNew, true)
            end
  end.

(** [CBlockIndex::SetNewStakeModifier]: what failed is only logged. *)
Definition SetNewStakeModifier (b : CBlockIndex) : option CBlockIndex :=
  r ← ComputeNextStakeModifier (pprev b);
  Some (SetStakeModifier r.1.2 r.2 (SetStakeEntropyBit (GetStakeEntropyBit b) b).1).

(** ** The modifier of a coin *)

Section Chain.
Context (chainActive : CChain).

(** The [do] loop from [pindexNext] on; [Some None] is [return error]. *)
Fixpoint modifier_loop (fuel : nat) (nStop : Z) (nStakeModifierTime : Z) (pindexNext : option ptr) :
    option (option Z) :=
  match fuel, pindexNext with
  | _, None => Some None
  | O, _ => None
  | Datatypes.S fuel, Some pindex =>
      b ← h !! pindex;
      let nStakeModifierTime := if GeneratedStakeModifier b then GetBlockTime b else nStakeModifierTime in
      if nStakeModifierTime <? nStop then
        modifier_loop fuel nStop nStakeModifierTime (at_height chainActive (nHeight b + 1))
      else Some (Some (GetStakeModifierV1 b))
  end.

(** Every turn goes one block up the active chain, so its length is enough fuel. *)
Definition GetOldModifier (pindexFrom : ptr) : option (option Z) :=
  b ← h !! pindexFrom;
  modifier_loop (length (vChain chainActive)) (GetBlockTime b + GetOldModifierInterval fTest)
    (GetBlockTime b) (at_height chainActive (nHeight b + 1)).

End Chain.
End Modifiers.

(** ** The order of the candidates *)

Lemma CompareTo_from_antisym n a b : CompareTo_from n b a = - CompareTo_from n a b.
Proof.
  induction n as [|n IH]; [done|]. cbn [CompareTo_from].
  destruct (Z.ltb_spec a.[n] b.[n]), (Z.ltb_spec b.[n] a.[n]); (done || lia).
Qed.

Lemma CompareTo_from_trans n a b c :
  0 ≤ CompareTo_from n b a → 0 ≤ CompareTo_from n c b → 0 ≤ CompareTo_from n c a.
Proof.
  induction n as [|n IH]; [done|]. cbn [CompareTo_from].
  destruct (Z.ltb_spec b.[n] a.[n]), (Z.ltb_spec a.[n] b.[n]), (Z.ltb_spec c.[n] b.[n]),
    (Z.ltb_spec b.[n] c.[n]), (Z.ltb_spec c.[n] a.[n]), (Z.ltb_spec a.[n] c.[n]); auto; lia.
Qed.

Lemma candidate_lt_orders : weakly_orders candidate_lt.
Proof.
  unfold weakly_orders, candidate_lt, op_lt, CompareTo. split.
  - intros x y. rewrite (CompareTo_from_antisym _ x.2 y.2).
    destruct (Z.ltb_spec x.1 y.1), (Z.ltb_spec y.1 x.1); simpl; try lia; rewrite ?Z.ltb_lt, ?Z.ltb_ge; try done; lia.
  - intros x y z. pose proof (CompareTo_from_trans W256 x.2 y.2 z.2) as Ht.
    destruct (Z.ltb_spec x.1 y.1), (Z.ltb_spec y.1 x.1), (Z.ltb_spec y.1 z.1), (Z.ltb_spec z.1 y.1),
      (Z.ltb_spec x.1 z.1), (Z.ltb_spec z.1 x.1); simpl; rewrite ?Z.ltb_ge; try done; try lia; auto.
Qed.

(** ** The reference *)

Definition block_item (b : CBlockIndex) : Z * uint256 := (GetBlockTime b, phashBlock b).

(** The blocks from [p] back to the first one before a time. *)
Fixpoint window (h : heap) (start : Z) (n : nat) (p : option ptr) : list CBlockIndex :=
  match n with
  | O => []
  | Datatypes.S n =>
      match p ≫= λ p, h !! p with
      | Some b => if start <=? GetBlockTime b then b :: window h start n (pprev b) else []
      | None => []
      end
  end.

(** The first block with the least key. *)
Definition best_of (key : CBlockIndex → Z) (c : CBlockIndex) (l : list CBlockIndex) : CBlockIndex :=
  foldl (λ a x, if key x <? key a then x else a) c l.

Definition fresh (sel : list CBlockIndex) (c : CBlockIndex) : bool :=
  bool_decide (phashBlock c ∉ phashBlock <$> sel).

(** The block a round selects: the best of the first block not selected yet and the
    blocks not selected yet up to the end of the round's interval. *)
Definition next_block (key : CBlockIndex → Z) (stop : Z) (sel cs : list CBlockIndex) : option CBlockIndex :=
  match List.filter (fresh sel) cs with
  | [] => None
  | c :: l => Some (best_of key c (List.filter (λ b, GetBlockTime b <=? stop) l))
  end.

(** Where the interval of a round ends: no section is shorter than the one before. *)
Fixpoint round_stop (start : Z) (n : nat) : Z :=
  match n with
  | O => start
  | Datatypes.S n => round_stop start n + 3780 / (63 + (63 - Z.of_nat n) * 2)
  end.

Fixpoint selection (key : CBlockIndex → Z) (start : Z) (cs : list CBlockIndex) (n : nat) : list CBlockIndex :=
  match n with
  | O => []
  | Datatypes.S n =>
      let sel := selection key start cs n in
      sel ++ option_list (next_block key (round_stop start (Datatypes.S n)) sel cs)
  end.

(** The entropy bits of blocks, the first one lowest. *)
Definition entropy_bits (l : list CBlockIndex) : Z := foldr (λ b m, GetStakeEntropyBit b + 2 * m) 0 l.

(** Hashes identify entries, and the map finds them. *)
Definition index_ok (h : heap) (m : gmap uint256 ptr) : Prop :=
  ∀ p b, h !! p = Some b → m !! phashBlock b = Some p ∧ uwf W256 (phashBlock b).

Lemma GetStakeEntropyBit_bit b : GetStakeEntropyBit b = Z.b2z (Z.odd (GetLow64 (phashBlock b))).
Proof.
  unfold GetStakeEntropyBit. rewrite Z.land_comm. change 1 with (Z.ones 1). rewrite Z.land_comm, Z.land_ones by lia.
  change (2 ^ 1) with 2. rewrite Zmod_odd. by destruct (Z.odd _).
Qed.

Lemma entropy_bits_word l : word (Z.of_nat (length l)) (entropy_bits l).
Proof.
  induction l as [|b l IH]; [done|]. cbn [entropy_bits foldr length]. fold (entropy_bits l).
  rewrite Nat2Z.inj_succ. unfold word in *. rewrite Z.pow_succ_r, GetStakeEntropyBit_bit by lia.
  destruct (Z.odd _); simpl; lia.
Qed.

Lemma entropy_bits_snoc l c :
  entropy_bits (l ++ [c]) = entropy_bits l + GetStakeEntropyBit c * 2 ^ Z.of_nat (length l).
Proof.
  induction l as [|b l IH]; [simpl; lia|]. cbn [app entropy_bits foldr length]. fold (entropy_bits (l ++ [c])).
  fold (entropy_bits l). rewrite IH, Nat2Z.inj_succ, Z.pow_succ_r by lia. lia.
Qed.

Lemma entropy_bits_or l c :
  (length l < 64)%nat →
  entropy_bits l .| u64 (GetStakeEntropyBit c << Z.of_nat (length l)) = entropy_bits (l ++ [c]).
Proof.
  intros Hl. rewrite entropy_bits_snoc. pose proof (entropy_bits_word l) as Hw.
  assert (0 ≤ GetStakeEntropyBit c ≤ 1) as Hb by (rewrite GetStakeEntropyBit_bit; by destruct (Z.odd _)).
  rewrite u64_id.
  - rewrite Z.lor_comm, lor_shiftl_add by (done || lia). lia.
  - rewrite Z.shiftl_mul_pow2 by lia. unfold word.
    assert (2 ^ Z.of_nat (length l) ≤ 2 ^ 63) by (apply Z.pow_le_mono_r; lia). nia.
Qed.

Lemma best_of_min key c l :
  best_of key c l ∈ c :: l ∧ (∀ x, x ∈ c :: l → key (best_of key c l) ≤ key x).
Proof.
  unfold best_of. revert c. induction l as [|y l IH]; intros c; cbn [foldl].
  { split; [by left|]. intros x. rewrite list_elem_of_singleton. by intros ->. }
  destruct (IH (if key y <? key c then y else c)) as [Hin Hmin]. split.
  - destruct (key y <? key c); set_solver.
  - intros x Hx. destruct (Z.ltb_spec (key y) (key c)) as [Hlt|Hge].
    + pose proof (Hmin y ltac:(by left)). apply elem_of_cons in Hx as [->|Hx]; [lia|auto].
    + pose proof (Hmin c ltac:(by left)).
      apply elem_of_cons in Hx as [->|[->|Hx]%elem_of_cons]; [lia|lia|]. apply Hmin. by right.
Qed.

Lemma best_of_tie key c l : (∀ x, x ∈ l → key c ≤ key x) → best_of key c l = c.
Proof.
  unfold best_of. induction l as [|y l IH]; intros Hk; [done|]. cbn [foldl].
  destruct (Z.ltb_spec (key y) (key c)); [pose proof (Hk y ltac:(by left)); lia|]. apply IH. set_solver.
Qed.

(** ** The selection of a round *)

Section Selection.
Context {S : StdSort}.
Context (Hash : list Z → uint256) (Hash_wf : ∀ m, uwf W256 (Hash m)).
Context (h : heap) (mapBlockIndex : gmap uint256 ptr) (Hidx : index_ok h mapBlockIndex).

Definition selection_key (prev : Z) (b : CBlockIndex) : Z := uval (hashSelection_of Hash prev b).

Lemma hashSelection_wf prev b : uwf W256 (hashSelection_of Hash prev b).
Proof using Hash_wf.
  unfold hashSelection_of. destruct (IsProofOfStake b); [|apply Hash_wf]. apply shr_assign_spec; [lia|apply Hash_wf].
Qed.

Definition in_heap (b : CBlockIndex) : Prop := ∃ p, h !! p = Some b.

Definition takes (taken : gmap uint256 ptr) (sel : list CBlockIndex) : Prop :=
  ∀ k, is_Some (taken !! k) ↔ k ∈ phashBlock <$> sel.

Lemma takes_fresh taken sel c : takes taken sel → bool_decide (is_Some (taken !! phashBlock c)) = negb (fresh sel c).
Proof using Type.
  intros Ht. unfold fresh. rewrite <- bool_decide_not. apply bool_decide_ext. rewrite (Ht (phashBlock c)).
  destruct (decide (phashBlock c ∈ phashBlock <$> sel)); tauto.
Qed.

Local Abbreviation loop := (select_loop Hash h mapBlockIndex).
Local Abbreviation by_time := (λ x y : CBlockIndex, GetBlockTime x ≤ GetBlockTime y).

Lemma filter_late stop cs sel c :
  StronglySorted by_time (c :: cs) → stop < GetBlockTime c →
  List.filter (λ b, GetBlockTime b <=? stop) (List.filter (fresh sel) (c :: cs)) = [].
Proof using Type.
  intros [_ Hs]%StronglySorted_inv Hc.
  assert (Forall (λ b, stop < GetBlockTime b) (c :: cs)) as Hall.
  { constructor; [done|]. eapply Forall_impl; [exact Hs|]. simpl. lia. }
  clear Hs Hc. revert Hall. generalize (c :: cs). intros l. induction 1 as [|x l Hx _ IH]; [done|]. simpl.
  destruct (fresh sel x); simpl; [|done]. destruct (Z.leb_spec (GetBlockTime x) stop); [lia|done].
Qed.

Lemma select_loop_best taken sel stop prev c p cs :
  takes taken sel → Forall in_heap cs → StronglySorted by_time cs → h !! p = Some c →
  ∃ q, loop taken stop prev (Some (hashSelection_of Hash prev c, p)) (block_item <$> cs) = Some (Some q) ∧
    h !! q = Some (best_of (selection_key prev) c
      (List.filter (λ b, GetBlockTime b <=? stop) (List.filter (fresh sel) cs))).
Proof using Hash_wf Hidx.
  intros Ht Hcs Hs. revert c p. induction cs as [|x cs IH]; intros c p Hp; [by exists p|].
  pose proof Hs as Hs'. apply StronglySorted_inv in Hs as [Hs _]. apply Forall_cons in Hcs as [[px Hx] Hcs].
  cbn [fmap list_fmap select_loop block_item snd]. destruct (Hidx px x Hx) as [-> _]. rewrite Hx. cbn [mbind option_bind].
  rewrite bool_decide_eq_true_2 by done. cbn [andb].
  destruct (Z.ltb_spec stop (GetBlockTime x)) as [Hlate|Hin].
  { exists p. split; [done|]. by rewrite filter_late. }
  rewrite (takes_fresh taken sel) by done. cbn [List.filter]. destruct (fresh sel x); cbn [negb List.filter].
  2:{ apply IH; done. }
  destruct (Z.leb_spec (GetBlockTime x) stop); [|lia]. cbn [best_of foldl].
  rewrite op_lt_spec by apply hashSelection_wf. fold (selection_key prev x) (selection_key prev c).
  destruct (selection_key prev x <? selection_key prev c).
  - by apply IH.
  - by apply IH.
Qed.

Lemma SelectBlock_spec taken sel stop prev cs :
  takes taken sel → Forall in_heap cs → StronglySorted by_time cs →
  match next_block (selection_key prev) stop sel cs with
  | Some c => ∃ q, SelectBlockFromCandidates Hash h mapBlockIndex (block_item <$> cs) taken stop prev = Some (Some q) ∧
      h !! q = Some c
  | None => SelectBlockFromCandidates Hash h mapBlockIndex (block_item <$> cs) taken stop prev = Some None
  end.
Proof using Hash_wf Hidx.
  unfold SelectBlockFromCandidates, next_block. intros Ht Hcs Hs.
  induction cs as [|x cs IH]; [done|].
  apply StronglySorted_inv in Hs as [Hs _]. apply Forall_cons in Hcs as [[px Hx] Hcs].
  cbn [fmap list_fmap select_loop block_item snd]. destruct (Hidx px x Hx) as [-> _]. rewrite Hx. cbn [mbind option_bind].
  rewrite bool_decide_eq_false_2 by (by intros [? ?]). cbn [andb].
  rewrite (takes_fresh taken sel) by done. cbn [List.filter]. destruct (fresh sel x); cbn [negb].
  - by apply select_loop_best.
  - by apply IH.
Qed.

Lemma elem_of_List_filter {A} (f : A → bool) x l : x ∈ List.filter f l ↔ x ∈ l ∧ f x = true.
Proof using Type. by rewrite !list_elem_of_In, filter_In. Qed.

Lemma next_block_spec key stop sel cs c :
  next_block key stop sel cs = Some c →
  c ∈ cs ∧ (phashBlock c ∉ phashBlock <$> sel) ∧
  (∀ x, x ∈ cs → phashBlock x ∉ (phashBlock <$> sel) → GetBlockTime x ≤ stop → key c ≤ key x).
Proof using Type.
  unfold next_block. assert (∀ x, x ∈ List.filter (fresh sel) cs ↔ x ∈ cs ∧ phashBlock x ∉ (phashBlock <$> sel)) as Hf.
  { intros x. rewrite elem_of_List_filter. unfold fresh. by rewrite bool_decide_eq_true. }
  destruct (List.filter (fresh sel) cs) as [|c0 l]; [done|]. intros [= <-].
  destruct (best_of_min key c0 (List.filter (λ b, GetBlockTime b <=? stop) l)) as [Hin Hmin].
  assert (∀ x, x ∈ List.filter (λ b, GetBlockTime b <=? stop) l ↔ x ∈ l ∧ GetBlockTime x ≤ stop) as Hl.
  { intros x. by rewrite elem_of_List_filter, Z.leb_le. }
  assert (best_of key c0 (List.filter (λ b, GetBlockTime b <=? stop) l) ∈ c0 :: l) as Hb.
  { apply elem_of_cons in Hin as [->|Hin%Hl]; [by left|right; tauto]. }
  apply Hf in Hb as [??]. split_and!; [done..|]. intros x Hx Hn Ht. apply Hmin.
  assert (x ∈ c0 :: l) as [->|Hl']%elem_of_cons by by apply Hf.
  - by left.
  - right. by apply Hl.
Qed.

Lemma next_block_exists key stop sel cs :
  NoDup (phashBlock <$> cs) → (length sel < length cs)%nat → is_Some (next_block key stop sel cs).
Proof using Type.
  intros Hnd Hlen. unfold next_block. destruct (List.filter (fresh sel) cs) as [|c l] eqn:E; [|by eexists].
  exfalso. assert ((phashBlock <$> cs) ⊆+ (phashBlock <$> sel)) as Hsub%submseteq_length.
  { apply NoDup_submseteq; [done|]. intros k (c & -> & Hc)%list_elem_of_fmap.
    destruct (decide (phashBlock c ∈ phashBlock <$> sel)) as [|Hn']; [done|].
    assert (c ∈ List.filter (fresh sel) cs) as Hin.
    { apply elem_of_List_filter. split; [done|]. unfold fresh. by apply bool_decide_eq_true. }
    rewrite E in Hin. by apply elem_of_nil in Hin. }
  rewrite !length_fmap in Hsub. lia.
Qed.

(** After [n] rounds, [n] different candidates are selected. *)
Lemma selection_step key start cs n :
  NoDup (phashBlock <$> cs) → (n < length cs)%nat → length (selection key start cs n) = n →
  ∃ c, next_block key (round_stop start (Datatypes.S n)) (selection key start cs n) cs = Some c ∧
    selection key start cs (Datatypes.S n) = selection key start cs n ++ [c].
Proof using Type.
  intros Hnd Hn Hl. destruct (next_block_exists key (round_stop start (Datatypes.S n)) (selection key start cs n) cs Hnd)
    as [c Hc]; [lia|].
  exists c. split; [done|]. cbn [selection]. by rewrite Hc.
Qed.

Lemma selection_ok key start cs n :
  NoDup (phashBlock <$> cs) → (n ≤ length cs)%nat →
  length (selection key start cs n) = n ∧ NoDup (phashBlock <$> selection key start cs n) ∧
  selection key start cs n ⊆ cs.
Proof using Type.
  intros Hnd. induction n as [|n IH]; intros Hn; [split_and!; [done|constructor|by intros x ?%elem_of_nil]|].
  destruct IH as (Hl & Hd & Hsub); [lia|].
  destruct (selection_step key start cs n Hnd ltac:(lia) Hl) as (c & (Hin & Hf & _)%next_block_spec & ->).
  split_and!; [rewrite length_app, Hl; simpl; lia| |].
  2:{ intros x [Hx|Hx]%elem_of_app; [by apply Hsub|]. by apply list_elem_of_singleton in Hx as ->. }
  rewrite fmap_app. apply NoDup_app. split_and!; [done| |apply NoDup_singleton].
  change (phashBlock <$> [c]) with [phashBlock c]. intros k Hk. rewrite list_elem_of_singleton. by intros ->.
Qed.

Lemma section_spec n :
  (n < 64)%nat → GetStakeModifierSelectionIntervalSection (Z.of_nat n) = Some (3780 / (63 + (63 - Z.of_nat n) * 2)).
Proof using Type.
  intros Hn. unfold GetStakeModifierSelectionIntervalSection, MODIFIER_INTERVAL, MODIFIER_INTERVAL_RATIO.
  destruct (Z.leb_spec 0 (Z.of_nat n)), (Z.ltb_spec (Z.of_nat n) 64); try lia. cbn [andb].
  rewrite !u32_id by (unfold word; lia). do 2 f_equal; lia.
Qed.

Lemma rounds_spec start prev cs n :
  Forall in_heap cs → StronglySorted by_time cs → NoDup (phashBlock <$> cs) → (n ≤ length cs)%nat → (n ≤ 64)%nat →
  ∃ taken, takes taken (selection (selection_key prev) start cs n) ∧
    foldl (round Hash h mapBlockIndex (block_item <$> cs) prev) (Some (Some (start, 0, ∅))) (seq 0 n) =
    Some (Some (round_stop start n, entropy_bits (selection (selection_key prev) start cs n), taken)).
Proof using Hash_wf Hidx.
  intros Hcs Hs Hnd. induction n as [|n IH]; intros Hn Hn'.
  { exists ∅. split; [|done]. intros k. rewrite lookup_empty. simpl. split; [by intros []|by intros ?%elem_of_nil]. }
  destruct IH as (taken & Ht & E); [lia..|]. rewrite seq_S, foldl_snoc, E. cbn [round mbind option_bind Nat.add].
  set (sel := selection (selection_key prev) start cs n) in *.
  destruct (selection_ok (selection_key prev) start cs n Hnd ltac:(lia)) as (Hl & _). fold sel in Hl.
  destruct (selection_step (selection_key prev) start cs n Hnd ltac:(lia) Hl) as (c & Hc & ->). fold sel in Hc |- *.
  rewrite section_spec by lia. cbn [mbind option_bind].
  pose proof (SelectBlock_spec taken sel (round_stop start (Datatypes.S n)) prev cs Ht Hcs Hs) as Hsel.
  rewrite Hc in Hsel. destruct Hsel as (q & Hq & Hh). cbn [round_stop] in Hq. rewrite Hq. cbn [mbind option_bind].
  rewrite Hh. cbn [mbind option_bind]. rewrite <- (entropy_bits_or sel c), Hl by lia.
  apply next_block_spec in Hc as (_ & Hf & _).
  destruct (taken !! phashBlock c) as [r|] eqn:Er; [by destruct Hf; apply Ht|].
  eexists. split; [|done]. intros k. rewrite fmap_app. change (phashBlock <$> [c]) with [phashBlock c].
  rewrite elem_of_app, list_elem_of_singleton, <- (Ht k).
  destruct (decide (k = phashBlock c)) as [->|Hk].
  - rewrite lookup_insert_eq. split; [by right|by eexists].
  - rewrite lookup_insert_ne by done. tauto.
Qed.
End Selection.

(** ** Walking back from the parent *)

(** [g] is the nearest block from [p] back that generated a modifier. *)
Definition generated_before (h : heap) (p : ptr) (g : CBlockIndex) : Prop :=
  ∃ k q, walk h k p = Some q ∧ h !! q = Some g ∧ GeneratedStakeModifier g = true ∧
    ∀ j r c, (j < k)%nat → walk h j p = Some r → h !! r = Some c → GeneratedStakeModifier c = false.

(** Every block on top of a root generates a modifier. *)
Definition modifiers_ok (h : heap) : Prop :=
  ∀ p b, h !! p = Some b → nHeight b = 1 → GeneratedStakeModifier b = true.

Lemma last_generated_spec h p b fuel :
  tree_wf h → modifiers_ok h → h !! p = Some b → 1 ≤ nHeight b → nHeight b ≤ Z.of_nat fuel →
  ∃ g, last_generated h fuel p = Some g ∧ generated_before h p g.
Proof.
  intros Hwf Hm. revert p b. induction fuel as [|fuel IH]; intros p b Hp H1 Hf; [lia|].
  cbn [last_generated]. rewrite Hp. cbn [mbind option_bind].
  destruct (GeneratedStakeModifier b) eqn:Hg.
  { exists b. split; [done|]. exists 0%nat, p. split_and!; [done..|]. intros. lia. }
  destruct (Hwf p b Hp) as [_ He]. unfold entry_wf in He. destruct (pprev b) as [q|] eqn:Eq; [|lia].
  destruct He as (c & Hq & Hh & _).
  destruct (Z.eq_dec (nHeight b) 1) as [E1|]; [by rewrite (Hm p b) in Hg|].
  destruct (IH q c Hq) as (g & Hlg & k & r & Hw & Hr & Hgg & Hmin); [lia..|].
  exists g. split; [done|]. exists (Datatypes.S k), r. cbn [walk]. rewrite Hp. cbn [mbind option_bind]. rewrite Eq.
  split_and!; [done..|]. intros [|j] r' c' Hj.
  - cbn [walk]. intros [= <-]. rewrite Hp. by intros [= <-].
  - cbn [walk]. rewrite Hp. cbn [mbind option_bind]. rewrite Eq. apply Hmin. lia.
Qed.

Lemma collect_spec h start n p b :
  tree_wf h → h !! p = Some b → nHeight b < Z.of_nat n →
  collect h start n (Some p) = Some (block_item <$> window h start n (Some p)).
Proof.
  intros Hwf. revert p b. induction n as [|n IH]; intros p b Hp Hn; [destruct (Hwf p b Hp); lia|].
  cbn [collect window]. cbn [mbind option_bind]. rewrite Hp. cbn [mbind option_bind].
  destruct (start <=? GetBlockTime b); [|done].
  destruct (Hwf p b Hp) as [_ He]. unfold entry_wf in He. destruct (pprev b) as [q|] eqn:Eq.
  - destruct He as (c & Hq & Hh & _). rewrite (IH q c) by (done || lia). done.
  - destruct n; done.
Qed.

Lemma window_in_heap h start n p : Forall (in_heap h) (window h start n p).
Proof.
  revert p. induction n as [|n IH]; intros p; [constructor|]. cbn [window].
  destruct (p ≫= λ p, h !! p) as [b|] eqn:E; [|constructor]. destruct (_ <=? _); [|constructor].
  constructor; [|apply IH]. destruct p as [p|]; [by exists p|done].
Qed.

Lemma window_heights h start n p b :
  tree_wf h → h !! p = Some b → Forall (λ c, nHeight c ≤ nHeight b) (window h start n (Some p)).
Proof.
  intros Hwf. revert p b. induction n as [|n IH]; intros p b Hp; [constructor|]. cbn [window mbind option_bind].
  rewrite Hp. destruct (_ <=? _); [|constructor]. constructor; [done|].
  destruct (Hwf p b Hp) as [_ He]. unfold entry_wf in He. destruct (pprev b) as [q|]; [|by destruct n].
  destruct He as (c & Hq & Hh & _). eapply Forall_impl; [by apply IH|]. simpl. lia.
Qed.

Lemma index_inj h m c d : index_ok h m → in_heap h c → in_heap h d → phashBlock c = phashBlock d → c = d.
Proof.
  intros Hi [p Hp] [q Hq] E. destruct (Hi p c Hp) as [H1 _], (Hi q d Hq) as [H2 _]. rewrite E in H1. congruence.
Qed.

Lemma window_NoDup h m start n p b :
  tree_wf h → index_ok h m → h !! p = Some b → NoDup (phashBlock <$> window h start n (Some p)).
Proof.
  intros Hwf Hi. revert p b. induction n as [|n IH]; intros p b Hp; [constructor|].
  cbn [window mbind option_bind]. rewrite Hp.
  destruct (_ <=? _); [|constructor]. destruct (Hwf p b Hp) as [_ He]. unfold entry_wf in He.
  cbn [fmap list_fmap]. constructor.
  - intros (c & E & Hc)%list_elem_of_fmap. destruct (pprev b) as [q|]; [|destruct n; by apply elem_of_nil in Hc].
    destruct He as (d & Hq & Hh & _). pose proof (window_in_heap h start n (Some q)) as Hin.
    pose proof (window_heights h start n q d Hwf Hq) as Hle.
    rewrite Forall_forall in Hin, Hle. specialize (Hle c Hc).
    assert (b = c) as <- by (apply (index_inj h m); [done|by exists p|by apply Hin|done]). lia.
  - destruct (pprev b) as [q|]; [|destruct n; constructor]. destruct He as (d & Hq & _). by apply (IH q d).
Qed.

(** ** The modifier of a coin *)

(** The blocks of the active chain from a height on. *)
Definition blocks_from (h : heap) (c : CChain) (i : nat) : list CBlockIndex :=
  omap (λ o : option ptr, o ≫= λ p, h !! p) (drop i (vChain c)).

Lemma chain_slot h c i :
  tree_wf h → chain_ok h c → (i < length (vChain c))%nat →
  ∃ q d, vChain c !! i = Some (Some q) ∧ h !! q = Some d ∧ nHeight d = Z.of_nat i.
Proof.
  intros Hwf Hc Hi. unfold chain_ok in Hc. destruct (atomicTip c) as [t|]; [|rewrite Hc in Hi; simpl in Hi; lia].
  destruct Hc as [[b Hb] Hv]. rewrite Hv in *. rewrite (path_length h t b) in Hi by done.
  destruct (Hwf t b Hb) as [H0 _].
  destruct (ancestor_exists h t b (Z.of_nat i)) as (q & d & Ha & Hq & Hd); [done..|lia|].
  exists q, d. rewrite <- (Nat2Z.id i), (path_lookup h t b), Ha by (done || lia). by rewrite Nat2Z.id.
Qed.

Lemma at_height_nat c i : at_height c (Z.of_nat i) = default None (vChain c !! i).
Proof.
  unfold at_height. destruct (Z.ltb_spec (Z.of_nat i) 0); [lia|]. cbn [orb]. rewrite Nat2Z.id.
  destruct (Z.leb_spec (Z.of_nat (length (vChain c))) (Z.of_nat i)); [|done].
  by rewrite lookup_ge_None_2 by lia.
Qed.

Lemma modifier_loop_spec h c fuel stop t i :
  tree_wf h → chain_ok h c → (length (vChain c) ≤ fuel + i)%nat → t < stop →
  modifier_loop h c fuel stop t (at_height c (Z.of_nat i)) =
  Some (GetStakeModifierV1 <$> List.find (λ b, GeneratedStakeModifier b && (stop <=? GetBlockTime b)) (blocks_from h c i)).
Proof.
  intros Hwf Hc. revert t i. induction fuel as [|fuel IH]; intros t i Hf Ht; rewrite at_height_nat.
  { unfold blocks_from. rewrite drop_ge, lookup_ge_None_2 by lia. done. }
  destruct (decide (i < length (vChain c))%nat) as [Hi|Hi].
  2:{ unfold blocks_from. by rewrite drop_ge, lookup_ge_None_2 by lia. }
  destruct (chain_slot h c i Hwf Hc Hi) as (q & d & Hq & Hd & Hh). rewrite Hq. change (default None (Some (Some q))) with (Some q).
  cbn [modifier_loop]. rewrite Hd. cbn [mbind option_bind]. rewrite Hh.
  assert (blocks_from h c i = d :: blocks_from h c (Datatypes.S i)) as ->.
  { unfold blocks_from. rewrite (drop_S _ _ _ Hq). cbn [omap list_omap mbind option_bind]. by rewrite Hd. }
  replace (Z.of_nat i + 1) with (Z.of_nat (Datatypes.S i)) by lia. cbn [List.find].
  destruct (GeneratedStakeModifier d); cbn [andb].
  - destruct (Z.ltb_spec (GetBlockTime d) stop), (Z.leb_spec stop (GetBlockTime d)); try lia; [|done]. apply IH; lia.
  - destruct (Z.ltb_spec t stop); [|lia]. apply IH; lia.
Qed.

(** ** What the modifier is *)

Lemma sorted_by_time cs :
  StronglySorted (not_after candidate_lt) (block_item <$> cs) →
  StronglySorted (λ x y, GetBlockTime x ≤ GetBlockTime y) cs.
Proof.
  induction cs as [|c cs IH]; [constructor|]. cbn [fmap list_fmap]. intros [Hs Hc]%StronglySorted_inv.
  constructor; [by apply IH|]. rewrite Forall_fmap in Hc. eapply Forall_impl; [exact Hc|]. intros d. simpl.
  unfold not_after, candidate_lt. simpl. intros [? _]%orb_false_iff. by apply Z.ltb_ge.
Qed.

Lemma selection_prefix key start cs n i c :
  NoDup (phashBlock <$> cs) → (n ≤ length cs)%nat → selection key start cs n !! i = Some c →
  take i (selection key start cs n) = selection key start cs i ∧
  next_block key (round_stop start (Datatypes.S i)) (selection key start cs i) cs = Some c.
Proof.
  intros Hnd. induction n as [|n IH]; intros Hn; [done|].
  destruct (selection_ok key start cs n Hnd ltac:(lia)) as (Hl & _).
  destruct (selection_step key start cs n Hnd ltac:(lia) Hl) as (d & Hd & ->).
  intros [Hi|[Hle Hi]]%lookup_app_Some.
  - destruct (IH ltac:(lia) Hi) as [Ht Hc]. apply lookup_lt_Some in Hi as Hlt. by rewrite take_app_le by lia.
  - apply list_lookup_singleton_Some in Hi as [Hi ->]. assert (i = n) as -> by lia.
    by rewrite take_app_length' by done.
Qed.

Lemma filter_all {A} (f : A → bool) l : Forall (λ x, f x = true) l → List.filter f l = l.
Proof. induction 1 as [|x l Hx _ IH]; [done|]. simpl. by rewrite Hx, IH. Qed.

Lemma filter_none {A} (f : A → bool) l : Forall (λ x, f x = false) l → List.filter f l = [].
Proof. induction 1 as [|x l Hx _ IH]; [done|]. simpl. by rewrite Hx. Qed.

Lemma all_stake_selection key start cs n :
  NoDup (phashBlock <$> cs) → (n ≤ length cs)%nat → (∀ x y, x ∈ cs → y ∈ cs → key x = key y) →
  selection key start cs n = take n cs.
Proof.
  intros Hnd. induction n as [|n IH]; intros Hn Hk; [done|].
  destruct (lookup_lt_is_Some_2 cs n ltac:(lia)) as [c Hc].
  cbn [selection]. rewrite IH, (take_S_r _ _ _ Hc) by (done || lia). f_equal.
  assert (List.filter (fresh (take n cs)) cs = c :: drop (Datatypes.S n) cs) as E; [|unfold next_block; rewrite E].
  { rewrite <- (drop_S _ _ _ Hc). rewrite <- (take_drop n cs) at 2. rewrite List.filter_app.
    rewrite <- (take_drop n cs), fmap_app in Hnd. apply NoDup_app in Hnd as (_ & Hd & _).
    rewrite filter_none, filter_all; [done| |]; apply Forall_forall; intros x Hx; unfold fresh.
    - apply bool_decide_eq_true. intros Hin. by apply (Hd _ Hin), list_elem_of_fmap_2.
    - apply bool_decide_eq_false. intros Hn'. by apply Hn', list_elem_of_fmap_2. }
  simpl. f_equal. apply best_of_tie. intros x Hx. apply Z.eq_le_incl, Hk; [by eapply list_elem_of_lookup_2|].
  apply list_elem_of_In, filter_In in Hx as [Hx%list_elem_of_In _]. eapply subseteq_drop; exact Hx.
Qed.

Lemma find_app {A} (f : A → bool) l k :
  List.find f (l ++ k) = match List.find f l with Some x => Some x | None => List.find f k end.
Proof. induction l as [|x l IH]; [done|]. simpl. by destruct (f x). Qed.

Section Theorems.
Context (S : StdSort) (fTest : bool) (h : heap) (m : gmap uint256 ptr).
Context (Hwf : tree_wf h) (Hidx : index_ok h m) (Hgen : modifiers_ok h).

Local Abbreviation interval_start b :=
  (Z.quot (GetBlockTime b) MODIFIER_INTERVAL * MODIFIER_INTERVAL - GetOldModifierInterval fTest).

(** The candidates of the block after [p], in the order of the sort. *)
Lemma candidates_exist p b :
  h !! p = Some b →
  let start := interval_start b in
  ∃ cs, cs ≡ₚ window h start (Datatypes.S (Z.to_nat (nHeight b))) (Some p) ∧
    collect h start (Datatypes.S (Z.to_nat (nHeight b))) (Some p) =
      Some (block_item <$> window h start (Datatypes.S (Z.to_nat (nHeight b))) (Some p)) ∧
    std_sort candidate_lt (rev (block_item <$> window h start (Datatypes.S (Z.to_nat (nHeight b))) (Some p))) =
      block_item <$> cs ∧
    Forall (in_heap h) cs ∧ NoDup (phashBlock <$> cs) ∧
    StronglySorted (not_after candidate_lt) (block_item <$> cs).
Proof using Hwf Hidx.
  intros Hp start. destruct (Hwf p b Hp) as [H0 _]. set (n := Datatypes.S (Z.to_nat (nHeight b))).
  set (w := window h start n (Some p)). 
  assert (std_sort candidate_lt (rev (block_item <$> w)) ≡ₚ map block_item w) as (cs & E & Hcs)%Permutation_map_inv.
  { etrans; [apply std_sort_perm|]. symmetry. apply Permutation_rev. }
  exists cs. split_and!.
  - by symmetry.
  - apply (collect_spec h start n p b); [done..|]. subst n. lia.
  - exact E.
  - rewrite <- Hcs. apply window_in_heap.
  - rewrite <- Hcs. by apply (window_NoDup h m start n p b).
  - change (StronglySorted (not_after candidate_lt) (map block_item cs)). rewrite <- E.
    apply std_sort_sorted, candidate_lt_orders.
Qed.

Lemma compute_candidates Hash p b cs :
  (∀ x, uwf W256 (Hash x)) → h !! p = Some b → 1 ≤ nHeight b →
  let start := interval_start b in
  collect h start (Datatypes.S (Z.to_nat (nHeight b))) (Some p) =
    Some (block_item <$> window h start (Datatypes.S (Z.to_nat (nHeight b))) (Some p)) →
  std_sort candidate_lt (rev (block_item <$> window h start (Datatypes.S (Z.to_nat (nHeight b))) (Some p))) =
    block_item <$> cs →
  Forall (in_heap h) cs → NoDup (phashBlock <$> cs) →
  StronglySorted (not_after candidate_lt) (block_item <$> cs) →
  ∃ g, generated_before h p g ∧
  ComputeNextStakeModifier Hash fTest h m (Some p) =
    if Z.quot (GetBlockTime b) 60 <=? Z.quot (GetBlockTime g) 60 then Some (true, GetStakeModifierV1 g, false)
    else Some (true, entropy_bits (selection (selection_key Hash (GetStakeModifierV1 g)) start cs
                                     (Nat.min 64 (length cs))), true).
Proof using Hwf Hidx Hgen.
  intros HH Hp H1 start Hc Hsort Hin Hnd Hs.
  destruct (last_generated_spec h p b (Z.to_nat (nHeight b))) as (g & Hg & Hgb); [done..|lia|].
  exists g. split; [done|]. unfold ComputeNextStakeModifier. rewrite Hp. cbn [mbind option_bind].
  destruct (Z.eqb_spec (nHeight b) 0); [lia|]. rewrite Hg. cbn [mbind option_bind].
  assert (GeneratedStakeModifier g = true) as -> by (by destruct Hgb as (? & ? & ? & ? & ? & ?)).
  cbn [negb]. change MODIFIER_INTERVAL with 60 in *. destruct (_ <=? _); [done|].
  fold start. rewrite Hc. cbn [mbind option_bind]. rewrite Hsort, length_fmap.
  destruct (rounds_spec Hash HH h m Hidx start (GetStakeModifierV1 g) cs (Nat.min 64 (length cs)))
    as (taken & _ & ->); [done|by apply sorted_by_time|done|lia..|]. done.
Qed.

(** [ComputeNextStakeModifier] always succeeds.  Within the minute of the last modifier
    it hands that modifier on; otherwise it takes the blocks since the start of the
    selection interval, in the order of time and hash, selects up to 64 different ones,
    each with the least selection hash among the blocks not selected before up to the
    end of its round, and makes their entropy bits the bits of the modifier. *)
Theorem stake_modifier_selects Hash p b :
  (∀ x, uwf W256 (Hash x)) → h !! p = Some b → 1 ≤ nHeight b →
  let start := interval_start b in
  ∃ g cs, generated_before h p g ∧
  cs ≡ₚ window h start (Datatypes.S (Z.to_nat (nHeight b))) (Some p) ∧
  StronglySorted (not_after candidate_lt) (block_item <$> cs) ∧
  let key := selection_key Hash (GetStakeModifierV1 g) in
  let sel := selection key start cs (Nat.min 64 (length cs)) in
  ComputeNextStakeModifier Hash fTest h m (Some p) =
    (if Z.quot (GetBlockTime b) 60 <=? Z.quot (GetBlockTime g) 60 then Some (true, GetStakeModifierV1 g, false)
     else Some (true, entropy_bits sel, true)) ∧
  length sel = Nat.min 64 (length cs) ∧ NoDup (phashBlock <$> sel) ∧ sel ⊆ cs ∧
  (∀ i c x, sel !! i = Some c → x ∈ cs → phashBlock x ∉ (phashBlock <$> take i sel) →
     GetBlockTime x ≤ round_stop start (Datatypes.S i) → key c ≤ key x).
Proof using Hwf Hidx Hgen.
  intros HH Hp H1 start. destruct (candidates_exist p b Hp) as (cs & Hcs & Hc & Hsort & Hin & Hnd & Hs).
  destruct (compute_candidates Hash p b cs HH Hp H1 Hc Hsort Hin Hnd Hs) as (g & Hg & E).
  exists g, cs. split_and!; [done..|]. intros key sel.
  destruct (selection_ok key start cs (Nat.min 64 (length cs)) Hnd) as (Hl & Hd & Hsub); [lia|].
  split_and!; [done..|]. intros i c x Hi Hx Hf Ht.
  destruct (selection_prefix key start cs (Nat.min 64 (length cs)) i c Hnd) as [Htk Hn]; [lia|done|].
  unfold sel in Hf. rewrite Htk in Hf. by apply next_block_spec in Hn as (_ & _ & Hmin); apply Hmin.
Qed.

(** C19: Once blocks are proofs of stake, a new modifier does not depend on any hash: the
    selection hash of such a block does not contain the block, so all tie, the
    earliest wins, and the modifier is the entropy bits of the first 64 blocks of the
    interval, whatever the hash function and the previous modifier. *)
Theorem stake_modifier_ignores_hash p b :
  h !! p = Some b → 1 ≤ nHeight b →
  let start := interval_start b in
  Forall (λ c, IsProofOfStake c = true) (window h start (Datatypes.S (Z.to_nat (nHeight b))) (Some p)) →
  ∃ cs, cs ≡ₚ window h start (Datatypes.S (Z.to_nat (nHeight b))) (Some p) ∧
  StronglySorted (not_after candidate_lt) (block_item <$> cs) ∧
  ∀ Hash v, (∀ x, uwf W256 (Hash x)) →
    ComputeNextStakeModifier Hash fTest h m (Some p) = Some (true, v, true) → v = entropy_bits (take 64 cs).
Proof using Hwf Hidx Hgen.
  intros Hp H1 start Hpos. destruct (candidates_exist p b Hp) as (cs & Hcs & Hc & Hsort & Hin & Hnd & Hs).
  exists cs. split_and!; [done..|]. intros Hash v HH.
  destruct (compute_candidates Hash p b cs HH Hp H1 Hc Hsort Hin Hnd Hs) as (g & _ & ->).
  destruct (_ <=? _); [done|]. generalize (Nat.le_min_r 64 (length cs)). fold start in Hcs. rewrite <- Hcs in Hpos.
  remember (Nat.min 64 (length cs)) as n eqn:En. intros Hn [= <-].
  rewrite all_stake_selection; [|done|done|].
  - rewrite En. destruct (Nat.min_spec 64 (length cs)) as [[_ ->]|[? ->]]; [done|]. by rewrite !take_ge by lia.
  - rewrite Forall_forall in Hpos. intros x y Hx Hy. unfold selection_key, hashSelection_of. by rewrite !Hpos.
Qed.

(** The modifier a coin stakes with is that of the first block of the active chain
    above the coin's which generated one at least the interval later; once there is
    such a block, a longer chain gives the same. *)
Theorem GetOldModifier_settles c p b :
  chain_ok h c → h !! p = Some b →
  let later x := GeneratedStakeModifier x && (GetBlockTime b + GetOldModifierInterval fTest <=? GetBlockTime x) in
  GetOldModifier fTest h c p =
    Some (GetStakeModifierV1 <$> List.find later (blocks_from h c (Z.to_nat (nHeight b + 1)))) ∧
  (∀ c' v, chain_ok h c' → vChain c `prefix_of` vChain c' →
     GetOldModifier fTest h c p = Some (Some v) → GetOldModifier fTest h c' p = Some (Some v)).
Proof using Hwf.
  intros Hc Hp later. destruct (Hwf p b Hp) as [H0 _].
  assert (∀ c, chain_ok h c → GetOldModifier fTest h c p =
    Some (GetStakeModifierV1 <$> List.find later (blocks_from h c (Z.to_nat (nHeight b + 1))))) as E.
  { intros c1 Hc1. unfold GetOldModifier. rewrite Hp. cbn [mbind option_bind].
    rewrite <- (Z2Nat.id (nHeight b + 1)) at 1 by lia. apply modifier_loop_spec; [done..|lia|].
    unfold GetOldModifierInterval. destruct fTest; lia. }
  split; [by apply E|]. intros c' v Hc' [k Hk]. rewrite !E by done. intros [= Hv]. do 2 f_equal.
  unfold blocks_from in *. rewrite Hk. rewrite drop_app, omap_app, find_app. by destruct (List.find _ _).
Qed.
End Theorems.

(** The entry of a block on top of a root gets a modifier of its own, which is what
    [modifiers_ok] asks of the index. *)
Lemma first_block_generates {S : StdSort} Hash fTest h m q c b :
  h !! q = Some c → nHeight c = 0 → pprev b = Some q →
  ∃ b', SetNewStakeModifier Hash fTest h m b = Some b' ∧ GeneratedStakeModifier b' = true ∧
    GetStakeModifierV1 b' = 0x0e78f1f28b0e0000.
Proof.
  intros Hq Hc Hb. unfold SetNewStakeModifier, ComputeNextStakeModifier. rewrite Hb, Hq. cbn [mbind option_bind].
  rewrite Hc. cbn [Z.eqb]. eexists. split; [done|]. unfold SetStakeEntropyBit, SetStakeModifier. cbn [fst snd].
  assert (∀ z, negb ((z .| BLOCK_STAKE_MODIFIER) .& BLOCK_STAKE_MODIFIER =? 0) = true) as Hf.
  { intros z. apply negb_true_iff, Z.eqb_neq. intros E. apply (f_equal (λ x, Z.testbit x 2)) in E.
    rewrite Z.land_spec, Z.lor_spec, orb_true_r in E. done. }
  destruct b. unfold GeneratedStakeModifier. destruct (1 <? _); cbn -[Z.land Z.lor le_enc le_dec]; by rewrite Hf.
Qed.

(** ** Instances *)

Definition demo_stake (i : Z) (prev skip : option ptr) (flags time : Z) : CBlockIndex :=
  MkIndex (i :: replicate 7 0) prev skip (i - 1) 0 0 0 [] 1 0 0 (le_enc 8 i) flags 3 [] time 0 0 0.

(** A root and three stakes on top of it; the first and the last generated a modifier. *)
Definition demo_stakes : heap :=
  <[1%positive := demo_stake 1 None None 1 900]>
  (<[2%positive := demo_stake 2 (Some 1%positive) (Some 1%positive) 5 1000]>
  (<[3%positive := demo_stake 3 (Some 2%positive) (Some 1%positive) 1 3000]>
  (<[4%positive := demo_stake 4 (Some 3%positive) (Some 2%positive) 5 3100]> ∅))).

Definition demo_index : gmap uint256 ptr :=
  <[1 :: replicate 7 0 := 1%positive]> (<[2 :: replicate 7 0 := 2%positive]>
  (<[3 :: replicate 7 0 := 3%positive]> (<[4 :: replicate 7 0 := 4%positive]> ∅))).

Definition demo_tip : CChain := MkChain [Some 1%positive; Some 2%positive; Some 3%positive; Some 4%positive] (Some 4%positive).

Lemma demo_stakes_cases p b :
  demo_stakes !! p = Some b →
  (p, b) ∈ [(1%positive, demo_stake 1 None None 1 900);
            (2%positive, demo_stake 2 (Some 1%positive) (Some 1%positive) 5 1000);
            (3%positive, demo_stake 3 (Some 2%positive) (Some 1%positive) 1 3000);
            (4%positive, demo_stake 4 (Some 3%positive) (Some 2%positive) 5 3100)].
Proof.
  unfold demo_stakes. rewrite !lookup_insert_Some, !elem_of_cons.
  intros [[<- <-]|[_ [[<- <-]|[_ [[<- <-]|[_ [[<- <-]|[_ []%lookup_empty_Some]]]]]]]]; auto 6.
Qed.

Ltac demo_cases := intros ?p ?b ?Hp%demo_stakes_cases; rewrite !elem_of_cons, elem_of_nil in *;
  repeat match goal with H : _ ∨ _ |- _ => destruct H as [H|H] | H : _ = _ |- _ => injection H as -> -> end; [..|done].

Lemma demo_stakes_wf : tree_wf demo_stakes.
Proof. demo_cases; (split; [simpl; lia|]); [done|eexists; by split_and!..]. Qed.

Lemma demo_index_ok : index_ok demo_stakes demo_index.
Proof.
  demo_cases; (split; [done|]); (split; [done|]); repeat (constructor; [unfold word; lia|]); constructor.
Qed.

Lemma demo_modifiers_ok : modifiers_ok demo_stakes.
Proof. demo_cases; done. Qed.

Definition demo_uint256 (_ : list Z) : uint256 := replicate 8 7.

Lemma demo_uint256_wf x : uwf W256 (demo_uint256 x).
Proof. split; [done|]. repeat (constructor; [unfold word; lia|]). constructor. Qed.

Lemma stake_modifier_ignores_hash_witness :
  ∃ cs, cs ≡ₚ window demo_stakes 913 3 (Some 3%positive) ∧ entropy_bits (take 64 cs) = 2.
Proof.
  destruct (stake_modifier_ignores_hash merge_std_sort false demo_stakes demo_index demo_stakes_wf demo_index_ok
    demo_modifiers_ok 3%positive (demo_stake 3 (Some 2%positive) (Some 1%positive) 1 3000))
    as (cs & Hcs & _ & Hv); [done|simpl; lia|by repeat constructor|].
  exists cs. split; [exact Hcs|]. symmetry. apply (Hv demo_uint256 2); [apply demo_uint256_wf|by vm_compute].
Defined.

Lemma GetOldModifier_settles_witness :
  GetOldModifier false demo_stakes demo_tip 1%positive = Some (Some 4).
Proof.
  rewrite (proj1 (GetOldModifier_settles false demo_stakes demo_stakes_wf demo_tip 1%positive
    (demo_stake 1 None None 1 900) ltac:(by split; [eexists|vm_compute]) eq_refl)).
  by vm_compute.
Defined.
