(* ===== verification/ChainSelect.v ===== *)
(** * Choosing the best chain

    The block tree of [src/src/main.cpp]: the set of candidate tips in the order of
    [CBlockIndexWorkComparator] and the search for the most-work chain that is not known
    to be bad ([FindMostWorkChain], [PruneBlockIndexCandidates]).  The state is the heap
    of [BlockIndex] with the active chain of [Chain] and the globals of [main.cpp];
    [ActivateChain] moves the active chain, [BlockTree] adds and marks blocks.

    The theorem: the search ends with the greatest candidate from which only good blocks
    lead back to the active chain. *)

From stdpp Require Import gmap fin_maps.
From S2P Require Import Prelude Ints ArithUint256 Uint256 BlockIndex Params Pow Chain Sorting StakeModifier.

Local Open Scope Z_scope.

(** [mapBlocksUnlinked] is the list of its pairs; the order of equal keys is that of
    insertion, as in a [std::multimap]. *)
Record Tree := MkTree {
  index : heap;
  mapBlockIndex : gmap uint256 ptr;
  setBlockIndexCandidates : gset ptr;
  mapBlocksUnlinked : list (ptr * ptr);
  chainActive : CChain;
  pindexBestInvalid : option ptr;
  pindexBestHeader : option ptr;
  nBlockSequenceId : Z
}.

Abbreviation candidates := setBlockIndexCandidates.

Definition with_index (h : heap) (s : Tree) : Tree :=
  MkTree h (mapBlockIndex s) (candidates s) (mapBlocksUnlinked s) (chainActive s) (pindexBestInvalid s)
    (pindexBestHeader s) (nBlockSequenceId s).
Definition with_candidates (c : gset ptr) (s : Tree) : Tree :=
  MkTree (index s) (mapBlockIndex s) c (mapBlocksUnlinked s) (chainActive s) (pindexBestInvalid s)
    (pindexBestHeader s) (nBlockSequenceId s).
Definition with_unlinked (u : list (ptr * ptr)) (s : Tree) : Tree :=
  MkTree (index s) (mapBlockIndex s) (candidates s) u (chainActive s) (pindexBestInvalid s)
    (pindexBestHeader s) (nBlockSequenceId s).
Definition with_chain (c : CChain) (s : Tree) : Tree :=
  MkTree (index s) (mapBlockIndex s) (candidates s) (mapBlocksUnlinked s) c (pindexBestInvalid s)
    (pindexBestHeader s) (nBlockSequenceId s).
Definition with_bestInvalid (p : option ptr) (s : Tree) : Tree :=
  MkTree (index s) (mapBlockIndex s) (candidates s) (mapBlocksUnlinked s) (chainActive s) p
    (pindexBestHeader s) (nBlockSequenceId s).
Definition with_bestHeader (p : option ptr) (s : Tree) : Tree :=
  MkTree (index s) (mapBlockIndex s) (candidates s) (mapBlocksUnlinked s) (chainActive s) (pindexBestInvalid s)
    p (nBlockSequenceId s).

Definition set_nUndoPos (v : Z) (b : CBlockIndex) : CBlockIndex :=
  MkIndex (phashBlock b) (pprev b) (pskip b) (nHeight b) (nFile b) (nDataPos b) v (nChainWork b) (nTx b) (nChainTx b)
    (nStatus b) (vStakeModifier b) (nFlags b) (nVersion b) (hashMerkleRoot b) (nTime b) (nBits b) (nNonce b) (nSequenceId b).

(** ** The order of tips *)

(** [CBlockIndexWorkComparator] on entries; pointers are compared last. *)
Definition work_lt (a b : ptr * CBlockIndex) : bool :=
  if op_gt W256 (nChainWork a.2) (nChainWork b.2) then false
  else if op_lt W256 (nChainWork a.2) (nChainWork b.2) then true
  else
    let by_pointer := (b.1 <? a.1)%positive in
    if negb (op_eq W256 (phashBlock a.2) (phashBlock b.2)) then
      if op_lt W256 (phashBlock a.2) (phashBlock b.2) then false
      else if op_gt W256 (phashBlock a.2) (phashBlock b.2) then true
      else by_pointer
    else by_pointer.

(** The comparison of two pointers; a dangling one is [false]. *)
Definition worse (h : heap) (p q : ptr) : bool :=
  match h !! p, h !! q with
  | Some a, Some b => work_lt (p, a) (q, b)
  | _, _ => false
  end.

(** [*setBlockIndexCandidates.rbegin()]. *)
Definition last_candidate (h : heap) (s : gset ptr) : option ptr :=
  foldl (λ best p, match best with
                   | None => Some p
                   | Some q => if worse h q p then Some p else best
                   end) None (elements s).

(** ** The most-work chain *)

Definition failed (b : CBlockIndex) : bool := negb (nStatus b .& BLOCK_FAILED_MASK =? 0).
Definition missing (b : CBlockIndex) : bool := nStatus b .& BLOCK_HAVE_DATA =? 0.

(** The inner loop: walk from the candidate to the active chain.  [inl] is a block that
    is failed or has no data, [inr] that there is none; [None] is the failed assertion. *)
Fixpoint test_path (h : heap) (c : CChain) (fuel : nat) (pindexTest : option ptr) : option (ptr + unit) :=
  match pindexTest with
  | None => Some (inr ())
  | Some p =>
      if Contains h c p then Some (inr ())
      else
        match fuel with
        | O => None
        | S fuel =>
            b ← h !! p;
            if (nChainTx b =? 0) && negb (nHeight b =? 0) then None
            else if failed b || missing b then Some (inl p)
            else test_path h c fuel (pprev b)
        end
  end.

(** The loop that removes the chain from the candidate down to the bad block. *)
Fixpoint remove_chain (fuel : nat) (fFailedChain : bool) (pindexTest pindexFailed : ptr) (s : Tree) : option Tree :=
  if decide (pindexTest = pindexFailed) then Some s
  else
    match fuel with
    | O => None
    | S fuel =>
        b ← index s !! pindexFailed;
        q ← pprev b;
        let s := if fFailedChain
                 then with_index (<[pindexFailed := set_nStatus (nStatus b .| BLOCK_FAILED_CHILD) b]> (index s)) s
                 else with_unlinked (mapBlocksUnlinked s ++ [(q, pindexFailed)]) s in
        remove_chain fuel fFailedChain pindexTest q (with_candidates (candidates s ∖ {[pindexFailed]}) s)
    end.

Fixpoint FindMostWorkChain_loop (fuel : nat) (s : Tree) : option (option ptr * Tree) :=
  match last_candidate (index s) (candidates s) with
  | None => Some (None, s)
  | Some pindexNew =>
      match fuel with
      | O => None
      | S fuel =>
          b ← index s !! pindexNew;
          r ← test_path (index s) (chainActive s) (S (Z.to_nat (nHeight b))) (Some pindexNew);
          match r with
          | inr () => Some (Some pindexNew, s)
          | inl pindexTest =>
              bt ← index s !! pindexTest;
              let s := if failed bt && match pindexBestInvalid s ≫= λ p, index s !! p with
                                       | None => true
                                       | Some i => op_gt W256 (nChainWork b) (nChainWork i)
                                       end
                       then with_bestInvalid (Some pindexNew) s else s in
              s ← remove_chain (S (Z.to_nat (nHeight b))) (failed bt) pindexTest pindexNew s;
              FindMostWorkChain_loop fuel (with_candidates (candidates s ∖ {[pindexTest]}) s)
          end
      end
  end.

(** Every turn removes a candidate, so there are no more turns than candidates. *)
Definition FindMostWorkChain (s : Tree) : option (option ptr * Tree) :=
  FindMostWorkChain_loop (size (candidates s)) s.

(** [None] is the failed assertion that a candidate is left. *)
Definition PruneBlockIndexCandidates (s : Tree) : option Tree :=
  match Tip (chainActive s) with
  | None => None
  | Some tip =>
      let kept := filter (λ p, worse (index s) p tip = false) (candidates s) in
      if decide (kept = ∅) then None else Some (with_candidates kept s)
  end.

(** ** The comparison is a total order *)

Definition keys_wf (h : heap) : Prop :=
  ∀ p b, h !! p = Some b → uwf W256 (nChainWork b) ∧ uwf W256 (phashBlock b).

(** More work is better, then the lower hash, then the lower address. *)
Definition rank_lt (p : ptr) (a : CBlockIndex) (q : ptr) (b : CBlockIndex) : Prop :=
  uval (nChainWork a) < uval (nChainWork b) ∨
  uval (nChainWork a) = uval (nChainWork b) ∧
    (uval (phashBlock b) < uval (phashBlock a) ∨
     uval (phashBlock b) = uval (phashBlock a) ∧ (q < p)%positive).

Section Order.
Context (h : heap) (Hk : keys_wf h).

Lemma worse_spec p q a b : h !! p = Some a → h !! q = Some b → worse h p q = true ↔ rank_lt p a q b.
Proof using Hk.
  intros Ha Hb. unfold worse, work_lt, rank_lt. rewrite Ha, Hb. cbn [fst snd].
  destruct (Hk p a Ha), (Hk q b Hb). rewrite !op_gt_spec, !op_lt_spec, op_eq_spec by done.
  destruct (Z.ltb_spec (uval (nChainWork b)) (uval (nChainWork a))), (Z.ltb_spec (uval (nChainWork a)) (uval (nChainWork b))),
    (Z.eqb_spec (uval (phashBlock a)) (uval (phashBlock b))),
    (Z.ltb_spec (uval (phashBlock a)) (uval (phashBlock b))), (Z.ltb_spec (uval (phashBlock b)) (uval (phashBlock a)));
    cbn [negb]; rewrite ?Pos.ltb_lt; split; intros; (lia || congruence || done).
Qed.

Lemma worse_irrefl p : worse h p p = false.
Proof using Hk.
  destruct (h !! p) as [a|] eqn:Ha; [|unfold worse; by rewrite Ha]. apply not_true_iff_false.
  rewrite (worse_spec p p a a) by done. unfold rank_lt. lia.
Qed.

Lemma worse_some p q : worse h p q = true → ∃ a b, h !! p = Some a ∧ h !! q = Some b.
Proof using Type. unfold worse. destruct (h !! p), (h !! q); try done. by eexists _, _. Qed.

Lemma worse_trans p q r : worse h p q = true → worse h q r = true → worse h p r = true.
Proof using Hk.
  intros H1 H2. destruct (worse_some p q H1) as (a & b & Ha & Hb). destruct (worse_some q r H2) as (b' & c & Hb' & Hc).
  rewrite Hb in Hb'. injection Hb' as <-. rewrite (worse_spec p q a b) in H1 by done. rewrite (worse_spec q r b c) in H2 by done.
  rewrite (worse_spec p r a c) by done. unfold rank_lt in *. lia.
Qed.

Lemma worse_total p q : is_Some (h !! p) → is_Some (h !! q) → p ≠ q → worse h p q = false → worse h q p = true.
Proof using Hk.
  intros [a Ha] [b Hb] Hne. rewrite (worse_spec q p b a) by done. intros Hf%not_true_iff_false.
  rewrite (worse_spec p q a b) in Hf by done. unfold rank_lt in *. lia.
Qed.

(** The last element of the set is better than every other. *)
Lemma last_candidate_spec s :
  (∀ p, p ∈ s → is_Some (h !! p)) →
  match last_candidate h s with
  | None => s = ∅
  | Some p => p ∈ s ∧ ∀ q, q ∈ s → q ≠ p → worse h q p = true
  end.
Proof using Hk.
  intros Hs. unfold last_candidate.
  assert (∀ l best, (∀ p, p ∈ l → is_Some (h !! p)) → (∀ p, best = Some p → is_Some (h !! p)) →
    match foldl (λ best p, match best with None => Some p | Some q => if worse h q p then Some p else best end) best l with
    | None => best = None ∧ l = []
    | Some p => (p ∈ l ∨ best = Some p) ∧ ∀ q, q ∈ l ∨ best = Some q → q ≠ p → worse h q p = true
    end) as Hfold.
  { induction l as [|x l IH]; intros best Hl Hb; cbn [foldl].
    { destruct best as [p|]; [|done]. split; [by right|]. intros q [Hq%elem_of_nil|[= ->]]; done. }
    set (best' := match best with None => Some x | Some q => if worse h q x then Some x else best end).
    assert (∃ y, best' = Some y ∧ (y = x ∨ best = Some y) ∧ (∀ q, best = Some q → q ≠ y → worse h q y = true) ∧
      (x ≠ y → worse h x y = true)) as (y & Ey & Hy & Hq & Hx).
    { unfold best'. destruct best as [q|]; [|by exists x; split_and!; [done|left|done|]].
      destruct (worse h q x) eqn:E.
      - exists x. split_and!; [done|by left| |done]. by intros q' [= <-] _.
      - exists q. split_and!; [done|by right| |].
        + by intros q' [= <-].
        + intros Hne. apply worse_total; [by apply Hb|apply Hl; by left|done|done]. }
    specialize (IH best'). rewrite Ey in IH |- *.
    assert (is_Some (h !! y)) as Hys by (destruct Hy as [->|Hy]; [apply Hl; by left|by apply Hb]).
    specialize (IH ltac:(intros; apply Hl; by right) ltac:(by intros p [= <-])).
    destruct (foldl _ _ l) as [p|]; [|by destruct IH]. destruct IH as [Hp Hmax]. split.
    - destruct Hp as [Hp|[= <-]]; [left; by right|]. destruct Hy as [->|Hy]; [left; by left|by right].
    - intros q Hin Hne. assert (q = y ∨ q ∈ l ∨ worse h q y = true) as [->|[Hin'|Hw]].
      { destruct (decide (q = y)) as [|Hny]; [by left|]. destruct Hin as [[->|Hin]%elem_of_cons|Hin]; [right; right; by apply Hx|by right; left|].
        right; right. by apply Hq. }
      + apply Hmax; [by right|done].
      + apply Hmax; [by left|done].
      + destruct (decide (y = p)) as [->|Hyp]; [done|]. eapply worse_trans; [exact Hw|]. apply Hmax; [by right|done]. }
  specialize (Hfold (elements s) None ltac:(intros p Hp%elem_of_elements; by apply Hs) ltac:(done)).
  destruct (foldl _ _ _) as [p|].
  - destruct Hfold as [[Hp|?] Hmax]; [|done]. apply elem_of_elements in Hp. split; [done|]. intros q Hq Hne. apply Hmax; [|done].
    left. by apply elem_of_elements.
  - destruct Hfold as [_ E]. by apply elements_empty_inv, leibniz_equiv in E.
Qed.
End Order.

(** ** The branch of a candidate *)

(** The blocks from [p] back to the active chain. *)
Fixpoint off_chain (h : heap) (c : CChain) (fuel : nat) (p : option ptr) : list ptr :=
  match p, fuel with
  | None, _ | _, O => []
  | Some p, S fuel =>
      if Contains h c p then []
      else match h !! p with
           | None => []
           | Some b => p :: off_chain h c fuel (pprev b)
           end
  end.

Definition branch (h : heap) (c : CChain) (p : ptr) : list ptr :=
  match h !! p with
  | None => []
  | Some b => off_chain h c (S (Z.to_nat (nHeight b))) (Some p)
  end.

Definition good (h : heap) (p : ptr) : Prop := ∀ b, h !! p = Some b → failed b = false ∧ missing b = false.

#[export] Instance good_dec h p : Decision (good h p).
Proof.
  destruct (h !! p) as [b|] eqn:E.
  - destruct (decide (failed b = false ∧ missing b = false)) as [H|H]; [left|right]; unfold good; rewrite E.
    + by intros ? [= <-].
    + intros Hg. by apply H, Hg.
  - left. unfold good. by rewrite E.
Defined.

(** Every block of the branch has its data and none is known to be invalid. *)
Definition usable (h : heap) (c : CChain) (p : ptr) : Prop := Forall (good h) (branch h c p).

(** Blocks with transactions up to the root have parents with transactions. *)
Definition linked (h : heap) : Prop :=
  ∀ p b q, h !! p = Some b → nChainTx b ≠ 0 → pprev b = Some q → ∃ c, h !! q = Some c ∧ nChainTx c ≠ 0.

Lemma off_chain_fuel h c f1 f2 p b :
  tree_wf h → h !! p = Some b → nHeight b < Z.of_nat f1 → nHeight b < Z.of_nat f2 →
  off_chain h c f1 (Some p) = off_chain h c f2 (Some p).
Proof.
  intros Hwf. revert f2 p b. induction f1 as [|f1 IH]; intros f2 p b Hp H1 H2; destruct (Hwf p b Hp) as [H0 He]; [lia|].
  destruct f2 as [|f2]; [lia|]. cbn [off_chain]. rewrite Hp. destruct (Contains h c p); [done|]. f_equal.
  unfold entry_wf in He. destruct (pprev b) as [q|]; [|by destruct f1, f2]. destruct He as (d & Hq & Hh & _).
  apply (IH f2 q d); [done|lia..].
Qed.

Lemma off_chain_S h c fuel p :
  off_chain h c (S fuel) (Some p) =
  if Contains h c p then [] else match h !! p with None => [] | Some b => p :: off_chain h c fuel (pprev b) end.
Proof. done. Qed.

Lemma branch_cons h c p b :
  tree_wf h → h !! p = Some b →
  branch h c p = if Contains h c p then [] else p :: match pprev b with Some q => branch h c q | None => [] end.
Proof.
  intros Hwf Hp. unfold branch. rewrite Hp, off_chain_S, Hp. destruct (Contains h c p); [done|]. f_equal.
  destruct (Hwf p b Hp) as [H0 He]. unfold entry_wf in He. destruct (pprev b) as [q|]; [|by destruct (Z.to_nat _)].
  destruct He as (d & Hq & Hh & _). rewrite Hq. destruct (Hwf q d Hq). apply (off_chain_fuel h c _ _ q d); [done..|lia|lia].
Qed.

(** The inner loop finds the first bad block of the branch. *)
Lemma test_path_spec h c fuel p b :
  tree_wf h → linked h → h !! p = Some b → nChainTx b ≠ 0 → nHeight b < Z.of_nat fuel →
  (test_path h c fuel (Some p) = Some (inr ()) ∧ usable h c p) ∨
  ∃ l1 q l2, test_path h c fuel (Some p) = Some (inl q) ∧ branch h c p = l1 ++ q :: l2 ∧ Forall (good h) l1 ∧ ¬ good h q.
Proof.
  intros Hwf Hlk. revert p b. induction fuel as [|fuel IH]; intros p b Hp Htx Hf; destruct (Hwf p b Hp) as [H0 He]; [lia|].
  unfold usable. rewrite (branch_cons h c p b) by done. cbn [test_path]. destruct (Contains h c p); [left; by split|].
  rewrite Hp. cbn [mbind option_bind]. rewrite (proj2 (Z.eqb_neq _ _) Htx). cbn [andb].
  destruct (failed b || missing b) eqn:Ebad.
  - right. exists [], p, (match pprev b with Some q => branch h c q | None => [] end). split_and!; [done..|].
    intros Hg. destruct (Hg b Hp) as [Hf1 Hf2]. by rewrite Hf1, Hf2 in Ebad.
  - apply orb_false_iff in Ebad as [Hf1 Hf2]. assert (good h p) as Hgood by (intros b'; rewrite Hp; by intros [= <-]).
    unfold entry_wf in He. destruct (pprev b) as [q|] eqn:Eq.
    2:{ left. split; [by destruct fuel|]. by apply Forall_singleton. }
    destruct He as (d & Hq & Hh & _). destruct (Hlk p b q Hp Htx Eq) as (d' & Hd' & Htx'). rewrite Hq in Hd'. injection Hd' as <-.
    destruct (IH q d Hq Htx' ltac:(lia)) as [[-> Hu]|(l1 & r & l2 & -> & -> & Hl1 & Hr)].
    + left. split; [done|]. by constructor.
    + right. exists (p :: l1), r, l2. split_and!; [done..|by constructor|done].
Qed.

(** Induction from the root. *)
Lemma tree_induction h (P : ptr → CBlockIndex → Prop) :
  tree_wf h →
  (∀ p b, h !! p = Some b → (∀ q c, pprev b = Some q → h !! q = Some c → nHeight b = nHeight c + 1 → P q c) → P p b) →
  ∀ p b, h !! p = Some b → P p b.
Proof.
  intros Hwf Hstep. assert (∀ n p b, h !! p = Some b → nHeight b < Z.of_nat n → P p b) as Hn.
  { induction n as [|n IH]; intros p b Hp Hh; destruct (Hwf p b Hp) as [H0 He]; [lia|]. apply (Hstep p b Hp).
    intros q c Hq Hc Hhc. apply IH; [done|lia]. }
  intros p b Hp. apply (Hn (S (Z.to_nat (nHeight b))) p b Hp). destruct (Hwf p b Hp). lia.
Qed.

Lemma tree_parent h p b q :
  tree_wf h → h !! p = Some b → pprev b = Some q → ∃ c, h !! q = Some c ∧ nHeight b = nHeight c + 1.
Proof.
  intros Hwf Hp Hq. destruct (Hwf p b Hp) as [_ He]. unfold entry_wf in He. rewrite Hq in He.
  destruct He as (c & Hc & Hh & _). by exists c.
Qed.

(** A block of a branch has its own branch at the end of it. *)
Lemma branch_suffix h c p x :
  tree_wf h → is_Some (h !! p) → x ∈ branch h c p → ∃ k t, branch h c p = k ++ x :: t ∧ branch h c x = x :: t.
Proof.
  intros Hwf [b Hp]. revert p b Hp. apply (tree_induction h (λ p b, x ∈ branch h c p → _) Hwf). intros p b Hp IH Hx.
  pose proof (branch_cons h c p b Hwf Hp) as E. destruct (Contains h c p); [rewrite E in Hx; by apply elem_of_nil in Hx|].
  destruct (decide (x = p)) as [->|Hne]; [by eexists [], _|]. rewrite E in Hx |- *. apply elem_of_cons in Hx as [?|Hx]; [done|].
  destruct (pprev b) as [q|] eqn:Eq; [|by apply elem_of_nil in Hx]. destruct (tree_parent h p b q Hwf Hp Eq) as (d & Hq & Hd).
  destruct (IH q d eq_refl Hq Hd Hx) as (k & t & -> & Ht). by exists (p :: k), t.
Qed.

Lemma branch_in_heap h c p x : x ∈ branch h c p → is_Some (h !! p) ∧ Contains h c p = false.
Proof.
  unfold branch. destruct (h !! p) as [b|] eqn:Hp; [|by intros ?%elem_of_nil]. rewrite off_chain_S.
  destruct (Contains h c p); [by intros ?%elem_of_nil|]. by split; [eexists|].
Qed.

Lemma branch_off_chain h c p x :
  tree_wf h → is_Some (h !! p) → x ∈ branch h c p → Contains h c x = false.
Proof.
  intros Hwf Hp Hx. destruct (branch_suffix h c p x Hwf Hp Hx) as (k & t & _ & E). unfold branch in E.
  destruct (h !! x) as [b|]; [|done]. rewrite off_chain_S in E. by destruct (Contains h c x).
Qed.

Lemma branch_heights h c p b x a :
  tree_wf h → h !! p = Some b → x ∈ branch h c p → h !! x = Some a → x ≠ p → nHeight a < nHeight b.
Proof.
  intros Hwf Hp Hx Ha Hne. revert p b Hp Hx Hne.
  apply (tree_induction h (λ p b, x ∈ branch h c p → x ≠ p → nHeight a < nHeight b) Hwf). intros p b Hp IH.
  rewrite (branch_cons h c p b) by done. destruct (Contains h c p); [by intros ?%elem_of_nil|].
  intros [?|Hx]%elem_of_cons Hne; [done|]. destruct (pprev b) as [q|] eqn:Eq; [|by apply elem_of_nil in Hx].
  destruct (tree_parent h p b q Hwf Hp Eq) as (d & Hq & Hd).
  destruct (decide (x = q)) as [->|Hxq]; [rewrite Hq in Ha; injection Ha as <-; lia|].
  specialize (IH q d eq_refl Hq Hd Hx Hxq). lia.
Qed.

Lemma branch_NoDup h c p : tree_wf h → is_Some (h !! p) → NoDup (branch h c p).
Proof.
  intros Hwf [b Hp]. revert p b Hp. apply (tree_induction h (λ p _, NoDup (branch h c p)) Hwf). intros p b Hp IH.
  rewrite (branch_cons h c p b) by done. destruct (Contains h c p); [constructor|].
  destruct (pprev b) as [q|] eqn:Eq; [|apply NoDup_singleton]. destruct (tree_parent h p b q Hwf Hp Eq) as (d & Hq & Hd).
  constructor; [|by apply (IH q d)]. intros Hin.
  destruct (decide (p = q)) as [->|Hne]; [rewrite Hq in Hp; injection Hp as <-; lia|].
  pose proof (branch_heights h c q d p b Hwf Hq Hin Hp Hne). lia.
Qed.

(** ** Changing only statuses *)

(** An entry without the position of its undo data and without its status, but for the
    bit that its data is there. *)
Definition unstatus (b : CBlockIndex) : CBlockIndex := set_nUndoPos 0 (set_nStatus (nStatus b .& BLOCK_HAVE_DATA) b).

(** The two heaps hold the same blocks with other statuses. *)
Definition restatus (h h' : heap) : Prop := ∀ p, unstatus <$> h !! p = unstatus <$> h' !! p.

#[export] Instance restatus_equiv : Equivalence restatus.
Proof.
  split.
  - by intros h p.
  - intros h h' H p. by rewrite (H p).
  - intros h1 h2 h3 H1 H2 p. by rewrite (H1 p).
Qed.

Lemma unstatus_fields a b :
  unstatus a = unstatus b →
  pprev a = pprev b ∧ nHeight a = nHeight b ∧ nChainWork a = nChainWork b ∧ phashBlock a = phashBlock b ∧
  nChainTx a = nChainTx b ∧ links a = links b ∧ nTx a = nTx b ∧ missing a = missing b.
Proof.
  destruct a, b. unfold unstatus, links, missing. cbn. intros E. injection E as -> -> -> -> -> -> -> -> -> ES -> -> -> -> -> -> -> ->.
  by rewrite ES.
Qed.

Lemma restatus_lookup h h' p b :
  restatus h h' → h !! p = Some b → ∃ b', h' !! p = Some b' ∧ unstatus b = unstatus b'.
Proof.
  intros H Hp. specialize (H p). rewrite Hp in H. destruct (h' !! p) as [b'|]; [|done].
  apply (inj Some) in H. by exists b'.
Qed.

Lemma restatus_update h p b b' : h !! p = Some b → unstatus b' = unstatus b → restatus h (<[p := b']> h).
Proof.
  intros Hp E q. destruct (decide (p = q)) as [<-|Hne]; [|by rewrite lookup_insert_ne].
  rewrite lookup_insert_eq, Hp. simpl. by rewrite E.
Qed.

Lemma nStatus_set v b : nStatus (set_nStatus v b) = v.
Proof. by destruct b. Qed.

(** Setting bits of the status other than the data bit. *)
Lemma unstatus_set_bits b v : v .& BLOCK_HAVE_DATA = 0 → unstatus (set_nStatus (nStatus b .| v) b) = unstatus b.
Proof. intros Hv. unfold unstatus. rewrite nStatus_set, Z.land_lor_distr_l, Hv, Z.lor_0_r. by destruct b. Qed.

Lemma restatus_None h h' p : restatus h h' → h !! p = None → h' !! p = None.
Proof. intros H Hp. specialize (H p). rewrite Hp in H. by destruct (h' !! p). Qed.

Lemma restatus_links h h' : restatus h h' → same_links h h'.
Proof.
  intros H p. destruct (h !! p) as [b|] eqn:Hp.
  - destruct (restatus_lookup h h' p b H Hp) as (b' & -> & E). simpl. f_equal. by apply unstatus_fields.
  - by rewrite (restatus_None h h' p).
Qed.

(** ** The shape of the tree *)

(** What the order of tips and the walks read of an entry. *)
Definition skeleton (b : CBlockIndex) : option ptr * option ptr * Z * uint256 * uint256 :=
  (links b, nChainWork b, phashBlock b).

Definition same_tree (h h' : heap) : Prop := ∀ p, skeleton <$> h !! p = skeleton <$> h' !! p.

#[export] Instance same_tree_equiv : Equivalence same_tree.
Proof.
  split.
  - by intros h p.
  - intros h h' H p. by rewrite (H p).
  - intros h1 h2 h3 H1 H2 p. by rewrite (H1 p).
Qed.

Lemma same_tree_lookup h h' p b :
  same_tree h h' → h !! p = Some b →
  ∃ b', h' !! p = Some b' ∧ pprev b = pprev b' ∧ nHeight b = nHeight b' ∧ nChainWork b = nChainWork b' ∧ phashBlock b = phashBlock b'.
Proof.
  intros H Hp. specialize (H p). rewrite Hp in H. destruct (h' !! p) as [b'|]; [|done].
  apply (inj Some) in H. unfold skeleton, links in H. exists b'. split; [done|]. split_and!; congruence.
Qed.

Lemma same_tree_None h h' p : same_tree h h' → h !! p = None → h' !! p = None.
Proof. intros H Hp. specialize (H p). rewrite Hp in H. by destruct (h' !! p). Qed.

Lemma restatus_same h h' : restatus h h' → same_tree h h'.
Proof.
  intros H p. destruct (h !! p) as [b|] eqn:Hp.
  - destruct (restatus_lookup h h' p b H Hp) as (b' & -> & E). simpl. f_equal. unfold skeleton.
    by destruct (unstatus_fields _ _ E) as (_ & _ & -> & -> & _ & -> & _).
  - by rewrite (restatus_None h h' p).
Qed.

Lemma same_tree_links h h' : same_tree h h' → same_links h h'.
Proof.
  intros H p. specialize (H p). destruct (h !! p), (h' !! p); try done. simpl in *. apply (inj Some) in H. unfold skeleton in H. congruence.
Qed.

#[export] Instance Contains_same : Proper (same_tree ==> eq ==> eq ==> eq) Contains.
Proof.
  intros h h' H c ? <- p ? <-. unfold Contains. destruct (h !! p) as [b|] eqn:Hp.
  - by destruct (same_tree_lookup h h' p b H Hp) as (b' & -> & _ & -> & _).
  - by rewrite (same_tree_None h h' p).
Qed.

#[export] Instance worse_same : Proper (same_tree ==> eq ==> eq ==> eq) worse.
Proof.
  intros h h' H p ? <- q ? <-. unfold worse. destruct (h !! p) as [a|] eqn:Hp.
  - destruct (same_tree_lookup h h' p a H Hp) as (a' & -> & _ & _ & Ea & Fa). destruct (h !! q) as [b|] eqn:Hq.
    + destruct (same_tree_lookup h h' q b H Hq) as (b' & -> & _ & _ & Eb & Fb). unfold work_lt. simpl. by rewrite Ea, Fa, Eb, Fb.
    + by rewrite (same_tree_None h h' q).
  - by rewrite (same_tree_None h h' p).
Qed.

#[export] Instance off_chain_same : Proper (same_tree ==> eq ==> eq ==> eq ==> eq) off_chain.
Proof.
  intros h h' H c ? <- fuel ? <- p ? <-. revert p. induction fuel as [|fuel IH]; intros [p|]; [done..| |done].
  rewrite !off_chain_S, (Contains_same h h' H c c eq_refl p p eq_refl). destruct (Contains h' c p); [done|].
  destruct (h !! p) as [b|] eqn:Hp.
  - destruct (same_tree_lookup h h' p b H Hp) as (b' & -> & -> & _). by rewrite IH.
  - by rewrite (same_tree_None h h' p).
Qed.

#[export] Instance branch_same : Proper (same_tree ==> eq ==> eq ==> eq) branch.
Proof.
  intros h h' H c ? <- p ? <-. unfold branch. destruct (h !! p) as [b|] eqn:Hp.
  - destruct (same_tree_lookup h h' p b H Hp) as (b' & -> & _ & -> & _). by apply off_chain_same.
  - by rewrite (same_tree_None h h' p).
Qed.

Lemma tree_wf_same h h' : same_tree h h' → tree_wf h → tree_wf h'.
Proof. intros H. by apply tree_wf_same_links, same_tree_links. Qed.

Lemma keys_wf_same h h' : same_tree h h' → keys_wf h → keys_wf h'.
Proof.
  intros H Hk p b' Hp. symmetry in H. destruct (same_tree_lookup h' h p b' H Hp) as (b & Hb & _ & _ & -> & ->). by apply (Hk p).
Qed.

(** Statuses are not part of it. *)
#[export] Instance Contains_restatus : Proper (restatus ==> eq ==> eq ==> eq) Contains.
Proof. intros h h' H%restatus_same. by apply Contains_same. Qed.

#[export] Instance worse_restatus : Proper (restatus ==> eq ==> eq ==> eq) worse.
Proof. intros h h' H%restatus_same. by apply worse_same. Qed.

#[export] Instance branch_restatus : Proper (restatus ==> eq ==> eq ==> eq) branch.
Proof. intros h h' H%restatus_same. by apply branch_same. Qed.

Lemma tree_wf_restatus h h' : restatus h h' → tree_wf h → tree_wf h'.
Proof. intros H%restatus_same. by apply tree_wf_same. Qed.

Lemma keys_wf_restatus h h' : restatus h h' → keys_wf h → keys_wf h'.
Proof. intros H%restatus_same. by apply keys_wf_same. Qed.

Lemma linked_restatus h h' : restatus h h' → linked h → linked h'.
Proof.
  intros H Hl p b' q Hp Htx Hq. pose proof H as H'. symmetry in H'. destruct (restatus_lookup h' h p b' H' Hp) as (b & Hb & E).
  destruct (unstatus_fields _ _ E) as (Ep & _ & _ & _ & Et & _). rewrite Ep in Hq. rewrite Et in Htx.
  destruct (Hl p b q Hb Htx Hq) as (c & Hc & Hct). destruct (restatus_lookup h h' q c H Hc) as (c' & Hc' & Ec).
  exists c'. split; [done|]. by destruct (unstatus_fields _ _ Ec) as (_ & _ & _ & _ & <- & _).
Qed.

(** ** Removing a bad chain *)

Definition level (b : CBlockIndex) : Z := nStatus b .& BLOCK_VALID_MASK.

(** A block that is not marked now was not marked before, and no less valid now. *)
Definition less_failed (h h' : heap) : Prop :=
  ∀ x b', h' !! x = Some b' → failed b' = false → ∃ b, h !! x = Some b ∧ failed b = false ∧ level b ≤ level b'.

Lemma less_failed_refl h : less_failed h h.
Proof. intros x b Hb Hf. by exists b. Qed.

Lemma less_failed_trans h1 h2 h3 : less_failed h1 h2 → less_failed h2 h3 → less_failed h1 h3.
Proof.
  intros H1 H2 x b Hb Hf. destruct (H2 x b Hb Hf) as (b2 & Hb2 & Hf2 & Hl2). destruct (H1 x b2 Hb2 Hf2) as (b1 & Hb1 & Hf1 & Hl1).
  exists b1. split_and!; [done..|lia].
Qed.

Lemma less_failed_good h h' x : restatus h h' → less_failed h h' → good h' x → good h x.
Proof.
  intros Hr Hl Hg b Hb. destruct (restatus_lookup h h' x b Hr Hb) as (b' & Hb' & E). destruct (Hg b' Hb') as [Hf Hm].
  destruct (Hl x b' Hb' Hf) as (b2 & Hb2 & Hf2 & _). rewrite Hb in Hb2. injection Hb2 as <-. split; [done|].
  by destruct (unstatus_fields _ _ E) as (_ & _ & _ & _ & _ & _ & _ & ->).
Qed.

Lemma less_failed_set_bits h p b v :
  h !! p = Some b → v .& BLOCK_VALID_MASK = 0 → less_failed h (<[p := set_nStatus (nStatus b .| v) b]> h).
Proof.
  intros Hp Hv x b' Hx Hf. destruct (decide (p = x)) as [<-|Hne]; [|rewrite lookup_insert_ne in Hx by done; by exists b'].
  exists b. split; [done|]. rewrite lookup_insert_eq in Hx. apply (inj Some) in Hx. subst b'.
  unfold failed, level in *. rewrite nStatus_set, Z.land_lor_distr_l in *. apply negb_false_iff, Z.eqb_eq in Hf.
  apply Z.lor_eq_0_iff in Hf as [-> _]. split; [done|]. by rewrite Hv, Z.lor_0_r.
Qed.

(** What the loop leaves alone, and what it removes. *)
Record removed (ff : bool) (l : list ptr) (s s' : Tree) : Prop := {
  removed_chain : chainActive s' = chainActive s;
  removed_map : mapBlockIndex s' = mapBlockIndex s;
  removed_unlinked : ff = true → mapBlocksUnlinked s' = mapBlocksUnlinked s;
  removed_candidates : candidates s' = candidates s ∖ list_to_set l;
  removed_restatus : restatus (index s) (index s');
  removed_others : ∀ x, x ∉ l → index s' !! x = index s !! x;
  removed_less : less_failed (index s) (index s') }.

Lemma remove_chain_spec fuel ff q p b l1 l2 s :
  tree_wf (index s) → index s !! p = Some b → nHeight b < Z.of_nat fuel →
  branch (index s) (chainActive s) p = l1 ++ q :: l2 →
  ∃ s', remove_chain fuel ff q p s = Some s' ∧ removed ff l1 s s'.
Proof.
  revert p b l1 s. induction fuel as [|fuel IH]; intros p b l1 s Hwf Hp Hf Hbr; [destruct (Hwf p b Hp); lia|].
  pose proof (branch_NoDup (index s) (chainActive s) p Hwf ltac:(by eexists)) as Hnd. rewrite Hbr in Hnd.
  pose proof Hbr as Hbr'. rewrite (branch_cons _ _ p b) in Hbr' by done.
  destruct (Contains (index s) (chainActive s) p); [by destruct l1|].
  cbn [remove_chain]. destruct l1 as [|x l1].
  { injection Hbr' as -> _. rewrite decide_True by done. exists s. split; [done|].
    split; try done; [apply set_eq; set_solver|apply less_failed_refl]. }
  injection Hbr' as <- Hrest. destruct (pprev b) as [r|] eqn:Er; [|by destruct l1].
  cbn [app] in Hnd. apply NoDup_cons in Hnd as [Hpn Hnd].
  rewrite decide_False by (intros ->; apply Hpn, elem_of_app; right; by left). rewrite Hp. cbn [mbind option_bind]. rewrite Er.
  cbn [mbind option_bind]. match goal with |- context [remove_chain fuel ff q r ?S2] => set (s2 := S2) end.
  assert (restatus (index s) (index s2) ∧ (∀ x, x ≠ p → index s2 !! x = index s !! x) ∧ chainActive s2 = chainActive s ∧
    mapBlockIndex s2 = mapBlockIndex s ∧ candidates s2 = candidates s ∖ {[p]} ∧
    (ff = true → mapBlocksUnlinked s2 = mapBlocksUnlinked s) ∧
    less_failed (index s) (index s2)) as (Hre & Hoth & Hch & Hmap & Hca & Hun & Hgo).
  { unfold s2. destruct ff; simpl.
    - split_and!; [by apply (restatus_update _ p b); [|apply unstatus_set_bits]| |done..|].
      + intros x Hx. by rewrite lookup_insert_ne.
      + by apply less_failed_set_bits.
    - split_and!; [done..|apply less_failed_refl]. }
  destruct (Hwf p b Hp) as [_ He]. unfold entry_wf in He. rewrite Er in He. destruct He as (d & Hr & Hh & _).
  destruct (restatus_lookup _ _ r d Hre Hr) as (d' & Hd' & Ed). destruct (unstatus_fields _ _ Ed) as (_ & Ehd & _).
  destruct (IH r d' l1 s2) as (s' & -> & [Hc Hm Hu Hcand Hrs Ho Hgd]).
  - by apply (tree_wf_restatus (index s)).
  - done.
  - lia.
  - rewrite Hch, <- Hrest. symmetry. by apply branch_restatus.
  - exists s'. split; [done|]. split.
    + by rewrite Hc.
    + by rewrite Hm.
    + intros Hff. by rewrite Hu, Hun.
    + rewrite Hcand, Hca. apply set_eq. intros x. rewrite !elem_of_difference, list_to_set_cons. set_solver.
    + by rewrite Hre.
    + intros x [Hx1 Hx2]%not_elem_of_cons. rewrite Ho by done. by apply Hoth.
    + by apply (less_failed_trans _ (index s2)).
Qed.

(** From a block before a bad one, the branch leads through the bad one. *)
Lemma branch_through h c p l1 q l2 y :
  tree_wf h → is_Some (h !! p) → branch h c p = l1 ++ q :: l2 → y ∈ l1 ++ [q] → q ∈ branch h c y.
Proof.
  intros Hwf Hp Hbr Hy. pose proof (branch_NoDup h c p Hwf Hp) as Hnd.
  destruct (branch_suffix h c p y Hwf Hp) as (k & t & E & ->).
  { rewrite Hbr. apply elem_of_app in Hy as [Hy|Hy%list_elem_of_singleton]; apply elem_of_app; [by left|subst; right; by left]. }
  apply list_elem_of_lookup in Hy as [i Hi]. rewrite Hbr in E, Hnd.
  assert ((l1 ++ q :: l2) !! i = Some y) as Hi'.
  { change (q :: l2) with ([q] ++ l2). rewrite app_assoc. by apply lookup_app_l_Some. }
  assert ((l1 ++ q :: l2) !! length k = Some y) as Hk by (rewrite E; by apply list_lookup_middle).
  pose proof (NoDup_lookup _ _ _ _ Hnd Hi' Hk) as ->. apply lookup_lt_Some in Hi. rewrite length_app in Hi. simpl in Hi.
  assert ((k ++ y :: t) !! length l1 = Some q) as Hq by (rewrite <- E; by apply list_lookup_middle).
  rewrite lookup_app_r in Hq by lia. by eapply list_elem_of_lookup_2.
Qed.

(** What is removed was not usable, and what was usable still is. *)
Lemma removed_usable ff l1 q l2 p b s s' x :
  tree_wf (index s) → index s !! p = Some b → branch (index s) (chainActive s) p = l1 ++ q :: l2 →
  ¬ good (index s) q → removed ff l1 s s' → is_Some (index s !! x) →
  (usable (index s') (chainActive s') x ↔ usable (index s) (chainActive s) x) ∧
  (x ∈ l1 ++ [q] → ¬ usable (index s) (chainActive s) x).
Proof.
  intros Hwf Hp Hbr Hq [Hc _ _ _ Hre Ho _] Hx.
  pose proof (branch_NoDup (index s) (chainActive s) p Hwf ltac:(by eexists)) as Hnd. rewrite Hbr in Hnd.
  apply NoDup_app in Hnd as (_ & Hdis & _).
  assert (q ∉ l1) as Hql by (intros Hin; apply (Hdis q Hin); by left).
  assert (∀ y, y ∈ l1 ++ [q] → q ∈ branch (index s) (chainActive s) y) as Hmem.
  { intros y Hy. by apply (branch_through _ _ p l1 q l2); [done|by eexists|..]. }
  unfold usable. rewrite Hc, <- (branch_restatus _ _ Hre (chainActive s) _ eq_refl x x eq_refl). split.
  - destruct (decide (Exists (λ y, y ∈ l1) (branch (index s) (chainActive s) x))) as [Hex|Hno].
    + apply Exists_exists in Hex as (y & Hyb & Hy).
      assert (q ∈ branch (index s) (chainActive s) x) as Hqx.
      { destruct (branch_suffix _ _ x y Hwf Hx Hyb) as (k & t & Ek & Et). rewrite Ek, <- Et. apply elem_of_app. right.
        apply Hmem, elem_of_app. by left. }
      rewrite !Forall_forall. split; intros H; exfalso; apply Hq.
      * intros bq Hbq. apply (H q Hqx). by rewrite Ho.
      * by apply H.
    + apply not_Exists_Forall in Hno; [|apply _]. rewrite !Forall_forall. rewrite Forall_forall in Hno.
      split; intros H y Hy b' Hb'; apply (H y Hy); [rewrite Ho by (by apply Hno)|rewrite <- Ho by (by apply Hno)]; done.
  - intros Hin Hall. rewrite Forall_forall in Hall. by apply Hq, Hall, Hmem.
Qed.

(** ** The search finds the best usable candidate *)

(** The block tree as [main.cpp] keeps it: the candidates are known blocks whose
    transactions have all arrived, and block files are never deleted. *)
Definition has_data (h : heap) : Prop := ∀ p b, h !! p = Some b → nChainTx b ≠ 0 → missing b = false.

Lemma has_data_restatus h h' : restatus h h' → has_data h → has_data h'.
Proof.
  intros H Hd p b' Hp Htx. symmetry in H. destruct (restatus_lookup h' h p b' H Hp) as (b & Hb & E).
  destruct (unstatus_fields _ _ E) as (_ & _ & _ & _ & Et & _ & _ & ->). apply (Hd p); congruence.
Qed.

(** The transactions of a block's ancestors have arrived when the block's have. *)
Lemma branch_linked h c p b x :
  tree_wf h → linked h → h !! p = Some b → nChainTx b ≠ 0 → x ∈ branch h c p → ∃ a, h !! x = Some a ∧ nChainTx a ≠ 0.
Proof.
  intros Hwf Hl Hp. revert p b Hp. apply (tree_induction h (λ p b, nChainTx b ≠ 0 → x ∈ branch h c p → _) Hwf).
  intros p b Hp IH Htx. rewrite (branch_cons h c p b) by done. destruct (Contains h c p); [by intros ?%elem_of_nil|].
  rewrite elem_of_cons. intros [->|Hx]; [by exists b|].
  destruct (pprev b) as [q|] eqn:Eq; [|by apply elem_of_nil in Hx]. destruct (Hl p b q Hp Htx Eq) as (d & Hd & Htd).
  destruct (tree_parent h p b q Hwf Hp Eq) as (d' & Hd' & Hh). by apply (IH q d' eq_refl Hd' Hh); [congruence|].
Qed.

Record tree_ok (s : Tree) : Prop := {
  ok_tree : tree_wf (index s);
  ok_keys : keys_wf (index s);
  ok_linked : linked (index s);
  ok_data : has_data (index s);
  ok_candidates : ∀ p, p ∈ candidates s → ∃ b, index s !! p = Some b ∧ nChainTx b ≠ 0 }.

Definition marked (h : heap) (x : ptr) : Prop := ∃ b, h !! x = Some b ∧ failed b = true.

(** Nothing usable is lost between the two states and nothing is added; a block is
    marked only if an ancestor was. *)
Record narrowed (s s' : Tree) : Prop := {
  narrowed_chain : chainActive s' = chainActive s;
  narrowed_restatus : restatus (index s) (index s');
  narrowed_candidates : candidates s' ⊆ candidates s;
  narrowed_active : ∀ x, Contains (index s) (chainActive s) x = true → index s' !! x = index s !! x;
  narrowed_less : less_failed (index s) (index s');
  narrowed_marks : ∀ x, marked (index s') x → ∃ y, (y = x ∨ y ∈ branch (index s) (chainActive s) x) ∧ marked (index s) y;
  narrowed_map : mapBlockIndex s' = mapBlockIndex s;
  narrowed_unlinked : mapBlocksUnlinked s' = mapBlocksUnlinked s;
  narrowed_usable : ∀ x, is_Some (index s !! x) →
    (usable (index s') (chainActive s') x ↔ usable (index s) (chainActive s) x);
  narrowed_keeps : ∀ x, x ∈ candidates s → usable (index s) (chainActive s) x → x ∈ candidates s' }.

Lemma narrowed_refl s : narrowed s s.
Proof. split; try done; [apply less_failed_refl|]. intros x Hx. exists x. by split; [left|]. Qed.

Lemma narrowed_ok s s' : narrowed s s' → tree_ok s → tree_ok s'.
Proof.
  intros [_ Hr Hc _ _ _ _ _ _ _] [Hwf Hk Hl Hd Hcand]. split.
  - by apply (tree_wf_restatus (index s)).
  - by apply (keys_wf_restatus (index s)).
  - by apply (linked_restatus (index s)).
  - by apply (has_data_restatus (index s)).
  - intros p Hp. destruct (Hcand p (Hc p Hp)) as (b & Hb & Htx).
    destruct (restatus_lookup _ _ p b Hr Hb) as (b' & Hb' & E). exists b'. split; [done|].
    by destruct (unstatus_fields _ _ E) as (_ & _ & _ & _ & <- & _).
Qed.

Lemma narrowed_trans s1 s2 s3 : tree_ok s1 → narrowed s1 s2 → narrowed s2 s3 → narrowed s1 s3.
Proof.
  intros Hok [c1 r1 d1 a1 g1 f1 m1 n1 u1 k1] [c2 r2 d2 a2 g2 f2 m2 n2 u2 k2].
  assert (∀ x, is_Some (index s1 !! x) → is_Some (index s2 !! x)) as Hs.
  { intros x [b Hb]. destruct (restatus_lookup _ _ x b r1 Hb) as (b' & -> & _). by eexists. }
  split.
  - by rewrite c2.
  - by rewrite r1.
  - by etrans.
  - intros x Hx. rewrite a2; [by apply a1|]. by rewrite c1, <- (Contains_restatus _ _ r1 (chainActive s1) _ eq_refl x _ eq_refl).
  - by apply (less_failed_trans _ (index s2)).
  - intros x Hx. destruct (f2 x Hx) as (y & Hy & Hm). destruct (f1 y Hm) as (z & Hz & Hmz). exists z. split; [|done].
    rewrite c1, <- (branch_restatus _ _ r1 (chainActive s1) _ eq_refl x _ eq_refl) in Hy.
    destruct Hy as [->|Hy]; [done|]. right. destruct Hz as [->|Hz]; [done|].
    destruct (branch_in_heap (index s1) (chainActive s1) x y Hy) as [Hsx _].
    destruct (branch_suffix _ _ x y (ok_tree s1 Hok) Hsx Hy) as (k & l & -> & El).
    rewrite El in Hz. apply elem_of_app. by right.
  - by rewrite m2.
  - by rewrite n2.
  - intros x Hx. rewrite u2 by auto. by apply u1.
  - intros x Hx Hu. apply k2; [by apply k1|]. apply u1; [|done].
    destruct (ok_candidates s1 Hok x Hx) as (b & Hb & _). by eexists.
Qed.

(** One turn of the outer loop that ends in [setBlockIndexCandidates.erase(pindexTest)]. *)
Lemma removed_narrowed l1 q l2 p b s s' :
  tree_ok s → index s !! p = Some b → branch (index s) (chainActive s) p = l1 ++ q :: l2 →
  ¬ good (index s) q → marked (index s) q → removed true l1 s s' → narrowed s (with_candidates (candidates s' ∖ {[q]}) s').
Proof.
  intros Hok Hp Hbr Hq Hmq Hrem. pose proof Hrem as [Hc Hmap Hun Hcand Hre Ho Hgd].
  pose proof (λ x, removed_usable true l1 q l2 p b s s' x (ok_tree s Hok) Hp Hbr Hq Hrem) as Hus.
  split; simpl; [done|done| | |done| |done|by apply Hun| |].
  - rewrite Hcand. set_solver.
  - intros x Hx. apply Ho. intros Hin.
    rewrite (branch_off_chain (index s) (chainActive s) p x (ok_tree s Hok) ltac:(by eexists)) in Hx; [done|].
    rewrite Hbr. apply elem_of_app. by left.
  - intros x Hx. destruct (decide (x ∈ l1)) as [Hin|Hnin].
    + exists q. split; [right; apply (branch_through _ _ p l1 q l2); [apply Hok|by eexists|done|apply elem_of_app; by left]|done].
    + exists x. split; [by left|]. unfold marked. by rewrite <- (Ho x Hnin).
  - intros x Hx. by apply Hus.
  - intros x Hx Hu. rewrite Hcand. destruct (ok_candidates s Hok x Hx) as (bx & Hbx & _).
    destruct (Hus x ltac:(by eexists)) as [_ Hno]. assert (x ∉ l1 ++ [q]) as Hn by (intros Hin; by apply Hno).
    rewrite elem_of_app, list_elem_of_singleton in Hn. rewrite !elem_of_difference, elem_of_list_to_set, elem_of_singleton. tauto.
Qed.

Definition found (r : option ptr) (s : Tree) : Prop :=
  match r with
  | None => candidates s = ∅
  | Some p => p ∈ candidates s ∧ usable (index s) (chainActive s) p ∧ ∀ q, q ∈ candidates s → q ≠ p → worse (index s) q p = true
  end.

Lemma with_bestInvalid_ok v s : tree_ok s → tree_ok (with_bestInvalid v s).
Proof. by intros []. Qed.

Lemma FindMostWorkChain_loop_spec fuel s :
  tree_ok s → (size (candidates s) ≤ fuel)%nat →
  ∃ r s', FindMostWorkChain_loop fuel s = Some (r, s') ∧ narrowed s s' ∧ found r s'.
Proof.
  revert s. induction fuel as [|fuel IH]; intros s Hok Hsz; cbn [FindMostWorkChain_loop];
    pose proof (last_candidate_spec (index s) (ok_keys s Hok) (candidates s)
      ltac:(intros x Hx; destruct (ok_candidates s Hok x Hx) as (? & ? & _); by eexists)) as Hlast;
    destruct (last_candidate (index s) (candidates s)) as [p|].
  - destruct Hlast as [Hp _]. assert (candidates s = ∅) as E by (apply leibniz_equiv, size_empty_inv; lia). set_solver.
  - exists None, s. split_and!; [done|apply narrowed_refl|done].
  - destruct Hlast as [Hp Hmax]. destruct (ok_candidates s Hok p Hp) as (b & Hb & Htx). rewrite Hb. cbn [mbind option_bind].
    destruct (ok_tree s Hok p b Hb) as [H0 _].
    destruct (test_path_spec (index s) (chainActive s) (S (Z.to_nat (nHeight b))) p b (ok_tree s Hok) (ok_linked s Hok) Hb Htx
      ltac:(lia)) as [[-> Hu]|(l1 & q & l2 & -> & Hbr & Hl1 & Hq)]; cbn [mbind option_bind].
    { exists (Some p), s. split_and!; [done|apply narrowed_refl|done..]. }
    destruct (index s !! q) as [bq|] eqn:Eq; [|exfalso; apply Hq; intros b'; by rewrite Eq]. cbn [mbind option_bind].
    match goal with |- context [remove_chain _ _ _ _ ?S2] => set (s2 := S2) end.
    assert (∃ v, s2 = with_bestInvalid v s) as [v Ev].
    { unfold s2. destruct (failed bq && _); [by eexists|]. exists (pindexBestInvalid s). by destruct s. }
    rewrite Ev. clear s2 Ev.
    assert (failed bq = true) as Hfq.
    { destruct (branch_linked _ (chainActive s) p b q (ok_tree s Hok) (ok_linked s Hok) Hb Htx) as (bq' & Hbq' & Htq).
      { rewrite Hbr. apply elem_of_app. right. by left. }
      apply not_false_iff_true. intros Hf. apply Hq. intros b'. rewrite Eq. intros [= <-]. split; [done|].
      apply (ok_data s Hok q bq Eq). congruence. }
    rewrite Hfq.
    destruct (remove_chain_spec (S (Z.to_nat (nHeight b))) true q p b l1 l2 (with_bestInvalid v s)) as (s3 & -> & Hrem);
      [by destruct Hok|done|lia|done|]. cbn [mbind option_bind].
    pose proof (removed_narrowed l1 q l2 p b (with_bestInvalid v s) s3 (with_bestInvalid_ok v s Hok) Hb Hbr Hq
      ltac:(by exists bq) Hrem) as Hn.
    assert (narrowed s (with_candidates (candidates s3 ∖ {[q]}) s3)) as Hn' by (destruct Hn; by split).
    destruct (IH (with_candidates (candidates s3 ∖ {[q]}) s3)) as (r & s' & -> & Hn2 & Hf).
    + by apply (narrowed_ok s).
    + assert (candidates s3 ∖ {[q]} ⊂ candidates s) as Hsub%subset_size; [|simpl; lia].
      apply (strict_spec_alt (candidates s3 ∖ {[q]})). split; [apply Hn'|]. intros E. rewrite <- E in Hp.
      rewrite (removed_candidates _ _ _ _ Hrem) in Hp. rewrite !elem_of_difference, elem_of_list_to_set, elem_of_singleton in Hp.
      assert (p ∈ l1 ++ [q]) as Hin.
      { rewrite (branch_cons _ _ p b (ok_tree s Hok) Hb) in Hbr. destruct (Contains _ _ p); [by destruct l1|].
        destruct l1; injection Hbr as -> _; apply elem_of_app; [right|left]; by left. }
      rewrite elem_of_app, list_elem_of_singleton in Hin. tauto.
    + exists r, s'. split_and!; [done|by apply (narrowed_trans s (with_candidates (candidates s3 ∖ {[q]}) s3))|done].
  - exists None, s. split_and!; [done|apply narrowed_refl|done].
Qed.

(** The search for the best chain always ends, changes nothing but statuses and the
    candidates that cannot be used, and returns the greatest usable candidate of the
    set it started from: the most work, then the lower hash, then the lower address.
    It returns [NULL] only when no candidate leads back to the active chain over blocks
    that have their data and are not known to be invalid. *)
Theorem FindMostWorkChain_best s :
  tree_ok s →
  ∃ r s', FindMostWorkChain s = Some (r, s') ∧ narrowed s s' ∧
    match r with
    | None => ∀ q, q ∈ candidates s → ¬ usable (index s) (chainActive s) q
    | Some p => p ∈ candidates s ∧ usable (index s) (chainActive s) p ∧
        ∀ q, q ∈ candidates s → usable (index s) (chainActive s) q → q ≠ p → worse (index s) q p = true
    end.
Proof.
  intros Hok. destruct (FindMostWorkChain_loop_spec (size (candidates s)) s Hok ltac:(done)) as (r & s' & E & Hn & Hf).
  exists r, s'. split_and!; [done..|]. destruct Hn as [Hc Hr Hsub _ _ _ _ _ Hu Hkeep]. destruct r as [p|]; cbn [found] in Hf.
  - destruct Hf as (Hp & Hup & Hmax). destruct (ok_candidates s Hok p (Hsub p Hp)) as (b & Hb & _).
    split_and!; [by apply Hsub|apply Hu; [by eexists|done]|]. intros q Hq Huq Hne.
    rewrite (worse_restatus _ _ Hr q q eq_refl p p eq_refl). apply Hmax; [by apply Hkeep|done].
  - intros q Hq Huq. pose proof (Hkeep q Hq Huq). set_solver.
Qed.

(** ** An instance *)

Definition tree_entry (i work : Z) (prev skip : option ptr) (height status : Z) : CBlockIndex :=
  MkIndex (i :: replicate 7 0) prev skip height 0 0 0 (work :: replicate 7 0) 1 (height + 1) status [] 0 3 [] 0 0 0 0.

(** A root with two children of equal work, and a block on the second of them. *)
Definition fork_heap (v2 v3 v4 : Z) : heap :=
  <[1%positive := tree_entry 50 1 None None 0 13]>
  (<[2%positive := tree_entry 40 2 (Some 1%positive) (Some 1%positive) 1 v2]>
  (<[3%positive := tree_entry 30 2 (Some 1%positive) (Some 1%positive) 1 v3]>
  (<[4%positive := tree_entry 20 3 (Some 3%positive) (Some 1%positive) 2 v4]> ∅))).

Definition fork_map : gmap uint256 ptr :=
  <[50 :: replicate 7 0 := 1%positive]> (<[40 :: replicate 7 0 := 2%positive]>
  (<[30 :: replicate 7 0 := 3%positive]> (<[20 :: replicate 7 0 := 4%positive]> ∅))).

(** The first child is the tip. *)
Definition fork_tree (v2 v3 v4 : Z) : Tree :=
  MkTree (fork_heap v2 v3 v4) fork_map {[2%positive; 3%positive; 4%positive]} []
    (MkChain [Some 1%positive; Some 2%positive] (Some 2%positive)) None (Some 4%positive) 5.

Lemma fork_heap_cases v2 v3 v4 p b :
  fork_heap v2 v3 v4 !! p = Some b →
  p = 1%positive ∧ b = tree_entry 50 1 None None 0 13 ∨
  p = 2%positive ∧ b = tree_entry 40 2 (Some 1%positive) (Some 1%positive) 1 v2 ∨
  p = 3%positive ∧ b = tree_entry 30 2 (Some 1%positive) (Some 1%positive) 1 v3 ∨
  p = 4%positive ∧ b = tree_entry 20 3 (Some 3%positive) (Some 1%positive) 2 v4.
Proof.
  unfold fork_heap. rewrite !lookup_insert_Some.
  intros [[<- <-]|[_ [[<- <-]|[_ [[<- <-]|[_ [[<- <-]|[_ []%lookup_empty_Some]]]]]]]]; naive_solver.
Qed.

Ltac fork_cases H := apply fork_heap_cases in H as [[-> ->]|[[-> ->]|[[-> ->]|[-> ->]]]].

Lemma fork_heap_wf v2 v3 v4 : tree_wf (fork_heap v2 v3 v4).
Proof. intros p b Hp. fork_cases Hp; (split; [simpl; lia|]); [done|eexists; by split_and!..]. Qed.

Lemma fork_tree_ok v2 v3 v4 :
  (v2 .& BLOCK_HAVE_DATA =? 0) = false → (v3 .& BLOCK_HAVE_DATA =? 0) = false → (v4 .& BLOCK_HAVE_DATA =? 0) = false →
  tree_ok (fork_tree v2 v3 v4).
Proof.
  intros H2 H3 H4. split; simpl.
  - apply fork_heap_wf.
  - intros p b Hp. fork_cases Hp; split; (split; [done|]); repeat (constructor; [unfold word; lia|]); constructor.
  - intros p b q Hp _. fork_cases Hp; simpl; intros [= <-]; by eexists.
  - intros p b Hp Htx. fork_cases Hp; done.
  - intros p Hp. rewrite !elem_of_union, !elem_of_singleton in Hp. destruct Hp as [[->| ->]| ->]; by eexists.
Qed.

(** The block on top is marked as failed: the second child is chosen for its lower hash. *)
Lemma FindMostWorkChain_best_witness :
  ∃ s', FindMostWorkChain (fork_tree 13 11 43) = Some (Some 3%positive, s') ∧
    usable (fork_heap 13 11 43) (chainActive s') 3%positive.
Proof.
  destruct (FindMostWorkChain_best (fork_tree 13 11 43) (fork_tree_ok 13 11 43 eq_refl eq_refl eq_refl)) as (r & s' & E & Hn & Hr).
  assert (r = Some 3%positive) as ->.
  { assert (fst <$> FindMostWorkChain (fork_tree 13 11 43) = Some (Some 3%positive)) as F by (by vm_compute).
    rewrite E in F. by injection F. }
  exists s'. split; [exact E|]. rewrite (narrowed_chain _ _ Hn). apply Hr.
Defined.
