(* ===== verification/ActivateChain.v ===== *)
(** * Moving the active chain

    [src/src/main.cpp]: [DisconnectTip], [ConnectTip], [InvalidChainFound],
    [InvalidBlockFound], [ActivateBestChainStep] and [ActivateBestChain], as they change
    the block tree and the active chain.  What [ConnectBlock] answers for a block is a
    parameter of the model ([verdict]): the rules it checks and the coins it moves are in
    [TxVerify], [BlockUndo] and [ScriptVerify].  Reading and writing the disk can fail
    ([Failed] and [disconnects]).

    The main theorem is that the loop ends on the best block all of whose ancestors are
    acceptable, and that two nodes with the same blocks end on the same one. *)

From stdpp Require Import gmap fin_maps.
From S2P Require Import Prelude Ints ArithUint256 Uint256 BlockIndex Params Pow Chain Sorting StakeModifier ChainSelect.

Local Open Scope Z_scope.

Definition BLOCK_VALID_SCRIPTS : Z := 5.

(** What [ConnectTip] learns of a block: it connects, with the position of its undo
    data; it breaks a rule, perhaps only because it was corrupted; or the system fails
    and the node shuts down ([AbortNode]). *)
Inductive Verdict :=
| Connected (nPos : Z)
| Rejected (corruptionPossible : bool)
| Failed.

Section Activate.
Context (hashGenesisBlock : uint256) (verdict : ptr → Verdict) (disconnects : ptr → bool).

(** The end of [ConnectBlock]: the undo data is written once and the validity raised. *)
Definition connect_marks (nPos : Z) (b : CBlockIndex) : option CBlockIndex :=
  if decide (phashBlock b = hashGenesisBlock) then Some b
  else
    valid ← IsValid BLOCK_VALID_SCRIPTS b;
    let no_undo := nStatus b .& BLOCK_HAVE_UNDO =? 0 in
    if no_undo || negb valid then
      let b := if no_undo then set_nStatus (nStatus b .| BLOCK_HAVE_UNDO) (set_nUndoPos nPos b) else b in
      fst <$> RaiseValidity BLOCK_VALID_SCRIPTS b
    else Some b.

(** [InvalidChainFound]; [None] is the failed assertion that there is a tip. *)
Definition InvalidChainFound (p : ptr) (s : Tree) : option Tree :=
  b ← index s !! p;
  tip ← Tip (chainActive s);
  Some (if match pindexBestInvalid s ≫= λ q, index s !! q with
           | None => true
           | Some i => op_gt W256 (nChainWork b) (nChainWork i)
           end
        then with_bestInvalid (Some p) s else s).

(** [InvalidBlockFound], without the reject messages to the peer. *)
Definition InvalidBlockFound (corruptionPossible : bool) (p : ptr) (s : Tree) : option Tree :=
  if corruptionPossible then Some s
  else
    b ← index s !! p;
    let s := with_index (<[p := set_nStatus (nStatus b .| BLOCK_FAILED_VALID) b]> (index s)) s in
    InvalidChainFound p (with_candidates (candidates s ∖ {[p]}) s).

(** [UpdateTip]; its null argument is dereferenced for the hash of the block. *)
Definition UpdateTip (pindexNew : option ptr) (s : Tree) : option Tree :=
  c ← SetTip (index s) (chainActive s) pindexNew;
  p ← pindexNew;
  Some (with_chain c s).

Definition DisconnectTip (s : Tree) : option (bool * Tree) :=
  pindexDelete ← Tip (chainActive s);
  if negb (disconnects pindexDelete) then Some (false, s)
  else
    b ← index s !! pindexDelete;
    s ← UpdateTip (pprev b) s;
    Some (true, s).

Definition ConnectTip (pindexNew : ptr) (s : Tree) : option (Verdict * Tree) :=
  b ← index s !! pindexNew;
  if negb (bool_decide (pprev b = Tip (chainActive s))) then None
  else
    match verdict pindexNew with
    | Connected nPos =>
        b ← connect_marks nPos b;
        s ← UpdateTip (Some pindexNew) (with_index (<[pindexNew := b]> (index s)) s);
        Some (Connected nPos, s)
    | Rejected corruption =>
        s ← InvalidBlockFound corruption pindexNew s;
        Some (Rejected corruption, s)
    | Failed => Some (Failed, s)
    end.

(** The first loop of [ActivateBestChainStep]. *)
Fixpoint disconnect_loop (fuel : nat) (pindexFork : option ptr) (s : Tree) : option (bool * Tree) :=
  match Tip (chainActive s) with
  | None => Some (true, s)
  | Some tip =>
      if decide (Some tip = pindexFork) then Some (true, s)
      else
        match fuel with
        | O => None
        | S fuel =>
            '(ok, s) ← DisconnectTip s;
            if (ok : bool) then disconnect_loop fuel pindexFork s else Some (false, s)
        end
  end.

(** [vpindexToConnect], from the last pushed to the first. *)
Fixpoint to_connect (h : heap) (fuel : nat) (nHeight_ : Z) (pindexIter : option ptr) (acc : list ptr) : option (list ptr) :=
  match pindexIter with
  | None => Some acc
  | Some p =>
      b ← h !! p;
      if nHeight b =? nHeight_ then Some acc
      else
        match fuel with
        | O => None
        | S fuel => to_connect h fuel nHeight_ (pprev b) (p :: acc)
        end
  end.

(** How the loop over [vpindexToConnect] leaves: it reached the end, the tip has more
    work than the old one, a block broke a rule, or the system failed. *)
Inductive Progress := Going | Better | Invalid | Broken.

Fixpoint connect_blocks (pindexOldTip : option ptr) (back : option ptr) (l : list ptr) (s : Tree) : option (Progress * Tree) :=
  match l with
  | [] => Some (Going, s)
  | pindexConnect :: l =>
      r ← ConnectTip pindexConnect s;
      match (r : Verdict * Tree) with
      | (Failed, s) => Some (Broken, s)
      | (Rejected true, s) => Some (Invalid, s)
      | (Rejected false, s) =>
          p ← back;
          s ← InvalidChainFound p s;
          Some (Invalid, s)
      | (Connected _, s) =>
          s ← PruneBlockIndexCandidates s;
          tip ← Tip (chainActive s);
          b ← index s !! tip;
          match pindexOldTip with
          | None => Some (Better, s)
          | Some o =>
              ob ← index s !! o;
              if op_gt W256 (nChainWork b) (nChainWork ob) then Some (Better, s)
              else connect_blocks pindexOldTip back l s
          end
      end
  end.

(** The second loop: at most 32 blocks are listed at a time. *)
Fixpoint connect_loop (fuel : nat) (pindexOldTip : option ptr) (pindexMostWork : ptr) (nMost nHeight_ : Z) (s : Tree) :
    option (Progress * Tree) :=
  if nHeight_ =? nMost then Some (Going, s)
  else
    match fuel with
    | O => None
    | S fuel =>
        let nTargetHeight := Z.min (nHeight_ + 32) nMost in
        l ← to_connect (index s) (Z.to_nat (nTargetHeight - nHeight_)) nHeight_
              (GetAncestor (index s) pindexMostWork nTargetHeight) [];
        r ← connect_blocks pindexOldTip (head l) l s;
        match (r : Progress * Tree) with
        | (Going, s) => connect_loop fuel pindexOldTip pindexMostWork nMost nTargetHeight s
        | _ => Some r
        end
    end.

Definition ActivateBestChainStep (pindexMostWork : ptr) (s : Tree) : option (bool * Tree) :=
  let pindexOldTip := Tip (chainActive s) in
  pindexFork ← FindFork (index s) (chainActive s) (Some pindexMostWork);
  '(ok, s) ← disconnect_loop (length (vChain (chainActive s))) pindexFork s;
  if negb ok then Some (false, s)
  else
    bm ← index s !! pindexMostWork;
    nHeight_ ← match pindexFork with
               | None => Some (-1)
               | Some f => nHeight <$> index s !! f
               end;
    '(progress, s) ← connect_loop (S (Z.to_nat (nHeight bm))) pindexOldTip pindexMostWork (nHeight bm) nHeight_ s;
    Some (match progress with Broken => false | _ => true end, s).

Fixpoint ActivateBestChain_loop (fuel : nat) (s : Tree) : option (bool * Tree) :=
  match fuel with
  | O => None
  | S fuel =>
      '(pindexMostWork, s) ← FindMostWorkChain s;
      match pindexMostWork with
      | None => Some (true, s)
      | Some m =>
          if decide (Some m = Tip (chainActive s)) then Some (true, s)
          else
            '(ok, s) ← ActivateBestChainStep m s;
            if negb ok then Some (false, s)
            else if decide (Some m = Tip (chainActive s)) then Some (true, s)
            else ActivateBestChain_loop fuel s
      end
  end.

(** A turn of the loop either marks a block as failed or leaves fewer blocks with more
    work than the tip, so that the square of the number of blocks is enough. *)
Definition ActivateBestChain (s : Tree) : option (bool * Tree) :=
  ActivateBestChain_loop (S (size (index s)) * S (size (index s))) s.


End Activate.

(** ** Lines of ancestors *)

(** The blocks from [p] back to the root. *)
Definition line (h : heap) (p : ptr) : list ptr := branch h (MkChain [] None) p.

Lemma line_cons h p b :
  tree_wf h → h !! p = Some b → line h p = p :: match pprev b with Some q => line h q | None => [] end.
Proof.
  intros Hwf Hp. unfold line. rewrite (branch_cons h _ p b) by done. unfold Contains. rewrite Hp.
  rewrite (bool_decide_eq_false_2 (at_height _ _ = _)); [done|]. unfold at_height. by destruct (_ || _).
Qed.

Lemma line_self h p b : tree_wf h → h !! p = Some b → p ∈ line h p.
Proof. intros Hwf Hp. rewrite (line_cons h p b) by done. by left. Qed.

Lemma line_known h p x : tree_wf h → is_Some (h !! p) → x ∈ line h p → is_Some (h !! x).
Proof.
  intros Hwf Hp Hx. destruct (branch_suffix h _ p x Hwf Hp Hx) as (k & t & _ & E). unfold branch in E.
  by destruct (h !! x).
Qed.

Lemma line_trans h p x y : tree_wf h → is_Some (h !! p) → x ∈ line h p → y ∈ line h x → y ∈ line h p.
Proof.
  intros Hwf Hp Hx Hy. destruct (branch_suffix h _ p x Hwf Hp Hx) as (k & t & Ep & Ex). unfold line in *.
  rewrite Ep, <- Ex. apply elem_of_app. by right.
Qed.

Lemma elem_of_line h p b x a :
  tree_wf h → h !! p = Some b → h !! x = Some a → x ∈ line h p ↔ ancestor h p (nHeight a) = Some x.
Proof.
  intros Hwf Hp Hx. revert p b Hp. apply (tree_induction h (λ p b, x ∈ line h p ↔ ancestor h p (nHeight a) = Some x) Hwf).
  intros p b Hp IH. rewrite (line_cons h p b), elem_of_cons by done. destruct (Hwf p b Hp) as [H0 He], (Hwf x a Hx) as [H0x _].
  destruct (decide (x = p)) as [->|Hne].
  { rewrite Hp in Hx. injection Hx as <-. rewrite ancestor_self by done. naive_solver. }
  destruct (pprev b) as [q|] eqn:Eq.
  - destruct (tree_parent h p b q Hwf Hp Eq) as (c & Hq & Hc). rewrite (IH q c) by done.
    destruct (Z.lt_trichotomy (nHeight a) (nHeight b)) as [Hlt|[E|Hgt]].
    + rewrite (ancestor_parent h p b q) by done. naive_solver.
    + rewrite E, (ancestor_self h p b) by done. split; [|congruence]. intros [?|Ha]; [done|].
      unfold ancestor in Ha. rewrite Hq in Ha. destruct (Z.ltb_spec (nHeight c) (nHeight b)); [|lia].
      by rewrite orb_true_r in Ha.
    + unfold ancestor. rewrite Hp, Hq. destruct (Z.ltb_spec (nHeight c) (nHeight a)), (Z.ltb_spec (nHeight b) (nHeight a)); try lia.
      rewrite !orb_true_r. naive_solver.
  - unfold entry_wf in He. rewrite Eq in He. destruct He as [E _]. split; [intros [?|?%elem_of_nil]; done|].
    unfold ancestor. rewrite Hp, E. destruct (Z.ltb_spec (nHeight a) 0); [lia|]. destruct (Z.ltb_spec 0 (nHeight a)); [done|].
    replace (0 - nHeight a) with 0 by lia. simpl. congruence.
Qed.

Lemma line_linked h p b x :
  tree_wf h → linked h → h !! p = Some b → nChainTx b ≠ 0 → x ∈ line h p → ∃ a, h !! x = Some a ∧ nChainTx a ≠ 0.
Proof. apply branch_linked. Qed.

Lemma branch_line h c p x : tree_wf h → x ∈ branch h c p → x ∈ line h p.
Proof.
  intros Hwf Hx. destruct (branch_in_heap h c p x Hx) as [[b Hp] _]. revert p b Hp Hx.
  apply (tree_induction h (λ p b, x ∈ branch h c p → x ∈ line h p) Hwf). intros p b Hp IH.
  rewrite (branch_cons h c p b), (line_cons h p b) by done. destruct (Contains h c p); [by intros ?%elem_of_nil|].
  rewrite !elem_of_cons. intros [->|Hx]; [by left|right]. destruct (pprev b) as [q|] eqn:Eq; [|done].
  destruct (tree_parent h p b q Hwf Hp Eq) as (c' & Hq & Hh). by apply (IH q c').
Qed.

#[export] Instance line_same : Proper (same_tree ==> eq ==> eq) line.
Proof. intros h h' H p ? <-. by apply branch_same. Qed.

#[export] Instance line_restatus : Proper (restatus ==> eq ==> eq) line.
Proof. intros h h' H p ? <-. by apply branch_restatus. Qed.

(** The active chain is the line of its tip. *)
Lemma Contains_line h c t x :
  tree_wf h → chain_ok h c → atomicTip c = Some t → Contains h c x = true ↔ x ∈ line h t.
Proof.
  intros Hwf Hc Ht. pose proof Hc as Hc'. unfold chain_ok in Hc'. rewrite Ht in Hc'. destruct Hc' as [[b Hb] _].
  destruct (h !! x) as [a|] eqn:Hx.
  - rewrite (Contains_ok h c x a), (elem_of_line h t b x a) by done. rewrite Ht. naive_solver.
  - unfold Contains. rewrite Hx. split; [done|]. intros Hin. destruct (line_known h t x Hwf ltac:(by eexists) Hin). congruence.
Qed.

Lemma Tip_ok h c : tree_wf h → chain_ok h c → Tip c = atomicTip c.
Proof.
  intros Hwf Hc. unfold chain_ok in Hc. unfold Tip. destruct (atomicTip c) as [t|].
  - destruct Hc as [[b Hb] E]. destruct (Hwf t b Hb) as [H0 _]. rewrite E, (path_length h t b) by done.
    destruct (path h t) eqn:Ep; [apply (f_equal length) in Ep; rewrite (path_length h t b) in Ep by done; simpl in Ep; lia|].
    rewrite <- Ep. replace (Z.to_nat (nHeight b + 1) - 1)%nat with (Z.to_nat (nHeight b)) by lia.
    rewrite (path_lookup h t b) by (done || lia). by rewrite (ancestor_self h t b).
  - by rewrite Hc.
Qed.

Lemma SetTip_ok h c t b :
  tree_wf h → chain_ok h c → h !! t = Some b →
  ∃ c', SetTip h c (Some t) = Some c' ∧ chain_ok h c' ∧ atomicTip c' = Some t.
Proof.
  intros Hwf Hc Ht. destruct (SetTip_spec h c t b Hwf Hc Ht) as (c' & E & Hc' & _ & Htip & _). exists c'.
  split_and!; [done..|]. by rewrite <- (Tip_ok h c').
Qed.

Lemma chain_ok_same h h' c : same_tree h h' → chain_ok h c → chain_ok h' c.
Proof.
  intros H. unfold chain_ok. destruct (atomicTip c) as [t|]; [|done]. intros [[b Hb] ->].
  destruct (same_tree_lookup h h' t b H Hb) as (b' & Hb' & _ & E & _). split; [by eexists|]. unfold path. rewrite Hb, Hb', E.
  apply map_ext. intros i. by apply ancestor_proper; [apply same_tree_links|..].
Qed.

(** ** The state of a node *)

Lemma land_or_other x a m : 0 ≤ m → a .& m = 0 → (x .| a) .& m = x .& m.
Proof. intros _ E. by rewrite Z.land_lor_distr_l, E, Z.lor_0_r. Qed.

Lemma land_keep x a m : a .& m = m → (x .& a) .& m = x .& m.
Proof. intros E. by rewrite <- Z.land_assoc, E. Qed.

Lemma unstatus_alt b b' :
  unstatus (set_nStatus 0 b') = unstatus (set_nStatus 0 b) → nStatus b' .& BLOCK_HAVE_DATA = nStatus b .& BLOCK_HAVE_DATA →
  unstatus b' = unstatus b.
Proof.
  destruct b, b'. unfold unstatus. cbn. intros E1 ->. injection E1 as -> -> -> -> -> -> -> -> -> -> -> -> -> -> -> -> ->. done.
Qed.

(** Connecting a block changes no more than its status, and not what makes it good. *)
Lemma connect_marks_spec G nPos b :
  ∃ b', connect_marks G nPos b = Some b' ∧ unstatus b' = unstatus b ∧ failed b' = failed b ∧ level b ≤ level b'.
Proof.
  unfold connect_marks. case_decide; [by exists b|]. unfold IsValid. change (validity_ok BLOCK_VALID_SCRIPTS) with true.
  cbn [negb]. assert (∀ x, ∃ y, (if negb (nStatus b .& BLOCK_FAILED_MASK =? 0) then Some false else Some x) = Some y) as Hv.
  { intros x. destruct (negb _); by eexists. }
  destruct (Hv (BLOCK_VALID_SCRIPTS <=? nStatus b .& BLOCK_VALID_MASK)) as [v ->]. cbn [mbind option_bind].
  destruct (_ || negb v); [|by exists b].
  set (b1 := if _ =? 0 then _ else b).
  assert (unstatus b1 = unstatus b ∧ failed b1 = failed b ∧ level b1 = level b) as (E1 & E2 & E3).
  { unfold b1. clear Hv. destruct (nStatus b .& BLOCK_HAVE_UNDO =? 0); [|by split_and!]. unfold failed, level. split_and!.
    - apply unstatus_alt; [by destruct b|]. by rewrite nStatus_set, land_or_other.
    - by rewrite nStatus_set, land_or_other.
    - by rewrite nStatus_set, land_or_other. }
  clearbody b1. unfold RaiseValidity. change (validity_ok BLOCK_VALID_SCRIPTS) with true. cbn [negb].
  rewrite <- E1, <- E2, <- E3.
  destruct (negb (nStatus b1 .& BLOCK_FAILED_MASK =? 0)); [by exists b1|].
  destruct (Z.ltb_spec (nStatus b1 .& BLOCK_VALID_MASK) BLOCK_VALID_SCRIPTS) as [Hlt|]; [|by exists b1].
  eexists. split; [done|]. cbn [fst]. unfold failed, level. split_and!.
  - apply unstatus_alt; [by destruct b1|]. by rewrite nStatus_set, land_or_other, land_keep.
  - by rewrite nStatus_set, land_or_other, land_keep.
  - rewrite nStatus_set, Z.land_lor_distr_l. change (BLOCK_VALID_SCRIPTS .& BLOCK_VALID_MASK) with BLOCK_VALID_SCRIPTS.
    rewrite <- Z.land_assoc. change (u32 (Z.lnot BLOCK_VALID_MASK) .& BLOCK_VALID_MASK) with 0. rewrite Z.land_0_r, Z.lor_0_l. lia.
Qed.

Section Best.
Context (G : uint256) (verdict : ptr → Verdict) (disconnects : ptr → bool).

Definition accepted (p : ptr) : Prop := ∃ nPos, verdict p = Connected nPos.

(** The block and all its ancestors have their data, are not marked as failed, and are
    acceptable. *)
Definition eligible (h : heap) (p : ptr) : Prop :=
  ∃ b, h !! p = Some b ∧ nChainTx b ≠ 0 ∧ Forall (λ x, good h x ∧ accepted x) (line h p).

(** The tree has one root and work that grows along it; the active chain is the line of
    an eligible tip. *)
Record node_ok (s : Tree) : Prop := {
  nd_tree : tree_ok s;
  nd_chain : chain_ok (index s) (chainActive s);
  nd_tip : ∃ t, atomicTip (chainActive s) = Some t ∧ eligible (index s) t;
  nd_root : ∀ p q b c, index s !! p = Some b → index s !! q = Some c → pprev b = None → pprev c = None → p = q;
  nd_work : ∀ p q b c, index s !! p = Some b → pprev b = Some q → index s !! q = Some c →
    uval (nChainWork c) < uval (nChainWork b) }.

(** Every eligible block that is not worse than [t] is a candidate. *)
Record above (t : ptr) (s : Tree) : Prop := {
  ab_candidate : t ∈ candidates s;
  ab_eligible : eligible (index s) t;
  ab_complete : ∀ q, eligible (index s) q → worse (index s) q t = false → q ∈ candidates s }.

Lemma eligible_line h p x : tree_wf h → linked h → eligible h p → x ∈ line h p → eligible h x.
Proof using Type.
  intros Hwf Hl (b & Hb & Htx & Hall) Hx. destruct (line_linked h p b x Hwf Hl Hb Htx Hx) as (a & Ha & Hta).
  exists a. split_and!; [done..|]. rewrite Forall_forall in Hall |- *. intros y Hy. apply Hall.
  by apply (line_trans h p x y); [|by eexists|..].
Qed.

Lemma eligible_restatus h h' p :
  restatus h h' → tree_wf h → (∀ x, x ∈ line h p → good h x → good h' x) → eligible h p → eligible h' p.
Proof using Type.
  intros Hr Hwf Hg (b & Hb & Htx & Hall). destruct (restatus_lookup h h' p b Hr Hb) as (b' & Hb' & E).
  destruct (unstatus_fields _ _ E) as (_ & _ & _ & _ & Et & _). exists b'. split_and!; [done|congruence|].
  rewrite <- (line_restatus h h' Hr p p eq_refl). rewrite Forall_forall in Hall |- *. intros x Hx.
  destruct (Hall x Hx). split; [by apply Hg|done].
Qed.

(** Under the invariant the walk to the active chain is as good as the walk to the root. *)
Lemma usable_line s p :
  node_ok s → is_Some (index s !! p) → usable (index s) (chainActive s) p ↔ Forall (good (index s)) (line (index s) p).
Proof using Type.
  intros [[Hwf _ Hl _ _] Hc (t & Ht & Hel) _ _] [b Hb]. revert p b Hb.
  apply (tree_induction (index s) (λ p b, usable (index s) (chainActive s) p ↔ Forall (good (index s)) (line (index s) p)) Hwf).
  intros p b Hb IH. unfold usable. rewrite (branch_cons _ _ p b) by done. destruct (Contains (index s) (chainActive s) p) eqn:Ec.
  { split; [|by constructor]. intros _. apply (Contains_line _ _ t p Hwf Hc Ht) in Ec.
    destruct (eligible_line (index s) t p Hwf Hl Hel Ec) as (? & _ & _ & Hall).
    eapply Forall_impl; [exact Hall|]. by intros ? [? _]. }
  rewrite (line_cons _ p b) by done. rewrite !Forall_cons. destruct (pprev b) as [q|] eqn:Eq; [|done].
  destruct (tree_parent _ p b q Hwf Hb Eq) as (c & Hq & Hh). pose proof (IH q c eq_refl Hq Hh) as E. unfold usable in E. by rewrite E.
Qed.

(** Changing statuses keeps the invariant as long as the tip stays eligible. *)
Lemma node_ok_restatus s s' :
  node_ok s → restatus (index s) (index s') → chainActive s' = chainActive s → candidates s' ⊆ candidates s →
  (∀ t, atomicTip (chainActive s) = Some t → eligible (index s) t → eligible (index s') t) → node_ok s'.
Proof using Type.
  intros [Htree Hc (t & Ht & Hel) Hroot Hwork] Hr Hch Hsub Hel'.
  assert (∀ p b', index s' !! p = Some b' → ∃ b, index s !! p = Some b ∧ unstatus b = unstatus b') as Hback.
  { intros p b' Hp. symmetry in Hr. destruct (restatus_lookup _ _ p b' Hr Hp) as (b & Hb & E). by exists b. }
  split.
  - destruct Htree as [Hwf Hk Hl Hd Hcand]. split.
    + by apply (tree_wf_restatus (index s)).
    + by apply (keys_wf_restatus (index s)).
    + by apply (linked_restatus (index s)).
    + by apply (has_data_restatus (index s)).
    + intros p Hp. destruct (Hcand p (Hsub p Hp)) as (b & Hb & Htx). destruct (restatus_lookup _ _ p b Hr Hb) as (b' & Hb' & E).
      destruct (unstatus_fields _ _ E) as (_ & _ & _ & _ & Et & _). exists b'. split; [done|congruence].
  - rewrite Hch. by apply (chain_ok_same (index s)); [apply restatus_same|].
  - rewrite Hch. exists t. split; [done|]. by apply Hel'.
  - intros p q b' c' Hp Hq Eb Ec. destruct (Hback p b' Hp) as (b & Hb & E1), (Hback q c' Hq) as (c & Hc' & E2).
    destruct (unstatus_fields _ _ E1) as (F1 & _), (unstatus_fields _ _ E2) as (F2 & _).
    apply (Hroot p q b c); congruence.
  - intros p q b' c' Hp Hq Hq'. destruct (Hback p b' Hp) as (b & Hb & E1), (Hback q c' Hq') as (c & Hc' & E2).
    destruct (unstatus_fields _ _ E1) as (F1 & _ & W1 & _), (unstatus_fields _ _ E2) as (F2 & _ & W2 & _).
    rewrite <- W1, <- W2. apply (Hwork p q); congruence.
Qed.

(** Candidates that are dropped without being eligible do not matter. *)
Lemma above_transfer t s s' :
  above t s → restatus (index s) (index s') → (∀ q, eligible (index s') q ↔ eligible (index s) q) →
  (∀ q, q ∈ candidates s → eligible (index s) q → q ∈ candidates s') → above t s'.
Proof using Type.
  intros [Hc He Hall] Hr Heq Hkeep. split.
  - by apply Hkeep.
  - by apply Heq.
  - intros q Hq Hw. apply Heq in Hq. apply Hkeep; [|done]. apply Hall; [done|].
    by rewrite (worse_restatus _ _ Hr q q eq_refl t t eq_refl).
Qed.

(** The search for the best chain keeps both. *)
Lemma narrowed_eligible s s' :
  node_ok s → narrowed s s' → node_ok s' ∧ (∀ q, eligible (index s') q ↔ eligible (index s) q).
Proof using Type.
  intros Hok [Hch Hr Hsub Hact _ _ _ _ Hus _]. pose proof (nd_tree s Hok) as Htree.
  assert (node_ok s') as Hok'.
  { apply (node_ok_restatus s); [done..|]. intros t Ht Hel. apply (eligible_restatus (index s)); [done|apply Htree| |done].
    intros x Hx Hg. unfold good. rewrite Hact; [exact Hg|].
    apply (Contains_line _ _ t); [apply Htree|apply Hok|done|done]. }
  split; [done|]. intros q.
  assert (∀ b, index s !! q = Some b → Forall (good (index s')) (line (index s') q) ↔ Forall (good (index s)) (line (index s) q)) as Hg.
  { intros b Hb. destruct (restatus_lookup _ _ q b Hr Hb) as (b' & Hb' & _).
    rewrite <- !usable_line by (done || by eexists). apply Hus. by eexists. }
  unfold eligible. setoid_rewrite Forall_and. rewrite <- (line_restatus _ _ Hr q q eq_refl) in Hg |- *. split.
  - intros (b' & Hb' & Htx & Hall & Hacc). pose proof Hr as Hr'. symmetry in Hr'. destruct (restatus_lookup _ _ q b' Hr' Hb') as (b & Hb & E).
    destruct (unstatus_fields _ _ E) as (_ & _ & _ & _ & Et & _). exists b. split_and!; [done|congruence|by apply (Hg b)|done].
  - intros (b & Hb & Htx & Hall & Hacc). destruct (restatus_lookup _ _ q b Hr Hb) as (b' & Hb' & E).
    destruct (unstatus_fields _ _ E) as (_ & _ & _ & _ & Et & _). exists b'. split_and!; [done|congruence|by apply (Hg b)|done].
Qed.

Lemma eligible_usable s p : node_ok s → eligible (index s) p → usable (index s) (chainActive s) p.
Proof using Type.
  intros Hok (b & Hb & _ & Hall). apply usable_line; [done|by eexists|]. eapply Forall_impl; [exact Hall|]. by intros ? [? _].
Qed.

Lemma FindMostWorkChain_above t s :
  node_ok s → above t s →
  ∃ m s', FindMostWorkChain s = Some (Some m, s') ∧ node_ok s' ∧ above t s' ∧ narrowed s s' ∧
    (∀ q, eligible (index s') q ↔ eligible (index s) q) ∧ found (Some m) s'.
Proof using Type.
  intros Hok Hab. destruct (FindMostWorkChain_loop_spec (size (candidates s)) s (nd_tree s Hok) ltac:(done)) as (r & s' & E & Hn & Hf).
  destruct (narrowed_eligible s s' Hok Hn) as [Hok' Heq]. pose proof Hn as [Hch Hr Hsub _ _ _ _ _ _ Hkeep].
  assert (above t s') as Hab'.
  { apply (above_transfer t s); [done..|]. intros q Hq He. apply Hkeep; [done|]. by apply eligible_usable. }
  destruct r as [m|]; [by exists m, s'|]. cbn [found] in Hf. destruct Hab' as [Ht _ _]. rewrite Hf in Ht. by apply elem_of_empty in Ht.
Qed.

(** When the best candidate is the tip, it is the best eligible block. *)
Lemma found_tip_best t s m :
  node_ok s → above t s → found (Some m) s → ∀ q, eligible (index s) q → q ≠ m → worse (index s) q m = true.
Proof using Type.
  intros Hok [Htc Hte Hall] (Hm & Hu & Hmax) q Hq Hne. destruct (worse (index s) q t) eqn:E.
  - destruct (decide (t = m)) as [->|Htm]; [done|]. apply (worse_trans _ (ok_keys s (nd_tree s Hok)) q t m); [done|]. by apply Hmax.
  - apply Hmax; [|done]. by apply Hall.
Qed.

(** ** One step *)

(** What every operation keeps: the blocks, which of them are eligible, the failure
    marks that are set, and the blocks that wait for a parent.  A block is marked only
    for an ancestor that was, or that breaks a rule. *)
Record kept (s s' : Tree) : Prop := {
  kept_restatus : restatus (index s) (index s');
  kept_eligible : ∀ q, eligible (index s') q ↔ eligible (index s) q;
  kept_less : less_failed (index s) (index s');
  kept_marks : ∀ x, marked (index s') x → ∃ y, y ∈ line (index s) x ∧ (marked (index s) y ∨ ¬ accepted y);
  kept_map : mapBlockIndex s' = mapBlockIndex s;
  kept_unlinked : mapBlocksUnlinked s' = mapBlocksUnlinked s }.

Lemma kept_same s s' :
  tree_wf (index s) → index s' = index s → mapBlockIndex s' = mapBlockIndex s → mapBlocksUnlinked s' = mapBlocksUnlinked s → kept s s'.
Proof using Type.
  intros Hwf E Em Eu. split; rewrite ?E; try done; [apply less_failed_refl|]. intros x (b & Hb & Hf). exists x.
  split; [by apply (line_self _ x b)|left; by exists b].
Qed.

Lemma kept_refl s : node_ok s → kept s s.
Proof using Type. intros Hok. apply kept_same; [apply Hok|done..]. Qed.

Lemma kept_trans s1 s2 s3 : tree_wf (index s1) → kept s1 s2 → kept s2 s3 → kept s1 s3.
Proof using Type.
  intros Hwf [r1 e1 g1 k1 m1 u1] [r2 e2 g2 k2 m2 u2].
  split; [by rewrite r1| |by apply (less_failed_trans _ (index s2))| |by rewrite m2|by rewrite u2].
  - intros q. by rewrite e2.
  - intros x Hx. destruct (k2 x Hx) as (y & Hy & Hm). rewrite <- (line_restatus _ _ r1 x x eq_refl) in Hy.
    destruct (branch_in_heap _ _ x y Hy) as [Hsx _].
    destruct Hm as [Hm|Hm]; [|by exists y; split; [|right]]. destruct (k1 y Hm) as (z & Hz & Hmz).
    exists z. split; [|done]. by apply (line_trans _ x y).
Qed.

Lemma narrowed_kept s s' :
  node_ok s → narrowed s s' → (∀ q, eligible (index s') q ↔ eligible (index s) q) → kept s s'.
Proof using Type.
  intros Hok Hn He. split; [apply Hn|done|apply Hn| |apply Hn..]. intros x Hx.
  destruct (narrowed_marks _ _ Hn x Hx) as (y & Hy & Hm). exists y. split; [|by left].
  destruct Hm as (b & Hb & _). destruct Hy as [->|Hy]; [apply (line_self _ x b); [apply Hok|done]|].
  by apply (branch_line _ (chainActive s)); [apply Hok|].
Qed.

Lemma kept_good s s' q : kept s s' → good (index s') q → good (index s) q.
Proof using Type. intros [Hr _ Hl _ _ _]. by apply less_failed_good. Qed.

(** Connecting a block moves the tip. *)
Lemma node_ok_chain s c t :
  node_ok s → chain_ok (index s) c → atomicTip c = Some t → eligible (index s) t → node_ok (with_chain c s).
Proof using Type.
  intros [[] Hc Htip Hroot Hwork] Hc' Ht He. split; simpl; [by split|done| |done..]. by exists t.
Qed.

Lemma with_chain_above c t s : above t s → above t (with_chain c s).
Proof using Type. by intros []. Qed.

Lemma disconnect_loop_spec fuel f s t b bf :
  (∀ p, disconnects p = true) → node_ok s → atomicTip (chainActive s) = Some t → index s !! t = Some b →
  index s !! f = Some bf → f ∈ line (index s) t → nHeight b - nHeight bf ≤ Z.of_nat fuel →
  ∃ c, disconnect_loop disconnects fuel (Some f) s = Some (true, with_chain c s) ∧ node_ok (with_chain c s) ∧ atomicTip c = Some f.
Proof using Type.
  intros Hd. revert s t b. induction fuel as [|fuel IH]; intros s t b Hok Ht Hb Hbf Hf Hh;
    pose proof (ok_tree s (nd_tree s Hok)) as Hwf; cbn [disconnect_loop];
    rewrite (Tip_ok (index s)), Ht by (done || apply Hok);
    (destruct (decide (f = t)) as [->|Hne];
      [rewrite decide_True by done; exists (chainActive s); replace (with_chain (chainActive s) s) with s by (by destruct s); done|]);
    rewrite decide_False by congruence.
  - pose proof (branch_heights (index s) _ t b f bf Hwf Hb Hf Hbf Hne). lia.
  - unfold DisconnectTip, UpdateTip. rewrite (Tip_ok (index s)), Ht by (done || apply Hok). cbn [mbind option_bind].
    rewrite Hd. cbn [negb]. rewrite Hb. cbn [mbind option_bind].
    rewrite (line_cons _ t b) in Hf by done. apply elem_of_cons in Hf as [?|Hf]; [done|].
    destruct (Hwf t b Hb) as [_ He]. unfold entry_wf in He. destruct (pprev b) as [q|] eqn:Eq; [|by apply elem_of_nil in Hf].
    destruct He as (c & Hq & Hhc & _). destruct (SetTip_ok (index s) (chainActive s) q c Hwf (nd_chain s Hok) Hq) as (c' & -> & Hc' & Hat).
    cbn [mbind option_bind].
    assert (node_ok (with_chain c' s)) as Hok'.
    { apply (node_ok_chain s c' q); [done..|]. destruct (nd_tip s Hok) as (t' & Ht' & Hel). rewrite Ht in Ht'. injection Ht' as <-.
      apply (eligible_line _ t); [done|apply Hok|done|]. rewrite (line_cons _ t b), Eq by done. right. by apply (line_self _ q c). }
    destruct (IH (with_chain c' s) q c Hok' Hat Hq Hbf Hf ltac:(lia)) as (c2 & -> & Hok2 & Hat2). by exists c2.
Qed.

Lemma InvalidChainFound_spec p s :
  node_ok s → is_Some (index s !! p) → ∃ v, InvalidChainFound p s = Some (with_bestInvalid v s).
Proof using Type.
  intros Hok [b Hb]. unfold InvalidChainFound. rewrite Hb. cbn [mbind option_bind].
  destruct (nd_tip s Hok) as (t & Ht & _). rewrite (Tip_ok (index s)), Ht by apply Hok. cbn [mbind option_bind].
  destruct (match _ ≫= _ with Some _ => _ | None => _ end); [by eexists|]. exists (pindexBestInvalid s). by destruct s.
Qed.

Lemma with_bestInvalid_keeps v t s :
  (node_ok s → node_ok (with_bestInvalid v s)) ∧ (above t s → above t (with_bestInvalid v s)) ∧
  (node_ok s → kept s (with_bestInvalid v s)).
Proof using Type. split_and!; [by intros [[]]|by intros []|]. intros Hok. apply kept_same; [apply Hok|done..]. Qed.

(** A block that breaks a rule is marked and is no candidate any more. *)
Lemma InvalidBlockFound_spec t p x b s :
  node_ok s → above t s → atomicTip (chainActive s) = Some p → index s !! x = Some b → x ∉ line (index s) p → good (index s) x →
  ¬ accepted x →
  ∃ s', InvalidBlockFound false x s = Some s' ∧ node_ok s' ∧ above t s' ∧ kept s s' ∧ ¬ good (index s') x.
Proof using Type.
  intros Hok Hab Hp Hx Hoff Hgood Hrej. unfold InvalidBlockFound. rewrite Hx. cbn [mbind option_bind].
  set (s1 := with_candidates _ _).
  assert (restatus (index s) (index s1)) as Hr by (by apply (restatus_update _ x b); [|apply unstatus_set_bits]).
  assert (less_failed (index s) (index s1)) as Hless by (by apply less_failed_set_bits).
  pose proof (ok_tree s (nd_tree s Hok)) as Hwf.
  assert (∀ q, eligible (index s1) q ↔ eligible (index s) q) as Heq.
  { intros q. split.
    - intros He. assert (tree_wf (index s1)) as Hwf1 by (by apply (tree_wf_restatus (index s))).
      apply (eligible_restatus (index s1)); [by symmetry|done| |done].
      intros y _ Hy. by apply (less_failed_good _ (index s1)).
    - intros He. apply (eligible_restatus (index s)); [done..| |done]. intros y Hy Hg. unfold good.
      unfold s1. simpl. rewrite lookup_insert_ne; [done|]. intros <-. destruct He as (_ & _ & _ & Hall).
      rewrite Forall_forall in Hall. by destruct (Hall x Hy). }
  assert (node_ok s1) as Hok1.
  { apply (node_ok_restatus s); [done..|simpl; set_solver|]. intros q _ He. by apply Heq. }
  assert (above t s1) as Hab1.
  { apply (above_transfer t s); [done..|]. intros q Hq (bq & Hbq & _ & Hall). simpl. apply elem_of_difference. split; [done|].
    intros ->%elem_of_singleton. rewrite Forall_forall in Hall. by destruct (Hall x (line_self _ x b Hwf Hx)). }
  destruct (InvalidChainFound_spec x s1 Hok1) as [v ->]; [simpl; rewrite lookup_insert_eq; by eexists|].
  destruct (with_bestInvalid_keeps v t s1) as (K1 & K2 & K3). exists (with_bestInvalid v s1). split_and!; [done|auto|auto| |].
  - apply (kept_trans s s1); [done| |auto]. split; [done..| |done|done]. intros y (b' & Hb' & Hf). exists y. simpl in Hb'.
    destruct (decide (x = y)) as [<-|Hne]; [split; [by apply (line_self _ x b)|by right]|].
    rewrite lookup_insert_ne in Hb' by done. split; [by apply (line_self _ y b')|left; by exists b'].
  - intros Hg. destruct (Hg _ (lookup_insert_eq _ _ _)) as [Hf _]. unfold failed in Hf. rewrite nStatus_set in Hf.
    apply negb_false_iff, Z.eqb_eq in Hf. rewrite Z.land_lor_distr_l in Hf. by apply Z.lor_eq_0_iff in Hf as [_ ?].
Qed.

(** A block that connects becomes the tip. *)
Lemma connect_spec t p x b n s :
  node_ok s → above t s → atomicTip (chainActive s) = Some p → index s !! x = Some b → pprev b = Some p → nChainTx b ≠ 0 →
  good (index s) x → verdict x = Connected n →
  ∃ s', ConnectTip G verdict x s = Some (Connected n, s') ∧ node_ok s' ∧ above t s' ∧ kept s s' ∧
    atomicTip (chainActive s') = Some x ∧ candidates s' = candidates s ∧ (∀ y, good (index s) y → good (index s') y).
Proof using Type.
  intros Hok Hab Hp Hx Eb Htx Hgood Hv. pose proof (ok_tree s (nd_tree s Hok)) as Hwf.
  unfold ConnectTip. rewrite Hx. cbn [mbind option_bind]. rewrite (Tip_ok (index s)), Hp by (done || apply Hok).
  rewrite bool_decide_eq_true_2 by done. cbn [negb]. rewrite Hv.
  destruct (connect_marks_spec G n b) as (b' & -> & E1 & E2 & E4). cbn [mbind option_bind].
  set (s1 := with_index _ s). unfold UpdateTip.
  assert (restatus (index s) (index s1)) as Hr.
  { by apply (restatus_update _ x b). }
  pose proof (unstatus_fields _ _ E1) as (_ & _ & _ & _ & _ & _ & _ & E3).
  assert (∀ y, good (index s1) y ↔ good (index s) y) as Hg.
  { intros y. unfold good. simpl. destruct (decide (x = y)) as [<-|Hne]; [|by rewrite lookup_insert_ne].
    rewrite lookup_insert_eq, Hx. split; intros H ? [= <-]; [rewrite <- E2, <- E3|rewrite E2, E3]; by apply H. }
  assert (∀ q, eligible (index s1) q ↔ eligible (index s) q) as Heq.
  { intros q. split; [|intros He; apply (eligible_restatus (index s)); [done..| |done]; intros y _; by apply Hg].
    intros He. apply (eligible_restatus (index s1)); [by symmetry|by apply (tree_wf_restatus (index s))| |done].
    intros y _. by apply Hg. }
  assert (node_ok s1) as Hok1 by (apply (node_ok_restatus s); [done..|by intros; apply Heq]).
  assert (eligible (index s) x) as Hel.
  { exists b. split_and!; [done..|]. rewrite (line_cons _ x b), Eb by done. constructor; [split; [done|by eexists]|].
    destruct (nd_tip s Hok) as (p' & Hp' & Hel). rewrite Hp in Hp'. injection Hp' as <-. by destruct Hel as (_ & _ & _ & ?). }
  destruct (SetTip_ok (index s1) (chainActive s1) x b' (ok_tree s1 (nd_tree s1 Hok1)) (nd_chain s1 Hok1)) as (c & -> & Hc & Hat);
    [simpl; by rewrite lookup_insert_eq|]. cbn [mbind option_bind].
  exists (with_chain c s1). split_and!; [done| | | |done|done|intros y; by apply Hg].
  - apply (node_ok_chain s1 c x); [done..|]. by apply Heq.
  - apply with_chain_above, (above_transfer t s); done.
  - split; [done..| | |done|done].
    + intros y c' Hy Hf. simpl in Hy. destruct (decide (x = y)) as [<-|Hne].
      * rewrite lookup_insert_eq in Hy. apply (inj Some) in Hy. subst c'. exists b. split_and!; [done|congruence|done].
      * rewrite lookup_insert_ne in Hy by done. by exists c'.
    + intros y (c' & Hy & Hf). simpl in Hy. exists y. destruct (decide (x = y)) as [<-|Hne].
      * rewrite lookup_insert_eq in Hy. apply (inj Some) in Hy. subst c'.
        split; [by apply (line_self _ x b)|left; exists b; split; [done|congruence]].
      * rewrite lookup_insert_ne in Hy by done. split; [by apply (line_self _ y c')|left; by exists c'].
Qed.

Lemma line_work s m x a b :
  node_ok s → index s !! m = Some b → index s !! x = Some a → x ∈ line (index s) m → x ≠ m →
  uval (nChainWork a) < uval (nChainWork b).
Proof using Type.
  intros Hok Hm Hx. pose proof (ok_tree s (nd_tree s Hok)) as Hwf. revert m b Hm.
  apply (tree_induction (index s) (λ m b, x ∈ line (index s) m → x ≠ m → uval (nChainWork a) < uval (nChainWork b)) Hwf).
  intros m b Hm IH. rewrite (line_cons _ m b), elem_of_cons by done. intros [?|Hin] Hne; [done|].
  destruct (pprev b) as [q|] eqn:Eq; [|by apply elem_of_nil in Hin]. destruct (tree_parent _ m b q Hwf Hm Eq) as (c & Hq & Hc).
  pose proof (nd_work s Hok m q b c Hm Eq Hq).
  destruct (decide (x = q)) as [->|Hxq]; [congruence|]. specialize (IH q c eq_refl Hq Hc Hin Hxq). lia.
Qed.

(** No block is worse than one of its ancestors. *)
Lemma line_not_worse s m x :
  node_ok s → is_Some (index s !! m) → x ∈ line (index s) m → worse (index s) m x = false.
Proof using Type.
  intros Hok [b Hm] Hin. pose proof (nd_tree s Hok) as [Hwf Hk _ _ _].
  destruct (decide (x = m)) as [->|Hne]; [by apply worse_irrefl|].
  destruct (line_known _ m x Hwf ltac:(by eexists) Hin) as [a Hx]. apply not_true_iff_false.
  rewrite (worse_spec _ Hk m x b a) by done. unfold rank_lt. pose proof (line_work s m x a b Hok Hm Hx Hin Hne). lia.
Qed.

Lemma Prune_spec t x m s :
  node_ok s → above t s → atomicTip (chainActive s) = Some x → m ∈ candidates s → x ∈ line (index s) m →
  ∃ c, PruneBlockIndexCandidates s = Some (with_candidates c s) ∧ node_ok (with_candidates c s) ∧
    (∃ t', above t' (with_candidates c s)) ∧ m ∈ c.
Proof using Type.
  intros Hok Hab Hx Hm Hin. pose proof (nd_tree s Hok) as [Hwf Hk _ _ Hcand]. unfold PruneBlockIndexCandidates.
  rewrite (Tip_ok (index s)), Hx by (done || apply Hok).
  set (c := filter _ _). destruct (Hcand m Hm) as (bm & Hbm & _).
  assert (m ∈ c) as Hmc by (apply elem_of_filter; split; [apply line_not_worse; [done|by eexists|done]|done]).
  rewrite decide_False by (intros E; rewrite E in Hmc; by apply elem_of_empty in Hmc).
  exists c. split; [done|].
  assert (node_ok (with_candidates c s)) as Hok'.
  { apply (node_ok_restatus s); [done..| |done]. simpl. intros y Hy. by apply elem_of_filter in Hy as [_ ?]. }
  split_and!; [done| |done]. destruct (nd_tip s Hok) as (x' & Hx' & Hel). rewrite Hx in Hx'. injection Hx' as <-.
  destruct Hab as [Htc Hte Hall]. destruct (worse (index s) t x) eqn:Ew.
  - exists x. split; simpl; [|done|].
    + apply elem_of_filter. split; [by apply worse_irrefl|]. apply Hall; [done|]. apply not_true_iff_false. intros E.
      pose proof (worse_trans _ Hk _ _ _ Ew E) as F. by rewrite worse_irrefl in F.
    + intros q Hq Hw. apply elem_of_filter. split; [done|]. apply Hall; [done|]. apply not_true_iff_false. intros E.
      by rewrite (worse_trans _ Hk _ _ _ E Ew) in Hw.
  - exists t. split; simpl; [by apply elem_of_filter|done|].
    intros q Hq Hw. apply elem_of_filter. split; [|by apply Hall]. apply not_true_iff_false. intros E.
    destruct (decide (t = x)) as [->|Hne]; [congruence|].
    destruct Hel as (bx & Hbx & _), (Hcand t Htc) as (bt & Hbt & _).
    rewrite (worse_trans _ Hk q x t E) in Hw; [done|]. apply worse_total; [done|by eexists|by eexists|done|done].
Qed.

(** [l] leads up from [p], one block on the other. *)
Fixpoint rising (h : heap) (p : ptr) (l : list ptr) : Prop :=
  match l with
  | [] => True
  | x :: l => (∃ b, h !! x = Some b ∧ pprev b = Some p) ∧ rising h x l
  end.

Definition end_of (p : ptr) (l : list ptr) : ptr := foldl (λ _ y, y) p l.

Lemma rising_restatus h h' p l : restatus h h' → rising h p l → rising h' p l.
Proof using Type.
  intros Hr. revert p. induction l as [|x l IH]; intros p; [done|]. intros [(b & Hb & Eb) Hl]. split; [|by apply IH].
  destruct (restatus_lookup h h' x b Hr Hb) as (b' & Hb' & E). exists b'. split; [done|].
  by destruct (unstatus_fields _ _ E) as (<- & _).
Qed.

Lemma to_connect_spec h n f fuel x b acc :
  tree_wf h → h !! x = Some b → 0 ≤ n → nHeight b - n ≤ Z.of_nat fuel → ancestor h x n = Some f → rising h x acc →
  ∃ l, to_connect h fuel n (Some x) acc = Some l ∧ rising h f l ∧ (∀ y, y ∈ l → y ∈ acc ∨ y ∈ line h x) ∧
    end_of f l = end_of x acc.
Proof using Type.
  intros Hwf. revert x b acc. induction fuel as [|fuel IH]; intros x b acc Hx Hn Hf Ha Hacc; cbn [to_connect]; rewrite Hx; cbn [mbind option_bind];
    destruct (Hwf x b Hx) as [H0 He]; (destruct (Z.eqb_spec (nHeight b) n) as [E|E];
    [subst n; rewrite (ancestor_self h x b) in Ha by done; injection Ha as <-; exists acc; split_and!; [done..|by left|done]|]).
  { exfalso. unfold ancestor in Ha. rewrite Hx in Ha. destruct (Z.ltb_spec (nHeight b) n); [by rewrite orb_true_r in Ha|lia]. }
  unfold ancestor in Ha. rewrite Hx in Ha. destruct (Z.ltb_spec (nHeight b) n) as [|Hge]; [by rewrite orb_true_r in Ha|].
  assert (ancestor h x n = Some f) as Ha' by (unfold ancestor; rewrite Hx; destruct (Z.ltb_spec (nHeight b) n); [lia|done]).
  unfold entry_wf in He. destruct (pprev b) as [q|] eqn:Eq; [|lia]. destruct He as (c & Hq & Hc & _).
  rewrite (ancestor_parent h x b q) in Ha' by (done || lia).
  destruct (IH q c (x :: acc) Hq Hn ltac:(lia) Ha') as (l & -> & Hl & Hin & Elast); [split; [by exists b|done]|].
  exists l. split_and!; [done..| |].
  - intros y Hy. destruct (Hin y Hy) as [[->|?]%elem_of_cons|Hy']; [right; by apply (line_self h x b)|by left|].
    right. rewrite (line_cons h x b), Eq by done. by right.
  - by rewrite Elast.
Qed.

(** How the blocks up to [top] were connected, for a best candidate [m] and an old tip [o]. *)
Definition outcome (pr : Progress) (o m top : ptr) (s s' : Tree) : Prop :=
  match pr with
  | Going => atomicTip (chainActive s') = Some top ∧ m ∈ candidates s' ∧ ∀ y, good (index s) y → good (index s') y
  | Better => ∃ x b ob, atomicTip (chainActive s') = Some x ∧ index s' !! x = Some b ∧ index s' !! o = Some ob ∧
                uval (nChainWork ob) < uval (nChainWork b)
  | Invalid => ∃ x, is_Some (index s !! x) ∧ good (index s) x ∧ ¬ good (index s') x
  | Broken => False
  end.

(** The system never fails and no block is corrupted. *)
Definition sane : Prop := (∀ p, verdict p = Rejected false ∨ accepted p) ∧ ∀ p, disconnects p = true.

Lemma outcome_kept pr o m top s s1 s' :
  kept s s1 → (∀ y, good (index s) y → good (index s1) y) → outcome pr o m top s1 s' → outcome pr o m top s s'.
Proof using Type.
  intros Hk Hg. destruct pr; cbn [outcome]; [|done| |done].
  - intros (? & ? & Hg1). split_and!; [done..|auto].
  - intros (x & [b Hx] & Hgx & Hn). exists x. split_and!; [|by apply (kept_good s s1)|done].
    pose proof (kept_restatus _ _ Hk) as Hr. symmetry in Hr. destruct (restatus_lookup _ _ x b Hr Hx) as (b' & ? & _). by eexists.
Qed.

Lemma known_kept s s' x : kept s s' → is_Some (index s !! x) → is_Some (index s' !! x).
Proof using Type. intros Hk [b Hx]. destruct (restatus_lookup _ _ x b (kept_restatus _ _ Hk) Hx) as (b' & ? & _). by eexists. Qed.

(** A rejected block ends the loop with a block that is no longer good. *)
Lemma reject_spec t p k x b l o s :
  node_ok s → above t s → atomicTip (chainActive s) = Some p → is_Some (index s !! k) → index s !! x = Some b →
  pprev b = Some p → good (index s) x → verdict x = Rejected false →
  ∃ s', connect_blocks G verdict o (Some k) (x :: l) s = Some (Invalid, s') ∧ node_ok s' ∧ above t s' ∧ kept s s' ∧ ¬ good (index s') x.
Proof using Type.
  intros Hok Hab Hp Hk Hx Eb Hg Hv. pose proof (ok_tree s (nd_tree s Hok)) as Hwf.
  cbn [connect_blocks]. unfold ConnectTip. rewrite Hx. cbn [mbind option_bind].
  rewrite (Tip_ok (index s)), Hp by (done || apply Hok). rewrite bool_decide_eq_true_2 by done. cbn [negb]. rewrite Hv.
  destruct (InvalidBlockFound_spec t p x b s) as (s1 & -> & Hok1 & Hab1 & Hk1 & Hng); [done..| |done| |].
  { intros Hin. destruct (tree_parent _ x b p Hwf Hx Eb) as (c & Hc & Hh).
    destruct (decide (x = p)) as [->|Hne]; [rewrite Hx in Hc; injection Hc as <-; lia|].
    pose proof (branch_heights _ _ p c x b Hwf Hc Hin Hx Hne). lia. }
  { intros [n Hn]. congruence. }
  cbn [mbind option_bind]. destruct (InvalidChainFound_spec k s1 Hok1 (known_kept s s1 k Hk1 Hk)) as [v ->].
  cbn [mbind option_bind]. destruct (with_bestInvalid_keeps v t s1) as (K1 & K2 & K3). exists (with_bestInvalid v s1).
  split_and!; [done|auto|auto| |done]. apply (kept_trans s s1); auto.
Qed.

Lemma connect_blocks_spec o k m l s p t :
  sane → node_ok s → above t s → atomicTip (chainActive s) = Some p → is_Some (index s !! o) → is_Some (index s !! k) →
  m ∈ candidates s → rising (index s) p l → (∀ x, x ∈ l → x ∈ line (index s) m ∧ good (index s) x) →
  ∃ pr s' t', connect_blocks G verdict (Some o) (Some k) l s = Some (pr, s') ∧ node_ok s' ∧ above t' s' ∧ kept s s' ∧
    outcome pr o m (end_of p l) s s'.
Proof using Type.
  intros [Hsane Hd]. revert s p t. induction l as [|x l IH]; intros s p t Hok Hab Hp Ho Hk Hm Hl Hin.
  { exists Going, s, t. split_and!; [done|done|done|by apply kept_refl|by split_and!]. }
  destruct Hl as [(b & Hx & Eb) Hl]. destruct (Hin x ltac:(by left)) as [Hxm Hgx].
  destruct (Hsane x) as [Hv|[n Hv]].
  { destruct (reject_spec t p k x b l (Some o) s) as (s' & -> & Hok' & Hab' & Hk' & Hng); [done..|].
    exists Invalid, s', t. split_and!; [done..|]. exists x. split_and!; [by eexists|done..]. }
  pose proof (nd_tree s Hok) as [Hwf Hkeys Hlink _ Hcand]. destruct (Hcand m Hm) as (bm & Hbm & Htm).
  destruct (line_linked _ m bm x Hwf Hlink Hbm Htm Hxm) as (b' & Hb' & Htx). rewrite Hx in Hb'. injection Hb' as <-.
  destruct (connect_spec t p x b n s) as (s1 & Ec & Hok1 & Hab1 & Hk1 & Hx1 & Hcand1 & Hg1); [done..|].
  cbn [connect_blocks]. rewrite Ec. cbn [mbind option_bind].
  destruct (Prune_spec t x m s1) as (c & -> & Hok2 & (t2 & Hab2) & Hm2); [done..|by rewrite Hcand1| |].
  { by rewrite <- (line_restatus _ _ (kept_restatus _ _ Hk1) m m eq_refl). }
  cbn [mbind option_bind]. set (s2 := with_candidates c s1) in *.
  assert (kept s s2) as Hk2 by (destruct Hk1; by split). assert (∀ y, good (index s) y → good (index s2) y) as Hg2 by done.
  rewrite (Tip_ok (index s2)) by apply Hok2. change (chainActive s2) with (chainActive s1). rewrite Hx1. cbn [mbind option_bind].
  destruct (known_kept s s2 x Hk2 ltac:(by eexists)) as [b2 Hb2], (known_kept s s2 o Hk2 Ho) as [ob Hob].
  rewrite Hb2, Hob. cbn [mbind option_bind].
  pose proof (ok_keys s2 (nd_tree s2 Hok2)) as Hkeys2. destruct (Hkeys2 x b2 Hb2), (Hkeys2 o ob Hob).
  rewrite op_gt_spec by done. destruct (Z.ltb_spec (uval (nChainWork ob)) (uval (nChainWork b2))).
  { exists Better, s2, t2. split_and!; [done..|]. by exists x, b2, ob. }
  destruct (IH s2 x t2) as (pr & s' & t' & E & Hok' & Hab' & Hk' & Hout); [done..|by eexists|by apply (known_kept s)|done| | |].
  - by apply (rising_restatus (index s)); [apply Hk2|].
  - intros y Hy. destruct (Hin y ltac:(by right)) as [Hy1 Hy2].
    by rewrite <- (line_restatus _ _ (kept_restatus _ _ Hk2) m m eq_refl); auto.
  - exists pr, s', t'. split_and!; [done..|apply (kept_trans s s2); [apply Hok|done..]|]. by apply (outcome_kept _ _ _ _ s s2).
Qed.

(** All the blocks up to the best candidate. *)
Lemma connect_loop_spec o m bm fuel n s p bp t :
  sane → node_ok s → above t s → atomicTip (chainActive s) = Some p → is_Some (index s !! o) → index s !! m = Some bm →
  index s !! p = Some bp → nHeight bp = n → m ∈ candidates s → p ∈ line (index s) m → Forall (good (index s)) (line (index s) m) →
  nHeight bm - n ≤ Z.of_nat fuel →
  ∃ pr s' t', connect_loop G verdict fuel (Some o) m (nHeight bm) n s = Some (pr, s') ∧ node_ok s' ∧ above t' s' ∧ kept s s' ∧
    outcome pr o m m s s'.
Proof using Type.
  intros Hsane. revert n s p bp bm t. induction fuel as [|fuel IH]; intros n s p bp bm t Hok Hab Hp Ho Hbm Hbp Hn Hm Hpm Hgood Hf;
    pose proof (ok_tree s (nd_tree s Hok)) as Hwf; destruct (Hwf p bp Hbp) as [H0 _];
    cbn [connect_loop]; (destruct (Z.eqb_spec n (nHeight bm)) as [E|E]).
  - exists Going, s, t. split_and!; [done..|by apply kept_refl|]. split_and!; [|done|auto].
    destruct (decide (p = m)) as [->|Hne]; [done|]. pose proof (branch_heights _ _ m bm p bp Hwf Hbm Hpm Hbp Hne). lia.
  - destruct (decide (p = m)) as [->|Hne]; [congruence|]. pose proof (branch_heights _ _ m bm p bp Hwf Hbm Hpm Hbp Hne). lia.
  - exists Going, s, t. split_and!; [done..|by apply kept_refl|]. split_and!; [|done|auto].
    destruct (decide (p = m)) as [->|Hne]; [done|]. pose proof (branch_heights _ _ m bm p bp Hwf Hbm Hpm Hbp Hne). lia.
  - assert (n < nHeight bm) as Hlt.
    { destruct (decide (p = m)) as [->|Hne]; [congruence|]. pose proof (branch_heights _ _ m bm p bp Hwf Hbm Hpm Hbp Hne). lia. }
    set (target := Z.min (n + 32) (nHeight bm)).
    destruct (ancestor_exists _ m bm target Hwf Hbm ltac:(lia)) as (x & bx & Hax & Hx & Hhx).
    rewrite GetAncestor_spec, Hax by done.
    assert (x ∈ line (index s) m) as Hxm by (apply (elem_of_line _ m bm x bx); [done..|by rewrite Hhx]).
    assert (ancestor (index s) x n = Some p) as Hap.
    { rewrite (ancestor_trans _ m bm x target n) by (done || lia). subst n. by apply (elem_of_line _ m bm p bp). }
    destruct (to_connect_spec (index s) n p (Z.to_nat (target - n)) x bx [] Hwf Hx ltac:(lia) ltac:(lia) Hap I) as (l & -> & Hl & Hin & Hend).
    cbn [mbind option_bind].
    assert (∃ k, head l = Some k ∧ is_Some (index s !! k)) as (k & -> & Hk).
    { destruct l as [|k l]; [|exists k; split; [done|]; destruct Hl as [(b & Hb & _) _]; by eexists].
      simpl in Hend. subst x. rewrite Hx in Hbp. injection Hbp as <-. lia. }
    destruct (connect_blocks_spec o k m l s p t) as (pr & s1 & t1 & -> & Hok1 & Hab1 & Hk1 & Hout); [done..| |].
    { intros y Hy. destruct (Hin y Hy) as [?%elem_of_nil|Hy']; [done|].
      assert (y ∈ line (index s) m) as Hym by (by apply (line_trans _ m x); [|by eexists|..]).
      rewrite Forall_forall in Hgood. split; [done|by apply Hgood]. }
    cbn [mbind option_bind]. rewrite Hend in Hout. change (end_of x []) with x in Hout.
    destruct pr; [|by exists Better, s1, t1|by exists Invalid, s1, t1|done].
    destruct Hout as (Htip1 & Hm1 & Hg1).
    destruct (restatus_lookup _ _ m bm (kept_restatus _ _ Hk1) Hbm) as (bm1 & Hbm1 & Ebm),
      (restatus_lookup _ _ x bx (kept_restatus _ _ Hk1) Hx) as (bx1 & Hbx1 & Ebx).
    destruct (unstatus_fields _ _ Ebm) as (_ & Hhm & _), (unstatus_fields _ _ Ebx) as (_ & Hhx1 & _). rewrite Hhm.
    destruct (IH target s1 x bx1 bm1 t1) as (pr & s2 & t2 & E2 & Hok2 & Hab2 & Hk2 & Hout2); [done..|by apply (known_kept s)|done|done|lia|done| | |lia|].
    + by rewrite <- (line_restatus _ _ (kept_restatus _ _ Hk1) m m eq_refl).
    + rewrite <- (line_restatus _ _ (kept_restatus _ _ Hk1) m m eq_refl). eapply Forall_impl; [exact Hgood|auto].
    + exists pr, s2, t2. split_and!; [done..|apply (kept_trans s s1); [apply Hok|done..]|]. by apply (outcome_kept _ _ _ _ s s1).
Qed.

(** [FindFork] finds a block: all blocks have the same root. *)
Lemma fork_exists s o m bm :
  node_ok s → atomicTip (chainActive s) = Some o → index s !! m = Some bm →
  ∃ f bf, FindFork (index s) (chainActive s) (Some m) = Some (Some f) ∧ index s !! f = Some bf ∧
    f ∈ line (index s) m ∧ f ∈ line (index s) o.
Proof using Type.
  intros Hok Ho Hm. pose proof (ok_tree s (nd_tree s Hok)) as Hwf. pose proof (nd_chain s Hok) as Hc.
  destruct (nd_tip s Hok) as (o' & Ho' & (bo & Hbo & _)). rewrite Ho in Ho'. injection Ho' as <-.
  destruct (FindFork_last_common (index s) (chainActive s) m bm Hwf Hc Hm) as (r & -> & Hr).
  destruct r as [f|]; cbn [is_fork] in Hr.
  - destruct Hr as (bf & Hf & [Ha Hh] & _). exists f, bf. split_and!; [done..| |].
    + by apply (elem_of_line _ m bm f bf).
    + apply (elem_of_line _ o bo f bf); [done..|]. by rewrite (at_height_ok (index s)), Ho in Hh.
  - exfalso. destruct (Hwf m bm Hm) as [H0m _], (Hwf o bo Hbo) as [H0o _].
    destruct (ancestor_exists _ m bm 0 Hwf Hm ltac:(lia)) as (x & bx & Hax & Hx & Hhx).
    destruct (ancestor_exists _ o bo 0 Hwf Hbo ltac:(lia)) as (y & by_ & Hay & Hy & Hhy).
    assert (∀ z bz, index s !! z = Some bz → nHeight bz = 0 → pprev bz = None) as Hroot.
    { intros z bz Hz Hh. destruct (pprev bz) as [q|] eqn:Eq; [|done]. destruct (tree_parent _ z bz q Hwf Hz Eq) as (c & Hcq & Hhc).
      destruct (Hwf q c Hcq). lia. }
    assert (x = y) as <- by (apply (nd_root s Hok x y bx by_); [done..|by apply (Hroot x)|by apply (Hroot y)]).
    apply (Hr 0 x). split; [done|]. by rewrite (at_height_ok (index s)), Ho.
Qed.

Lemma ActivateBestChainStep_spec s t o m :
  sane → node_ok s → above t s → atomicTip (chainActive s) = Some o → found (Some m) s →
  ∃ pr s' t', ActivateBestChainStep G verdict disconnects m s = Some (true, s') ∧ node_ok s' ∧ above t' s' ∧ kept s s' ∧
    outcome pr o m m s s'.
Proof using Type.
  intros Hsane Hok Hab Ho (Hm & Hu & _). pose proof (nd_tree s Hok) as [Hwf _ _ _ Hcand].
  destruct (Hcand m Hm) as (bm & Hbm & Htm). destruct (nd_tip s Hok) as (o' & Ho' & (bo & Hbo & _)). rewrite Ho in Ho'. injection Ho' as <-.
  destruct (fork_exists s o m bm Hok Ho Hbm) as (f & bf & Ef & Hbf & Hfm & Hfo).
  unfold ActivateBestChainStep. rewrite Ef. cbn [mbind option_bind]. rewrite (Tip_ok (index s)), Ho by (done || apply Hok).
  destruct (disconnect_loop_spec (length (vChain (chainActive s))) f s o bo bf) as (c & -> & Hok1 & Hc1); [apply Hsane|done..| |].
  { pose proof (nd_chain s Hok) as Hc. unfold chain_ok in Hc. rewrite Ho in Hc. destruct Hc as [_ ->].
    rewrite (path_length _ o bo) by done. destruct (Hwf o bo Hbo), (Hwf f bf Hbf). lia. }
  cbn [mbind option_bind negb]. change (index (with_chain c s)) with (index s). rewrite Hbm, Hbf. cbn [mbind option_bind fmap option_map].
  destruct (connect_loop_spec o m bm (S (Z.to_nat (nHeight bm))) (nHeight bf) (with_chain c s) f bf t) as (pr & s' & t' & E & Hok' & Hab' & Hk' & Hout);
    [done|done|by apply with_chain_above|done|by eexists|done|done|done|done|done| | |].
  - by apply usable_line in Hu; [|done|by eexists].
  - destruct (Hwf f bf Hbf), (Hwf m bm Hbm). lia.
  - cbn [fmap option_fmap option_map mbind option_bind]. rewrite E. cbn [mbind option_bind]. exists pr, s', t'.
    split_and!; [by destruct pr|done..|by destruct Hk'|done].
Qed.

(** ** Progress *)

Definition goods (s : Tree) : gset ptr := filter (good (index s)) (dom (index s)).

Definition work_of (s : Tree) (p : ptr) : Z := match index s !! p with Some b => uval (nChainWork b) | None => 0 end.

Definition heavier (s : Tree) : gset ptr :=
  match atomicTip (chainActive s) with
  | None => ∅
  | Some t => filter (λ p, work_of s t < work_of s p) (dom (index s))
  end.

Lemma restatus_dom s s' : restatus (index s) (index s') → dom (index s') = dom (index s).
Proof using Type.
  intros Hr. apply set_eq. intros p. rewrite !elem_of_dom. split; intros [b Hb].
  - symmetry in Hr. destruct (restatus_lookup _ _ p b Hr Hb) as (b' & ? & _). by eexists.
  - destruct (restatus_lookup _ _ p b Hr Hb) as (b' & ? & _). by eexists.
Qed.

Lemma restatus_work s s' p : restatus (index s) (index s') → work_of s' p = work_of s p.
Proof using Type.
  intros Hr. unfold work_of. destruct (index s !! p) as [b|] eqn:Hb.
  - destruct (restatus_lookup _ _ p b Hr Hb) as (b' & -> & E). by destruct (unstatus_fields _ _ E) as (_ & _ & -> & _).
  - by rewrite (restatus_None _ _ p Hr Hb).
Qed.

Lemma goods_kept s s' : kept s s' → (size (goods s') ≤ size (goods s))%nat.
Proof using Type.
  intros Hk. pose proof (λ q, kept_good s s' q Hk) as Hg. pose proof (kept_restatus _ _ Hk) as Hr. apply subseteq_size. unfold goods. rewrite (restatus_dom s s' Hr). intros x.
  rewrite !elem_of_filter. intros [? ?]. auto.
Qed.

Lemma goods_invalid s s' o m top :
  kept s s' → outcome Invalid o m top s s' → (size (goods s') < size (goods s))%nat.
Proof using Type.
  intros Hk (x & Hx & Hgx & Hn). pose proof (λ q, kept_good s s' q Hk) as Hg. pose proof (kept_restatus _ _ Hk) as Hr. apply subset_size. unfold goods. rewrite (restatus_dom s s' Hr). split.
  - intros y. rewrite !elem_of_filter. intros [? ?]. auto.
  - intros Hsub. assert (x ∈ filter (good (index s')) (dom (index s))) as Hin.
    { apply Hsub, elem_of_filter. split; [done|]. by apply elem_of_dom. }
    by apply elem_of_filter in Hin as [? _].
Qed.

Lemma heavier_bound s : (size (heavier s) ≤ size (index s))%nat.
Proof using Type.
  rewrite <- size_dom. apply subseteq_size. unfold heavier. destruct (atomicTip _); [|set_solver].
  intros x. by intros [_ ?]%elem_of_filter.
Qed.

Lemma heavier_better s s' o m top :
  restatus (index s) (index s') → atomicTip (chainActive s) = Some o → outcome Better o m top s s' →
  (size (heavier s') < size (heavier s))%nat.
Proof using Type.
  intros Hr Ho (x & b & ob & Hx & Hb & Hob & Hlt). apply subset_size. unfold heavier. rewrite Ho, Hx, (restatus_dom s s' Hr).
  assert (work_of s o < work_of s x) as Hw.
  { rewrite <- !(restatus_work s s') by done. unfold work_of. by rewrite Hb, Hob. }
  split.
  - intros y. rewrite !elem_of_filter, !(restatus_work s s') by done. intros [? ?]. split; [lia|done].
  - intros Hsub. assert (x ∈ filter (λ p, work_of s' x < work_of s' p) (dom (index s))) as Hin.
    { apply Hsub, elem_of_filter. split; [done|]. rewrite <- (restatus_dom s s' Hr). apply elem_of_dom. by eexists. }
    apply elem_of_filter in Hin as [? _]. lia.
Qed.

(** The loop has found the best eligible block and the invariant holds for it. *)
Record settled (m : ptr) (s s' : Tree) : Prop := {
  settled_node : node_ok s';
  settled_kept : kept s s';
  settled_tip : atomicTip (chainActive s') = Some m;
  settled_above : above m s';
  settled_best : ∀ q, eligible (index s') q → q ≠ m → worse (index s') q m = true }.

Lemma settled_from s s1 s' t m :
  tree_wf (index s) → kept s s1 → kept s1 s' → node_ok s1 → node_ok s' → above t s' → atomicTip (chainActive s') = Some m →
  (∀ q, eligible (index s1) q → q ≠ m → worse (index s1) q m = true) → settled m s s'.
Proof using Type.
  intros Hwf Hk1 Hk2 Hok1 Hok' Hab Htip Hbest.
  assert (∀ q, eligible (index s') q → q ≠ m → worse (index s') q m = true) as Hbest'.
  { intros q Hq Hne. rewrite <- (worse_restatus _ _ (kept_restatus _ _ Hk2) q q eq_refl m m eq_refl).
    apply Hbest; [|done]. by apply Hk2. }
  assert (eligible (index s') m) as Hem by (destruct (nd_tip s' Hok') as (m' & Hm' & ?); congruence).
  pose proof (ok_keys s' (nd_tree s' Hok')) as Hkeys.
  assert (m ∈ candidates s') as Hm.
  { destruct Hab as [Htc Hte Hall]. apply Hall; [done|]. destruct (decide (t = m)) as [->|Hne]; [by apply worse_irrefl|].
    apply not_true_iff_false. intros E. pose proof (worse_trans _ Hkeys _ _ _ (Hbest' t Hte Hne) E) as F.
    by rewrite worse_irrefl in F. }
  split; [done|by apply (kept_trans s s1)|done| |done]. split; [done..|]. intros q Hq Hw.
  destruct (decide (q = m)) as [->|Hne]; [done|]. by rewrite Hbest' in Hw.
Qed.

Lemma ActivateBestChain_loop_spec fuel s t :
  sane → node_ok s → above t s →
  (size (goods s) * S (size (index s)) + size (heavier s) < fuel)%nat →
  ∃ s' m, ActivateBestChain_loop G verdict disconnects fuel s = Some (true, s') ∧ settled m s s'.
Proof using Type.
  intros Hsane. revert s t. induction fuel as [|fuel IH]; intros s t Hok Hab Hf; [lia|].
  cbn [ActivateBestChain_loop].
  destruct (FindMostWorkChain_above t s Hok Hab) as (m & s1 & -> & Hok1 & Hab1 & Hn & Heq & Hfound). cbn [mbind option_bind].
  assert (kept s s1) as Hk1 by (by apply narrowed_kept).
  destruct (nd_tip s1 Hok1) as (o & Ho & _). pose proof (Tip_ok _ _ (ok_tree s1 (nd_tree s1 Hok1)) (nd_chain s1 Hok1)) as Etip.
  rewrite Etip, Ho. destruct (decide (m = o)) as [->|Hne].
  { rewrite decide_True by done. exists s1, o. split; [done|].
    apply (settled_from s s1 s1 t); [apply Hok|done|by apply kept_refl|done..|]. by apply (found_tip_best t). }
  rewrite decide_False by congruence.
  destruct (ActivateBestChainStep_spec s1 t o m Hsane Hok1 Hab1 Ho Hfound) as (pr & s2 & t2 & -> & Hok2 & Hab2 & Hk2 & Hout).
  cbn [mbind option_bind negb]. rewrite (Tip_ok _ _ (ok_tree s2 (nd_tree s2 Hok2)) (nd_chain s2 Hok2)).
  destruct (decide (Some m = atomicTip (chainActive s2))) as [E2|Hne2].
  { exists s2, m. split; [done|]. apply (settled_from s s1 s2 t2); [apply Hok|done..|]. by apply (found_tip_best t). }
  assert (heavier s1 = heavier s) as Eh.
  { unfold heavier. rewrite (narrowed_chain _ _ Hn), (restatus_dom s s1) by apply Hk1. destruct (atomicTip (chainActive s)) as [z|]; [|done].
    apply set_eq. intros y. by rewrite !elem_of_filter, !(restatus_work s s1) by apply Hk1. }
  assert (∀ a b, kept a b → size (index b) = size (index a)) as Hsize.
  { intros a b [Hr _ _ _ _ _]. by rewrite <- !(size_dom (D := gset ptr)), (restatus_dom a b Hr). }
  destruct (IH s2 t2 Hok2 Hab2) as (s' & m' & -> & Hs').
  - pose proof (goods_kept s s1 Hk1). pose proof (goods_kept s1 s2 Hk2). pose proof (heavier_bound s2).
    rewrite (Hsize s1 s2 Hk2), (Hsize s s1 Hk1) in *. destruct pr; [destruct Hout as (? & _); congruence| | |done].
    + pose proof (heavier_better s1 s2 o m m (kept_restatus _ _ Hk2) Ho Hout). rewrite Eh in *. nia.
    + pose proof (goods_invalid s1 s2 o m m Hk2 Hout). nia.
  - exists s', m'. split; [done|]. destruct Hs' as [? Hk3 ? ? ?]. split; [done| |done..].
    apply (kept_trans s s1); [apply Hok|done|]. apply (kept_trans s1 s2); [apply Hok1|done..].
Qed.

Lemma ActivateBestChain_spec s t :
  sane → node_ok s → above t s → ∃ s' m, ActivateBestChain G verdict disconnects s = Some (true, s') ∧ settled m s s'.
Proof using Type.
  intros Hsane Hok Hab. apply (ActivateBestChain_loop_spec _ s t); [done..|]. pose proof (heavier_bound s).
  assert (size (goods s) ≤ size (index s))%nat; [|nia].
  rewrite <- size_dom. apply subseteq_size. intros x. by intros [_ ?]%elem_of_filter.
Qed.

End Best.

(** ** The theorems *)

(** When no system failure interferes, [ActivateBestChain] ends and returns true.  The tip
    is then the best block of the whole tree that is eligible (its transactions and its
    ancestors' have arrived, none is marked as failed, and every one of them is
    accepted): the most work, then the lower hash.  No eligible block is lost to the
    blocks marked on the way, and the invariant that every eligible block not worse than
    the tip is a candidate holds again. *)
Theorem ActivateBestChain_best G verdict disconnects s t :
  sane verdict disconnects → node_ok verdict s → atomicTip (chainActive s) = Some t → above verdict t s →
  ∃ s' m, ActivateBestChain G verdict disconnects s = Some (true, s') ∧
    node_ok verdict s' ∧ above verdict m s' ∧ Tip (chainActive s') = Some m ∧
    (∀ q, eligible verdict (index s') q ↔ eligible verdict (index s) q) ∧
    eligible verdict (index s) m ∧ ∀ q, eligible verdict (index s) q → q ≠ m → worse (index s) q m = true.
Proof.
  intros Hsane Hok _ Hab. destruct (ActivateBestChain_spec G verdict disconnects s t Hsane Hok Hab) as (s' & m & E & [Hok' Hk Htip Hab' Hbest]).
  exists s', m. split_and!; [done..| |apply Hk| |].
  - by rewrite (Tip_ok (index s')); [|apply Hok'..].
  - apply (kept_eligible _ _ _ Hk), Hab'.
  - intros q Hq Hne. rewrite (worse_restatus _ _ (kept_restatus _ _ _ Hk) q q eq_refl m m eq_refl). apply Hbest; [|done]. by apply Hk.
Qed.

(** The work and hash of the eligible blocks of a node. *)
Definition knows (verdict : ptr → Verdict) (s : Tree) (work hash : uint256) : Prop :=
  ∃ p b, index s !! p = Some b ∧ eligible verdict (index s) p ∧ nChainWork b = work ∧ phashBlock b = hash.

(** C9: Two nodes that know the same acceptable blocks end on the same tip, whatever tips they
    had and in whatever order and at whatever addresses the blocks arrived: the
    comparison of tips breaks ties of work by hash. *)
Theorem nodes_converge G verdict1 disconnects1 s1 t1 verdict2 disconnects2 s2 t2 :
  sane verdict1 disconnects1 → node_ok verdict1 s1 → above verdict1 t1 s1 →
  sane verdict2 disconnects2 → node_ok verdict2 s2 → above verdict2 t2 s2 →
  (∀ work hash, knows verdict1 s1 work hash ↔ knows verdict2 s2 work hash) →
  ∃ s1' s2' m1 m2 hash,
    ActivateBestChain G verdict1 disconnects1 s1 = Some (true, s1') ∧
    ActivateBestChain G verdict2 disconnects2 s2 = Some (true, s2') ∧
    Tip (chainActive s1') = Some m1 ∧ Tip (chainActive s2') = Some m2 ∧
    phashBlock <$> index s1' !! m1 = Some hash ∧ phashBlock <$> index s2' !! m2 = Some hash.
Proof.
  intros Hs1 Hok1 Hab1 Hs2 Hok2 Hab2 Hsame.
  destruct (ActivateBestChain_spec G verdict1 disconnects1 s1 t1 Hs1 Hok1 Hab1) as (s1' & m1 & E1 & [Hok1' [Hr1 He1 _ _ _ _] Htip1 [_ Hel1 _] Hb1]).
  destruct (ActivateBestChain_spec G verdict2 disconnects2 s2 t2 Hs2 Hok2 Hab2) as (s2' & m2 & E2 & [Hok2' [Hr2 He2 _ _ _ _] Htip2 [_ Hel2 _] Hb2]).
  assert (∀ work hash, knows verdict1 s1' work hash ↔ knows verdict2 s2' work hash) as Hsame'.
  { assert (∀ v s s' work hash, restatus (index s) (index s') → (∀ q, eligible v (index s') q ↔ eligible v (index s) q) →
      knows v s work hash → knows v s' work hash) as Hk.
    { intros v s s' work hash Hr He (p & b & Hp & Hel & Hw & Hh). destruct (restatus_lookup _ _ p b Hr Hp) as (b' & Hb' & E).
      destruct (unstatus_fields _ _ E) as (_ & _ & W & F & _). exists p, b'. split_and!; [done|by apply He|congruence..]. }
    intros work hash. specialize (Hsame work hash). split; intros H.
    - apply (Hk verdict2 s2); [done..|]. apply Hsame. apply (Hk verdict1 s1'); [by symmetry|by intros q|done].
    - apply (Hk verdict1 s1); [done..|]. apply Hsame. apply (Hk verdict2 s2'); [by symmetry|by intros q|done]. }
  assert (∃ b, index s1' !! m1 = Some b) as [a1 Ha1] by (destruct Hel1 as (b & Hb & _); by exists b).
  assert (∃ b, index s2' !! m2 = Some b) as [a2 Ha2] by (destruct Hel2 as (b & Hb & _); by exists b).
  assert (phashBlock a1 = phashBlock a2) as Ehash.
  { pose proof (ok_keys _ (nd_tree _ _ Hok1')) as K1. pose proof (ok_keys _ (nd_tree _ _ Hok2')) as K2.
    destruct (proj1 (Hsame' (nChainWork a1) (phashBlock a1))) as (p & bp & Hp & Hep & Wp & Fp); [by exists m1, a1|].
    destruct (proj2 (Hsame' (nChainWork a2) (phashBlock a2))) as (q & bq & Hq & Heq & Wq & Fq); [by exists m2, a2|].
    destruct (decide (q = m1)) as [->|Hne1]; [congruence|]. destruct (decide (p = m2)) as [->|Hne2]; [congruence|].
    pose proof (Hb1 q Heq Hne1) as R1. pose proof (Hb2 p Hep Hne2) as R2.
    rewrite (worse_spec _ K1 q m1 bq a1) in R1 by done. rewrite (worse_spec _ K2 p m2 bp a2) in R2 by done.
    unfold rank_lt in *. rewrite Wp, Fp in R2. rewrite Wq, Fq in R1.
    apply (uval_inj W256); [apply (K1 m1 a1 Ha1)|apply (K2 m2 a2 Ha2)|lia]. }
  exists s1', s2', m1, m2, (phashBlock a1). rewrite Ha1, Ha2.
  split_and!; [done..|by rewrite (Tip_ok (index s1')); [|apply Hok1'..]|by rewrite (Tip_ok (index s2')); [|apply Hok2'..]|done|simpl; congruence].
Qed.

(** ** Instances *)

(** The fourth block breaks a rule, the others do not. *)
Definition fork_verdict (p : ptr) : Verdict := if decide (p = 4%positive) then Rejected false else Connected 0.

Lemma fork_sane : sane fork_verdict (λ _, true).
Proof. split; [|done]. intros p. unfold fork_verdict, accepted. case_decide; [by left|right; by eexists]. Qed.

Lemma fork_eligible p :
  p = 1%positive ∨ p = 2%positive ∨ p = 3%positive → eligible fork_verdict (fork_heap 13 11 11) p.
Proof.
  assert (∀ l, Forall (λ x, x = 1%positive ∨ x = 2%positive ∨ x = 3%positive) l →
    Forall (λ x, good (fork_heap 13 11 11) x ∧ accepted fork_verdict x) l) as Hl.
  { intros l Hl. eapply Forall_impl; [exact Hl|]. intros x Hx. split.
    - intros b Hb. fork_cases Hb; naive_solver.
    - unfold accepted, fork_verdict. rewrite decide_False by naive_solver. by eexists. }
  intros [->|[->| ->]]; (eexists; split_and!; [done|done|]; apply Hl; vm_compute; repeat constructor; naive_solver).
Qed.

Lemma fork_node_ok : node_ok fork_verdict (fork_tree 13 11 11).
Proof.
  split; simpl.
  - by apply fork_tree_ok.
  - by split; [eexists|vm_compute].
  - exists 2%positive. split; [done|]. apply fork_eligible. naive_solver.
  - intros p q b c Hp Hq. fork_cases Hp; fork_cases Hq; done.
  - intros p q b c Hp. fork_cases Hp; simpl; intros [= <-]; vm_compute; intros [= <-]; by vm_compute.
Qed.

Lemma fork_above : above fork_verdict 2%positive (fork_tree 13 11 11).
Proof.
  split; simpl.
  - set_solver.
  - apply fork_eligible. naive_solver.
  - intros q (b & Hb & _) Hw. fork_cases Hb; [by vm_compute in Hw|set_solver..].
Qed.

(** The tip moves from the second block to the third, of equal work and lower hash, and
    not to the fourth. *)
Lemma ActivateBestChain_best_witness :
  ∃ s', ActivateBestChain [] fork_verdict (λ _, true) (fork_tree 13 11 11) = Some (true, s') ∧
    Tip (chainActive s') = Some 3%positive ∧ eligible fork_verdict (fork_heap 13 11 11) 3%positive.
Proof.
  destruct (ActivateBestChain_best [] fork_verdict (λ _, true) (fork_tree 13 11 11) 2%positive fork_sane fork_node_ok eq_refl fork_above)
    as (s' & m & E & _ & _ & Ht & _ & He & _).
  assert (m = 3%positive) as ->.
  { assert ((λ r, Tip (chainActive (snd r))) <$> ActivateBestChain [] fork_verdict (λ _, true) (fork_tree 13 11 11) = Some (Some 3%positive)) as F
      by (by vm_compute).
    rewrite E in F. simpl in F. rewrite Ht in F. by injection F. }
  exists s'. split; [exact E|]. split; [exact Ht|exact He].
Defined.

(** Another node that saw the third block first. *)
Definition fork_tree2 : Tree := with_chain (MkChain [Some 1%positive; Some 3%positive] (Some 3%positive)) (fork_tree 13 11 11).

Lemma fork_node_ok2 : node_ok fork_verdict fork_tree2.
Proof.
  apply (node_ok_chain _ _ _ 3%positive); [apply fork_node_ok|by split; [eexists|vm_compute]|done|apply fork_eligible; naive_solver].
Qed.

Lemma nodes_converge_witness :
  ∃ s1' s2', ActivateBestChain [] fork_verdict (λ _, true) (fork_tree 13 11 11) = Some (true, s1') ∧
    ActivateBestChain [] fork_verdict (λ _, true) fork_tree2 = Some (true, s2') ∧
    is_Some (Tip (chainActive s1')) ∧ is_Some (Tip (chainActive s2')).
Proof.
  destruct (nodes_converge [] fork_verdict (λ _, true) (fork_tree 13 11 11) 2%positive fork_verdict (λ _, true) fork_tree2 2%positive
    fork_sane fork_node_ok fork_above fork_sane fork_node_ok2 (with_chain_above _ _ _ _ fork_above) (λ work hash, iff_refl _))
    as (s1' & s2' & m1 & m2 & hash & E1 & E2 & H1 & H2 & _).
  exists s1', s2'. split; [exact E1|]. split; [exact E2|]. split; [exists m1; exact H1|exists m2; exact H2].
Defined.
