(* ===== verification/BlockTree.v ===== *)
(** * Adding and marking blocks

    [src/src/main.cpp]: a header enters the tree ([AddToBlockIndex]), its transactions
    arrive ([ReceivedBlockTransactions]), in whatever order, and an operator marks a
    block or takes the mark back ([InvalidateBlock], [ReconsiderBlock]).  With
    [ActivateBestChain] of [ActivateChain] they are the operations on the block tree.

    The invariant of the tree is kept by every sequence of arrivals and activations; the
    last theorem says what the active chain is after such a sequence, without reference
    to candidates, counters or marks. *)

From stdpp Require Import gmap fin_maps.
From S2P Require Import Prelude Ints ArithUint256 Uint256 BlockIndex Params Pow Chain Sorting StakeModifier ChainSelect ActivateChain.

Local Open Scope Z_scope.

(** What the tree reads of a [CBlock]. *)
Record TreeBlock := MkTreeBlock {
  tb_hash : uint256;
  tb_nVersion : Z;
  tb_hashPrevBlock : uint256;
  tb_hashMerkleRoot : uint256;
  tb_nTime : Z;
  tb_nBits : Z;
  tb_nNonce : Z;
  tb_stake : bool;
  tb_vtx_size : Z
}.

(** [CBlockIndex(const CBlock&)], with the hash that [AddToBlockIndex] points it to; the
    accumulator checkpoint of versions 4 to 6 is not read by the tree. *)
Definition new_entry (block : TreeBlock) : CBlockIndex :=
  MkIndex (tb_hash block) None None 0 0 0 0 (base_uint_zero W256) 0 0 0 []
    (if tb_stake block then BLOCK_PROOF_OF_STAKE else 0)
    (tb_nVersion block) (tb_hashMerkleRoot block) (tb_nTime block) (tb_nBits block) (tb_nNonce block) 0.

Definition set_parent (q : ptr) (height : Z) (b : CBlockIndex) : CBlockIndex :=
  MkIndex (phashBlock b) (Some q) (pskip b) height (nFile b) (nDataPos b) (nUndoPos b) (nChainWork b) (nTx b) (nChainTx b)
    (nStatus b) (vStakeModifier b) (nFlags b) (nVersion b) (hashMerkleRoot b) (nTime b) (nBits b) (nNonce b) (nSequenceId b).

(** The fields that [ReceivedBlockTransactions] writes. *)
Definition set_data (tx chaintx file pos : Z) (b : CBlockIndex) : CBlockIndex :=
  MkIndex (phashBlock b) (pprev b) (pskip b) (nHeight b) file pos 0 (nChainWork b) tx chaintx
    (nStatus b .| BLOCK_HAVE_DATA) (vStakeModifier b) (nFlags b) (nVersion b) (hashMerkleRoot b) (nTime b) (nBits b) (nNonce b)
    (nSequenceId b).

Definition set_link (chaintx sequence : Z) (b : CBlockIndex) : CBlockIndex :=
  MkIndex (phashBlock b) (pprev b) (pskip b) (nHeight b) (nFile b) (nDataPos b) (nUndoPos b) (nChainWork b) (nTx b) chaintx
    (nStatus b) (vStakeModifier b) (nFlags b) (nVersion b) (hashMerkleRoot b) (nTime b) (nBits b) (nNonce b) sequence.

Definition with_map (m : gmap uint256 ptr) (s : Tree) : Tree :=
  MkTree (index s) m (candidates s) (mapBlocksUnlinked s) (chainActive s) (pindexBestInvalid s) (pindexBestHeader s) (nBlockSequenceId s).
Definition with_sequence (n : Z) (s : Tree) : Tree :=
  MkTree (index s) (mapBlockIndex s) (candidates s) (mapBlocksUnlinked s) (chainActive s) (pindexBestInvalid s) (pindexBestHeader s) n.

Section Operations.
Context {Sort : StdSort} (Hash : list Z → uint256) (fTest : bool).

(** ** New headers *)

(** [AddToBlockIndex]: the new entry is at an address not in use.  The solutions that
    wait for the block ([ProcessOrphanAdamSolutions]) are not part of the tree. *)
Definition AddToBlockIndex (block : TreeBlock) (s : Tree) : option (ptr * Tree) :=
  let hash := tb_hash block in
  match mapBlockIndex s !! hash with
  | Some p => Some (p, s)
  | None =>
      let p := base.fresh (dom (index s) : gset ptr) in
      let b := new_entry block in
      let h := <[p := b]> (index s) in
      let m := <[hash := p]> (mapBlockIndex s) in
      b ← match m !! tb_hashPrevBlock block with
          | None => Some b
          | Some q =>
              c ← h !! q;
              SetNewStakeModifier Hash fTest h m (BuildSkip h (set_parent q (nHeight c + 1) b))
          end;
      w0 ← match pprev b with
           | None => Some (base_uint_zero W256)
           | Some q => nChainWork <$> h !! q
           end;
      w ← GetBlockProof b;
      b ← fst <$> RaiseValidity BLOCK_VALID_TREE (set_nChainWork (add_assign W256 w0 w) b);
      valid ← IsValid BLOCK_VALID_TREE b;
      let s := with_map m (with_index (<[p := b]> (index s)) s) in
      let better := match pindexBestHeader s ≫= λ q, index s !! q with
                    | None => true
                    | Some i => op_lt W256 (nChainWork i) (nChainWork b)
                    end in
      Some (p, if better && (valid && negb (failed b)) then with_bestHeader (Some p) s else s)
  end.

(** ** Arriving transactions *)

(** [value_comp()(pindex, chainActive.Tip())], when there is a tip. *)
Definition worse_than_tip (s : Tree) (p : ptr) : bool :=
  match Tip (chainActive s) with
  | None => false
  | Some tip => worse (index s) p tip
  end.

(** The loop over the queue of blocks that can be linked now. *)
Fixpoint link_loop (fuel : nat) (queue : list ptr) (s : Tree) : option Tree :=
  match queue with
  | [] => Some s
  | p :: queue =>
      match fuel with
      | O => None
      | S fuel =>
          b ← index s !! p;
          n ← match pprev b with
              | None => Some 0
              | Some q => nChainTx <$> index s !! q
              end;
          let b := set_link (u32 (n + nTx b)) (nBlockSequenceId s) b in
          let s := with_sequence (u32 (nBlockSequenceId s + 1)) (with_index (<[p := b]> (index s)) s) in
          let s := if worse_than_tip s p then s else with_candidates (candidates s ∪ {[p]}) s in
          link_loop fuel (queue ++ (snd <$> filter (λ e, e.1 = p) (mapBlocksUnlinked s)))
            (with_unlinked (filter (λ e, e.1 ≠ p) (mapBlocksUnlinked s)) s)
      end
  end.

(** Every turn takes a block from the queue that was there or that waited for its parent. *)
Definition ReceivedBlockTransactions (block : TreeBlock) (p : ptr) (file pos : Z) (s : Tree) : option Tree :=
  b ← index s !! p;
  let b := if tb_stake block then SetProofOfStake b else b in
  b ← fst <$> RaiseValidity BLOCK_VALID_TRANSACTIONS (set_data (tb_vtx_size block) 0 file pos b);
  let s := with_index (<[p := b]> (index s)) s in
  n ← match pprev b with
      | None => Some None
      | Some q => c ← index s !! q; Some (Some (q, c))
      end;
  match n with
  | Some (q, c) =>
      if nChainTx c =? 0 then
        valid ← IsValid BLOCK_VALID_TREE c;
        Some (if (valid : bool) then with_unlinked (mapBlocksUnlinked s ++ [(q, p)]) s else s)
      else link_loop (S (length (mapBlocksUnlinked s))) [p] s
  | None => link_loop (S (length (mapBlocksUnlinked s))) [p] s
  end.

(** ** Marking by hand *)

Section Marking.
Context (disconnects : ptr → bool).

(** The loop of [InvalidateBlock]: the tip is marked and disconnected while the block is
    in the active chain. *)
Fixpoint invalidate_loop (fuel : nat) (p : ptr) (s : Tree) : option (bool * Tree) :=
  if negb (Contains (index s) (chainActive s) p) then Some (true, s)
  else
    match fuel with
    | O => None
    | S fuel =>
        w ← Tip (chainActive s);
        b ← index s !! w;
        let s := with_index (<[w := set_nStatus (nStatus b .| BLOCK_FAILED_CHILD) b]> (index s)) s in
        '(ok, s) ← DisconnectTip disconnects (with_candidates (candidates s ∖ {[w]}) s);
        if (ok : bool) then invalidate_loop fuel p s else Some (false, s)
    end.

(** [IsValid(BLOCK_VALID_TRANSACTIONS) && nChainTx]. *)
Definition can_be_candidate (b : CBlockIndex) : bool :=
  match IsValid BLOCK_VALID_TRANSACTIONS b with Some true => negb (nChainTx b =? 0) | _ => false end.

Definition header_ok (b : CBlockIndex) : bool :=
  match IsValid BLOCK_VALID_TREE b with Some true => negb (failed b) | _ => false end.

(** The loop that recalculates [pindexBestHeader]. *)
Definition best_header (h : heap) (tip : option ptr) (l : list ptr) : option ptr :=
  foldl (λ best q, match h !! q with
                   | Some b => if header_ok b && match best with None => true | Some p => worse h p q end then Some q else best
                   | None => best
                   end) tip l.

(** The loop over [mapBlockIndex] that adds candidates again. *)
Definition again (s : Tree) (tip : ptr) (l : list ptr) : list ptr :=
  filter (λ q, match index s !! q with
               | Some b => can_be_candidate b && negb (worse (index s) q tip)
               | None => false
               end = true) l.

(** [pindexBestHeader] is recalculated when it was on the marked chain. *)
Definition renew_header (tip : ptr) (l : list ptr) (s : Tree) : Tree :=
  match pindexBestHeader s ≫= λ q, index s !! q with
  | Some i => if header_ok i then s else with_bestHeader (best_header (index s) (Some tip) l) s
  | None => s
  end.

Definition InvalidateBlock (p : ptr) (s : Tree) : option (bool * Tree) :=
  b ← index s !! p;
  let s := with_index (<[p := set_nStatus (nStatus b .| BLOCK_FAILED_VALID) b]> (index s)) s in
  '(ok, s) ← invalidate_loop (length (vChain (chainActive s))) p (with_candidates (candidates s ∖ {[p]}) s);
  if negb ok then Some (false, s)
  else
    tip ← Tip (chainActive s);
    let blocks := (map_to_list (mapBlockIndex s)).*2 in
    s ← InvalidChainFound p (with_candidates (candidates s ∪ list_to_set (again s tip blocks)) s);
    Some (true, renew_header tip blocks s).

Definition clear_failed (b : CBlockIndex) : CBlockIndex := set_nStatus (nStatus b .& u32 (Z.lnot BLOCK_FAILED_MASK)) b.

(** The body of the first loop of [ReconsiderBlock], for one entry. *)
Definition reconsider_one (p : ptr) (height : Z) (tip : ptr) (s : Tree) (q : ptr) : Tree :=
  match index s !! q with
  | None => s
  | Some b =>
      if match IsValid BLOCK_VALID_TRANSACTIONS b with Some true => false | _ => true end &&
         bool_decide (GetAncestor (index s) q height = Some p)
      then
        let s := with_index (<[q := clear_failed b]> (index s)) s in
        let s := if can_be_candidate (clear_failed b) && worse (index s) tip q then with_candidates (candidates s ∪ {[q]}) s else s in
        if bool_decide (pindexBestInvalid s = Some q) then with_bestInvalid None s else s
      else s
  end.

(** The loop over the ancestors. *)
Fixpoint clear_ancestors (fuel : nat) (p : option ptr) (s : Tree) : option Tree :=
  match p with
  | None => Some s
  | Some p =>
      match fuel with
      | O => None
      | S fuel =>
          b ← index s !! p;
          clear_ancestors fuel (pprev b) (if failed b then with_index (<[p := clear_failed b]> (index s)) s else s)
      end
  end.

Definition ReconsiderBlock (p : ptr) (s : Tree) : option Tree :=
  b ← index s !! p;
  tip ← Tip (chainActive s);
  let s := foldl (reconsider_one p (nHeight b) tip) s (map_to_list (mapBlockIndex s)).*2 in
  clear_ancestors (S (Z.to_nat (nHeight b))) (Some p) s.

End Marking.
End Operations.

(** ** The invariant *)

Section Store.
Context (verdict : ptr → Verdict) (M : Z).

(** Counters are within 32 bits: at most [M] transactions in a block. *)
Definition counts_ok (b : CBlockIndex) : Prop :=
  0 ≤ nTx b ≤ M ∧ 0 ≤ nChainTx b ≤ M * (nHeight b + 1) ∧ M * (nHeight b + 1) < 2 ^ 32 ∧
  (missing b = false → 0 < nTx b) ∧ (failed b = false → BLOCK_VALID_TREE ≤ level b).

(** The block has its data and so have its ancestors. *)
Definition ready (h : heap) (p : ptr) : Prop :=
  ∃ b, h !! p = Some b ∧ missing b = false ∧ ∀ q, pprev b = Some q → ∃ c, h !! q = Some c ∧ nChainTx c ≠ 0.

(** The state of the tree while the blocks of [queue] are being linked: the node's
    invariant; every eligible block not worse than the tip is a candidate; a block with
    data but without all its ancestors' waits for its parent; and marks are set only for
    blocks that break a rule. *)
Record store_ok (queue : list ptr) (s : Tree) : Prop := {
  so_node : node_ok verdict s;
  so_above : ∃ t, atomicTip (chainActive s) = Some t ∧ above verdict t s;
  so_counts : ∀ p b, index s !! p = Some b → counts_ok b;
  so_queue : ∀ p, p ∈ queue → ready (index s) p;
  so_unlinked : ∀ q p, (q, p) ∈ mapBlocksUnlinked s →
    ∃ b c, index s !! p = Some b ∧ pprev b = Some q ∧ missing b = false ∧ index s !! q = Some c ∧ nChainTx c = 0;
  so_waiting : ∀ p b, index s !! p = Some b → missing b = false → nChainTx b = 0 →
    p ∈ queue ∨ ∃ q, pprev b = Some q ∧ (¬ marked (index s) q → (q, p) ∈ mapBlocksUnlinked s);
  so_marks : ∀ p, marked (index s) p → ∃ y, y ∈ line (index s) p ∧ ¬ accepted verdict y;
  so_map : ∀ hash p, mapBlockIndex s !! hash = Some p ↔ ∃ b, index s !! p = Some b ∧ phashBlock b = hash }.

(** A block whose ancestors all have their data and are acceptable. *)
Definition valid_chain (h : heap) (p : ptr) : Prop :=
  is_Some (h !! p) ∧ Forall (λ x, (∃ b, h !! x = Some b ∧ missing b = false) ∧ accepted verdict x) (line h p).

Lemma store_unmarked s queue p x :
  store_ok queue s → valid_chain (index s) p → x ∈ line (index s) p → ¬ marked (index s) x.
Proof using Type.
  intros Hok [Hp Hall] Hx Hm. destruct (so_marks _ _ Hok x Hm) as (y & Hy & Hna). rewrite Forall_forall in Hall.
  destruct (Hall y) as [_ ?]; [|done]. by apply (line_trans _ p x); [apply Hok|..].
Qed.

(** When the queue is empty every such block has been linked. *)
Lemma store_linked s p b :
  store_ok [] s → index s !! p = Some b → valid_chain (index s) p → nChainTx b ≠ 0.
Proof using Type.
  intros Hok Hp. pose proof (ok_tree _ (nd_tree _ _ (so_node _ _ Hok))) as Hwf. revert p b Hp.
  apply (tree_induction (index s) (λ p b, valid_chain (index s) p → nChainTx b ≠ 0) Hwf). intros p b Hp IH Hv E.
  pose proof Hv as [_ Hall]. rewrite (line_cons _ p b) in Hall by done. apply Forall_cons in Hall as [[(b' & Hb' & Hm) _] Hall].
  rewrite Hp in Hb'. injection Hb' as <-.
  destruct (so_waiting _ _ Hok p b Hp Hm E) as [?%elem_of_nil|(q & Eq & Hun)]; [done|]. rewrite Eq in Hall.
  destruct (tree_parent _ p b q Hwf Hp Eq) as (c & Hq & Hh).
  assert (valid_chain (index s) q) as Hvq by (by split; [eexists|]).
  destruct (so_unlinked _ _ Hok q p) as (? & c' & _ & _ & _ & Hc' & E0).
  { apply Hun. apply (store_unmarked s [] p); [done..|]. rewrite (line_cons _ p b), Eq by done. right. by apply (line_self _ q c). }
  rewrite Hq in Hc'. injection Hc' as <-. by apply (IH q c Eq Hq Hh Hvq).
Qed.

Lemma store_eligible s p : store_ok [] s → eligible verdict (index s) p ↔ valid_chain (index s) p.
Proof using Type.
  intros Hok. pose proof (ok_tree _ (nd_tree _ _ (so_node _ _ Hok))) as Hwf. split.
  - intros (b & Hb & Htx & Hall). split; [by eexists|]. rewrite Forall_forall in Hall |- *. intros x Hx.
    destruct (Hall x Hx) as [Hg Ha]. destruct (line_known _ p x Hwf ltac:(by eexists) Hx) as [bx Hbx].
    split; [|done]. exists bx. split; [done|]. by apply Hg.
  - intros Hv. pose proof Hv as [[b Hb] Hall]. exists b. split_and!; [done|by apply (store_linked s p)|].
    rewrite Forall_forall in Hall |- *. intros x Hx. destruct (Hall x Hx) as [(bx & Hbx & Hm) Ha]. split; [|done].
    intros b' Hb'. rewrite Hbx in Hb'. injection Hb' as <-. split; [|done]. apply not_true_iff_false. intros Hf.
    by apply (store_unmarked s [] p x Hok Hv Hx); exists bx.
Qed.

(** Moving the active chain keeps the invariant. *)
Lemma store_settled s s' m : store_ok [] s → settled verdict m s s' → store_ok [] s'.
Proof using Type.
  intros Hok [Hnode [Hr He Hless Hmarks Hmap Hun] Htip Hab _]. pose proof (ok_tree _ (nd_tree _ _ (so_node _ _ Hok))) as Hwf.
  assert (∀ p b', index s' !! p = Some b' → ∃ b, index s !! p = Some b ∧ unstatus b = unstatus b') as Hback.
  { intros p b' Hp. pose proof Hr as Hr'. symmetry in Hr'. destruct (restatus_lookup _ _ p b' Hr' Hp) as (b & Hb & E). by exists b. }
  split; [done|by exists m| | | | | |].
  - intros p b' Hp. destruct (Hback p b' Hp) as (b & Hb & E). destruct (so_counts _ _ Hok p b Hb) as (C1 & C2 & C3 & C4 & C5).
    destruct (unstatus_fields _ _ E) as (_ & Eh & _ & _ & Et & _ & En & Em). rewrite Eh, Et, En, Em in *. split_and!; [lia..|done|].
    intros Hf. destruct (Hless p b' Hp Hf) as (b2 & Hb2 & Hf2 & Hl). rewrite Hb in Hb2. injection Hb2 as <-. specialize (C5 Hf2). lia.
  - by intros p ?%elem_of_nil.
  - intros q p Hin. rewrite Hun in Hin. destruct (so_unlinked _ _ Hok q p Hin) as (b & c & Hb & Eb & Hm & Hc & E0).
    destruct (restatus_lookup _ _ p b Hr Hb) as (b' & Hb' & F1), (restatus_lookup _ _ q c Hr Hc) as (c' & Hc' & F2).
    destruct (unstatus_fields _ _ F1) as (G1 & _ & _ & _ & _ & _ & _ & G2), (unstatus_fields _ _ F2) as (_ & _ & _ & _ & G3 & _).
    exists b', c'. split_and!; congruence.
  - intros p b' Hp Hm Htx. destruct (Hback p b' Hp) as (b & Hb & E).
    destruct (unstatus_fields _ _ E) as (Ep & _ & _ & _ & Et & _ & _ & Em). right.
    destruct (so_waiting _ _ Hok p b Hb) as [?%elem_of_nil|(q & Eq & Hw)]; [congruence..|done|].
    exists q. split; [congruence|]. intros Hnm. rewrite Hun. apply Hw. intros (c & Hc & Hf). apply Hnm.
    destruct (restatus_lookup _ _ q c Hr Hc) as (c' & Hc' & _). exists c'. split; [done|]. apply not_false_iff_true. intros Hf'.
    destruct (Hless q c' Hc' Hf') as (c2 & Hc2 & Hf2 & _). congruence.
  - intros p Hm. rewrite <- (line_restatus _ _ Hr p p eq_refl). destruct (Hmarks p Hm) as (y & Hy & [Hmy|Hna]); [|by exists y].
    destruct (so_marks _ _ Hok y Hmy) as (z & Hz & Hna). exists z. split; [|done].
    destruct (branch_in_heap _ _ p y Hy) as [Hsp _]. by apply (line_trans _ p y).
  - intros hash p. rewrite Hmap, (so_map _ _ Hok). split.
    + intros (b & Hb & Eb). destruct (restatus_lookup _ _ p b Hr Hb) as (b' & Hb' & E). exists b'. split; [done|].
      destruct (unstatus_fields _ _ E) as (_ & _ & _ & F & _). congruence.
    + intros (b' & Hb' & Eb). destruct (Hback p b' Hb') as (b & Hb & E). exists b. split; [done|].
      destruct (unstatus_fields _ _ E) as (_ & _ & _ & F & _). congruence.
Qed.

(** ** Changing the counters and the data bit of one entry *)

Record entry_update (p : ptr) (b b' : CBlockIndex) (s s' : Tree) : Prop := {
  eu_old : index s !! p = Some b;
  eu_index : index s' = <[p := b']> (index s);
  eu_chain : chainActive s' = chainActive s;
  eu_map : mapBlockIndex s' = mapBlockIndex s;
  eu_skeleton : skeleton b' = skeleton b;
  eu_failed : failed b' = failed b;
  eu_missing : missing b = false → missing b' = false;
  eu_grows : nChainTx b ≠ 0 → nChainTx b' ≠ 0;
  eu_ready : nChainTx b' ≠ 0 → missing b = false ∧ ready (index s) p;
  eu_candidates : ∀ q, q ∈ candidates s' ↔ q ∈ candidates s ∨ (q = p ∧ nChainTx b' ≠ 0 ∧ worse_than_tip s p = false) }.

Section Update.
Context (p : ptr) (b b' : CBlockIndex) (s s' : Tree) (Hu : entry_update p b b' s s').

Lemma eu_same : same_tree (index s) (index s').
Proof using Hu.
  destruct Hu. intros x. rewrite eu_index0. destruct (decide (p = x)) as [<-|Hne]; [|by rewrite lookup_insert_ne].
  rewrite lookup_insert_eq, eu_old0. simpl. by rewrite eu_skeleton0.
Qed.

Lemma eu_fields : pprev b' = pprev b ∧ nHeight b' = nHeight b ∧ nChainWork b' = nChainWork b ∧ phashBlock b' = phashBlock b.
Proof using Hu. pose proof (eu_skeleton _ _ _ _ _ Hu) as E. unfold skeleton, links in E. split_and!; congruence. Qed.

Lemma eu_lookup x bx' :
  index s' !! x = Some bx' → (x = p ∧ bx' = b') ∨ (x ≠ p ∧ index s !! x = Some bx').
Proof using Hu.
  rewrite (eu_index _ _ _ _ _ Hu), lookup_insert_Some. intros [[-> ->]|[Hne Hx]]; [by left|right; by split].
Qed.

Lemma eu_known x bx : index s !! x = Some bx → ∃ bx', index s' !! x = Some bx' ∧ (nChainTx bx ≠ 0 → nChainTx bx' ≠ 0).
Proof using Hu.
  intros Hx. rewrite (eu_index _ _ _ _ _ Hu). destruct (decide (p = x)) as [<-|Hne].
  - rewrite lookup_insert_eq. exists b'. split; [done|]. rewrite (eu_old _ _ _ _ _ Hu) in Hx. injection Hx as <-. apply Hu.
  - rewrite lookup_insert_ne by done. by exists bx.
Qed.

Lemma eu_good x : good (index s) x → good (index s') x.
Proof using Hu.
  intros Hg bx' Hx. destruct (eu_lookup x bx' Hx) as [[-> ->]|[Hne Hx']]; [|by apply Hg].
  destruct (Hg b (eu_old _ _ _ _ _ Hu)) as [Hf Hm]. split; [by rewrite (eu_failed _ _ _ _ _ Hu)|by apply Hu].
Qed.

Lemma eu_good_back x : good (index s') x → x ≠ p ∨ nChainTx b' ≠ 0 → good (index s) x.
Proof using Hu.
  intros Hg Hor bx Hx. destruct (decide (x = p)) as [->|Hne].
  - rewrite (eu_old _ _ _ _ _ Hu) in Hx. injection Hx as <-. destruct Hor as [?|Htx]; [done|].
    split; [|by apply (eu_ready _ _ _ _ _ Hu)]. rewrite <- (eu_failed _ _ _ _ _ Hu). apply Hg.
    by rewrite (eu_index _ _ _ _ _ Hu), lookup_insert_eq.
  - apply Hg. by rewrite (eu_index _ _ _ _ _ Hu), lookup_insert_ne.
Qed.

Lemma eu_linked : tree_ok s → linked (index s').
Proof using Hu.
  intros Hok x bx' q Hx Htx Eq. destruct (eu_lookup x bx' Hx) as [[-> ->]|[Hne Hx']].
  - destruct eu_fields as (Ep & _). rewrite Ep in Eq. destruct (eu_ready _ _ _ _ _ Hu Htx) as [_ (b2 & Hb2 & _ & Hpar)].
    rewrite (eu_old _ _ _ _ _ Hu) in Hb2. injection Hb2 as <-. destruct (Hpar q Eq) as (c & Hc & Hct).
    destruct (eu_known q c Hc) as (c' & Hc' & Hg). exists c'. auto.
  - destruct (ok_linked s Hok x bx' q Hx' Htx Eq) as (c & Hc & Hct). destruct (eu_known q c Hc) as (c' & Hc' & Hg). exists c'. auto.
Qed.

Lemma eu_eligible x : tree_ok s → eligible verdict (index s) x → eligible verdict (index s') x.
Proof using Hu.
  intros Hok (bx & Hx & Htx & Hall). destruct (eu_known x bx Hx) as (bx' & Hx' & Hg). exists bx'. split_and!; [done|auto|].
  rewrite <- (line_same _ _ eu_same x x eq_refl). eapply Forall_impl; [exact Hall|]. intros y [Hgy Ha]. split; [by apply eu_good|done].
Qed.

(** No other block becomes eligible. *)
Lemma eu_eligible_back x : tree_ok s → eligible verdict (index s') x → x ≠ p → eligible verdict (index s) x.
Proof using Hu.
  intros Hok (bx' & Hx' & Htx & Hall) Hne. destruct (eu_lookup x bx' Hx') as [[? _]|[_ Hx]]; [done|].
  exists bx'. split_and!; [done..|]. pose proof eu_same as Hs. rewrite <- (line_same _ _ Hs x x eq_refl) in Hall.
  rewrite Forall_forall in Hall |- *. intros y Hy. destruct (Hall y Hy) as [Hgy Ha]. split; [|done].
  apply eu_good_back; [done|]. destruct (decide (y = p)) as [->|?]; [right|by left].
  destruct (line_linked (index s') x bx' p) as (a & Ha' & Hta); [by apply (tree_wf_same (index s)), Hok|by apply eu_linked|done..| |].
  { by rewrite <- (line_same _ _ Hs x x eq_refl). }
  by destruct (eu_lookup p a Ha') as [[_ ->]|[? _]].
Qed.

Lemma eu_node : node_ok verdict s → node_ok verdict s'.
Proof using Hu.
  intros [Htree Hc (t & Ht & Hel) Hroot Hwork]. pose proof eu_same as Hs. destruct eu_fields as (Ep & Eh & Ew & Eha).
  assert (∀ x bx', index s' !! x = Some bx' → ∃ bx, index s !! x = Some bx ∧ pprev bx = pprev bx' ∧ nChainWork bx = nChainWork bx') as Hback.
  { intros x bx' Hx. destruct (eu_lookup x bx' Hx) as [[-> ->]|[_ Hx']]; [|by exists bx'].
    exists b. split; [apply Hu|]. by split. }
  split.
  - split.
    + by apply (tree_wf_same (index s)), Htree.
    + by apply (keys_wf_same (index s)), Htree.
    + by apply eu_linked.
    + intros x bx' Hx Htx. destruct (eu_lookup x bx' Hx) as [[-> ->]|[_ Hx']]; [|by apply (ok_data s Htree x)].
      apply Hu. by apply (eu_ready _ _ _ _ _ Hu).
    + intros x Hx. apply (eu_candidates _ _ _ _ _ Hu) in Hx as [Hx|(-> & Htx & _)].
      * destruct (ok_candidates s Htree x Hx) as (bx & Hbx & Htx). destruct (eu_known x bx Hbx) as (bx' & Hbx' & Hg). exists bx'. auto.
      * exists b'. split; [|done]. by rewrite (eu_index _ _ _ _ _ Hu), lookup_insert_eq.
  - rewrite (eu_chain _ _ _ _ _ Hu). by apply (chain_ok_same (index s)).
  - rewrite (eu_chain _ _ _ _ _ Hu). exists t. split; [done|]. by apply eu_eligible.
  - intros x y bx' by' Hx Hy E1 E2. destruct (Hback x bx' Hx) as (bx & Hbx & F1 & _), (Hback y by' Hy) as (by_ & Hby & F2 & _).
    apply (Hroot x y bx by_); congruence.
  - intros x y bx' by' Hx E1 Hy. destruct (Hback x bx' Hx) as (bx & Hbx & F1 & W1), (Hback y by' Hy) as (by_ & Hby & F2 & W2).
    rewrite <- W1, <- W2. apply (Hwork x y); congruence.
Qed.

Lemma eu_marked x : marked (index s') x ↔ marked (index s) x.
Proof using Hu.
  unfold marked. rewrite (eu_index _ _ _ _ _ Hu). destruct (decide (p = x)) as [<-|Hne]; [|by rewrite lookup_insert_ne].
  rewrite lookup_insert_eq, (eu_old _ _ _ _ _ Hu). split; intros (? & [= <-] & Hf).
  - exists b. split; [done|]. by rewrite <- (eu_failed _ _ _ _ _ Hu).
  - exists b'. split; [done|]. by rewrite (eu_failed _ _ _ _ _ Hu).
Qed.

Lemma eu_above t : node_ok verdict s → atomicTip (chainActive s) = Some t → above verdict t s → above verdict t s'.
Proof using Hu.
  intros Hok Ht [Hc He Hall]. pose proof (nd_tree _ _ Hok) as Htree. split.
  - apply (eu_candidates _ _ _ _ _ Hu). by left.
  - by apply eu_eligible.
  - intros q Hq Hw. rewrite <- (worse_same _ _ eu_same q q eq_refl t t eq_refl) in Hw. apply (eu_candidates _ _ _ _ _ Hu).
    destruct (decide (q = p)) as [->|Hne]; [|left; apply Hall; [by apply eu_eligible_back|done]].
    right. split_and!; [done| |].
    + destruct Hq as (bp & Hbp & Htx & _). by destruct (eu_lookup p bp Hbp) as [[_ ->]|[? _]].
    + unfold worse_than_tip. by rewrite (Tip_ok (index s)), Ht by apply Hok.
Qed.

Lemma eu_map_ok :
  (∀ hash x, mapBlockIndex s !! hash = Some x ↔ ∃ bx, index s !! x = Some bx ∧ phashBlock bx = hash) →
  ∀ hash x, mapBlockIndex s' !! hash = Some x ↔ ∃ bx, index s' !! x = Some bx ∧ phashBlock bx = hash.
Proof using Hu.
  intros H hash x. rewrite (eu_map _ _ _ _ _ Hu), H. pose proof eu_same as Hs. split.
  - intros (bx & Hx & E). destruct (same_tree_lookup _ _ x bx Hs Hx) as (bx' & Hx' & _ & _ & _ & F). exists bx'. split; [done|congruence].
  - intros (bx & Hx & E). symmetry in Hs. destruct (same_tree_lookup _ _ x bx Hs Hx) as (bx' & Hx' & _ & _ & _ & F). exists bx'. split; [done|congruence].
Qed.

Lemma eu_ready_keeps x : ready (index s) x → ready (index s') x.
Proof using Hu.
  intros (bx & Hx & Hm & Hpar). destruct eu_fields as (Ep & _).
  assert (∀ q, pprev bx = Some q → ∃ c, index s' !! q = Some c ∧ nChainTx c ≠ 0) as Hpar'.
  { intros q Eq. destruct (Hpar q Eq) as (c & Hc & Hct). destruct (eu_known q c Hc) as (c' & Hc' & Hg). exists c'. auto. }
  destruct (decide (x = p)) as [->|Hne].
  - rewrite (eu_old _ _ _ _ _ Hu) in Hx. injection Hx as <-. exists b'. rewrite (eu_index _ _ _ _ _ Hu) at 1. rewrite lookup_insert_eq.
    split_and!; [done|by apply Hu|]. by rewrite Ep.
  - exists bx. rewrite (eu_index _ _ _ _ _ Hu) at 1. rewrite lookup_insert_ne by done. by split_and!.
Qed.

End Update.
(** ** Linking *)

(** An update with counters in range keeps the invariant, up to the blocks that wait. *)
Lemma store_update queue queue' p b b' s s' :
  entry_update p b b' s s' → store_ok queue s → counts_ok b' →
  (∀ x, x ∈ queue' → ready (index s') x) →
  (∀ q x, (q, x) ∈ mapBlocksUnlinked s' →
    ∃ bx c, index s' !! x = Some bx ∧ pprev bx = Some q ∧ missing bx = false ∧ index s' !! q = Some c ∧ nChainTx c = 0) →
  (∀ x bx, index s' !! x = Some bx → missing bx = false → nChainTx bx = 0 →
    x ∈ queue' ∨ ∃ q, pprev bx = Some q ∧ (¬ marked (index s') q → (q, x) ∈ mapBlocksUnlinked s')) →
  store_ok queue' s'.
Proof using Type.
  intros Hu Hok Hb Hq Hun Hw. split.
  - by apply (eu_node p b b' s s'), Hok.
  - destruct (so_above _ _ Hok) as (t & Ht & Hab). exists t. rewrite (eu_chain _ _ _ _ _ Hu). split; [done|].
    by apply (eu_above p b b' s s' Hu t (so_node _ _ Hok)).
  - intros x bx Hx. destruct (eu_lookup p b b' s s' Hu x bx Hx) as [[-> ->]|[_ Hx']]; [done|]. by apply (so_counts _ _ Hok x).
  - done.
  - done.
  - done.
  - intros x Hm. apply (eu_marked p b b' s s' Hu) in Hm. destruct (so_marks _ _ Hok x Hm) as (y & Hy & Hna). exists y.
    by rewrite <- (line_same _ _ (eu_same p b b' s s' Hu) x x eq_refl).
  - apply (eu_map_ok p b b' s s' Hu), Hok.
Qed.

(** One turn of the loop. *)
Lemma link_step queue p s :
  store_ok (p :: queue) s →
  ∃ b b' n s',
    index s !! p = Some b ∧ match pprev b with None => Some 0 | Some q => nChainTx <$> index s !! q end = Some n ∧
    b' = set_link (u32 (n + nTx b)) (nBlockSequenceId s) b ∧
    s' = (let s1 := with_sequence (u32 (nBlockSequenceId s + 1)) (with_index (<[p := b']> (index s)) s) in
          let s2 := if worse_than_tip s1 p then s1 else with_candidates (candidates s1 ∪ {[p]}) s1 in
          with_unlinked (filter (λ e, e.1 ≠ p) (mapBlocksUnlinked s2)) s2) ∧
    store_ok (queue ++ (snd <$> filter (λ e, e.1 = p) (mapBlocksUnlinked s))) s' ∧
    same_tree (index s) (index s') ∧ chainActive s' = chainActive s ∧
    mapBlocksUnlinked s' = filter (λ e, e.1 ≠ p) (mapBlocksUnlinked s).
Proof using Type.
  intros Hok. pose proof (nd_tree _ _ (so_node _ _ Hok)) as Htree. pose proof (ok_tree _ Htree) as Hwf.
  pose proof (so_queue _ _ Hok p ltac:(by left)) as Hready. pose proof Hready as (b & Hb & Hm & Hpar).
  destruct (so_counts _ _ Hok p b Hb) as (C1 & C2 & C3 & C4 & C5). specialize (C4 Hm). destruct (Hwf p b Hb) as [H0 _].
  assert (∃ n, match pprev b with None => Some 0 | Some q => nChainTx <$> index s !! q end = Some n ∧ 0 ≤ n ≤ M * nHeight b) as (n & En & Hn).
  { destruct (pprev b) as [q|] eqn:Eq; [|exists 0; split; [done|nia]]. destruct (tree_parent _ p b q Hwf Hb Eq) as (c & Hc & Hh).
    exists (nChainTx c). rewrite Hc. split; [done|]. destruct (so_counts _ _ Hok q c Hc) as (_ & Hct & _). nia. }
  assert (u32 (n + nTx b) = n + nTx b) as Eu by (apply u32_id; unfold word; nia).
  set (b' := set_link (u32 (n + nTx b)) (nBlockSequenceId s) b).
  set (s1 := with_sequence (u32 (nBlockSequenceId s + 1)) (with_index (<[p := b']> (index s)) s)).
  set (s2 := if worse_than_tip s1 p then s1 else with_candidates (candidates s1 ∪ {[p]}) s1).
  set (s3 := with_unlinked (filter (λ e, e.1 ≠ p) (mapBlocksUnlinked s2)) s2).
  assert (worse_than_tip s1 p = worse_than_tip s p) as Ew.
  { unfold worse_than_tip, s1. simpl. destruct (Tip (chainActive s)); [|done]. apply worse_same; [|done..].
    intros x. destruct (decide (p = x)) as [<-|Hne]; [rewrite lookup_insert_eq, Hb|rewrite lookup_insert_ne]; done. }
  assert (index s3 = <[p := b']> (index s) ∧ chainActive s3 = chainActive s ∧ mapBlockIndex s3 = mapBlockIndex s ∧
    mapBlocksUnlinked s2 = mapBlocksUnlinked s ∧
    (∀ q, q ∈ candidates s3 ↔ q ∈ candidates s ∨ (q = p ∧ worse_than_tip s p = false))) as (Ei & Ec & Em & Eun & Ecand).
  { unfold s3, s2. rewrite Ew. destruct (worse_than_tip s p); simpl; split_and!; try done; set_solver. }
  assert (entry_update p b b' s s3) as Hu.
  { split; [done..| | |].
    - simpl. lia.
    - done.
    - intros q. rewrite Ecand. assert (nChainTx b' ≠ 0) by (simpl; lia). tauto. }
  exists b, b', n, s3. split; [done|]. split; [done|]. split; [done|]. split; [done|]. split.
  2:{ split_and!; [by apply (eu_same p b b' s s3)|done|]. unfold s3. simpl. by rewrite Eun. }
  assert (nChainTx b' ≠ 0) as Hnz by (simpl; lia).
  assert (∀ q x, (q, x) ∈ mapBlocksUnlinked s3 ↔ q ≠ p ∧ (q, x) ∈ mapBlocksUnlinked s) as Hun3.
  { intros q x. unfold s3. simpl. rewrite list_elem_of_filter, Eun. done. }
  clearbody s3. clear s1 s2 Ew Eun.
  apply (store_update (p :: queue) _ p b b' s s3 Hu Hok).
  - unfold counts_ok. simpl. rewrite Eu. split_and!; [lia..|nia|done|done|done].
  - intros x [Hx|Hx]%elem_of_app; [apply (eu_ready_keeps p b b' s s3 Hu), (so_queue _ _ Hok); by right|].
    apply list_elem_of_fmap in Hx as ([q x'] & -> & Hx). apply list_elem_of_filter in Hx as [Hq Hx]. simpl in Hq. subst q. simpl.
    destruct (so_unlinked _ _ Hok p x' Hx) as (bx & c & Hbx & Ebx & Hmx & _). destruct (decide (p = x')) as [<-|Hne].
    { rewrite Hb in Hbx. injection Hbx as <-. destruct (tree_parent _ p b p Hwf Hb Ebx) as (d & Hd & Hh). rewrite Hb in Hd. injection Hd as <-. lia. }
    exists bx. rewrite Ei, lookup_insert_ne by done. split_and!; [done..|]. intros q Eq. rewrite Ebx in Eq. injection Eq as <-.
    exists b'. by rewrite lookup_insert_eq.
  - intros q x [Hne Hx]%Hun3. destruct (so_unlinked _ _ Hok q x Hx) as (bx & c & Hbx & Ebx & Hmx & Hc & E0).
    destruct (decide (p = x)) as [<-|Hpx].
    + rewrite Hb in Hbx. injection Hbx as <-. exists b', c. rewrite Ei, lookup_insert_eq, lookup_insert_ne by done. done.
    + exists bx, c. by rewrite Ei, !lookup_insert_ne by done.
  - intros x bx Hx Hmx Htx. destruct (eu_lookup p b b' s s3 Hu x bx Hx) as [[_ ->]|[Hne Hx']]; [done|].
    destruct (so_waiting _ _ Hok x bx Hx' Hmx Htx) as [[?|Hin]%elem_of_cons|(q & Eq & Hw)]; [done|left; apply elem_of_app; by left|].
    destruct (decide (q = p)) as [->|Hqp].
    + destruct (failed b) eqn:Ef; [right; exists p; split; [done|]; intros Hnm; destruct Hnm; apply (eu_marked p b b' s s3 Hu); by exists b|].
      left. apply elem_of_app. right. apply list_elem_of_fmap. exists (p, x). split; [done|]. apply list_elem_of_filter. split; [done|].
      apply Hw. intros (b2 & Hb2 & Hf2). rewrite Hb in Hb2. injection Hb2 as <-. congruence.
    + right. exists q. split; [done|]. intros Hnm. apply Hun3. split; [done|]. apply Hw. intros Hmk. apply Hnm. by apply (eu_marked p b b' s s3 Hu).
Qed.

Lemma filter_split_length {A} (P : A → Prop) `{∀ x, Decision (P x)} (l : list A) :
  (length (filter P l) + length (filter (λ x, ¬ P x) l) = length l)%nat.
Proof using Type.
  induction l as [|x l IH]; [done|]. rewrite !filter_cons. repeat case_decide; simpl; (lia || done).
Qed.

Lemma link_loop_spec fuel queue s :
  store_ok queue s → (length queue + length (mapBlocksUnlinked s) ≤ fuel)%nat →
  ∃ s', link_loop fuel queue s = Some s' ∧ store_ok [] s' ∧ same_tree (index s) (index s') ∧ chainActive s' = chainActive s.
Proof using Type.
  revert queue s. induction fuel as [|fuel IH]; intros [|p queue] s Hok Hf; [by exists s|simpl in Hf; lia|by exists s|].
  destruct (link_step queue p s Hok) as (b & b' & n & s1 & Hb & En & Eb' & Es1 & Hok1 & Hs1 & Hc1 & Eun).
  cbn [link_loop]. rewrite Hb. cbn [mbind option_bind]. rewrite En. cbn [mbind option_bind]. rewrite <- Eb'.
  cbn zeta in Es1. match goal with |- context [link_loop fuel ?Q ?S] => replace S with s1 by done; replace Q with
    (queue ++ (snd <$> filter (λ e : ptr * ptr, e.1 = p) (mapBlocksUnlinked s))) by (by destruct (worse_than_tip _ p)) end.
  destruct (IH _ s1 Hok1) as (s' & -> & Hok' & Hs' & Hc').
  - rewrite Eun, length_app, length_fmap. pose proof (filter_split_length (λ e : ptr * ptr, e.1 = p) (mapBlocksUnlinked s)).
    simpl in Hf. lia.
  - exists s'. split_and!; [done..|by rewrite Hs1|by rewrite Hc'].
Qed.

(** ** Arrivals *)

(** The entry of a block whose transactions have arrived. *)
Lemma received_entry stake tx file pos b :
  ∃ b', fst <$> RaiseValidity BLOCK_VALID_TRANSACTIONS (set_data tx 0 file pos (if (stake : bool) then SetProofOfStake b else b)) = Some b' ∧
    skeleton b' = skeleton b ∧ failed b' = failed b ∧ missing b' = false ∧ nTx b' = tx ∧ nChainTx b' = 0 ∧
    (failed b = false → BLOCK_VALID_TREE ≤ level b').
Proof using Type.
  set (b0 := if stake then SetProofOfStake b else b).
  assert (skeleton b0 = skeleton b ∧ failed b0 = failed b) as [E1 E2].
  { unfold b0. destruct stake; [|done]. unfold SetProofOfStake, skeleton, links, failed. by destruct b. }
  rewrite <- E1, <- E2. clearbody b0. set (b1 := set_data tx 0 file pos b0).
  assert (failed b1 = failed b0) as Ef by (unfold failed; simpl; by rewrite land_or_other).
  assert (missing b1 = false) as Em.
  { unfold missing. simpl. rewrite Z.land_lor_distr_l. apply Z.eqb_neq. intros E. by apply Z.lor_eq_0_iff in E as [_ ?]. }
  unfold RaiseValidity. change (validity_ok BLOCK_VALID_TRANSACTIONS) with true. cbn [negb].
  destruct (negb (nStatus b1 .& BLOCK_FAILED_MASK =? 0)) eqn:Ebad.
  { exists b1. split_and!; try done. intros Hf. rewrite <- Ef in Hf. unfold failed in Hf. congruence. }
  destruct (Z.ltb_spec (nStatus b1 .& BLOCK_VALID_MASK) BLOCK_VALID_TRANSACTIONS) as [Hlt|Hge].
  - eexists. split; [done|]. cbn [fst]. split_and!; try done.
    + unfold failed. rewrite nStatus_set, land_or_other, land_keep by done. exact Ef.
    + unfold missing. rewrite nStatus_set, land_or_other, land_keep by done. exact Em.
    + intros _. unfold level. rewrite nStatus_set, Z.land_lor_distr_l, <- Z.land_assoc.
      change (u32 (Z.lnot BLOCK_VALID_MASK) .& BLOCK_VALID_MASK) with 0. by rewrite Z.land_0_r, Z.lor_0_l.
  - exists b1. split_and!; try done. intros _. unfold level, BLOCK_VALID_TRANSACTIONS, BLOCK_VALID_TREE in *. lia.
Qed.

Lemma IsValid_TREE c : IsValid BLOCK_VALID_TREE c = Some (negb (failed c) && (BLOCK_VALID_TREE <=? level c)).
Proof using Type.
  unfold IsValid. change (validity_ok BLOCK_VALID_TREE) with true. cbn [negb]. unfold failed, level.
  by destruct (nStatus c .& BLOCK_FAILED_MASK =? 0).
Qed.

Lemma received_spec block p b file pos s :
  store_ok [] s → index s !! p = Some b → missing b = true → 0 < tb_vtx_size block ≤ M →
  ∃ s', ReceivedBlockTransactions block p file pos s = Some s' ∧ store_ok [] s' ∧
    same_tree (index s) (index s') ∧ chainActive s' = chainActive s.
Proof using Type.
  intros Hok Hb Hmb Htx. pose proof (nd_tree _ _ (so_node _ _ Hok)) as Htree. pose proof (ok_tree _ Htree) as Hwf.
  destruct (so_counts _ _ Hok p b Hb) as (C1 & C2 & C3 & C4 & C5). destruct (Hwf p b Hb) as [H0 _].
  assert (nChainTx b = 0) as Eb0.
  { destruct (decide (nChainTx b = 0)) as [|Hne]; [done|]. pose proof (ok_data _ Htree p b Hb Hne). congruence. }
  unfold ReceivedBlockTransactions. rewrite Hb. cbn [mbind option_bind].
  destruct (received_entry (tb_stake block) (tb_vtx_size block) file pos b) as (b' & -> & E1 & E2 & E3 & E4 & E5 & E6).
  cbn [mbind option_bind]. set (s1 := with_index _ s).
  assert (∀ u, entry_update p b b' s (with_unlinked u s1)) as Hu.
  { intros u. split; try done. intros q. simpl. split; [by left|]. by intros [?|(_ & ? & _)]. }
  destruct (eu_fields p b b' s s1 ltac:(by destruct (Hu []); split)) as (Ep & Eh & _).
  assert (counts_ok b') as Hc' by (unfold counts_ok; rewrite E2, E4, E5, Eh; split_and!; nia || done).
  assert (∀ q x, (q, x) ∈ mapBlocksUnlinked s → ∃ bx c, index s1 !! x = Some bx ∧ pprev bx = Some q ∧ missing bx = false ∧
    index s1 !! q = Some c ∧ nChainTx c = 0) as Hun.
  { intros q x Hx. destruct (so_unlinked _ _ Hok q x Hx) as (bx & c & Hbx & Ebx & Hmx & Hc & Ec0).
    assert (p ≠ x) as Hpx by (intros <-; congruence). exists bx. simpl. destruct (decide (p = q)) as [<-|Hpq].
    - exists b'. rewrite lookup_insert_ne, lookup_insert_eq by done. done.
    - exists c. rewrite !lookup_insert_ne by done. done. }
  assert (∀ x bx, x ≠ p → index s1 !! x = Some bx → missing bx = false → nChainTx bx = 0 →
    ∃ q, pprev bx = Some q ∧ (¬ marked (index s1) q → (q, x) ∈ mapBlocksUnlinked s)) as Hw.
  { intros x bx Hne Hx Hmx Htx0. simpl in Hx. rewrite lookup_insert_ne in Hx by done.
    destruct (so_waiting _ _ Hok x bx Hx Hmx Htx0) as [?%elem_of_nil|(q & Eq & Hq)]; [done|]. exists q. split; [done|].
    intros Hnm. apply Hq. intros Hm. apply Hnm. by apply (eu_marked p b b' s (with_unlinked [] s1) (Hu [])). }
  assert (∀ x bx, index s1 !! x = Some bx → x = p → bx = b') as Hself.
  { intros x bx Hx ->. simpl in Hx. rewrite lookup_insert_eq in Hx. by injection Hx. }
  assert (store_ok [p] s1 → ∃ s', link_loop (S (length (mapBlocksUnlinked s1))) [p] s1 = Some s' ∧ store_ok [] s' ∧
    same_tree (index s) (index s') ∧ chainActive s' = chainActive s) as Hloop.
  { intros Hok1. destruct (link_loop_spec (S (length (mapBlocksUnlinked s1))) [p] s1 Hok1 ltac:(simpl; lia)) as (s' & -> & Hok' & Hs' & Hc'').
    exists s'. split_and!; [done..| |done]. pose proof (eu_same p b b' s _ (Hu (mapBlocksUnlinked s1))) as Hs. by rewrite <- Hs'. }
  assert (ready (index s1) p → store_ok [p] s1) as Hstart.
  { intros Hr. assert (entry_update p b b' s s1) as Hu1 by (destruct (Hu []); by split).
    apply (store_update [] _ p b b' s s1 Hu1 Hok Hc'); [by intros x ->%list_elem_of_singleton|done|].
    intros x bx Hx Hmx Htx0. destruct (decide (x = p)) as [->|Hne]; [left; by apply list_elem_of_singleton|right; by apply Hw]. }
  destruct (pprev b') as [q|] eqn:Eq; cbn [mbind option_bind].
  2:{ apply Hloop, Hstart. exists b'. simpl. rewrite lookup_insert_eq. split_and!; [done..|]. by rewrite Eq. }
  destruct (tree_parent _ p b q Hwf Hb ltac:(congruence)) as (c & Hc & Hh).
  assert (p ≠ q) as Hpq by (intros <-; rewrite Hb in Hc; injection Hc as <-; lia).
  assert (index s1 !! q = Some c) as Hc1 by (simpl; by rewrite lookup_insert_ne).
  rewrite Hc1. cbn [mbind option_bind]. destruct (Z.eqb_spec (nChainTx c) 0) as [Ec|Ec].
  2:{ apply Hloop, Hstart. exists b'. simpl. rewrite lookup_insert_eq. split_and!; [done..|]. rewrite Eq. intros q' [= <-].
      exists c. by rewrite lookup_insert_ne. }
  rewrite IsValid_TREE. cbn [mbind option_bind]. set (v := _ && _).
  assert (∃ u, (if v then with_unlinked (mapBlocksUnlinked s1 ++ [(q, p)]) s1 else s1) = with_unlinked u s1 ∧
    (∀ e, e ∈ mapBlocksUnlinked s → e ∈ u) ∧ (v = true → (q, p) ∈ u) ∧ (∀ e, e ∈ u → e ∈ mapBlocksUnlinked s ∨ e = (q, p))) as (u & -> & U1 & U2 & U3).
  { destruct v.
    - eexists. split_and!; [done|intros e He; apply elem_of_app; by left|intros _; apply elem_of_app; right; by apply list_elem_of_singleton|].
      intros e [He|He%list_elem_of_singleton]%elem_of_app; [by left|by right].
    - exists (mapBlocksUnlinked s). split_and!; [by destruct s|done..|by left]. }
  eexists. split; [done|]. split; [|split; [by apply (eu_same p b b' s _ (Hu u))|done]].
  apply (store_update [] [] p b b' s _ (Hu u) Hok Hc'); simpl in *.
  - by intros x ?%elem_of_nil.
  - intros q' x Hx. destruct (U3 _ Hx) as [Hx'|[= -> ->]]; [by apply Hun|]. exists b', c. rewrite lookup_insert_eq. by split_and!.
  - intros x bx Hx Hmx Htx0. right. destruct (decide (x = p)) as [->|Hne].
    + rewrite (Hself p bx Hx eq_refl). exists q. split; [done|]. intros Hnm. apply U2. unfold v.
      destruct (failed c) eqn:Ef; [destruct Hnm; by exists c|]. destruct (so_counts _ _ Hok q c Hc) as (_ & _ & _ & _ & Hlv).
      cbn [negb andb]. apply Z.leb_le. by apply Hlv.
    + destruct (Hw x bx Hne Hx Hmx Htx0) as (q' & Eq' & Hq'). exists q'. split; [done|]. intros Hnm. by apply U1, Hq'.
Qed.

(** ** A new block *)

Lemma SetNewStakeModifier_fields {Sort : StdSort} Hash fTest h m b b' :
  SetNewStakeModifier Hash fTest h m b = Some b' →
  pprev b' = pprev b ∧ pskip b' = pskip b ∧ nHeight b' = nHeight b ∧ phashBlock b' = phashBlock b ∧ nTx b' = nTx b ∧
  nChainTx b' = nChainTx b ∧ nStatus b' = nStatus b ∧ nBits b' = nBits b.
Proof using Type.
  unfold SetNewStakeModifier. destruct (ComputeNextStakeModifier _ _ _ _ _) as [[[ok v] g]|]; [|done].
  cbn [mbind option_bind fst snd]. intros [= <-]. unfold SetStakeModifier, SetStakeEntropyBit.
  destruct (1 <? _), g; destruct b; by split_and!.
Qed.

(** The entry that [AddToBlockIndex] makes for a block on a known parent. *)
Record new_block (block : TreeBlock) (q : ptr) (c b : CBlockIndex) (h : heap) : Prop := {
  nb_pprev : pprev b = Some q;
  nb_height : nHeight b = nHeight c + 1;
  nb_wf : entry_wf h b;
  nb_hash : phashBlock b = tb_hash block;
  nb_work : uwf W256 (nChainWork b) ∧ uval (nChainWork b) = (uval (nChainWork c) + block_proof (tb_nBits block)) mod 2 ^ 256;
  nb_tx : nTx b = 0 ∧ nChainTx b = 0;
  nb_status : nStatus b = BLOCK_VALID_TREE }.

Lemma AddToBlockIndex_entry {Sort : StdSort} Hash fTest block q c s p s' :
  tree_wf (index s) → uwf W256 (nChainWork c) → word 32 (tb_nBits block) →
  mapBlockIndex s !! tb_hash block = None → mapBlockIndex s !! tb_hashPrevBlock block = Some q → index s !! q = Some c →
  AddToBlockIndex Hash fTest block s = Some (p, s') →
  ∃ b, index s !! p = None ∧ index s' = <[p := b]> (index s) ∧ mapBlockIndex s' = <[tb_hash block := p]> (mapBlockIndex s) ∧
    chainActive s' = chainActive s ∧ candidates s' = candidates s ∧ mapBlocksUnlinked s' = mapBlocksUnlinked s ∧
    new_block block q c b (index s).
Proof using Type.
  intros Hwf Hw Hbits Hh Hprev Hc. unfold AddToBlockIndex. rewrite Hh. set (p0 := base.fresh _).
  assert (index s !! p0 = None) as Hp0 by (apply not_elem_of_dom, is_fresh).
  rewrite lookup_insert_ne by congruence. rewrite Hprev, lookup_insert_ne, Hc by congruence. cbn [mbind option_bind].
  set (h := <[p0 := new_entry block]> (index s)).
  assert (tree_wf h) as Hwfh by (by apply tree_wf_extend).
  assert (h !! q = Some c) as Hq by (unfold h; by rewrite lookup_insert_ne by congruence).
  destruct (SetNewStakeModifier _ _ _ _ _) as [b|] eqn:Eb; [|done]. cbn [mbind option_bind].
  apply SetNewStakeModifier_fields in Eb as (F1 & F2 & F3 & F4 & F5 & F6 & F7 & F8).
  unfold BuildSkip in F1, F2, F3, F4, F5, F6, F7, F8. cbn in F1, F3, F4, F5, F6, F7, F8.
  change (pskip b = GetAncestor h q (GetSkipHeight (nHeight c + 1))) in F2.
  rewrite GetAncestor_spec in F2 by done. unfold h in F2. rewrite ancestor_extend in F2 by (done || by eexists).
  rewrite F1, Hq. cbn [fmap option_fmap option_map mbind option_bind].
  destruct (GetBlockProof_spec b ltac:(by rewrite F8)) as (w & -> & Hww & Vw). cbn [mbind option_bind].
  set (b1 := set_nChainWork _ b).
  assert (nStatus b1 = 0) as Es by (unfold b1; by destruct b).
  unfold RaiseValidity. change (validity_ok BLOCK_VALID_TREE) with true. cbn [negb]. rewrite Es.
  change (negb (0 .& BLOCK_FAILED_MASK =? 0)) with false. change (0 .& BLOCK_VALID_MASK <? BLOCK_VALID_TREE) with true.
  cbn [fmap option_fmap option_map mbind option_bind fst]. change (0 .& u32 (Z.lnot BLOCK_VALID_MASK) .| BLOCK_VALID_TREE) with BLOCK_VALID_TREE.
  set (b2 := set_nStatus BLOCK_VALID_TREE b1). rewrite IsValid_TREE. cbn [mbind option_bind].
  set (s1 := with_map _ _). intros E.
  assert (p = p0 ∧ ∃ v, s' = with_bestHeader v s1) as [-> [v ->]].
  { destruct (_ && _) in E; injection E as <- <-; split; try done; [by eexists|]. exists (pindexBestHeader s1). by destruct s1. }
  exists b2. split_and!; [done..|].
  destruct (add_assign_spec W256 (nChainWork c) w Hw Hww) as [Ha Va].
  assert (pprev b2 = Some q ∧ nHeight b2 = nHeight c + 1 ∧ pskip b2 = pskip b ∧ phashBlock b2 = tb_hash block ∧
    nChainWork b2 = add_assign W256 (nChainWork c) w ∧ nTx b2 = 0 ∧ nChainTx b2 = 0) as (G1 & G2 & G3 & G4 & G5 & G6 & G7).
  { unfold b2, b1. destruct b. simpl in *. by split_and!. }
  split; [done..| |done| |done|].
  - unfold entry_wf. rewrite G1, G2, G3. exists c. by split_and!.
  - rewrite G5. split; [done|]. rewrite Va, Vw, F8. done.
  - unfold b2. apply nStatus_set.
Qed.

Section Extend.
Context (h : heap) (p : ptr) (b : CBlockIndex).
Context (Hwf : tree_wf h) (Hp : h !! p = None) (H0 : 0 ≤ nHeight b) (He : entry_wf h b).

Lemma ext_wf : tree_wf (<[p := b]> h).
Proof using Hwf Hp H0 He. by apply tree_wf_extend. Qed.

Lemma ext_lookup x bx : h !! x = Some bx → <[p := b]> h !! x = Some bx.
Proof using Hp. intros Hx. rewrite lookup_insert_ne; [done|]. congruence. Qed.

Lemma ext_line x : is_Some (h !! x) → line (<[p := b]> h) x = line h x.
Proof using Hwf Hp H0 He.
  intros [bx Hx]. revert x bx Hx. apply (tree_induction h (λ x _, line (<[p := b]> h) x = line h x) Hwf). intros x bx Hx IH.
  rewrite (line_cons (<[p := b]> h) x bx), (line_cons h x bx) by (done || apply ext_wf || by apply ext_lookup).
  f_equal. destruct (pprev bx) as [q|] eqn:Eq; [|done]. destruct (tree_parent h x bx q Hwf Hx Eq) as (c & Hc & Hh). by apply (IH q c).
Qed.

Lemma ext_good x : is_Some (h !! x) → good (<[p := b]> h) x ↔ good h x.
Proof using Hp. intros [bx Hx]. unfold good. by rewrite lookup_insert_ne by congruence. Qed.

Lemma ext_worse x y : is_Some (h !! x) → is_Some (h !! y) → worse (<[p := b]> h) x y = worse h x y.
Proof using Hp. intros [bx Hx] [by_ Hy]. unfold worse. by rewrite !lookup_insert_ne by congruence. Qed.

Lemma ext_chain c : chain_ok h c → chain_ok (<[p := b]> h) c.
Proof using Hwf Hp.
  unfold chain_ok. destruct (atomicTip c) as [t|]; [|done]. intros [[bt Ht] ->]. split; [exists bt; by apply ext_lookup|].
  unfold path. rewrite Ht, (ext_lookup t bt Ht). apply map_ext. intros i. by rewrite ancestor_extend by (done || by eexists).
Qed.

(** A block without transactions is not eligible, and changes nothing for the others. *)
Lemma ext_eligible x : nChainTx b = 0 → eligible verdict (<[p := b]> h) x ↔ eligible verdict h x.
Proof using Hwf Hp H0 He.
  intros Htx. unfold eligible. destruct (decide (x = p)) as [->|Hne].
  - rewrite lookup_insert_eq, Hp. split; [by intros (? & [= <-] & ? & _)|by intros (? & ? & _)].
  - rewrite lookup_insert_ne by done. split; intros (bx & Hx & Htx' & Hall); exists bx; (split_and!; [done..|]);
      rewrite ?(ext_line x) in * by (by eexists); rewrite Forall_forall in Hall |- *; intros y Hy; destruct (Hall y Hy) as [Hg Ha];
      (split; [|done]); apply ext_good in Hg || apply ext_good; try done; apply (line_known h x); (done || by eexists).
Qed.

End Extend.

Lemma add_spec {Sort : StdSort} Hash fTest block q c s p s' :
  store_ok [] s → uwf W256 (tb_hash block) → word 32 (tb_nBits block) →
  mapBlockIndex s !! tb_hash block = None → mapBlockIndex s !! tb_hashPrevBlock block = Some q → index s !! q = Some c →
  0 < block_proof (tb_nBits block) → uval (nChainWork c) + block_proof (tb_nBits block) < 2 ^ 256 → M * (nHeight c + 2) < 2 ^ 32 →
  AddToBlockIndex Hash fTest block s = Some (p, s') → store_ok [] s'.
Proof using Type.
  intros Hok Hhash Hbits Hnew Hprev Hc Hproof Hover Hheight E.
  pose proof (so_node _ _ Hok) as [[Hwf Hk Hl Hd Hcand] Hch (t & Ht & Hel) Hroot Hwork].
  destruct (Hk q c Hc) as [Hwc _].
  destruct (AddToBlockIndex_entry Hash fTest block q c s p s' Hwf Hwc Hbits Hnew Hprev Hc E)
    as (b & Hp & Ei & Em & Ec & Ecand & Eun & [N1 N2 N3 N4 [N5 N6] [N7 N8] N9]).
  destruct (Hwf q c Hc) as [H0c _]. assert (0 ≤ nHeight b) as H0 by lia.
  destruct (uval_wf W256 _ Hwc) as [Hw0 _]. rewrite Z.mod_small in N6 by lia.
  assert (failed b = false ∧ missing b = true ∧ level b = 2) as (Fb & Mb & Lb) by (unfold failed, missing, level; by rewrite N9).
  pose proof (ext_wf (index s) p b Hwf Hp H0 N3) as Hwf'.
  assert (∀ x bx, index s' !! x = Some bx → (x = p ∧ bx = b) ∨ (x ≠ p ∧ index s !! x = Some bx)) as Hlook.
  { intros x bx. rewrite Ei, lookup_insert_Some. intros [[-> ->]|[? ?]]; [by left|right; by split]. }
  assert (∀ x bx, index s !! x = Some bx → index s' !! x = Some bx) as Hold by (intros x bx Hx; rewrite Ei; by apply ext_lookup).
  assert (∀ x, eligible verdict (index s') x ↔ eligible verdict (index s) x) as Heq by (intros x; rewrite Ei; by apply ext_eligible).
  assert (∀ x, eligible verdict (index s) x → is_Some (index s !! x)) as Helk by (intros x (bx & Hbx & _); by eexists).
  split; rewrite ?Ec, ?Ecand, ?Eun.
  - split; rewrite ?Ec, ?Ecand.
    + split; rewrite ?Ecand.
      * by rewrite Ei.
      * intros x bx Hx. destruct (Hlook x bx Hx) as [[-> ->]|[_ Hx']]; [split; [done|by rewrite N4]|by apply (Hk x)].
      * intros x bx y Hx Htx Ey. destruct (Hlook x bx Hx) as [[-> ->]|[_ Hx']]; [done|].
        destruct (Hl x bx y Hx' Htx Ey) as (d & Hd' & Htd). exists d. split; [by apply Hold|done].
      * intros x bx Hx Htx. destruct (Hlook x bx Hx) as [[-> ->]|[_ Hx']]; [done|by apply (Hd x)].
      * intros x Hx. destruct (Hcand x Hx) as (bx & Hbx & Htx). exists bx. split; [by apply Hold|done].
    + rewrite Ei. by apply ext_chain.
    + exists t. split; [done|]. by apply Heq.
    + intros x y bx by' Hx Hy E1 E2. destruct (Hlook x bx Hx) as [[-> ->]|[_ Hx']]; [congruence|].
      destruct (Hlook y by' Hy) as [[-> ->]|[_ Hy']]; [congruence|]. by apply (Hroot x y bx by').
    + intros x y bx by' Hx E1 Hy. destruct (Hlook x bx Hx) as [[-> ->]|[Hnx Hx']].
      * rewrite N1 in E1. injection E1 as <-. rewrite (Hold q c Hc) in Hy. injection Hy as <-. lia.
      * destruct (tree_parent _ x bx y Hwf Hx' E1) as (d & Hd' & _). rewrite (Hold y d Hd') in Hy. injection Hy as <-.
        by apply (Hwork x y).
  - destruct (so_above _ _ Hok) as (t' & Ht' & [Htc Hte Hall]). exists t'. split; [done|]. split; rewrite ?Ecand; [done|by apply Heq|].
    intros x Hx Hw. apply Heq in Hx. apply Hall; [done|]. rewrite Ei in Hw. by rewrite ext_worse in Hw by (done || by apply Helk).
  - intros x bx Hx. destruct (Hlook x bx Hx) as [[-> ->]|[_ Hx']]; [|by apply (so_counts _ _ Hok x)].
    destruct (so_counts _ _ Hok q c Hc) as (C1 & _). unfold counts_ok. rewrite N2, N7, N8, Lb, Mb. split_and!; (nia || done).
  - by intros x ?%elem_of_nil.
  - intros y x Hx. destruct (so_unlinked _ _ Hok y x Hx) as (bx & d & Hbx & Ebx & Hmx & Hd' & E0). exists bx, d.
    split_and!; [by apply Hold|done..|by apply Hold|done].
  - intros x bx Hx Hmx Htx. destruct (Hlook x bx Hx) as [[-> ->]|[_ Hx']]; [congruence|]. right.
    destruct (so_waiting _ _ Hok x bx Hx' Hmx Htx) as [?%elem_of_nil|(y & Ey & Hy)]; [done|]. exists y. split; [done|].
    intros Hnm. apply Hy. intros (d & Hd' & Hf). apply Hnm. exists d. split; [by apply Hold|done].
  - intros x (bx & Hx & Hf). destruct (Hlook x bx Hx) as [[-> ->]|[_ Hx']]; [congruence|]. rewrite Ei, ext_line by (done || by eexists).
    apply (so_marks _ _ Hok). by exists bx.
  - intros hash x. rewrite Em, lookup_insert_Some, (so_map _ _ Hok). split.
    + intros [[<- <-]|(Hne & bx & Hx & Eb)]; [exists b; by rewrite Ei, lookup_insert_eq|exists bx; split; [by apply Hold|done]].
    + intros (bx & Hx & Eb). destruct (Hlook x bx Hx) as [[-> ->]|[_ Hx']]; [left; by split; [congruence|]|].
      right. split; [|by exists bx]. intros <-. assert (mapBlockIndex s !! tb_hash block = Some x) as F by (apply (so_map _ _ Hok); by exists bx).
      congruence.
Qed.

End Store.

(** ** Every history *)

Section Histories.
Context {Sort : StdSort} (Hash : list Z → uint256) (fTest : bool).
Context (G : uint256) (verdict : ptr → Verdict) (disconnects : ptr → bool) (M : Z).

(** The tree after the genesis block has been connected. *)
Definition genesis_tree (g : CBlockIndex) : Tree :=
  MkTree {[1%positive := g]} {[phashBlock g := 1%positive]} {[1%positive]} [] (MkChain [Some 1%positive] (Some 1%positive))
    None (Some 1%positive) 1.

Definition genesis_ok (g : CBlockIndex) : Prop :=
  pprev g = None ∧ pskip g = None ∧ nHeight g = 0 ∧ uwf W256 (nChainWork g) ∧ uwf W256 (phashBlock g) ∧
  0 < nTx g ≤ M ∧ M < 2 ^ 32 ∧ nChainTx g = nTx g ∧ missing g = false ∧ failed g = false ∧ BLOCK_VALID_TREE ≤ level g ∧
  accepted verdict 1%positive.

(** A header arrives whose parent is known, whose target is in range and whose chain has
    less than [2^256] work; the transactions of a known block arrive; or the best chain
    is activated. *)
Inductive step (s : Tree) : Tree → Prop :=
| step_header block q c p s' :
    uwf W256 (tb_hash block) → word 32 (tb_nBits block) → mapBlockIndex s !! tb_hash block = None →
    mapBlockIndex s !! tb_hashPrevBlock block = Some q → index s !! q = Some c → 0 < block_proof (tb_nBits block) →
    uval (nChainWork c) + block_proof (tb_nBits block) < 2 ^ 256 → M * (nHeight c + 2) < 2 ^ 32 →
    AddToBlockIndex Hash fTest block s = Some (p, s') → step s s'
| step_transactions block p b file pos s' :
    index s !! p = Some b → missing b = true → 0 < tb_vtx_size block ≤ M →
    ReceivedBlockTransactions block p file pos s = Some s' → step s s'
| step_activate s' :
    ActivateBestChain G verdict disconnects s = Some (true, s') → step s s'.

Lemma genesis_store g : genesis_ok g → store_ok verdict M [] (genesis_tree g).
Proof using Type.
  intros (E1 & E2 & E3 & Hw & Hh & Htx & HM & Ec & Em & Ef & El & Ha).
  assert (∀ x bx, ({[1%positive := g]} : heap) !! x = Some bx → x = 1%positive ∧ bx = g) as Hlook.
  { intros x bx. rewrite lookup_singleton_Some. by intros [<- <-]. }
  assert (tree_wf ({[1%positive := g]} : heap)) as Hwf.
  { intros x bx Hx. destruct (Hlook x bx Hx) as [-> ->]. split; [lia|]. unfold entry_wf. by rewrite E1. }
  assert (({[1%positive := g]} : heap) !! 1%positive = Some g) as Hg by apply lookup_singleton_eq.
  assert (eligible verdict ({[1%positive := g]} : heap) 1%positive) as Hel.
  { exists g. split_and!; [done|lia|]. rewrite (line_cons _ _ g Hwf Hg), E1. apply Forall_singleton. split; [|done].
    intros bx Hx. by destruct (Hlook _ _ Hx) as [_ ->]. }
  split; simpl.
  - split; simpl.
    + split; simpl; [done|..].
      * intros x bx Hx. by destruct (Hlook x bx Hx) as [-> ->].
      * intros x bx q Hx _ Eq. destruct (Hlook x bx Hx) as [-> ->]. congruence.
      * intros x bx Hx _. by destruct (Hlook x bx Hx) as [-> ->].
      * intros x ->%elem_of_singleton. exists g. split; [done|lia].
    + split; [by eexists|]. pose proof (ancestor_self _ _ g Hwf Hg) as Ea. unfold path. rewrite Hg. rewrite E3 in Ea |- *.
      change (Z.to_nat (0 + 1)) with 1%nat. cbn [seq map]. change (Z.of_nat 0) with 0. by rewrite Ea.
    + by exists 1%positive.
    + intros x y bx by' Hx Hy _ _. destruct (Hlook x bx Hx), (Hlook y by' Hy). congruence.
    + intros x y bx by' Hx Eq. destruct (Hlook x bx Hx) as [-> ->]. congruence.
  - exists 1%positive. split; [done|]. split; simpl; [by apply elem_of_singleton|done|].
    intros x (bx & Hx & _) _. destruct (Hlook x bx Hx) as [-> ->]. by apply elem_of_singleton.
  - intros x bx Hx. destruct (Hlook x bx Hx) as [-> ->]. unfold counts_ok. rewrite E3, Ec. split_and!; (lia || done).
  - by intros x ?%elem_of_nil.
  - by intros q x ?%elem_of_nil.
  - intros x bx Hx _ E0. destruct (Hlook x bx Hx) as [-> ->]. lia.
  - intros x (bx & Hx & Hf). destruct (Hlook x bx Hx) as [-> ->]. congruence.
  - intros hash x. rewrite lookup_singleton_Some. split; [intros [<- <-]; by exists g|].
    intros (bx & Hx & <-). by destruct (Hlook x bx Hx) as [-> ->].
Qed.

Lemma step_store s s' : sane verdict disconnects → store_ok verdict M [] s → step s s' → store_ok verdict M [] s'.
Proof using Type.
  intros Hsane Hok [block q c p s2 ???????? E|block p b file pos s2 ??? E|s2 E].
  - by eapply (add_spec verdict M Hash fTest block q c s p s2).
  - destruct (received_spec verdict M block p b file pos s Hok) as (s3 & E3 & Hok3 & _); [done..|]. congruence.
  - destruct (so_above _ _ _ _ Hok) as (t & Ht & Hab).
    destruct (ActivateBestChain_spec G verdict disconnects s t Hsane (so_node _ _ _ _ Hok) Hab) as (s3 & m & E3 & Hs).
    assert (s2 = s3) as -> by congruence. by apply (store_settled verdict M s s3 m).
Qed.

Lemma history_store g s :
  sane verdict disconnects → genesis_ok g → rtc step (genesis_tree g) s → store_ok verdict M [] s.
Proof using Type.
  intros Hsane Hg Hr. pose proof (genesis_store g Hg) as Hok. induction Hr as [s|s1 s2 s3 Hs _ IH]; [done|].
  by apply IH, (step_store s1).
Qed.

(** C3: Whatever blocks have arrived, in whatever order, with or without activations in
    between: [ActivateBestChain] ends with the active chain on the best block of the
    tree whose ancestors all have arrived with their transactions and are all accepted,
    the most work first and the lowest hash on a tie.  The statement mentions neither
    candidates nor counters nor failure marks: they do not lose or delay any block. *)
Theorem fork_choice_correct g s :
  sane verdict disconnects → genesis_ok g → rtc step (genesis_tree g) s →
  ∃ s' m, ActivateBestChain G verdict disconnects s = Some (true, s') ∧ Tip (chainActive s') = Some m ∧
    valid_chain verdict (index s) m ∧ ∀ q, valid_chain verdict (index s) q → q ≠ m → worse (index s) q m = true.
Proof using Type.
  intros Hsane Hg Hr. pose proof (history_store g s Hsane Hg Hr) as Hok. destruct (so_above _ _ _ _ Hok) as (t & Ht & Hab).
  destruct (ActivateBestChain_spec G verdict disconnects s t Hsane (so_node _ _ _ _ Hok) Hab) as (s' & m & E & [Hnode Hk Htip Hab' Hbest]).
  exists s', m. split_and!; [done|by rewrite (Tip_ok (index s')); [|apply Hnode..]| |].
  - apply (store_eligible verdict M s m Hok), Hk, Hab'.
  - intros q Hq Hne. rewrite (worse_restatus _ _ (kept_restatus _ _ _ Hk) q q eq_refl m m eq_refl). apply Hbest; [|done].
    apply Hk. by apply (store_eligible verdict M s q Hok).
Qed.

End Histories.

(** ** Instances *)

Definition demo_genesis : CBlockIndex := tree_entry 50 1 None None 0 13.

Definition demo_block (hash : Z) : TreeBlock :=
  MkTreeBlock (hash :: replicate 7 0) 4 (50 :: replicate 7 0) (base_uint_zero W256) 1000 0x1e0fffff 7 false 2.

Definition demo_accepts (_ : ptr) : Verdict := Connected 9.

(** Two headers and then the transactions of the second. *)
Definition demo_history : Tree :=
  default (genesis_tree demo_genesis)
    ('(_, s) ← AddToBlockIndex (Sort := merge_std_sort) demo_uint256 true (demo_block 40) (genesis_tree demo_genesis);
     '(p, s) ← AddToBlockIndex (Sort := merge_std_sort) demo_uint256 true (demo_block 30) s;
     ReceivedBlockTransactions (demo_block 30) p 0 100 s).

Lemma demo_genesis_ok : genesis_ok demo_accepts 10 demo_genesis.
Proof.
  assert (∀ k, word 32 k → uwf W256 (k :: replicate 7 0)) as Hwf.
  { intros k Hk. split; [done|]. constructor; [done|]. repeat (constructor; [unfold word; lia|]). constructor. }
  repeat (split; [first [reflexivity|apply Hwf; unfold word; lia|simpl; lia|vm_compute; done]|]). by exists 9.
Qed.

Lemma demo_history_steps :
  rtc (step (Sort := merge_std_sort) demo_uint256 true [] demo_accepts (λ _, true) 10) (genesis_tree demo_genesis) demo_history.
Proof.
  assert (∀ k, word 32 k → uwf W256 (k :: replicate 7 0)) as Hwf.
  { intros k Hk. split; [done|]. constructor; [done|]. repeat (constructor; [unfold word; lia|]). constructor. }
  eapply rtc_l; [|eapply rtc_l; [|eapply rtc_l; [|apply rtc_refl]]].
  - eapply (step_header _ _ _ _ _ _ _ (demo_block 40) 1%positive demo_genesis);
      [apply Hwf; unfold word; lia|unfold word; simpl; lia|by vm_compute|by vm_compute|by vm_compute|by vm_compute|by vm_compute|by vm_compute|vm_compute; reflexivity].
  - eapply (step_header _ _ _ _ _ _ _ (demo_block 30) 1%positive demo_genesis);
      [apply Hwf; unfold word; lia|unfold word; simpl; lia|by vm_compute|by vm_compute|by vm_compute|by vm_compute|by vm_compute|by vm_compute|vm_compute; reflexivity].
  - eapply (step_transactions _ _ _ _ _ _ _ (demo_block 30) 3%positive _ 0 100); [vm_compute; reflexivity|by vm_compute|simpl; lia|by vm_compute].
Qed.

Lemma fork_choice_correct_witness :
  ∃ s', ActivateBestChain [] demo_accepts (λ _, true) demo_history = Some (true, s') ∧ Tip (chainActive s') = Some 3%positive ∧
    valid_chain demo_accepts (index demo_history) 3%positive.
Proof.
  destruct (fork_choice_correct (Sort := merge_std_sort) demo_uint256 true [] demo_accepts (λ _, true) 10 demo_genesis demo_history)
    as (s' & m & E & Ht & Hv & _).
  - split; [|done]. intros p. right. by exists 9.
  - apply demo_genesis_ok.
  - apply demo_history_steps.
  - assert (m = 3%positive) as ->.
    { assert ((λ r, Tip (chainActive (snd r))) <$> ActivateBestChain [] demo_accepts (λ _, true) demo_history = Some (Some 3%positive)) as F
        by (by vm_compute).
      rewrite E in F. simpl in F. rewrite Ht in F. by injection F. }
    exists s'. split; [exact E|]. split; [exact Ht|exact Hv].
Defined.

(** ** Marking a block by hand *)

Lemma can_be_candidate_spec b :
  can_be_candidate b = true ↔ failed b = false ∧ BLOCK_VALID_TRANSACTIONS ≤ level b ∧ nChainTx b ≠ 0.
Proof.
  unfold can_be_candidate, IsValid. change (validity_ok BLOCK_VALID_TRANSACTIONS) with true. cbn [negb]. unfold failed, level.
  destruct (nStatus b .& BLOCK_FAILED_MASK =? 0); cbn [negb]; [|naive_solver].
  destruct (Z.leb_spec BLOCK_VALID_TRANSACTIONS (nStatus b .& BLOCK_VALID_MASK)), (Z.eqb_spec (nChainTx b) 0); naive_solver lia.
Qed.

Section Invalidate.
Context (p : ptr).

(** Marks and removals touch only the block and its descendants. *)
Record touched (s s' : Tree) : Prop := {
  to_restatus : restatus (index s) (index s');
  to_others : ∀ x, p ∉ line (index s) x → index s' !! x = index s !! x;
  to_candidates : candidates s' ⊆ candidates s;
  to_map : mapBlockIndex s' = mapBlockIndex s;
  to_fails : marked (index s') p }.

Lemma touched_mark s s1 w b v :
  touched s s1 → index s1 !! w = Some b → p ∈ line (index s) w → v .& BLOCK_HAVE_DATA = 0 → v .& BLOCK_FAILED_MASK = v →
  touched s (with_candidates (candidates s1 ∖ {[w]}) (with_index (<[w := set_nStatus (nStatus b .| v) b]> (index s1)) s1)).
Proof using Type.
  intros [Hr Ho Hc Hm (bp & Hbp & Hf)] Hw Hp Hv Hv'. split; simpl; [|..|set_solver|done|].
  - rewrite Hr. by apply (restatus_update _ w b); [|apply unstatus_set_bits].
  - intros x Hx. rewrite lookup_insert_ne by congruence. by apply Ho.
  - unfold marked. destruct (decide (w = p)) as [->|Hne]; [|rewrite lookup_insert_ne by done; by exists bp].
    rewrite lookup_insert_eq. eexists. split; [done|]. rewrite Hbp in Hw. injection Hw as <-. unfold failed in *.
    rewrite nStatus_set, Z.land_lor_distr_l. apply negb_true_iff, Z.eqb_neq in Hf. apply negb_true_iff, Z.eqb_neq.
    intros E. by apply Z.lor_eq_0_iff in E as [? _].
Qed.

Lemma invalidate_loop_spec fuel s s1 w bw :
  tree_wf (index s) → touched s s1 → chain_ok (index s1) (chainActive s1) → atomicTip (chainActive s1) = Some w →
  index s1 !! w = Some bw → (∀ b, index s !! p = Some b → pprev b ≠ None) → nHeight bw < Z.of_nat fuel →
  ∃ s' w', invalidate_loop (λ _, true) fuel p s1 = Some (true, s') ∧ touched s s' ∧ chain_ok (index s') (chainActive s') ∧
    atomicTip (chainActive s') = Some w' ∧ w' ∈ line (index s) w ∧ p ∉ line (index s) w'.
Proof using Type.
  intros Hwf Ht Hc Hw Hbw Hroot. revert s1 w bw Ht Hc Hw Hbw. induction fuel as [|fuel IH]; intros s1 w bw Ht Hc Hw Hbw Hf;
    pose proof (to_restatus _ _ Ht) as Hr; pose proof (tree_wf_restatus _ _ Hr Hwf) as Hwf1; [destruct (Hwf1 w bw Hbw); lia|].
  cbn [invalidate_loop]. destruct (Contains (index s1) (chainActive s1) p) eqn:Ec; cbn [negb].
  2:{ exists s1, w. split_and!; [done..| |].
      - rewrite (line_restatus _ _ Hr w w eq_refl). by apply (line_self _ w bw).
      - rewrite (line_restatus _ _ Hr w w eq_refl), <- (Contains_line _ _ w p Hwf1 Hc Hw). congruence. }
  assert (p ∈ line (index s) w) as Hp by (rewrite (line_restatus _ _ Hr w w eq_refl); by apply (Contains_line _ _ w p Hwf1 Hc Hw)).
  rewrite (Tip_ok (index s1)), Hw by done. cbn [mbind option_bind]. rewrite Hbw. cbn [mbind option_bind].
  pose proof (touched_mark s s1 w bw BLOCK_FAILED_CHILD Ht Hbw Hp eq_refl eq_refl) as Ht2. set (s2 := with_candidates _ _) in *.
  set (bw2 := set_nStatus _ bw) in *.
  assert (index s2 !! w = Some bw2) as Hbw2 by (simpl; by rewrite lookup_insert_eq).
  pose proof (tree_wf_restatus _ _ (to_restatus _ _ Ht2) Hwf) as Hwf2.
  assert (chain_ok (index s2) (chainActive s2)) as Hc2.
  { apply (chain_ok_same (index s1)); [|done]. apply restatus_same. rewrite <- (to_restatus _ _ Ht2). by symmetry. }
  assert (∃ q, pprev bw2 = Some q) as [q Eq].
  { destruct (pprev bw2) as [q|] eqn:Eq; [by exists q|]. rewrite (line_restatus _ _ (to_restatus _ _ Ht2) w w eq_refl) in Hp.
    rewrite (line_cons _ w bw2), Eq in Hp by done. apply list_elem_of_singleton in Hp as <-.
    pose proof (to_restatus _ _ Ht2) as Hr2. symmetry in Hr2. destruct (restatus_lookup _ _ p bw2 Hr2 Hbw2) as (b & Hb & E).
    destruct (unstatus_fields _ _ E) as (Ep & _). destruct (Hroot b Hb). congruence. }
  destruct (tree_parent _ w bw2 q Hwf2 Hbw2 Eq) as (c & Hq & Hh). unfold DisconnectTip, UpdateTip.
  change (chainActive s2) with (chainActive s1). rewrite (Tip_ok (index s1)), Hw by done. cbn [mbind option_bind negb].
  rewrite Hbw2. cbn [mbind option_bind]. rewrite Eq.
  destruct (SetTip_ok (index s2) (chainActive s1) q c Hwf2 Hc2 Hq) as (c' & -> & Hc' & Hat). cbn [mbind option_bind].
  assert (nHeight bw2 = nHeight bw) as Ehw by (unfold bw2; by destruct bw).
  destruct (IH (with_chain c' s2) q c) as (s' & w' & -> & Ht' & Hcc & Hw' & Hin & Hnp); [by destruct Ht2|done..|lia|].
  exists s', w'. split_and!; [done..| |done].
  rewrite (line_restatus _ _ (to_restatus _ _ Ht2) w w eq_refl), (line_cons _ w bw2), Eq by done. right.
  by rewrite <- (line_restatus _ _ (to_restatus _ _ Ht2) q q eq_refl).
Qed.

Context (verdict : ptr → Verdict).

Lemma touched_eligible s s' q :
  tree_wf (index s) → touched s s' → eligible verdict (index s') q ↔ eligible verdict (index s) q ∧ p ∉ line (index s) q.
Proof using Type.
  intros Hwf [Hr Ho _ _ (bp & Hbp & Hf)]. pose proof (tree_wf_restatus _ _ Hr Hwf) as Hwf'.
  assert (∀ x, p ∉ line (index s) q → x ∈ line (index s) q → index s' !! x = index s !! x) as Hsame.
  { intros x Hn Hx. apply Ho. intros Hpx. apply Hn. destruct (branch_in_heap _ _ q x Hx) as [Hq _]. by apply (line_trans _ q x). }
  split.
  - intros He. assert (p ∉ line (index s) q) as Hn.
    { rewrite (line_restatus _ _ Hr q q eq_refl). intros Hin. destruct He as (_ & _ & _ & Hall). rewrite Forall_forall in Hall.
      destruct (Hall p Hin) as [Hg _]. destruct (Hg bp Hbp). congruence. }
    split; [|done]. apply (eligible_restatus verdict (index s')); [by symmetry|done| |done]. intros x Hx Hg.
    rewrite <- (line_restatus _ _ Hr q q eq_refl) in Hx. unfold good. by rewrite <- (Hsame x Hn Hx).
  - intros [He Hn]. apply (eligible_restatus verdict (index s)); [done..| |done]. intros x Hx Hg. unfold good. by rewrite (Hsame x Hn Hx).
Qed.

(** Candidates may be added as long as their transactions have arrived. *)
Lemma node_ok_candidates s c :
  node_ok verdict s → (∀ x, x ∈ c → ∃ b, index s !! x = Some b ∧ nChainTx b ≠ 0) → node_ok verdict (with_candidates c s).
Proof using Type. intros [[] ? ? ? ?] Hc. by split; [split|..]. Qed.

(** The first mark. *)
Lemma touched_first s b :
  tree_wf (index s) → index s !! p = Some b →
  touched s (with_candidates (candidates s ∖ {[p]}) (with_index (<[p := set_nStatus (nStatus b .| BLOCK_FAILED_VALID) b]> (index s)) s)).
Proof using Type.
  intros Hwf Hb. split; simpl; [|..|set_solver|done|].
  - by apply (restatus_update _ p b); [|apply unstatus_set_bits].
  - intros x Hx. rewrite lookup_insert_ne; [done|]. intros <-. apply Hx. by apply (line_self _ p b).
  - exists (set_nStatus (nStatus b .| BLOCK_FAILED_VALID) b). rewrite lookup_insert_eq. split; [done|]. unfold failed. rewrite nStatus_set.
    apply negb_true_iff, Z.eqb_neq. rewrite Z.land_lor_distr_l. intros E. by apply Z.lor_eq_0_iff in E as [_ ?].
Qed.

(** The node after the loop, on a tip below the block. *)
Lemma touched_node s s' w :
  node_ok verdict s → touched s s' → chain_ok (index s') (chainActive s') → atomicTip (chainActive s') = Some w →
  eligible verdict (index s) w → (p ∉ line (index s) w) → node_ok verdict s'.
Proof using Type.
  intros Hok Ht Hc Hw He Hp. pose proof (ok_tree _ (nd_tree _ _ Hok)) as Hwf.
  assert (chain_ok (index s) (chainActive s')) as Hc0 by (apply (chain_ok_same (index s')); [symmetry; apply restatus_same, Ht|done]).
  apply (node_ok_restatus verdict (with_chain (chainActive s') s)); [by apply (node_ok_chain verdict s _ w)|apply Ht|done|apply Ht|].
  intros w' Hw' _. simpl in *. rewrite Hw in Hw'. injection Hw' as <-. by apply (touched_eligible s).
Qed.

Lemma elem_of_again s w x :
  (∀ hash x, mapBlockIndex s !! hash = Some x ↔ ∃ bx, index s !! x = Some bx ∧ phashBlock bx = hash) →
  x ∈ again s w (map_to_list (mapBlockIndex s)).*2 ↔
  ∃ bx, index s !! x = Some bx ∧ can_be_candidate bx = true ∧ worse (index s) x w = false.
Proof using Type.
  intros Hmap. unfold again. rewrite list_elem_of_filter. split.
  - intros [Hx _]. destruct (index s !! x) as [bx|]; [|done]. apply andb_true_iff in Hx as [? ?%negb_true_iff]. by exists bx.
  - intros (bx & Hx & Hcan & Hwx). rewrite Hx, Hcan, Hwx. split; [done|]. apply list_elem_of_fmap.
    exists (phashBlock bx, x). split; [done|]. apply elem_of_map_to_list, Hmap. by exists bx.
Qed.

(** With the candidates put back, the node is ready for the next activation. *)
Lemma again_above s w :
  node_ok verdict s → eligible verdict (index s) w →
  (∀ hash x, mapBlockIndex s !! hash = Some x ↔ ∃ bx, index s !! x = Some bx ∧ phashBlock bx = hash) →
  (∀ x bx, eligible verdict (index s) x → index s !! x = Some bx → BLOCK_VALID_TRANSACTIONS ≤ level bx) →
  let s' := with_candidates (candidates s ∪ list_to_set (again s w (map_to_list (mapBlockIndex s)).*2)) s in
  node_ok verdict s' ∧ above verdict w s'.
Proof using Type.
  intros Hok He Hmap Hlev s'. pose proof (ok_tree _ (nd_tree _ _ Hok)) as Hwf.
  assert (∀ x, eligible verdict (index s) x → worse (index s) x w = false → x ∈ candidates s') as Hall.
  { intros x Hx Hwx. apply elem_of_union. right. apply elem_of_list_to_set, (elem_of_again s w x Hmap).
    pose proof Hx as (bx & Hbx & Htx & HF). exists bx. split_and!; [done| |done]. apply can_be_candidate_spec. rewrite Forall_forall in HF.
    destruct (HF x (line_self _ x bx Hwf Hbx)) as [Hg _]. destruct (Hg bx Hbx) as [Hf _]. split_and!; [done|by apply (Hlev x)|done]. }
  split; [|by split; [apply Hall; [|apply worse_irrefl, (nd_tree _ _ Hok)]|..]].
  apply node_ok_candidates; [done|]. intros x [Hx|Hx]%elem_of_union; [by apply (ok_candidates _ (nd_tree _ _ Hok))|].
  apply elem_of_list_to_set, (elem_of_again s w x Hmap) in Hx as (bx & Hx & Hcan & _).
  apply can_be_candidate_spec in Hcan as (_ & _ & Htx). by exists bx.
Qed.

Lemma renew_header_only w l s : ∃ u, renew_header w l s = with_bestHeader u s.
Proof using Type.
  assert (s = with_bestHeader (pindexBestHeader s) s) as Es by (by destruct s). unfold renew_header.
  destruct (_ ≫= _); [|by exists (pindexBestHeader s)]. destruct (header_ok _); [by exists (pindexBestHeader s)|by eexists].
Qed.

(** The map and the heap of a touched state still correspond. *)
Lemma touched_map s s' :
  touched s s' → (∀ hash x, mapBlockIndex s !! hash = Some x ↔ ∃ bx, index s !! x = Some bx ∧ phashBlock bx = hash) →
  ∀ hash x, mapBlockIndex s' !! hash = Some x ↔ ∃ bx, index s' !! x = Some bx ∧ phashBlock bx = hash.
Proof using Type.
  intros Ht Hmap hash x. rewrite (to_map _ _ Ht), Hmap. pose proof (to_restatus _ _ Ht) as Hr.
  split; intros (b & Hb & <-); [|symmetry in Hr]; destruct (restatus_lookup _ _ x b Hr Hb) as (b' & Hb' & E); exists b';
    by destruct (unstatus_fields _ _ E) as (_ & _ & _ & ? & ?).
Qed.

(** C18: Marking a block other than the genesis block disconnects it and everything above it,
    makes exactly its descendants ineligible, and leaves every other eligible block that
    is not worse than the new tip a candidate again, so that the next
    [ActivateBestChain] finds the best of them. *)
Theorem InvalidateBlock_spec s t b q :
  node_ok verdict s → atomicTip (chainActive s) = Some t → index s !! p = Some b → pprev b = Some q →
  (∀ hash x, mapBlockIndex s !! hash = Some x ↔ ∃ bx, index s !! x = Some bx ∧ phashBlock bx = hash) →
  (∀ x bx, index s !! x = Some bx → nChainTx bx ≠ 0 → failed bx = false → BLOCK_VALID_TRANSACTIONS ≤ level bx) →
  ∃ s' w, InvalidateBlock (λ _, true) p s = Some (true, s') ∧ node_ok verdict s' ∧ Tip (chainActive s') = Some w ∧
    w ∈ line (index s) t ∧ (p ∉ line (index s) w) ∧ above verdict w s' ∧
    (∀ x, eligible verdict (index s') x ↔ eligible verdict (index s) x ∧ p ∉ line (index s) x).
Proof using Type.
  intros Hok Ht Hb Eb Hmap Hlev. pose proof (ok_tree _ (nd_tree _ _ Hok)) as Hwf.
  destruct (nd_tip _ _ Hok) as (t' & Ht' & Hel). rewrite Ht in Ht'. injection Ht' as <-. pose proof Hel as (bt & Hbt & _).
  unfold InvalidateBlock. rewrite Hb. cbn [mbind option_bind]. pose proof (touched_first s b Hwf Hb) as Ht1. set (s1 := with_candidates _ _) in *.
  destruct (restatus_lookup _ _ t bt (to_restatus _ _ Ht1) Hbt) as (bt1 & Hbt1 & Et). destruct (unstatus_fields _ _ Et) as (_ & Eh & _).
  destruct (invalidate_loop_spec (length (vChain (chainActive s))) s s1 t bt1) as (s2 & w & E2 & Ht2 & Hc2 & Hw & Hwt & Hpw);
    [done|done| |done|done|congruence| |].
  { apply (chain_ok_same (index s)); [apply restatus_same, Ht1|apply Hok]. }
  { pose proof (nd_chain _ _ Hok) as Hch. unfold chain_ok in Hch. rewrite Ht in Hch. destruct Hch as [_ ->].
    rewrite (path_length _ t bt) by done. destruct (Hwf t bt Hbt). lia. }
  change (chainActive (with_index _ s)) with (chainActive s). rewrite E2. cbn [mbind option_bind negb].
  rewrite (Tip_ok (index s2)), Hw by (done || apply (tree_wf_restatus _ _ (to_restatus _ _ Ht2) Hwf)). cbn [mbind option_bind].
  pose proof (λ x, touched_eligible s s2 x Hwf Ht2) as Heq.
  assert (eligible verdict (index s) w) as Hew by (by apply (eligible_line verdict _ t); [|apply (nd_tree _ _ Hok)|..]).
  destruct (again_above s2 w) as [Hok3 Hab3]; [by apply (touched_node s _ w)|by apply Heq|by apply (touched_map s)| |].
  { intros x bx He Hx. apply Heq in He as [(b0 & Hx0 & Htx & HF) Hn]. rewrite (to_others _ _ Ht2) in Hx by done.
    rewrite Hx0 in Hx. injection Hx as <-. rename Hx0 into Hx.
    apply (Hlev x b0 Hx Htx). rewrite Forall_forall in HF. destruct (HF x (line_self _ x b0 Hwf Hx)) as [Hg _]. by destruct (Hg b0 Hx). }
  set (s3 := with_candidates (_ ∪ _) _) in *. destruct (restatus_lookup _ _ p b (to_restatus _ _ Ht2) Hb) as (bp2 & Hbp2 & _).
  destruct (InvalidChainFound_spec verdict p s3 Hok3) as [v ->]; [by eexists|]. cbn [mbind option_bind].
  destruct (with_bestInvalid_keeps verdict v w s3) as (K1 & K2 & _). specialize (K1 Hok3). specialize (K2 Hab3).
  destruct (renew_header_only w (map_to_list (mapBlockIndex s2)).*2 (with_bestInvalid v s3)) as [u ->].
  exists (with_bestHeader u (with_bestInvalid v s3)), w.
  split_and!; [done|by destruct K1 as [[]]|change (Tip (chainActive s2) = Some w)|done|done|by destruct K2|exact Heq].
  by rewrite (Tip_ok (index s2)) by (done || apply (tree_wf_restatus _ _ (to_restatus _ _ Ht2) Hwf)).
Qed.

End Invalidate.

(** ** Taking marks back *)

Lemma IsValid_TRANSACTIONS c :
  IsValid BLOCK_VALID_TRANSACTIONS c = Some (negb (failed c) && (BLOCK_VALID_TRANSACTIONS <=? level c)).
Proof.
  unfold IsValid. change (validity_ok BLOCK_VALID_TRANSACTIONS) with true. cbn [negb]. unfold failed, level.
  by destruct (nStatus c .& BLOCK_FAILED_MASK =? 0).
Qed.

Lemma clear_failed_spec b :
  unstatus (clear_failed b) = unstatus b ∧ failed (clear_failed b) = false ∧ level (clear_failed b) = level b.
Proof.
  unfold unstatus, failed, level, clear_failed. rewrite !nStatus_set, <- !Z.land_assoc.
  change (u32 (Z.lnot BLOCK_FAILED_MASK) .& BLOCK_HAVE_DATA) with BLOCK_HAVE_DATA.
  change (u32 (Z.lnot BLOCK_FAILED_MASK) .& BLOCK_FAILED_MASK) with 0.
  change (u32 (Z.lnot BLOCK_FAILED_MASK) .& BLOCK_VALID_MASK) with BLOCK_VALID_MASK. rewrite Z.land_0_r. by destruct b.
Qed.

(** The marks of the blocks in [D] are taken back, and the blocks in [C] are new candidates. *)
Record cleared (D C : ptr → Prop) (s s' : Tree) : Prop := {
  cl_restatus : restatus (index s) (index s');
  cl_level : ∀ x c c', index s !! x = Some c → index s' !! x = Some c' → level c' = level c;
  cl_failed : ∀ x c', D x → index s' !! x = Some c' → failed c' = false;
  cl_others : ∀ x, ¬ D x → index s' !! x = index s !! x;
  cl_candidates : ∀ x, x ∈ candidates s' ↔ x ∈ candidates s ∨ C x;
  cl_chain : chainActive s' = chainActive s;
  cl_map : mapBlockIndex s' = mapBlockIndex s }.

Lemma cleared_equiv D D' C C' s s' :
  (∀ x, D x ↔ D' x) → (∀ x, C x ↔ C' x) → cleared D C s s' → cleared D' C' s s'.
Proof.
  intros HD HC [Hr Hl Hf Ho Hc Hch Hm]. split; [done|done| | | |done|done].
  - intros x c' Hx%HD. by apply Hf.
  - intros x Hx. apply Ho. by rewrite HD.
  - intros x. by rewrite <- HC.
Qed.

(** One more block is cleared. *)
Lemma cleared_one D C (P : Prop) s s' x b s2 :
  cleared D C s s' → index s' !! x = Some b → index s2 = <[x := clear_failed b]> (index s') →
  chainActive s2 = chainActive s' → mapBlockIndex s2 = mapBlockIndex s' →
  (∀ y, y ∈ candidates s2 ↔ y ∈ candidates s' ∨ (y = x ∧ P)) →
  cleared (λ y, D y ∨ y = x) (λ y, C y ∨ (y = x ∧ P)) s s2.
Proof.
  intros [Hr Hl Hf Ho Hc Hch Hm] Hx Ei E1 E2 Ec. destruct (clear_failed_spec b) as (Hu & Hff & Hlv). split.
  - rewrite Hr, Ei. by apply (restatus_update _ x b).
  - intros y c c' Hy. rewrite Ei. destruct (decide (y = x)) as [->|Hne]; [|rewrite lookup_insert_ne by done; by apply Hl].
    rewrite lookup_insert_eq. intros [= <-]. rewrite Hlv. by apply (Hl x c).
  - intros y c' Hy. rewrite Ei. destruct (decide (y = x)) as [->|Hne]; [rewrite lookup_insert_eq; by intros [= <-]|].
    rewrite lookup_insert_ne by done. destruct Hy as [Hy|?]; [by apply Hf|done].
  - intros y Hy. rewrite Ei, lookup_insert_ne by (intros ->; tauto). apply Ho. tauto.
  - intros y. rewrite Ec, Hc. tauto.
  - by rewrite E1.
  - by rewrite E2.
Qed.

Section Reconsider.
Context (p tip : ptr).

(** A marked descendant whose transactions are there, better than the tip. *)
Definition joins (s : Tree) (x : ptr) : Prop :=
  ∃ c, index s !! x = Some c ∧ p ∈ line (index s) x ∧ failed c = true ∧ BLOCK_VALID_TRANSACTIONS ≤ level c ∧ nChainTx c ≠ 0 ∧
    worse (index s) tip x = true.

(** A descendant that [IsValid] refuses, marked or with its header only. *)
Definition invalid_below (s : Tree) (x : ptr) : Prop :=
  ∃ c, index s !! x = Some c ∧ p ∈ line (index s) x ∧ IsValid BLOCK_VALID_TRANSACTIONS c = Some false.

Lemma reconsider_one_spec s s' b (l : list ptr) x :
  tree_wf (index s) → index s !! p = Some b → x ∉ l →
  cleared (λ y, y ∈ l ∧ invalid_below s y) (λ y, y ∈ l ∧ joins s y) s s' →
  cleared (λ y, y ∈ x :: l ∧ invalid_below s y) (λ y, y ∈ x :: l ∧ joins s y) s (reconsider_one p (nHeight b) tip s' x).
Proof using Type.
  intros Hwf Hp Hxl Hcl. pose proof Hcl as [Hr _ _ Ho Hca _ _]. pose proof (tree_wf_restatus _ _ Hr Hwf) as Hwf'.
  assert (index s' !! x = index s !! x) as Ex by (apply Ho; tauto). unfold reconsider_one. rewrite Ex.
  destruct (index s !! x) as [c|] eqn:Hx.
  2:{ eapply cleared_equiv; [..|exact Hcl]; intros y; rewrite elem_of_cons; split; [tauto| |tauto|].
      - intros [[->|?] Hy]; [|tauto]. destruct Hy as (? & Hy & _). congruence.
      - intros [[->|?] Hy]; [|tauto]. destruct Hy as (? & Hy & _). congruence. }
  assert (GetAncestor (index s') x (nHeight b) = Some p ↔ p ∈ line (index s) x) as Hanc.
  { rewrite GetAncestor_spec by done. rewrite (line_restatus _ _ Hr x x eq_refl).
    destruct (restatus_lookup _ _ p b Hr Hp) as (b' & Hb' & E). destruct (unstatus_fields _ _ E) as (_ & -> & _).
    symmetry. apply (elem_of_line _ x c); [done|congruence|done]. }
  rewrite IsValid_TRANSACTIONS. destruct (negb (failed c) && (BLOCK_VALID_TRANSACTIONS <=? level c)) eqn:Ev; cbn [andb].
  { eapply cleared_equiv; [..|exact Hcl]; intros y; rewrite elem_of_cons; split; [tauto| |tauto|].
    - intros [[->|?] Hy]; [|tauto]. destruct Hy as (c' & Hy & _ & Hi). rewrite IsValid_TRANSACTIONS in Hi. congruence.
    - intros [[->|?] Hy]; [|tauto]. destruct Hy as (c' & Hy & _ & Hi & _). assert (c' = c) as -> by congruence. by rewrite Hi in Ev. }
  destruct (bool_decide _) eqn:Eb; [apply bool_decide_eq_true, Hanc in Eb|apply bool_decide_eq_false in Eb; rewrite Hanc in Eb].
  2:{ eapply cleared_equiv; [..|exact Hcl]; intros y; rewrite elem_of_cons; split; [tauto| |tauto|].
      - intros [[->|?] Hy]; [|tauto]. by destruct Hy as (? & _ & ? & _).
      - intros [[->|?] Hy]; [|tauto]. by destruct Hy as (? & _ & ? & _). }
  set (s1 := with_index _ s'). set (s2 := if can_be_candidate _ && _ then _ else _).
  assert (restatus (index s) (index s1)) as Hr1.
  { rewrite Hr. apply (restatus_update _ x c); [congruence|apply clear_failed_spec]. }
  assert (∀ s3, s3 = s2 ∨ s3 = with_bestInvalid None s2 →
    cleared (λ y, y ∈ x :: l ∧ invalid_below s y) (λ y, y ∈ x :: l ∧ joins s y) s s3) as Hgoal;
    [|destruct (bool_decide _); apply Hgoal; auto].
  intros s3 Hs3. destruct (clear_failed_spec c) as (Hu & Hff & Hlv).
  assert (candidates s3 = candidates s2 ∧ index s3 = index s1 ∧ chainActive s3 = chainActive s' ∧ mapBlockIndex s3 = mapBlockIndex s')
    as (E1 & E2 & E3 & E4) by (unfold s2 in *; destruct (can_be_candidate _ && _), Hs3 as [-> | ->]; split_and!; reflexivity).
  assert (can_be_candidate (clear_failed c) && worse (index s1) tip x = true ↔ joins s x) as Hj.
  { rewrite andb_true_iff, can_be_candidate_spec, Hff, Hlv. destruct (unstatus_fields _ _ Hu) as (_ & _ & _ & _ & -> & _).
    rewrite <- (worse_restatus _ _ Hr1 tip tip eq_refl x x eq_refl). unfold joins. split.
    - intros ((_ & Hl & Htx) & Hw). exists c. split; [done|]. split; [done|]. split; [|done].
      apply andb_false_iff in Ev as [Ev%negb_false_iff|Ev%Z.leb_gt]; [done|lia].
    - intros (c' & Hc' & _ & _ & Hl & Htx & Hw). assert (c' = c) as -> by congruence. done. }
  eapply cleared_equiv; [| |apply (cleared_one _ _ (joins s x) _ _ x c s3 Hcl); [congruence|done|done|done|]].
  - intros y. rewrite elem_of_cons. split; [|naive_solver]. intros [?| ->]; [tauto|]. split; [by left|].
    exists c. rewrite IsValid_TRANSACTIONS, Ev. done.
  - intros y. rewrite elem_of_cons. naive_solver.
  - intros y. rewrite E1. unfold s2. destruct (can_be_candidate _ && _).
    + change (y ∈ candidates s' ∪ {[x]} ↔ y ∈ candidates s' ∨ y = x ∧ joins s x). rewrite elem_of_union, elem_of_singleton.
      assert (joins s x) by (by apply Hj). tauto.
    + change (y ∈ candidates s' ↔ y ∈ candidates s' ∨ y = x ∧ joins s x). split; [tauto|]. intros [?|[_ Hjx]]; [done|]. by apply Hj in Hjx.
Qed.

Lemma reconsider_fold s s' b (l d : list ptr) :
  tree_wf (index s) → index s !! p = Some b → NoDup l → (∀ x, x ∈ l → x ∉ d) →
  cleared (λ y, y ∈ d ∧ invalid_below s y) (λ y, y ∈ d ∧ joins s y) s s' →
  cleared (λ y, (y ∈ d ∨ y ∈ l) ∧ invalid_below s y) (λ y, (y ∈ d ∨ y ∈ l) ∧ joins s y) s (foldl (reconsider_one p (nHeight b) tip) s' l).
Proof using Type.
  intros Hwf Hp Hnd. revert s' d. induction Hnd as [|x l Hx Hnd IH]; intros s' d Hd Hcl; cbn [foldl].
  { eapply cleared_equiv; [..|exact Hcl]; intros y; rewrite elem_of_nil; tauto. }
  eapply cleared_equiv; [..|apply (IH _ (x :: d))].
  - intros y. rewrite !elem_of_cons. tauto.
  - intros y. rewrite !elem_of_cons. tauto.
  - intros y Hy. rewrite elem_of_cons. intros [->|Hy']; [done|]. apply (Hd y); [by right|done].
  - apply reconsider_one_spec; [done..| |done]. apply Hd. by left.
Qed.

Lemma clear_ancestors_spec fuel D C s s' q bq :
  tree_wf (index s) → index s !! q = Some bq → nHeight bq < Z.of_nat fuel → cleared D C s s' →
  ∃ s2, clear_ancestors fuel (Some q) s' = Some s2 ∧ cleared (λ y, D y ∨ y ∈ line (index s) q) C s s2.
Proof using Type.
  intros Hwf. revert D s' q bq. induction fuel as [|fuel IH]; intros D s' q bq Hq Hf Hcl; destruct (Hwf q bq Hq) as [H0 He]; [lia|].
  cbn [clear_ancestors]. destruct (restatus_lookup _ _ q bq (cl_restatus _ _ _ _ Hcl) Hq) as (b' & Hb' & E).
  rewrite Hb'. cbn [mbind option_bind]. destruct (unstatus_fields _ _ E) as (Ep & _). rewrite <- Ep.
  set (s1 := if failed b' then _ else s'). assert (cleared (λ y, D y ∨ y = q) C s s1) as Hcl1.
  { unfold s1. destruct (failed b') eqn:Ef.
    - refine (cleared_equiv _ _ _ _ _ _ _ _ (cleared_one D C False s s' q b' (with_index (<[q := clear_failed b']> (index s')) s') Hcl Hb' eq_refl eq_refl eq_refl _)); intros y; simpl; tauto.
    - destruct Hcl as [Hr Hl Hfd Ho Hc Hch Hm]. split; [done|done| | |done|done|done].
      + intros y c' [Hy| ->]; [by apply Hfd|]. congruence.
      + intros y Hy. apply Ho. tauto. }
  rewrite (line_cons _ q bq) by done. unfold entry_wf in He. destruct (pprev bq) as [r|].
  - destruct He as (c & Hr & Hh & _). destruct (IH _ s1 r c Hr ltac:(lia) Hcl1) as (s2 & -> & Hs2). exists s2. split; [done|].
    refine (cleared_equiv _ _ _ _ _ _ _ _ Hs2); intros y; rewrite ?elem_of_cons; tauto.
  - exists s1. split; [by destruct fuel|]. refine (cleared_equiv _ _ _ _ _ _ _ _ Hcl1); intros y; rewrite ?list_elem_of_singleton; tauto.
Qed.

(** C24: what reconsidering a block does, in every tree.  The marks of the block, of all its
    descendants and of all its ancestors are taken back, and no other entry changes; but the
    new candidates are the descendants only, those that were marked, have their
    transactions and are better than the tip.  No ancestor becomes a candidate, however good
    it is: where the reconsidered block itself is not ready, a valid ancestor better than
    the tip stays out of the choice. *)
Theorem ReconsiderBlock_spec s b :
  tree_wf (index s) → index s !! p = Some b → Tip (chainActive s) = Some tip →
  (∀ hash x, mapBlockIndex s !! hash = Some x ↔ ∃ bx, index s !! x = Some bx ∧ phashBlock bx = hash) →
  ∃ s', ReconsiderBlock p s = Some s' ∧ chainActive s' = chainActive s ∧ restatus (index s) (index s') ∧
    (∀ x c, index s !! x = Some c → ∃ c', index s' !! x = Some c' ∧ level c' = level c ∧
       (p ∈ line (index s) x ∨ x ∈ line (index s) p → failed c' = false) ∧
       ((p ∉ line (index s) x) → (x ∉ line (index s) p) → c' = c)) ∧
    (∀ x, x ∈ candidates s' ↔ x ∈ candidates s ∨
       ∃ c, index s !! x = Some c ∧ p ∈ line (index s) x ∧ failed c = true ∧ BLOCK_VALID_TRANSACTIONS ≤ level c ∧ nChainTx c ≠ 0 ∧
         worse (index s) tip x = true) ∧
    (∀ x, x ∈ line (index s) p → x ≠ p → x ∈ candidates s' ↔ x ∈ candidates s).
Proof using Type.
  intros Hwf Hp Ht Hmap. destruct (Hwf p b Hp) as [H0 _]. unfold ReconsiderBlock. rewrite Hp. cbn [mbind option_bind]. rewrite Ht. cbn [mbind option_bind].
  set (l := (map_to_list (mapBlockIndex s)).*2). assert (∀ x c, index s !! x = Some c → x ∈ l) as Hall.
  { intros x c Hx. apply list_elem_of_fmap. exists (phashBlock c, x). split; [done|]. apply elem_of_map_to_list, Hmap. by exists c. }
  assert (cleared (λ y, (y ∈ ([] : list ptr) ∨ y ∈ l) ∧ invalid_below s y) (λ y, (y ∈ ([] : list ptr) ∨ y ∈ l) ∧ joins s y) s
    (foldl (reconsider_one p (nHeight b) tip) s l)) as Hcl.
  { apply reconsider_fold; [done|done| |by intros x _ ?%not_elem_of_nil|].
    - apply NoDup_fmap_2_strong; [|apply NoDup_map_to_list]. intros [k x] [k' x'] Hk%elem_of_map_to_list Hk'%elem_of_map_to_list E.
      simpl in E. subst x'. apply Hmap in Hk as (c & Hc & <-), Hk' as (c' & Hc' & <-). congruence.
    - split; [done|congruence| |done| |done|done]; [by intros x c' [?%not_elem_of_nil _]|]. intros x. split; [tauto|].
      intros [?|[?%not_elem_of_nil _]]; done. }
  destruct (clear_ancestors_spec (S (Z.to_nat (nHeight b))) _ _ s _ p b Hwf Hp ltac:(lia) Hcl) as (s' & -> & [Hr Hl Hf Ho Hc Hch _]).
  assert (∀ x, x ∈ candidates s' ↔ x ∈ candidates s ∨ joins s x) as Hc'.
  { intros x. rewrite Hc. split; [tauto|]. intros [?|Hj]; [tauto|]. right. split; [right|done]. destruct Hj as (c & Hx & _). by apply (Hall x c). }
  exists s'. split_and!; [done|done|done| |done|].
  - intros x c Hx. destruct (restatus_lookup _ _ x c Hr Hx) as (c' & Hx' & _). exists c'. split_and!; [done|by apply (Hl x)| |].
    + intros Hrel. destruct (failed c') eqn:Ef; [|done].
      assert (¬ ((x ∈ ([] : list ptr) ∨ x ∈ l) ∧ invalid_below s x ∨ x ∈ line (index s) p)) as Hn by (intros Hd; by rewrite (Hf x c') in Ef).
      rewrite Ho, Hx in Hx' by done. injection Hx' as <-. exfalso. destruct Hrel as [Hd|?]; [|tauto]. apply Hn. left.
      split; [right; by apply (Hall x c)|]. exists c. rewrite IsValid_TRANSACTIONS, Ef. done.
    + intros Hn1 Hn2. rewrite Ho, Hx in Hx'; [by injection Hx'|]. intros [[_ (? & _ & ? & _)]|?]; done.
  - intros x Hx Hne. rewrite Hc'. split; [|tauto]. intros [?|(c & Hxc & Hpx & _)]; [done|]. exfalso. apply Hne.
    rewrite (elem_of_line _ p b x c) in Hx by done. rewrite (elem_of_line _ x c p b) in Hpx by done.
    unfold ancestor in Hx, Hpx. rewrite Hp in Hx. rewrite Hxc in Hpx.
    destruct (Z.ltb_spec (nHeight b) (nHeight c)); [by rewrite orb_true_r in Hx|].
    destruct (Z.ltb_spec (nHeight c) (nHeight b)); [by rewrite orb_true_r in Hpx|].
    destruct (_ || _) in Hx; [done|]. replace (nHeight b - nHeight c) with 0 in Hx by lia. by injection Hx.
Qed.
End Reconsider.

(** ** Instances *)

Lemma fork_map_ok v2 v3 v4 hash x :
  fork_map !! hash = Some x ↔ ∃ bx, fork_heap v2 v3 v4 !! x = Some bx ∧ phashBlock bx = hash.
Proof.
  unfold fork_map. rewrite !lookup_insert_Some. split.
  - intros [[<- <-]|[_ [[<- <-]|[_ [[<- <-]|[_ [[<- <-]|[_ []%lookup_empty_Some]]]]]]]]; by eexists.
  - intros (bx & Hx & <-). fork_cases Hx; simpl; naive_solver.
Qed.

(** The tip is marked: its parent is the new tip. *)
Lemma InvalidateBlock_spec_witness :
  ∃ s', InvalidateBlock (λ _, true) 2%positive (fork_tree 13 11 11) = Some (true, s') ∧ Tip (chainActive s') = Some 1%positive ∧
    above fork_verdict 1%positive s'.
Proof.
  destruct (InvalidateBlock_spec 2%positive fork_verdict (fork_tree 13 11 11) 2%positive
    (tree_entry 40 2 (Some 1%positive) (Some 1%positive) 1 13) 1%positive fork_node_ok eq_refl eq_refl eq_refl
    (fork_map_ok 13 11 11)) as (s' & w & E & _ & Hw & _ & _ & Hab & _).
  { intros x bx Hx. fork_cases Hx; by vm_compute. }
  assert (w = 1%positive) as ->.
  { assert ((λ r, Tip (chainActive (snd r))) <$> InvalidateBlock (λ _, true) 2%positive (fork_tree 13 11 11) = Some (Some 1%positive)) as F
      by (by vm_compute).
    rewrite E in F. simpl in F. rewrite Hw in F. by injection F. }
  exists s'. split; [exact E|]. split; [exact Hw|exact Hab].
Defined.

(** Block 3 and the header 4 above it are marked; block 2, worse than block 3, is the tip. *)
Lemma ReconsiderBlock_spec_witness :
  let s := with_candidates {[2%positive]} (fork_tree 13 45 66) in
  ∃ s', ReconsiderBlock 4 s = Some s' ∧ (failed <$> index s !! 3%positive) = Some true ∧ (failed <$> index s' !! 3%positive) = Some false ∧
    worse (index s) 2 3 = true ∧ 3%positive ∉ candidates s'.
Proof.
  intros s. destruct (ReconsiderBlock_spec 4 2 s (tree_entry 20 3 (Some 3%positive) (Some 1%positive) 2 66) (fork_heap_wf 13 45 66) eq_refl eq_refl
    (fork_map_ok 13 45 66)) as (s' & E & _ & _ & Hx & _ & Hc).
  assert (3%positive ∈ line (index s) 4) as H3 by (vm_compute; right; left).
  exists s'. split; [exact E|]. split; [vm_compute; reflexivity|]. split.
  - destruct (Hx 3%positive (tree_entry 30 2 (Some 1%positive) (Some 1%positive) 1 45) eq_refl) as (c' & -> & _ & Hf & _).
    cbn [fmap option_fmap option_map]. f_equal. apply Hf. right. exact H3.
  - split; [vm_compute; reflexivity|]. rewrite (Hc 3%positive H3 ltac:(discriminate)). by vm_compute.
Defined.

(** A root with two children, the heavier one the tip, and on it a block of which only
    the header is known. *)
Definition side_tree : Tree :=
  MkTree
    (<[1%positive := tree_entry 50 1 None None 0 13]>
    (<[2%positive := tree_entry 40 2 (Some 1%positive) (Some 1%positive) 1 13]>
    (<[3%positive := tree_entry 30 3 (Some 1%positive) (Some 1%positive) 1 13]>
    (<[4%positive := MkIndex (20 :: replicate 7 0) (Some 3%positive) (Some 1%positive) 2 0 0 0 (4 :: replicate 7 0) 0 0 2 [] 0 3 [] 0 0 0 0]> ∅))))
    fork_map {[3%positive]} [] (MkChain [Some 1%positive; Some 3%positive] (Some 3%positive)) None (Some 4%positive) 3.

Definition tip_of (s : Tree) : option ptr := Tip (chainActive s).

(** A run of it: [InvalidateBlock] marks the heavier child and the other becomes the tip.
    [ReconsiderBlock] on the header above it takes the mark back, as for every ancestor
    of the reconsidered block, but does not make the child a candidate again: it is
    unmarked, has its data and more work than the tip, and still [ActivateBestChain]
    stays on the lighter chain.  Reconsidering the child itself does bring it back. *)
Lemma reconsider_forgets_ancestors :
  ∃ s1 s2 s3 s4 s5 s6,
    InvalidateBlock (λ _, true) 3%positive side_tree = Some (true, s1) ∧
    ActivateBestChain [] demo_accepts (λ _, true) s1 = Some (true, s2) ∧ tip_of s2 = Some 2%positive ∧
    ReconsiderBlock 4%positive s2 = Some s3 ∧ valid_chain demo_accepts (index s3) 3%positive ∧
    (failed <$> index s3 !! 3%positive) = Some false ∧ worse (index s3) 2%positive 3%positive = true ∧ (3%positive ∉ candidates s3) ∧
    ActivateBestChain [] demo_accepts (λ _, true) s3 = Some (true, s4) ∧ tip_of s4 = Some 2%positive ∧
    ReconsiderBlock 3%positive s2 = Some s5 ∧
    ActivateBestChain [] demo_accepts (λ _, true) s5 = Some (true, s6) ∧ tip_of s6 = Some 3%positive.
Proof.
  do 6 eexists.
  split; [vm_compute; reflexivity|]. split; [vm_compute; reflexivity|]. split; [vm_compute; reflexivity|].
  split; [vm_compute; reflexivity|]. split.
  { split; [by eexists|]. vm_compute. repeat constructor; by eexists. }
  split; [vm_compute; reflexivity|]. split; [vm_compute; reflexivity|].
  split; [by vm_compute|]. split; [vm_compute; reflexivity|]. split; [vm_compute; reflexivity|].
  split; [vm_compute; reflexivity|]. split; [vm_compute; reflexivity|]. vm_compute; reflexivity.
Qed.
