(* ===== verification/MpaWeight.v ===== *)
(** * The weight of a stake

    The first part of [src/src/kernel.cpp]: how much a coin weighs in the proof of
    stake.  [ExtractTimelock] reads the lock of an output; the burn cache
    ([AddBurnToCache], [RemoveBurnFromCache], [GetActiveBurnWeight]) keeps what
    addresses burned, with the loops of [ConnectBlock] and [DisconnectBlock] in
    [main.cpp] that fill and empty it; [CalculateMPAWeight] chooses among masternode,
    lock, burn and plain stake.

    Amounts and weights are 64-bit, products 128-bit; a conversion back is written
    out.  The registry and the coins are those of [AdamPing]; transactions found by
    their id ([GetTransaction]), the masternode list outside the registry and the
    encoding of addresses are parameters. *)

From stdpp Require Import gmap fin_maps.
From S2P Require Import Prelude Sorting Ints BlockIndex Params Serialize Transaction Script Standard AdamPing AdamSelect.

Local Open Scope Z_scope.

#[export] Instance CTxDestination_eq_dec : EqDecision CTxDestination.
Proof. solve_decision. Defined.

#[export] Instance CTxDestination_countable : Countable CTxDestination.
Proof.
  refine (inj_countable' (λ d, match d with
    | CNoDestination => (0%nat, []) | CKeyID id => (1%nat, id)
    | CScriptID id => (2%nat, id) | WitnessV1Taproot k => (3%nat, k) end)
    (λ p, match p with
    | (0%nat, _) => CNoDestination | (1%nat, id) => CKeyID id
    | (2%nat, id) => CScriptID id | (_, k) => WitnessV1Taproot k end) _).
  by intros [].
Defined.

(** ** Locks *)

(** A parsed instruction as a lock time; [None] is [fNumeric = false], the outer
    [None] the early [return false]. *)
Definition candidate_number (opcode : Z) (vch : list Z) : option (option Z) :=
  if opcode =? OP_0 then Some (Some 0)
  else if (OP_1 <=? opcode) && (opcode <=? OP_16) then Some (Some (opcode - OP_1 + 1))
  else if (opcode <? OP_PUSHDATA4) && negb (bool_decide (vch = [])) && (size vch <=? 8) then
    Some (CScriptNum vch true 8)
  else if OP_PUSHDATA4 <? opcode then None
  else Some None.

(** The spend tail after the lock: pay to key hash or to a key. *)
Definition spend_tail (pc : CScript) : bool :=
  match GetOp pc with
  | None => false
  | Some (tailOp1, tailVch1, pc) =>
      if tailOp1 =? OP_DUP then
        match pc ← expect OP_HASH160 pc; '(_, pc) ← expect_data 20 pc;
              pc ← expect OP_EQUALVERIFY pc; expect OP_CHECKSIG pc with
        | Some pc => bool_decide (pc = [])
        | None => false
        end
      else if ((size tailVch1 =? 33) || (size tailVch1 =? 65)) && Standard.IsValid (Set_key tailVch1) then
        match expect OP_CHECKSIG pc with
        | Some pc => bool_decide (pc = [])
        | None => false
        end
      else false
  end.

Record timelock := MkLock { lock_time : Z; fIsBlockHeight : bool; fIsRelative : bool }.

(** What an accepted lock time means; [1 << 31] is a negative [int]. *)
Definition read_lock (nextOp nCandidate : Z) : option timelock :=
  if nextOp =? OP_CHECKLOCKTIMEVERIFY then Some (MkLock nCandidate (nCandidate <? 500000000) false)
  else
    let fDisable := negb (nCandidate .& (- 2 ^ 31) =? 0) in
    let fIsTimestamp := negb (nCandidate .& (1 << 22) =? 0) in
    if negb fDisable && negb fIsTimestamp then Some (MkLock (nCandidate .& 0xffff) true true) else None.

(** The loop over [<data> OP_DROP] pairs; every turn consumes an instruction. *)
Fixpoint timelock_loop (fuel : nat) (nPrefixDrops : Z) (pc : CScript) : option timelock :=
  match fuel, pc with
  | O, _ | _, [] => None
  | S fuel, _ =>
      '(opcode, vch, pc) ← GetOp pc;
      number ← candidate_number opcode vch;
      '(nextOp, _, pc) ← GetOp pc;
      if nextOp =? OP_DROP then
        if 4 <? nPrefixDrops + 1 then None else timelock_loop fuel (nPrefixDrops + 1) pc
      else if (nextOp =? OP_CHECKLOCKTIMEVERIFY) || (nextOp =? OP_CHECKSEQUENCEVERIFY) then
        nCandidate ← number;
        if nCandidate <? 0 then None
        else
          pc ← expect OP_DROP pc;
          if spend_tail pc then read_lock nextOp nCandidate else None
      else None
  end.

Definition ExtractTimelock (scriptPubKey : CScript) : option timelock :=
  match (match MatchCoinLockRegistration scriptPubKey with
         | Some r => Some r
         | None => MatchPoWLockRegistration scriptPubKey
         end) with
  | Some r =>
      if reg_lockTime r <? 0 then None else Some (MkLock (reg_lockTime r) (reg_lockTime r <? 500000000) false)
  | None => timelock_loop (length scriptPubKey) 0 scriptPubKey
  end.

(** ** Burns *)

Record CBurnCoins := MkBurn { nAmount : Z; burn_nHeight : Z }.

#[export] Instance CBurnCoins_eq_dec : EqDecision CBurnCoins.
Proof. solve_decision. Defined.

Abbreviation BurnCache := (gmap CTxDestination (list CBurnCoins)).

Definition AddBurnToCache (dest : CTxDestination) (amount nHeight : Z) (burns : BurnCache) : BurnCache :=
  <[dest := default [] (burns !! dest) ++ [MkBurn amount nHeight]]> burns.

Definition RemoveBurnFromCache (dest : CTxDestination) (amount nHeight : Z) (burns : BurnCache) : BurnCache :=
  match burns !! dest with
  | None => burns
  | Some v =>
      match List.filter (λ b, negb ((burn_nHeight b =? nHeight) && (nAmount b =? amount))) v with
      | [] => delete dest burns
      | v => <[dest := v]> burns
      end
  end.

Definition BETA : Z := 5.

Definition burn_step (T_MAX_BURN nHeight nTotalBurnWeight : Z) (burn : CBurnCoins) : Z :=
  let T := nHeight - burn_nHeight burn in
  if (0 <=? T) && (T <? T_MAX_BURN) then
    let remaining := T_MAX_BURN - T in
    i64 (nTotalBurnWeight + i64 (Z.quot (nAmount burn * BETA * remaining) T_MAX_BURN))
  else nTotalBurnWeight.

(** [T_MAX_BURN] is [nBurnDecayBlocks] of the parameters. *)
Definition GetActiveBurnWeight (T_MAX_BURN : Z) (burns : BurnCache) (dest : CTxDestination) (nHeight : Z) : Z :=
  match burns !! dest with
  | None => 0
  | Some v => if T_MAX_BURN <=? 0 then 0 else foldl (burn_step T_MAX_BURN nHeight) 0 v
  end.

(** ** Weights *)

Inductive MPAWeightType := MPA_WEIGHT_POS | MPA_WEIGHT_POL | MPA_WEIGHT_POB | MPA_WEIGHT_POM.

#[export] Instance MPAWeightType_eq_dec : EqDecision MPAWeightType.
Proof. solve_decision. Defined.

Definition L_MAX : Z := 50000.
Definition GAMMA : Z := 2.

(** The weight of a collateral that has been active for [t_active] blocks. *)
Definition pom_weight (nAmount t_active limit : Z) : Z :=
  if (limit <=? 0) || (t_active <=? 0) then nAmount
  else i64 (nAmount + i64 (Z.quot (nAmount * Z.min t_active limit) limit)).

(** The weight of a coin locked for [L] more blocks. *)
Definition pol_weight (nAmount L : Z) : Z :=
  i64 (nAmount + i64 (Z.quot (nAmount * GAMMA * Z.min L L_MAX) L_MAX)).

(** The blocks a lock still counts for. *)
Definition lock_blocks (l : timelock) (nHeight : Z) : Z :=
  if fIsRelative l then lock_time l
  else if nHeight <? lock_time l then lock_time l - nHeight else 0.

Section Weights.
Context (later : CScript → option Z).
Context (consensus : Params) (nMasternodeUptimeLimit nBurnDecayBlocks : Z).
Context (e : Env) (GetTransaction : Z → option (CTransaction * list Z)).
Context (chainHeight : Z) (mnodeman_Find : COutPoint → bool) (GetMasternodeActiveLifetime : COutPoint → Z → Z).

(** The output spent by an input, from the coins or from its transaction. *)
Definition GetTxOut (prevout : COutPoint) : option CTxOut :=
  match (GetCoin ← pcoinsTip e; GetCoin prevout) with
  | Some coin => Some (out coin)
  | None => '(tx, _) ← GetTransaction (hash prevout); vout tx !! Z.to_nat (n prevout)
  end.

(** The call passes no view, so the global one is used. *)
Definition global_env : Env := MkEnv None (pcoinsTip e) (tipHeight e) (Hash160 e) (CheckSignature e).

(** The test the loop makes of one masternode. *)
Definition is_masternode (s : Registry) (prevout : COutPoint) (nHeight : Z) (kv : CPubKey * COutPoint) : bool :=
  bool_decide (kv.2 = prevout) && Standard.IsValid kv.1
  && IsMasternodeActiveAtHeight s kv.1 (nHeight - 1) 2880
  && IsValidMasternodeCollateralAndAuth global_env s kv.1 prevout (nHeight - 1) None.

Definition first_height (s : Registry) (k : CPubKey) (prevout : COutPoint) (nHeight : Z) : Z :=
  let nFirstHeight := match actives s !! k with
                      | Some (h :: _) => h
                      | _ => nHeight
                      end in
  match (GetCoin ← pcoinsTip e; GetCoin prevout) with
  | Some coin =>
      if negb (IsSpent coin) && (0 <? i32 (coin_nHeight coin)) then Z.min nFirstHeight (i32 (coin_nHeight coin))
      else nFirstHeight
  | None => nFirstHeight
  end.

(** The masternode part: [Some] is an early return. *)
Definition pom_part (s : Registry) (prevout : COutPoint) (nAmount nHeight : Z) : option Z :=
  match List.find (is_masternode s prevout nHeight) (in_key_order (collaterals s)) with
  | Some (k, _) =>
      Some (pom_weight nAmount (Z.max 0 (nHeight - first_height s k prevout nHeight)) nMasternodeUptimeLimit)
  | None =>
      if bool_decide (collaterals s = ∅) && (chainHeight <=? 0) && mnodeman_Find prevout then
        Some (pom_weight nAmount (GetMasternodeActiveLifetime prevout nHeight) nMasternodeUptimeLimit)
      else None
  end.

(** The lock part. *)
Definition pol_part (txout : CTxOut) (nAmount nHeight : Z) : option Z :=
  l ← ExtractTimelock (scriptPubKey txout);
  if negb (fIsBlockHeight l) then None
  else if 0 <? lock_blocks l nHeight then Some (pol_weight nAmount (lock_blocks l nHeight)) else None.

(** The burn part. *)
Definition pob_part (burns : BurnCache) (txout : CTxOut) (nAmount nHeight : Z) : option Z :=
  '(_, addresses, _) ← ExtractDestinations later (Hash160 e) (scriptPubKey txout);
  match addresses with
  | [] => None
  | address :: _ =>
      let nBurnWeight := GetActiveBurnWeight nBurnDecayBlocks burns address nHeight in
      if 0 <? nBurnWeight then Some (i64 (nAmount + nBurnWeight)) else None
  end.

(** [None] is the failed assertion on a negative height. *)
Definition CalculateMPAWeight (s : Registry) (burns : BurnCache) (prevout : COutPoint) (nAmount : Z)
    (pindexPrev : CBlockIndex) : option (Z * MPAWeightType) :=
  let nHeight := BlockIndex.nHeight pindexPrev + 1 in
  active ← NetworkUpgradeActive consensus nHeight UPGRADE_POMBL;
  if negb active then Some (nAmount, MPA_WEIGHT_POS)
  else
    match pom_part s prevout nAmount nHeight with
    | Some w => Some (w, MPA_WEIGHT_POM)
    | None =>
        match GetTxOut prevout with
        | None => Some (nAmount, MPA_WEIGHT_POS)
        | Some txout =>
            match pol_part txout nAmount nHeight with
            | Some w => Some (w, MPA_WEIGHT_POL)
            | None =>
                match pob_part burns txout nAmount nHeight with
                | Some w => Some (w, MPA_WEIGHT_POB)
                | None => Some (nAmount, MPA_WEIGHT_POS)
                end
            end
        end
    end.
End Weights.

(** ** Burns of a block *)

Section BlockBurns.
Context (later : CScript → option Z) (Hash160 : list Z → list Z).
Context (EncodeDestination : CTxDestination → list Z) (mBurnAddresses : gmap (list Z) Z).

(** [Consensus::Params::IsBurnAddress] of the encoded address. *)
Definition IsBurnAddress (dest : CTxDestination) (nHeight : Z) : bool :=
  match mBurnAddresses !! EncodeDestination dest with
  | Some it => it <? nHeight
  | None => false
  end.

(** [hasBurn] and [nBurnAmount]: an output counts once for each of its burn addresses. *)
Definition burn_out (nHeight : Z) (acc : bool * Z) (o : CTxOut) : bool * Z :=
  match ExtractDestinations later Hash160 (scriptPubKey o) with
  | None => acc
  | Some (_, addresses, _) =>
      foldl (λ acc addr, if IsBurnAddress addr nHeight then (true, i64 (acc.2 + nValue o)) else acc) acc addresses
  end.

Definition tx_burns (nHeight : Z) (tx : CTransaction) : bool * Z :=
  foldl (burn_out nHeight) (false, 0) (vout tx).

(** Who burned: the first address of the output the first input spends. *)
Definition burner (prevScript : CScript) : option CTxDestination :=
  '(_, addresses, _) ← ExtractDestinations later Hash160 prevScript; head addresses.

(** The part of the loop of [ConnectBlock] for one transaction, before its inputs are
    spent: [AccessCoin] looks at the view before the transaction. *)
Definition connect_burn (nHeight : Z) (fZeroCoinPoW : bool) (AccessCoin : COutPoint → Coin) (tx : CTransaction)
    (burns : BurnCache) : BurnCache :=
  if IsCoinBase tx || fZeroCoinPoW then burns
  else
    let '(hasBurn, nBurnAmount) := tx_burns nHeight tx in
    match hasBurn, vin tx with
    | true, txin :: _ =>
        let coin := AccessCoin (prevout txin) in
        if IsSpent coin then burns
        else match burner (scriptPubKey (out coin)) with
             | Some dest => AddBurnToCache dest nBurnAmount nHeight burns
             | None => burns
             end
    | _, _ => burns
    end.

(** The part of the loop of [DisconnectBlock], after the inputs are restored. *)
Definition disconnect_burn (nHeight : Z) (fZeroCoinPoW : bool) (AccessCoin : COutPoint → Coin)
    (GetTransaction : Z → option (CTransaction * list Z)) (tx : CTransaction) (burns : BurnCache) : BurnCache :=
  if IsCoinBase tx || fZeroCoinPoW then burns
  else
    let '(hasBurn, nBurnAmount) := tx_burns nHeight tx in
    match hasBurn, vin tx with
    | true, txin :: _ =>
        let coin := AccessCoin (prevout txin) in
        let prevScript :=
          if negb (IsSpent coin) then scriptPubKey (out coin)
          else match GetTransaction (hash (prevout txin)) with
               | Some (txPrev, _) =>
                   match vout txPrev !! Z.to_nat (n (prevout txin)) with
                   | Some o => scriptPubKey o
                   | None => []
                   end
               | None => []
               end in
        if bool_decide (prevScript = []) then burns
        else match burner prevScript with
             | Some dest => RemoveBurnFromCache dest nBurnAmount nHeight burns
             | None => burns
             end
    | _, _ => burns
    end.
End BlockBurns.

(** ** Bounds *)

(** An amount that can be tripled in 64 bits; all the money there is is less. *)
Definition amount_fits (a : Z) : Prop := 0 ≤ a < 2 ^ 61.

Definition burned (v : list CBurnCoins) : Z := foldr (λ b a, nAmount b + a) 0 v.

(** Burned amounts are not negative, and five times their sum still fits. *)
Definition burns_fit (v : list CBurnCoins) : Prop := Forall (λ b, 0 ≤ nAmount b) v ∧ amount_fits (BETA * burned v).

Definition burns_ok (burns : BurnCache) : Prop := ∀ d v, burns !! d = Some v → v ≠ [] ∧ burns_fit v.

(** A fraction of at most one of a multiple of the amount. *)
Lemma fraction_bounds a k t m : 0 ≤ a → 0 ≤ k → 0 ≤ t ≤ m → 0 < m → 0 ≤ Z.quot (a * k * t) m ≤ k * a.
Proof.
  intros Ha Hk Ht Hm. rewrite Z.quot_div_nonneg by nia. split; [apply Z.div_pos; nia|].
  apply Z.div_le_upper_bound; [done|]. nia.
Qed.

Lemma pom_weight_spec a t limit :
  amount_fits a →
  pom_weight a t limit = (if (limit <=? 0) || (t <=? 0) then a else a + a * Z.min t limit / limit) ∧
  a ≤ pom_weight a t limit ≤ 2 * a.
Proof.
  unfold pom_weight, amount_fits. intros Ha. destruct (Z.leb_spec limit 0), (Z.leb_spec t 0); cbn [orb]; [split; lia..|].
  pose proof (fraction_bounds a 1 (Z.min t limit) limit ltac:(lia) ltac:(lia) ltac:(lia) ltac:(lia)) as Hb.
  rewrite Z.mul_1_r, Z.mul_1_l in Hb. rewrite (i64_id (Z.quot _ _)), i64_id by lia.
  rewrite Z.quot_div_nonneg in * by nia. lia.
Qed.

Lemma pol_weight_spec a L :
  amount_fits a → 0 < L →
  pol_weight a L = a + 2 * a * Z.min L L_MAX / L_MAX ∧ a ≤ pol_weight a L ≤ 3 * a.
Proof.
  unfold pol_weight, amount_fits. intros Ha HL.
  pose proof (fraction_bounds a GAMMA (Z.min L L_MAX) L_MAX ltac:(lia) ltac:(done) ltac:(unfold L_MAX; lia) ltac:(done)) as Hb.
  unfold GAMMA, L_MAX in *. rewrite (i64_id (Z.quot _ _)), i64_id by lia.
  rewrite Z.quot_div_nonneg in * by nia. rewrite (Z.mul_comm 2 a). lia.
Qed.

(** The weight of one burn at a height. *)
Definition burn_weight (T_MAX nHeight : Z) (b : CBurnCoins) : Z :=
  let T := nHeight - burn_nHeight b in
  if (0 <=? T) && (T <? T_MAX) then nAmount b * BETA * (T_MAX - T) / T_MAX else 0.

Lemma burn_weight_bounds T_MAX nHeight b :
  0 < T_MAX → 0 ≤ nAmount b → 0 ≤ burn_weight T_MAX nHeight b ≤ BETA * nAmount b.
Proof.
  intros HT Hb. unfold burn_weight. destruct (Z.leb_spec 0 (nHeight - burn_nHeight b)), (Z.ltb_spec (nHeight - burn_nHeight b) T_MAX);
    cbn [andb]; [|unfold BETA; lia..].
  pose proof (fraction_bounds (nAmount b) BETA (T_MAX - (nHeight - burn_nHeight b)) T_MAX) as Hf.
  unfold BETA in *. rewrite Z.quot_div_nonneg in Hf by nia. lia.
Qed.

Lemma burned_nonneg v : Forall (λ b, 0 ≤ nAmount b) v → 0 ≤ burned v.
Proof. induction 1; simpl; [done|]. lia. Qed.

Lemma burned_filter f v : Forall (λ b, 0 ≤ nAmount b) v → burned (List.filter f v) ≤ burned v.
Proof. induction 1 as [|b v Hb _ IH]; [done|]. unfold burned in *. simpl. destruct (f b); simpl; lia. Qed.

Lemma burn_fold T_MAX nHeight v acc :
  0 < T_MAX → Forall (λ b, 0 ≤ nAmount b) v → 0 ≤ acc → acc + BETA * burned v < 2 ^ 61 →
  foldl (burn_step T_MAX nHeight) acc v = acc + foldr (λ b a, burn_weight T_MAX nHeight b + a) 0 v.
Proof.
  intros HT Hv. revert acc. induction Hv as [|b v Hb Hv IH]; intros acc Hacc Hs; [simpl; lia|].
  pose proof (burned_nonneg v Hv). pose proof (burn_weight_bounds T_MAX nHeight b HT Hb) as Hw.
  cbn [foldl foldr burned] in *. fold (burned v) in Hs. unfold BETA in Hs, Hw.
  assert (burn_step T_MAX nHeight acc b = acc + burn_weight T_MAX nHeight b) as ->.
  { unfold burn_step, burn_weight in *. destruct (_ && _) eqn:E; [|lia]. apply andb_true_iff in E as [E1%Z.leb_le E2%Z.ltb_lt].
    rewrite Z.quot_div_nonneg by (unfold BETA; nia). unfold BETA in *. rewrite (i64_id (_ / _)), i64_id by lia. done. }
  rewrite IH by (unfold BETA; lia). lia.
Qed.

(** The weight of an address is the sum over its burns. *)
Lemma GetActiveBurnWeight_sum T_MAX burns dest v nHeight :
  0 < T_MAX → burns !! dest = Some v → burns_fit v →
  GetActiveBurnWeight T_MAX burns dest nHeight = foldr (λ b a, burn_weight T_MAX nHeight b + a) 0 v.
Proof.
  intros HT Hv [Hp [H0 H1]]. unfold GetActiveBurnWeight. rewrite Hv. destruct (Z.leb_spec T_MAX 0); [lia|].
  rewrite burn_fold by (done || lia). lia.
Qed.

Lemma burn_sum_bounds T_MAX nHeight v :
  0 < T_MAX → Forall (λ b, 0 ≤ nAmount b) v →
  0 ≤ foldr (λ b a, burn_weight T_MAX nHeight b + a) 0 v ≤ BETA * burned v.
Proof.
  intros HT. induction 1 as [|b v Hb _ IH]; cbn [foldr burned]; [unfold BETA; lia|]. fold (burned v).
  pose proof (burn_weight_bounds T_MAX nHeight b HT Hb). lia.
Qed.

Lemma GetActiveBurnWeight_bounds T_MAX burns dest nHeight :
  burns_ok burns →
  0 ≤ GetActiveBurnWeight T_MAX burns dest nHeight ≤ BETA * burned (default [] (burns !! dest)).
Proof.
  intros Hok. destruct (burns !! dest) as [v|] eqn:Hv; [|unfold GetActiveBurnWeight; rewrite Hv; simpl; unfold BETA; lia].
  destruct (Hok dest v Hv) as [_ Hf]. destruct (Z.le_gt_cases T_MAX 0) as [HT|HT].
  - unfold GetActiveBurnWeight. rewrite Hv. destruct (Z.leb_spec T_MAX 0); [|lia]. destruct Hf as [Hp _].
    pose proof (burned_nonneg v Hp). simpl. unfold BETA. lia.
  - rewrite (GetActiveBurnWeight_sum T_MAX burns dest v) by (done || lia). apply burn_sum_bounds; [lia|apply Hf].
Qed.

(** C27: The weight of a stake is always defined, at least the amount, and no 64-bit step
    overflows: a masternode at most doubles it, a lock at most triples it, a burn adds
    at most five times what the address burned, and otherwise it is the amount. *)
Theorem mpa_weight_bounds later consensus limit decay e GetTx chainHeight find lifetime s burns prevout a
    (pindexPrev : CBlockIndex) :
  amount_fits a → 0 ≤ BlockIndex.nHeight pindexPrev + 1 → burns_ok burns →
  ∃ w t, CalculateMPAWeight later consensus limit decay e GetTx chainHeight find lifetime s burns prevout a pindexPrev =
    Some (w, t) ∧ a ≤ w ∧
    match t with
    | MPA_WEIGHT_POS => w = a
    | MPA_WEIGHT_POM => w ≤ 2 * a
    | MPA_WEIGHT_POL => w ≤ 3 * a
    | MPA_WEIGHT_POB => ∃ dest, a < w ∧ w = a + GetActiveBurnWeight decay burns dest (BlockIndex.nHeight pindexPrev + 1) ∧
        w ≤ a + BETA * burned (default [] (burns !! dest))
    end.
Proof.
  intros Ha Hh Hb. unfold CalculateMPAWeight. rewrite NetworkUpgradeActive_spec by done. cbn [mbind option_bind].
  destruct (_ && _); cbn [negb]; [|by exists a, MPA_WEIGHT_POS; split_and!; [done|lia|done]].
  set (nHeight := BlockIndex.nHeight pindexPrev + 1) in *.
  destruct (pom_part _ _ _ _ _ _ _ _ _) as [w|] eqn:Em.
  { exists w, MPA_WEIGHT_POM. assert (∃ t, w = pom_weight a t limit) as [t ->].
    { revert Em. unfold pom_part. destruct (List.find _ _) as [[k o]|]; [intros [= <-]; by eexists|].
      destruct (_ && _); [intros [= <-]; by eexists|done]. }
    destruct (pom_weight_spec a t limit Ha). split_and!; [done|lia..]. }
  destruct (GetTxOut _ _ _) as [o|]; [|by exists a, MPA_WEIGHT_POS; split_and!; [done|lia|done]].
  destruct (pol_part _ _ _) as [w|] eqn:El.
  { exists w, MPA_WEIGHT_POL. revert El. unfold pol_part. destruct (ExtractTimelock _) as [l|]; [|done].
    cbn [mbind option_bind]. destruct (negb _); [done|]. destruct (Z.ltb_spec 0 (lock_blocks l nHeight)) as [HL|]; [|done].
    intros [= <-]. destruct (pol_weight_spec a _ Ha HL). split_and!; [done|lia..]. }
  destruct (pob_part _ _ _ _ _ _ _) as [w|] eqn:Eb; [|by exists a, MPA_WEIGHT_POS; split_and!; [done|lia|done]].
  exists w, MPA_WEIGHT_POB. revert Eb. unfold pob_part. destruct (ExtractDestinations _ _ _) as [[[? [|d ds]] ?]|]; [done| |done].
  cbn [mbind option_bind]. destruct (Z.ltb_spec 0 (GetActiveBurnWeight decay burns d nHeight)) as [Hw|]; [|done].
  pose proof (GetActiveBurnWeight_bounds decay burns d nHeight Hb) as [_ Hle].
  assert (BETA * burned (default [] (burns !! d)) < 2 ^ 61) as Hf.
  { destruct (burns !! d) as [v|] eqn:Ev; [|done]. by destruct (Hb d v Ev) as (_ & _ & _ & ?). }
  unfold amount_fits in Ha. rewrite i64_id by lia. intros [= <-]. split_and!; [done|lia|]. exists d. split_and!; lia || done.
Qed.

(** ** Burns decay *)

Lemma burn_weight_later T_MAX b x y :
  0 < T_MAX → 0 ≤ nAmount b → burn_nHeight b ≤ x ≤ y → burn_weight T_MAX y b ≤ burn_weight T_MAX x b.
Proof.
  intros HT Hb Hxy. pose proof (burn_weight_bounds T_MAX x b HT Hb). unfold burn_weight in *.
  destruct (Z.leb_spec 0 (y - burn_nHeight b)), (Z.leb_spec 0 (x - burn_nHeight b)), (Z.ltb_spec (y - burn_nHeight b) T_MAX),
    (Z.ltb_spec (x - burn_nHeight b) T_MAX); cbn [andb] in *; try lia.
  apply Z.div_le_mono; [done|]. unfold BETA. nia.
Qed.

(** From the height of its last burn on, the weight of an address never grows, and it
    is gone once the last burn is [nBurnDecayBlocks] old; forgetting burns that old,
    as the cache does when it is loaded, changes no weight. *)
Theorem burn_weight_decays T_MAX burns dest v x y :
  0 < T_MAX → burns !! dest = Some v → burns_fit v → Forall (λ b, burn_nHeight b ≤ x) v → x ≤ y →
  GetActiveBurnWeight T_MAX burns dest y ≤ GetActiveBurnWeight T_MAX burns dest x ∧
  (Forall (λ b, burn_nHeight b + T_MAX ≤ y) v → GetActiveBurnWeight T_MAX burns dest y = 0) ∧
  (∀ cut, cut ≤ y - T_MAX + 1 →
     GetActiveBurnWeight T_MAX (<[dest := List.filter (λ b, cut <=? burn_nHeight b) v]> burns) dest y =
     GetActiveBurnWeight T_MAX burns dest y).
Proof.
  intros HT Hv Hfit Hx Hxy. rewrite !(GetActiveBurnWeight_sum T_MAX burns dest v) by done.
  destruct Hfit as [Hp Hfit]. split_and!.
  - clear Hv Hfit. induction v as [|b v IH]; [done|]. apply Forall_cons in Hp as [Hb Hp], Hx as [Hbx Hx].
    cbn [foldr]. pose proof (burn_weight_later T_MAX b x y HT Hb). specialize (IH Hp Hx). lia.
  - clear Hv Hp Hfit Hx. induction 1 as [|b v Hb _ IH]; [done|]. cbn [foldr]. rewrite IH. unfold burn_weight.
    destruct (Z.ltb_spec (y - burn_nHeight b) T_MAX); [lia|]. rewrite andb_false_r. lia.
  - intros cut Hcut. assert (burns_fit (List.filter (λ b, cut <=? burn_nHeight b) v) ∧
      foldr (λ b a, burn_weight T_MAX y b + a) 0 (List.filter (λ b, cut <=? burn_nHeight b) v) =
      foldr (λ b a, burn_weight T_MAX y b + a) 0 v) as [Hf E].
    { clear Hv Hx. unfold burns_fit, amount_fits in *. induction v as [|b v IH]; [done|].
      apply Forall_cons in Hp as [Hb Hp]. cbn [burned foldr] in Hfit. fold (burned v) in Hfit.
      pose proof (burned_nonneg v Hp). unfold BETA in *. destruct IH as [[Hp' Hs] E]; [done|lia|].
      pose proof (burned_filter (λ b, cut <=? burn_nHeight b) v Hp) as Hle.
      cbn [List.filter]. destruct (Z.leb_spec cut (burn_nHeight b)) as [Hc|Hc]; cbn [foldr burned].
      - fold (burned (List.filter (λ b, cut <=? burn_nHeight b) v)). split; [split; [by constructor|lia]|lia].
      - split; [done|]. rewrite E. unfold burn_weight. destruct (Z.ltb_spec (y - burn_nHeight b) T_MAX); [lia|].
        rewrite andb_false_r. lia. }
    rewrite (GetActiveBurnWeight_sum _ _ _ (List.filter (λ b, cut <=? burn_nHeight b) v)); [done|done|by rewrite lookup_insert_eq|done].
Qed.

(** ** Connecting and disconnecting burns *)

Definition burns_of (burns : BurnCache) (d : CTxDestination) : list CBurnCoins := default [] (burns !! d).

(** No address is kept without a burn. *)
Definition no_empty (burns : BurnCache) : Prop := ∀ d, burns !! d ≠ Some [].

Lemma burns_eq b1 b2 : no_empty b1 → no_empty b2 → (∀ d, burns_of b1 d = burns_of b2 d) → b1 = b2.
Proof.
  intros H1 H2 H. apply map_eq. intros d. specialize (H d). unfold burns_of in H.
  destruct (b1 !! d) as [v1|] eqn:E1, (b2 !! d) as [v2|] eqn:E2; simpl in H; subst; try done.
  - by destruct (H1 d).
  - by destruct (H2 d).
Qed.

Definition is_burn (a h : Z) (b : CBurnCoins) : bool := (burn_nHeight b =? h) && (nAmount b =? a).

Lemma Add_burns_of d a h burns d' :
  burns_of (AddBurnToCache d a h burns) d' = burns_of burns d' ++ if decide (d = d') then [MkBurn a h] else [].
Proof.
  unfold burns_of, AddBurnToCache. destruct (decide (d = d')) as [->|Hne].
  - by rewrite lookup_insert_eq.
  - by rewrite lookup_insert_ne, app_nil_r by done.
Qed.

Lemma Add_no_empty d a h burns : no_empty burns → no_empty (AddBurnToCache d a h burns).
Proof.
  intros Hn d'. unfold AddBurnToCache. destruct (decide (d = d')) as [->|Hne].
  - rewrite lookup_insert_eq. intros [= E]. by destruct (default [] _).
  - by rewrite lookup_insert_ne.
Qed.

Lemma Remove_burns_of d a h burns d' :
  burns_of (RemoveBurnFromCache d a h burns) d' =
  if decide (d = d') then List.filter (λ b, negb (is_burn a h b)) (burns_of burns d') else burns_of burns d'.
Proof.
  unfold burns_of, RemoveBurnFromCache, is_burn. destruct (burns !! d) as [v|] eqn:Ev.
  - destruct (decide (d = d')) as [<-|Hne].
    + rewrite Ev. simpl. destruct (List.filter _ v) as [|x l]; [by rewrite lookup_delete_eq|by rewrite lookup_insert_eq].
    + destruct (List.filter _ v) as [|x l]; [by rewrite lookup_delete_ne|by rewrite lookup_insert_ne].
  - destruct (decide (d = d')) as [<-|]; [|done]. by rewrite Ev.
Qed.

Lemma Remove_no_empty d a h burns : no_empty burns → no_empty (RemoveBurnFromCache d a h burns).
Proof.
  intros Hn d'. unfold RemoveBurnFromCache. destruct (burns !! d) as [v|]; [|done].
  destruct (List.filter _ v) as [|x l]; [|by destruct (decide (d = d')) as [->|Hne]; [rewrite lookup_insert_eq|rewrite lookup_insert_ne]].
  destruct (decide (d = d')) as [->|Hne]; [by rewrite lookup_delete_eq|by rewrite lookup_delete_ne].
Qed.

Definition add_all (h : Z) (es : list (CTxDestination * Z)) (burns : BurnCache) : BurnCache :=
  foldl (λ c e, AddBurnToCache e.1 e.2 h c) burns es.

Definition remove_all (h : Z) (es : list (CTxDestination * Z)) (burns : BurnCache) : BurnCache :=
  foldl (λ c e, RemoveBurnFromCache e.1 e.2 h c) burns es.

Lemma add_all_spec h es burns d :
  burns_of (add_all h es burns) d =
  burns_of burns d ++ map (λ e, MkBurn e.2 h) (List.filter (λ e, bool_decide (e.1 = d)) es).
Proof.
  revert burns. induction es as [|e es IH]; intros burns; [by rewrite app_nil_r|].
  cbn [add_all foldl]. fold (add_all h es (AddBurnToCache e.1 e.2 h burns)). rewrite IH, Add_burns_of, <- app_assoc. f_equal.
  cbn [List.filter]. destruct (decide (e.1 = d)) as [E|E].
  - by rewrite bool_decide_eq_true_2.
  - by rewrite bool_decide_eq_false_2.
Qed.

Lemma remove_all_spec h es burns d :
  burns_of (remove_all h es burns) d =
  List.filter (λ b, negb (existsb (λ e, bool_decide (e.1 = d) && is_burn e.2 h b) es)) (burns_of burns d).
Proof.
  revert burns. induction es as [|e es IH]; intros burns; cbn [remove_all foldl existsb].
  { induction (burns_of burns d) as [|b v IHv]; [done|]. simpl. by f_equal. }
  fold (remove_all h es (RemoveBurnFromCache e.1 e.2 h burns)). rewrite IH, Remove_burns_of.
  destruct (decide (e.1 = d)) as [E|E].
  - rewrite bool_decide_eq_true_2 by done. cbn [andb]. induction (burns_of burns d) as [|b v IHv]; [done|]. cbn [List.filter].
    rewrite negb_orb. destruct (is_burn e.2 h b); cbn [negb andb List.filter]; [done|]. by rewrite IHv.
  - rewrite bool_decide_eq_false_2 by done. done.
Qed.

Lemma fold_no_empty (f : BurnCache → CTxDestination * Z → BurnCache) es burns :
  (∀ c e, no_empty c → no_empty (f c e)) → no_empty burns → no_empty (foldl f burns es).
Proof. intros Hf. revert burns. induction es as [|e es IH]; intros burns Hb; [done|]. apply IH, Hf, Hb. Qed.

(** Removing the burns of a block gives back the cache before it, in whatever order,
    although each removal drops all equal burns at once. *)
Lemma remove_add_all h es es' burns :
  no_empty burns → (∀ d b, b ∈ burns_of burns d → burn_nHeight b ≠ h) → es' ≡ₚ es →
  remove_all h es' (add_all h es burns) = burns.
Proof.
  intros Hn Hh Hp. apply burns_eq; [|done|].
  { apply fold_no_empty; [intros; by apply Remove_no_empty|]. apply fold_no_empty; [intros; by apply Add_no_empty|done]. }
  intros d. rewrite remove_all_spec, add_all_spec, List.filter_app.
  assert (∀ v, (∀ b, b ∈ v → burn_nHeight b ≠ h) →
    List.filter (λ b, negb (existsb (λ e, bool_decide (e.1 = d) && is_burn e.2 h b) es')) v = v) as Hkeep.
  { induction v as [|b v IH]; intros Hv; [done|]. cbn [List.filter].
    assert (existsb (λ e, bool_decide (e.1 = d) && is_burn e.2 h b) es' = false) as ->.
    { apply not_true_iff_false. intros (e & _ & [_ He]%andb_true_iff)%existsb_exists.
      apply andb_true_iff in He as [E%Z.eqb_eq _]. by apply (Hv b ltac:(by left)). }
    cbn [negb]. f_equal. apply IH. intros b' Hb'. apply Hv. by right. }
  rewrite Hkeep by apply Hh. rewrite <- (app_nil_r (burns_of burns d)) at 2. f_equal.
  assert (∀ e, e ∈ es → e ∈ es') as Hes by (intros e He; by rewrite Hp). clear Hkeep Hp Hh Hn.
  revert Hes. induction es as [|e es IH]; intros Hes; [done|]. cbn [List.filter].
  case_bool_decide as E; [|apply IH; intros; apply Hes; by right]. cbn [map List.filter].
  assert (existsb (λ e', bool_decide (e'.1 = d) && is_burn e'.2 h (MkBurn e.2 h)) es' = true) as ->.
  { apply existsb_exists. exists e. split; [apply list_elem_of_In, Hes; by left|].
    unfold is_burn. simpl. by rewrite bool_decide_eq_true_2, !Z.eqb_refl. }
  cbn [negb]. apply IH. intros; apply Hes; by right.
Qed.

Section BurnBlock.
Context (later : CScript → option Z) (Hash160 : list Z → list Z).
Context (EncodeDestination : CTxDestination → list Z) (mBurnAddresses : gmap (list Z) Z).
Context (GetTransaction : Z → option (CTransaction * list Z)).

(** A transaction of a block, whether it is a zero-coin registration, and the coins
    it saw when it was connected and after it was disconnected. *)
Record moved := MkMoved {
  moved_tx : CTransaction; moved_zero : bool; before : COutPoint → Coin; after : COutPoint → Coin }.

(** Its first input was unspent, and disconnecting restored it. *)
Definition restored (m : moved) : Prop :=
  ∀ i, head (vin (moved_tx m)) = Some i →
    IsSpent (before m (prevout i)) = false ∧ after m (prevout i) = before m (prevout i).

Local Abbreviation txburns := (tx_burns later Hash160 EncodeDestination mBurnAddresses).

(** What a transaction adds to the cache. *)
Definition burn_entry (h : Z) (m : moved) : option (CTxDestination * Z) :=
  if IsCoinBase (moved_tx m) || moved_zero m then None
  else if (txburns h (moved_tx m)).1 then
    i ← head (vin (moved_tx m));
    d ← burner later Hash160 (scriptPubKey (out (before m (prevout i))));
    Some (d, (txburns h (moved_tx m)).2)
  else None.

Definition connect_burns (h : Z) (l : list moved) (burns : BurnCache) : BurnCache :=
  foldl (λ c m, connect_burn later Hash160 EncodeDestination mBurnAddresses h (moved_zero m) (before m) (moved_tx m) c) burns l.

(** [DisconnectBlock] goes through the transactions from the last one. *)
Definition disconnect_burns (h : Z) (l : list moved) (burns : BurnCache) : BurnCache :=
  foldl (λ c m, disconnect_burn later Hash160 EncodeDestination mBurnAddresses h (moved_zero m) (after m) GetTransaction (moved_tx m) c)
    burns (rev l).

Lemma burner_nil : burner later Hash160 [] = None.
Proof using Type. done. Qed.

Lemma connect_burn_entry h m c :
  restored m →
  connect_burn later Hash160 EncodeDestination mBurnAddresses h (moved_zero m) (before m) (moved_tx m) c =
  match burn_entry h m with Some e => AddBurnToCache e.1 e.2 h c | None => c end.
Proof using Type.
  intros Hr. unfold connect_burn, burn_entry, restored in *. destruct (_ || _); [done|].
  destruct (txburns h (moved_tx m)) as [[] a]; [|done]. cbn [fst snd].
  destruct (vin (moved_tx m)) as [|i ins]; [done|]. destruct (Hr i eq_refl) as [-> _]. cbn [head mbind option_bind].
  by destruct (burner _ _ _).
Qed.

Lemma disconnect_burn_entry h m c :
  restored m →
  disconnect_burn later Hash160 EncodeDestination mBurnAddresses h (moved_zero m) (after m) GetTransaction (moved_tx m) c =
  match burn_entry h m with Some e => RemoveBurnFromCache e.1 e.2 h c | None => c end.
Proof using Type.
  intros Hr. unfold disconnect_burn, burn_entry, restored in *. destruct (_ || _); [done|].
  destruct (txburns h (moved_tx m)) as [[] a]; [|done]. cbn [fst snd].
  destruct (vin (moved_tx m)) as [|i ins]; [done|]. destruct (Hr i eq_refl) as [Hs ->]. rewrite Hs. cbn [negb head mbind option_bind].
  case_bool_decide as E; [by rewrite E, burner_nil|]. by destruct (burner _ _ _).
Qed.

Lemma fold_entries {A B C} (f : C → A → C) (g : C → B → C) (entry : A → option B) l c :
  (∀ x c, x ∈ l → f c x = match entry x with Some e => g c e | None => c end) →
  foldl f c l = foldl g c (omap entry l).
Proof using Type.
  revert c. induction l as [|x l IH]; intros c Hf; [done|]. cbn [foldl omap list_omap]. rewrite Hf by by left.
  destruct (entry x); cbn [foldl]; apply IH; intros; apply Hf; by right.
Qed.

(** C16: Disconnecting a block gives back the burn cache before it: the burns of a block at
    a new height are found again and removed, whatever the order and however many
    burns are alike. *)
Theorem burn_cache_survives_reorg h l burns :
  no_empty burns → (∀ d b, b ∈ burns_of burns d → burn_nHeight b < h) → Forall restored l →
  disconnect_burns h l (connect_burns h l burns) = burns.
Proof using Type.
  intros Hn Hh Hr. unfold disconnect_burns, connect_burns. rewrite Forall_forall in Hr.
  rewrite (fold_entries _ (λ c e, AddBurnToCache e.1 e.2 h c) (burn_entry h) l)
    by (intros; by apply connect_burn_entry, Hr).
  rewrite (fold_entries _ (λ c e, RemoveBurnFromCache e.1 e.2 h c) (burn_entry h) (rev l)).
  2:{ intros m c Hm. apply disconnect_burn_entry, Hr. rewrite list_elem_of_In, <- in_rev in Hm. by apply list_elem_of_In. }
  apply (remove_add_all h (omap (burn_entry h) l)); [done| |].
  - intros d b Hb. specialize (Hh d b Hb). lia.
  - apply omap_Permutation. symmetry. apply Permutation_rev.
Qed.
End BurnBlock.

(** ** Reading locks back *)

Definition locked_script (t lockOp : Z) (keyID : list Z) : CScript :=
  push_int64 [] t ++ [lockOp; OP_DROP] ++ GetScriptForDestination (CKeyID keyID).

Lemma size_serialize_7 t : 0 ≤ t < 2 ^ 55 → size (serialize t) ≤ 7.
Proof.
  intros Ht. pose proof (scriptnum_decodes t 7 ltac:(lia) ltac:(lia) ltac:(lia) false) as H.
  unfold CScriptNum in H. destruct (Z.ltb_spec 7 (size (serialize t))); [done|lia].
Qed.

Lemma serialize_nonempty t : 0 < t < 2 ^ 55 → serialize t ≠ [].
Proof.
  intros Ht E. pose proof (scriptnum_decodes t 7 ltac:(lia) ltac:(lia) ltac:(lia) false) as H. rewrite E in H.
  vm_compute in H. injection H as H. lia.
Qed.

Lemma candidate_push t rest :
  0 ≤ t < 2 ^ 55 →
  ∃ o vch, GetOp (push_int64 [] t ++ rest) = Some (o, vch, rest) ∧ candidate_number o vch = Some (Some t).
Proof.
  intros Ht. unfold push_int64. destruct (Z.eqb_spec t (-1)); [lia|]. cbn [orb].
  destruct (Z.leb_spec 1 t), (Z.leb_spec t 16); cbn [andb].
  2-4: destruct (Z.eqb_spec t 0) as [->|]; [try lia|try lia].
  3:{ exists OP_0, []. split; [by destruct rest|done]. }
  - exists (u8 (t + (OP_1 - 1))), []. rewrite u8_id by (unfold OP_1; split; lia). cbn [app]. rewrite GetOp_opcode by (unfold OP_1, OP_PUSHDATA4; lia).
    split; [done|]. unfold candidate_number, OP_1, OP_16, OP_0. destruct (Z.eqb_spec (t + (0x51 - 1)) 0); [lia|].
    destruct (Z.leb_spec 0x51 (t + (0x51 - 1))), (Z.leb_spec (t + (0x51 - 1)) 0x60); try lia. cbn [andb]. do 2 f_equal. lia.
  - pose proof (size_serialize_7 t Ht) as H8. exists (push_op (serialize t)), (serialize t).
    rewrite GetOp_push by lia. split; [done|]. pose proof (serialize_nonempty t ltac:(lia)) as Hne.
    assert (0 < size (serialize t)) as Hp by (unfold size; destruct (serialize t); [done|simpl; lia]).
    unfold candidate_number, push_op, OP_PUSHDATA1. destruct (Z.ltb_spec (size (serialize t)) 0x4c); [|lia].
    unfold OP_0, OP_1, OP_16, OP_PUSHDATA4. destruct (Z.eqb_spec (size (serialize t)) 0); [lia|].
    destruct (Z.leb_spec 0x51 (size (serialize t))); [lia|]. cbn [andb].
    destruct (Z.ltb_spec (size (serialize t)) 0x4e); [|lia]. rewrite bool_decide_eq_false_2 by done. cbn [negb andb].
    destruct (Z.leb_spec (size (serialize t)) 8); [|lia].
    pose proof (scriptnum_decodes t 7 ltac:(lia) ltac:(lia) ltac:(lia) true) as Hd. unfold CScriptNum in *.
    destruct (Z.ltb_spec 7 (size (serialize t))); [lia|]. destruct (Z.ltb_spec 8 (size (serialize t))); [lia|]. by rewrite Hd.
Qed.

Lemma spend_tail_keyhash keyID : size keyID = 20 → spend_tail (GetScriptForDestination (CKeyID keyID)) = true.
Proof.
  intros Hk. unfold GetScriptForDestination, op. rewrite push_vch_app, <- !app_assoc. cbn [app].
  unfold spend_tail. rewrite GetOp_opcode by done. rewrite Z.eqb_refl. rewrite expect_op by done. cbn [mbind option_bind].
  rewrite expect_data_push by (done || lia). cbn [mbind option_bind]. rewrite expect_op by done. cbn [mbind option_bind].
  by rewrite expect_op.
Qed.

(** A coin locked by [OP_CHECKLOCKTIMEVERIFY] or [OP_CHECKSEQUENCEVERIFY] before a
    pay-to-key-hash spend is read back as the lock it is; as a stake it gets the weight
    of the lock's remaining blocks, at most three times its amount. *)
Theorem locked_stake_recognised t lockOp keyID a nHeight :
  0 ≤ t < 2 ^ 55 → size keyID = 20 → lockOp ∈ [OP_CHECKLOCKTIMEVERIFY; OP_CHECKSEQUENCEVERIFY] →
  ExtractTimelock (locked_script t lockOp keyID) = read_lock lockOp t ∧
  (lockOp = OP_CHECKLOCKTIMEVERIFY → amount_fits a → nHeight < t < 500000000 →
   pol_part (NewTxOut a (locked_script t lockOp keyID)) a nHeight = Some (a + 2 * a * Z.min (t - nHeight) L_MAX / L_MAX)).
Proof.
  intros Ht Hk Ho. assert (ExtractTimelock (locked_script t lockOp keyID) = read_lock lockOp t) as E.
  - assert (OP_PUSHDATA4 < lockOp ∧ lockOp ≠ OP_DROP ∧
      (lockOp =? OP_CHECKLOCKTIMEVERIFY) || (lockOp =? OP_CHECKSEQUENCEVERIFY) = true) as (Hop & Hnd & Hor).
    { rewrite !elem_of_cons, elem_of_nil in Ho. by destruct Ho as [->|[->|[]]]. }
    assert (size (locked_script t lockOp keyID) < 60 ∧ 0 < size (locked_script t lockOp keyID)) as [Hs Hs0].
    { unfold locked_script, GetScriptForDestination, op. rewrite push_vch_app, !size_app, size_push by lia.
      rewrite !size_cons, Hk. change (size []) with 0.
      assert (0 ≤ size (push_int64 [] t) ≤ 9); [|lia]. split; [apply size_nonneg|]. unfold push_int64.
      destruct ((t =? -1) || _); [unfold size; simpl; lia|]. destruct (t =? 0); [unfold size; simpl; lia|]. pose proof (size_serialize_7 t Ht).
      rewrite size_push, size_cons by lia. lia. }
    unfold ExtractTimelock, MatchCoinLockRegistration, MatchPoWLockRegistration.
    rewrite (proj2 (Z.ltb_lt _ _) Hs), (proj2 (Z.ltb_lt _ 95)) by lia.
    destruct (candidate_push t ([lockOp; OP_DROP] ++ GetScriptForDestination (CKeyID keyID)) Ht) as (o & vch & Hget & Hc).
    fold (locked_script t lockOp keyID) in Hget.
    destruct (locked_script t lockOp keyID) as [|x s] eqn:Es; [done|]. cbn [length timelock_loop]. rewrite Hget.
    cbn [mbind option_bind]. rewrite Hc. cbn [mbind option_bind app]. rewrite GetOp_opcode by done. cbn [mbind option_bind].
    rewrite (proj2 (Z.eqb_neq _ _) Hnd), Hor. destruct (Z.ltb_spec t 0); [lia|]. rewrite expect_op by done. cbn [mbind option_bind].
    by rewrite spend_tail_keyhash.
  - split; [done|]. intros -> Ha Hh. unfold pol_part. cbn [scriptPubKey NewTxOut]. rewrite E. cbn [read_lock Z.eqb].
    unfold read_lock. rewrite Z.eqb_refl. cbn [mbind option_bind fIsBlockHeight].
    rewrite (proj2 (Z.ltb_lt _ _)) by lia. cbn [negb]. unfold lock_blocks. cbn [fIsRelative lock_time].
    rewrite (proj2 (Z.ltb_lt nHeight t)) by lia. rewrite (proj2 (Z.ltb_lt 0 _)) by lia.
    by destruct (pol_weight_spec a (t - nHeight) Ha ltac:(lia)) as [-> _].
Qed.

(** ** Instances *)

(** Key [2] burns fifty coins by paying key [1]. *)
Definition burn_key (b : Z) : CTxDestination := CKeyID (replicate 20 b).

Definition burn_coin : Coin := NewCoin (NewTxOut 100 (GetScriptForDestination (burn_key 2))) 3 false false.

Definition burn_tx : CTransaction :=
  MkTransaction 1 [MkTxIn (MkOutPoint 77 0) [] SEQUENCE_FINAL []] [NewTxOut 50 (GetScriptForDestination (burn_key 1))] 0 78.

Definition burn_address (d : CTxDestination) : list Z := match d with CKeyID id => id | _ => [] end.

Lemma burn_cache_survives_reorg_witness :
  let burns : BurnCache := {[ burn_key 2 := [MkBurn 7 4] ]} in
  let moves := [MkMoved burn_tx false (λ _, burn_coin) (λ _, burn_coin)] in
  let connected := connect_burns (λ _, None) (take 20) burn_address {[ replicate 20 1 := 0 ]} 5 moves burns in
  connected = {[ burn_key 2 := [MkBurn 7 4; MkBurn 50 5] ]} ∧
  disconnect_burns (λ _, None) (take 20) burn_address {[ replicate 20 1 := 0 ]} (λ _, None) 5 moves connected = burns.
Proof.
  intros burns moves connected. split; [vm_compute; reflexivity|].
  apply (burn_cache_survives_reorg (λ _, None) (take 20) burn_address {[ replicate 20 1 := 0 ]} (λ _, None) 5 moves burns).
  - intros d Hd. unfold burns in Hd. by apply lookup_singleton_Some in Hd as [_ ?].
  - intros d b Hb. unfold burns_of, burns in Hb. destruct (decide (d = burn_key 2)) as [->|Hne].
    + rewrite lookup_singleton_eq in Hb. apply list_elem_of_singleton in Hb as ->. simpl. lia.
    + rewrite lookup_singleton_ne in Hb by done. by apply elem_of_nil in Hb.
  - repeat constructor.
Defined.

(** The network of the examples: every upgrade is active from the start. *)
Definition mpa_consensus : Params := MkParams [] [] [] 0 0 60 7200 180 15 (2 ^ 60) 3600 100 (λ _, 0).

Definition mpa_env : Env := MkEnv None (Some (λ _, Some burn_coin)) None (take 20) (λ _ _, false).

Definition mpa_parent : CBlockIndex :=
  MkIndex [] None None 9 0 0 0 [] 0 0 0 [] 0 0 [] 0 0 0 0.

(** A coin of an address that burned fifty weighs its burn as well. *)
Lemma mpa_weight_bounds_witness :
  ∃ w, CalculateMPAWeight (λ _, None) mpa_consensus 2880 100 mpa_env (λ _, None) 0 (λ _, false) (λ _ _, 0) (empty_registry 0)
    {[ burn_key 2 := [MkBurn 50 5] ]} (MkOutPoint 77 0) 100 mpa_parent = Some (w, MPA_WEIGHT_POB) ∧ 100 < w ≤ 100 + 5 * 50.
Proof.
  destruct (mpa_weight_bounds (λ _, None) mpa_consensus 2880 100 mpa_env (λ _, None) 0 (λ _, false) (λ _ _, 0) (empty_registry 0)
    {[ burn_key 2 := [MkBurn 50 5] ]} (MkOutPoint 77 0) 100 mpa_parent) as (w & t & E & Hw & Ht).
  - split; lia.
  - simpl. lia.
  - intros d v Hd. apply lookup_singleton_Some in Hd as [_ <-]. split; [done|]. split; [|unfold amount_fits, BETA; simpl; lia].
    constructor; [simpl; lia|constructor].
  - assert (t = MPA_WEIGHT_POB ∧ w = 337) as [-> ->] by (vm_compute in E; injection E as <- <-; done).
    exists 337. split; [exact E|]. destruct Ht as (dest & H1 & _). lia.
Defined.
