(* ===== verification/Kernel.v ===== *)
(** * Stake kernels

    The rest of [src/src/kernel.cpp] and [src/src/stakeinput.cpp]: the input that
    stakes ([CPivStake]), the kernel that is hashed against the target
    ([CStakeKernel]), the search for a time slot that makes it win ([Stake]) and the
    check of the winner by every other node ([CheckProofOfStake]); with the time
    bounds of [chain.cpp].

    The modifier comes from [StakeModifier], the weight from [MpaWeight], the script
    check from [Interpreter].  [GetTransaction] finds a transaction and its block;
    [Hash] is the double SHA-256 of a byte string as limbs. *)

From stdpp Require Import gmap fin_maps.
From S2P Require Import Prelude Sorting Ints ArithUint256 Uint256 BlockIndex Params Chain Serialize Transaction Script Standard Sighash Interpreter AdamPing AdamSelect StakeModifier MpaWeight.

Local Open Scope Z_scope.

Definition HASH_DRIFT : Z := 45.

(** ** Time *)

Section Time.
Context (consensus : Params) (now : Z).

(** [Consensus::Params::HasStakeMinAgeOrDepth]: the sum is of 32-bit unsigned type. *)
Definition HasStakeMinAgeOrDepth (contextTime utxoFromBlockTime : Z) : bool :=
  u32 (utxoFromBlockTime + nStakeMinAge consensus) <=? contextTime.

(** The division by zero of [GetTimeSlot] is [None]. *)
Definition GetTimeSlot (nTime : Z) : option Z :=
  if nTimeSlotLength consensus =? 0 then None
  else Some (Z.quot nTime (nTimeSlotLength consensus) * nTimeSlotLength consensus).

Definition GetCurrentTimeSlot : option Z := GetTimeSlot now.

Definition MaxFutureBlockTime (b : CBlockIndex) : option Z :=
  d ← FutureBlockTimeDrift consensus (BlockIndex.nHeight b + 1); Some (now + d).

Definition MinPastBlockTime (h : heap) (p : ptr) : option Z :=
  b ← h !! p;
  v2 ← IsTimeProtocolV2 consensus (BlockIndex.nHeight b + 1);
  if negb v2 then Some (GetMedianTimePast h p)
  else if BlockIndex.nHeight b + 1 =? nActivationHeight consensus UPGRADE_TIME_PROTOCOL_V2 then
    d ← FutureBlockTimeDrift consensus (BlockIndex.nHeight b);
    d' ← FutureBlockTimeDrift consensus (BlockIndex.nHeight b + 1);
    Some (GetBlockTime b - d + d')
  else Some (GetBlockTime b).
End Time.

(** ** Data *)

Record CPivStake := MkStake { txFrom : CTransaction; nPosition : Z; pindexFrom : option ptr }.

Record CStakeKernel := MkKernel {
  k_pindexPrev : CBlockIndex;
  stakeModifier : list Z;
  nTimeBlockFrom : Z;
  stakeUniqueness : list Z;
  k_nTime : Z;
  k_nBits : Z;
  stakeValue : Z
}.

Definition SetTime (nTimeIn : Z) (k : CStakeKernel) : CStakeKernel :=
  MkKernel (k_pindexPrev k) (stakeModifier k) (nTimeBlockFrom k) (stakeUniqueness k) (i32 nTimeIn) (k_nBits k)
    (stakeValue k).

(** The parts of a [CBlock] that are read. *)
Record CBlock := MkBlock { hashPrevBlock : uint256; block_nTime : Z; block_nBits : Z; vtx : list CTransaction }.

Definition block_IsProofOfStake (b : CBlock) : bool :=
  match vtx b with _ :: tx :: _ => IsCoinStake tx | _ => false end.

Inductive pos_error :=
  | stake_input_failed | context_failed | kernel_failed | no_prevout | signature_fails (e : ScriptError).

#[export] Instance pos_error_eq_dec : EqDecision pos_error.
Proof. solve_decision. Defined.

Definition STANDARD_SCRIPT_VERIFY_FLAGS : Z :=
  SCRIPT_VERIFY_P2SH .| SCRIPT_VERIFY_DERSIG .| SCRIPT_VERIFY_STRICTENC .| SCRIPT_VERIFY_MINIMALDATA
  .| SCRIPT_VERIFY_NULLDUMMY .| SCRIPT_VERIFY_DISCOURAGE_UPGRADABLE_NOPS .| SCRIPT_VERIFY_CLEANSTACK
  .| SCRIPT_VERIFY_NULLFAIL .| SCRIPT_VERIFY_CHECKLOCKTIMEVERIFY .| SCRIPT_VERIFY_CHECKSEQUENCEVERIFY
  .| SCRIPT_VERIFY_LOW_S .| SCRIPT_VERIFY_TAPROOT.

(** ** The kernel *)

(** The quotients and products of 256-bit integers; [None] is the exception of a
    division by zero, which the guard excludes. *)
Definition weighted_target (prevHeight nBits stakeValue : Z) : option uint256 :=
  let bnTarget := (SetCompact nBits).1.1 in
  bnWeight ← div_assign W256 (base_uint_u64 W256 (u64 stakeValue)) (base_uint_u64 W256 100);
  if 2280 <=? prevHeight + 1 then
    let ones := op_not W256 (base_uint_zero W256) in
    if op_gt W256 bnWeight (base_uint_u64 W256 0) then
      q ← div_assign W256 ones bnWeight;
      if op_gt W256 bnTarget q then Some ones else Some (mul_assign W256 bnTarget bnWeight)
    else Some (mul_assign W256 bnTarget bnWeight)
  else Some (mul_assign W256 bnTarget bnWeight).

Section Kernels.
Context (Hash : list Z → uint256).

Definition kernel_GetHash (k : CStakeKernel) : uint256 :=
  Hash (stakeModifier k ++ le_enc 4 (u32 (nTimeBlockFrom k)) ++ stakeUniqueness k ++ le_enc 4 (u32 (k_nTime k))).

Definition CheckKernelHash (k : CStakeKernel) : option bool :=
  bnTarget ← weighted_target (BlockIndex.nHeight (k_pindexPrev k)) (k_nBits k) (stakeValue k);
  Some (op_lt W256 (kernel_GetHash k) bnTarget).

(** ** The input *)

Section Inputs.
Context (h : heap) (mapBlockIndex : gmap uint256 ptr) (chainActive : CChain).
Context (GetTransaction : Z → option (CTransaction * uint256)).

(** The entry of a block of the active chain. *)
Definition active_index (hashBlock : uint256) : option ptr :=
  match mapBlockIndex !! hashBlock with
  | Some p => if Contains h chainActive p then Some p else None
  | None => None
  end.

Definition InitFromTxIn (txin : CTxIn) : option CPivStake :=
  '(txPrev, hashBlock) ← GetTransaction (hash (prevout txin));
  if Z.of_nat (length (vout txPrev)) <=? n (prevout txin) then None
  else
    p ← active_index hashBlock;
    Some (MkStake txPrev (n (prevout txin)) (Some p)).

Definition GetTxOutFrom (st : CPivStake) : option CTxOut :=
  if tx_IsNull (txFrom st) then None else vout (txFrom st) !! Z.to_nat (nPosition st).

Definition GetValue (st : CPivStake) : Z :=
  match vout (txFrom st) !! Z.to_nat (nPosition st) with Some o => nValue o | None => 0 end.

Definition GetUniqueness (st : CPivStake) : list Z := le_enc 4 (nPosition st) ++ le_enc 32 (txhash (txFrom st)).

Definition GetOutPoint (st : CPivStake) : COutPoint := MkOutPoint (txhash (txFrom st)) (nPosition st).

(** The found entry is kept in the object. *)
Definition GetIndexFrom (st : CPivStake) : option ptr * CPivStake :=
  match pindexFrom st with
  | Some p => (Some p, st)
  | None =>
      match GetTransaction (txhash (txFrom st)) with
      | Some (_, hashBlock) =>
          let p := active_index hashBlock in (p, MkStake (txFrom st) (nPosition st) p)
      | None => (None, st)
      end
  end.

(** [None] is a dangling pointer. *)
Definition ContextCheck (consensus : Params) (nTime : Z) (st : CPivStake) : option (bool * CPivStake) :=
  let '(from, st) := GetIndexFrom st in
  match from with
  | None => Some (false, st)
  | Some p => b ← h !! p; Some (HasStakeMinAgeOrDepth consensus nTime (BlockIndex.nTime b), st)
  end.

(** [GetOldStakeModifier]; [Some None] is [return error]. *)
Definition GetOldStakeModifier (fTest : bool) (st : CPivStake) : option (option Z) * CPivStake :=
  let '(from, st) := GetIndexFrom st in
  match from with
  | None => (Some None, st)
  | Some p => (GetOldModifier fTest h chainActive p, st)
  end.

(** The constructor: a modifier that is not found is logged and stays 0; the null
    dereference of the last step is [None]. *)
Definition NewStakeKernel (fTest : bool) (weigh : COutPoint → Z → CBlockIndex → option (Z * MPAWeightType))
    (pindexPrev : CBlockIndex) (st : CPivStake) (nBits nTimeTx : Z) : option (CStakeKernel * CPivStake) :=
  '(w, _) ← weigh (GetOutPoint st) (GetValue st) pindexPrev;
  let '(r, st') := GetOldStakeModifier fTest st in
  m ← r;
  let '(from, st') := GetIndexFrom st' in
  p ← from;
  b ← h !! p;
  Some (MkKernel pindexPrev (le_enc 8 (default 0 m)) (i32 (BlockIndex.nTime b)) (GetUniqueness st) (i32 nTimeTx) nBits w, st').

(** ** Staking *)

Section Staking.
Context (consensus : Params) (fTest fRegTest : bool) (now : Z).
Context (weigh : COutPoint → Z → CBlockIndex → option (Z * MPAWeightType)).

(** [while (nTimeTx <= min) nTimeTx += slotStep]. *)
Fixpoint past_min (fuel : nat) (min slotStep nTimeTx : Z) : option Z :=
  if nTimeTx <=? min then
    match fuel with O => None | S fuel => past_min fuel min slotStep (nTimeTx + slotStep) end
  else Some nTimeTx.

(** The search over time slots; the kernel is made once and then gets new times. *)
Fixpoint stake_loop (fuel : nat) (pindexPrev : CBlockIndex) (nBits max slotStep : Z) (kernel : option CStakeKernel)
    (st : CPivStake) (nTimeTx : Z) : option (bool * Z) :=
  if nTimeTx <=? max then
    match fuel with
    | O => None
    | S fuel =>
        '(ok, st) ← ContextCheck consensus (u32 nTimeTx) st;
        if (ok : bool) then
          '(k, st) ← match kernel with
                     | None => NewStakeKernel fTest weigh pindexPrev st nBits nTimeTx
                     | Some k => Some (SetTime nTimeTx k, st)
                     end;
          win ← CheckKernelHash k;
          if (win : bool) then Some (true, nTimeTx)
          else stake_loop fuel pindexPrev nBits max slotStep (Some k) st (nTimeTx + slotStep)
        else stake_loop fuel pindexPrev nBits max slotStep kernel st (nTimeTx + slotStep)
    end
  else Some (false, nTimeTx).

(** The result and [nTimeTx]; both loops count up to their bound, which gives their
    fuel. *)
Definition Stake (pprev : ptr) (stakeInput : option CPivStake) (nBits : Z) : option (bool * Z) :=
  b ← h !! pprev;
  v2 ← IsTimeProtocolV2 consensus (BlockIndex.nHeight b + 1);
  let fTimeProtocolV2 := v2 && negb fRegTest in
  min ← MinPastBlockTime consensus h pprev;
  nTimeTx ← (if fTimeProtocolV2 then slot ← GetCurrentTimeSlot consensus now;
                                     Some (Z.max (min + nTimeSlotLength consensus) slot)
             else Some now);
  match stakeInput with
  | None => Some (false, nTimeTx)
  | Some st =>
      let slotStep := if fTimeProtocolV2 then nTimeSlotLength consensus else 1 in
      if slotStep =? 0 then None
      else
        let nTimeTx := Z.quot nTimeTx slotStep * slotStep in
        nTimeTx ← past_min (Z.to_nat (min - nTimeTx + 1)) min slotStep nTimeTx;
        max ← (if fTimeProtocolV2 then MaxFutureBlockTime consensus now b else Some (GetBlockTime b + HASH_DRIFT));
        stake_loop (Z.to_nat (max - nTimeTx + 1)) b nBits max slotStep None st nTimeTx
  end.
End Staking.

(** ** Validation *)

(** [pindexPrev] may be null. *)
Definition LoadStakeInput (block : CBlock) (pindexPrev : option ptr) : option CPivStake :=
  _ ← match pindexPrev with
      | None => match mapBlockIndex !! hashPrevBlock block with Some _ => Some () | None => None end
      | Some p => b ← h !! p; if bool_decide (hashPrevBlock block = phashBlock b) then Some () else None
      end;
  if negb (block_IsProofOfStake block) then None
  else
    tx ← vtx block !! 1%nat;
    txin ← head (vin tx);
    InitFromTxIn txin.

Section Validation.
Context (consensus : Params) (fTest : bool) (nTimeLastCheckpoint : Z).
Context (weigh : COutPoint → Z → CBlockIndex → option (Z * MPAWeightType)).
Context (CheckLowS : list Z → bool) (RIPEMD160 SHA1 SHA256 CHash160 CHash256 : list Z → list Z).
Context (CheckTapTweak : list Z → list Z → Z → bool → bool).
Context (SigHash : list Z → Z) (VerifyECDSA VerifySchnorr : list Z → Z → list Z → bool).

(** The script check of the coinstake's first input. *)
Definition verify_stake (tx : CTransaction) (txin : CTxIn) (stakePrevout : CTxOut) : option ScriptError :=
  VerifyScript CheckLowS RIPEMD160 SHA1 SHA256 CHash160 CHash256 CheckTapTweak SigHash VerifyECDSA VerifySchnorr
    (scriptSig txin) (scriptPubKey stakePrevout) STANDARD_SCRIPT_VERIFY_FLAGS
    (TransactionSignatureChecker SigHash SHA256 VerifyECDSA VerifySchnorr tx 0 (nValue stakePrevout) None).

(** [None] is a null dereference or a failed assertion. *)
Definition CheckProofOfStake (block : CBlock) (pprev : ptr) : option (pos_error + unit) :=
  if block_nTime block <=? nTimeLastCheckpoint then Some (inr ())
  else
    b ← h !! pprev;
    match LoadStakeInput block (Some pprev) with
    | None => Some (inl stake_input_failed)
    | Some st =>
        '(ok, st) ← ContextCheck consensus (block_nTime block) st;
        if negb ok then Some (inl context_failed)
        else
          '(k, st) ← NewStakeKernel fTest weigh b st (block_nBits block) (block_nTime block);
          win ← CheckKernelHash k;
          if negb win then Some (inl kernel_failed)
          else
            match GetTxOutFrom st with
            | None => Some (inl no_prevout)
            | Some stakePrevout =>
                tx ← vtx block !! 1%nat;
                txin ← head (vin tx);
                e ← verify_stake tx txin stakePrevout;
                if bool_decide (e = SCRIPT_ERR_OK) then Some (inr ()) else Some (inl (signature_fails e))
            end
    end.

Definition GetStakeKernelHash (block : CBlock) (pprev : ptr) : option (option uint256) :=
  match LoadStakeInput block (Some pprev) with
  | None => Some None
  | Some st =>
      b ← h !! pprev;
      '(k, _) ← NewStakeKernel fTest weigh b st (block_nBits block) (block_nTime block);
      Some (Some (kernel_GetHash k))
  end.
End Validation.
End Inputs.
End Kernels.

(** ** The target of a kernel *)

Lemma uval_ones : uval (op_not W256 (base_uint_zero W256)) = 2 ^ 256 - 1.
Proof. done. Qed.

Lemma ones_wf : uwf W256 (op_not W256 (base_uint_zero W256)).
Proof. apply op_not_spec, uwf_zero. Qed.

Lemma target_wf nBits : word 32 nBits → uwf W256 (SetCompact nBits).1.1.
Proof.
  intros Hb. pose proof (SetCompact_spec nBits Hb) as H. by destruct (SetCompact nBits) as [[a f] o]; destruct H.
Qed.

(** What the target times the weight is: saturated from height 2280 on, reduced modulo
    [2^256] before. *)
Definition target_value (prevHeight T w : Z) : Z :=
  if 2280 <=? prevHeight + 1 then Z.min (T * w) (2 ^ 256 - 1) else T * w mod 2 ^ 256.

Lemma weighted_target_spec prevHeight nBits v :
  word 32 nBits → 0 ≤ v < 2 ^ 63 →
  ∃ t, weighted_target prevHeight nBits v = Some t ∧ uwf W256 t ∧
    uval t = target_value prevHeight (uval (SetCompact nBits).1.1) (v / 100).
Proof.
  intros Hb Hv. unfold weighted_target. pose proof (target_wf nBits Hb) as HT.
  set (T := (SetCompact nBits).1.1) in *. rewrite u64_id by (split; lia).
  pose proof (uwf_u64 W256 v ltac:(lia)) as Wv. pose proof (uwf_u64 W256 100 ltac:(lia)) as W100.
  pose proof (div_assign_spec W256 _ _ ltac:(lia) Wv W100) as Hd. rewrite !uval_u64 in Hd by (split; lia). cbn [Z.eqb] in Hd.
  destruct Hd as (w & -> & Hw & Ew). cbn [mbind option_bind].
  destruct (mul_assign_spec W256 T w ltac:(lia) HT Hw) as [Wm Em]. change (bw W256) with (2 ^ 256) in Em.
  pose proof (uval_wf W256 T HT) as RT. change (bw W256) with (2 ^ 256) in RT. unfold target_value. rewrite <- Ew.
  destruct (2280 <=? prevHeight + 1); [|by eexists]. pose proof (uwf_u64 W256 0 ltac:(lia)) as W0.
  rewrite op_gt_spec by done. rewrite uval_u64 by done.
  assert (0 ≤ uval w) as Hw0 by (rewrite Ew; apply Z.div_pos; lia).
  destruct (Z.ltb_spec 0 (uval w)) as [Hpos|Hz].
  2:{ eexists. split_and!; [done..|]. assert (uval w = 0) as E0 by lia. rewrite Em, E0, Z.mul_0_r. done. }
  pose proof (div_assign_spec W256 _ _ ltac:(lia) ones_wf Hw) as Hq. destruct (Z.eqb_spec (uval w) 0); [lia|].
  destruct Hq as (q & -> & Wq & Eq). cbn [mbind option_bind]. rewrite op_gt_spec, Eq, uval_ones by done.
  pose proof (Z.mul_div_le (2 ^ 256 - 1) (uval w) Hpos). pose proof (Z.mul_succ_div_gt (2 ^ 256 - 1) (uval w) Hpos).
  destruct (Z.ltb_spec ((2 ^ 256 - 1) / uval w) (uval T)) as [Hgt|Hle].
  - eexists. split_and!; [done|apply ones_wf|]. rewrite uval_ones, Z.min_r; [done|]. nia.
  - eexists. split_and!; [done..|]. rewrite Em, Z.mod_small, Z.min_l by nia. done.
Qed.

(** From height 2280 on, a kernel wins exactly when its hash is below the target times
    a hundredth of its weight, capped at the greatest 256-bit number; so a heavier
    stake wins whenever a lighter one with the same hash does. *)
Theorem heavier_stake_wins Hash k k' :
  (∀ x, uwf W256 (Hash x)) → word 32 (k_nBits k) → 0 ≤ stakeValue k ≤ stakeValue k' → stakeValue k' < 2 ^ 63 →
  2279 ≤ BlockIndex.nHeight (k_pindexPrev k) →
  k' = MkKernel (k_pindexPrev k) (stakeModifier k) (nTimeBlockFrom k) (stakeUniqueness k) (k_nTime k) (k_nBits k) (stakeValue k') →
  CheckKernelHash Hash k =
    Some (uval (kernel_GetHash Hash k) <?
          Z.min (uval (SetCompact (k_nBits k)).1.1 * (stakeValue k / 100)) (2 ^ 256 - 1)) ∧
  (CheckKernelHash Hash k = Some true → CheckKernelHash Hash k' = Some true).
Proof.
  intros HH Hb Hv Hv' Hh Ek. assert (kernel_GetHash Hash k' = kernel_GetHash Hash k) as Eh by (by rewrite Ek).
  assert (k_pindexPrev k' = k_pindexPrev k ∧ k_nBits k' = k_nBits k) as [Ep Eb] by (by rewrite Ek). clear Ek.
  unfold CheckKernelHash. rewrite Ep, Eb, Eh.
  destruct (weighted_target_spec (BlockIndex.nHeight (k_pindexPrev k)) (k_nBits k) (stakeValue k)) as (t & -> & Wt & Et); [done|lia|].
  destruct (weighted_target_spec (BlockIndex.nHeight (k_pindexPrev k)) (k_nBits k) (stakeValue k')) as (t' & -> & Wt' & Et'); [done|lia|].
  cbn [mbind option_bind]. unfold target_value in *. rewrite (proj2 (Z.leb_le _ _)) in Et, Et' by lia.
  rewrite !op_lt_spec by (done || apply HH). rewrite Et, Et'. split; [done|].
  intros H%(inj Some)%Z.ltb_lt. f_equal. apply Z.ltb_lt. eapply Z.lt_le_trans; [exact H|]. apply Z.min_le_compat_r.
  apply Z.mul_le_mono_nonneg_l; [|by apply Z.div_le_mono; lia].
  by pose proof (uval_wf W256 _ (target_wf (k_nBits k) Hb)) as [? _].
Qed.

(** Before, the product wraps: at the easiest target, twice the stake of a winner can
    lose. *)
Example heavier_stake_lost_before :
  let k v := MkKernel (demo_stake 100 None None 0 0) [] 0 [] 0 0x20100000 v in
  let hash := λ _ : list Z, base_uint_u64 W256 1 in
  CheckKernelHash hash (k 800) = Some true ∧ CheckKernelHash hash (k 1600) = Some false.
Proof. vm_compute. done. Qed.

(** ** The search for a slot *)

Section Search.
Context (Hash : list Z → uint256).
Context (h : heap) (mapBlockIndex : gmap uint256 ptr) (chainActive : CChain).
Context (GetTransaction : Z → option (CTransaction * uint256)).
Context (consensus : Params) (fTest : bool).
Context (weigh : COutPoint → Z → CBlockIndex → option (Z * MPAWeightType)).

(** An input whose block is known, and the numbers its kernels are made of; the
    modifier is 0 as long as the active chain has none for the input. *)
Record staked (st : CPivStake) (b : CBlockIndex) (from : CBlockIndex) (w m : Z) : Prop := {
  staked_from : ∃ p, pindexFrom st = Some p ∧ h !! p = Some from ∧
    (GetOldModifier fTest h chainActive p = Some (Some m) ∨ GetOldModifier fTest h chainActive p = Some None ∧ m = 0) ;
  staked_weight : ∃ t, weigh (GetOutPoint st) (GetValue st) b = Some (w, t) }.

(** The kernel of an input at a time. *)
Definition kernel_at (st : CPivStake) (b from : CBlockIndex) (w m nBits t : Z) : CStakeKernel :=
  MkKernel b (le_enc 8 m) (i32 (BlockIndex.nTime from)) (GetUniqueness st) (i32 t) nBits w.

(** The input may stake at a time, and its kernel wins. *)
Definition slot_wins (st : CPivStake) (b from : CBlockIndex) (w m nBits t : Z) : bool :=
  HasStakeMinAgeOrDepth consensus (u32 t) (BlockIndex.nTime from) &&
  bool_decide (CheckKernelHash Hash (kernel_at st b from w m nBits t) = Some true).

Local Abbreviation context_check := (ContextCheck h mapBlockIndex chainActive GetTransaction consensus).
Local Abbreviation new_kernel := (NewStakeKernel h mapBlockIndex chainActive GetTransaction fTest weigh).
Local Abbreviation loop := (stake_loop Hash h mapBlockIndex chainActive GetTransaction consensus fTest weigh).

Lemma ContextCheck_staked st b from w m t :
  staked st b from w m → context_check t st = Some (HasStakeMinAgeOrDepth consensus t (BlockIndex.nTime from), st).
Proof using Type.
  intros [(p & Hp & Hf & _) _]. unfold ContextCheck, GetIndexFrom. rewrite Hp. cbn [mbind option_bind]. by rewrite Hf.
Qed.

Lemma NewStakeKernel_staked st b from w m nBits t :
  staked st b from w m → new_kernel b st nBits t = Some (kernel_at st b from w m nBits t, st).
Proof using Type.
  intros [(p & Hp & Hf & Hm) [ty Hw]]. unfold NewStakeKernel, GetOldStakeModifier, GetIndexFrom. rewrite Hw, Hp.
  cbn [mbind option_bind]. destruct Hm as [->|[-> ->]]; cbn [mbind option_bind]; rewrite Hp; cbn [mbind option_bind]; by rewrite Hf.
Qed.

Lemma CheckKernelHash_defined k :
  word 32 (k_nBits k) → 0 ≤ stakeValue k < 2 ^ 63 → is_Some (CheckKernelHash Hash k).
Proof using Type.
  intros Hb Hv. unfold CheckKernelHash.
  by destruct (weighted_target_spec (BlockIndex.nHeight (k_pindexPrev k)) (k_nBits k) (stakeValue k) Hb Hv) as (t & -> & _).
Qed.

(** The search returns the first slot that wins, or says that none does up to the
    bound. *)
Lemma stake_loop_spec st b from w m nBits max step fuel kernel t :
  staked st b from w m → word 32 nBits → 0 ≤ w < 2 ^ 63 → 0 < step → max - t < Z.of_nat fuel →
  (∀ k, kernel = Some k → ∃ t', k = kernel_at st b from w m nBits t') →
  ∃ r i, loop fuel b nBits max step kernel st t = Some (r, t + Z.of_nat i * step) ∧
    (∀ j, (j < i)%nat → slot_wins st b from w m nBits (t + Z.of_nat j * step) = false) ∧
    if (r : bool) then t + Z.of_nat i * step ≤ max ∧ slot_wins st b from w m nBits (t + Z.of_nat i * step) = true
    else max < t + Z.of_nat i * step.
Proof using Type.
  intros Hst Hb Hw Hstep. revert kernel t. induction fuel as [|fuel IH]; intros kernel t Hf Hk; cbn [stake_loop].
  { destruct (Z.leb_spec t max); [lia|]. exists false, 0%nat. split_and!; [do 2 f_equal; lia|lia|lia]. }
  destruct (Z.leb_spec t max) as [Hle|Hgt].
  2:{ exists false, 0%nat. split_and!; [do 2 f_equal; lia|lia|lia]. }
  assert (∀ kernel', (∀ k, kernel' = Some k → ∃ t', k = kernel_at st b from w m nBits t') →
    slot_wins st b from w m nBits t = false →
    ∃ r i, loop fuel b nBits max step kernel' st (t + step) = Some (r, t + Z.of_nat i * step) ∧
    (∀ j, (j < i)%nat → slot_wins st b from w m nBits (t + Z.of_nat j * step) = false) ∧
    if (r : bool) then t + Z.of_nat i * step ≤ max ∧ slot_wins st b from w m nBits (t + Z.of_nat i * step) = true
    else max < t + Z.of_nat i * step) as Hnext.
  { intros kernel' Hk' Hlose. destruct (IH kernel' (t + step)) as (r & i & E & Hlo & Hr); [lia|done|].
    replace (t + step + Z.of_nat i * step) with (t + Z.of_nat (S i) * step) in * by lia.
    exists r, (S i). split_and!; [done| |done]. intros [|j] Hj; [by rewrite Z.add_0_r|].
    replace (t + Z.of_nat (S j) * step) with (t + step + Z.of_nat j * step) by lia. apply Hlo. lia. }
  rewrite (ContextCheck_staked st b from w m) by done. cbn [mbind option_bind].
  unfold slot_wins in Hnext at 1.
  destruct (HasStakeMinAgeOrDepth consensus (u32 t) (BlockIndex.nTime from)) eqn:Eage; [|by apply Hnext].
  assert (match kernel with None => new_kernel b st nBits t | Some k => Some (SetTime t k, st) end =
    Some (kernel_at st b from w m nBits t, st)) as ->.
  { destruct kernel as [k|]; [|by apply NewStakeKernel_staked]. by destruct (Hk k eq_refl) as [t' ->]. }
  cbn [mbind option_bind].
  destruct (CheckKernelHash_defined (kernel_at st b from w m nBits t) Hb Hw) as [win Ewin]. rewrite Ewin.
  cbn [mbind option_bind]. destruct win.
  - exists true, 0%nat. rewrite Z.mul_0_l, Z.add_0_r. split_and!; [done|lia|done|].
    unfold slot_wins. by rewrite Eage, Ewin.
  - apply Hnext; [intros k [= <-]; by eexists|]. cbn [andb]. by rewrite Ewin.
Qed.

Lemma past_min_spec fuel min step t :
  0 < step → min - t < Z.of_nat fuel →
  ∃ i, past_min fuel min step t = Some (t + Z.of_nat i * step) ∧ min < t + Z.of_nat i * step ∧
    (i = 0%nat ∨ t + Z.of_nat i * step ≤ min + step).
Proof using Type.
  intros Hs. revert t. induction fuel as [|fuel IH]; intros t Hf; cbn [past_min];
    (destruct (Z.leb_spec t min); [|exists 0%nat; split_and!; [f_equal; lia|lia|by left]]); [lia|].
  destruct (IH (t + step)) as (i & -> & Hi & Hj); [lia|]. exists (S i).
  split_and!; [f_equal; lia|lia|]. right. destruct Hj as [->|Hj]; lia.
Qed.

Lemma FutureBlockTimeDrift_defined nHeight : 0 ≤ nHeight → is_Some (FutureBlockTimeDrift consensus nHeight).
Proof using Type.
  intros H. unfold FutureBlockTimeDrift, IsTimeProtocolV2. rewrite !NetworkUpgradeActive_spec by done. cbn [mbind option_bind].
  by destruct (_ && _).
Qed.

Lemma MinPastBlockTime_defined p b :
  h !! p = Some b → 0 ≤ BlockIndex.nHeight b → is_Some (MinPastBlockTime consensus h p).
Proof using Type.
  intros Hp H0. unfold MinPastBlockTime, IsTimeProtocolV2. rewrite Hp. cbn [mbind option_bind].
  rewrite NetworkUpgradeActive_spec by lia. cbn [mbind option_bind]. destruct (negb _); [done|]. destruct (_ =? _); [|done].
  destruct (FutureBlockTimeDrift_defined (BlockIndex.nHeight b) H0) as [d ->].
  by destruct (FutureBlockTimeDrift_defined (BlockIndex.nHeight b + 1) ltac:(lia)) as [d' ->].
Qed.

(** Every aligned time in the range is one of the slots of the search. *)
Lemma slot_in_search L min slot t :
  0 < L → 0 ≤ min → 0 ≤ slot → slot mod L = 0 → t mod L = 0 → min < t → slot ≤ t →
  ∃ j, t = Z.quot (Z.max (min + L) slot) L * L + Z.of_nat j * L.
Proof using Type.
  intros HL Hm Hs Es Et Hmt Hst. rewrite Z.quot_div_nonneg by lia.
  pose proof (Z.div_mod t L ltac:(lia)) as Dt. pose proof (Z.div_mod slot L ltac:(lia)) as Ds.
  pose proof (Z.div_mod min L ltac:(lia)) as Dm. pose proof (Z.mod_pos_bound min L HL).
  assert (Z.max (min + L) slot / L ≤ t / L).
  { destruct (Z.max_spec (min + L) slot) as [[_ ->]|[_ ->]]; [by apply Z.div_le_mono|].
    replace (min + L) with (min + 1 * L) by lia. rewrite Z.div_add by lia. nia. }
  exists (Z.to_nat (t / L - Z.max (min + L) slot / L)). rewrite Z2Nat.id by lia. nia.
Qed.

Lemma Stake_search now st b from w m nBits pprev :
  staked st b from w m → word 32 nBits → 0 ≤ w < 2 ^ 63 → h !! pprev = Some b → 0 ≤ BlockIndex.nHeight b →
  0 < nTimeSlotLength consensus → 0 ≤ now → IsTimeProtocolV2 consensus (BlockIndex.nHeight b + 1) = Some true →
  (∀ min, MinPastBlockTime consensus h pprev = Some min → 0 ≤ min) →
  ∃ min slot max r t, MinPastBlockTime consensus h pprev = Some min ∧ GetCurrentTimeSlot consensus now = Some slot ∧
  MaxFutureBlockTime consensus now b = Some max ∧
  Stake Hash h mapBlockIndex chainActive GetTransaction consensus fTest false now weigh pprev (Some st) nBits = Some (r, t) ∧
  (r = true → min < t ≤ max ∧ IsValidBlockTimeStamp consensus t (BlockIndex.nHeight b + 1) = Some true ∧
     slot_wins st b from w m nBits t = true) ∧
  (∀ t', t' mod nTimeSlotLength consensus = 0 → min < t' ≤ max → slot ≤ t' → (r = true → t' < t) →
     slot_wins st b from w m nBits t' = false).
Proof using Type.
  intros Hst Hb Hw Hp Hh HL Hnow Hv2 Hmin0. set (L := nTimeSlotLength consensus) in *.
  destruct (MinPastBlockTime_defined pprev b Hp Hh) as [min Hmin]. specialize (Hmin0 min Hmin).
  destruct (FutureBlockTimeDrift_defined (BlockIndex.nHeight b + 1) ltac:(lia)) as [d Hd].
  set (slot := Z.quot now L * L). set (max := now + d). exists min, slot, max.
  assert (GetCurrentTimeSlot consensus now = Some slot) as Hslot.
  { unfold GetCurrentTimeSlot, GetTimeSlot. fold L. by destruct (Z.eqb_spec L 0); [lia|]. }
  assert (MaxFutureBlockTime consensus now b = Some max) as Hmax by (unfold MaxFutureBlockTime; by rewrite Hd).
  assert (0 ≤ slot ∧ slot mod L = 0) as [Hs0 Hsm].
  { unfold slot. rewrite Z.quot_div_nonneg by lia. pose proof (Z.div_pos now L Hnow HL). split; [nia|apply Z.mod_mul; lia]. }
  set (t0 := Z.quot (Z.max (min + L) slot) L * L).
  assert (min < t0) as Ht0.
  { unfold t0. rewrite Z.quot_div_nonneg by lia. pose proof (Z.div_mod (Z.max (min + L) slot) L ltac:(lia)).
    pose proof (Z.mod_pos_bound (Z.max (min + L) slot) L HL). lia. }
  destruct (past_min_spec (Z.to_nat (min - t0 + 1)) min L t0 HL ltac:(lia)) as (i0 & Epast & Hi0 & Hcase).
  assert (i0 = 0%nat) as -> by (destruct Hcase as [|]; [done|]; destruct i0; [done|]; nia).
  rewrite Z.mul_0_l, Z.add_0_r in Epast.
  destruct (stake_loop_spec st b from w m nBits max L (Z.to_nat (max - t0 + 1)) None t0 Hst Hb Hw HL) as (r & i & E & Hlo & Hr);
    [lia|done|].
  exists r, (t0 + Z.of_nat i * L). split_and!; [done..| | |].
  - unfold Stake. rewrite Hp. cbn [mbind option_bind]. rewrite Hv2. cbn [mbind option_bind andb negb].
    rewrite Hmin. cbn [mbind option_bind]. rewrite Hslot. cbn [mbind option_bind]. fold L. fold t0.
    destruct (Z.eqb_spec L 0); [lia|]. rewrite Epast. cbn [mbind option_bind]. rewrite Hmax. cbn [mbind option_bind]. done.
  - intros ->. destruct Hr as [Hle Hwin]. split_and!; [nia|done| |done].
    unfold IsValidBlockTimeStamp. rewrite Hv2. cbn [mbind option_bind]. f_equal. apply Z.eqb_eq. fold L.
    rewrite Z.rem_mod_nonneg by nia. unfold t0. rewrite <- Z.mul_add_distr_r. apply Z.mod_mul. lia.
  - intros t' Hal Hrange Hsl Hbefore. destruct (slot_in_search L min slot t' HL Hmin0 Hs0 Hsm Hal) as [j ->]; [lia..|].
    fold t0 in Hrange, Hbefore |- *. apply Hlo. destruct r; [specialize (Hbefore eq_refl)|]; nia.
Qed.

(** Under the slot rule of time protocol 2, [Stake] always returns.  A time it finds is
    later than the previous block, not in the future, on a slot, and wins; and whatever
    it returns, it has not passed over a slot from the current one on that would have
    won. *)
Theorem Stake_finds_first_slot now st b from w m nBits pprev :
  staked st b from w m → word 32 nBits → 0 ≤ w < 2 ^ 63 → h !! pprev = Some b → 0 ≤ BlockIndex.nHeight b →
  0 < nTimeSlotLength consensus → 0 ≤ now → IsTimeProtocolV2 consensus (BlockIndex.nHeight b + 1) = Some true →
  (∀ min, MinPastBlockTime consensus h pprev = Some min → 0 ≤ min) →
  ∃ min slot max r t, MinPastBlockTime consensus h pprev = Some min ∧ GetCurrentTimeSlot consensus now = Some slot ∧
  MaxFutureBlockTime consensus now b = Some max ∧
  Stake Hash h mapBlockIndex chainActive GetTransaction consensus fTest false now weigh pprev (Some st) nBits = Some (r, t) ∧
  (r = true → min < t ≤ max ∧ IsValidBlockTimeStamp consensus t (BlockIndex.nHeight b + 1) = Some true ∧
     slot_wins st b from w m nBits t = true) ∧
  (∀ t', t' mod nTimeSlotLength consensus = 0 → min < t' ≤ max → slot ≤ t' → (r = true → t' < t) →
     slot_wins st b from w m nBits t' = false).
Proof using Type. apply Stake_search. Qed.

(** C11: What a staker finds, every node accepts: a coinstake that spends the input, in a
    block on the same parent with the time [Stake] returned, passes [CheckProofOfStake]
    if its signature verifies. *)
Theorem staked_block_accepted CheckLowS RIPEMD160 SHA1 SHA256 CHash160 CHash256 CheckTapTweak SigHash VerifyECDSA VerifySchnorr
    checkpoint now st b from w m nBits pprev t hb o cb tx rest txin :
  staked st b from w m → word 32 nBits → 0 ≤ w < 2 ^ 63 → h !! pprev = Some b → 0 ≤ BlockIndex.nHeight b →
  0 < nTimeSlotLength consensus → 0 ≤ now → IsTimeProtocolV2 consensus (BlockIndex.nHeight b + 1) = Some true →
  (∀ min, MinPastBlockTime consensus h pprev = Some min → 0 ≤ min) →
  Stake Hash h mapBlockIndex chainActive GetTransaction consensus fTest false now weigh pprev (Some st) nBits = Some (true, t) →
  t < 2 ^ 31 →
  GetTransaction (txhash (txFrom st)) = Some (txFrom st, hb) →
  active_index h mapBlockIndex chainActive hb = pindexFrom st →
  0 ≤ nPosition st → vout (txFrom st) !! Z.to_nat (nPosition st) = Some o →
  IsCoinStake tx = true → head (vin tx) = Some txin → prevout txin = GetOutPoint st →
  verify_stake CheckLowS RIPEMD160 SHA1 SHA256 CHash160 CHash256 CheckTapTweak SigHash VerifyECDSA VerifySchnorr
    tx txin o = Some SCRIPT_ERR_OK →
  CheckProofOfStake Hash h mapBlockIndex chainActive GetTransaction consensus fTest checkpoint weigh
    CheckLowS RIPEMD160 SHA1 SHA256 CHash160 CHash256 CheckTapTweak SigHash VerifyECDSA VerifySchnorr
    (MkBlock (phashBlock b) t nBits (cb :: tx :: rest)) pprev = Some (inr ()).
Proof using Type.
  intros Hst Hb Hw Hp Hh HL Hnow Hv2 Hmin0 HS Ht Htx Hact Hpos Ho Hcs Hin Hprev Hver.
  destruct (Stake_search now st b from w m nBits pprev Hst Hb Hw Hp Hh HL Hnow Hv2 Hmin0)
    as (min & slot & max & r & t1 & Hmin & _ & _ & E & Hr & _).
  rewrite HS in E. injection E as <- <-. destruct (Hr eq_refl) as (Hlt & _ & Hwin). specialize (Hmin0 min Hmin).
  apply andb_true_iff in Hwin as [Hage Hwin%bool_decide_eq_true]. rewrite u32_id in Hage by (split; lia).
  unfold CheckProofOfStake. cbn [block_nTime block_nBits vtx hashPrevBlock]. destruct (_ <=? _); [done|].
  rewrite Hp. cbn [mbind option_bind].
  assert (LoadStakeInput h mapBlockIndex chainActive GetTransaction (MkBlock (phashBlock b) t nBits (cb :: tx :: rest)) (Some pprev) =
    Some st) as ->.
  { unfold LoadStakeInput, block_IsProofOfStake. cbn [hashPrevBlock vtx]. rewrite Hp. cbn [mbind option_bind].
    rewrite bool_decide_eq_true_2 by done. cbn [mbind option_bind]. rewrite Hcs. cbn [negb lookup list_lookup mbind option_bind].
    rewrite Hin. cbn [mbind option_bind]. unfold InitFromTxIn. rewrite Hprev. unfold GetOutPoint. cbn [hash n]. rewrite Htx.
    cbn [mbind option_bind]. apply lookup_lt_Some in Ho. destruct (Z.leb_spec (Z.of_nat (length (vout (txFrom st)))) (nPosition st)); [lia|].
    rewrite Hact. destruct Hst as [(p & Hp' & _) _]. rewrite Hp'. cbn [mbind option_bind]. rewrite <- Hp'. by destruct st. }
  rewrite (ContextCheck_staked st b from w m) by done. cbn [mbind option_bind]. rewrite Hage. cbn [negb].
  rewrite (NewStakeKernel_staked st b from w m) by done. cbn [mbind option_bind]. rewrite Hwin. cbn [mbind option_bind negb].
  assert (GetTxOutFrom st = Some o) as ->.
  { unfold GetTxOutFrom, tx_IsNull. destruct (vin (txFrom st)), (vout (txFrom st)); done. }
  cbn [lookup list_lookup mbind option_bind]. rewrite Hin. cbn [mbind option_bind]. rewrite Hver. cbn [mbind option_bind]. done.
Qed.
End Search.

(** ** Instances *)

Definition demo_consensus : Params :=
  MkParams [] [] [] 0 0 60 7200 180 15 (2 ^ 60) 3600 100 (λ _, 0).

Definition demo_from : CTransaction := MkTransaction 1 [] [NewTxOut 100000 [OP_1]] 0 77.

Definition demo_input : CPivStake := MkStake demo_from 0 (Some 1%positive).

Definition demo_find (txid : Z) : option (CTransaction * uint256) :=
  if txid =? 77 then Some (demo_from, 1 :: replicate 7 0) else None.

Definition demo_weigh (_ : COutPoint) (a : Z) (_ : CBlockIndex) : option (Z * MPAWeightType) := Some (a, MPA_WEIGHT_POS).

Definition demo_zero (_ : list Z) : uint256 := base_uint_zero W256.

Definition demo_coinstake : CTransaction :=
  MkTransaction 1 [MkTxIn (MkOutPoint 77 0) [] SEQUENCE_FINAL []] [NewTxOut 0 []; NewTxOut 100000 [OP_1]] 0 78.

Definition demo_parent : CBlockIndex := demo_stake 4 (Some 3%positive) (Some 2%positive) 5 3100.

Lemma demo_staked : staked demo_stakes demo_tip false demo_weigh demo_input demo_parent (demo_stake 1 None None 1 900) 100000 4.
Proof.
  split; [|by eexists]. exists 1%positive. split_and!; [done..|]. left. by vm_compute.
Qed.

Lemma Stake_finds_first_slot_witness :
  ∃ t, Stake demo_zero demo_stakes demo_index demo_tip demo_find demo_consensus false false 5000 demo_weigh
         4%positive (Some demo_input) 0x1e0ffff0 = Some (true, t) ∧ 3100 < t ≤ 5014 ∧ t = 4995.
Proof.
  destruct (Stake_finds_first_slot demo_zero demo_stakes demo_index demo_tip demo_find demo_consensus false demo_weigh
    5000 demo_input demo_parent _ _ _ 0x1e0ffff0 4%positive demo_staked) as (min & slot & max & r & t & Hmin & _ & Hmax & E & Hr & _);
    [split; lia|lia|done|done|done|lia|by vm_compute|by intros ? [= <-]|].
  injection Hmin as <-. injection Hmax as <-.
  assert (r = true ∧ t = 4995) as [-> ->] by (vm_compute in E; injection E as <- <-; done).
  exists 4995. split_and!; [exact E|apply Hr; done|apply Hr; done|done].
Defined.

Lemma staked_block_accepted_witness :
  CheckProofOfStake demo_zero demo_stakes demo_index demo_tip demo_find demo_consensus false 0 demo_weigh
    (λ _, true) demo_digest demo_digest demo_digest demo_digest demo_digest (λ _ _ _ _, false) (λ _, 0)
    (λ _ _ _, false) (λ _ _ _, false)
    (MkBlock (phashBlock demo_parent) 4995 0x1e0ffff0 [demo_from; demo_coinstake]) 4%positive = Some (inr ()).
Proof.
  eapply (staked_block_accepted demo_zero demo_stakes demo_index demo_tip demo_find demo_consensus false demo_weigh)
    with (now := 5000) (st := demo_input) (txin := MkTxIn (MkOutPoint 77 0) [] SEQUENCE_FINAL []) (o := NewTxOut 100000 [OP_1]).
  - exact demo_staked.
  - split; lia.
  - lia.
  - done.
  - done.
  - done.
  - lia.
  - by vm_compute.
  - by intros ? [= <-].
  - by vm_compute.
  - lia.
  - done.
  - by vm_compute.
  - done.
  - done.
  - done.
  - done.
  - done.
  - by vm_compute.
Defined.

Lemma heavier_stake_wins_witness :
  CheckKernelHash (λ _, base_uint_u64 W256 (2 ^ 40)) (kernel_at demo_input (demo_stake 5000 None None 0 0) demo_parent 200000 4 0x1e0ffff0 9) = Some true.
Proof.
  apply (heavier_stake_wins (λ _, base_uint_u64 W256 (2 ^ 40))
    (kernel_at demo_input (demo_stake 5000 None None 0 0) demo_parent 100000 4 0x1e0ffff0 9)).
  - intros _. apply uwf_u64. lia.
  - split; simpl; lia.
  - simpl. lia.
  - simpl. lia.
  - simpl. lia.
  - done.
  - by vm_compute.
Defined.
