(* ===== verification/BlockReward.v ===== *)
(** * The block reward

    [src/src/masternode.cpp] and [src/src/masternode-payments.cpp]: what a block may mint
    ([CMasternode::GetBlockValue], with its fixed-point decay), what of it goes to the
    treasury, the faucet, masternodes, quorum and participants, and the check that the
    treasury and the faucet were paid (the first part of [IsBlockPayeeValid]).  The money
    supply is a global of [main.cpp] and an argument here; [ConnectBlock] moves it.

    The theorem: the reward is 15 coins times [0.981] to the number of past periods, to
    less than a unit, computed without overflow, and never carries the supply over its
    maximum. *)

From stdpp Require Import gmap fin_maps.
From S2P Require Import Prelude Ints Params Serialize Transaction Script AdamPing.

Local Open Scope Z_scope.

(** [unsigned __int128]. *)
Definition u128 (x : Z) : Z := x .& (2 ^ 128 - 1).

(** ** The reward *)

Definition FIXED_SCALE : Z := 1000000000000000000.
Definition DECAY_NUM : Z := 981000000000000000.

(** A product of two fixed-point numbers, rounded. *)
Definition fixed_mul (a b : Z) : Z := u128 (u128 (a * b) + FIXED_SCALE / 2) / FIXED_SCALE.

(** The loop that raises the base to a power, bit by bit. *)
Fixpoint decay_loop (fuel : nat) (exp factor base : Z) : option Z :=
  if 0 <? exp then
    match fuel with
    | O => None
    | S fuel =>
        let factor := if negb (exp .& 1 =? 0) then fixed_mul factor base else factor in
        let exp := exp >> 1 in
        let base := if 0 <? exp then fixed_mul base base else base in
        decay_loop fuel exp factor base
    end
  else Some factor.

(** The exponent is an [int]: it has 31 bits. *)
Definition decay (period : Z) : option Z := decay_loop 31 period FIXED_SCALE DECAY_NUM.

Definition GetBlockValue (params : Params) (nMoneySupply nHeight : Z) : option Z :=
  let maxMoneyOut := nMaxMoneyOut params in
  if maxMoneyOut <=? nMoneySupply then Some 0
  else if nHeight =? 1 then Some 0
  else if nHeight <? 10000 then Some (if nHeight =? 0 then 15 * COIN else 100 * COIN)
  else
    let period := Z.quot (nHeight - 10000) 259200 in
    factor ← decay period;
    let rawSubsidy := u128 (15 * COIN * factor) in
    let nSubsidy := i64 (u128 (rawSubsidy + FIXED_SCALE / 2) / FIXED_SCALE) in
    Some (if maxMoneyOut <? i64 (nMoneySupply + nSubsidy) then maxMoneyOut - nMoneySupply else nSubsidy).

(** ** The splits *)

Definition IsModelDActive (params : Params) (nHeight : Z) : option bool :=
  NetworkUpgradeActive params nHeight UPGRADE_MODELD.

Definition TreasurySplit (nHeight nBlockValActual : Z) : Z :=
  if 1 <? nHeight then Z.quot (i64 (nBlockValActual * 7)) 100 else 0.

Definition FaucetSplit (nHeight nBlockValActual : Z) : Z :=
  if (1 <? nHeight) && (nHeight <=? 50000) then Z.quot (i64 (nBlockValActual * 7)) 1000 else 0.

(** The shares of masternode, quorum and participants under Model D. *)
Definition ModelDSplits (nHeight nBlockValActual : Z) : Z * Z * Z :=
  let nBlockVal := nBlockValActual - (TreasurySplit nHeight nBlockValActual + FaucetSplit nHeight nBlockValActual) in
  (Z.quot (i64 (nBlockVal * 50)) 100, Z.quot (i64 (nBlockVal * 10)) 100, Z.quot (i64 (nBlockVal * 25)) 100).

Definition GetMasternodePayment (params : Params) (nMoneySupply nHeight : Z) : option Z :=
  modelD ← IsModelDActive params nHeight;
  nBlockVal ← GetBlockValue params nMoneySupply nHeight;
  Some (if (modelD : bool) then (ModelDSplits nHeight nBlockVal).1.1
        else if nHeight <=? 5000 then 0
        else if nHeight <=? 100000 then Z.quot (i64 (nBlockVal * 80)) 100
        else Z.quot (i64 (nBlockVal * 60)) 100).

(** The first part of [IsBlockPayeeValid], for the outputs of the coinbase or coinstake:
    an output pays exactly the treasury's share, and one the faucet's. *)
Definition pays (script : CScript) (amount : Z) (outs : list CTxOut) : bool :=
  existsb (λ o, bool_decide (scriptPubKey o = script) && (nValue o =? amount)) outs.

Definition treasury_valid (treasuryScript faucetScript : CScript) (nHeight nBlockValActual : Z) (outs : list CTxOut) : bool :=
  if 1 <? nHeight then
    let nExpectedFaucet := if nHeight <=? 50000 then Z.quot (i64 (nBlockValActual * 7)) 1000 else 0 in
    if negb (pays treasuryScript (Z.quot (i64 (nBlockValActual * 7)) 100) outs) then false
    else if (0 <? nExpectedFaucet) && negb (pays faucetScript nExpectedFaucet outs) then false
    else true
  else true.

(** ** Fixed-point powers *)

Lemma u128_id x : 0 ≤ x < 2 ^ 128 → u128 x = x.
Proof.
  intros H. unfold u128. change (2 ^ 128 - 1) with (Z.ones 128). rewrite Z.land_ones by lia. by apply Z.mod_small.
Qed.

(** [F] is the power [a] of [981/1000] at the scale, to [e] half units. *)
Definition approx (a e F : Z) : Prop :=
  0 ≤ a ∧ 0 ≤ e ∧ 0 ≤ F ≤ FIXED_SCALE ∧ 2 * Z.abs (F * 1000 ^ a - FIXED_SCALE * 981 ^ a) ≤ e * 1000 ^ a.

Lemma fixed_mul_bounds a b :
  0 ≤ a ≤ FIXED_SCALE → 0 ≤ b ≤ FIXED_SCALE →
  0 ≤ fixed_mul a b ≤ FIXED_SCALE ∧ 2 * Z.abs (fixed_mul a b * FIXED_SCALE - a * b) ≤ FIXED_SCALE.
Proof.
  intros Ha Hb. assert (0 ≤ a * b ≤ FIXED_SCALE * FIXED_SCALE) as Hab
    by (split; [nia|apply Z.mul_le_mono_nonneg; lia]).
  unfold fixed_mul. change (FIXED_SCALE / 2) with 500000000000000000. rewrite (u128_id (a * b)) by (unfold FIXED_SCALE in *; lia).
  rewrite u128_id by (unfold FIXED_SCALE in *; lia).
  pose proof (Z.div_mod (a * b + 500000000000000000) FIXED_SCALE ltac:(done)) as E.
  pose proof (Z.mod_pos_bound (a * b + 500000000000000000) FIXED_SCALE ltac:(done)) as Hm.
  set (q := (a * b + 500000000000000000) / FIXED_SCALE) in *. set (r := (a * b + 500000000000000000) mod FIXED_SCALE) in *.
  clearbody q r. unfold FIXED_SCALE in *. split; [nia|]. lia.
Qed.

(** Rounding errors add up under multiplication. *)
Lemma approx_mul a b e e' F B : approx a e F → approx b e' B → approx (a + b) (e + e' + 1) (fixed_mul F B).
Proof.
  intros (Ha & He & HF & EF) (Hb & He' & HB & EB). destruct (fixed_mul_bounds F B HF HB) as [HG Em].
  split_and!; [lia..|]. set (G := fixed_mul F B) in *. clearbody G. clear HG. rewrite !Z.pow_add_r by lia.
  assert (0 < 1000 ^ a ∧ 0 < 1000 ^ b) as [HP HQ] by (split; apply Z.pow_pos_nonneg; lia).
  assert (0 ≤ 981 ^ a ≤ 1000 ^ a) as HX by (split; [apply Z.pow_nonneg|apply Z.pow_le_mono_l]; lia).
  set (P := 1000 ^ a) in *. set (Q := 1000 ^ b) in *. set (X := 981 ^ a) in *. set (Y := 981 ^ b) in *.
  set (S := FIXED_SCALE) in *. assert (0 < S) as HS by done. clearbody P Q X Y S. clear Ha Hb a b.
  apply (Z.mul_le_mono_pos_l _ _ S HS).
  assert (S * (2 * Z.abs (G * (P * Q) - S * (X * Y))) =
    2 * Z.abs ((G * S - F * B) * (P * Q) + ((F * P - S * X) * (B * Q) + S * X * (B * Q - S * Y)))) as ->.
  { rewrite <- (Z.abs_eq S) at 1 by lia. rewrite Z.mul_assoc, (Z.mul_comm _ 2), <- Z.mul_assoc, <- Z.abs_mul. do 2 f_equal. ring. }
  pose proof (Z.abs_triangle ((G * S - F * B) * (P * Q)) ((F * P - S * X) * (B * Q) + S * X * (B * Q - S * Y))) as T1.
  pose proof (Z.abs_triangle ((F * P - S * X) * (B * Q)) (S * X * (B * Q - S * Y))) as T2.
  rewrite !Z.abs_mul in T1, T2. rewrite (Z.abs_mul (S * X)), (Z.abs_mul S X) in T2. rewrite (Z.abs_eq P), (Z.abs_eq Q) in T1 by lia.
  rewrite (Z.abs_eq B), (Z.abs_eq Q), (Z.abs_eq S), (Z.abs_eq X) in T2 by lia.
  set (e1 := Z.abs (G * S - F * B)) in *. set (e2 := Z.abs (F * P - S * X)) in *. set (e3 := Z.abs (B * Q - S * Y)) in *.
  assert (2 * e1 * (P * Q) ≤ S * (P * Q)) by (apply Z.mul_le_mono_nonneg_r; nia).
  assert (2 * e2 * (B * Q) ≤ e * P * (S * Q)) by (apply Z.mul_le_mono_nonneg; nia).
  assert (S * X * (2 * e3) ≤ S * P * (e' * Q)) by (apply Z.mul_le_mono_nonneg; nia).
  lia.
Qed.

(** The loop: with the factor at power [a] and the base at a power [2 ^ k]. *)
Lemma decay_loop_spec fuel exp F B a k :
  0 ≤ exp < 2 ^ Z.of_nat fuel → approx a a F → 0 ≤ k → approx (2 ^ k) (2 ^ k - 1) B →
  ∃ F', decay_loop fuel exp F B = Some F' ∧ approx (a + exp * 2 ^ k) (a + exp * 2 ^ k) F'.
Proof.
  revert exp F B a k. induction fuel as [|fuel IH]; intros exp F B a k He HF Hk HB; cbn [decay_loop];
    (destruct (Z.ltb_spec 0 exp) as [Hp|Hp]; [|exists F; by replace exp with 0 by lia; rewrite Z.add_0_r]).
  { change (2 ^ Z.of_nat 0) with 1 in He. lia. }
  assert (exp .& 1 = exp mod 2) as -> by (exact (Z.land_ones exp 1 ltac:(lia))).
  rewrite (Z.shiftr_div_pow2 exp 1) by lia. change (2 ^ 1) with 2. pose proof (Z.div_mod exp 2 ltac:(lia)) as E.
  pose proof (Z.mod_pos_bound exp 2 ltac:(lia)) as Hm. set (q := exp / 2) in *. set (r := exp mod 2) in *. clearbody q r.
  rewrite Nat2Z.inj_succ, Z.pow_succ_r in He by lia.
  set (F1 := if negb (r =? 0) then fixed_mul F B else F).
  assert (approx (a + r * 2 ^ k) (a + r * 2 ^ k) F1) as HF1.
  { unfold F1. destruct (Z.eqb_spec r 0) as [->|]; cbn [negb]; [by rewrite Z.mul_0_l, Z.add_0_r|].
    replace r with 1 by lia. rewrite Z.mul_1_l. replace (a + 2 ^ k) with (a + (2 ^ k - 1) + 1) at 2 by lia. by apply approx_mul. }
  replace (a + exp * 2 ^ k) with (a + r * 2 ^ k + q * 2 ^ (k + 1)) by (rewrite Z.pow_add_r by lia; lia).
  destruct (Z.ltb_spec 0 q) as [Hq|Hq].
  - apply IH; [lia|done|lia|]. replace (2 ^ (k + 1)) with (2 ^ k + 2 ^ k) by (rewrite Z.pow_add_r by lia; lia).
    replace (2 ^ k + 2 ^ k - 1) with (2 ^ k - 1 + (2 ^ k - 1) + 1) by lia. by apply approx_mul.
  - exists F1. replace q with 0 by lia. rewrite Z.mul_0_l, Z.add_0_r. split; [|done]. by destruct fuel.
Qed.

Lemma decay_spec period :
  0 ≤ period < 2 ^ 31 → ∃ F, decay period = Some F ∧ approx period period F.
Proof.
  intros H. destruct (decay_loop_spec 31 period FIXED_SCALE DECAY_NUM 0 0) as (F & E & HF); [done| |lia| |].
  - split_and!; [lia..|by vm_compute|by vm_compute|by vm_compute].
  - split_and!; [by vm_compute..|]. vm_compute. done.
  - exists F. split; [done|]. by rewrite Z.pow_0_r, Z.mul_1_r, Z.add_0_l in HF.
Qed.

(** ** The reward and its splits *)

(** The number of whole periods of decay before a height. *)
Definition periods (nHeight : Z) : Z := (nHeight - 10000) / 259200.

(** The rounded product with the first reward. *)
Lemma subsidy_spec p F :
  p < 10000 → approx p p F →
  let n := u128 (u128 (15 * COIN * F) + FIXED_SCALE / 2) / FIXED_SCALE in
  0 ≤ n ≤ 15 * COIN ∧ Z.abs (n * 1000 ^ p - 15 * COIN * 981 ^ p) < 1000 ^ p.
Proof.
  intros Hp (H0 & _ & HF & E) n. subst n. change (15 * COIN) with 1500000000. change (FIXED_SCALE / 2) with 500000000000000000.
  rewrite (u128_id (_ * F)), u128_id by (unfold FIXED_SCALE in *; lia).
  pose proof (Z.div_mod (1500000000 * F + 500000000000000000) FIXED_SCALE ltac:(done)) as D.
  pose proof (Z.mod_pos_bound (1500000000 * F + 500000000000000000) FIXED_SCALE ltac:(done)) as R.
  set (n := _ / FIXED_SCALE) in *. set (r := _ mod FIXED_SCALE) in *. clearbody n r. unfold FIXED_SCALE in *. split; [lia|].
  assert (0 < 1000 ^ p) as HP by (apply Z.pow_pos_nonneg; lia). set (P := 1000 ^ p) in *. set (X := 981 ^ p) in *. clearbody P X.
  assert (p * P ≤ 10000 * P) by (apply Z.mul_le_mono_nonneg_r; lia).
  assert (1000000000000000000 * n = 1500000000 * F + (500000000000000000 - r)) as En by lia.
  assert (1000000000000000000 * (n * P - 1500000000 * X) =
    1500000000 * (F * P - 1000000000000000000 * X) + (500000000000000000 - r) * P) as Ed.
  { rewrite Z.mul_sub_distr_l, Z.mul_assoc, En. ring. }
  assert (Z.abs ((500000000000000000 - r) * P) ≤ 500000000000000000 * P).
  { rewrite Z.abs_mul, (Z.abs_eq P) by lia. apply Z.mul_le_mono_nonneg_r; lia. }
  lia.
Qed.

(** Every branch, for a supply within the maximum. *)
Lemma GetBlockValue_bounds params s h :
  0 ≤ s ≤ nMaxMoneyOut params → nMaxMoneyOut params < 2 ^ 62 → 0 ≤ h < 2 ^ 31 →
  ∃ v, GetBlockValue params s h = Some v ∧ 0 ≤ v ≤ 100 * COIN ∧ (10000 ≤ h → s + v ≤ nMaxMoneyOut params) ∧
    (10000 ≤ h → s < nMaxMoneyOut params → v ≠ nMaxMoneyOut params - s →
     Z.abs (v * 1000 ^ periods h - 15 * COIN * 981 ^ periods h) < 1000 ^ periods h).
Proof.
  intros Hs Hmax Hh. unfold GetBlockValue. destruct (Z.leb_spec (nMaxMoneyOut params) s).
  { exists 0. split_and!; [done|done|by vm_compute|lia|lia]. }
  destruct (Z.eqb_spec h 1); [exists 0; split_and!; [done|done|by vm_compute|lia|lia]|].
  destruct (Z.ltb_spec h 10000).
  { eexists. split; [done|]. unfold COIN. destruct (h =? 0); lia. }
  rewrite Z.quot_div_nonneg by lia. fold (periods h).
  assert (0 ≤ periods h < 10000) as Hp by (unfold periods; split; [apply Z.div_pos|apply Z.div_lt_upper_bound]; lia).
  destruct (decay_spec (periods h)) as (F & -> & HF); [lia|]. cbn [mbind option_bind].
  destruct (subsidy_spec (periods h) F (proj2 Hp) HF) as [Hn He]. set (k := _ / FIXED_SCALE) in *. clearbody k.
  assert (15 * COIN = 1500000000) as Ec by done. rewrite !i64_id by (try rewrite i64_id; lia).
  eexists. split; [done|]. unfold COIN in *. destruct (Z.ltb_spec (nMaxMoneyOut params) (s + k)); split_and!; try lia; intros; done.
Qed.

(** The shares of a reward fit into it. *)
Lemma splits_fit h v :
  0 ≤ v < 2 ^ 50 →
  let '(mn, llmq, part) := ModelDSplits h v in
  0 ≤ TreasurySplit h v ∧ 0 ≤ FaucetSplit h v ∧ 0 ≤ mn ∧ 0 ≤ llmq ∧ 0 ≤ part ∧
  TreasurySplit h v + FaucetSplit h v + mn + llmq + part ≤ v ∧
  TreasurySplit h v + FaucetSplit h v + Z.quot (i64 (v * 80)) 100 ≤ v.
Proof.
  intros Hv. unfold ModelDSplits, TreasurySplit, FaucetSplit. rewrite (i64_id (v * 7)), (i64_id (v * 80)) by lia.
  set (t := if 1 <? h then _ else _). set (f := if _ && _ then _ else _).
  assert (0 ≤ t ∧ 100 * t ≤ 7 * v ∧ 0 ≤ f ∧ 1000 * f ≤ 7 * v) as (Ht & Ht' & Hf & Hf').
  { unfold t, f. rewrite !Z.quot_div_nonneg by lia. destruct (1 <? h), (h <=? 50000); simpl; Z.to_euclidean_division_equations; lia. }
  clearbody t f. rewrite !i64_id, !Z.quot_div_nonneg by lia. Z.to_euclidean_division_equations. lia.
Qed.

(** C17: after the bootstrap phase the reward of a block is defined, computed without overflow,
    and is 15 coins times [0.981] to the number of whole periods of 259200 blocks, to less
    than one unit, unless the rest of the supply is less; it never carries the supply over
    its maximum, and the shares of treasury, faucet and masternode fit into it. *)
Theorem block_reward_decays params s h :
  0 ≤ s < nMaxMoneyOut params → nMaxMoneyOut params < 2 ^ 62 → 10000 ≤ h < 2 ^ 31 →
  ∃ v pay, GetBlockValue params s h = Some v ∧ GetMasternodePayment params s h = Some pay ∧
    0 ≤ v ∧ s + v ≤ nMaxMoneyOut params ∧
    (v = nMaxMoneyOut params - s ∨ Z.abs (v * 1000 ^ periods h - 15 * COIN * 981 ^ periods h) < 1000 ^ periods h) ∧
    0 ≤ pay ∧ TreasurySplit h v + FaucetSplit h v + pay ≤ v.
Proof.
  intros Hs Hmax Hh. destruct (GetBlockValue_bounds params s h) as (v & E & Hv & Hc & Hd); [lia..|].
  assert (0 ≤ v < 2 ^ 50) as Hv' by (unfold COIN in Hv; lia).
  pose proof (splits_fit h v Hv') as Hfit. unfold GetMasternodePayment, IsModelDActive.
  rewrite NetworkUpgradeActive_spec by lia. cbn [mbind option_bind]. rewrite E. cbn [mbind option_bind].
  destruct (ModelDSplits h v) as [[mn llmq] part]. cbn [fst].
  destruct Hfit as (Ht & Hf & Hm & Hl & Hp & Hsum & H80).
  assert (0 ≤ Z.quot (i64 (v * 60)) 100 ≤ Z.quot (i64 (v * 80)) 100 ∧ 0 ≤ Z.quot (i64 (v * 80)) 100).
  { rewrite !i64_id, !Z.quot_div_nonneg by lia. Z.to_euclidean_division_equations. lia. }
  eexists v, _. split; [done|]. split; [done|]. split; [lia|]. split; [lia|]. split.
  { destruct (decide (v = nMaxMoneyOut params - s)); [by left|right; apply Hd; lia]. }
  destruct (_ && _); [lia|]. destruct (h <=? 5000); [lia|]. destruct (h <=? 100000); lia.
Qed.

(** The network's parameters, half a year after the bootstrap. *)
Lemma block_reward_decays_witness :
  ∃ v, GetBlockValue (MkParams [] [] [] 0 0 60 0 0 0 (43199500 * COIN) 0 100 (λ _, -1)) (1000000 * COIN) 600000 = Some v ∧
    v = 1443541500 ∧ Z.abs (v * 1000 ^ 2 - 15 * COIN * 981 ^ 2) < 1000 ^ 2.
Proof.
  destruct (block_reward_decays (MkParams [] [] [] 0 0 60 0 0 0 (43199500 * COIN) 0 100 (λ _, -1)) (1000000 * COIN) 600000)
    as (v & _ & E & _ & _ & _ & Hd & _); [vm_compute; done|vm_compute; done|done|].
  assert (v = 1443541500) as ->.
  { assert (GetBlockValue (MkParams [] [] [] 0 0 60 0 0 0 (43199500 * COIN) 0 100 (λ _, -1)) (1000000 * COIN) 600000 = Some 1443541500) as F
      by (vm_compute; reflexivity). rewrite E in F. by injection F. }
  exists 1443541500. split; [exact E|]. split; [done|]. destruct Hd as [Hd|Hd]; [vm_compute in Hd; done|exact Hd].
Defined.
