(* ===== verification/ConnectBlock.v ===== *)
(** * Connecting a block

    [ConnectBlock] of [src/src/main.cpp], from the assertion on the best block of the view
    to the update of the money supply: the checks of each transaction against the view,
    the sums of fees, inputs and outputs, the burns, the coins, and the check that the
    block mints no more than its reward; and the part of [DisconnectBlock] that takes the
    supply back.  [CheckBlock] runs before.  The checks of scripts and the treasury's
    governance rule (a quorum's BLS signature) are parameters; scripts are checked in the
    loop, as without script threads.

    The theorems: with at most one coinstake in a block the coins never exceed the money
    supply nor the supply its maximum, through any reorganisation.  Without that limit,
    which [CheckBlock] enforces for proof-of-stake blocks only, the 64-bit sums wrap around.
    A refused block leaves its burns in the cache, and a repeated coinbase is accepted or
    not depending on what a node has cached. *)

From stdpp Require Import gmap fin_maps.
From S2P Require Import Prelude Ints Params Serialize Transaction Script Standard Coins TxVerify BlockUndo AdamPing MpaWeight BlockReward.

Local Open Scope Z_scope.

Inductive block_reject :=
| PoS_early
| legacy_pow_ended
| bad_blk_sigops
| bad_txns_inputs_missingorspent
| bad_txns_spend_burn_address
| bad_governance
| bad_inputs (score : Z) (r : reject)
| bad_script
| bad_cb_amount.

(** [return true], [return state.DoS(...)], and an exception or a failed assertion. *)
Inductive result (A : Type) := Ok (a : A) | Refused (r : block_reject) | Throws.
Arguments Ok {A} _.
Arguments Refused {A} _.
Arguments Throws {A}.

#[export] Instance result_bind : MBind result :=
  λ A B k r, match r with Ok a => k a | Refused e => Refused e | Throws => Throws end.

(** The same for a block.  The burns found so far are in the cache already when the block
    is refused; the rest of the state is as before. *)
Inductive answer (A : Type) := Accepted (a : A) | Rejected (r : block_reject) (left : BurnCache) | Aborted.
Arguments Accepted {A} _.
Arguments Rejected {A} _ _.
Arguments Aborted {A}.

#[export] Instance answer_bind : MBind answer :=
  λ A B k r, match r with Accepted a => k a | Rejected e l => Rejected e l | Aborted => Aborted end.

Definition leaving {A} (left : BurnCache) (r : result A) : answer A :=
  match r with Ok a => Accepted a | Refused e => Rejected e left | Throws => Aborted end.

Definition MAX_BLOCK_SIGOPS_CURRENT : Z := 8000000 / 50.

(** [CBlock::IsProofOfStake]. *)
Definition IsProofOfStake (vtx : list CTransaction) : bool :=
  match vtx with _ :: tx :: _ => IsCoinStake tx | _ => false end.

(** What the loop over the transactions carries along. *)
Record Tally := MkTally {
  view : list Cache;
  burns : BurnCache;
  nFees : Z;
  nSigOps : Z;
  nValueIn : Z;
  nValueOut : Z;
  vtxundo : list (list Coin)
}.

Section Connect.
Context (SerializeHash : list Z → Z) (Hash160 : list Z → list Z) (DynamicUsage : Coin → Z).
Context (params : Params) (lastCheckpoint : Z) (puzzleHash : Z → list Z → list Z → Z) (zeroCoinTarget : Z).
Context (later : CScript → option Z) (EncodeDestination : CTxDestination → list Z) (mBurnAddresses : gmap (list Z) Z).
Context (governance : Z → (COutPoint → Coin) → CTransaction → bool) (scripts : Z → (COutPoint → Coin) → CTransaction → bool).

(** The coin that [AccessCoin] refers to; the caches have it already when the inputs of a
    transaction were found. *)
Definition coin_at (v : list Cache) (b : Backing) (o : COutPoint) : Coin := default coinEmpty (found v b o).

Definition GetP2SHSigOpCount (coins : COutPoint → Coin) (tx : CTransaction) : Z :=
  if IsCoinBase tx then 0
  else fold_left (λ n i, let s := scriptPubKey (out (coins (prevout i))) in
                         if IsPayToScriptHash s then u32 (n + GetSigOpCount_P2SH s (scriptSig i)) else n) (vin tx) 0.

(** The loop that looks for an input that spends from a burn address. *)
Definition spends_burn_address (coins : COutPoint → Coin) (nHeight : Z) (tx : CTransaction) : bool :=
  existsb (λ i, let c := coins (prevout i) in
                if IsSpent c then false
                else match ExtractDestinations later Hash160 (scriptPubKey (out c)) with
                     | Some (_, addresses, _) => existsb (λ a, IsBurnAddress EncodeDestination mBurnAddresses a nHeight) addresses
                     | None => false
                     end) (vin tx).

(** The first part of the loop's body: the inputs are there and may be spent. *)
Definition connect_inputs (b : Backing) (nHeight : Z) (tx : CTransaction) (v : list Cache) (sigops : Z) : result (list Cache * Z) :=
  if IsCoinBase tx || IsZeroCoinPoWTransaction Hash160 tx then Ok (v, sigops)
  else
    let '(have, v) := HaveInputs DynamicUsage v b tx in
    if negb have then Refused bad_txns_inputs_missingorspent
    else if spends_burn_address (coin_at v b) nHeight tx then Refused bad_txns_spend_burn_address
    else if negb (governance nHeight (coin_at v b) tx) then Refused bad_governance
    else
      let sigops := u32 (sigops + GetP2SHSigOpCount (coin_at v b) tx) in
      if MAX_BLOCK_SIGOPS_CURRENT <? sigops then Refused bad_blk_sigops else Ok (v, sigops).

(** The sums of fees and inputs. *)
Definition connect_fees (b : Backing) (tx : CTransaction) (v : list Cache) (fees ins : Z) : result (list Cache * Z * Z) :=
  if IsCoinBase tx || IsZeroCoinPoWTransaction Hash160 tx then Ok (v, fees, ins)
  else
    let '(value, v) := GetValueIn DynamicUsage v b tx in
    if IsCoinStake tx then Ok (v, fees, i64 (ins + value))
    else match GetValueOut tx with
         | inl _ => Throws
         | inr w => Ok (v, i64 (fees + i64 (value - w)), i64 (ins + value))
         end.

(** [CheckInputs]. *)
Definition check_inputs (b : Backing) (nHeight : Z) (tx : CTransaction) (v : list Cache) : result (list Cache) :=
  if IsCoinBase tx then Ok v
  else
    match CheckTxInputs Hash160 puzzleHash zeroCoinTarget DynamicUsage params lastCheckpoint tx v b nHeight with
    | None => Throws
    | Some (DoS score r, _) => Refused (bad_inputs score r)
    | Some (Pass, v) =>
        if IsZeroCoinPoWTransaction Hash160 tx || scripts nHeight (coin_at v b) tx then Ok v else Refused bad_script
    end.

(** The body of the loop. *)
Definition connect_tx (fJustCheck : bool) (b : Backing) (nHeight : Z) (tx : CTransaction) (t : Tally) : result Tally :=
  let sigops := u32 (nSigOps t + GetLegacySigOpCount tx) in
  if MAX_BLOCK_SIGOPS_CURRENT <? sigops then Refused bad_blk_sigops
  else
    '(v, sigops) ← connect_inputs b nHeight tx (view t) sigops;
    '(v, fees, ins) ← connect_fees b tx v (nFees t) (nValueIn t);
    v ← check_inputs b nHeight tx v;
    match GetValueOut tx with
    | inl _ => Throws
    | inr w =>
        let burns := if fJustCheck then burns t
                     else connect_burn later Hash160 EncodeDestination mBurnAddresses nHeight
                            (IsZeroCoinPoWTransaction Hash160 tx) (coin_at v b) tx (burns t) in
        match UpdateCoins DynamicUsage Hash160 tx v b nHeight with
        | Done (undo, v) => Ok (MkTally v burns fees sigops ins (i64 (nValueOut t + w)) (vtxundo t ++ [undo]))
        | _ => Throws
        end
    end.

Fixpoint connect_txs (fJustCheck : bool) (b : Backing) (nHeight : Z) (vtx : list CTransaction) (t : Tally) : answer Tally :=
  match vtx with
  | [] => Accepted t
  | tx :: vtx => t ← leaving (burns t) (connect_tx fJustCheck b nHeight tx t); connect_txs fJustCheck b nHeight vtx t
  end.

(** [nMint] against [nExpectedMint]: [IsBlockValueValid]. *)
Definition mint_ok (nMoneySupply nHeight : Z) (vtx : list CTransaction) (t : Tally) : option bool :=
  let nMint := i64 (i64 (nValueOut t - nValueIn t) + nFees t) in
  reward ← GetBlockValue params nMoneySupply nHeight;
  let nExpectedMint := if IsProofOfStake vtx then reward else i64 (reward + nFees t) in
  Some (nMint <=? nExpectedMint).

(** The state that [ConnectBlock] changes. *)
Record Money := MkMoney { coins : list Cache; burn_cache : BurnCache; nMoneySupply : Z }.

Definition set_best (hashBlock : Z) (v : list Cache) : list Cache :=
  match v with c :: v => SetBestBlock hashBlock c :: v | [] => [] end.

Definition ConnectBlock (fJustCheck : bool) (hashGenesisBlock hashPrevBlock hashBlock nHeight : Z) (vtx : list CTransaction)
    (b : Backing) (s : Money) : answer (list (list Coin) * Money) :=
  let '(best, v) := GetBestBlock (coins s) b in
  if negb (best =? hashPrevBlock) then Aborted
  else if hashBlock =? hashGenesisBlock
  then Accepted ([], MkMoney (if fJustCheck then v else set_best hashBlock v) (burn_cache s) (nMoneySupply s))
  else
    match NetworkUpgradeActive params nHeight UPGRADE_POS, NetworkUpgradeActive params nHeight UPGRADE_ADAM with
    | Some isPoSActive, Some isAdam =>
        if negb isPoSActive && IsProofOfStake vtx then Rejected PoS_early (burn_cache s)
        else if isPoSActive && negb (IsProofOfStake vtx) && negb isAdam then Rejected legacy_pow_ended (burn_cache s)
        else
          t ← connect_txs fJustCheck b nHeight vtx (MkTally v (burn_cache s) 0 0 0 0 []);
          match mint_ok (nMoneySupply s) nHeight vtx t with
          | None => Aborted
          | Some false => Rejected bad_cb_amount (burns t)
          | Some true =>
              Accepted (tail (vtxundo t),
                        if fJustCheck then MkMoney (view t) (burns t) (nMoneySupply s)
                        else MkMoney (set_best hashBlock (view t)) (burns t)
                               (i64 (nMoneySupply s + i64 (nValueOut t - nValueIn t))))
          end
    | _, _ => Aborted
    end.

(** The part of [ConnectTip] that connects the block: a view of its own over the tip, which
    is flushed into it. *)
Definition ConnectTip_view (hashGenesisBlock hashPrevBlock hashBlock nHeight : Z) (vtx : list CTransaction) (b : Backing) (s : Money) :
    answer (list (list Coin) * Money * Backing) :=
  '(undos, s) ← ConnectBlock false hashGenesisBlock hashPrevBlock hashBlock nHeight vtx b
                  (MkMoney (empty_cache :: coins s) (burn_cache s) (nMoneySupply s));
  match coins s with
  | c :: v =>
      match Flush DynamicUsage c v b with
      | Done (true, _ :: v, b) => Accepted (undos, MkMoney v (burn_cache s) (nMoneySupply s), b)
      | _ => Aborted
      end
  | [] => Aborted
  end.

(** ** Taking the supply back *)

(** The loop of [DisconnectBlock] with its sums: the inputs of a transaction are counted
    when they are back in the view. *)
Fixpoint disconnect_sums (txs : list (CTransaction * list Coin)) (v : list Cache) (b : Backing) (fClean : bool) (outs ins : Z) :
    outcome (option (bool * Z * Z) * list Cache) :=
  match txs with
  | [] => Done (Some (fClean, outs, ins), v)
  | (tx, txundo) :: txs =>
      match GetValueOut tx with
      | inl _ => Logic_error
      | inr w =>
          match disconnect_tx DynamicUsage Hash160 tx txundo v b fClean with
          | Done (Some fClean, v) =>
              let outs := i64 (outs + w) in
              if IsCoinBase tx || IsZeroCoinPoWTransaction Hash160 tx then disconnect_sums txs v b fClean outs ins
              else
                let '(have, v) := HaveInputs DynamicUsage v b tx in
                if have then let '(value, v) := GetValueIn DynamicUsage v b tx in
                             disconnect_sums txs v b fClean outs (i64 (ins + value))
                else disconnect_sums txs v b fClean outs ins
          | Done (None, v) => Done (None, v)
          | Logic_error => Logic_error
          | Assertion_failed => Assertion_failed
          end
      end
  end.

Definition DisconnectBlock_supply (hashBlock hashPrevBlock : Z) (vtx : list CTransaction) (undos : list (list Coin)) (v : list Cache)
    (b : Backing) (supply : Z) : outcome (DisconnectResult * list Cache * Z) :=
  let '(best, v) := GetBestBlock v b in
  if negb (hashBlock =? best) then Assertion_failed
  else if negb (length undos + 1 =? length vtx)%nat then Done (DISCONNECT_FAILED, v, supply)
  else
    match disconnect_sums (rev (zip vtx ([] :: undos))) v b true 0 0 with
    | Done (None, v) => Done (DISCONNECT_FAILED, v, supply)
    | Done (Some (fClean, outs, ins), v) =>
        Done (if fClean then DISCONNECT_OK else DISCONNECT_UNCLEAN, set_best hashPrevBlock v, i64 (supply - i64 (outs - ins)))
    | Logic_error => Logic_error
    | Assertion_failed => Assertion_failed
    end.
End Connect.

(** ** The value of a finite set of coins *)

Definition total (m : gmap COutPoint Coin) : Z := map_fold (λ _ c s, nValue (out c) + s) 0 m.

Lemma total_insert m o c : m !! o = None → total (<[o := c]> m) = nValue (out c) + total m.
Proof. intros H. unfold total. rewrite map_fold_insert_L; [done|intros; lia|done]. Qed.

Lemma total_delete m o c : m !! o = Some c → total (delete o m) = total m - nValue (out c).
Proof.
  intros H. rewrite <- (insert_delete_id m o c H) at 2. rewrite total_insert by apply lookup_delete_eq. lia.
Qed.

Definition remove_all (os : list COutPoint) (m : gmap COutPoint Coin) : gmap COutPoint Coin := foldl (λ m o, delete o m) m os.

Definition insert_all (l : list (COutPoint * Coin)) (m : gmap COutPoint Coin) : gmap COutPoint Coin :=
  foldl (λ m p, <[p.1 := p.2]> m) m l.

Lemma remove_all_lookup os f m o : (∀ o, f o = m !! o) → dels os f o = remove_all os m !! o.
Proof.
  revert f m. induction os as [|x os IH]; intros f m H; [apply H|]. apply IH. intros y. unfold upd.
  destruct (decide (y = x)) as [->|]; [by rewrite lookup_delete_eq|by rewrite lookup_delete_ne].
Qed.

Lemma insert_all_lookup l f m o : (∀ o, f o = m !! o) → adds l f o = insert_all l m !! o.
Proof.
  revert f m. induction l as [|p l IH]; intros f m H; [apply H|]. apply IH. intros y. unfold upd.
  destruct (decide (y = p.1)) as [->|]; [by rewrite lookup_insert_eq|by rewrite lookup_insert_ne].
Qed.

(** The coins of a list of outpoints. *)
Definition values (m : gmap COutPoint Coin) (os : list COutPoint) : Z :=
  foldr (λ o s, nValue (out (default coinEmpty (m !! o))) + s) 0 os.

Lemma values_prevouts m ins : values m (prevout <$> ins) = sum_in (λ o, m !! o) ins.
Proof. induction ins as [|i ins IH]; [done|]. rewrite fmap_cons. unfold values, sum_in in *. cbn [foldr]. by rewrite IH. Qed.

Lemma total_remove_all os m :
  NoDup os → Forall (λ o, is_Some (m !! o)) os → total (remove_all os m) = total m - values m os.
Proof.
  revert m. induction os as [|x os IH]; intros m Hnd Hs; [simpl; lia|].
  apply NoDup_cons in Hnd as [Hn Hnd]. apply Forall_cons in Hs as [[c Hc] Hs].
  assert (∀ o, o ∈ os → delete x m !! o = m !! o) as Hsame.
  { intros o Ho. rewrite lookup_delete_ne; [done|]. by intros ->. }
  cbn [remove_all foldl values foldr]. fold (remove_all os (delete x m)). rewrite IH; [|done|].
  - rewrite (total_delete m x c Hc), Hc. simpl. enough (values (delete x m) os = values m os) as -> by (unfold values; lia).
    clear -Hsame. induction os as [|y os IH]; [done|]. simpl. rewrite Hsame by (by left). f_equal. apply IH. intros; apply Hsame. by right.
  - rewrite Forall_forall in Hs |- *. intros o Ho. rewrite Hsame by done. by apply Hs.
Qed.

Lemma total_insert_all l m :
  NoDup l.*1 → Forall (λ p, m !! p.1 = None) l → total (insert_all l m) = total m + foldr (λ p s, nValue (out p.2) + s) 0 l.
Proof.
  revert m. induction l as [|p l IH]; intros m Hnd Hn; [simpl; lia|].
  apply NoDup_cons in Hnd as [Hp Hnd]. apply Forall_cons in Hn as [Hm Hn].
  cbn [insert_all foldl foldr]. fold (insert_all l (<[p.1 := p.2]> m)). rewrite IH; [rewrite total_insert by done; lia|done|].
  rewrite Forall_forall in Hn |- *. intros q Hq. rewrite lookup_insert_ne; [by apply Hn|].
  intros E. apply Hp. rewrite E. by apply list_elem_of_fmap_2.
Qed.

(** An unspendable output is worth something and creates nothing. *)
Lemma creates_value txid i outs mk :
  (∀ o, out (mk o) = o) → Forall (λ o, 0 ≤ nValue o) outs →
  0 ≤ foldr (λ p s, nValue (out p.2) + s) 0 (creates txid i outs mk) ≤ sum_out outs.
Proof.
  intros Hmk H. revert i. induction H as [|o outs Ho _ IH]; intros i; [simpl; lia|]. cbn [creates sum_out foldr].
  specialize (IH (i + 1)). fold (sum_out outs). destruct (IsUnspendable (scriptPubKey o)); simpl; [lia|]. rewrite Hmk. lia.
Qed.

Lemma remove_all_inv os m o c : remove_all os m !! o = Some c → m !! o = Some c.
Proof.
  rewrite <- (remove_all_lookup os (λ o, m !! o)) by done.
  destruct (decide (o ∈ os)); [by rewrite dels_in|by rewrite dels_notin].
Qed.

Lemma insert_all_inv l m o c : insert_all l m !! o = Some c → (o, c) ∈ l ∨ m !! o = Some c.
Proof.
  revert m. induction l as [|p l IH]; intros m Hl; [by right|]. destruct (IH _ Hl) as [?|Hi]; [left; by right|].
  apply lookup_insert_Some in Hi as [[<- <-]|[_ Hi]]; [left; destruct p; by left|by right].
Qed.

Lemma elem_of_creates txid i outs mk p :
  p ∈ creates txid i outs mk → ∃ o, o ∈ outs ∧ p.2 = mk o ∧ IsUnspendable (scriptPubKey o) = false ∧ hash p.1 = txid.
Proof.
  revert i. induction outs as [|o outs IH]; intros i; cbn [creates]; [by intros ?%not_elem_of_nil|]. rewrite elem_of_app. intros [Hp|Hp].
  - destruct (IsUnspendable (scriptPubKey o)) eqn:Hu; [by apply not_elem_of_nil in Hp|]. apply list_elem_of_singleton in Hp as ->.
    exists o. split_and!; [by left|done..].
  - destruct (IH _ Hp) as (x & Hx & ?). exists x. split; [by right|done].
Qed.

(** ** One transaction *)

Lemma i64_i64 a b : i64 (i64 a + b) = i64 (a + b).
Proof.
  unfold i64. rewrite !u64_mod. f_equal.
  replace ((a + 0x8000000000000000) mod 2 ^ 64 - 0x8000000000000000 + b + 0x8000000000000000)
    with ((a + 0x8000000000000000) mod 2 ^ 64 + b) by lia.
  rewrite Zplus_mod_idemp_l. f_equal. lia.
Qed.

Lemma i64_add a b : i64 (i64 a + i64 b) = i64 (a + b).
Proof. rewrite i64_i64, Z.add_comm, i64_i64. f_equal. lia. Qed.

Lemma i64_sub_r a b : i64 (a - i64 b) = i64 (a - b).
Proof.
  unfold i64. rewrite !u64_mod. f_equal.
  replace (a - ((b + 0x8000000000000000) mod 2 ^ 64 - 0x8000000000000000) + 0x8000000000000000)
    with ((a + 0x10000000000000000) - (b + 0x8000000000000000) mod 2 ^ 64) by lia.
  rewrite Zminus_mod_idemp_r. f_equal. lia.
Qed.

Lemma i64_sub a b : i64 (i64 a - i64 b) = i64 (a - b).
Proof. rewrite i64_sub_r. unfold Z.sub. apply i64_i64. Qed.

(** Coins as blocks after the genesis block leave them. *)
Definition coins_ok (m : gmap COutPoint Coin) : Prop := ∀ o c, m !! o = Some c → restorable c ∧ 0 ≤ nValue (out c).

Lemma total_nonneg m : coins_ok m → 0 ≤ total m.
Proof.
  unfold coins_ok. induction m as [|o c m Hn IH] using map_ind; intros H; [done|]. rewrite total_insert by done.
  destruct (H o c) as [_ ?]; [by rewrite lookup_insert_eq|]. assert (0 ≤ total m); [|lia]. apply IH.
  intros o' c' Hc'. apply (H o'). rewrite lookup_insert_ne; [done|]. intros <-. congruence.
Qed.

(** The ids of the transactions are not those of coins there are. *)
Definition new_ids (m : gmap COutPoint Coin) (txids : list Z) : Prop :=
  NoDup txids ∧ ∀ o, is_Some (m !! o) → hash o ∉ txids.

Section Money.
Context `{Target} (SerializeHash : list Z → Z) (Hash160 : list Z → list Z) (DynamicUsage : Coin → Z).
Context (params : Params) (Hmax : 1000000 * COIN ≤ nMaxMoneyOut params < 2 ^ 58).

(** A transaction as [CheckTransaction] accepts it, with an [unsigned int] number of
    outputs. *)
Definition checked (tx : CTransaction) : Prop :=
  CheckTransaction SerializeHash Hash160 params tx = Pass ∧ Z.of_nat (length (vout tx)) ≤ 2 ^ 32.

(** Transactions that may mint. *)
Definition mints (tx : CTransaction) : bool := IsCoinBase tx || IsCoinStake tx.

(** The value a transaction takes from the coins. *)
Definition tx_in (m : gmap COutPoint Coin) (tx : CTransaction) : Z :=
  if IsCoinBase tx || IsZeroCoinPoWTransaction Hash160 tx then 0 else sum_in (λ o, m !! o) (vin tx).

Definition tx_out (tx : CTransaction) : Z := sum_out (vout tx).

Lemma means_same v v' b f : means v b f → same_view DynamicUsage v v' b → means v' b f.
Proof using Type.
  intros (Hne & Hwf & Hf) Hs. split; [by apply (same_view_nonempty _ _ _ _ Hs)|]. split; [by apply Hs|].
  intros o. by rewrite (same_view_utxo _ _ _ _ _ Hs).
Qed.

Lemma GetValueIn_loop_spec v b ins f acc :
  means v b f → Forall (λ i, is_Some (f (prevout i))) ins →
  ∃ v', GetValueIn_loop DynamicUsage v b ins (i64 acc) = (i64 (acc + sum_in f ins), v') ∧ means v' b f.
Proof using Type.
  revert v acc. induction ins as [|i ins IH]; intros v acc Hm Hf; cbn [GetValueIn_loop sum_in foldr].
  { exists v. by rewrite Z.add_0_r. }
  apply Forall_cons in Hf as [[x Hx] Hf]. pose proof Hm as (Hne & _ & Hu). destruct v as [|c v]; [done|].
  pose proof (AccessCoin_spec DynamicUsage c v b (prevout i)) as [Hr Hs].
  destruct (AccessCoin DynamicUsage (c :: v) b (prevout i)) as [coin v1]. simpl in Hs. cbn [fst] in Hr.
  assert (coin = x) as ->.
  { specialize (Hu (prevout i)). rewrite Hx in Hu. unfold utxo in Hu. rewrite Hr. destruct (found (c :: v) b (prevout i)) as [y|]; [|done].
    simpl in *. destruct (IsSpent y); [done|]. by injection Hu. }
  rewrite i64_i64, Hx. simpl. destruct (IH v1 (acc + nValue (out x))) as (v' & -> & Hm'); [by apply (means_same (c :: v))|done|].
  exists v'. split; [|done]. do 2 f_equal. unfold sum_in. lia.
Qed.

Lemma checked_wellformed tx : checked tx → tx_wellformed SerializeHash Hash160 params tx.
Proof using Hmax. intros [E _]. apply CheckTransaction_spec; [unfold COIN in Hmax; lia|done]. Qed.

Lemma checked_out tx :
  checked tx → Forall (λ o, 0 ≤ nValue o) (vout tx) ∧ 0 ≤ tx_out tx ≤ nMaxMoneyOut params ∧ GetValueOut tx = inr (tx_out tx).
Proof using Hmax.
  intros Hc. destruct (checked_wellformed tx Hc) as (_ & _ & _ & Ho & Hs & _).
  assert (Forall (λ o, 0 ≤ nValue o) (vout tx)) as Hn by (eapply Forall_impl; [exact Ho|]; by intros o [? _]).
  pose proof (sum_out_nonneg _ Hn). split_and!; [done|done|done|]. apply GetValueOut_exact; [|split_and!; [done|done|unfold tx_out; lia]].
  eapply Forall_impl; [exact Ho|]. intros o [? ?]. unfold signed. lia.
Qed.

(** The coins after a transaction. *)
Definition coins_after (h : Z) (tx : CTransaction) (m : gmap COutPoint Coin) : gmap COutPoint Coin :=
  insert_all (tx_creates h tx) (remove_all (tx_spends Hash160 tx) m).

Lemma coins_after_lookup h tx m o : apply_tx Hash160 h (λ o, m !! o) tx o = coins_after h tx m !! o.
Proof using Type. apply insert_all_lookup. intros x. by apply remove_all_lookup. Qed.

(** The inputs of a transaction that spends are the outpoints it names. *)
Lemma checked_spends tx :
  checked tx → IsCoinBase tx || IsZeroCoinPoWTransaction Hash160 tx = false →
  tx_spends Hash160 tx = prevout <$> vin tx ∧ NoDup (prevout <$> vin tx).
Proof using Hmax.
  intros Hc Hb. destruct (checked_wellformed tx Hc) as (_ & _ & _ & _ & _ & _ & Hnd & Hp). unfold tx_spends. rewrite Hb.
  apply orb_false_iff in Hb as [Hcb Hz]. rewrite Hcb in Hp. destruct Hp as [?|Hp]; [congruence|]. split; [|done].
  unfold spends. clear Hnd. induction Hp as [|i ins [Hi _] _ IH]; [done|]. rewrite fmap_cons, filter_cons_True by done. by f_equal.
Qed.

Lemma checked_fits m h tx :
  coins_ok m → checked tx → new_ids m [txhash tx] →
  (IsCoinBase tx || IsZeroCoinPoWTransaction Hash160 tx = false → Forall (λ i, is_Some (m !! prevout i)) (vin tx)) →
  tx_fits Hash160 h (λ o, m !! o) tx.
Proof using Hmax.
  intros Hok Hc [_ Hnew] Hin. pose proof (checked_out tx Hc) as (Hn & _). split_and!; [| | | |apply Hc].
  - destruct (IsCoinBase tx || _) eqn:Hb; [unfold tx_spends; rewrite Hb; apply NoDup_nil_2|].
    destruct (checked_spends tx Hc Hb) as [-> ?]. done.
  - destruct (IsCoinBase tx || _) eqn:Hb; [unfold tx_spends; rewrite Hb; done|].
    destruct (checked_spends tx Hc Hb) as [-> _]. rewrite Forall_fmap. eapply Forall_impl; [by apply Hin|].
    intros i [c Hci]. exists c. split; [done|]. by apply (Hok _ _ Hci).
  - apply Forall_forall. intros p Hp. destruct (m !! p.1) as [c|] eqn:E; [|done]. exfalso.
    apply (list_elem_of_fmap_2 fst) in Hp. apply creates_index in Hp as (k & _ & Ek).
    apply (Hnew p.1); [by eexists|]. rewrite Ek. by left.
  - eapply Forall_impl; [exact Hn|]. simpl. lia.
Qed.

Lemma coins_after_spec m h tx txids :
  coins_ok m → checked tx → 1 ≤ h < 2 ^ 32 → new_ids m (txhash tx :: txids) →
  (IsCoinBase tx || IsZeroCoinPoWTransaction Hash160 tx = false → Forall (λ i, is_Some (m !! prevout i)) (vin tx)) →
  coins_ok (coins_after h tx m) ∧ new_ids (coins_after h tx m) txids ∧ total (coins_after h tx m) ≤ total m - tx_in m tx + tx_out tx.
Proof using Hmax.
  intros Hok Hc Hh [Hnd Hnew] Hin. apply NoDup_cons in Hnd as [Hn Hnd].
  destruct (checked_fits m h tx) as (Hsd & Hsp & Hnone & _ & Hl); [done|done| |done|].
  { split; [apply NoDup_singleton|]. intros o Ho. specialize (Hnew o Ho). set_solver. }
  pose proof (checked_out tx Hc) as (Hv & _). split_and!.
  - intros o c Hoc. apply insert_all_inv in Hoc as [(x & Hx & Ex & Hu & _)%elem_of_creates|Hoc%remove_all_inv]; [|by apply (Hok o)].
    rewrite Forall_forall in Hv. specialize (Hv x Hx). simpl in Ex. subst c. split; [|done]. split_and!; [|done|].
    + apply Z.eqb_neq. simpl. lia.
    + simpl. rewrite u32_id; [lia|]. unfold word. lia.
  - split; [done|]. intros o [c Hoc]. apply insert_all_inv in Hoc as [(x & _ & _ & _ & Ho)%elem_of_creates|Hoc%remove_all_inv].
    + simpl in Ho. by rewrite Ho.
    + intros Hh'. apply (Hnew o); [by eexists|by right].
  - unfold coins_after. rewrite total_insert_all, total_remove_all; [|done| |apply creates_NoDup; lia|].
    + pose proof (creates_value (txhash tx) 0 (vout tx) (λ o, NewCoin o h (IsCoinBase tx) (IsCoinStake tx)) ltac:(done) Hv).
      enough (values m (tx_spends Hash160 tx) = tx_in m tx) by (unfold tx_out, tx_creates; lia). unfold tx_in.
      destruct (IsCoinBase tx || _) eqn:Hb; [unfold tx_spends; by rewrite Hb|]. destruct (checked_spends tx Hc Hb) as [-> _].
      apply values_prevouts.
    + eapply Forall_impl; [exact Hsp|]. intros o (c & Ec & _). by exists c.
    + eapply Forall_impl; [exact Hnone|]. intros p Hp. destruct (_ !! p.1) eqn:E; [|done]. apply remove_all_inv in E. congruence.
Qed.

Context (lastCheckpoint : Z) (puzzleHash : Z → list Z → list Z → Z) (zeroCoinTarget : Z).
Context (later : CScript → option Z) (EncodeDestination : CTxDestination → list Z) (mBurnAddresses : gmap (list Z) Z).
Context (governance : Z → (COutPoint → Coin) → CTransaction → bool) (scripts : Z → (COutPoint → Coin) → CTransaction → bool).

Abbreviation connect_tx := (connect_tx Hash160 DynamicUsage params lastCheckpoint puzzleHash zeroCoinTarget later
  EncodeDestination mBurnAddresses governance scripts).
Abbreviation connect_txs := (connect_txs Hash160 DynamicUsage params lastCheckpoint puzzleHash zeroCoinTarget later
  EncodeDestination mBurnAddresses governance scripts).
Abbreviation ConnectBlock := (ConnectBlock Hash160 DynamicUsage params lastCheckpoint puzzleHash zeroCoinTarget later
  EncodeDestination mBurnAddresses governance scripts).

(** The three stages of the body of the loop. *)
Lemma connect_inputs_spec b h tx v sigops v' sigops' f :
  means v b f →
  connect_inputs Hash160 DynamicUsage later EncodeDestination mBurnAddresses governance b h tx v sigops = Ok (v', sigops') →
  means v' b f ∧ (IsCoinBase tx || IsZeroCoinPoWTransaction Hash160 tx = false → Forall (λ i, is_Some (f (prevout i))) (vin tx)).
Proof using Type.
  intros Hm. unfold connect_inputs. destruct (IsCoinBase tx || _) eqn:Hb; [by intros [= <- <-]|].
  apply orb_false_iff in Hb as [Hcb _]. unfold HaveInputs. rewrite Hcb. pose proof Hm as (Hne & _ & Hu).
  destruct (HaveInputs_loop_spec DynamicUsage v b (vin tx) Hne) as [Hh Hs].
  destruct (HaveInputs_loop DynamicUsage v b (vin tx)) as [have v1]. simpl in Hs. cbn [fst] in Hh.
  destruct have; cbn [negb]; [|done]. destruct (spends_burn_address _ _ _ _ _ _ _); [done|]. destruct (negb _); [done|].
  destruct (_ <? _); [done|]. intros [= <- <-]. split; [by apply (means_same v)|]. intros _.
  eapply Forall_impl; [by apply Hh|]. intros i. cbv beta. by rewrite Hu.
Qed.

Lemma connect_fees_spec b tx v F I v' fees ins m :
  means v b (λ o, m !! o) → checked tx →
  (IsCoinBase tx || IsZeroCoinPoWTransaction Hash160 tx = false → Forall (λ i, is_Some (m !! prevout i)) (vin tx)) →
  connect_fees Hash160 DynamicUsage b tx v (i64 F) (i64 I) = Ok (v', fees, ins) →
  means v' b (λ o, m !! o) ∧ ins = i64 (I + tx_in m tx) ∧
  fees = i64 (F + if IsCoinBase tx || IsZeroCoinPoWTransaction Hash160 tx || IsCoinStake tx then 0 else tx_in m tx - tx_out tx).
Proof using Hmax.
  intros Hm Hc Hin. unfold connect_fees, tx_in. destruct (IsCoinBase tx || _) eqn:Hb; cbn [orb].
  { intros [= <- <- <-]. by rewrite !Z.add_0_r. }
  unfold GetValueIn. pose proof Hb as Hb'. apply orb_false_iff in Hb' as [-> _].
  destruct (GetValueIn_loop_spec v b (vin tx) (λ o, m !! o) 0 Hm (Hin eq_refl)) as (v1 & E & Hm1). change (i64 0) with 0 in E. rewrite E, Z.add_0_l.
  destruct (IsCoinStake tx); [intros [= <- <- <-]; split_and!; [done|by rewrite i64_add|by rewrite Z.add_0_r]|].
  pose proof (checked_out tx Hc) as (_ & _ & ->). intros [= <- <- <-]. split_and!; [done|by rewrite i64_add|].
  rewrite i64_add. set (S := sum_in _ _). replace (F + (i64 S - tx_out tx)) with (i64 S + (F - tx_out tx)) by lia.
  rewrite i64_i64. f_equal. lia.
Qed.

Lemma check_inputs_spec b h tx v v' m :
  means v b (λ o, m !! o) → checked tx → lastCheckpoint < h →
  check_inputs Hash160 DynamicUsage params lastCheckpoint puzzleHash zeroCoinTarget scripts b h tx v = Ok v' →
  means v' b (λ o, m !! o) ∧ 0 ≤ tx_in m tx ≤ nMaxMoneyOut params ∧
  (IsCoinBase tx || IsCoinStake tx = false → IsZeroCoinPoWTransaction Hash160 tx = false → tx_out tx ≤ tx_in m tx).
Proof using Hmax.
  intros Hm Hc Hcp. unfold check_inputs, tx_in. destruct (IsCoinBase tx) eqn:Hcb; cbn [orb].
  { intros [= <-]. split_and!; [done|lia|unfold COIN in Hmax; lia|done]. }
  destruct (IsZeroCoinPoWTransaction Hash160 tx) eqn:Hz.
  { unfold CheckTxInputs. rewrite (proj2 (Z.leb_gt _ _)), Hz by done. destruct (zerocoin_check _ _ _ _); [|done].
    intros [= <-]. split_and!; [done|lia|unfold COIN in Hmax; lia|done]. }
  pose proof (checked_wellformed tx Hc) as (_ & _ & _ & Ho & _). pose proof Hm as (Hne & _ & Hu).
  destruct (CheckTxInputs_spec Hash160 params ltac:(unfold COIN in Hmax; lia) puzzleHash zeroCoinTarget DynamicUsage lastCheckpoint tx v b h)
    as (r & v1 & -> & Hs & Hr); [done|done|done|done| |].
  { eapply Forall_impl; [exact Ho|]. intros o [? ?]. unfold signed. lia. }
  destruct r; [|done]. destruct (Hr eq_refl) as (_ & Hi & Hle). cbn [orb]. destruct (scripts _ _ _); [|done]. intros [= <-].
  assert (sum_in (utxo v b) (vin tx) = sum_in (λ o, m !! o) (vin tx)) as Es.
  { unfold sum_in. clear -Hu. induction (vin tx) as [|i l IH]; [done|]. simpl. by rewrite Hu, IH. }
  rewrite Es in Hi, Hle. split_and!; [by apply (means_same v)|lia..|]. intros Hst _. by apply Hle.
Qed.

(** The undo record of a transaction that fits the coins. *)
Definition undo_ok (h : Z) (m : gmap COutPoint Coin) (tx : CTransaction) (undo : list Coin) : Prop :=
  tx_fits Hash160 h (λ o, m !! o) tx ∧
  (IsCoinBase tx || IsZeroCoinPoWTransaction Hash160 tx = false → undo = (undo_of (λ o, m !! o) <$> vin tx)).

(** The burn of a transaction: who burned, by the coin its first input spends, and how
    much. *)
Definition tx_burned (h : Z) (m : gmap COutPoint Coin) (tx : CTransaction) : option (CTxDestination * Z) :=
  if IsCoinBase tx || IsZeroCoinPoWTransaction Hash160 tx then None
  else
    let '(hasBurn, nBurnAmount) := tx_burns later Hash160 EncodeDestination mBurnAddresses h tx in
    if hasBurn then
      i ← head (vin tx);
      d ← burner later Hash160 (scriptPubKey (out (default coinEmpty (m !! prevout i))));
      Some (d, nBurnAmount)
    else None.

Lemma connect_burn_spec h m tx v b bc :
  means v b (λ o, m !! o) →
  (IsCoinBase tx || IsZeroCoinPoWTransaction Hash160 tx = false → Forall (λ i, is_Some (m !! prevout i)) (vin tx)) →
  connect_burn later Hash160 EncodeDestination mBurnAddresses h (IsZeroCoinPoWTransaction Hash160 tx) (coin_at v b) tx bc =
  add_all h (option_list (tx_burned h m tx)) bc.
Proof using Type.
  intros (_ & _ & Hu) Hin. unfold connect_burn, tx_burned. destruct (IsCoinBase tx || _); [done|]. specialize (Hin eq_refl).
  destruct (tx_burns _ _ _ _ h tx) as [[|] a]; [|done]. destruct (vin tx) as [|i ins]; [done|]. cbn [head mbind option_bind].
  apply Forall_cons in Hin as [[c Hc] _]. specialize (Hu (prevout i)). rewrite Hc in Hu. unfold coin_at, utxo, live in *. rewrite Hc.
  destruct (found v b (prevout i)) as [y|]; [|done]. cbn [default]. destruct (IsSpent y) eqn:Es; [done|]. injection Hu as ->.
  cbn [id]. rewrite Es. by destruct (burner _ _ _).
Qed.

(** What an accepted transaction adds to the sums and takes from the coins. *)
Lemma connect_tx_spec fJustCheck b h tx txids t t' m F I O :
  means (view t) b (λ o, m !! o) → coins_ok m → checked tx → 1 ≤ h < 2 ^ 32 → lastCheckpoint < h →
  new_ids m (txhash tx :: txids) → nFees t = i64 F → nValueIn t = i64 I → nValueOut t = i64 O →
  connect_tx fJustCheck b h tx t = Ok t' →
  let m' := coins_after h tx m in
  means (view t') b (λ o, m' !! o) ∧ coins_ok m' ∧ new_ids m' txids ∧ total m' ≤ total m - tx_in m tx + tx_out tx ∧
  0 ≤ tx_in m tx ≤ nMaxMoneyOut params ∧ 0 ≤ tx_out tx ≤ nMaxMoneyOut params ∧ (mints tx = false → tx_out tx ≤ tx_in m tx) ∧
  nFees t' = i64 (F + (if mints tx then 0 else tx_in m tx - tx_out tx)) ∧
  nValueIn t' = i64 (I + tx_in m tx) ∧ nValueOut t' = i64 (O + tx_out tx) ∧
  (∃ undo, vtxundo t' = vtxundo t ++ [undo] ∧ undo_ok h m tx undo) ∧
  (fJustCheck = false → burns t' = add_all h (option_list (tx_burned h m tx)) (burns t)).
Proof using Hmax.
  intros Hm Hok Hc Hh Hcp Hnew EF EI EO E m'. pose proof (checked_out tx Hc) as (Hv & Ho & Eo).
  unfold ConnectBlock.connect_tx in E. destruct (_ <? _); [done|].
  destruct (connect_inputs _ _ _ _ _ _ _ _ _ _ _) as [[v1 sig]| |] eqn:E1; cbn [mbind result_bind] in E; [|done..].
  destruct (connect_inputs_spec _ _ _ _ _ _ _ _ Hm E1) as [Hm1 Hin].
  destruct (connect_fees _ _ _ _ _ _ _) as [[[v2 fees] ins]| |] eqn:E2; cbn [mbind result_bind] in E; [|done..].
  rewrite EF, EI in E2. destruct (connect_fees_spec _ _ _ _ _ _ _ _ _ Hm1 Hc Hin E2) as (Hm2 & Ei & Ef).
  destruct (check_inputs _ _ _ _ _ _ _ _ _ _ _) as [v3| |] eqn:E3; cbn [mbind result_bind] in E; [|done..].
  destruct (check_inputs_spec _ _ _ _ _ _ Hm2 Hc Hcp E3) as (Hm3 & Hi & Hle). rewrite Eo in E.
  assert (tx_fits Hash160 h (λ o, m !! o) tx) as Hfit.
  { apply checked_fits; [done|done| |done]. destruct Hnew as [Hnd Hn]. split; [apply NoDup_singleton|]. intros o Hoo.
    specialize (Hn o Hoo). set_solver. }
  destruct (UpdateCoins_means DynamicUsage Hash160 tx v3 b (λ o, m !! o) h Hm3 Hfit) as (undo & v4 & E4 & Hm4 & Hundo).
  rewrite E4 in E. injection E as <-. cbn [view nFees nValueIn nValueOut vtxundo burns].
  destruct (coins_after_spec m h tx txids) as (Hok' & Hnew' & Htot); [done..|].
  assert (IsZeroCoinPoWTransaction Hash160 tx = true → mints tx = false ∧ tx_in m tx = 0 ∧ tx_out tx = 0) as Hz.
  { unfold mints, tx_in, tx_out, IsZeroCoinPoWTransaction. clear. destruct (IsCoinBase tx || IsCoinStake tx); [done|].
    intros Ez. rewrite Ez, orb_true_r. split; [done|]. split; [done|]. destruct (vin tx) as [|i [|? ?]], (vout tx) as [|o [|? ?]]; try done.
    destruct (negb _); [done|]. destruct (nValue o =? 0) eqn:E0; [|done]. apply Z.eqb_eq in E0. simpl. lia. }
  split_and!; [|done|done|done|lia|lia|lia|lia| | |done|by rewrite EO, i64_i64|by exists undo|].
  - eapply means_ext; [|exact Hm4]. intros o. apply coins_after_lookup.
  - intros Hmt. destruct (IsZeroCoinPoWTransaction Hash160 tx); [destruct Hz as (_ & -> & ->); [done|lia]|by apply Hle].
  - rewrite Ef. unfold mints in *. f_equal. f_equal.
    destruct (IsZeroCoinPoWTransaction Hash160 tx); [|by rewrite orb_false_r]. destruct Hz as (-> & -> & ->); [done|].
    by rewrite orb_true_r.
  - intros ->. by apply connect_burn_spec.
Qed.

(** ** One block *)

Definition block_coins (h : Z) (m : gmap COutPoint Coin) (vtx : list CTransaction) : gmap COutPoint Coin :=
  foldl (λ m tx, coins_after h tx m) m vtx.

Fixpoint block_in (h : Z) (m : gmap COutPoint Coin) (vtx : list CTransaction) : Z :=
  match vtx with [] => 0 | tx :: vtx => tx_in m tx + block_in h (coins_after h tx m) vtx end.

Definition block_out (vtx : list CTransaction) : Z := foldr (λ tx s, tx_out tx + s) 0 vtx.

Fixpoint block_fees (h : Z) (m : gmap COutPoint Coin) (vtx : list CTransaction) : Z :=
  match vtx with
  | [] => 0
  | tx :: vtx => (if mints tx then 0 else tx_in m tx - tx_out tx) + block_fees h (coins_after h tx m) vtx
  end.

(** The number of transactions that may mint. *)
Definition minters (vtx : list CTransaction) : Z := Z.of_nat (length (filter (λ tx, mints tx = true) vtx)).

Lemma minters_cons tx vtx : minters (tx :: vtx) = (if mints tx then 1 else 0) + minters vtx.
Proof using Type.
  unfold minters. rewrite filter_cons.
  destruct (mints tx); [rewrite decide_True by done; cbn [length]; lia|rewrite decide_False by done; lia].
Qed.

Fixpoint undos_ok (h : Z) (m : gmap COutPoint Coin) (vtx : list CTransaction) (undos : list (list Coin)) : Prop :=
  match vtx, undos with
  | [], [] => True
  | tx :: vtx, undo :: undos => undo_ok h m tx undo ∧ undos_ok h (coins_after h tx m) vtx undos
  | _, _ => False
  end.

Fixpoint block_burned (h : Z) (m : gmap COutPoint Coin) (vtx : list CTransaction) : list (CTxDestination * Z) :=
  match vtx with [] => [] | tx :: vtx => option_list (tx_burned h m tx) ++ block_burned h (coins_after h tx m) vtx end.

Lemma connect_txs_spec fJustCheck b h vtx t t' m F I O :
  means (view t) b (λ o, m !! o) → coins_ok m → Forall checked vtx → 1 ≤ h < 2 ^ 32 → lastCheckpoint < h →
  new_ids m (txhash <$> vtx) → nFees t = i64 F → nValueIn t = i64 I → nValueOut t = i64 O →
  connect_txs fJustCheck b h vtx t = Accepted t' →
  let m' := block_coins h m vtx in
  means (view t') b (λ o, m' !! o) ∧ coins_ok m' ∧ total m' ≤ total m - block_in h m vtx + block_out vtx ∧
  0 ≤ block_fees h m vtx ∧
  - (minters vtx * nMaxMoneyOut params) ≤ block_out vtx - block_in h m vtx + block_fees h m vtx ≤ minters vtx * nMaxMoneyOut params ∧
  nFees t' = i64 (F + block_fees h m vtx) ∧ nValueIn t' = i64 (I + block_in h m vtx) ∧ nValueOut t' = i64 (O + block_out vtx) ∧
  (∃ undos, vtxundo t' = vtxundo t ++ undos ∧ undos_ok h m vtx undos) ∧
  (fJustCheck = false → burns t' = add_all h (block_burned h m vtx) (burns t)).
Proof using Hmax.
  intros Hm Hok Hc Hh Hcp. revert t m F I O Hm Hok.
  induction Hc as [|tx vtx Htx _ IH]; intros t m F I O Hm Hok Hnew EF EI EO E m'; subst m'.
  { injection E as <-. cbn [block_coins foldl block_in block_out foldr block_fees]. rewrite !Z.add_0_r.
    split_and!; [done|done|lia|lia|unfold minters; simpl; lia|unfold minters; simpl; lia|done..|exists []; by rewrite app_nil_r|done]. }
  cbn [ConnectBlock.connect_txs] in E. destruct (connect_tx _ _ _ _ _) as [t1| |] eqn:E1; cbn [leaving mbind answer_bind] in E; [|done..].
  rewrite fmap_cons in Hnew.
  destruct (connect_tx_spec _ _ _ _ _ _ _ _ _ _ _ Hm Hok Htx Hh Hcp Hnew EF EI EO E1)
    as (Hm1 & Hok1 & Hnew1 & Ht1 & Hi & Ho & Hle & EF1 & EI1 & EO1 & (undo & Eu & Hu) & Hbu).
  destruct (IH t1 _ _ _ _ Hm1 Hok1 Hnew1 EF1 EI1 EO1 E) as (Hm2 & Hok2 & Ht2 & Hf2 & Hb2 & EF2 & EI2 & EO2 & (undos & Eus & Hus) & Hbus).
  cbn [block_in block_fees block_out foldr]. fold (block_out vtx). rewrite minters_cons.
  split_and!; [exact Hm2|exact Hok2|unfold block_coins in *; cbn [foldl]; lia| | | |by rewrite EF2, Z.add_assoc|by rewrite EI2, Z.add_assoc|by rewrite EO2, Z.add_assoc| |].
  - destruct (mints tx); [lia|]. specialize (Hle eq_refl). lia.
  - destruct (mints tx); lia.
  - destruct (mints tx); lia.
  - exists (undo :: undos). split; [|done]. by rewrite Eus, Eu, <- app_assoc.
  - intros Hj. rewrite (Hbus Hj), (Hbu Hj). cbn [block_burned]. unfold add_all. by rewrite foldl_app.
Qed.

Lemma GetBestBlock_found v b o : found (GetBestBlock v b).2 b o = found v b o.
Proof using Type.
  induction v as [|c v IH]; [done|]. cbn [GetBestBlock]. destruct (_ =? _); [|done].
  destruct (GetBestBlock v b) as [x v']. cbn [found snd cacheCoins] in *. by rewrite IH.
Qed.

Lemma GetBestBlock_means v b f : means v b f → means (GetBestBlock v b).2 b f.
Proof using Type.
  intros (Hne & Hwf & Hf). split_and!.
  - destruct v as [|c v]; [done|]. cbn [GetBestBlock]. destruct (_ =? _); [|done]. by destruct (GetBestBlock v b).
  - clear Hf Hne. induction v as [|c v IH]; [done|]. cbn [GetBestBlock]. destruct (_ =? _); [|done]. destruct Hwf as [Hc Hv].
    specialize (IH Hv). pose proof (GetBestBlock_found v b) as Hfd. destruct (GetBestBlock v b) as [x v']. split; [|done].
    intros o e He. specialize (Hc o e He). unfold utxo in *. cbn [snd] in Hfd. by rewrite Hfd.
  - intros o. unfold utxo. rewrite GetBestBlock_found. apply Hf.
Qed.

Lemma set_best_means x v b f : means v b f → means (set_best x v) b f.
Proof using Type. destruct v; [by intros [? _]|]. by intros (_ & Hwf & Hf). Qed.

(** The largest supply at a height. *)
Definition cap (h : Z) : Z := if h <? 10000 then 100 * COIN * h else nMaxMoneyOut params.

Lemma cap_le h : cap h ≤ nMaxMoneyOut params.
Proof using Hmax. unfold cap. destruct (Z.ltb_spec h 10000); unfold COIN in *; lia. Qed.

(** What [CheckBlock] leaves to rely on, and ids that no unspent coin has. *)
Definition block_ok (v : list Cache) (b : Backing) (vtx : list CTransaction) : Prop :=
  Forall checked vtx ∧ minters vtx ≤ 2 ∧ (∃ cb txs, vtx = cb :: txs ∧ IsCoinBase cb = true) ∧
  NoDup (txhash <$> vtx) ∧ ∀ o, is_Some (utxo v b o) → hash o ∉ (txhash <$> vtx).

(** Sums as large as a block of two minting transactions has do not wrap around. *)
Lemma mint_ok_exact supply h vtx t F I O :
  0 ≤ supply ≤ nMaxMoneyOut params → 0 ≤ h < 2 ^ 31 → 0 ≤ F ≤ 3 * nMaxMoneyOut params →
  - (2 * nMaxMoneyOut params) ≤ O - I + F ≤ 2 * nMaxMoneyOut params →
  nFees t = i64 F → nValueIn t = i64 I → nValueOut t = i64 O → mint_ok params supply h vtx t = Some true →
  O - I ≤ 100 * COIN ∧ (10000 ≤ h → supply + (O - I) ≤ nMaxMoneyOut params).
Proof using Hmax.
  intros Hs Hh HF HO EF EI EO. unfold mint_ok. destruct (GetBlockValue_bounds params supply h) as (r & -> & Hr & Hc & _); [lia..|].
  cbn [mbind option_bind]. rewrite EF, EI, EO, i64_sub, i64_i64. unfold COIN in *.
  rewrite (i64_id F), (i64_id (O - I + F)), (i64_id (r + F)) by lia. intros [= E%Z.leb_le]. destruct (IsProofOfStake vtx); lia.
Qed.

Lemma ConnectBlock_money hashGenesisBlock hashPrevBlock hashBlock h vtx b s undos s' m :
  means (coins s) b (λ o, m !! o) → coins_ok m → total m ≤ nMoneySupply s ≤ cap h → 0 ≤ h → lastCheckpoint ≤ h → h + 1 < 2 ^ 31 →
  block_ok (coins s) b vtx → hashBlock ≠ hashGenesisBlock →
  ConnectBlock false hashGenesisBlock hashPrevBlock hashBlock (h + 1) vtx b s = Accepted (undos, s') →
  let m' := block_coins (h + 1) m vtx in
  means (coins s') b (λ o, m' !! o) ∧ coins_ok m' ∧ total m' ≤ nMoneySupply s' ≤ cap (h + 1) ∧
  nMoneySupply s' = nMoneySupply s + (block_out vtx - block_in (h + 1) m vtx) ∧ undos_ok (h + 1) m vtx ([] :: undos).
Proof using Hmax.
  intros Hm Hok Hs Hh Hcp Hh2 (Hc & Hmt & (cb & txs & Evtx & Hcb) & Hnd & Hnew) Hg E m'. unfold ConnectBlock.ConnectBlock in E.
  pose proof (GetBestBlock_means _ _ _ Hm) as Hm0. destruct (GetBestBlock (coins s) b) as [best v]. cbn [snd] in Hm0.
  destruct (negb _); [done|]. rewrite (proj2 (Z.eqb_neq _ _) Hg) in E.
  destruct (NetworkUpgradeActive _ _ _) as [pos|]; [|done]. destruct (NetworkUpgradeActive _ _ _) as [adam|]; [|done].
  destruct (negb pos && _); [done|]. destruct (pos && _ && _); [done|].
  destruct (connect_txs _ _ _ _ _) as [t| |] eqn:Et; cbn [mbind answer_bind] in E; [|done..].
  destruct (connect_txs_spec false b (h + 1) vtx (MkTally v (burn_cache s) 0 0 0 0 []) t m 0 0 0) as
    (Hm1 & Hok1 & Ht & Hf & Hb & EF & EI & EO & (us & Eus & Hus) & _); [done|done|done|lia|lia| |done..|].
  { split; [done|]. intros o Ho. apply Hnew. by rewrite (proj2 (proj2 Hm)). }
  rewrite Z.add_0_l in EF, EI, EO. cbn [vtxundo app] in Eus. fold m' in Hm1, Hok1, Ht.
  destruct (mint_ok _ _ _ _ _) as [[|]|] eqn:Em; [|done..]. injection E as <- <-. cbn [coins nMoneySupply].
  pose proof (total_nonneg _ Hok). pose proof (total_nonneg _ Hok1). pose proof (cap_le h).
  assert (minters vtx * nMaxMoneyOut params ≤ 2 * nMaxMoneyOut params) by (unfold COIN in Hmax; nia).
  destruct (mint_ok_exact (nMoneySupply s) (h + 1) vtx t (block_fees (h + 1) m vtx) (block_in (h + 1) m vtx) (block_out vtx))
    as [Hr1 Hr2]; [lia..|done|done|done|done|].
  assert (cap h + 100 * COIN ≤ cap (h + 1) ∨ 10000 ≤ h + 1) as Hcap.
  { unfold cap. destruct (Z.ltb_spec h 10000), (Z.ltb_spec (h + 1) 10000); lia. }
  assert (10000 ≤ h + 1 → cap (h + 1) = nMaxMoneyOut params) as Hcap2 by (unfold cap; destruct (Z.ltb_spec (h + 1) 10000); lia).
  rewrite EI, EO, i64_sub, (Z.add_comm (nMoneySupply s)), i64_i64, i64_id by (unfold COIN in *; lia).
  split; [by apply set_best_means|]. split; [done|]. split; [lia|]. split; [lia|].
  rewrite Eus, Evtx in *. destruct us as [|u us]; [done|]. destruct Hus as [[Hu _] Hus]. split; [|done]. split; [done|]. by rewrite Hcb.
Qed.

(** ** Blocks of any number of coinstakes *)

(** The state before the loop. *)
Definition first_tally (s : Money) (b : Backing) : Tally := MkTally (GetBestBlock (coins s) b).2 (burn_cache s) 0 0 0 0 [].

(** The hypotheses on a block and the coins that the loop's lemma needs. *)
Definition sound_block (h : Z) (m : gmap COutPoint Coin) (vtx : list CTransaction) (b : Backing) (s : Money) : Prop :=
  means (coins s) b (λ o, m !! o) ∧ coins_ok m ∧ Forall checked vtx ∧ new_ids m (txhash <$> vtx) ∧ 0 ≤ h ∧ lastCheckpoint ≤ h ∧ h + 1 < 2 ^ 31.

(** C25: the check that a block mints no more than its reward is a check modulo [2 ^ 64].
    Take any block that is not proof of stake, of checked transactions, with any number of
    coinstakes, whose transactions pass one by one.  If it mints [d] units and [k] times
    [2 ^ 64] more, with [d] at most the reward, then it is connected for every [k]: the coins
    are those of all its outputs, and the supply grows by [d] alone. *)
Theorem mint_check_wraps hashGenesisBlock hashBlock h vtx b s m t reward k d :
  sound_block h m vtx b s → 0 ≤ nMoneySupply s ≤ nMaxMoneyOut params → hashBlock ≠ hashGenesisBlock →
  IsProofOfStake vtx = false → NetworkUpgradeActive params (h + 1) UPGRADE_ADAM = Some true →
  connect_txs false b (h + 1) vtx (first_tally s b) = Accepted t →
  block_out vtx - block_in (h + 1) m vtx = k * 2 ^ 64 + d → block_fees (h + 1) m vtx < 2 ^ 61 →
  GetBlockValue params (nMoneySupply s) (h + 1) = Some reward → - 2 ^ 61 ≤ d ≤ reward →
  ∃ s', ConnectBlock false hashGenesisBlock (GetBestBlock (coins s) b).1 hashBlock (h + 1) vtx b s = Accepted (tail (vtxundo t), s') ∧
    means (coins s') b (λ o, block_coins (h + 1) m vtx !! o) ∧ nMoneySupply s' = nMoneySupply s + d.
Proof using Hmax.
  intros (Hm & Hok & Hc & Hnew & Hh & Hcp & Hh2) Hs Hg Hpow Hadam Et Hmint Hfees Er Hd.
  destruct (GetBlockValue_bounds params (nMoneySupply s) (h + 1)) as (r & Er' & Hr & _); [lia..|]. rewrite Er in Er'. injection Er' as <-.
  unfold first_tally in Et. pose proof (GetBestBlock_means _ _ _ Hm) as Hm0.
  destruct (connect_txs_spec false b (h + 1) vtx (MkTally (GetBestBlock (coins s) b).2 (burn_cache s) 0 0 0 0 []) t m 0 0 0)
    as (Hm1 & _ & _ & Hf & _ & EF & EI & EO & _); [done|done|done|lia|lia|done..|]. rewrite Z.add_0_l in EF, EI, EO.
  assert (∀ x, i64 (k * 2 ^ 64 + x) = i64 x) as Ek.
  { intros x. unfold i64. rewrite !u64_mod. f_equal. 
    replace (k * 2 ^ 64 + x + 0x8000000000000000) with (x + 0x8000000000000000 + k * 2 ^ 64) by lia. by rewrite Z.mod_add by lia. }
  unfold ConnectBlock.ConnectBlock. destruct (GetBestBlock (coins s) b) as [best v]. cbn [fst snd] in *.
  rewrite Z.eqb_refl, (proj2 (Z.eqb_neq _ _) Hg), Hadam, Hpow. cbn [negb]. rewrite NetworkUpgradeActive_spec by lia.
  rewrite !andb_false_r. cbn [negb]. rewrite Et. cbn [mbind answer_bind]. unfold mint_ok. rewrite Er, Hpow. cbn [mbind option_bind].
  rewrite EF, EI, EO, i64_sub, i64_i64, Hmint, <- Z.add_assoc, !Ek. unfold COIN in *.
  rewrite (i64_id (block_fees _ _ _)), !(i64_id (_ + _)), (i64_id d) by lia.
  rewrite (proj2 (Z.leb_le _ _)) by lia. eexists. split; [done|]. split; [by apply set_best_means|]. cbn [nMoneySupply]. apply i64_id. lia.
Qed.




(** ** Disconnecting *)

Abbreviation disconnect_sums := (disconnect_sums Hash160 DynamicUsage).
Abbreviation DisconnectBlock_supply := (DisconnectBlock_supply Hash160 DynamicUsage).

Lemma disconnect_sums_app l1 l2 v b fClean outs ins fClean' outs' ins' v' :
  disconnect_sums l1 v b fClean outs ins = Done (Some (fClean', outs', ins'), v') →
  disconnect_sums (l1 ++ l2) v b fClean outs ins = disconnect_sums l2 v' b fClean' outs' ins'.
Proof using Type.
  revert v fClean outs ins. induction l1 as [|[tx u] l1 IH]; intros v fClean outs ins; cbn [ConnectBlock.disconnect_sums app].
  { by intros [= -> -> -> ->]. }
  destruct (GetValueOut tx); [done|]. destruct (disconnect_tx _ _ _ _ _ _ _) as [[[c|] v1]| |]; try done.
  destruct (IsCoinBase tx || _); [apply IH|]. destruct (HaveInputs _ _ _ _) as [[|] v2]; [|apply IH].
  destruct (GetValueIn _ _ _ _). apply IH.
Qed.

(** One transaction: its inputs are back when they are counted. *)
Lemma disconnect_one h m tx undo v b O I :
  checked tx → undo_ok h m tx undo → means v b (λ o, coins_after h tx m !! o) →
  ∃ v', disconnect_sums [(tx, undo)] v b true (i64 O) (i64 I) = Done (Some (true, i64 (O + tx_out tx), i64 (I + tx_in m tx)), v') ∧
    means v' b (λ o, m !! o).
Proof using Hmax.
  intros Hc [Hfit Hundo] Hm. destruct (checked_out tx Hc) as (_ & _ & Eo). cbn [ConnectBlock.disconnect_sums]. rewrite Eo.
  destruct (disconnect_tx_means DynamicUsage Hash160 tx v b (λ o, m !! o) h undo) as (v1 & -> & Hm1); [|done..|].
  { eapply means_ext; [|exact Hm]. intros o. by rewrite coins_after_lookup. }
  rewrite i64_i64. unfold tx_in. destruct (IsCoinBase tx || _) eqn:Hb; [exists v1; by rewrite Z.add_0_r|].
  destruct (checked_spends tx Hc Hb) as [Es _]. destruct Hfit as (_ & Hin & _). rewrite Es, Forall_fmap in Hin.
  assert (Forall (λ i, is_Some (m !! prevout i)) (vin tx)) as Hin' by (eapply Forall_impl; [exact Hin|]; by intros i (c & -> & _)).
  unfold HaveInputs, GetValueIn. apply orb_false_iff in Hb as [-> _]. pose proof Hm1 as (Hne & _ & Hu).
  destruct (HaveInputs_loop_spec DynamicUsage v1 b (vin tx) Hne) as [Hh Hs].
  destruct (HaveInputs_loop DynamicUsage v1 b (vin tx)) as [have v2]. simpl in Hs. cbn [fst] in Hh.
  rewrite (proj2 Hh) by (eapply Forall_impl; [exact Hin'|]; intros i Hi; cbv beta in *; by rewrite Hu).
  destruct (GetValueIn_loop_spec v2 b (vin tx) (λ o, m !! o) 0) as (v3 & E & Hm3); [by apply (means_same v1)|done|].
  change (i64 0) with 0 in E. rewrite E, Z.add_0_l. exists v3. split; [|done]. by rewrite i64_add.
Qed.

Lemma disconnect_sums_spec h m vtx undos v b :
  Forall checked vtx → undos_ok h m vtx undos → means v b (λ o, block_coins h m vtx !! o) →
  ∃ v', disconnect_sums (rev (zip vtx undos)) v b true 0 0 = Done (Some (true, i64 (block_out vtx), i64 (block_in h m vtx)), v') ∧
    means v' b (λ o, m !! o).
Proof using Hmax.
  intros Hc. revert m undos v. induction Hc as [|tx vtx Htx _ IH]; intros m [|u undos] v Hu Hm; try done.
  { exists v. done. }
  destruct Hu as [Hu Hus]. destruct (IH _ undos v Hus Hm) as (v1 & E1 & Hm1). cbn [zip zip_with rev].
  rewrite (disconnect_sums_app _ _ _ _ _ _ _ _ _ _ _ E1).
  destruct (disconnect_one h m tx u v1 b (block_out vtx) (block_in h (coins_after h tx m) vtx) Htx Hu Hm1) as (v2 & -> & Hm2).
  exists v2. split; [|done]. cbn [block_out foldr block_in]. fold (block_out vtx).
  by rewrite (Z.add_comm (tx_out tx)), (Z.add_comm (tx_in m tx)).
Qed.

Lemma undos_ok_length h m vtx undos : undos_ok h m vtx undos → length undos = length vtx.
Proof using Type. revert m undos. induction vtx as [|tx vtx IH]; intros m [|u undos]; try done. intros [_ Hu]. simpl. f_equal. by eapply IH. Qed.

Lemma DisconnectBlock_money hashBlock hashPrevBlock h m vtx undos v b supply :
  Forall checked vtx → undos_ok h m vtx ([] :: undos) → means v b (λ o, block_coins h m vtx !! o) →
  - 2 ^ 62 ≤ supply - (block_out vtx - block_in h m vtx) < 2 ^ 62 → (GetBestBlock v b).1 = hashBlock →
  ∃ v', DisconnectBlock_supply hashBlock hashPrevBlock vtx undos v b supply =
      Done (DISCONNECT_OK, v', supply - (block_out vtx - block_in h m vtx)) ∧ means v' b (λ o, m !! o).
Proof using Hmax.
  intros Hc Hu Hm Hs Hbest. unfold ConnectBlock.DisconnectBlock_supply. apply GetBestBlock_means in Hm.
  destruct (GetBestBlock v b) as [best v0]. cbn [fst snd] in *. subst best. rewrite Z.eqb_refl. cbn [negb].
  pose proof (undos_ok_length _ _ _ _ Hu) as L. cbn [length] in L. rewrite Nat.add_1_r, L, Nat.eqb_refl. cbn [negb].
  destruct (disconnect_sums_spec _ _ _ _ _ _ Hc Hu Hm) as (v' & -> & Hm'). exists (set_best hashPrevBlock v').
  split; [|by apply set_best_means]. do 2 f_equal. rewrite i64_sub, i64_sub_r, i64_id by lia. done.
Qed.

(** ** A node that connects and disconnects blocks *)

(** The blocks connected since the start, the last first, with their undo records. *)
Record Node := MkNode {
  height : Z;
  blocks : list (list CTransaction * list (list Coin));
  money : Money;
  backing : Backing
}.

Definition supply (n : Node) : Z := nMoneySupply (money n).

Inductive node_step : Node → Node → Prop :=
| connect_step n hashGenesisBlock hashPrevBlock hashBlock vtx undos s :
    height n + 1 < 2 ^ 31 → block_ok (coins (money n)) (backing n) vtx → hashBlock ≠ hashGenesisBlock →
    ConnectBlock false hashGenesisBlock hashPrevBlock hashBlock (height n + 1) vtx (backing n) (money n) = Accepted (undos, s) →
    node_step n (MkNode (height n + 1) ((vtx, undos) :: blocks n) s (backing n))
| disconnect_step n hashBlock hashPrevBlock vtx undos l r v burns s :
    blocks n = (vtx, undos) :: l →
    DisconnectBlock_supply hashBlock hashPrevBlock vtx undos (coins (money n)) (backing n) (supply n) = Done (r, v, s) →
    node_step n (MkNode (height n - 1) l (MkMoney v burns s) (backing n))
| cache_step n v b :
    (∀ f, means (coins (money n)) (backing n) f → means v b f) →
    node_step n (MkNode (height n) (blocks n) (MkMoney v (burn_cache (money n)) (supply n)) b).

(** The coins [m] and the supply [s] at height [h], and before each of the blocks. *)
Inductive backed : Z → list (list CTransaction * list (list Coin)) → gmap COutPoint Coin → Z → Prop :=
| backed_start h m s :
    0 ≤ h → lastCheckpoint ≤ h → coins_ok m → total m ≤ s ≤ cap h → backed h [] m s
| backed_block h l m s vtx undos :
    backed h l m s → Forall checked vtx → undos_ok (h + 1) m vtx ([] :: undos) → coins_ok (block_coins (h + 1) m vtx) →
    total (block_coins (h + 1) m vtx) ≤ s + (block_out vtx - block_in (h + 1) m vtx) ≤ cap (h + 1) →
    backed (h + 1) ((vtx, undos) :: l) (block_coins (h + 1) m vtx) (s + (block_out vtx - block_in (h + 1) m vtx)).

Lemma backed_facts h l m s : backed h l m s → 0 ≤ h ∧ lastCheckpoint ≤ h ∧ coins_ok m ∧ total m ≤ s ≤ cap h.
Proof using Type. induction 1; [done|]. split_and!; [lia|lia|done|lia|lia]. Qed.

Lemma backed_inv h' vtx undos l m' s' :
  backed h' ((vtx, undos) :: l) m' s' →
  ∃ h m s, h' = h + 1 ∧ m' = block_coins (h + 1) m vtx ∧ s' = s + (block_out vtx - block_in (h + 1) m vtx) ∧
    backed h l m s ∧ Forall checked vtx ∧ undos_ok (h + 1) m vtx ([] :: undos).
Proof using Type. inversion 1; subst. by eexists _, _, _. Qed.

Definition node_ok (n : Node) : Prop :=
  ∃ m, means (coins (money n)) (backing n) (λ o, m !! o) ∧ backed (height n) (blocks n) m (supply n).

Lemma disconnect_ok n vtx undos l hashBlock hashPrevBlock :
  node_ok n → blocks n = (vtx, undos) :: l → (GetBestBlock (coins (money n)) (backing n)).1 = hashBlock →
  ∃ v s m, DisconnectBlock_supply hashBlock hashPrevBlock vtx undos (coins (money n)) (backing n) (supply n) = Done (DISCONNECT_OK, v, s) ∧
    means v (backing n) (λ o, m !! o) ∧ backed (height n - 1) l m s.
Proof using Hmax.
  intros (m' & Hm & Hb) El <-. rewrite El in Hb. destruct (backed_inv _ _ _ _ _ _ Hb) as (h & m & s & -> & -> & -> & Hb0 & Hc & Hu).
  destruct (backed_facts _ _ _ _ Hb0) as (_ & _ & Hok0 & Hs0). pose proof (total_nonneg _ Hok0). pose proof (cap_le h).
  destruct (DisconnectBlock_money (GetBestBlock (coins (money n)) (backing n)).1 hashPrevBlock (h + 1) m vtx undos
    (coins (money n)) (backing n) (s + (block_out vtx - block_in (h + 1) m vtx))) as (v & E & Hv); [done|done|done|lia|done|].
  exists v, s, m. rewrite E. split_and!; [do 2 f_equal; lia|done|]. by replace (h + 1 - 1) with h by lia.
Qed.

Lemma node_step_ok n n' : node_step n n' → node_ok n → node_ok n'.
Proof using Hmax.
  intros [n0 g p x vtx undos s Hh Hblk Hg E|n0 x p vtx undos l r v burns s El E|n0 v b Hsame] Hok.
  - destruct Hok as (m & Hm & Hb). destruct (backed_facts _ _ _ _ Hb) as (H0 & Hcp & Hok & Hs). pose proof Hblk as (Hc & _).
    destruct (ConnectBlock_money _ _ _ _ _ _ _ _ _ _ Hm Hok Hs H0 Hcp Hh Hblk Hg E) as (Hm' & Hok' & Hs' & Es & Hu).
    exists (block_coins (height n0 + 1) m vtx). split; [done|]. unfold supply in *. cbn [height blocks money].
    rewrite Es in *. by constructor.
  - destruct (Z.eq_dec x (GetBestBlock (coins (money n0)) (backing n0)).1) as [Hx|Hx].
    + destruct (disconnect_ok n0 vtx undos l x p Hok El (eq_sym Hx)) as (v' & s' & m & E' & Hm & Hb). rewrite E in E'.
      injection E' as -> -> ->. by exists m.
    + exfalso. unfold ConnectBlock.DisconnectBlock_supply in E. destruct (GetBestBlock _ _) as [best w]. cbn [fst] in Hx.
      by rewrite (proj2 (Z.eqb_neq _ _) Hx) in E.
  - destruct Hok as (m & Hm & Hb). exists m. split; [by apply Hsame|done].
Qed.

(** C4: the money supply is capped, through any reorganisation.  Start with coins that are
    worth no more than the supply, at or after the last checkpoint, and connect blocks that
    [ConnectBlock] accepts, of checked transactions, of which at most two may mint, with ids
    that no unspent coin has; disconnect blocks again, and flush or drop caches.  Then the
    coins are never worth more than the supply, the supply is at most 100 coins for each
    block before height 10000 and at most the network's maximum after it, so the 64-bit sums
    never wrap around, and the last block can always be disconnected cleanly. *)
Theorem money_supply_capped n n' m0 :
  means (coins (money n)) (backing n) (λ o, m0 !! o) → coins_ok m0 → total m0 ≤ supply n ≤ cap (height n) →
  blocks n = [] → 0 ≤ height n → lastCheckpoint ≤ height n → rtc node_step n n' →
  (∃ m, means (coins (money n')) (backing n') (λ o, m !! o) ∧ coins_ok m ∧ 0 ≤ total m ≤ supply n') ∧
  supply n' ≤ cap (height n') ∧ cap (height n') ≤ nMaxMoneyOut params ∧
  ∀ vtx undos l hashPrevBlock, blocks n' = (vtx, undos) :: l →
    ∃ v s, DisconnectBlock_supply (GetBestBlock (coins (money n')) (backing n')).1 hashPrevBlock vtx undos
      (coins (money n')) (backing n') (supply n') = Done (DISCONNECT_OK, v, s).
Proof using Hmax.
  intros Hm Hok Hs El Hh Hcp Hsteps. assert (node_ok n') as Hn'.
  { assert (node_ok n) as Hn by (exists m0; split; [done|]; rewrite El; by constructor).
    clear -Hsteps Hn Hmax. induction Hsteps as [|n n1 n' Hstep _ IH]; [done|]. apply IH. by apply (node_step_ok n). }
  pose proof Hn' as (m & Hm' & Hb). destruct (backed_facts _ _ _ _ Hb) as (_ & _ & Hok' & Hs').
  pose proof (total_nonneg m Hok'). split_and!; [by exists m; split_and!; try lia|lia|apply cap_le|].
  intros vtx undos l p E. destruct (disconnect_ok n' _ _ _ _ p Hn' E eq_refl) as (v & s & _ & E' & _). by exists v, s.
Qed.
End Money.

(** ** Concrete blocks *)

Definition out_of (k : Z) : CTxOut := NewTxOut k [OP_1].
Definition in_of (o : COutPoint) : CTxIn := MkTxIn o [] SEQUENCE_FINAL [].

Definition coinbase_of (id k : Z) : CTransaction :=
  MkTransaction 1 [MkTxIn (MkOutPoint 0 0xFFFFFFFF) [OP_1; OP_1] SEQUENCE_FINAL []] [out_of k] 0 id.

(** The functions that stand for other code, as constants, and the network's maximum; no
    checkpoint, no burn address, every script valid. *)
Definition demo_connect (nHeight : Z) (vtx : list CTransaction) (b : Backing) (s : Money) : answer (list (list Coin) * Money * Backing) :=
  ConnectTip_view id demo_usage demo_params 0 (λ _ _ _, 0) 0 (λ _, None) (λ _, []) ∅ (λ _ _ _, true) (λ _ _ _, true)
    1 3 4 nHeight vtx b s.

Definition demo_supply : Money := MkMoney [empty_cache] ∅ 1000000000000.

(** A proof-of-work block: a coinbase, a payment, and 879 coinstakes, each of a coin of one
    unit. *)
Definition staked (k : nat) : COutPoint := MkOutPoint (Z.of_nat k + 10) 0.

Definition stake (k : nat) : CTransaction :=
  MkTransaction 1 [in_of (staked k)]
    [NewTxOut 0 []; out_of (if Nat.eqb k 0 then 2 ^ 64 - 878 * (210000000 * COIN) + 879 else 210000000 * COIN)] 0 (Z.of_nat k + 10000).

(** The shares of treasury and faucet, 105000000 and 10500000 of 15 coins. *)
Definition stakes_coinbase : CTransaction :=
  MkTransaction 1 (vin (coinbase_of 9000 0)) [out_of 105000000; out_of 10500000] 0 9000.

Definition stakes_block : list CTransaction :=
  stakes_coinbase :: MkTransaction 1 [in_of (staked 879)] [out_of 1] 0 9001 :: (stake <$> seq 0 879).

Definition stakes_db : Backing :=
  CCoinsViewDB (list_to_map ((λ k, (staked k, NewCoin (out_of 1) 50 false false)) <$> seq 0 880)) 3.

(** The unspent coins at the outputs of the transactions. *)
Definition created_coins (vtx : list CTransaction) (v : list Cache) (b : Backing) : Z :=
  foldr (λ tx s, foldr (λ k s, match utxo v b (MkOutPoint (txhash tx) (Z.of_nat k)) with Some c => nValue (out c) + s | None => s end)
    s (seq 0 (length (vout tx)))) 0 vtx.

(** The supply and the coins created, when a block is connected. *)
Definition connected (vtx : list CTransaction) (r : answer (list (list Coin) * Money * Backing)) : option (Z * Z) :=
  match r with Accepted (_, s, b) => Some (nMoneySupply s, created_coins vtx (coins s) b) | _ => None end.

(** The whole of it for one block, through the flush into the tip.  The coinstakes of [stakes_block] pass the checks of transactions one
    by one, the block has one coinbase, first, which pays treasury and faucet, and its second
    transaction is no coinstake, so that the rules of [CheckBlock] for coinstakes do not
    apply; its inputs are 880 units, its reward is 15 coins, and it is connected and leaves
    more than [2 ^ 64] units of new coins at the tip, about 900 times the maximum, while the
    supply grows by what the coinbase pays. *)
Lemma coinstakes_mint_without_limit :
  forallb (λ tx, bool_decide (@CheckTransaction lp64 demo_hash id demo_params tx = Pass)) stakes_block = true ∧
  treasury_valid [OP_1] [OP_1] 20000 (15 * COIN) (vout stakes_coinbase) = true ∧
  map IsCoinBase stakes_block = true :: repeat false 880 ∧ IsProofOfStake stakes_block = false ∧
  bool_decide (NoDup (txhash <$> stakes_block)) = true ∧
  (∃ db, stakes_db = CCoinsViewDB db 3 ∧ total db = 880) ∧
  GetBlockValue demo_params (nMoneySupply demo_supply) 20000 = Some (15 * COIN) ∧
  connected stakes_block (demo_connect 20000 stakes_block stakes_db demo_supply) =
    Some (nMoneySupply demo_supply + 115500000, 2 ^ 64 + 115500880).
Proof.
  split; [vm_compute; reflexivity|]. split; [vm_compute; reflexivity|]. split; [vm_compute; reflexivity|].
  split; [vm_compute; reflexivity|]. split; [vm_compute; reflexivity|]. split; [eexists; split; [reflexivity|vm_compute; reflexivity]|].
  split; vm_compute; reflexivity.
Qed.

Definition stakes_coins : gmap COutPoint Coin :=
  list_to_map ((λ k, (staked k, NewCoin (out_of 1) 50 false false)) <$> seq 0 880).

Lemma stakes_coin o c : stakes_coins !! o = Some c → ∃ k, o = staked k ∧ c = NewCoin (out_of 1) 50 false false ∧ (k < 880)%nat.
Proof.
  intros (k & [= -> ->] & Hk%elem_of_seq)%elem_of_list_to_map_2%list_elem_of_fmap. exists k. split_and!; [done..|lia].
Qed.

Lemma stakes_sound : @sound_block lp64 demo_hash id demo_params 0 19999 stakes_coins stakes_block stakes_db demo_supply.
Proof.
  split_and!; [| | | |lia..].
  - split; [done|]. split; [split; [done|]|].
    + intros o c (k & _ & -> & _)%stakes_coin. done.
    + intros o. unfold utxo, live, demo_supply, stakes_db. cbn [coins found]. change (cacheCoins empty_cache !! o) with (None : option CCoinsCacheEntry).
      cbn [backing_GetCoin]. fold stakes_coins. destruct (stakes_coins !! o) as [c|] eqn:E; [|done]. by apply stakes_coin in E as (k & _ & -> & _).
  - intros o c (k & _ & -> & _)%stakes_coin. by vm_compute.
  - apply Forall_forall. intros tx Htx.
    assert (forallb (λ tx, bool_decide (@CheckTransaction lp64 demo_hash id demo_params tx = Pass) && (Z.of_nat (length (vout tx)) <=? 2 ^ 32))
      stakes_block = true) as F by (vm_compute; reflexivity).
    rewrite forallb_forall in F. specialize (F tx (proj1 (list_elem_of_In _ _) Htx)). apply andb_true_iff in F as [F1%bool_decide_eq_true F2%Z.leb_le].
    by split.
  - split; [apply (bool_decide_eq_true_1 _); vm_compute; reflexivity|].
    intros o [c (k & -> & _ & Hk)%stakes_coin]. cbn [hash staked]. intros Hin.
    assert (forallb (λ id, 9000 <=? id) (txhash <$> stakes_block) = true) as F by (vm_compute; reflexivity).
    rewrite forallb_forall in F. specialize (F _ (proj1 (list_elem_of_In _ _) Hin)). apply Z.leb_le in F. lia.
Qed.

(** The block of 879 coinstakes mints [2 ^ 64] units more than the supply shows. *)
Lemma mint_check_wraps_witness :
  ∃ undos s', ConnectBlock id demo_usage demo_params 0 (λ _ _ _, 0) 0 (λ _, None) (λ _, []) ∅ (λ _ _ _, true) (λ _ _ _, true)
      false 1 3 4 20000 stakes_block stakes_db demo_supply = Accepted (undos, s') ∧
    nMoneySupply s' = nMoneySupply demo_supply + 115500000 ∧
    block_out stakes_block - block_in id 20000 stakes_coins stakes_block = 1 * 2 ^ 64 + 115500000.
Proof.
  destruct (connect_txs id demo_usage demo_params 0 (λ _ _ _, 0) 0 (λ _, None) (λ _, []) ∅ (λ _ _ _, true) (λ _ _ _, true)
    false stakes_db 20000 stakes_block (first_tally demo_supply stakes_db)) as [t|? ?|] eqn:Et.
  2, 3: exfalso; assert (match connect_txs id demo_usage demo_params 0 (λ _ _ _, 0) 0 (λ _, None) (λ _, []) ∅ (λ _ _ _, true) (λ _ _ _, true)
      false stakes_db 20000 stakes_block (first_tally demo_supply stakes_db) with Accepted _ => true | _ => false end = true) as F
      by (vm_compute; reflexivity); rewrite Et in F; discriminate F.
  assert (block_out stakes_block - block_in id 20000 stakes_coins stakes_block = 1 * 2 ^ 64 + 115500000) as Em by (vm_compute; reflexivity).
  destruct (@mint_check_wraps lp64 demo_hash id demo_usage demo_params ltac:(vm_compute; split; [discriminate|reflexivity]) 0
    (λ _ _ _, 0) 0 (λ _, None) (λ _, []) ∅ (λ _ _ _, true) (λ _ _ _, true) 1 4 19999 stakes_block stakes_db demo_supply stakes_coins t
    (15 * COIN) 1 115500000 stakes_sound) as (s' & E & _ & Hs').
  - vm_compute. split; discriminate.
  - discriminate.
  - vm_compute. reflexivity.
  - vm_compute. reflexivity.
  - exact Et.
  - exact Em.
  - vm_compute. reflexivity.
  - vm_compute. reflexivity.
  - vm_compute. split; discriminate.
  - exists (tail (vtxundo t)), s'. split; [exact E|]. split; [exact Hs'|exact Em].
Defined.

(** A block with the coinbase of an earlier block, whose output is not spent yet. *)
Definition again_db : Backing := CCoinsViewDB {[MkOutPoint 9000 0 := NewCoin (out_of 50) 10 true false]} 3.

Definition again_tip : list Cache := (HaveCoin demo_usage [empty_cache] again_db (MkOutPoint 9000 0)).2.

(** A node's cache decides whether it accepts a block that repeats a coinbase.  Nothing
    ties a coinbase to its height, so that a block may have the coinbase of an earlier one;
    [AddCoins] relies on the opposite.  Of two nodes with the same unspent coins, the one
    that has looked the old output up ends in the [logic_error] of [BatchWrite], the other
    connects the block. *)
Lemma duplicate_coinbase_splits_nodes :
  let vtx := [coinbase_of 9000 50] in
  bool_decide (@CheckTransaction lp64 demo_hash id demo_params (coinbase_of 9000 50) = Pass) = true ∧
  means [empty_cache] again_db (utxo [] again_db) ∧ means again_tip again_db (utxo [] again_db) ∧
  connected vtx (demo_connect 20000 vtx again_db (MkMoney [empty_cache] ∅ 1000000000000)) = Some (1000000000050, 50) ∧
  demo_connect 20000 vtx again_db (MkMoney again_tip ∅ 1000000000000) = Aborted.
Proof.
  cbv zeta. split; [vm_compute; reflexivity|]. assert (means [empty_cache] again_db (utxo [] again_db)) as Hm.
  { split; [done|]. split; [|done]. split; [done|]. intros o c. unfold again_db. rewrite lookup_singleton_Some. by intros [_ <-]. }
  split; [done|]. split; [|split; vm_compute; reflexivity]. apply (means_same demo_usage [empty_cache]); [done|].
  apply HaveCoin_spec.
Qed.

Definition start_node : Node := MkNode 1 [] (MkMoney [empty_cache] ∅ 0) (CCoinsViewDB ∅ 3).

Definition first_reward : list CTransaction := [coinbase_of 9000 (100 * COIN)].

Definition first_money : Money :=
  match ConnectBlock id demo_usage demo_params 0 (λ _ _ _, 0) 0 (λ _, None) (λ _, []) ∅ (λ _ _ _, true) (λ _ _ _, true)
          false 1 3 4 2 first_reward (backing start_node) (money start_node) with
  | Accepted (_, s) => s
  | _ => money start_node
  end.

(** The first reward, on the network's maximum. *)
Lemma money_supply_capped_witness :
  let n := MkNode 2 [(first_reward, [])] first_money (backing start_node) in
  supply n = 100 * COIN ∧ supply n ≤ cap demo_params (height n) ∧
  ∃ v s, DisconnectBlock_supply id demo_usage (GetBestBlock (coins (money n)) (backing n)).1 3 first_reward []
    (coins (money n)) (backing n) (supply n) = Done (DISCONNECT_OK, v, s).
Proof.
  destruct (@money_supply_capped lp64 demo_hash id demo_usage demo_params ltac:(vm_compute; split; [discriminate|reflexivity]) 0
    (λ _ _ _, 0) 0 (λ _, None) (λ _, []) ∅ (λ _ _ _, true) (λ _ _ _, true) start_node
    (MkNode 2 [(first_reward, [])] first_money (backing start_node)) ∅) as (_ & Hs & _ & Hd).
  - split; [done|]. split; [|done]. split; [done|]. intros o c. by rewrite lookup_empty.
  - intros o c. by rewrite lookup_empty.
  - vm_compute. split; discriminate.
  - done.
  - done.
  - done.
  - apply rtc_once. apply (connect_step demo_hash id demo_usage demo_params) with (n := start_node) (hashGenesisBlock := 1) (hashPrevBlock := 3) (hashBlock := 4); [done| |done|].
    + split; [|split; [by vm_compute|split; [by eexists _, _|split; [apply NoDup_singleton|]]]].
      * constructor; [|constructor]. split; [vm_compute; reflexivity|by vm_compute].
      * intros o [c Hc]. exfalso. vm_compute in Hc. discriminate.
    + vm_compute. reflexivity.
  - split; [vm_compute; reflexivity|]. split; [exact Hs|]. exact (Hd first_reward [] [] 3 eq_refl).
Defined.

(** A payment to the key hash of twenty bytes [k]. *)
Definition to_key (k : Z) : CScript := [OP_DUP; OP_HASH160; 20] ++ repeat k 20 ++ [OP_EQUALVERIFY; OP_CHECKSIG].

(** The coin of the key 1 is paid to the burn address, the key 2. *)
Definition burned_coin : Coin := NewCoin (NewTxOut 1000 (to_key 1)) 50 false false.

Definition burn_tx : CTransaction := MkTransaction 1 [in_of (MkOutPoint 10 0)] [NewTxOut 1000 (to_key 2)] 0 11.

Definition burn_db : Backing := CCoinsViewDB {[MkOutPoint 10 0 := burned_coin]} 3.

(** A block whose coinbase takes a coin too much. *)
Definition greedy_connect (id : Z) (bc : BurnCache) : answer (list (list Coin) * Money) :=
  ConnectBlock (λ k, k) demo_usage demo_params 0 (λ _ _ _, 0) 0 (λ _, None) (λ d, match d with CKeyID h => h | _ => [] end)
    {[repeat 2 20 := 0]} (λ _ _ _, true) (λ _ _ _, true) false 1 3 4 20000 [coinbase_of id (16 * COIN); burn_tx] burn_db
    (MkMoney [empty_cache] bc 1000000000000).


(** The burns a block refused for its reward leaves. *)
Definition left_by (r : answer (list (list Coin) * Money)) : option BurnCache :=
  match r with Rejected bad_cb_amount bc => Some bc | _ => None end.

(** After two such blocks with the same burn the weight of the burner counts it twice, and
    the coin is not burned. *)
Lemma burn_counted_twice :
  utxo [empty_cache] burn_db (MkOutPoint 10 0) = Some burned_coin ∧
  (bc1 ← left_by (greedy_connect 9000 ∅); bc2 ← left_by (greedy_connect 9001 bc1);
   Some (GetActiveBurnWeight 259200 bc1 (CKeyID (repeat 1 20)) 20000, GetActiveBurnWeight 259200 bc2 (CKeyID (repeat 1 20)) 20000)) =
  Some (BETA * 1000, 2 * (BETA * 1000)).
Proof. split; vm_compute; reflexivity. Qed.
